(* ===== verification/_CoqProject ===== *)
-Q . S2P
Prelude.v
Objects.v
GoString.v
Libraries.v
Coordinate.v
Fixtures.v
Naming.v
Expectations.v
PodIdentity.v
SetStatus.v
InPlace.v
Cluster.v
CallLog.v
Interfaces.v
Revisions.v
CapturedTemplates.v
PodControl.v
RealPodControl.v
Control.v
StsController.v
Workloads.v
Stone.v
ServerStore.v
StoneStore.v
Water.v
WaterStore.v
Injector.v
Webhook.v
Memory.v
DeepCopy.v
Startup.v
LoopInvariants.v
LoopSimulation.v
ControlCalls.v
ControlSafety.v
NoPanic.v
Convergence.v
Rollout.v
InPlaceRollout.v
StaleReads.v
ControlStatus.v
ControlWitnesses.v
InPlaceWitnesses.v
FullReconcile.v
ServerRollout.v
ServerControl.v
ServerFixtures.v
ServerReconcile.v
ServerInPlace.v
ServerInPlaceReconcile.v
ServerInPlaceWitness.v
