(* ===== verification/Prelude.v ===== *)
(** * Verification of the nuwa operator

    Nuwa is a Kubernetes operator written in Go. This library translates its
    reconcilers, the helpers they call and its admission webhook into executable
    definitions, file by file, and proves what makes them correct. This comment is the
    guide to the whole; every other file opens with its own.

    ** The program

    Four custom resources are served:
    - a [StatefulSet] (a variant of the Kubernetes one: it spreads its pods over
      coordinates and can update pods in place) is reconciled by
      [controllers/statefulset_controller.go], which hands the set and its pods to the
      control loop of [controllers/stateful_set_control.go]. The loop works through
      interfaces: pods ([stateful_pod_control.go]), the set's status
      ([stateful_set_status_updater.go]) and the revision history
      ([revision_control.go]). It shares one process-wide cache of update expectations
      ([util.go]) between reconciles;
    - a [Stone] ([stone_controller.go]) owns one StatefulSet and one Service per group of
      coordinates;
    - a [Water] ([water_controller.go]) owns one Deployment per coordinate and one
      Service;
    - an [Injector] ([injector_controller.go]) touches the pods it selects, so that they
      pass through the webhook ([api/v1/webhook.go]), which adds the injector's
      containers and volumes, and which also limits where the workloads of a namespace
      may run.
    The components meet in the API server only, and in the expectations cache.

    ** How Go is modelled

    - A run is [M W A]: from the outside world [W] to an [Outcome] and a world. A Go
      run-time panic (nil dereference, index out of range, division by zero, ...) is
      [Panic] with its reason, an [error] result is a value ([option Err], or [Result]).
      [F W R A] adds Go's [return] out of a loop or a branch, and [body] is the function
      boundary that ends it; [forLoop] and [forEach] are [range] loops.
    - [int32] and [int64] arithmetic wraps ([int32], [int64] below). Strings are byte
      strings. A map is a [gmap]; where the order of Go's map iteration can be seen, it
      is the parameter [mapRange], known only to be a permutation.
    - A pod the loop holds by pointer is a [Control.Ptr]: the object it points to and its
      present value, so that what is written through one alias is seen through the
      other ([Control.writeBack]). A parameter written through a pointer is returned
      beside the result.
    - A library the repository calls (the API server's client, JSON and patch codecs,
      label selectors, the revision helpers of Kubernetes, retry, clock, events) is a
      class: the operations ([Libraries], [Cluster], [Revisions], [PodControl],
      [Workloads], [Webhook]), and in a class of its own whose name ends in [Laws] the
      documented behaviour some theorems rely on. The witnesses instantiate them with
      concrete functions.
    - The calls a run makes are read off a log the world carries ([CallLog]):
      [emits m P] says of every outcome of [m] and the calls it made that [P] holds,
      whatever the server answers.

    ** The files

    - [Prelude]: panics, the two monads, loops, fixed-width integers, [holds], lists.
    - [Objects]: the API types (the types of [api/v1/statefulset_types.go] and the fields
      of the Kubernetes types the code touches; the rest of an object is opaque).
    - [GoString]: [%d], [ParseInt], [ToLower], the pod-name expression.
    - [Libraries], [Cluster]: the classes above. [Fixtures]: small concrete objects.
    - [Coordinate]: [api/v1/coordinate.go], [controllers/coordinator.go].
    - [Naming], [PodIdentity], [SetStatus]: [controllers/stateful_set_utils.go] (names;
      identity, storage and new pods; status) and the name helpers of [util.go].
    - [Expectations]: the update expectations of [controllers/util.go].
    - [InPlace]: [controllers/stateful_inplace_utils.go].
    - [CallLog]: the logic of logged runs.
    - [Interfaces]: [StatefulPodControlInterface], [StatusUpdaterInterface]
      and [history.Interface] as classes. [Control] is written against them; [PodControl]
      and [Revisions] give the instances the operator runs with, and
      [PodControl.realStatefulPodControl_laws] discharges the laws of the first.
    - [Revisions]: the revision half of [stateful_set_utils.go] and of
      [stateful_set_control.go], and [controllers/revision_control.go].
      [CapturedTemplates]: the documents a revision keeps a template in, and what the codec
      and the patch libraries do with them ([CodecLaws], [PatchLaws]).
    - [PodControl]: [controllers/stateful_pod_control.go] and
      [stateful_set_status_updater.go]. [RealPodControl]: [realpod_control.go].
    - [Control]: [controllers/stateful_set_control.go], the loop.
    - [StsController]: [controllers/statefulset_controller.go].
    - [Workloads]: [api/v1/strategy.go] and what the next two share.
      [Stone]: [api/v1/stone_types.go], [controllers/stone_controller.go].
      [Water]: [api/v1/water_types.go], [controllers/water_controller.go].
      [ServerStore]: a server that keeps what is written to it; [StoneStore], [WaterStore]:
      stones and waters on it.
      [Injector]: [api/v1/injector_types.go], [controllers/injector_controller.go].
      [Webhook]: [api/v1/webhook.go].
    - [Memory], [DeepCopy]: [api/v1/zz_generated.deepcopy.go], on objects whose pointers,
      slices and maps have addresses.
    - [Startup]: [main.go], [api/v1/groupversion_info.go] and the [SetupWithManager]
      functions.
    - The theorems about the loop: [LoopInvariants] (a logic for what the loop preserves),
      [ControlCalls] and [ControlSafety] (its calls), [NoPanic] (it runs to its end),
      [Convergence] (what the calls of a rollout make of a set's pods, as a function on
      the pod of every ordinal) and [Rollout] (repeated reconciles), [InPlaceRollout]
      (repeated reconciles that update in place), [StaleReads]
      (reconciles from old lists), [ControlStatus] (the status), [ControlWitnesses] and
      [InPlaceWitnesses] (concrete reconciles), [LoopSimulation] (a logic for two runs of
      the loop that agree until a call of the first fails).
      [FullReconcile]: the reconciler with all the components it runs with.
    - [ServerRollout]: a reconcile with the operator's pod control on a server that keeps
      what is written, by [LoopSimulation] from what [Rollout] shows. [ServerControl]: the
      control with all its parts on that server. [ServerReconcile]: whole reconciles on it,
      one after the other. [ServerInPlace] and [ServerInPlaceReconcile]: the same for a set
      that is updated in place, from what [InPlaceRollout] shows. [ServerFixtures],
      [ServerInPlaceWitness]: a concrete server and what happens on it.
    A definition has the name of the Go function it translates; a part of one (a loop
    body, the closure of a retry) has a name of its own and a comment where it is not
    plain. [real...] marks a method of an implementation whose name an interface has.

    ** What the theorems show

    - The loop ([ControlSafety], [ControlStatus]). Under ordered management the calls of
      a reconcile are those of an abstract specification, at most one of: create the
      first missing pod once all before it are ready, delete the last extra pod once all
      that should stay are ready, or a bounded update
      ([updateStatefulSet_refines] with its readings [.._ordered_creation] and
      [.._ordered_scaleDown]). An update deletes or rewrites old pods only, from the
      largest ordinal down to the partition, and no more than [maxUnavailable] are away
      ([.._update_bounded]). Under parallel management one reconcile asks for
      all missing and against all extra pods ([.._parallel_complete]). A settled set is
      left alone ([.._settled]). The pods land in the slots of their ordinals
      ([pods_placed]), the status counts them ([countedStatus_counts]), is reported
      with the right revisions ([updateStatefulSet_reported]) and is well formed
      ([updateStatefulSet_status_wf]).
    - The loop over time. If every call succeeds and created pods get ready, reconciles one
      after the other reach the goal from any orderly pods, in a number of rounds that is
      computed from them, and then stop ([rollout_converges]). Whole reconciles with the
      components the operator runs with do the same on a server that keeps what is written,
      where any call may fail: none takes the pods further from the goal, and as many
      as computed that come to the control and have no error there reach it
      ([server_rollout_converges]). When the pods of a set can be updated in place,
      reconciles bring them to the update revision one after the other, each rewritten and
      then marked ready under the name it has, and delete and create none, though the server
      would carry that out ([inPlace_converges]); whole reconciles do so on a server that carries out the writes
      of the pods it has, whatever it answers to the other calls
      ([server_inPlace_converges]). On a set that can be built, with
      a history of captured templates, syncing never panics, whatever the server answers
      ([NoPanic.setReady], [UpdateStatefulSet_total]), and with the real components neither
      does the whole reconcile ([Reconcile_never_panics]). A reconcile whose list does not show an earlier in-place
      update yet updates no further pod ([stale_sync_waits]).
    - Revisions: the update revision matches the set, is new, or is an old one promoted
      ([getStatefulSetRevisions_spec]); the unbounded name-collision loop ends
      ([CreateControllerRevision_terminates]); truncation deletes the oldest revisions no
      pod uses ([truncateHistory_deletes]).
    - Calls to the server: a pod is created after its claims
      ([CreateStatefulPod_claims_first]), updated only towards its identity
      ([UpdateStatefulPod_consistent]), rewritten in place at most once
      ([InPlaceUpdate_writes]); a reconcile acts on the set of its key
      ([Reconcile_calls]), and events about a pod lead to its set
      ([pod_event_reconciles_set]).
    - Objects in memory: a deep copy has the content of its original and shares no address
      with it ([DeepCopy_isolates]). That is why the other files may take an object for an
      immutable value, except where the code writes through a pointer it shares.
    - In-place updates and expectations: an update is applied in place only when its
      difference is made of container images ([shouldDoInPlaceUpdate_sound]), it is
      pending until every such container changed its image ([podInPlaceUpdate_pending]),
      and the cache is satisfied exactly when no pod of its history is outstanding
      ([SatisfiedExpectations_history]).
    - Names, identity, placement: round trips and the membership of new pods ([Naming],
      [PodIdentity], [Coordinate]).
    - Stone, Water, Injector, Webhook: what each may write ([stone_Reconcile_writes],
      [water_Reconcile_writes], [injector_Reconcile_calls]), what a successful reconcile
      has ensured ([water_Reconcile_deploys], [getStatefulSet_plan]), that a Stone spreads
      its pods evenly ([newStatefulSet_spreads]), that on a server which keeps what is
      written a successful reconcile has settled its stone or water for good
      ([stone_settles], [water_settles]), and how the webhook answers about pods and
      workloads, and in which review ([injectorMutatePods_patch],
      [namespaceMutateResource_patch], [serve_answers]).
    Some theorems record where the code departs from its intent: see
    [FullReconcile.Reconcile_orphan_blocks],
    [Naming.realReconcileName_self], [Webhook.mutateVolumes_drops],
    [PodControl.UpdateStatefulSetStatus_stale], [Revisions.UpdateControllerRevision_swallows],
    [Water.reconcile_host_move], [Water.reconcile_alpha],
    [NoPanic.updateStatefulSet_nil_replicas], [ControlWitnesses.currentReplicas_negative] and
    [ControlWitnesses.rollout_stalls].

    ** Bounds and fuel

    One loop of the program is unbounded: [CreateControllerRevision] tries names until
    one is free. [Revisions.createLoop] takes fuel and says [None] when it runs out;
    [CreateControllerRevision_terminates] shows that [S k] turns suffice when the name of
    the [k]-th next collision count is free. Every other recursion is structural over the
    data the code ranges over. How often a retry runs its function is up to the library
    ([RetryLaws] says only that it stops at a success or an error it does not retry), so
    the theorems hold for any number of attempts.

    ** Not modelled

    The manager, its builder and work queues, the HTTP server and the scheme registration of
    the [init] functions are the libraries'; logging has no effect the program reads. The
    mutex of the expectations is held for the whole of each operation, so operations on the
    cache are single steps. A controller has one worker (the default nothing overrides), so
    its reconciles follow one another; between them the world may change in any way.

    [FullReconcile] gives [createLoop] any fuel and sets running out of it apart from Go's
    panics ([NoPanic.mayGoOn]).

    Still open: convergence of an update in place when writes of pods fail
    ([InPlaceRollout] is about a pod control whose calls succeed, and on the server of
    [ServerInPlace] the writes of pods it has do); what such an update writes and when it
    waits is shown without that ([updateStatefulSet_update_bounded], [InPlaceUpdate_writes],
    [stale_sync_waits]). [ServerReconcile] and [ServerInPlaceReconcile] start from pods that
    the set controls already; a delete that succeeds is done at once, and the kubelet acts
    between the reconciles. *)

From Stdlib Require Export ZArith Lia Ascii.
From stdpp Require Export base gmap strings list option pretty sorting numbers.

#[global] Open Scope Z_scope.

Declare Scope nuwa_scope.
Delimit Scope nuwa_scope with nuwa.
#[global] Open Scope nuwa_scope.

(** ** Hint databases: [nuwa] collects the facts automation may use freely. *)
Create HintDb nuwa.
(** [gostring] rewrites string concatenation into constructors. *)
Create Rewrite HintDb gostring.

(** ** Go run-time outcomes *)

(** The run-time panics the modelled code can reach; [OutOfFuel] is not one of
    Go's, it marks an unbounded loop that was given too few turns. *)
Inductive PanicReason :=
  | NilDereference
  | IndexOutOfRange
  | DivideByZero
  | NegativeLength
  | NilMapAssignment
  | TypeAssertion
  | ExplicitPanic
  | OutOfFuel.

(** A Go expression either yields a value or panics. *)
Inductive Outcome (A : Type) :=
  | Ok (a : A)
  | Panic (r : PanicReason).
Arguments Ok {A} a.
Arguments Panic {A} r.

#[export] Instance Outcome_ret : MRet Outcome := fun A a => Ok a.
#[export] Instance Outcome_bind : MBind Outcome := fun A B f o =>
  match o with Ok a => f a | Panic r => Panic r end.

(** [*p] for a pointer that may be nil. *)
Definition deref {A} (p : option A) : Outcome A :=
  match p with Some a => Ok a | None => Panic NilDereference end.

(** [l[i]] for a Go slice. *)
Definition index {A} (l : list A) (i : Z) : Outcome A :=
  if decide (0 <= i) then
    match l !! Z.to_nat i with Some a => Ok a | None => Panic IndexOutOfRange end
  else Panic IndexOutOfRange.

(** ** Errors *)

(** A Go [error] as this code distinguishes them: the API machinery's status
    reasons that [errors.IsNotFound], [IsAlreadyExists], [IsConflict] and
    [IsInvalid] test, an error built by [fmt.Errorf], and an error wrapped by
    [github.com/pkg/errors].WithStack. *)
Inductive Err :=
  | ErrNotFound
  | ErrAlreadyExists
  | ErrConflict
  | ErrInvalid
  | ErrMsg (msg : string)
  | ErrStack (e : Err).

#[export] Instance Err_eq_dec : EqDecision Err.
Proof. solve_decision. Defined.

(** A call result [(T, error)] where the value is only used when the error is nil. *)
Notation Result A := (sum Err A).

(** ** State-passing code

    [M W A] is code that runs in a world of type [W] (the API server, the
    process-wide state) and yields an [A] or panics. *)
Definition M (W A : Type) : Type := W -> Outcome A * W.

#[export] Instance M_ret W : MRet (M W) := fun A a w => (Ok a, w).
#[export] Instance M_bind W : MBind (M W) := fun A B f m w =>
  match m w with
  | (Ok a, w') => f a w'
  | (Panic r, w') => (Panic r, w')
  end.

(** Code that only computes. *)
Definition lift {W A} (o : Outcome A) : M W A := fun w => (o, w).
(** One call that cannot panic. *)
Definition call {W A} (f : W -> A * W) : M W A := fun w => let (a, w') := f w in (Ok a, w').

(** What a loop body does next: go on with the loop variables, or return. *)
Inductive Flow (S R : Type) :=
  | Next (s : S)
  | Return (r : R).
Arguments Next {S R} s.
Arguments Return {S R} r.

(** [for i := range l { body }] with [return] inside the body. *)
Fixpoint forLoop {W I S R} (body : I -> S -> M W (Flow S R)) (l : list I) (s : S)
  : M W (Flow S R) :=
  match l with
  | [] => mret (Next s)
  | i :: l' =>
      f ← body i s;
      match f with
      | Next s' => forLoop body l' s'
      | Return r => mret (Return r)
      end
  end.

(** A loop whose body never returns from the function. *)
Fixpoint forEach {W I S} (body : I -> S -> M W S) (l : list I) (s : S) : M W S :=
  match l with
  | [] => mret s
  | i :: l' => s ← body i s; forEach body l' s
  end.

(** Code with [return] in the middle: [F W R A] goes on with an [A] or returns an
    [R] from the function. *)
Definition F (W R A : Type) : Type := W -> Outcome (Flow A R) * W.

#[export] Instance F_ret W R : MRet (F W R) := fun A a w => (Ok (Next a), w).
#[export] Instance F_bind W R : MBind (F W R) := fun A B f m w =>
  match m w with
  | (Ok (Next a), w') => f a w'
  | (Ok (Return r), w') => (Ok (Return r), w')
  | (Panic r, w') => (Panic r, w')
  end.

(** [return r] *)
Definition return_ {W R A} (r : R) : F W R A := fun w => (Ok (Return r), w).
(** A call inside such code. *)
Definition run {W R A} (m : M W A) : F W R A := fun w =>
  match m w with
  | (Ok a, w') => (Ok (Next a), w')
  | (Panic r, w') => (Panic r, w')
  end.
(** A function body: falling off its end and returning both give its result. *)
Definition body {W R} (m : F W R R) : M W R := fun w =>
  match m w with
  | (Ok (Next r), w') | (Ok (Return r), w') => (Ok r, w')
  | (Panic r, w') => (Panic r, w')
  end.

(** ** Reasoning about state-passing code

    [holds m w Q]: running [m] from [w] ends in an outcome and a world that
    satisfy [Q]. *)
Definition holds {W A} (m : M W A) (w : W) (Q : Outcome A -> W -> Prop) : Prop :=
  Q (m w).1 (m w).2.

Section Holds.
Context {W : Type}.
Implicit Types w : W.

Lemma holds_mono {A} (m : M W A) w (Q Q' : Outcome A -> W -> Prop) :
  holds m w Q -> (forall o w', Q o w' -> Q' o w') -> holds m w Q'.
Proof. unfold holds; auto. Qed.

Lemma holds_and {A} (m : M W A) w (Q Q' : Outcome A -> W -> Prop) :
  holds m w Q -> holds m w Q' -> holds m w (fun o w' => Q o w' /\ Q' o w').
Proof. unfold holds. by destruct (m w). Qed.
Lemma holds_when {A} (P : Prop) (m : M W A) w (Q : Outcome A -> W -> Prop) :
  (P -> holds m w Q) -> holds m w (fun o w' => P -> Q o w').
Proof. unfold holds. destruct (m w). auto. Qed.
Lemma holds_ret {A} (a : A) w (Q : Outcome A -> W -> Prop) :
  Q (Ok a) w -> holds (mret a) w Q.
Proof. done. Qed.

Lemma holds_bind {A B} (m : M W A) (f : A -> M W B) w (Q : Outcome B -> W -> Prop) :
  holds m w (fun o w' => match o with
                         | Ok a => holds (f a) w' Q
                         | Panic r => Q (Panic r) w'
                         end) ->
  holds (m ≫= f) w Q.
Proof.
  unfold holds, mbind, M_bind. destruct (m w) as [[a|r] w']; done.
Qed.

(** A first step whose result is known. *)
Lemma holds_step {A B} (m : M W A) (f : A -> M W B) w a w1 (Q : Outcome B -> W -> Prop) :
  m w = (Ok a, w1) -> holds (f a) w1 Q -> holds (m ≫= f) w Q.
Proof. intros E HQ. apply holds_bind. unfold holds at 1. by rewrite E. Qed.

Lemma holds_lift {A} (o : Outcome A) w (Q : Outcome A -> W -> Prop) :
  Q o w -> holds (lift o) w Q.
Proof. done. Qed.

Lemma holds_call {A} (f : W -> A * W) w (Q : Outcome A -> W -> Prop) :
  Q (Ok (f w).1) (f w).2 -> holds (call f) w Q.
Proof. unfold holds, call. by destruct (f w). Qed.

Lemma holds_fret {R A} (a : A) w (Q : Outcome (Flow A R) -> W -> Prop) :
  Q (Ok (Next a)) w -> holds (mret a : F W R A) w Q.
Proof. done. Qed.

Lemma holds_return {R A} (r : R) w (Q : Outcome (Flow A R) -> W -> Prop) :
  Q (Ok (Return r)) w -> holds (return_ r : F W R A) w Q.
Proof. done. Qed.

Lemma holds_run {R A} (m : M W A) w (Q : Outcome (Flow A R) -> W -> Prop) :
  holds m w (fun o w' => match o with
                         | Ok a => Q (Ok (Next a)) w'
                         | Panic r => Q (Panic r) w'
                         end) ->
  holds (run m : F W R A) w Q.
Proof. unfold holds, run. destruct (m w) as [[a|r] w']; done. Qed.

Lemma holds_fbind {R A B} (m : F W R A) (f : A -> F W R B) w
    (Q : Outcome (Flow B R) -> W -> Prop) :
  holds m w (fun o w' => match o with
                         | Ok (Next a) => holds (f a) w' Q
                         | Ok (Return r) => Q (Ok (Return r)) w'
                         | Panic r => Q (Panic r) w'
                         end) ->
  holds (m ≫= f) w Q.
Proof. unfold holds, mbind, F_bind. destruct (m w) as [[[a|r]|r] w']; done. Qed.

Lemma holds_body {R} (m : F W R R) w (Q : Outcome R -> W -> Prop) :
  holds m w (fun o w' => match o with
                         | Ok (Next r) | Ok (Return r) => Q (Ok r) w'
                         | Panic r => Q (Panic r) w'
                         end) ->
  holds (body m) w Q.
Proof. unfold holds, body. destruct (m w) as [[[a|r]|r] w']; done. Qed.

(** The loop rule: an invariant over the elements visited so far. *)
Lemma holds_forLoop {I S R} (body : I -> S -> M W (Flow S R)) l s w
    (Inv : list I -> S -> W -> Prop) (Q : Outcome (Flow S R) -> W -> Prop) :
  Inv [] s w ->
  (forall done i todo s' w', l = done ++ i :: todo -> Inv done s' w' ->
     holds (body i s') w' (fun o w'' =>
       match o with
       | Ok (Next s'') => Inv (done ++ [i]) s'' w''
       | _ => Q o w''
       end)) ->
  (forall s' w', Inv l s' w' -> Q (Ok (Next s')) w') ->
  holds (forLoop body l s) w Q.
Proof.
  intros H0 Hstep Hend.
  cut (forall todo done s w, l = done ++ todo -> Inv done s w ->
         holds (forLoop body todo s) w Q).
  { intros Hcut. by apply (Hcut l []). }
  clear s w H0. induction todo as [|i todo IH]; intros done s w -> HI; cbn [forLoop].
  { rewrite app_nil_r in Hend. by apply holds_ret, Hend. }
  apply holds_bind. eapply holds_mono; [by eapply Hstep|].
  intros [[s'|r]|r] w' HQ; [|by apply holds_ret|done].
  apply (IH (done ++ [i])); [|done]. by rewrite <-app_assoc.
Qed.
End Holds.

(** ** Machine integers *)

(** The value an [int32] variable holds after an assignment of [z]. *)
Definition int32 (z : Z) : Z := (z + 2 ^ 31) `mod` 2 ^ 32 - 2 ^ 31.
Definition MaxInt32 : Z := 2147483647.
Definition int64 (z : Z) : Z := (z + 2 ^ 63) `mod` 2 ^ 64 - 2 ^ 63.
Definition MaxInt64 : Z := 2 ^ 63 - 1.

Lemma int32_id z : - 2 ^ 31 <= z < 2 ^ 31 -> int32 z = z.
Proof. intros ?. unfold int32. rewrite Z.mod_small; lia. Qed.

Lemma int32_range z : - 2 ^ 31 <= int32 z < 2 ^ 31.
Proof. unfold int32. pose proof (Z.mod_pos_bound (z + 2 ^ 31) (2 ^ 32)). lia. Qed.

Lemma int32_idemp_add a b : int32 (int32 a + b) = int32 (a + b).
Proof.
  unfold int32.
  replace ((a + 2 ^ 31) `mod` 2 ^ 32 - 2 ^ 31 + b + 2 ^ 31)
    with ((a + 2 ^ 31) `mod` 2 ^ 32 + b) by lia.
  rewrite Zplus_mod_idemp_l. do 2 f_equal. lia.
Qed.

(** ** Maps

    Go ranges over a map in an unspecified order: [mapRange] is any enumeration of
    the entries, and the theorems hold for all of them. *)
Class MapRange := {
  mapRange {V : Type} : gmap string V -> list (string * V);
  mapRange_perm {V : Type} (m : gmap string V) : mapRange m ≡ₚ map_to_list m;
}.
Definition canonicalRange : MapRange := {|
  mapRange := fun _ m => map_to_list m;
  mapRange_perm := fun _ m => Permutation_refl _;
|}.

Lemma elem_of_mapRange `{MapRange} {V} (m : gmap string V) k v :
  (k, v) ∈ mapRange m <-> m !! k = Some v.
Proof. by rewrite mapRange_perm, elem_of_map_to_list. Qed.

Lemma filter_fmap_same {A} (f : A -> A) (P : A -> Prop) `{!forall x, Decision (P x)} (l : list A) :
  (forall x, P (f x) <-> P x) -> filter P (f <$> l) = f <$> filter P l.
Proof.
  intros Hf. induction l as [|x l IH]; [done|]. rewrite fmap_cons, !filter_cons, IH.
  rewrite (decide_ext (P (f x)) (P x)) by done. by case_decide.
Qed.

(** What an entry adds to the number of those that satisfy [P]. *)
Lemma size_filter_delete `{Countable K} {A} (P : K * A -> Prop) `{!forall x, Decision (P x)}
    (m : gmap K A) i a :
  m !! i = Some a ->
  size (filter P m) = ((if decide (P (i, a)) then 1 else 0) + size (filter P (delete i m)))%nat.
Proof.
  intros E. rewrite map_filter_delete. case_decide as HP.
  - rewrite map_size_delete_Some; [|by exists a; apply map_lookup_filter_Some].
    destruct (size (filter P m)) eqn:Hz; [|done]. apply map_size_empty_iff in Hz.
    by destruct (map_filter_empty_not_lookup _ _ _ _ Hz HP).
  - rewrite map_size_delete_None; [done|]. apply map_lookup_filter_None. right. naive_solver.
Qed.

(** ** Slices

    A Go slice whose nil-ness the code tests. *)
Notation slice A := (option (list A)).
Definition elems {A} (s : slice A) : list A := default [] s.
