(* ===== verification/Objects.v ===== *)
(** The API objects the operator handles, as records of the fields its code
    reads or writes.

    The nuwa types follow [api/v1/*_types.go]. Of the Kubernetes types
    ([corev1.Pod], [appsv1.ControllerRevision], ...) each record keeps the fields
    the code under [src/] touches, under their Go names; everything else in the
    object is carried unchanged in one opaque [..._rest] field, which is what a
    [DeepCopy] or an assignment of the whole struct preserves. Maps are [gmap]s:
    a nil map and an empty map read alike, and the code never tells them apart
    other than by reading. *)

From S2P Require Import Prelude.

(** ** Metadata *)

Record OwnerReference := mkOwnerReference {
  owner_APIVersion : string;
  owner_Kind : string;
  owner_Name : string;
  owner_UID : string;
  owner_Controller : option bool;
  owner_BlockOwnerDeletion : option bool;
}.

Record ObjectMeta := mkObjectMeta {
  Name : string;
  GenerateName : string;
  Namespace : string;
  UID : string;
  ResourceVersion : string;
  Generation : Z;
  DeletionTimestamp : option Z;
  Labels : gmap string string;
  Annotations : gmap string string;
  OwnerReferences : list OwnerReference;
  Finalizers : list string;
}.

(** [metav1.ObjectMeta{Name: name, Namespace: ns}], every other field zero. *)
Definition metaNamed (ns name : string) : ObjectMeta :=
  mkObjectMeta name "" ns "" "" 0 None ∅ ∅ [] [].

Definition setName (n : string) (m : ObjectMeta) : ObjectMeta :=
  mkObjectMeta n (GenerateName m) (Namespace m) (UID m) (ResourceVersion m) (Generation m)
    (DeletionTimestamp m) (Labels m) (Annotations m) (OwnerReferences m) (Finalizers m).
Definition setNamespace (n : string) (m : ObjectMeta) : ObjectMeta :=
  mkObjectMeta (Name m) (GenerateName m) n (UID m) (ResourceVersion m) (Generation m)
    (DeletionTimestamp m) (Labels m) (Annotations m) (OwnerReferences m) (Finalizers m).
Definition setLabels (l : gmap string string) (m : ObjectMeta) : ObjectMeta :=
  mkObjectMeta (Name m) (GenerateName m) (Namespace m) (UID m) (ResourceVersion m) (Generation m)
    (DeletionTimestamp m) l (Annotations m) (OwnerReferences m) (Finalizers m).
Definition setAnnotations (a : gmap string string) (m : ObjectMeta) : ObjectMeta :=
  mkObjectMeta (Name m) (GenerateName m) (Namespace m) (UID m) (ResourceVersion m) (Generation m)
    (DeletionTimestamp m) (Labels m) a (OwnerReferences m) (Finalizers m).
Definition setOwnerReferences (o : list OwnerReference) (m : ObjectMeta) : ObjectMeta :=
  mkObjectMeta (Name m) (GenerateName m) (Namespace m) (UID m) (ResourceVersion m) (Generation m)
    (DeletionTimestamp m) (Labels m) (Annotations m) o (Finalizers m).
Definition setResourceVersion (v : string) (m : ObjectMeta) : ObjectMeta :=
  mkObjectMeta (Name m) (GenerateName m) (Namespace m) (UID m) v (Generation m)
    (DeletionTimestamp m) (Labels m) (Annotations m) (OwnerReferences m) (Finalizers m).

(** [client.ObjectKey] / [types.NamespacedName]. *)
Record ObjectKey := mkKey { key_Namespace : string; key_Name : string }.
Definition keyOf (m : ObjectMeta) : ObjectKey := mkKey (Namespace m) (Name m).

(** ** Pods *)

Record NodeSelectorRequirement := mkRequirement {
  req_Key : string;
  req_Operator : string;
  req_Values : list string;
}.
Record NodeSelectorTerm := mkTerm {
  MatchExpressions : list NodeSelectorRequirement;
  MatchFields : list NodeSelectorRequirement;
}.
Record PreferredSchedulingTerm := mkPreferred {
  pref_Weight : Z;
  Preference : NodeSelectorTerm;
}.
Record NodeAffinity := mkNodeAffinity {
  (** [RequiredDuringSchedulingIgnoredDuringExecution.NodeSelectorTerms] *)
  Required : option (list NodeSelectorTerm);
  (** [PreferredDuringSchedulingIgnoredDuringExecution] *)
  Preferred : list PreferredSchedulingTerm;
}.
Record AffinityT := mkAffinity {
  aff_NodeAffinity : option NodeAffinity;
  (** PodAffinity and PodAntiAffinity *)
  aff_rest : string;
}.

(** [v1.PersistentVolumeClaimVolumeSource] *)
Record ClaimSource := mkClaimSource { ClaimName : string; ReadOnly : bool }.
Record Volume := mkVolume {
  vol_Name : string;
  PersistentVolumeClaim : option ClaimSource;
  vol_rest : string;
}.
Record Container := mkContainer {
  ctr_Name : string;
  ctr_Image : string;
  ctr_rest : string;
}.

Record PodSpec := mkPodSpec {
  Volumes : slice Volume;
  Containers : list Container;
  (** [ReadinessGates], by their [ConditionType] *)
  ReadinessGates : list string;
  Affinity : option AffinityT;
  Hostname : string;
  Subdomain : string;
  NodeName : string;
  spec_rest : string;
}.

Definition setVolumes (v : slice Volume) (s : PodSpec) : PodSpec :=
  mkPodSpec v (Containers s) (ReadinessGates s) (Affinity s) (Hostname s) (Subdomain s)
    (NodeName s) (spec_rest s).
Definition setContainers (c : list Container) (s : PodSpec) : PodSpec :=
  mkPodSpec (Volumes s) c (ReadinessGates s) (Affinity s) (Hostname s) (Subdomain s)
    (NodeName s) (spec_rest s).
Definition setReadinessGates (g : list string) (s : PodSpec) : PodSpec :=
  mkPodSpec (Volumes s) (Containers s) g (Affinity s) (Hostname s) (Subdomain s)
    (NodeName s) (spec_rest s).
Definition setAffinity (a : option AffinityT) (s : PodSpec) : PodSpec :=
  mkPodSpec (Volumes s) (Containers s) (ReadinessGates s) a (Hostname s) (Subdomain s)
    (NodeName s) (spec_rest s).
Definition setHostname (h : string) (s : PodSpec) : PodSpec :=
  mkPodSpec (Volumes s) (Containers s) (ReadinessGates s) (Affinity s) h (Subdomain s)
    (NodeName s) (spec_rest s).
Definition setSubdomain (d : string) (s : PodSpec) : PodSpec :=
  mkPodSpec (Volumes s) (Containers s) (ReadinessGates s) (Affinity s) (Hostname s) d
    (NodeName s) (spec_rest s).
Definition setNodeName (n : string) (s : PodSpec) : PodSpec :=
  mkPodSpec (Volumes s) (Containers s) (ReadinessGates s) (Affinity s) (Hostname s)
    (Subdomain s) n (spec_rest s).

Record PodCondition := mkPodCondition {
  pc_Type : string;
  pc_Status : string;
  pc_Reason : string;
  pc_rest : string;
}.
Record ContainerStatus := mkContainerStatus {
  cs_Name : string;
  cs_ImageID : string;
  cs_rest : string;
}.
Record PodStatus := mkPodStatus {
  Phase : string;
  Conditions : list PodCondition;
  ContainerStatuses : list ContainerStatus;
  podstatus_rest : string;
}.

Record Pod := mkPod {
  pod_meta : ObjectMeta;
  pod_Spec : PodSpec;
  pod_Status : PodStatus;
}.

Definition overMeta (f : ObjectMeta -> ObjectMeta) (p : Pod) : Pod :=
  mkPod (f (pod_meta p)) (pod_Spec p) (pod_Status p).
Definition overSpec (f : PodSpec -> PodSpec) (p : Pod) : Pod :=
  mkPod (pod_meta p) (f (pod_Spec p)) (pod_Status p).
Definition overConditions (f : list PodCondition -> list PodCondition) (p : Pod) : Pod :=
  mkPod (pod_meta p) (pod_Spec p)
    (mkPodStatus (Phase (pod_Status p)) (f (Conditions (pod_Status p)))
       (ContainerStatuses (pod_Status p)) (podstatus_rest (pod_Status p))).

Record PodTemplateSpec := mkPodTemplate {
  tpl_meta : ObjectMeta;
  tpl_Spec : PodSpec;
}.

Record PersistentVolumeClaimT := mkClaim {
  pvc_meta : ObjectMeta;
  pvc_rest : string;
}.

(** ** The StatefulSet resource ([api/v1/statefulset_types.go]) *)

Record LabelSelector := mkLabelSelector {
  MatchLabels : gmap string string;
  (** the [MatchExpressions] of the selector *)
  selector_rest : string;
}.

(** [intstr.IntOrString] *)
Inductive IntOrString :=
  | FromInt (i : Z)
  | FromString (s : string).

Record UpdatePriorityOrderTerm := mkOrderTerm { OrderedKey : string }.
Record UpdatePriorityWeightTerm := mkWeightTerm {
  Weight : Z;
  MatchSelector : LabelSelector;
}.
Record UpdatePriorityStrategy := mkPriorityStrategy {
  OrderPriority : list UpdatePriorityOrderTerm;
  WeightPriority : list UpdatePriorityWeightTerm;
}.

Definition RecreatePodUpdateStrategyType : string := "ReCreate".
Definition InPlaceIfPossiblePodUpdateStrategyType : string := "InPlaceIfPossible".
Definition InPlaceOnlyPodUpdateStrategyType : string := "InPlaceOnly".

Record RollingUpdateStatefulSetStrategy := mkRollingUpdate {
  Partition : option Z;
  MaxUnavailable : option IntOrString;
  PodUpdatePolicy : string;
  Paused : bool;
  PriorityStrategy : option UpdatePriorityStrategy;
}.

Record StatefulSetUpdateStrategy := mkUpdateStrategy {
  us_Type : string;
  RollingUpdate : option RollingUpdateStatefulSetStrategy;
}.

Record StatefulSetSpec := mkStatefulSetSpec {
  spec_Replicas : option Z;
  Selector : option LabelSelector;
  Template : PodTemplateSpec;
  VolumeClaimTemplates : list PersistentVolumeClaimT;
  ServiceName : string;
  PodManagementPolicy : string;
  UpdateStrategy : option StatefulSetUpdateStrategy;
  RevisionHistoryLimit : Z;
}.

Record StatefulSetCondition := mkSetCondition {
  sc_Type : string;
  sc_Status : string;
  LastTransitionTime : Z;
  sc_Reason : string;
  sc_Message : string;
}.

Record StatefulSetStatus := mkStatefulSetStatus {
  ObservedGeneration : Z;
  Replicas : Z;
  ReadyReplicas : Z;
  CurrentReplicas : Z;
  UpdatedReplicas : Z;
  CurrentRevision : string;
  UpdateRevision : string;
  CollisionCount : option Z;
  set_Conditions : list StatefulSetCondition;
}.

Record StatefulSet := mkStatefulSet {
  set_meta : ObjectMeta;
  set_Spec : StatefulSetSpec;
  set_Status : StatefulSetStatus;
}.

Definition setStatus (st : StatefulSetStatus) (s : StatefulSet) : StatefulSet :=
  mkStatefulSet (set_meta s) (set_Spec s) st.

Definition FailedCreatePod : string := "FailedCreatePod".
Definition FailedUpdatePod : string := "FailedUpdatePod".

(** ** Controller revisions ([k8s.io/api/apps/v1].ControllerRevision) *)

Record ControllerRevision := mkRevision {
  rev_meta : ObjectMeta;
  (** [Data.Raw] *)
  Data : string;
  Revision : Z;
}.

Definition rev_Name (r : ControllerRevision) : string := Name (rev_meta r).
Definition overRevMeta (f : ObjectMeta -> ObjectMeta) (r : ControllerRevision) : ControllerRevision :=
  mkRevision (f (rev_meta r)) (Data r) (Revision r).

(** ** Documented Kubernetes constants the code names *)

Definition StatefulSetPodNameLabel : string := "statefulset.kubernetes.io/pod-name".
Definition StatefulSetRevisionLabel : string := "controller-revision-hash".
Definition PodRunning : string := "Running".
Definition PodFailed : string := "Failed".
Definition ConditionTrue : string := "True".
Definition ConditionFalse : string := "False".
Definition ParallelPodManagement : string := "Parallel".
Definition RollingUpdateStatefulSetStrategyType : string := "RollingUpdate".
Definition OnDeleteStatefulSetStrategyType : string := "OnDelete".
Definition NodeSelectorOpIn : string := "In".

(** The condition type and the annotation of [api/v1/statefulset_types.go]. *)
Definition StatefulSetInPlaceUpdateReady : string := "InPlaceUpdateReady".
Definition StatefulSetInPlaceUpdateStateAnnotation : string := "inplace-update-state".

(** ** Decidable equality *)

#[export] Instance OwnerReference_eq_dec : EqDecision OwnerReference.
Proof. solve_decision. Defined.
#[export] Instance ObjectMeta_eq_dec : EqDecision ObjectMeta.
Proof. solve_decision. Defined.
#[export] Instance ObjectKey_eq_dec : EqDecision ObjectKey.
Proof. solve_decision. Defined.
#[export] Instance ObjectKey_countable : Countable ObjectKey.
Proof.
  by apply (inj_countable' (fun k => (key_Namespace k, key_Name k))
                           (fun p => mkKey p.1 p.2)); intros [].
Defined.
#[export] Instance Requirement_eq_dec : EqDecision NodeSelectorRequirement.
Proof. solve_decision. Defined.
#[export] Instance Term_eq_dec : EqDecision NodeSelectorTerm.
Proof. solve_decision. Defined.
#[export] Instance Preferred_eq_dec : EqDecision PreferredSchedulingTerm.
Proof. solve_decision. Defined.
#[export] Instance NodeAffinity_eq_dec : EqDecision NodeAffinity.
Proof. solve_decision. Defined.
#[export] Instance Affinity_eq_dec : EqDecision AffinityT.
Proof. solve_decision. Defined.
#[export] Instance ClaimSource_eq_dec : EqDecision ClaimSource.
Proof. solve_decision. Defined.
#[export] Instance Volume_eq_dec : EqDecision Volume.
Proof. solve_decision. Defined.
#[export] Instance Container_eq_dec : EqDecision Container.
Proof. solve_decision. Defined.
#[export] Instance PodSpec_eq_dec : EqDecision PodSpec.
Proof. solve_decision. Defined.
#[export] Instance PodCondition_eq_dec : EqDecision PodCondition.
Proof. solve_decision. Defined.
#[export] Instance ContainerStatus_eq_dec : EqDecision ContainerStatus.
Proof. solve_decision. Defined.
#[export] Instance PodStatus_eq_dec : EqDecision PodStatus.
Proof. solve_decision. Defined.
#[export] Instance Pod_eq_dec : EqDecision Pod.
Proof. solve_decision. Defined.
#[export] Instance Claim_eq_dec : EqDecision PersistentVolumeClaimT.
Proof. solve_decision. Defined.
#[export] Instance ControllerRevision_eq_dec : EqDecision ControllerRevision.
Proof. solve_decision. Defined.
#[export] Instance IntOrString_eq_dec : EqDecision IntOrString.
Proof. solve_decision. Defined.
#[export] Instance LabelSelector_eq_dec : EqDecision LabelSelector.
Proof. solve_decision. Defined.
#[export] Instance OrderTerm_eq_dec : EqDecision UpdatePriorityOrderTerm.
Proof. solve_decision. Defined.
#[export] Instance WeightTerm_eq_dec : EqDecision UpdatePriorityWeightTerm.
Proof. solve_decision. Defined.
#[export] Instance PriorityStrategy_eq_dec : EqDecision UpdatePriorityStrategy.
Proof. solve_decision. Defined.
#[export] Instance RollingUpdate_eq_dec : EqDecision RollingUpdateStatefulSetStrategy.
Proof. solve_decision. Defined.
#[export] Instance UpdateStrategy_eq_dec : EqDecision StatefulSetUpdateStrategy.
Proof. solve_decision. Defined.
#[export] Instance PodTemplate_eq_dec : EqDecision PodTemplateSpec.
Proof. solve_decision. Defined.
#[export] Instance StatefulSetSpec_eq_dec : EqDecision StatefulSetSpec.
Proof. solve_decision. Defined.
