(* ===== verification/GoString.v ===== *)
(** The string functions of Go's standard library that the controllers use:
    [%d] formatting, [strconv.ParseInt] on digits, [strings.ToLower] and the one
    regular expression [statefulPodRegex], each as an executable function with the
    laws the naming scheme rests on. Strings are byte strings, as in Go. *)

From S2P Require Import Prelude.

(** ** Concatenation (stdpp keeps [+:+] folded) *)

Lemma append_nil_l (s : string) : "" +:+ s = s.
Proof. reflexivity. Qed.
Lemma append_cons (c : ascii) (s t : string) : String c s +:+ t = String c (s +:+ t).
Proof. reflexivity. Qed.
#[export] Hint Rewrite append_nil_l append_cons : gostring.

Lemma length_append (s t : string) :
  String.length (s +:+ t) = (String.length s + String.length t)%nat.
Proof. induction s as [|c s IH]; autorewrite with gostring; cbn; congruence. Qed.

Lemma append_assoc (a b c : string) : (a +:+ b) +:+ c = a +:+ (b +:+ c).
Proof. induction a as [|x a IH]; autorewrite with gostring; congruence. Qed.

Lemma append_cancel_l (s a b : string) : s +:+ a = s +:+ b -> a = b.
Proof. induction s as [|c s IH]; autorewrite with gostring; [done|]. intros [= H]; auto. Qed.

Lemma append_cancel_r (s a b : string) : a +:+ s = b +:+ s -> a = b.
Proof.
  intros H. assert (Hlen : String.length a = String.length b).
  { apply (f_equal String.length) in H. rewrite !length_append in H. lia. }
  revert b H Hlen.
  induction a as [|c a IH]; intros [|c' b]; autorewrite with gostring; cbn; try done.
  intros [= -> H] [= Hlen]. f_equal. by apply IH.
Qed.

(** ** Decimal numbers *)

(** [fmt.Sprintf("%d", z)] *)
Definition itoa (z : Z) : string := pretty z.

Definition is_digit (c : ascii) : bool :=
  bool_decide (48 <= Z.of_nat (nat_of_ascii c) <= 57).
Definition digit (c : ascii) : Z := Z.of_nat (nat_of_ascii c) - 48.

Fixpoint all_digits (s : string) : bool :=
  match s with
  | EmptyString => true
  | String c s' => is_digit c && all_digits s'
  end.

(** The value of a digit string, most significant digit first. *)
Fixpoint decimal (acc : Z) (s : string) : Z :=
  match s with
  | EmptyString => acc
  | String c s' => decimal (acc * 10 + digit c) s'
  end.

(** [strconv.ParseInt(s, 10, 32)] on a non-empty string of digits: the value, or
    a range error above [MaxInt32]. *)
Definition ParseInt32 (s : string) : option Z :=
  if decide (decimal 0 s <= MaxInt32) then Some (decimal 0 s) else None.

Lemma pretty_char_digit (x : N) :
  (x < 10)%N -> is_digit (pretty_N_char x) = true /\ digit (pretty_N_char x) = Z.of_N x.
Proof.
  intros ?.
  assert (x = 0 \/ x = 1 \/ x = 2 \/ x = 3 \/ x = 4 \/ x = 5 \/ x = 6 \/ x = 7
          \/ x = 8 \/ x = 9)%N as Hx by lia.
  destruct Hx as [->|[->|[->|[->|[->|[->|[->|[->|[->| ->]]]]]]]]]; done.
Qed.

Lemma pretty_go_decimal (x : N) s :
  all_digits s = true ->
  all_digits (pretty_N_go x s) = true /\
  decimal 0 (pretty_N_go x s) = decimal (Z.of_N x) s.
Proof.
  revert s. induction (N.lt_wf_0 x) as [x _ IH]; intros s Hs.
  assert (x = 0 \/ 0 < x)%N as [->|Hpos] by lia; [by rewrite pretty_N_go_0|].
  rewrite pretty_N_go_step by done.
  destruct (pretty_char_digit (x `mod` 10)) as [Hd Hv]; [by apply N.mod_lt|].
  destruct (IH (x `div` 10)%N) with (s := String (pretty_N_char (x `mod` 10)) s)
    as [H1 H2].
  - by apply N.div_lt.
  - cbn [all_digits]. by rewrite Hd.
  - split; [done|]. rewrite H2. cbn [decimal]. f_equal. rewrite Hv.
    pose proof (N.div_mod x 10). lia.
Qed.

(** [%d] prints a non-negative number as a non-empty string of digits, which
    [ParseInt] reads back. *)
Lemma itoa_nonneg z :
  0 <= z ->
  all_digits (itoa z) = true /\ itoa z <> "" /\ decimal 0 (itoa z) = z.
Proof.
  intros Hz. destruct z as [|p|p]; [done| |lia].
  unfold itoa, pretty, pretty_Z, pretty, pretty_positive, pretty, pretty_N.
  rewrite decide_False by done.
  destruct (pretty_go_decimal (N.pos p) "") as [H1 H2]; [done|].
  rewrite H2. split_and!; [done| |done].
  intros Heq. rewrite Heq in H2. done.
Qed.

Lemma ParseInt32_itoa z : 0 <= z <= MaxInt32 -> ParseInt32 (itoa z) = Some z.
Proof.
  intros [H0 H1]. unfold ParseInt32.
  destruct (itoa_nonneg z H0) as (_ & _ & ->). by rewrite decide_True.
Qed.

Lemma itoa_inj z z' : itoa z = itoa z' -> z = z'.
Proof. apply (inj pretty). Qed.

Lemma decimal_nonneg acc s : 0 <= acc -> all_digits s = true -> 0 <= decimal acc s.
Proof.
  revert acc. induction s as [|c s IH]; intros acc Hacc; [done|].
  cbn [all_digits decimal]. intros [Hc Hs]%andb_prop. apply IH; [|done].
  unfold is_digit in Hc. apply bool_decide_eq_true in Hc. unfold digit. lia.
Qed.

Lemma ParseInt32_range s z :
  all_digits s = true -> ParseInt32 s = Some z -> 0 <= z <= MaxInt32.
Proof.
  intros Hs. unfold ParseInt32. case_decide; intros [= <-].
  split; [by apply decimal_nonneg|done].
Qed.

(** ** Splitting at the last occurrence of a byte *)

Fixpoint lastSplit (sep : ascii) (s : string) : option (string * string) :=
  match s with
  | EmptyString => None
  | String c s' =>
      match lastSplit sep s' with
      | Some (a, b) => Some (String c a, b)
      | None => if decide (c = sep) then Some ("", s') else None
      end
  end.

Fixpoint occurs (sep : ascii) (s : string) : bool :=
  match s with
  | EmptyString => false
  | String c s' => bool_decide (c = sep) || occurs sep s'
  end.

Lemma lastSplit_None sep s : lastSplit sep s = None <-> occurs sep s = false.
Proof.
  induction s as [|c s IH]; [done|]. cbn [lastSplit occurs].
  destruct (lastSplit sep s) as [[a b]|].
  - split; [done|]. intros [_ H]%orb_false_elim. by apply IH in H.
  - destruct IH as [IH _]. rewrite IH by done. case_decide; subst.
    + by rewrite bool_decide_eq_true_2.
    + by rewrite bool_decide_eq_false_2.
Qed.

Lemma lastSplit_app sep a b :
  occurs sep b = false -> lastSplit sep (a +:+ String sep b) = Some (a, b).
Proof.
  intros Hb. induction a as [|c a IH].
  - rewrite append_nil_l. cbn. apply lastSplit_None in Hb. rewrite Hb.
    by rewrite decide_True.
  - rewrite append_cons. cbn. by rewrite IH.
Qed.

Lemma lastSplit_Some sep s a b :
  lastSplit sep s = Some (a, b) -> s = a +:+ String sep b /\ occurs sep b = false.
Proof.
  revert a b. induction s as [|c s IH]; intros a b; [done|]. cbn [lastSplit].
  destruct (lastSplit sep s) as [[a' b']|] eqn:E.
  - intros [= <- <-]. destruct (IH a' b' eq_refl) as [-> ?].
    by rewrite append_cons.
  - case_decide; [|done]. intros [= <- <-]. subst. split; [done|].
    by apply lastSplit_None.
Qed.

Lemma digits_no_dash s : all_digits s = true -> occurs "-"%char s = false.
Proof.
  induction s as [|c s IH]; [done|]. cbn [all_digits occurs].
  intros [Hc Hs]%andb_prop. rewrite IH by done.
  unfold is_digit in Hc. apply bool_decide_eq_true in Hc.
  rewrite bool_decide_eq_false_2; [done|]. intros ->.
  change (Z.of_nat (nat_of_ascii "-"%char)) with 45 in Hc. lia.
Qed.

(** ** The regular expression [statefulPodRegex]: any text, a dash, digits, end

    [$] is the end of the text, the dot matches any byte but a newline, and
    [FindStringSubmatch] reports the leftmost match: the digits after the last
    dash, and before it everything back to the last newline. *)

Definition newline : ascii := "010"%char.

Definition afterNewline (s : string) : string :=
  match lastSplit newline s with Some (_, b) => b | None => s end.

Definition statefulPodRegex (s : string) : option (string * string) :=
  match lastSplit "-"%char s with
  | Some (a, d) =>
      if bool_decide (d <> "") && all_digits d then Some (afterNewline a, d) else None
  | None => None
  end.

Lemma afterNewline_id s : occurs newline s = false -> afterNewline s = s.
Proof. intros H. unfold afterNewline. apply lastSplit_None in H. by rewrite H. Qed.

Lemma statefulPodRegex_match a d :
  occurs newline a = false -> all_digits d = true -> d <> "" ->
  statefulPodRegex (a +:+ String "-"%char d) = Some (a, d).
Proof.
  intros Ha Hd Hne. unfold statefulPodRegex.
  rewrite lastSplit_app by (by apply digits_no_dash).
  rewrite bool_decide_eq_true_2, Hd by done. cbn. by rewrite afterNewline_id.
Qed.

Lemma statefulPodRegex_Some s a d :
  statefulPodRegex s = Some (a, d) -> all_digits d = true /\ d <> "".
Proof.
  unfold statefulPodRegex. destruct (lastSplit _ s) as [[p e]|]; [|done].
  destruct (bool_decide (e <> "") && all_digits e) eqn:E; [|done].
  intros [= <- <-]. apply andb_prop in E as [?%bool_decide_eq_true ?]. done.
Qed.

(** ** [strings.ToLower]

    On the ASCII bytes; the names this is applied to are Kubernetes names and
    label values, which are ASCII. *)
Definition lowerChar (c : ascii) : ascii :=
  let n := nat_of_ascii c in
  if decide (65 <= Z.of_nat n <= 90) then ascii_of_nat (n + 32) else c.
Fixpoint ToLower (s : string) : string :=
  match s with
  | EmptyString => EmptyString
  | String c s' => String (lowerChar c) (ToLower s')
  end.

Lemma ToLower_app a b : ToLower (a +:+ b) = ToLower a +:+ ToLower b.
Proof.
  induction a as [|c a IH]; autorewrite with gostring; cbn; [done|].
  autorewrite with gostring. by rewrite IH.
Qed.

Lemma lowerChar_digit c : is_digit c = true -> lowerChar c = c.
Proof.
  unfold is_digit, lowerChar. intros Hc%bool_decide_eq_true. cbv zeta.
  case_decide; [lia|done].
Qed.

Lemma ToLower_digits s : all_digits s = true -> ToLower s = s.
Proof.
  induction s as [|c s IH]; [done|]. cbn. intros [Hc Hs]%andb_prop.
  by rewrite lowerChar_digit, IH.
Qed.

(** ** [strings.HasPrefix], [strings.Replace(s, old, new, 1)], [strings.Split] *)

(** [s] without its prefix [p], if it has it. *)
Fixpoint stripPrefix (p s : string) : option string :=
  match p, s with
  | EmptyString, _ => Some s
  | String a p', String b s' => if decide (a = b) then stripPrefix p' s' else None
  | String _ _, EmptyString => None
  end.

Definition HasPrefix (s prefix : string) : bool := bool_decide (stripPrefix prefix s <> None).

(** Replace the first occurrence of a non-empty [old]. *)
Fixpoint ReplaceFirst (s old new : string) : string :=
  match stripPrefix old s with
  | Some rest => new +:+ rest
  | None => match s with
            | EmptyString => EmptyString
            | String c s' => String c (ReplaceFirst s' old new)
            end
  end.

(** [strings.Split] at a one-byte separator. *)
Fixpoint Split (s : string) (sep : ascii) : list string :=
  match s with
  | EmptyString => [""]
  | String c s' =>
      if decide (c = sep) then "" :: Split s' sep
      else match Split s' sep with
           | [] => [String c ""]
           | w :: ws => String c w :: ws
           end
  end.

(** [i, _ := strconv.Atoi(s)]: 0 on a syntax error, saturated on a range error. *)
Definition Atoi (s : string) : Z :=
  let unsigned (d : string) (sign : Z) :=
    if bool_decide (d <> "") && all_digits d
    then Z.max (- 2 ^ 63) (Z.min (2 ^ 63 - 1) (sign * decimal 0 d)) else 0 in
  match s with
  | String c d =>
      if decide (c = "-"%char) then unsigned d (-1)
      else if decide (c = "+"%char) then unsigned d 1
      else unsigned s 1
  | EmptyString => 0
  end.

Lemma stripPrefix_app p s : stripPrefix p (p +:+ s) = Some s.
Proof.
  induction p as [|c p IH]; autorewrite with gostring; cbn; [by destruct s|].
  by rewrite decide_True.
Qed.

(** Splitting gives at least one word, and joining the words back with the
    separator gives the string. *)
Fixpoint Join (ws : list string) (sep : ascii) : string :=
  match ws with
  | [] => ""
  | [w] => w
  | w :: ws' => w +:+ String sep (Join ws' sep)
  end.

Lemma Split_ne s sep : Split s sep <> [].
Proof. destruct s as [|c s]; cbn; [done|]. case_decide; [done|]. by destruct (Split s sep). Qed.

Lemma Join_Split s sep : Join (Split s sep) sep = s.
Proof.
  induction s as [|c s IH]; [done|]. cbn [Split]. pose proof (Split_ne s sep) as Hne.
  case_decide as Hc; destruct (Split s sep) as [|w ws]; try done.
  - subst. cbn [Join]. rewrite append_nil_l. by f_equal.
  - rewrite <-IH. destruct ws; cbn [Join]; by autorewrite with gostring.
Qed.

(** ** The regular expression [inPlaceUpdatePatchRexp]

    [/spec/containers/], digits, [/image], anywhere in the text. *)

Fixpoint digitsThenImage (seen : bool) (s : string) : bool :=
  match s with
  | String c s' =>
      if is_digit c then digitsThenImage true s'
      else seen && HasPrefix s "/image"
  | EmptyString => false
  end.

Fixpoint matchImagePath (s : string) : bool :=
  match stripPrefix "/spec/containers/" s with
  | Some rest =>
      digitsThenImage false rest
      || match s with String _ s' => matchImagePath s' | EmptyString => false end
  | None => match s with String _ s' => matchImagePath s' | EmptyString => false end
  end.
