(* ===== verification/Libraries.v ===== *)
(** The library functions the controllers call and whose code is not in the
    repository, as classes: the operations, and separately the documented
    behaviour that theorems rely on. Nothing here is a definition of that code. *)

From S2P Require Import Prelude Objects.

(** [encoding/json] at one type. [unmarshal] is [None] where [json.Unmarshal]
    returns an error. *)
Class Json (A : Type) := {
  marshal : A -> string;
  unmarshal : string -> option A;
}.
(** What was marshalled reads back. *)
Class JsonLaws (A : Type) `{Json A} := {
  unmarshal_marshal (a : A) : unmarshal (marshal a) = Some a;
}.

(** [k8s.io/kubernetes/pkg/api/v1/pod], [k8s.io/kubernetes/pkg/controller] and
    [metav1] helpers. *)
Class KubeLib := {
  (** [podutil.IsPodReady] *)
  IsPodReady : Pod -> bool;
  (** [controller.GetPodFromTemplate(template, parent, controllerRef)] *)
  GetPodFromTemplate : PodTemplateSpec -> ObjectMeta -> OwnerReference -> Result Pod;
  (** [metav1.NewControllerRef(owner, gvk)], the [gvk] as API version and kind *)
  NewControllerRef : ObjectMeta -> string -> string -> OwnerReference;
}.

(** [GetPodFromTemplate] builds a new pod: the template's labels, annotations and
    spec, the one owner, no status, not being deleted; it only fails for a parent without
    metadata. A controller reference has the UID of its owner. Whether a pod is ready is
    decided by its conditions of type [Ready]. *)
Class KubeLibLaws `{KubeLib} := {
  template_ok tpl parent ref : exists pod, GetPodFromTemplate tpl parent ref = inr pod;
  template_pod tpl parent ref pod :
    GetPodFromTemplate tpl parent ref = inr pod ->
    Labels (pod_meta pod) = Labels (tpl_meta tpl)
    /\ Annotations (pod_meta pod) = Annotations (tpl_meta tpl)
    /\ DeletionTimestamp (pod_meta pod) = None
    /\ pod_Spec pod = tpl_Spec tpl
    /\ Phase (pod_Status pod) = "";
  template_owner tpl parent ref pod :
    GetPodFromTemplate tpl parent ref = inr pod -> OwnerReferences (pod_meta pod) = [ref];
  controllerRef_owner owner apiVersion kind :
    let ref := NewControllerRef owner apiVersion kind in
    owner_UID ref = UID owner /\ owner_Controller ref = Some true;
  podReady_conditions pod pod' :
    filter (fun c => pc_Type c = "Ready") (Conditions (pod_Status pod))
    = filter (fun c => pc_Type c = "Ready") (Conditions (pod_Status pod')) ->
    IsPodReady pod = IsPodReady pod';
}.

(** ** JSON values and JSON patches *)

(** A decoded [interface{}] value; objects by their fields. *)
Inductive JSON :=
  | JNull
  | JBool (b : bool)
  | JNumber (literal : string)
  | JString (s : string)
  | JArray (l : list JSON)
  | JObject (fields : list (string * JSON)).

(** [jsonpatch.JsonPatchOperation] *)
Record JsonPatchOperation := mkPatchOp {
  Operation : string;
  Path : string;
  Value : JSON;
}.

(** The patch libraries. *)
Class PatchLib := {
  (** [jsonpatch.CreatePatch] of [github.com/mattbaird/jsonpatch] *)
  CreatePatch : string -> string -> Result (list JsonPatchOperation);
  (** [json.Unmarshal] of a revision's data into a pointer to a struct with a
      [spec.template]: [None] on error, [Some None] for JSON null. *)
  unmarshalTemplate : string -> option (option PodTemplateSpec);
  (** [DecodePatch] then [Apply] of [github.com/evanphx/json-patch] on the JSON of
      a pod, decoded back into a pod *)
  applyPatches : list JsonPatchOperation -> Pod -> Result Pod;
}.
