(* ===== verification/Coordinate.v ===== *)
(** Placement: [api/v1/coordinate.go] (coordinates, their comparison and set
    difference, the [sort.Interface] of [Coordinates]) and
    [controllers/coordinator.go] (the node affinity a coordinate stands for). *)

From S2P Require Import Prelude Objects GoString.

(** ** [api/v1/coordinate.go] *)

Record Coordinate := mkCoordinate {
  Zone : string;
  Rack : string;
  Host : string;
  coord_Replicas : Z;
}.
#[export] Instance Coordinate_eq_dec : EqDecision Coordinate.
Proof. solve_decision. Defined.

Notation Coordinates := (list Coordinate).

Definition NuwaZoneFlag : string := "nuwa.kubernetes.io/zone".
Definition NuwaRackFlag : string := "nuwa.kubernetes.io/rack".
Definition NuwaHostFlag : string := "nuwa.kubernetes.io/host".
Definition NuwaLimitFlag : string := "nuwa.kubernetes.io/default_resource_limit".

(** [Coordinate.Equal]: the replica count is not compared. *)
Definition Equal (c c1 : Coordinate) : bool :=
  if decide (Zone c <> Zone c1) then false
  else if decide (Rack c <> Rack c1) then false
  else if decide (Host c <> Host c1) then false
  else true.

(** The [sort.Interface] of [*Coordinates]. *)
Definition Coordinates_Len (c : Coordinates) : Z := Z.of_nat (length c).

Definition Coordinates_Less (c : Coordinates) (i j : Z) : Outcome bool :=
  if decide (Coordinates_Len c <= 1) then Ok false
  else
    ci ← index c i;
    cj ← index c j;
    if decide (String.le (Zone cj) (Zone ci)) then Ok false else Ok true.

Definition Coordinates_Swap (c : Coordinates) (i j : Z) : Outcome Coordinates :=
  cj ← index c j;
  ci ← index c i;
  Ok (<[Z.to_nat j := ci]> (<[Z.to_nat i := cj]> c)).

Definition In (slice : Coordinates) (c : Coordinate) : bool :=
  existsb (fun s => Equal s c) slice.

(** One pass of the loop in [Difference]: append to [diff] every element of
    [slice1] that has no equal in [slice2]. *)
Fixpoint differencePass (slice1 slice2 diff : Coordinates) : Coordinates :=
  match slice1 with
  | [] => diff
  | s1 :: slice1' =>
      let found := existsb (fun s2 => Equal s1 s2) slice2 in
      differencePass slice1' slice2 (if found then diff else diff ++ [s1])
  end.

Definition Difference (slice1 slice2 : Coordinates) : Coordinates :=
  let diff := differencePass slice1 slice2 [] in
  differencePass slice2 slice1 diff.

(** ** [controllers/coordinator.go] *)

Record coordinator := mkCoordinator {
  Index : Z;
  coordinator_Name : string;
  coordinator_Coordinate : Coordinate;
  coordinator_NodeAffinity : NodeAffinity;
  NodeNameList : list string;
}.

Definition coordinateName (c : Coordinate) : string := Zone c +:+ "-" +:+ Rack c.

Definition organizationNodeAffinity (c : Coordinate) : NodeAffinity :=
  let nodeSelectorRequirements := [mkRequirement NuwaZoneFlag NodeSelectorOpIn [Zone c]] in
  let nodeSelectorRequirements :=
    if decide (Rack c <> "")
    then nodeSelectorRequirements ++ [mkRequirement NuwaRackFlag NodeSelectorOpIn [Rack c]]
    else nodeSelectorRequirements in
  let nodeSelectorRequirements :=
    if decide (Host c <> "")
    then nodeSelectorRequirements ++ [mkRequirement NuwaHostFlag NodeSelectorOpIn [Host c]]
    else nodeSelectorRequirements in
  mkNodeAffinity
    (Some [mkTerm [mkRequirement NuwaZoneFlag NodeSelectorOpIn [Zone c]] []])
    [mkPreferred 100 (mkTerm nodeSelectorRequirements [])].

Definition newLocalCoordinate (index : Z) (coordinate : Coordinate) : coordinator :=
  mkCoordinator index (coordinateName coordinate) coordinate
    (organizationNodeAffinity coordinate) [].

(** [for index, item := range coordinates] *)
Fixpoint makeLocalCoordinatesFrom (index : Z) (coordinates : Coordinates) : list coordinator :=
  match coordinates with
  | [] => []
  | item :: rest => newLocalCoordinate index item :: makeLocalCoordinatesFrom (index + 1) rest
  end.
Definition makeLocalCoordinates (coordinates : Coordinates) : list coordinator :=
  makeLocalCoordinatesFrom 0 coordinates.

(** ** What the scheduler makes of an affinity

    The documented meaning of operator [In] on a node's labels: terms are
    alternatives, the expressions of one term must all hold. *)

Definition requirementMatches (node : gmap string string) (r : NodeSelectorRequirement) : bool :=
  match node !! req_Key r with
  | Some v => bool_decide (req_Operator r = NodeSelectorOpIn) && bool_decide (v ∈ req_Values r)
  | None => false
  end.
Definition termMatches (node : gmap string string) (t : NodeSelectorTerm) : bool :=
  forallb (requirementMatches node) (MatchExpressions t).
(** The node may run the pod. *)
Definition admitted (node : gmap string string) (a : NodeAffinity) : bool :=
  match Required a with
  | Some terms => existsb (termMatches node) terms
  | None => true
  end.
(** The preference weight the node collects. *)
Definition preferenceScore (node : gmap string string) (a : NodeAffinity) : Z :=
  foldr (fun p acc => (if termMatches node (Preference p) then pref_Weight p else 0) + acc)
    0 (Preferred a).

(** ** Lemmas *)

(** The position a coordinate denotes, which is all [Equal] looks at. *)
Definition position (c : Coordinate) : string * string * string := (Zone c, Rack c, Host c).

Lemma Equal_position c c1 : Equal c c1 = true <-> position c = position c1.
Proof.
  unfold Equal, position. destruct c, c1; cbn.
  repeat case_decide; split; intros; simplify_eq/=; naive_solver.
Qed.

Lemma Equal_spec c c1 : Equal c c1 = bool_decide (position c = position c1).
Proof.
  destruct (Equal c c1) eqn:E.
  - symmetry. by apply bool_decide_eq_true_2, Equal_position.
  - symmetry. apply bool_decide_eq_false_2. rewrite <-Equal_position. congruence.
Qed.

(** Placement equality is an equivalence, and [In] respects it. *)
Definition SamePosition (c c1 : Coordinate) : Prop := position c = position c1.
#[export] Instance SamePosition_equiv : Equivalence SamePosition.
Proof. split; unfold SamePosition; red; congruence. Qed.
#[export] Instance In_proper cs : Proper (SamePosition ==> eq) (In cs).
Proof.
  intros c c1 H. unfold In. induction cs as [|s cs IH]; cbn; [done|].
  rewrite IH, !Equal_spec. by unfold SamePosition in H; rewrite H.
Qed.

Lemma In_true cs c : In cs c = true <-> exists s, s ∈ cs /\ position s = position c.
Proof.
  unfold In. rewrite existsb_exists. split.
  - intros (s & Hs & HE). exists s. by rewrite list_elem_of_In, <-Equal_position.
  - intros (s & Hs & HE). exists s. by rewrite <-list_elem_of_In, Equal_position.
Qed.

Lemma existsb_Equal_In c cs : existsb (fun s2 => Equal c s2) cs = In cs c.
Proof.
  unfold In. induction cs as [|s cs IH]; cbn; [done|].
  rewrite IH, !Equal_spec. f_equal. by apply bool_decide_ext.
Qed.

Lemma differencePass_filter slice1 slice2 diff :
  differencePass slice1 slice2 diff = diff ++ filter (fun c => In slice2 c = false) slice1.
Proof.
  revert diff. induction slice1 as [|s slice1 IH]; intros diff; cbn [differencePass].
  { by rewrite app_nil_r. }
  rewrite IH, existsb_Equal_In, filter_cons.
  destruct (In slice2 s); cbn; [done|]. by rewrite <-app_assoc.
Qed.

Lemma Difference_filter a b :
  Difference a b =
    filter (fun c => In b c = false) a ++ filter (fun c => In a c = false) b.
Proof. unfold Difference. by rewrite !differencePass_filter. Qed.

Lemma makeLocalCoordinatesFrom_lookup n cs i :
  makeLocalCoordinatesFrom n cs !! i
  = newLocalCoordinate (n + Z.of_nat i) <$> cs !! i.
Proof.
  revert n i. induction cs as [|c cs IH]; intros n [|i]; cbn; [done|done| |].
  - by rewrite Z.add_0_r.
  - rewrite IH. do 2 f_equal. lia.
Qed.

Lemma requirementMatches_In node k vs :
  requirementMatches node (mkRequirement k NodeSelectorOpIn vs) = true
  <-> exists v, node !! k = Some v /\ v ∈ vs.
Proof.
  unfold requirementMatches. cbn [req_Key req_Operator req_Values].
  destruct (node !! k) as [v|].
  - rewrite (bool_decide_eq_true_2 (NodeSelectorOpIn = _)), andb_true_l, bool_decide_eq_true
      by done. naive_solver.
  - naive_solver.
Qed.

Lemma requirementMatches_one node k v :
  requirementMatches node (mkRequirement k NodeSelectorOpIn [v]) = true
  <-> node !! k = Some v.
Proof. rewrite requirementMatches_In. setoid_rewrite list_elem_of_singleton. naive_solver. Qed.

(** ** Properties *)

(** [Difference] is the symmetric difference of two placements: a coordinate is
    in it exactly when one side has it and the other has none at its position; so
    it is empty exactly when both sides cover the same positions. *)
Theorem Difference_symmetric a b :
  (forall c, c ∈ Difference a b <->
     (c ∈ a /\ In b c = false) \/ (c ∈ b /\ In a c = false))
  /\ (Difference a b = [] <-> forall c, In a c = In b c).
Proof.
  assert (Hmem : forall c, c ∈ Difference a b <->
            (c ∈ a /\ In b c = false) \/ (c ∈ b /\ In a c = false)).
  { intros c. rewrite Difference_filter, elem_of_app, !list_elem_of_filter. naive_solver. }
  split; [exact Hmem|]. split.
  - intros H c. apply eq_bool_prop_intro. split; intros Hin%Is_true_true; apply Is_true_true.
    + apply In_true in Hin as (s & Hs & Heq).
      destruct (In b s) eqn:E; [by rewrite <-E; apply In_proper|].
      assert (s ∈ Difference a b) as Hd by (apply Hmem; auto).
      rewrite H in Hd. by apply not_elem_of_nil in Hd.
    + apply In_true in Hin as (s & Hs & Heq).
      destruct (In a s) eqn:E; [by rewrite <-E; apply In_proper|].
      assert (s ∈ Difference a b) as Hd by (apply Hmem; auto).
      rewrite H in Hd. by apply not_elem_of_nil in Hd.
  - intros H. apply elem_of_nil_inv. intros c [[Hc HE]|[Hc HE]]%Hmem.
    + rewrite <-H in HE. assert (In a c = true) by (apply In_true; eauto). congruence.
    + rewrite H in HE. assert (In b c = true) by (apply In_true; eauto). congruence.
Qed.

(** The affinity of a coordinate admits exactly the nodes of its zone, and among
    them prefers, with weight 100, those in its rack (if it names one) and with
    its host (if it names one). *)
Theorem organizationNodeAffinity_places c node :
  (admitted node (organizationNodeAffinity c) = true <-> node !! NuwaZoneFlag = Some (Zone c))
  /\ preferenceScore node (organizationNodeAffinity c)
     = (if decide (node !! NuwaZoneFlag = Some (Zone c)
                   /\ (Rack c <> "" -> node !! NuwaRackFlag = Some (Rack c))
                   /\ (Host c <> "" -> node !! NuwaHostFlag = Some (Host c)))
        then 100 else 0).
Proof.
  assert (Hpref : forall l (P : Prop) `{Decision P},
    (forallb (requirementMatches node) l = true <-> P) ->
    preferenceScore node (mkNodeAffinity (Required (organizationNodeAffinity c))
      [mkPreferred 100 (mkTerm l [])]) = if decide P then 100 else 0).
  { intros l P HP Hiff. unfold preferenceScore, termMatches. cbn.
    destruct (forallb _ l); case_decide; naive_solver. }
  split.
  - unfold admitted, termMatches. cbn.
    by rewrite orb_false_r, andb_true_r, requirementMatches_one.
  - unfold organizationNodeAffinity at 1. apply Hpref.
    repeat case_decide; cbn;
      rewrite ?andb_true_r, ?andb_true_iff, ?requirementMatches_one; naive_solver.
Qed.
