(* ===== verification/Fixtures.v ===== *)
(** Small concrete objects on which the witnesses evaluate the model. *)

From S2P Require Import Prelude Objects Libraries Coordinate.

Definition fx_podSpec : PodSpec := mkPodSpec None [] [] None "" "" "" "".
Definition fx_podStatus (phase : string) (ready : bool) : PodStatus :=
  mkPodStatus phase (if ready then [mkPodCondition "Ready" "True" "" ""] else []) [] "".

(** A pod of namespace [ns], labelled with its name and a revision. *)
Definition fx_pod (ns name revision phase : string) (ready : bool) : Pod :=
  mkPod
    (setLabels (<[StatefulSetPodNameLabel := name]>
                  (<[StatefulSetRevisionLabel := revision]> ∅)) (metaNamed ns name))
    fx_podSpec (fx_podStatus phase ready).

Definition fx_template : PodTemplateSpec :=
  mkPodTemplate (setLabels (<["app" := "web"]> ∅) (metaNamed "" ""))
    (setContainers [mkContainer "c" "nginx:1" ""] fx_podSpec).

Definition fx_rolling (partition : Z) (maxUnavailable : Z) : StatefulSetUpdateStrategy :=
  mkUpdateStrategy RollingUpdateStatefulSetStrategyType
    (Some (mkRollingUpdate (Some partition) (Some (FromInt maxUnavailable))
             RecreatePodUpdateStrategyType false None)).

Definition fx_status : StatefulSetStatus := mkStatefulSetStatus 0 0 0 0 0 "" "" None [].

Definition fx_setSpec (replicas : Z) (policy : string) (claims : list PersistentVolumeClaimT)
    (us : StatefulSetUpdateStrategy) : StatefulSetSpec :=
  mkStatefulSetSpec (Some replicas) (Some (mkLabelSelector (<["app" := "web"]> ∅) "")) fx_template
    claims "svc" policy (Some us) 2.

(** The set [default/web]. *)
Definition fx_set (replicas : Z) (policy : string) (us : StatefulSetUpdateStrategy) : StatefulSet :=
  mkStatefulSet (metaNamed "default" "web") (fx_setSpec replicas policy [] us) fx_status.

Definition fx_claim (name : string) : PersistentVolumeClaimT :=
  mkClaim (metaNamed "" name) "".

Definition fx_revision (name : string) (data : string) (n : Z) : ControllerRevision :=
  mkRevision (metaNamed "default" name) data n.

(** Concrete library functions: a pod is ready when it has the condition
    [Ready = True], and a pod made from a template copies its labels, annotations
    and spec. *)
#[export] Instance fx_kube : KubeLib := {|
  IsPodReady pod :=
    existsb (fun c => bool_decide (pc_Type c = "Ready") && bool_decide (pc_Status c = "True"))
      (Conditions (pod_Status pod));
  GetPodFromTemplate tpl parent ref :=
    inr (mkPod (setOwnerReferences [ref]
                  (setAnnotations (Annotations (tpl_meta tpl))
                     (setLabels (Labels (tpl_meta tpl)) (metaNamed "" ""))))
           (tpl_Spec tpl) (mkPodStatus "" [] [] ""));
  NewControllerRef owner apiVersion kind :=
    mkOwnerReference apiVersion kind (Name owner) (UID owner) (Some true) (Some true);
|}.
#[export] Instance fx_kube_laws : KubeLibLaws.
Proof.
  split; [by eexists|..|done|]; try by intros tpl parent ref pod [= <-].
  assert (Hf : forall cs, existsb (fun c => bool_decide (pc_Type c = "Ready")
      && bool_decide (pc_Status c = "True")) cs
    = existsb (fun c => bool_decide (pc_Status c = "True"))
        (filter (fun c => pc_Type c = "Ready") cs)).
  { induction cs as [|c cs IH]; [done|]. rewrite filter_cons. cbn [existsb]. rewrite IH.
    case_decide as Hc; [by rewrite bool_decide_true|by rewrite bool_decide_false]. }
  intros pod pod' Hp. cbn. by rewrite !Hf, Hp.
Qed.
#[export] Instance fx_range : MapRange := canonicalRange.

(** Two annotation values and what they decode to. *)
Definition fx_coordinates : Coordinates :=
  [mkCoordinate "A" "W-01" "node1" 1; mkCoordinate "B" "S-02" "node2" 1].
#[export] Instance fx_json : Json Coordinates := {|
  marshal cs := if decide (cs = []) then "[]" else "two";
  unmarshal s :=
    if decide (s = "[]") then Some []
    else if decide (s = "two") then Some fx_coordinates else None;
|}.
(** [default/web] with a claim template and its pods spread over [fx_coordinates]. *)
Definition fx_spreadSet : StatefulSet :=
  mkStatefulSet (metaNamed "default" "web")
    (mkStatefulSetSpec (Some 3) (Some (mkLabelSelector (<["app" := "web"]> ∅) ""))
       (mkPodTemplate
          (setAnnotations (<["coordinates" := "two"]> ∅) (tpl_meta fx_template))
          (tpl_Spec fx_template))
       [fx_claim "data"] "svc" ParallelPodManagement (Some (fx_rolling 1 1)) 2)
    fx_status.

(** ** Encodings as text: the bits of a number *)

Fixpoint fx_bits (p : positive) : string :=
  match p with
  | xH => ""
  | xO p' => String "0" (fx_bits p')
  | xI p' => String "1" (fx_bits p')
  end.

Fixpoint fx_unbits (s : string) : positive :=
  match s with
  | "" => xH
  | String c s' => if decide (c = "0"%char) then xO (fx_unbits s') else xI (fx_unbits s')
  end.

Lemma fx_unbits_bits p : fx_unbits (fx_bits p) = p.
Proof. induction p; cbn; by f_equal. Qed.

(** Coordinates, each read back as it was written. *)
Definition fx_coordTuple (c : Coordinate) : string * string * string * Z :=
  (Zone c, Rack c, Host c, coord_Replicas c).
#[local] Instance fx_coord_countable : Countable Coordinate.
Proof.
  by apply (inj_countable' fx_coordTuple (fun '(z, r, h, n) => mkCoordinate z r h n)); intros [].
Defined.
#[local] Instance fx_coordJson : Json Coordinates := {|
  marshal cs := fx_bits (encode cs);
  unmarshal s := decode (fx_unbits s);
|}.
#[local] Instance fx_coordJson_laws : JsonLaws Coordinates.
Proof. split. intros cs. cbn. rewrite fx_unbits_bits. apply decode_encode. Defined.
