(* ===== verification/Naming.v ===== *)
(** Names: how a pod's name encodes its StatefulSet and ordinal, the names of its
    volume claims, and how the reconciler maps a request for a pod to its set
    ([controllers/stateful_set_utils.go] and [controllers/util.go]). *)

From S2P Require Import Prelude Objects GoString Fixtures.

(** ** [controllers/stateful_set_utils.go] *)

Definition getParentNameAndOrdinal (pod : Pod) : string * Z :=
  match statefulPodRegex (Name (pod_meta pod)) with
  | None => ("", -1)
  | Some (parent, digits) =>
      match ParseInt32 digits with
      | Some i => (parent, i)
      | None => (parent, -1)
      end
  end.

Definition getParentName (pod : Pod) : string :=
  let '(parent, _) := getParentNameAndOrdinal pod in parent.

Definition getOrdinal (pod : Pod) : Z :=
  let '(_, ordinal) := getParentNameAndOrdinal pod in ordinal.

Definition getPodName (set : StatefulSet) (ordinal : Z) : string :=
  Name (set_meta set) +:+ "-" +:+ itoa ordinal.

Definition getPersistentVolumeClaimName (set : StatefulSet) (claim : PersistentVolumeClaimT)
    (ordinal : Z) : string :=
  Name (pvc_meta claim) +:+ "-" +:+ Name (set_meta set) +:+ "-" +:+ itoa ordinal.

Definition isMemberOf (set : StatefulSet) (pod : Pod) : bool :=
  bool_decide (getParentName pod = Name (set_meta set)).

Definition getStatefulSetKey (o : ObjectMeta) : string := Namespace o +:+ "/" +:+ Name o.

(** [realReconcileName]: the set a reconcile request stands for. *)
Definition realReconcileName (objKey : ObjectKey) : ObjectKey :=
  match statefulPodRegex (key_Name objKey) with
  | None => objKey
  | Some (parentName, digits) =>
      match ParseInt32 digits with
      | None => objKey
      | Some _ => mkKey (key_Namespace objKey) parentName
      end
  end.

(** The [sort.Interface] of [ascendingOrdinal], by which condemned pods are sorted. *)
Definition ascendingOrdinal_Len (ao : list Pod) : Z := Z.of_nat (length ao).
Definition ascendingOrdinal_Swap (ao : list Pod) (i j : Z) : Outcome (list Pod) :=
  pj ← index ao j;
  pi ← index ao i;
  Ok (<[Z.to_nat j := pi]> (<[Z.to_nat i := pj]> ao)).
Definition ascendingOrdinal_Less (ao : list Pod) (i j : Z) : Outcome bool :=
  pi ← index ao i;
  pj ← index ao j;
  Ok (bool_decide (getOrdinal pi < getOrdinal pj)).

(** ** [controllers/util.go] *)

Definition getKey (obj : ObjectMeta) : string := Namespace obj +:+ "/" +:+ Name obj.

(** ** Lemmas *)

Lemma getOrdinal_range pod : -1 <= getOrdinal pod <= MaxInt32.
Proof.
  unfold getOrdinal, getParentNameAndOrdinal, MaxInt32.
  destruct (statefulPodRegex _) as [[parent digits]|] eqn:E; [|lia].
  apply statefulPodRegex_Some in E as [Hd _].
  destruct (ParseInt32 digits) eqn:Ep; [|lia].
  apply ParseInt32_range in Ep; [unfold MaxInt32 in Ep; lia|done].
Qed.
#[export] Hint Resolve getOrdinal_range : nuwa.

Lemma regex_podName name ordinal :
  occurs newline name = false -> 0 <= ordinal ->
  statefulPodRegex (name +:+ "-" +:+ itoa ordinal) = Some (name, itoa ordinal).
Proof.
  intros Hn Ho. destruct (itoa_nonneg ordinal Ho) as (Hd & Hne & _).
  apply (statefulPodRegex_match name (itoa ordinal)); done.
Qed.

Lemma itoa_no_dash z : 0 <= z -> occurs "-"%char (itoa z) = false.
Proof. intros Hz. apply digits_no_dash. by destruct (itoa_nonneg z Hz). Qed.

Lemma dash_itoa_inj a b z z' :
  0 <= z -> 0 <= z' -> a +:+ "-" +:+ itoa z = b +:+ "-" +:+ itoa z' -> a = b /\ z = z'.
Proof.
  intros Hz Hz' H.
  pose proof (lastSplit_app "-"%char a (itoa z) (itoa_no_dash z Hz)) as Ha.
  pose proof (lastSplit_app "-"%char b (itoa z') (itoa_no_dash z' Hz')) as Hb.
  assert (a +:+ String "-" (itoa z) = b +:+ String "-" (itoa z')) as H' by exact H.
  rewrite H', Hb in Ha. injection Ha as -> ->%itoa_inj. done.
Qed.

(** The match is strictly shorter than the name: the parent of a name is never
    the name itself. *)
Lemma regex_shorter s a d :
  statefulPodRegex s = Some (a, d) -> (String.length a < String.length s)%nat.
Proof.
  unfold statefulPodRegex, afterNewline.
  destruct (lastSplit "-"%char s) as [[p e]|] eqn:E; [|done].
  case_match; [|done]. intros [= <- <-].
  apply lastSplit_Some in E as [-> _]. rewrite length_append. cbn.
  destruct (lastSplit newline p) as [[u v]|] eqn:E'; [|lia].
  apply lastSplit_Some in E' as [-> _]. rewrite length_append. cbn. lia.
Qed.

Lemma claimName_split set claim ordinal :
  getPersistentVolumeClaimName set claim ordinal
  = (Name (pvc_meta claim) +:+ "-" +:+ Name (set_meta set)) +:+ "-" +:+ itoa ordinal.
Proof. unfold getPersistentVolumeClaimName. by rewrite !append_assoc. Qed.

Lemma podName_parse set ordinal pod :
  occurs newline (Name (set_meta set)) = false ->
  0 <= ordinal <= MaxInt32 ->
  Name (pod_meta pod) = getPodName set ordinal ->
  getParentNameAndOrdinal pod = (Name (set_meta set), ordinal).
Proof.
  intros Hn Ho Hpod. unfold getParentNameAndOrdinal. rewrite Hpod. unfold getPodName.
  rewrite regex_podName by (done || lia). by rewrite ParseInt32_itoa.
Qed.

(** ** Properties *)

(** C39: The name the controller gives the pod of an ordinal makes it a member of the
    set with that ordinal, and of no other set or ordinal. *)
Theorem podName_roundtrip set ordinal pod :
  occurs newline (Name (set_meta set)) = false ->
  0 <= ordinal <= MaxInt32 ->
  Name (pod_meta pod) = getPodName set ordinal ->
  isMemberOf set pod = true /\ getOrdinal pod = ordinal
  /\ (forall set' ordinal', 0 <= ordinal' -> getPodName set' ordinal' = getPodName set ordinal ->
        Name (set_meta set') = Name (set_meta set) /\ ordinal' = ordinal).
Proof.
  intros Hn Ho Hpod. pose proof (podName_parse _ _ _ Hn Ho Hpod) as Hp.
  unfold isMemberOf, getParentName, getOrdinal. rewrite Hp. split_and!.
  - by apply bool_decide_eq_true_2.
  - done.
  - intros set' ordinal' Ho' H. apply dash_itoa_inj in H; [done|done|lia].
Qed.

Lemma podName_roundtrip_witness :
  isMemberOf (fx_set 3 "" (fx_rolling 0 1)) (fx_pod "default" "web-12" "r" "Running" true) = true.
Proof.
  apply (podName_roundtrip (fx_set 3 "" (fx_rolling 0 1)) 12); [reflexivity|done|reflexivity].
Defined.

(** The claims of one set never collide: a claim's name determines the template it
    comes from and the ordinal of its pod. *)
Theorem claimName_inj set claim claim' ordinal ordinal' :
  0 <= ordinal -> 0 <= ordinal' ->
  getPersistentVolumeClaimName set claim ordinal
  = getPersistentVolumeClaimName set claim' ordinal' ->
  Name (pvc_meta claim) = Name (pvc_meta claim') /\ ordinal = ordinal'.
Proof.
  intros Ho Ho' H. rewrite !claimName_split in H.
  apply dash_itoa_inj in H as [H ->]; [|done..].
  split; [|done]. by apply append_cancel_r in H.
Qed.

Lemma claimName_inj_witness :
  "data" = "data" /\ 4 = 4.
Proof.
  apply (claimName_inj (fx_set 3 "" (fx_rolling 0 1)) (fx_claim "data") (fx_claim "data"));
    [done|done|reflexivity].
Defined.

(** A reconcile request for a pod of a set becomes a request for the set. *)
Theorem realReconcileName_pod set ordinal :
  occurs newline (Name (set_meta set)) = false ->
  0 <= ordinal <= MaxInt32 ->
  realReconcileName (mkKey (Namespace (set_meta set)) (getPodName set ordinal))
  = keyOf (set_meta set).
Proof.
  intros Hn Ho. unfold realReconcileName, getPodName. cbn [key_Name key_Namespace].
  rewrite regex_podName by (done || lia). by rewrite ParseInt32_itoa.
Qed.

Lemma realReconcileName_pod_witness :
  realReconcileName (mkKey "default" "web-2") = mkKey "default" "web".
Proof.
  apply (realReconcileName_pod (fx_set 3 "" (fx_rolling 0 1)) 2); [reflexivity|done].
Defined.

(** A request for a set itself survives exactly when the set's own name does not
    end in a dash and a 32-bit number: a set named that way is looked up under its
    truncated name, so the controller never reconciles it. *)
Theorem realReconcileName_self key :
  realReconcileName key = key <->
  match statefulPodRegex (key_Name key) with
  | Some (_, digits) => ParseInt32 digits = None
  | None => True
  end.
Proof.
  unfold realReconcileName.
  destruct (statefulPodRegex (key_Name key)) as [[parent digits]|] eqn:E; [|done].
  destruct (ParseInt32 digits); [|done]. split; [|done].
  intros H. apply (f_equal key_Name) in H. cbn in H. subst.
  apply regex_shorter in E. lia.
Qed.
