(* ===== verification/Expectations.v ===== *)
(** The update expectations of [controllers/util.go]: which pods the controller
    has updated in place and not yet seen at the new revision. Operations as in
    the code, an invariant of the reachable states, and the meaning of the whole
    component as a function of the calls made so far. *)

From S2P Require Import Prelude Objects GoString Naming.

Record realControllerUpdateExpectations := mkExpectations {
  revision : string;
  objsUpdated : gset string;
}.

(** The state behind the mutex: [realUpdateExpectations.controllerCache]. *)
Notation controllerCache := (gmap string realControllerUpdateExpectations).

Definition NewUpdateExpectations : controllerCache := ∅.

Section Expectations.
(** The tracked objects and [realUpdateExpectations.getRevision]. *)
Context {O : Type} (meta : O -> ObjectMeta) (getRevision : O -> string).

Definition ExpectUpdated (controllerKey rev : string) (obj : O) (cache : controllerCache)
  : controllerCache :=
  let fresh := mkExpectations rev ∅ in
  let expectations :=
    match cache !! controllerKey with
    | None => fresh
    | Some e => if decide (revision e <> rev) then fresh else e
    end in
  <[controllerKey :=
      mkExpectations (revision expectations)
        ({[getKey (meta obj)]} ∪ objsUpdated expectations)]> cache.

Definition ObserveUpdated (controllerKey rev : string) (obj : O) (cache : controllerCache)
  : controllerCache :=
  match cache !! controllerKey with
  | None => cache
  | Some e =>
      let objs :=
        if decide (revision e = rev /\ getKey (meta obj) ∈ objsUpdated e
                   /\ getRevision obj = rev)
        then objsUpdated e ∖ {[getKey (meta obj)]}
        else objsUpdated e in
      if decide (revision e <> rev \/ size objs = 0%nat)
      then delete controllerKey cache
      else <[controllerKey := mkExpectations (revision e) objs]> cache
  end.

(** Whether every expected update has been observed, and the sorted keys of
    those that have not. *)
Definition SatisfiedExpectations (controllerKey rev : string) (cache : controllerCache)
  : bool * list string :=
  match cache !! controllerKey with
  | None => (true, [])
  | Some e =>
      if decide (revision e <> rev) then (true, [])
      else (bool_decide (size (objsUpdated e) = 0%nat),
            merge_sort String.le (elements (objsUpdated e)))
  end.

Definition DeleteExpectations (controllerKey : string) (cache : controllerCache)
  : controllerCache := delete controllerKey cache.

(** ** Calls and histories *)

Inductive Op :=
  | OpExpect (controllerKey rev : string) (obj : O)
  | OpObserve (controllerKey rev : string) (obj : O)
  | OpDelete (controllerKey : string).

Definition runOp (cache : controllerCache) (o : Op) : controllerCache :=
  match o with
  | OpExpect k r x => ExpectUpdated k r x cache
  | OpObserve k r x => ObserveUpdated k r x cache
  | OpDelete k => DeleteExpectations k cache
  end.

(** The states the calls can reach, as a relation. *)
Inductive Reachable : controllerCache -> Prop :=
  | reach_new : Reachable NewUpdateExpectations
  | reach_op cache o : Reachable cache -> Reachable (runOp cache o).

(** [outstanding k rev key hist]: after the calls [hist] (latest first), the
    update of object [key] to [rev] is still awaited for controller [k]: it was
    expected, and nothing since then has observed it at [rev], moved the
    controller to another revision, or dropped the controller. *)
Fixpoint outstanding (k rev key : string) (hist : list Op) : bool :=
  match hist with
  | [] => false
  | OpExpect k' r x :: h =>
      if decide (k' <> k) then outstanding k rev key h
      else if decide (r <> rev) then false
      else bool_decide (getKey (meta x) = key) || outstanding k rev key h
  | OpObserve k' r x :: h =>
      if decide (k' <> k) then outstanding k rev key h
      else if decide (r <> rev) then false
      else if decide (getKey (meta x) = key /\ getRevision x = rev) then false
      else outstanding k rev key h
  | OpDelete k' :: h => if decide (k' <> k) then outstanding k rev key h else false
  end.

Definition runHistory (hist : list Op) : controllerCache :=
  foldr (fun o cache => runOp cache o) NewUpdateExpectations hist.

(** ** Lemmas *)

(** The objects awaited for a controller at a revision. *)
Definition pending (k rev : string) (cache : controllerCache) : gset string :=
  match cache !! k with
  | Some e => if decide (revision e = rev) then objsUpdated e else ∅
  | None => ∅
  end.

Lemma Satisfied_pending k rev cache :
  (SatisfiedExpectations k rev cache).1 = true <-> pending k rev cache = ∅.
Proof.
  unfold SatisfiedExpectations, pending.
  destruct (cache !! k) as [e|]; [|done].
  destruct (decide (revision e = rev)) as [Heq|Hne].
  - rewrite decide_False by tauto. cbn [fst]. rewrite bool_decide_eq_true, size_empty_iff.
    by rewrite leibniz_equiv_iff.
  - by rewrite decide_True.
Qed.

Lemma pending_expect k r x k' rev cache :
  pending k' rev (ExpectUpdated k r x cache) =
    if decide (k <> k') then pending k' rev cache
    else if decide (r <> rev) then ∅
    else {[getKey (meta x)]} ∪ pending k' rev cache.
Proof.
  unfold pending, ExpectUpdated. rewrite lookup_insert.
  repeat (case_decide || case_match || simplify_eq/=); try done.
  all: by rewrite ?union_empty_r_L.
Qed.

Lemma pending_observe k r x k' rev cache :
  pending k' rev (ObserveUpdated k r x cache) =
    if decide (k <> k') then pending k' rev cache
    else if decide (r <> rev) then
      (if decide (revision <$> cache !! k = Some rev) then ∅ else pending k' rev cache)
    else if decide (getRevision x = rev) then pending k' rev cache ∖ {[getKey (meta x)]}
    else pending k' rev cache.
Proof.
  unfold pending, ObserveUpdated. destruct (cache !! k) as [e|] eqn:E.
  2: { repeat (case_decide || simplify_eq/=); rewrite ?E; try done. set_solver. }
  destruct (decide (k = k')) as [<-|Hne].
  2: { rewrite (decide_True (P := k <> k')) by done.
       case_decide; [by rewrite lookup_delete_ne|by rewrite lookup_insert_ne]. }
  rewrite (decide_False (P := k <> k)) by auto.
  destruct (decide (revision e = r)) as [<-|Hr].
  2: { rewrite (decide_True (P := revision e <> r \/ _)) by auto.
       rewrite lookup_delete_eq, E. repeat case_decide; simplify_eq/=; set_solver. }
  set (objs := if decide (revision e = revision e /\ _ /\ _) then _ else _).
  assert (objs = if decide (getRevision x = revision e)
                 then objsUpdated e ∖ {[getKey (meta x)]} else objsUpdated e) as Hobjs.
  { unfold objs. repeat case_decide; try done; [by destruct_and?|].
    assert (getKey (meta x) ∉ objsUpdated e) by naive_solver. set_solver. }
  destruct (decide (size objs = 0%nat)) as [Hsz|Hsz].
  - rewrite decide_True by auto. rewrite lookup_delete_eq, E.
    apply size_empty_inv, leibniz_equiv in Hsz. rewrite Hobjs in Hsz.
    repeat (case_decide || simplify_eq/=); try done; set_solver.
  - rewrite decide_False by naive_solver. rewrite lookup_insert_eq, E. cbn [revision objsUpdated].
    rewrite Hobjs. repeat (case_decide || simplify_eq/=); try done; set_solver.
Qed.

(** [pending] is exactly what the history leaves outstanding. *)
Lemma pending_history hist k rev key :
  key ∈ pending k rev (runHistory hist) <-> outstanding k rev key hist = true.
Proof.
  revert k rev. induction hist as [|o hist IH]; intros k rev.
  { unfold pending. cbn. unfold NewUpdateExpectations. rewrite lookup_empty. set_solver. }
  change (runHistory (o :: hist)) with (runOp (runHistory hist) o).
  destruct o as [k' r x|k' r x|k']; cbn [runOp outstanding].
  - rewrite pending_expect. destruct (decide (k' <> k)) as [|Hk]; [apply IH|].
    destruct (decide (r <> rev)) as [Hr|Hr]; [set_solver|].
    rewrite elem_of_union, elem_of_singleton, IH, orb_true_iff, bool_decide_eq_true.
    naive_solver.
  - rewrite pending_observe. destruct (decide (k' <> k)) as [|Hk]; [apply IH|].
    apply dec_stable in Hk as ->. destruct (decide (r <> rev)) as [Hr|Hr].
    + split; [|done]. unfold pending.
      repeat (case_decide || case_match || simplify_eq/=); set_solver.
    + apply dec_stable in Hr as ->.
      repeat case_decide;
        rewrite ?elem_of_difference, ?elem_of_singleton, <-?IH; naive_solver.
  - unfold DeleteExpectations, pending. case_decide as Hk.
    + rewrite lookup_delete_ne by done. apply IH.
    + subst. rewrite lookup_delete_eq. set_solver.
Qed.

(** ** Properties *)

(** No reachable state keeps an empty expectation: an entry disappears with the
    last object it waits for. *)
Theorem expectations_nonempty cache k e :
  Reachable cache -> cache !! k = Some e -> objsUpdated e <> ∅.
Proof.
  intros Hr. revert k e. induction Hr as [|cache o Hr IH]; intros k e.
  { unfold NewUpdateExpectations. by rewrite lookup_empty. }
  destruct o as [k' r x|k' r x|k']; cbn [runOp].
  - unfold ExpectUpdated. rewrite lookup_insert. case_decide; [|apply IH].
    intros [= <-]. cbn. set_solver.
  - unfold ObserveUpdated. destruct (cache !! k') as [e'|] eqn:E; [|apply IH].
    set (objs := if decide (_ /\ _) then _ else _).
    destruct (decide (revision e' <> r \/ size objs = 0%nat)) as [Hd|Hd].
    + rewrite lookup_delete. case_decide; [done|apply IH].
    + rewrite lookup_insert. case_decide; [|apply IH].
      intros [= <-]. cbn. intros Hempty. apply Hd. right.
      by rewrite Hempty.
  - unfold DeleteExpectations. rewrite lookup_delete. case_decide; [done|apply IH].
Qed.

(** C25: The controller may go on updating exactly when no update it has made at this
    revision is still unobserved, for every sequence of calls. *)
Theorem SatisfiedExpectations_history hist k rev :
  (SatisfiedExpectations k rev (runHistory hist)).1 = true <->
  forall key, outstanding k rev key hist = false.
Proof.
  rewrite Satisfied_pending. split.
  - intros H key. apply not_true_iff_false. rewrite <-pending_history, H. set_solver.
  - intros H. apply set_eq. intros key. rewrite pending_history, H. set_solver.
Qed.
End Expectations.

Lemma expectations_nonempty_witness :
  objsUpdated (mkExpectations "r1" {["default/web-0"]}) <> ∅.
Proof.
  apply (expectations_nonempty id (fun _ => "r1")
           (runOp id (fun _ => "r1") NewUpdateExpectations
              (OpExpect "default/web" "r1" (metaNamed "default" "web-0"))) "default/web").
  - apply reach_op, reach_new.
  - reflexivity.
Defined.
