(* ===== verification/PodIdentity.v ===== *)
(** The pods of a StatefulSet: their state as the controller reads it, the identity
    and storage a member must have, and how a new pod is built for an ordinal
    ([controllers/stateful_set_utils.go], lines 94-284). *)

From S2P Require Import Prelude Objects GoString Libraries Coordinate Naming Fixtures.

(** ** What the controller reads off a pod *)

Section PodState.
Context `{KubeLib}.

Definition isRunningAndReady (pod : Pod) : bool :=
  bool_decide (Phase (pod_Status pod) = PodRunning) && IsPodReady pod.

Definition isCreated (pod : Pod) : bool := bool_decide (Phase (pod_Status pod) <> "").

Definition isFailed (pod : Pod) : bool := bool_decide (Phase (pod_Status pod) = PodFailed).

Definition isTerminating (pod : Pod) : bool :=
  bool_decide (DeletionTimestamp (pod_meta pod) <> None).

Definition isHealthy (pod : Pod) : bool := isRunningAndReady pod && negb (isTerminating pod).
End PodState.

Definition allowsBurst (set : StatefulSet) : bool :=
  bool_decide (PodManagementPolicy (set_Spec set) = ParallelPodManagement).

Definition setPodRevision (pod : Pod) (revision : string) : Pod :=
  overMeta (fun m => setLabels (<[StatefulSetRevisionLabel := revision]> (Labels m)) m) pod.

(** A missing label reads as the empty string. *)
Definition label (k : string) (pod : Pod) : string := default "" (Labels (pod_meta pod) !! k).

Definition getPodRevision (pod : Pod) : string := label StatefulSetRevisionLabel pod.

(** The pod's one owner is this object, as its controller. *)
Definition controlledBy (owner : ObjectMeta) (pod : Pod) : Prop :=
  match OwnerReferences (pod_meta pod) with
  | [ref] => owner_UID ref = UID owner /\ owner_Controller ref = Some true
  | _ => False
  end.
#[export] Instance controlledBy_dec owner pod : Decision (controlledBy owner pod).
Proof. unfold controlledBy. repeat case_match; apply _. Defined.

(** ** Identity and storage *)

Definition identityMatches (set : StatefulSet) (pod : Pod) : bool :=
  let '(parent, ordinal) := getParentNameAndOrdinal pod in
  bool_decide (ordinal >= 0)
  && bool_decide (Name (set_meta set) = parent)
  && bool_decide (Name (pod_meta pod) = getPodName set ordinal)
  && bool_decide (Namespace (pod_meta pod) = Namespace (set_meta set))
  && bool_decide (label StatefulSetPodNameLabel pod = Name (pod_meta pod)).

(** [volumes[volume.Name] = volume] over the pod's volumes. *)
Definition volumesByName (vs : list Volume) : gmap string Volume :=
  foldl (fun m v => <[vol_Name v := v]> m) ∅ vs.

Definition claimMounted (set : StatefulSet) (ordinal : Z) (volumes : gmap string Volume)
    (claim : PersistentVolumeClaimT) : bool :=
  match volumes !! Name (pvc_meta claim) with
  | None => false
  | Some volume =>
      match PersistentVolumeClaim volume with
      | None => false
      | Some src => bool_decide (ClaimName src = getPersistentVolumeClaimName set claim ordinal)
      end
  end.

Definition storageMatches (set : StatefulSet) (pod : Pod) : bool :=
  let ordinal := getOrdinal pod in
  if decide (ordinal < 0) then false
  else forallb (claimMounted set ordinal (volumesByName (elems (Volumes (pod_Spec pod)))))
         (VolumeClaimTemplates (set_Spec set)).

(** The claims of a pod by template name; reads [*set.Spec.Selector] once per
    template. *)
Fixpoint claimsFrom (set : StatefulSet) (ordinal : Z) (templates : list PersistentVolumeClaimT)
    (claims : gmap string PersistentVolumeClaimT) : Outcome (gmap string PersistentVolumeClaimT) :=
  match templates with
  | [] => Ok claims
  | t :: templates' =>
      selector ← deref (Selector (set_Spec set));
      let claim :=
        mkClaim (setLabels (MatchLabels selector)
                   (setNamespace (Namespace (set_meta set))
                      (setName (getPersistentVolumeClaimName set t ordinal) (pvc_meta t))))
          (pvc_rest t) in
      claimsFrom set ordinal templates' (<[Name (pvc_meta t) := claim]> claims)
  end.

Definition getPersistentVolumeClaims (set : StatefulSet) (pod : Pod)
  : Outcome (gmap string PersistentVolumeClaimT) :=
  claimsFrom set (getOrdinal pod) (VolumeClaimTemplates (set_Spec set)) ∅.

Section NewPod.
Context `{KubeLib, MapRange, Json Coordinates}.

Definition updateStorage (set : StatefulSet) (pod : Pod) : Outcome Pod :=
  let currentVolumes := elems (Volumes (pod_Spec pod)) in
  claims ← getPersistentVolumeClaims set pod;
  let newVolumes :=
    (fun '(name, claim) =>
       mkVolume name (Some (mkClaimSource (Name (pvc_meta claim)) false)) "")
    <$> mapRange claims in
  let kept := filter (fun v => claims !! vol_Name v = None) currentVolumes in
  Ok (overSpec (setVolumes (Some (newVolumes ++ kept))) pod).

Definition updateIdentity (set : StatefulSet) (pod : Pod) : Pod :=
  let name := getPodName set (getOrdinal pod) in
  overMeta (fun m =>
    setLabels (<[StatefulSetPodNameLabel := name]> (Labels m))
      (setNamespace (Namespace (set_meta set)) (setName name m))) pod.

Definition initIdentity (set : StatefulSet) (pod : Pod) : Pod :=
  let pod := updateIdentity set pod in
  overSpec (fun s => setSubdomain (ServiceName (set_Spec set))
                       (setHostname (Name (pod_meta pod)) s)) pod.

Definition coordinatorPod (set : StatefulSet) (pod : Pod) (ordinal : Z) : Outcome Pod :=
  match Annotations (tpl_meta (Template (set_Spec set))) !! "coordinates" with
  | None => Ok pod
  | Some cords =>
      match unmarshal cords with
      | None => Ok pod
      | Some coordinates =>
          if decide (length coordinates = 0%nat) then Panic DivideByZero else
          coordinate ← index coordinates (Z.rem ordinal (Z.of_nat (length coordinates)));
          let nodeAffinity := organizationNodeAffinity coordinate in
          if decide (Affinity (pod_Spec pod) = None
                     \/ (Affinity (pod_Spec pod) ≫= aff_NodeAffinity) = None)
          then Ok (overSpec (setAffinity (Some (mkAffinity (Some nodeAffinity) ""))) pod)
          else Ok pod
      end
  end.

Definition newStatefulSetPod (set : StatefulSet) (ordinal : Z) : Outcome Pod :=
  match GetPodFromTemplate (Template (set_Spec set)) (set_meta set)
          (NewControllerRef (set_meta set) "nuwa.nip.io/v1" "StatefulSet") with
  | inl _ => Panic NilDereference
  | inr pod =>
      let pod := overMeta (setName (getPodName set ordinal)) pod in
      let pod := initIdentity set pod in
      pod ← updateStorage set pod;
      coordinatorPod set pod ordinal
  end.

(** Whether the pod of [ordinal] is built at the current revision:
    [a && b || c], as Go parses it. *)
Definition atCurrentRevision (currentSet : StatefulSet) (ordinal : Z) : Outcome bool :=
  us ← deref (UpdateStrategy (set_Spec currentSet));
  if bool_decide (us_Type us = RollingUpdateStatefulSetStrategyType)
     && (bool_decide (RollingUpdate us = None)
         && bool_decide (ordinal < CurrentReplicas (set_Status currentSet)))
  then Ok true
  else
    match RollingUpdate us with
    | None => Ok false
    | Some ru =>
        partition ← deref (Partition ru);
        Ok (bool_decide (ordinal < partition))
    end.

Definition newVersionedStatefulSetPod (currentSet updateSet : StatefulSet)
    (currentRevision updateRevision : string) (ordinal : Z) : Outcome Pod :=
  current ← atCurrentRevision currentSet ordinal;
  if current : bool then
    pod ← newStatefulSetPod currentSet ordinal;
    Ok (setPodRevision pod currentRevision)
  else
    pod ← newStatefulSetPod updateSet ordinal;
    Ok (setPodRevision pod updateRevision).
End NewPod.

(** ** Lemmas: claims and volumes *)

(** The claim name that goes with a template name, for the pod of [ordinal]. *)
Definition claimNameOf (set : StatefulSet) (ordinal : Z) (template : string) : string :=
  template +:+ "-" +:+ Name (set_meta set) +:+ "-" +:+ itoa ordinal.

Lemma claimsFrom_total set ordinal ts acc :
  is_Some (Selector (set_Spec set)) -> exists m, claimsFrom set ordinal ts acc = Ok m.
Proof.
  intros [sel Hsel]. revert acc. induction ts as [|t ts IH]; intros acc; cbn; [by eexists|].
  rewrite Hsel. apply IH.
Qed.

Lemma claimsFrom_spec set ordinal ts acc m :
  claimsFrom set ordinal ts acc = Ok m ->
  (forall k c, acc !! k = Some c -> Name (pvc_meta c) = claimNameOf set ordinal k) ->
  (forall k c, m !! k = Some c -> Name (pvc_meta c) = claimNameOf set ordinal k)
  /\ (forall k, is_Some (m !! k) <-> is_Some (acc !! k) \/ exists t, t ∈ ts /\ Name (pvc_meta t) = k).
Proof.
  revert acc. induction ts as [|t ts IH]; intros acc; cbn.
  { intros [= <-] Hacc. split; [done|]. intros k. split; [auto|].
    intros [?|(t & ?%not_elem_of_nil & _)]; done. }
  destruct (Selector (set_Spec set)) as [sel|]; [|done]. cbn. intros Hm Hacc.
  destruct (IH _ Hm) as [Hname Hdom].
  { intros k c. rewrite lookup_insert. case_decide; [|apply Hacc]. by intros [= <-]; subst. }
  split; [done|]. intros k. rewrite Hdom, lookup_insert. setoid_rewrite elem_of_cons.
  case_decide; naive_solver.
Qed.

Lemma volumesByName_snoc vs v :
  volumesByName (vs ++ [v]) = <[vol_Name v := v]> (volumesByName vs).
Proof. unfold volumesByName. by rewrite foldl_app. Qed.

Lemma volumesByName_Some vs k v :
  volumesByName vs !! k = Some v -> v ∈ vs /\ vol_Name v = k.
Proof.
  induction vs as [|u vs IH] using rev_ind; [done|].
  rewrite volumesByName_snoc, lookup_insert, elem_of_app.
  case_decide; [|naive_solver]. intros [= ->]. split; [set_solver|done].
Qed.

Lemma volumesByName_dom vs v :
  v ∈ vs -> is_Some (volumesByName vs !! vol_Name v).
Proof.
  induction vs as [|u vs IH] using rev_ind; [by intros ?%not_elem_of_nil|].
  rewrite volumesByName_snoc, lookup_insert, elem_of_app, list_elem_of_singleton.
  case_decide; [by eauto|]. intros [?| ->]; [by apply IH|done].
Qed.

(** ** Lemmas: names and labels *)

Lemma parentAndOrdinal_Name pod pod' :
  Name (pod_meta pod) = Name (pod_meta pod') ->
  getParentNameAndOrdinal pod = getParentNameAndOrdinal pod'.
Proof. unfold getParentNameAndOrdinal. by intros ->. Qed.

Lemma getOrdinal_Name pod pod' :
  Name (pod_meta pod) = Name (pod_meta pod') -> getOrdinal pod = getOrdinal pod'.
Proof. unfold getOrdinal. by intros ->%parentAndOrdinal_Name. Qed.

Lemma identityMatches_spec set pod :
  identityMatches set pod = true <->
  exists ordinal, getParentNameAndOrdinal pod = (Name (set_meta set), ordinal)
    /\ 0 <= ordinal
    /\ Name (pod_meta pod) = getPodName set ordinal
    /\ Namespace (pod_meta pod) = Namespace (set_meta set)
    /\ label StatefulSetPodNameLabel pod = Name (pod_meta pod).
Proof.
  unfold identityMatches. destruct (getParentNameAndOrdinal pod) as [parent ordinal].
  rewrite !andb_true_iff, !bool_decide_eq_true. split.
  - intros [[[[? <-] ?] ?] ?]. exists ordinal. repeat split; done || lia.
  - intros (o & [= -> <-] & ? & ? & ? & ?). repeat split; done || lia.
Qed.

(** Identity only depends on the metadata, so what is done to spec and status
    afterwards leaves it alone. *)
Lemma identityMatches_meta set pod pod' :
  pod_meta pod = pod_meta pod' -> identityMatches set pod = identityMatches set pod'.
Proof.
  unfold identityMatches, label. intros H.
  rewrite (parentAndOrdinal_Name pod pod') by congruence. by rewrite H.
Qed.

Lemma getPodRevision_set pod r : getPodRevision (setPodRevision pod r) = r.
Proof. unfold getPodRevision, label, setPodRevision. cbn. by rewrite lookup_insert_eq. Qed.

Lemma label_setPodRevision pod r :
  label StatefulSetPodNameLabel (setPodRevision pod r) = label StatefulSetPodNameLabel pod.
Proof. unfold label, setPodRevision. cbn. by rewrite lookup_insert_ne. Qed.

Lemma identityMatches_setPodRevision set pod r :
  identityMatches set (setPodRevision pod r) = identityMatches set pod.
Proof.
  unfold identityMatches. rewrite (parentAndOrdinal_Name _ pod) by done.
  by rewrite label_setPodRevision.
Qed.

(** ** Lemmas: storage *)

Section Storage.
Context `{KubeLib, MapRange, Json Coordinates}.

Lemma updateStorage_total set pod :
  is_Some (Selector (set_Spec set)) -> exists pod', updateStorage set pod = Ok pod'.
Proof.
  intros Hsel. unfold updateStorage, getPersistentVolumeClaims.
  destruct (claimsFrom_total set (getOrdinal pod) (VolumeClaimTemplates (set_Spec set)) ∅ Hsel)
    as [m ->]. by eexists.
Qed.

Lemma updateStorage_frame set pod pod' :
  updateStorage set pod = Ok pod' ->
  pod_meta pod' = pod_meta pod /\ pod_Status pod' = pod_Status pod
  /\ setVolumes None (pod_Spec pod') = setVolumes None (pod_Spec pod).
Proof.
  unfold updateStorage. destruct (getPersistentVolumeClaims set pod); [|done].
  by intros [= <-].
Qed.

(** Every claim of the set is mounted under its template's name, and no other
    volume of the pod is lost. *)
Lemma updateStorage_volumes set pod pod' :
  updateStorage set pod = Ok pod' ->
  let templates := VolumeClaimTemplates (set_Spec set) in
  let vs := elems (Volumes (pod_Spec pod')) in
  (forall t, t ∈ templates ->
     exists v src, volumesByName vs !! Name (pvc_meta t) = Some v
       /\ PersistentVolumeClaim v = Some src
       /\ ClaimName src = getPersistentVolumeClaimName set t (getOrdinal pod))
  /\ (forall v, v ∈ elems (Volumes (pod_Spec pod)) ->
       (forall t, t ∈ templates -> Name (pvc_meta t) <> vol_Name v) -> v ∈ vs).
Proof.
  unfold updateStorage, getPersistentVolumeClaims.
  destruct (claimsFrom _ _ _ ∅) as [claims|] eqn:E; [|done]. intros [= <-]. cbn.
  apply claimsFrom_spec in E as [Hname Hdom]; [|by intros ??; rewrite lookup_empty].
  split.
  - intros t Ht.
    destruct (proj2 (Hdom (Name (pvc_meta t)))) as [c Hc]; [eauto|].
    set (news := _ <$> mapRange claims). set (kept := filter _ _).
    assert (mkVolume (Name (pvc_meta t)) (Some (mkClaimSource (Name (pvc_meta c)) false)) ""
            ∈ news) as Hv.
    { apply list_elem_of_fmap. exists (Name (pvc_meta t), c).
      by rewrite elem_of_mapRange. }
    destruct (volumesByName_dom (news ++ kept) _ (proj2 (elem_of_app _ _ _) (or_introl Hv)))
      as [v Hl].
    cbn [vol_Name] in Hl. exists v. pose proof (volumesByName_Some _ _ _ Hl) as [Hin Hvn].
    apply elem_of_app in Hin as [Hin|Hin].
    + apply list_elem_of_fmap in Hin as ([k c'] & -> & Hk%elem_of_mapRange). cbn in *.
      eexists. split_and!; [done|done|]. cbn. rewrite (Hname _ _ Hk). by subst.
    + apply list_elem_of_filter in Hin as [Hnone _]. rewrite Hvn, Hc in Hnone. done.
  - intros v Hv Hother. apply elem_of_app. right. apply list_elem_of_filter.
    split; [|done]. apply eq_None_not_Some. rewrite Hdom, lookup_empty.
    intros [[? ?]|(t & Ht & Heq)]; [done|by apply (Hother t)].
Qed.

Lemma updateStorage_matches set pod pod' :
  updateStorage set pod = Ok pod' -> 0 <= getOrdinal pod -> storageMatches set pod' = true.
Proof.
  intros Hu Ho. pose proof (updateStorage_frame _ _ _ Hu) as [Hmeta _].
  unfold storageMatches. rewrite (getOrdinal_Name pod' pod) by congruence.
  rewrite decide_False by lia. apply forallb_forall. intros t Ht%list_elem_of_In.
  apply updateStorage_volumes in Hu as [Hu _].
  destruct (Hu t Ht) as (v & src & Hv & Hsrc & Hname).
  unfold claimMounted. rewrite Hv, Hsrc. by apply bool_decide_eq_true_2.
Qed.

Lemma updateIdentity_matches set pod :
  occurs newline (Name (set_meta set)) = false ->
  0 <= getOrdinal pod ->
  identityMatches set (updateIdentity set pod) = true
  /\ getOrdinal (updateIdentity set pod) = getOrdinal pod.
Proof.
  intros Hn Ho. pose proof (getOrdinal_range pod) as [_ Hmax].
  assert (getParentNameAndOrdinal (updateIdentity set pod)
          = (Name (set_meta set), getOrdinal pod)) as Hp.
  { by apply podName_parse. }
  split.
  - apply identityMatches_spec. exists (getOrdinal pod). split_and!; [done..|].
    unfold label. cbn. by rewrite lookup_insert_eq.
  - unfold getOrdinal at 1. by rewrite Hp.
Qed.
End Storage.

(** ** Properties *)

(** C36: A pod the controller would update gets the set's identity and storage: after
    [updateIdentity] and [updateStorage] both checks hold, and only the volumes
    shadowed by a claim template are replaced. *)
Theorem updateStatefulPod_establishes `{KubeLib, MapRange, Json Coordinates} set pod :
  occurs newline (Name (set_meta set)) = false ->
  is_Some (Selector (set_Spec set)) ->
  0 <= getOrdinal pod ->
  exists pod', updateStorage set (updateIdentity set pod) = Ok pod'
    /\ identityMatches set pod' = true
    /\ storageMatches set pod' = true
    /\ getPodRevision pod' = getPodRevision pod
    /\ (forall v, v ∈ elems (Volumes (pod_Spec pod)) ->
          (forall t, t ∈ VolumeClaimTemplates (set_Spec set) ->
             Name (pvc_meta t) <> vol_Name v) ->
          v ∈ elems (Volumes (pod_Spec pod'))).
Proof.
  intros Hn Hsel Ho. destruct (updateIdentity_matches set pod Hn Ho) as [Hid Hord].
  destruct (updateStorage_total set (updateIdentity set pod) Hsel) as [pod' Hu].
  pose proof (updateStorage_frame _ _ _ Hu) as (Hmeta & _).
  exists pod'. split_and!; [done| | | |].
  - by rewrite (identityMatches_meta _ _ _ Hmeta).
  - apply (updateStorage_matches _ _ _ Hu). lia.
  - unfold getPodRevision, label. rewrite Hmeta. cbn. by rewrite lookup_insert_ne.
  - apply updateStorage_volumes in Hu as [_ Hu]. exact Hu.
Qed.

(** The annotation that spreads the pods over coordinates does not decode to an
    empty list. *)
Definition coordinatesUsable `{Json Coordinates} (set : StatefulSet) : Prop :=
  match Annotations (tpl_meta (Template (set_Spec set))) !! "coordinates" with
  | Some s => unmarshal s <> Some []
  | None => True
  end.

Section NewPodProperties.
Context `{KubeLib, !KubeLibLaws, MapRange, Json Coordinates}.

Lemma coordinatorPod_total set pod ordinal :
  0 <= ordinal -> coordinatesUsable set ->
  exists pod', coordinatorPod set pod ordinal = Ok pod'
    /\ pod_meta pod' = pod_meta pod /\ pod_Status pod' = pod_Status pod
    /\ setAffinity None (pod_Spec pod') = setAffinity None (pod_Spec pod).
Proof.
  unfold coordinatesUsable, coordinatorPod. intros Ho Hc.
  destruct (_ !! "coordinates") as [s|]; [|by exists pod].
  destruct (unmarshal s) as [cs|]; [|by exists pod].
  rewrite decide_False by (destruct cs; [congruence|done]).
  assert (exists c, index cs (Z.rem ordinal (Z.of_nat (length cs))) = Ok c) as [c ->].
  { destruct cs as [|c0 cs]; [done|].
    pose proof (Z.rem_bound_pos ordinal (Z.of_nat (length (c0 :: cs)))) as Hb.
    cbn [length] in *. unfold index. rewrite decide_True by lia.
    destruct (lookup_lt_is_Some_2 (c0 :: cs)
                (Z.to_nat (Z.rem ordinal (Z.of_nat (S (length cs)))))) as [c Hl];
      [cbn; lia|]. rewrite Hl. by eexists. }
  cbn. case_decide; by eexists.
Qed.

(** What a new pod is. *)
Lemma newPod_member set ordinal :
  occurs newline (Name (set_meta set)) = false ->
  is_Some (Selector (set_Spec set)) ->
  coordinatesUsable set ->
  0 <= ordinal <= MaxInt32 ->
  exists pod, newStatefulSetPod set ordinal = Ok pod
    /\ identityMatches set pod = true /\ storageMatches set pod = true
    /\ getOrdinal pod = ordinal
    /\ isCreated pod = false /\ isTerminating pod = false
    /\ Hostname (pod_Spec pod) = getPodName set ordinal
    /\ Subdomain (pod_Spec pod) = ServiceName (set_Spec set).
Proof.
  intros Hn Hsel Hc Ho. unfold newStatefulSetPod.
  destruct (template_ok (Template (set_Spec set)) (set_meta set)
              (NewControllerRef (set_meta set) "nuwa.nip.io/v1" "StatefulSet")) as [pod0 E].
  rewrite E. apply template_pod in E as (_ & _ & Hdel & _ & Hphase).
  set (pod1 := overMeta (setName (getPodName set ordinal)) pod0).
  assert (getOrdinal pod1 = ordinal) as Hord.
  { unfold getOrdinal. by rewrite (podName_parse set ordinal pod1). }
  destruct (updateIdentity_matches set pod1 Hn ltac:(lia)) as [Hid Hio].
  destruct (updateStorage_total set (initIdentity set pod1) Hsel) as [pod2 Hu].
  destruct (coordinatorPod_total set pod2 ordinal ltac:(lia) Hc)
    as (pod3 & Hcp & Hmeta3 & Hstatus3 & Hspec3).
  pose proof (updateStorage_frame _ _ _ Hu) as (Hmeta2 & Hstatus2 & Hspec2).
  pose proof (updateStorage_matches _ _ _ Hu) as Hst.
  exists pod3. rewrite Hu. cbn [mbind Outcome_bind]. rewrite Hcp.
  assert (pod_meta pod3 = pod_meta (updateIdentity set pod1)) as Hmeta
    by (rewrite Hmeta3, Hmeta2; done).
  rewrite (identityMatches_meta _ _ _ Hmeta). split_and!; [done|done| | | | | |].
  - assert (storageMatches set pod2 = true) as <-.
    { apply Hst. rewrite (getOrdinal_Name _ (updateIdentity set pod1)) by done. lia. }
    unfold storageMatches. rewrite (getOrdinal_Name pod3 pod2) by congruence.
    by apply (f_equal Volumes) in Hspec3 as Hv; cbn in Hv; rewrite Hv.
  - rewrite (getOrdinal_Name _ (updateIdentity set pod1)) by congruence. lia.
  - unfold isCreated. rewrite Hstatus3, Hstatus2. cbn.
    apply bool_decide_eq_false_2. intros Hx. apply Hx, Hphase.
  - unfold isTerminating. rewrite Hmeta. apply bool_decide_eq_false_2.
    intros Hx. apply Hx, Hdel.
  - apply (f_equal Hostname) in Hspec3, Hspec2. cbn in Hspec3, Hspec2.
    rewrite Hspec3, Hspec2. by rewrite Hord.
  - apply (f_equal Subdomain) in Hspec3, Hspec2. cbn in Hspec3, Hspec2. congruence.
Qed.

(** C27: A new pod is built for every ordinal, and it is a proper member of the set
    before it is ever created: identity and storage match, its hostname and
    subdomain are set, and it is neither created nor terminating. *)
Theorem newStatefulSetPod_member set ordinal :
  occurs newline (Name (set_meta set)) = false ->
  is_Some (Selector (set_Spec set)) ->
  coordinatesUsable set ->
  0 <= ordinal <= MaxInt32 ->
  exists pod, newStatefulSetPod set ordinal = Ok pod
    /\ identityMatches set pod = true /\ storageMatches set pod = true
    /\ getOrdinal pod = ordinal
    /\ isCreated pod = false /\ isTerminating pod = false
    /\ Hostname (pod_Spec pod) = getPodName set ordinal
    /\ Subdomain (pod_Spec pod) = ServiceName (set_Spec set).
Proof. apply newPod_member. Qed.

(** A pod spread over coordinates: unless the template pins node affinity itself,
    the pod of an ordinal gets the affinity of coordinate [ordinal mod n], and an
    annotation that decodes to no coordinates at all panics. *)
Theorem coordinatorPod_places set pod ordinal s coordinates :
  Annotations (tpl_meta (Template (set_Spec set))) !! "coordinates" = Some s ->
  unmarshal s = Some coordinates ->
  0 <= ordinal ->
  match coordinates !! Z.to_nat (ordinal `mod` Z.of_nat (length coordinates)) with
  | None => coordinates = [] /\ coordinatorPod set pod ordinal = Panic DivideByZero
  | Some c =>
      exists pod', coordinatorPod set pod ordinal = Ok pod'
        /\ ((Affinity (pod_Spec pod) ≫= aff_NodeAffinity) = None ->
            (Affinity (pod_Spec pod') ≫= aff_NodeAffinity)
            = Some (organizationNodeAffinity c))
        /\ ((Affinity (pod_Spec pod) ≫= aff_NodeAffinity) <> None -> pod' = pod)
  end.
Proof.
  intros Ha Hu Ho. unfold coordinatorPod. rewrite Ha, Hu.
  destruct coordinates as [|c0 cs].
  { rewrite lookup_nil. done. }
  rewrite decide_False by done. set (n := Z.of_nat (length (c0 :: cs))).
  assert (0 < n) by (unfold n; cbn; lia).
  pose proof (Z.mod_pos_bound ordinal n ltac:(lia)) as Hb.
  unfold index. rewrite Z.rem_mod_nonneg, decide_True by lia.
  destruct (lookup_lt_is_Some_2 (c0 :: cs) (Z.to_nat (ordinal `mod` n))) as [c Hl];
    [unfold n in *; lia|].
  rewrite Hl. cbn [mbind Outcome_bind].
  case_decide as Hd; eexists; (split; [done|]); cbn.
  - split; [done|]. destruct Hd as [Hd|Hd]; [|done]. by rewrite Hd.
  - split; [|done]. intros Hnone. destruct Hd. by right.
Qed.

(** Which template revision a pod of an ordinal is built from: with a rolling
    update configured, exactly the ordinals below the partition stay at the
    current revision, whatever the strategy type; without one, a set of type
    RollingUpdate keeps its first [CurrentReplicas] ordinals there. *)
Theorem newVersionedStatefulSetPod_revision cur upd curRev updRev ordinal pod us :
  UpdateStrategy (set_Spec cur) = Some us ->
  newVersionedStatefulSetPod cur upd curRev updRev ordinal = Ok pod ->
  let stays :=
    match RollingUpdate us with
    | Some ru => match Partition ru with Some p => bool_decide (ordinal < p) | None => false end
    | None => bool_decide (us_Type us = RollingUpdateStatefulSetStrategyType)
              && bool_decide (ordinal < CurrentReplicas (set_Status cur))
    end in
  getPodRevision pod = (if stays : bool then curRev else updRev)
  /\ exists base, newStatefulSetPod (if stays then cur else upd) ordinal = Ok base
      /\ pod = setPodRevision base (if stays then curRev else updRev).
Proof.
  intros Hus. unfold newVersionedStatefulSetPod, atCurrentRevision. rewrite Hus.
  cbn [deref mbind Outcome_bind].
  destruct (RollingUpdate us) as [ru|].
  - rewrite (bool_decide_eq_false_2 (Some ru = None)) by done. rewrite andb_false_r.
    destruct (Partition ru) as [p|]; [|done]. cbn [deref mbind Outcome_bind].
    destruct (bool_decide (ordinal < p)); cbn [mbind Outcome_bind];
      (destruct (newStatefulSetPod _ ordinal) as [base|] eqn:E; [|done]);
      intros [= <-]; rewrite getPodRevision_set; eauto.
  - rewrite (bool_decide_eq_true_2 (None = None)) by done. cbn [andb].
    destruct (bool_decide (us_Type us = _) && _); cbn [mbind Outcome_bind];
      (destruct (newStatefulSetPod _ ordinal) as [base|] eqn:E; [|done]);
      intros [= <-]; rewrite getPodRevision_set; eauto.
Qed.
End NewPodProperties.

Lemma updateStatefulPod_establishes_witness :
  exists pod', updateStorage fx_spreadSet
      (updateIdentity fx_spreadSet (fx_pod "other" "web-1" "r1" "Running" true)) = Ok pod'
    /\ identityMatches fx_spreadSet pod' = true.
Proof.
  destruct (updateStatefulPod_establishes fx_spreadSet
              (fx_pod "other" "web-1" "r1" "Running" true)) as (pod' & Hu & Hid & _);
    [reflexivity|by eexists|by vm_compute|]. by exists pod'.
Defined.

Lemma newStatefulSetPod_member_witness :
  exists pod, newStatefulSetPod fx_spreadSet 2 = Ok pod /\ storageMatches fx_spreadSet pod = true.
Proof.
  destruct (newStatefulSetPod_member fx_spreadSet 2) as (pod & Hp & _ & Hs & _);
    [reflexivity|by eexists|by vm_compute|by vm_compute|]. by exists pod.
Defined.

Lemma coordinatorPod_places_witness :
  exists pod', coordinatorPod fx_spreadSet (fx_pod "default" "web-3" "r1" "" false) 3 = Ok pod'.
Proof.
  destruct (coordinatorPod_places fx_spreadSet (fx_pod "default" "web-3" "r1" "" false) 3
              "two" fx_coordinates) as (pod' & Hp & _); [reflexivity|reflexivity|done|].
  by exists pod'.
Defined.

Lemma newVersionedStatefulSetPod_revision_witness :
  match newVersionedStatefulSetPod fx_spreadSet fx_spreadSet "old" "new" 0 with
  | Ok pod => getPodRevision pod = "old"
  | Panic _ => False
  end.
Proof.
  destruct (newVersionedStatefulSetPod fx_spreadSet fx_spreadSet "old" "new" 0) as [pod|] eqn:E;
    [|by vm_compute in E].
  destruct (newVersionedStatefulSetPod_revision fx_spreadSet fx_spreadSet "old" "new" 0 pod
              (fx_rolling 1 1) eq_refl E) as [Hr _].
  rewrite Hr. reflexivity.
Defined.
