(* ===== verification/SetStatus.v ===== *)
(** The status of a StatefulSet: its counters as [int32] fields, when it must be
    written back, how a finished rolling update is recorded, and its conditions
    ([controllers/stateful_set_utils.go], lines 371-458). *)

From S2P Require Import Prelude Objects Fixtures.

(** ** Field updates, [status.X += d] on an [int32] *)

Definition addReplicas (d : Z) (st : StatefulSetStatus) : StatefulSetStatus :=
  mkStatefulSetStatus (ObservedGeneration st) (int32 (Replicas st + d)) (ReadyReplicas st)
    (CurrentReplicas st) (UpdatedReplicas st) (CurrentRevision st) (UpdateRevision st)
    (CollisionCount st) (set_Conditions st).
Definition addReadyReplicas (d : Z) (st : StatefulSetStatus) : StatefulSetStatus :=
  mkStatefulSetStatus (ObservedGeneration st) (Replicas st) (int32 (ReadyReplicas st + d))
    (CurrentReplicas st) (UpdatedReplicas st) (CurrentRevision st) (UpdateRevision st)
    (CollisionCount st) (set_Conditions st).
Definition addCurrentReplicas (d : Z) (st : StatefulSetStatus) : StatefulSetStatus :=
  mkStatefulSetStatus (ObservedGeneration st) (Replicas st) (ReadyReplicas st)
    (int32 (CurrentReplicas st + d)) (UpdatedReplicas st) (CurrentRevision st)
    (UpdateRevision st) (CollisionCount st) (set_Conditions st).
Definition addUpdatedReplicas (d : Z) (st : StatefulSetStatus) : StatefulSetStatus :=
  mkStatefulSetStatus (ObservedGeneration st) (Replicas st) (ReadyReplicas st)
    (CurrentReplicas st) (int32 (UpdatedReplicas st + d)) (CurrentRevision st)
    (UpdateRevision st) (CollisionCount st) (set_Conditions st).
Definition setConditions (cs : list StatefulSetCondition) (st : StatefulSetStatus)
  : StatefulSetStatus :=
  mkStatefulSetStatus (ObservedGeneration st) (Replicas st) (ReadyReplicas st)
    (CurrentReplicas st) (UpdatedReplicas st) (CurrentRevision st) (UpdateRevision st)
    (CollisionCount st) cs.

(** ** Writing the status back *)

Definition inconsistentStatus (set : StatefulSet) (status : StatefulSetStatus) : bool :=
  bool_decide (ObservedGeneration status > ObservedGeneration (set_Status set))
  || bool_decide (Replicas status <> Replicas (set_Status set))
  || bool_decide (CurrentReplicas status <> CurrentReplicas (set_Status set))
  || bool_decide (ReadyReplicas status <> ReadyReplicas (set_Status set))
  || bool_decide (UpdatedReplicas status <> UpdatedReplicas (set_Status set))
  || bool_decide (CurrentRevision status <> CurrentRevision (set_Status set))
  || bool_decide (UpdateRevision status <> UpdateRevision (set_Status set)).

Definition completeRollingUpdate (set : StatefulSet) (status : StatefulSetStatus)
  : Outcome StatefulSetStatus :=
  us ← deref (UpdateStrategy (set_Spec set));
  if decide (us_Type us = RollingUpdateStatefulSetStrategyType
             /\ UpdatedReplicas status = Replicas status
             /\ ReadyReplicas status = Replicas status)
  then
    Ok (mkStatefulSetStatus (ObservedGeneration status) (Replicas status)
          (ReadyReplicas status) (UpdatedReplicas status) (UpdatedReplicas status)
          (UpdateRevision status) (UpdateRevision status) (CollisionCount status)
          (set_Conditions status))
  else Ok status.

(** ** Conditions *)

(** [now] is the result of [metav1.Now()]. *)
Definition NewStatefulsetCondition (now : Z) (conditionType conditionStatus reason message : string)
  : StatefulSetCondition :=
  mkSetCondition conditionType conditionStatus now reason message.

Definition GetStatefulsetConditition (status : StatefulSetStatus) (condType : string)
  : option StatefulSetCondition :=
  snd <$> list_find (fun c => sc_Type c = condType) (set_Conditions status).

Fixpoint filterOutCondition (conditions : list StatefulSetCondition) (condType : string)
  : list StatefulSetCondition :=
  match conditions with
  | [] => []
  | c :: cs =>
      if decide (sc_Type c = condType) then filterOutCondition cs condType
      else c :: filterOutCondition cs condType
  end.

Definition SetStatefulsetCondition (status : StatefulSetStatus) (condition : StatefulSetCondition)
  : StatefulSetStatus :=
  let currentCond := GetStatefulsetConditition status (sc_Type condition) in
  let append (condition : StatefulSetCondition) :=
    setConditions (filterOutCondition (set_Conditions status) (sc_Type condition) ++ [condition])
      status in
  match currentCond with
  | None => append condition
  | Some cur =>
      if decide (sc_Status cur = sc_Status condition /\ sc_Reason cur = sc_Reason condition)
      then status
      else if decide (sc_Status cur = sc_Status condition)
      then append (mkSetCondition (sc_Type condition) (sc_Status condition)
                     (LastTransitionTime cur) (sc_Reason condition) (sc_Message condition))
      else append condition
  end.

(** ** Lemmas *)

Lemma filterOut_filter cs ty : filterOutCondition cs ty = filter (fun c => sc_Type c <> ty) cs.
Proof.
  induction cs as [|c cs IH]; [done|]. cbn [filterOutCondition].
  rewrite IH, filter_cons.
  repeat case_decide; done.
Qed.

Lemma list_find_app_skip {A} (P : A -> Prop) `{forall x, Decision (P x)} l l' :
  list_find P l = None -> snd <$> list_find P (l ++ l') = snd <$> list_find P l'.
Proof. intros Hn. rewrite list_find_app_r by done. by destruct (list_find P l') as [[]|]. Qed.

Lemma find_filter_other (ty ty' : string) cs :
  ty <> ty' ->
  snd <$> list_find (fun c => sc_Type c = ty) (filter (fun c => sc_Type c <> ty') cs)
  = snd <$> list_find (fun c => sc_Type c = ty) cs.
Proof.
  intros Hty. induction cs as [|c cs IH]; [done|]. rewrite filter_cons.
  cbn [list_find]. destruct (decide (sc_Type c = ty)) as [Hc|Hc].
  - rewrite decide_True by congruence. cbn. by rewrite decide_True.
  - case_decide; cbn; rewrite ?decide_False by done;
      destruct (list_find _ (filter _ _)) as [[]|], (list_find _ cs) as [[]|]; naive_solver.
Qed.

(** ** Properties *)

(** A status needs no write exactly when the counters and revisions are those
    already stored and the observed generation is not newer; conditions and the
    collision count are not looked at. *)
Theorem inconsistentStatus_false set status :
  inconsistentStatus set status = false <->
  ObservedGeneration status <= ObservedGeneration (set_Status set)
  /\ Replicas status = Replicas (set_Status set)
  /\ ReadyReplicas status = ReadyReplicas (set_Status set)
  /\ CurrentReplicas status = CurrentReplicas (set_Status set)
  /\ UpdatedReplicas status = UpdatedReplicas (set_Status set)
  /\ CurrentRevision status = CurrentRevision (set_Status set)
  /\ UpdateRevision status = UpdateRevision (set_Status set).
Proof.
  unfold inconsistentStatus. rewrite !orb_false_iff, !bool_decide_eq_false.
  split.
  - intros [[[[[[? ?%dec_stable] ?%dec_stable] ?%dec_stable] ?%dec_stable] ?%dec_stable]
              ?%dec_stable].
    split_and!; done || lia.
  - intros (? & ? & ? & ? & ? & ? & ?). split_and!; try lia; tauto.
Qed.

(** Recording a condition: afterwards the set reports it with the new status and
    reason, every other condition is as before, there is at most one of its type
    if there was, and the transition time moves exactly when the status does. *)
Theorem SetStatefulsetCondition_records status condition :
  let status' := SetStatefulsetCondition status condition in
  let before := GetStatefulsetConditition status (sc_Type condition) in
  exists c, GetStatefulsetConditition status' (sc_Type condition) = Some c
    /\ sc_Status c = sc_Status condition /\ sc_Reason c = sc_Reason condition
    /\ LastTransitionTime c =
        match before with
        | Some cur => if decide (sc_Status cur = sc_Status condition)
                      then LastTransitionTime cur else LastTransitionTime condition
        | None => LastTransitionTime condition
        end
    /\ forall ty, ty <> sc_Type condition ->
        GetStatefulsetConditition status' ty = GetStatefulsetConditition status ty.
Proof.
  cbv zeta. unfold SetStatefulsetCondition.
  assert (Happend : forall c, sc_Type c = sc_Type condition ->
    let st := setConditions (filterOutCondition (set_Conditions status) (sc_Type condition)
                             ++ [c]) status in
    GetStatefulsetConditition st (sc_Type condition) = Some c
    /\ forall ty, ty <> sc_Type condition ->
        GetStatefulsetConditition st ty = GetStatefulsetConditition status ty).
  { intros c Hc. unfold GetStatefulsetConditition. cbn. rewrite filterOut_filter. split.
    - rewrite list_find_app_skip; cbn; [by rewrite decide_True|].
      apply list_find_None, list.Forall_forall. intros x [? _]%list_elem_of_filter. done.
    - intros ty Hty. rewrite <-(find_filter_other ty (sc_Type condition) (set_Conditions status)) by done.
      set (l := filter _ _). destruct (list_find (fun c0 => sc_Type c0 = ty) l) as [[i x]|] eqn:E.
      + apply list_find_app_l with (l2 := [c]) in E. by rewrite E.
      + rewrite list_find_app_skip by done. cbn. by rewrite decide_False by congruence. }
  destruct (GetStatefulsetConditition status (sc_Type condition)) as [cur|] eqn:E.
  - destruct (decide (sc_Status cur = sc_Status condition
                      /\ sc_Reason cur = sc_Reason condition)) as [[Hs Hr]|Hne].
    + exists cur. rewrite E. by rewrite decide_True.
    + destruct (decide (sc_Status cur = sc_Status condition)) as [Hs|Hs].
      * destruct (Happend (mkSetCondition (sc_Type condition) (sc_Status condition)
          (LastTransitionTime cur) (sc_Reason condition) (sc_Message condition)) eq_refl)
          as [H1 H2]. eexists. split; [exact H1|]. done.
      * destruct (Happend condition eq_refl) as [H1 H2]. eexists. split; [exact H1|]. done.
  - destruct (Happend condition eq_refl) as [H1 H2]. eexists. split; [exact H1|]. done.
Qed.

(** Completing a rolling update: when every pod is updated and ready the current
    revision becomes the update revision and the current count the updated count;
    otherwise nothing changes, and doing it twice is doing it once. *)
Theorem completeRollingUpdate_spec set status us :
  UpdateStrategy (set_Spec set) = Some us ->
  exists status', completeRollingUpdate set status = Ok status'
    /\ completeRollingUpdate set status' = Ok status'
    /\ (status' = status \/
        us_Type us = RollingUpdateStatefulSetStrategyType
        /\ ReadyReplicas status = Replicas status /\ UpdatedReplicas status = Replicas status
        /\ CurrentRevision status' = UpdateRevision status
        /\ CurrentReplicas status' = Replicas status')
    /\ Replicas status' = Replicas status /\ ReadyReplicas status' = ReadyReplicas status
    /\ UpdatedReplicas status' = UpdatedReplicas status
    /\ UpdateRevision status' = UpdateRevision status.
Proof.
  intros Hus. unfold completeRollingUpdate. rewrite Hus. cbn.
  case_decide as Hd; eexists; (split; [done|]); cbn.
  - rewrite decide_True by done. destruct Hd as (? & ? & ?). split_and!; try done.
    right. done.
  - rewrite decide_False by done. split_and!; try done. by left.
Qed.

Lemma completeRollingUpdate_spec_witness :
  exists status', completeRollingUpdate (fx_set 3 "" (fx_rolling 0 1)) fx_status = Ok status'.
Proof.
  destruct (completeRollingUpdate_spec (fx_set 3 "" (fx_rolling 0 1)) fx_status
              (fx_rolling 0 1)) as (st & H & _); [reflexivity|]. by exists st.
Defined.
