(* ===== verification/InPlace.v ===== *)
(** In-place updates ([controllers/stateful_inplace_utils.go]): when a revision
    change can be applied to running pods by replacing container images, how the
    pod is rewritten, and when such an update has completed. *)

From S2P Require Import Prelude Objects GoString Libraries Coordinate Fixtures PodIdentity.

(** ** Data *)

(** [InPlaceUpdateState] of [api/v1/statefulset_types.go]; each recorded container
    status is its image ID. *)
Record InPlaceUpdateState := mkInPlaceState {
  state_Revision : string;
  UpdateTimestamp : Z;
  LastContainerStatuses : gmap string string;
}.

Record InPlaceUpdateSpec := mkInPlaceSpec {
  spec_revision : string;
  patches : list JsonPatchOperation;
  containerImages : gmap string string;
}.

(** ** Operations *)

Definition isInPlaceOnly (set : StatefulSet) : Outcome bool :=
  us ← deref (UpdateStrategy (set_Spec set));
  match RollingUpdate us with
  | None => Ok false
  | Some ru => Ok (bool_decide (PodUpdatePolicy ru = InPlaceOnlyPodUpdateStrategyType))
  end.

Section InPlace.
Context `{PatchLib, Json InPlaceUpdateState}.

(** The loop over the patches: [None] is [return false, nil]. *)
Fixpoint collectImages (temp : PodTemplateSpec) (ops : list JsonPatchOperation)
    (spec : InPlaceUpdateSpec) : Outcome (option InPlaceUpdateSpec) :=
  match ops with
  | [] => Ok (Some spec)
  | op :: ops' =>
      let op := mkPatchOp (Operation op) (ReplaceFirst (Path op) "/spec/template" "")
                  (Value op) in
      let spec := mkInPlaceSpec (spec_revision spec) (patches spec ++ [op])
                    (containerImages spec) in
      if negb (HasPrefix (Path op) "/spec/") then collectImages temp ops' spec
      else if decide (Operation op <> "replace" \/ matchImagePath (Path op) = false)
      then Ok None
      else
        word ← index (Split (Path op) "/") 3;
        let idx := Atoi word in
        if decide (Z.of_nat (length (Containers (tpl_Spec temp))) <= idx) then Ok None else
        c ← index (Containers (tpl_Spec temp)) idx;
        image ← match Value op with JString s => Ok s | _ => Panic TypeAssertion end;
        collectImages temp ops'
          (mkInPlaceSpec (spec_revision spec) (patches spec)
             (<[ctr_Name c := image]> (containerImages spec)))
  end.

Definition findRevision (name : string) (revisions : list ControllerRevision)
  : option ControllerRevision :=
  snd <$> list_find (fun r => rev_Name r = name) revisions.

(** [None] is [return false, nil]. *)
Definition shouldDoInPlaceUpdate (set : StatefulSet) (updateRevision : ControllerRevision)
    (oldRevisionName : string) (revisions : list ControllerRevision)
  : Outcome (option InPlaceUpdateSpec) :=
  us ← deref (UpdateStrategy (set_Spec set));
  match RollingUpdate us with
  | None => Ok None
  | Some ru =>
      if decide (PodUpdatePolicy ru <> InPlaceIfPossiblePodUpdateStrategyType
                 /\ PodUpdatePolicy ru <> InPlaceOnlyPodUpdateStrategyType)
      then Ok None else
      match findRevision oldRevisionName revisions with
      | None => Ok None
      | Some oldRevision =>
          match CreatePatch (Data oldRevision) (Data updateRevision) with
          | inl _ => Ok None
          | inr ops =>
              match unmarshalTemplate (Data oldRevision) with
              | None => Ok None
              | Some patchObj =>
                  temp ← deref patchObj;
                  collectImages temp ops (mkInPlaceSpec (rev_Name updateRevision) [] ∅)
              end
          end
      end
  end.

(** The loop over the container statuses: an unchanged image ID ends it, a
    changed one is crossed off. *)
Fixpoint crossOff (statuses : list ContainerStatus) (last : gmap string string)
  : Result (gmap string string) :=
  match statuses with
  | [] => inr last
  | cs :: statuses' =>
      match last !! cs_Name cs with
      | Some old =>
          if decide (old = cs_ImageID cs)
          then inl (ErrMsg ("container " +:+ cs_Name cs +:+ " imageID not changed"))
          else crossOff statuses' (delete (cs_Name cs) last)
      | None => crossOff statuses' last
      end
  end.

(** [None] is a nil error: no in-place update is pending. *)
Definition checkInPlaceUpdateCompleted (pod : Pod) : option Err :=
  match Annotations (pod_meta pod) !! StatefulSetInPlaceUpdateStateAnnotation with
  | None => None
  | Some stateStr =>
      match unmarshal stateStr with
      | None => Some (ErrMsg "unmarshal")
      | Some inPlaceUpdateState =>
          if decide (state_Revision inPlaceUpdateState <> getPodRevision pod)
          then Some (ErrMsg ("currently revision " +:+ getPodRevision pod
                             +:+ " not equal to in-place update revision "
                             +:+ state_Revision inPlaceUpdateState))
          else
            match crossOff (ContainerStatuses (pod_Status pod))
                    (LastContainerStatuses inPlaceUpdateState) with
            | inl err => Some err
            | inr last =>
                if decide (size last <> 0%nat)
                then Some (ErrMsg "not found statuses of containers") else None
            end
      end
  end.

(** The image IDs recorded before the update, for the containers it touches. *)
Definition recordStatuses (images : gmap string string) (statuses : list ContainerStatus)
  : gmap string string :=
  foldl (fun m c => match images !! cs_Name c with
                    | Some _ => <[cs_Name c := cs_ImageID c]> m
                    | None => m
                    end) ∅ statuses.

(** [now] is [time.Now()]. *)
Definition podInPlaceUpdate (now : Z) (pod : Pod) (spec : InPlaceUpdateSpec)
  : Outcome (Result Pod) :=
  match applyPatches (patches spec) pod with
  | inl err => Ok (inl err)
  | inr newPod =>
      (* a pod decoded without labels has a nil label map; one whose labels are an empty
         object, which has an empty map, is not told apart from it *)
      if decide (Labels (pod_meta newPod) = ∅) then Panic NilMapAssignment else
      let newPod := setPodRevision newPod (spec_revision spec) in
      let inPlaceUpdateState :=
        mkInPlaceState (spec_revision spec) now
          (recordStatuses (containerImages spec) (ContainerStatuses (pod_Status newPod))) in
      Ok (inr (overMeta (fun m =>
        setAnnotations (<[StatefulSetInPlaceUpdateStateAnnotation :=
                            marshal inPlaceUpdateState]> (Annotations m)) m) newPod))
  end.

Definition getInPlaceUpdateReadyCondition (pod : Pod) : option PodCondition :=
  snd <$> list_find (fun c => pc_Type c = StatefulSetInPlaceUpdateReady)
            (Conditions (pod_Status pod)).

Definition shouldUpdateInPlaceReady (pod : Pod) : bool :=
  let containsReadinessGate :=
    bool_decide (StatefulSetInPlaceUpdateReady ∈ ReadinessGates (pod_Spec pod)) in
  if negb containsReadinessGate then false
  else if decide (checkInPlaceUpdateCompleted pod <> None) then false
  else match getInPlaceUpdateReadyCondition pod with
       | None => true
       | Some c => bool_decide (pc_Status c = ConditionFalse)
       end.
End InPlace.

(** Replace the first condition of the type, or append. *)
Fixpoint replaceCondition (condition : PodCondition) (cs : list PodCondition) : list PodCondition :=
  match cs with
  | [] => [condition]
  | c :: cs' =>
      if decide (pc_Type c = pc_Type condition) then condition :: cs'
      else c :: replaceCondition condition cs'
  end.

Definition updatePodCondition (pod : Pod) (condition : PodCondition) : Pod :=
  overConditions (replaceCondition condition) pod.

(** ** Concrete library functions

    A state is written as the bits of its encoding, a revision's data is the image
    of the only container, and a patch replaces that image. *)

#[export] Instance fx_stateJson : Json InPlaceUpdateState := {|
  marshal st := fx_bits (encode (state_Revision st, UpdateTimestamp st,
                                 map_to_list (LastContainerStatuses st)));
  unmarshal s :=
    (fun '(r, t, l) => mkInPlaceState r t (list_to_map l))
    <$> (decode (fx_unbits s) : option (string * Z * list (string * string)));
|}.

#[export] Instance fx_stateJson_laws : JsonLaws InPlaceUpdateState.
Proof.
  split. intros [r t l]. cbn -[encode decode].
  rewrite fx_unbits_bits, decode_encode. cbn. by rewrite list_to_map_to_list.
Qed.

#[export] Instance fx_patch : PatchLib := {|
  CreatePatch old new :=
    inr [mkPatchOp "replace" "/spec/template/spec/containers/0/image" (JString new)];
  unmarshalTemplate data := Some (Some fx_template);
  applyPatches ops pod :=
    inr (foldl (fun p op =>
      match Value op with
      | JString image =>
          overSpec (fun s => setContainers
            ((fun c => mkContainer (ctr_Name c) image (ctr_rest c)) <$> Containers s) s) p
      | _ => p
      end) pod ops);
|}.

(** [default/web] updated in place where possible, and a running pod of it. *)
Definition fx_inPlaceSet : StatefulSet :=
  fx_set 3 "" (mkUpdateStrategy RollingUpdateStatefulSetStrategyType
    (Some (mkRollingUpdate (Some 0) (Some (FromInt 1)) InPlaceIfPossiblePodUpdateStrategyType
             false None))).

Definition fx_runningPod : Pod :=
  mkPod (pod_meta (fx_pod "default" "web-0" "r1" "Running" true))
    (setContainers [mkContainer "c" "nginx:1" ""] fx_podSpec)
    (mkPodStatus "Running" [mkPodCondition "Ready" "True" "" ""]
       [mkContainerStatus "c" "sha-1" ""] "").

Definition fx_inPlaceSpec : InPlaceUpdateSpec :=
  mkInPlaceSpec "r2" [mkPatchOp "replace" "/spec/containers/0/image" (JString "nginx:2")]
    (<["c" := "nginx:2"]> ∅).

(** ** Lemmas *)

(** The first status of a container. *)
Definition statusOf (name : string) (statuses : list ContainerStatus) : option ContainerStatus :=
  snd <$> list_find (fun c => cs_Name c = name) statuses.

Lemma statusOf_cons name c cs :
  statusOf name (c :: cs) = if decide (cs_Name c = name) then Some c else statusOf name cs.
Proof.
  unfold statusOf. cbn. case_decide; [done|]. by destruct (list_find _ cs) as [[]|].
Qed.

Lemma statusOf_Some name cs c : statusOf name cs = Some c -> c ∈ cs /\ cs_Name c = name.
Proof.
  induction cs as [|d cs IH]; [done|]. rewrite statusOf_cons, elem_of_cons.
  case_decide; [|naive_solver]. intros [= ->]; auto.
Qed.

Lemma statusOf_NoDup cs c :
  NoDup (cs_Name <$> cs) -> c ∈ cs -> statusOf (cs_Name c) cs = Some c.
Proof.
  induction cs as [|d cs IH]; [set_solver|]. rewrite fmap_cons, list.NoDup_cons, statusOf_cons.
  intros [Hd Hnd] [->|Hc]%elem_of_cons; [by rewrite decide_True|].
  rewrite decide_False; [by apply IH|]. intros Heq. apply Hd. rewrite Heq.
  by apply list_elem_of_fmap_2.
Qed.

(** Everything is crossed off exactly when the first status of every recorded
    container reports another image. *)
Lemma crossOff_done statuses last :
  crossOff statuses last = inr ∅ <->
  forall name old, last !! name = Some old ->
    exists c, statusOf name statuses = Some c /\ cs_ImageID c <> old.
Proof.
  revert last. induction statuses as [|cs statuses IH]; intros last; cbn [crossOff].
  { split.
    - intros [= ->] name old. by rewrite lookup_empty.
    - intros Hall. f_equal. apply map_empty. intros name.
      destruct (last !! name) as [old|] eqn:E; [|done].
      destruct (Hall _ _ E) as (c & Hc & _). done. }
  setoid_rewrite statusOf_cons.
  destruct (last !! cs_Name cs) as [old|] eqn:E.
  - case_decide as Heq.
    + split; [done|]. intros Hall. destruct (Hall _ _ E) as (c & Hc & Hne).
      rewrite decide_True in Hc by done. naive_solver.
    + rewrite IH. split; intros Hall name old'; specialize (Hall name old').
      * intros Hl. case_decide as Hn; [naive_solver|].
        rewrite lookup_delete_ne in Hall by done. auto.
      * rewrite lookup_delete. case_decide as Hn; [done|]. exact Hall.
  - rewrite IH. split; intros Hall name old' Hl; specialize (Hall name old' Hl).
    + case_decide; [congruence|done].
    + case_decide; [congruence|done].
Qed.

Lemma crossOff_size statuses last :
  (exists last', crossOff statuses last = inr last' /\ size last' = 0%nat)
  <-> crossOff statuses last = inr ∅.
Proof.
  split; [|by eexists]. intros (last' & -> & Hs). f_equal. by apply map_size_empty_inv.
Qed.

Lemma recordStatuses_snoc images cs c :
  recordStatuses images (cs ++ [c])
  = match images !! cs_Name c with
    | Some _ => <[cs_Name c := cs_ImageID c]> (recordStatuses images cs)
    | None => recordStatuses images cs
    end.
Proof. unfold recordStatuses. by rewrite foldl_app. Qed.

Lemma recordStatuses_lookup images cs name id :
  NoDup (cs_Name <$> cs) ->
  recordStatuses images cs !! name = Some id <->
  is_Some (images !! name) /\ exists c, c ∈ cs /\ cs_Name c = name /\ cs_ImageID c = id.
Proof.
  induction cs as [|c cs IH] using rev_ind; intros Hnd.
  { change (recordStatuses images []) with (∅ : gmap string string).
    rewrite lookup_empty. set_solver. }
  rewrite fmap_app, list.NoDup_app in Hnd. destruct Hnd as (Hnd & Hdis & _).
  specialize (IH Hnd). rewrite recordStatuses_snoc.
  setoid_rewrite elem_of_app. setoid_rewrite list_elem_of_singleton.
  assert (forall c', c' ∈ cs -> cs_Name c' <> cs_Name c) as Hfresh.
  { intros c' Hc' Heq. apply (Hdis (cs_Name c')); [by apply list_elem_of_fmap_2|].
    rewrite Heq. by apply list_elem_of_singleton. }
  destruct (images !! cs_Name c) eqn:E.
  - rewrite lookup_insert. case_decide as Hn.
    + subst. split; [naive_solver|]. intros (_ & c' & [Hc'|Hc'] & ? & <-); [naive_solver|].
      by subst.
    + rewrite IH. naive_solver.
  - rewrite IH. split; [naive_solver|].
    intros (Hs & c' & [Hc'|Hc'] & ? & ?); [naive_solver|]. subst. rewrite E in Hs. by destruct Hs.
Qed.

Lemma replaceCondition_find ty condition cs :
  snd <$> list_find (fun c => pc_Type c = ty) (replaceCondition condition cs)
  = if decide (pc_Type condition = ty) then Some condition
    else snd <$> list_find (fun c => pc_Type c = ty) cs.
Proof.
  induction cs as [|c cs IH]; cbn.
  { by case_decide. }
  repeat (case_decide; cbn; try congruence).
  all: revert IH;
    repeat match goal with |- context [list_find ?P ?l] => destruct (list_find P l) as [[]|] end;
    naive_solver.
Qed.

Section Lemmas.
Context `{PatchLib, Json InPlaceUpdateState}.

Lemma checkInPlaceUpdateCompleted_decoded pod s st :
  Annotations (pod_meta pod) !! StatefulSetInPlaceUpdateStateAnnotation = Some s ->
  unmarshal s = Some st ->
  checkInPlaceUpdateCompleted pod = None <->
  state_Revision st = getPodRevision pod
  /\ crossOff (ContainerStatuses (pod_Status pod)) (LastContainerStatuses st) = inr ∅.
Proof.
  intros Ha Hu. unfold checkInPlaceUpdateCompleted. rewrite Ha, Hu.
  case_decide as Hr; [naive_solver|].
  rewrite <-crossOff_size. destruct (crossOff _ _) as [e|last]; [naive_solver|].
  case_decide as Hs; [naive_solver|].
  split; [intros _; eauto|done].
Qed.

(** What a patch must look like to be applied in place. *)
Definition patchAllowed (op : JsonPatchOperation) : Prop :=
  let path := ReplaceFirst (Path op) "/spec/template" "" in
  HasPrefix path "/spec/" = false
  \/ (Operation op = "replace" /\ matchImagePath path = true).

Lemma collectImages_allowed temp ops spec spec' :
  collectImages temp ops spec = Ok (Some spec') ->
  Forall patchAllowed ops /\ spec_revision spec' = spec_revision spec.
Proof.
  revert spec. induction ops as [|op ops IH]; intros spec; cbn [collectImages].
  { by intros [= <-]. }
  cbn [Path Operation Value]. unfold patchAllowed at 1.
  destruct (HasPrefix _ "/spec/") eqn:Ep; cbn [negb].
  2: { intros [? ?]%IH. split; [constructor; [|done]|done]. unfold patchAllowed. auto. }
  case_decide as Hop; [done|].
  destruct (index (Split _ _) 3) as [word|]; [|done]. cbn [mbind Outcome_bind].
  case_decide; [done|]. destruct (index (Containers _) _) as [c|]; [|done].
  destruct (Value op); try done. cbn [mbind Outcome_bind]. intros [? Hs]%IH.
  split; [constructor; [|done]|done]. unfold patchAllowed. right.
  split; [by apply dec_stable; tauto|].
  destruct (matchImagePath _); [done|]. tauto.
Qed.
End Lemmas.

(** ** Properties *)

Section Properties.
Context `{PatchLib, Json InPlaceUpdateState, !JsonLaws InPlaceUpdateState}.

(** An in-place update is complete, for the controller, exactly when the recorded
    revision is the pod's and every recorded container reports, in its first
    status, an image ID other than the recorded one. *)
Theorem checkInPlaceUpdateCompleted_spec pod s st :
  Annotations (pod_meta pod) !! StatefulSetInPlaceUpdateStateAnnotation = Some s ->
  unmarshal s = Some st ->
  checkInPlaceUpdateCompleted pod = None <->
  state_Revision st = getPodRevision pod
  /\ forall name old, LastContainerStatuses st !! name = Some old ->
      exists c, statusOf name (ContainerStatuses (pod_Status pod)) = Some c
        /\ cs_ImageID c <> old.
Proof.
  intros Ha Hu. rewrite (checkInPlaceUpdateCompleted_decoded _ _ _ Ha Hu).
  by rewrite crossOff_done.
Qed.

(** C26: The in-place protocol: rewriting a pod moves its revision label to the update
    revision; from then on the update counts as pending, at once unless no
    container with a replaced image has a status, and until the first status of
    each such container shows an image ID other than the one it had. *)
Theorem podInPlaceUpdate_pending now pod spec newPod :
  podInPlaceUpdate now pod spec = Ok (inr newPod) ->
  let before := ContainerStatuses (pod_Status newPod) in
  NoDup (cs_Name <$> before) ->
  getPodRevision newPod = spec_revision spec
  /\ forall later,
      Annotations (pod_meta later) !! StatefulSetInPlaceUpdateStateAnnotation
      = Annotations (pod_meta newPod) !! StatefulSetInPlaceUpdateStateAnnotation ->
      getPodRevision later = spec_revision spec ->
      checkInPlaceUpdateCompleted later = None <->
      forall c, c ∈ before -> is_Some (containerImages spec !! cs_Name c) ->
        exists c', statusOf (cs_Name c) (ContainerStatuses (pod_Status later)) = Some c'
          /\ cs_ImageID c' <> cs_ImageID c.
Proof.
  unfold podInPlaceUpdate. destruct (applyPatches _ _) as [|patched]; [done|].
  case_decide; [done|]. intros [= <-]. cbv zeta. cbn [pod_Status overMeta setPodRevision].
  intros Hnd. split; [apply (getPodRevision_set patched)|].
  intros later Ha Hr. cbn in Ha. rewrite lookup_insert_eq in Ha.
  rewrite (checkInPlaceUpdateCompleted_decoded _ _ _ Ha (unmarshal_marshal _)).
  cbn [state_Revision LastContainerStatuses]. rewrite crossOff_done.
  setoid_rewrite recordStatuses_lookup; [|done].
  split; [intros [_ Hall]|intros Hall; split; [done|]]; naive_solver.
Qed.

(** The parts of a plan: its revision, and where it comes from. *)
Lemma plan_sound set updateRevision oldName revisions spec :
  shouldDoInPlaceUpdate set updateRevision oldName revisions = Ok (Some spec) ->
  spec_revision spec = rev_Name updateRevision
  /\ exists us ru old ops,
      UpdateStrategy (set_Spec set) = Some us /\ RollingUpdate us = Some ru
      /\ (PodUpdatePolicy ru = InPlaceIfPossiblePodUpdateStrategyType
          \/ PodUpdatePolicy ru = InPlaceOnlyPodUpdateStrategyType)
      /\ old ∈ revisions /\ rev_Name old = oldName
      /\ CreatePatch (Data old) (Data updateRevision) = inr ops
      /\ Forall patchAllowed ops.
Proof.
  unfold shouldDoInPlaceUpdate.
  destruct (UpdateStrategy _) as [us|] eqn:Eus; [|done]. cbn [deref mbind Outcome_bind].
  destruct (RollingUpdate us) as [ru|] eqn:Eru; [|done].
  case_decide as Hpol; [done|].
  destruct (findRevision oldName revisions) as [old|] eqn:Eold; [|done].
  destruct (CreatePatch _ _) as [|ops] eqn:Eops; [done|].
  destruct (unmarshalTemplate _) as [[temp|]|]; try done. cbn [deref mbind Outcome_bind].
  intros [Hall Hrev]%collectImages_allowed. split; [exact Hrev|].
  exists us, ru, old, ops. unfold findRevision in Eold.
  destruct (list_find _ revisions) as [[i r]|] eqn:Ef; [|done].
  apply list_find_Some in Ef as (Hi & Hname & _). injection Eold as <-.
  split_and!; try done; [|by eapply list_elem_of_lookup_2].
  destruct (decide (PodUpdatePolicy ru = InPlaceIfPossiblePodUpdateStrategyType)); [by left|].
  right. apply dec_stable. tauto.
Qed.

(** C37: A change is only ever applied in place under an in-place policy, from a
    revision still in the history, and when every patch below the pod template's
    spec is a replacement that matches the image pattern. *)
Theorem shouldDoInPlaceUpdate_sound set updateRevision oldName revisions spec :
  shouldDoInPlaceUpdate set updateRevision oldName revisions = Ok (Some spec) ->
  spec_revision spec = rev_Name updateRevision
  /\ exists us ru old ops,
      UpdateStrategy (set_Spec set) = Some us /\ RollingUpdate us = Some ru
      /\ (PodUpdatePolicy ru = InPlaceIfPossiblePodUpdateStrategyType
          \/ PodUpdatePolicy ru = InPlaceOnlyPodUpdateStrategyType)
      /\ old ∈ revisions /\ rev_Name old = oldName
      /\ CreatePatch (Data old) (Data updateRevision) = inr ops
      /\ Forall patchAllowed ops.
Proof. apply plan_sound. Qed.
End Properties.

(** Setting a pod condition replaces the condition of that type and no other. *)
Theorem updatePodCondition_lookup pod condition ty :
  let find p := snd <$> list_find (fun c => pc_Type c = ty) (Conditions (pod_Status p)) in
  find (updatePodCondition pod condition)
  = (if decide (pc_Type condition = ty) then Some condition else find pod)
  /\ pod_meta (updatePodCondition pod condition) = pod_meta pod
  /\ pod_Spec (updatePodCondition pod condition) = pod_Spec pod
  /\ Phase (pod_Status (updatePodCondition pod condition)) = Phase (pod_Status pod).
Proof. cbv zeta. split; [apply replaceCondition_find|done]. Qed.

(** Setting it twice is setting it once. *)
Lemma replaceCondition_twice condition cs :
  replaceCondition condition (replaceCondition condition cs) = replaceCondition condition cs.
Proof.
  induction cs as [|c cs IH]; cbn; [by rewrite decide_True|].
  case_decide as Hc; cbn; [by rewrite decide_True|]. by rewrite decide_False, IH.
Qed.

(** A condition that is not [Ready] does not make a pod ready or take it out of service. *)
Lemma updatePodCondition_ready `{KubeLib, !KubeLibLaws} pod pod' condition :
  pc_Type condition <> "Ready" -> pod_Status pod' = pod_Status (updatePodCondition pod condition) ->
  isRunningAndReady pod' = isRunningAndReady pod.
Proof.
  intros Hty Hst. unfold isRunningAndReady. rewrite Hst. f_equal.
  apply podReady_conditions. rewrite Hst. change (pod_Status (updatePodCondition pod condition))
    with (pod_Status (overConditions (replaceCondition condition) pod)).
  destruct pod as [m sp st]. cbn [overConditions pod_Status Conditions].
  induction (Conditions st) as [|c cs IH]; cbn [replaceCondition].
  { by rewrite filter_cons, decide_False. }
  case_decide as Hc; rewrite !filter_cons; [|by rewrite IH].
  by rewrite !decide_False by congruence.
Qed.

(** The image pattern is not anchored at its end: the patch of a pull policy passes
    for an image replacement. *)
Theorem collectImages_unanchored temp c cs value :
  Containers (tpl_Spec temp) = c :: cs ->
  collectImages temp
    [mkPatchOp "replace" "/spec/template/spec/containers/0/imagePullPolicy" (JString value)]
    (mkInPlaceSpec "r" [] ∅)
  = Ok (Some (mkInPlaceSpec "r"
      [mkPatchOp "replace" "/spec/containers/0/imagePullPolicy" (JString value)]
      (<[ctr_Name c := value]> ∅))).
Proof. intros Hc. cbn. rewrite Hc. done. Qed.

Lemma collectImages_unanchored_witness :
  collectImages fx_template
    [mkPatchOp "replace" "/spec/template/spec/containers/0/imagePullPolicy" (JString "Always")]
    (mkInPlaceSpec "r" [] ∅)
  = Ok (Some (mkInPlaceSpec "r"
      [mkPatchOp "replace" "/spec/containers/0/imagePullPolicy" (JString "Always")]
      (<["c" := "Always"]> ∅))).
Proof.
  apply (collectImages_unanchored fx_template (mkContainer "c" "nginx:1" "") [] "Always").
  reflexivity.
Defined.

Lemma checkInPlaceUpdateCompleted_spec_witness :
  let st := mkInPlaceState "r1" 5 (<["c" := "sha-0"]> ∅) in
  checkInPlaceUpdateCompleted
    (overMeta (setAnnotations (<[StatefulSetInPlaceUpdateStateAnnotation := marshal st]> ∅))
       fx_runningPod) = None.
Proof.
  set (st := mkInPlaceState "r1" 5 (<["c" := "sha-0"]> ∅)). cbv zeta.
  refine (proj2 (checkInPlaceUpdateCompleted_spec _ (marshal st) st _ _) _).
  - reflexivity.
  - apply unmarshal_marshal.
  - split; [reflexivity|]. intros name old Hl. cbn in Hl. apply lookup_insert_Some in Hl as [[<- <-]|[_ Hn]].
    + eexists. by split.
    + by rewrite lookup_empty in Hn.
Defined.

Lemma podInPlaceUpdate_pending_witness :
  exists newPod, podInPlaceUpdate 5 fx_runningPod fx_inPlaceSpec = Ok (inr newPod)
    /\ getPodRevision newPod = "r2".
Proof.
  destruct (podInPlaceUpdate 5 fx_runningPod fx_inPlaceSpec) as [[e|newPod]|] eqn:E;
    [by vm_compute in E| |by vm_compute in E].
  exists newPod. split; [reflexivity|].
  refine (proj1 (podInPlaceUpdate_pending 5 fx_runningPod fx_inPlaceSpec newPod E _)).
  assert (Hs : pod_Status newPod = pod_Status fx_runningPod)
    by (vm_compute in E; injection E as <-; reflexivity).
  rewrite Hs. apply (bool_decide_unpack _). by vm_compute.
Defined.

Lemma shouldDoInPlaceUpdate_sound_witness :
  match shouldDoInPlaceUpdate fx_inPlaceSet (fx_revision "r2" "nginx:2" 2) "r1"
          [fx_revision "r1" "nginx:1" 1] with
  | Ok (Some spec) => spec_revision spec = "r2"
  | _ => False
  end.
Proof.
  destruct (shouldDoInPlaceUpdate fx_inPlaceSet (fx_revision "r2" "nginx:2" 2) "r1"
          [fx_revision "r1" "nginx:1" 1]) as [[spec|]|] eqn:E; [|by vm_compute in E..].
  destruct (shouldDoInPlaceUpdate_sound _ _ _ _ _ E) as [Hr _]. exact Hr.
Defined.
