(* ===== verification/Cluster.v ===== *)
(** What the controllers run against: the API server as its clients see it, the
    retry helper, the event recorder and the clock. All of it is code outside the
    repository, so each is a class of operations over a world type [W] that stands
    for everything outside the process; separate classes hold the documented
    behaviour some theorems rely on. *)

From S2P Require Import Prelude Objects.

(** ** The API server *)

(** [client.Client] of controller-runtime at one object type. Writing calls take
    the object as an in-out parameter: the second component is what the pointer
    refers to afterwards. The object read by [Get] is used only without error. *)
Class Client (W A : Type) := {
  Get : ObjectKey -> W -> Result A * W;
  Create : A -> W -> (option Err * A) * W;
  Update : A -> W -> (option Err * A) * W;
  (** [Status().Update] *)
  StatusUpdate : A -> W -> (option Err * A) * W;
  Delete : A -> W -> option Err * W;
  (** a strategic merge patch, as its JSON text *)
  Patch : A -> string -> W -> (option Err * A) * W;
}.

(** The server as a store: what reading and creating say about it while no one
    else writes. [payload] is the part of an object the server keeps as it was
    written. *)
Class ClientLaws {W A P : Type} `{Client W A} (metaOf : A -> ObjectMeta) (payload : A -> P) := {
  stored : W -> gmap ObjectKey A;
  get_stored k w : stored (Get k w).2 = stored w;
  get_found k w a : (Get k w).1 = inr a -> stored w !! k = Some a;
  get_missing k w : (Get k w).1 = inl ErrNotFound -> stored w !! k = None;
  create_done a w a' w' : Create a w = ((None, a'), w') ->
    keyOf (metaOf a') = keyOf (metaOf a) /\ payload a' = payload a
    /\ stored w' = <[keyOf (metaOf a) := a']> (stored w);
  create_exists a w a' w' : Create a w = ((Some ErrAlreadyExists, a'), w') ->
    is_Some (stored w !! keyOf (metaOf a)) /\ a' = a /\ stored w' = stored w;
  update_payload a w err a' w' : Update a w = ((err, a'), w') -> payload a' = payload a;
}.

(** Writing the status subresource: the labels and the key are not the status's
    business, and a failed call leaves the object it was given alone. *)
Class StatusLaws {W A : Type} `{Client W A} (metaOf : A -> ObjectMeta) := {
  status_labels a w err a' w' :
    StatusUpdate a w = ((err, a'), w') -> Labels (metaOf a') = Labels (metaOf a);
  status_key a w err a' w' :
    StatusUpdate a w = ((err, a'), w') -> keyOf (metaOf a') = keyOf (metaOf a);
  status_failed a w e a' w' : StatusUpdate a w = ((Some e, a'), w') -> a' = a;
}.

(** The status subresource stores the status it is sent, and answers with it. *)
Class StatusStored {W A S : Type} `{Client W A} (statusOf : A -> S) := {
  status_stored a w err a' w' :
    StatusUpdate a w = ((err, a'), w') -> statusOf a' = statusOf a;
}.

(** An object is read under its key, writing it does not change the key, and a create or
    update that fails leaves the object it was given alone. *)
Class KeyLaws {W A : Type} `{Client W A} (metaOf : A -> ObjectMeta) := {
  get_key k w a : (Get k w).1 = inr a -> keyOf (metaOf a) = k;
  create_key a w err a' w' : Create a w = ((err, a'), w') -> keyOf (metaOf a') = keyOf (metaOf a);
  update_key a w err a' w' : Update a w = ((err, a'), w') -> keyOf (metaOf a') = keyOf (metaOf a);
  create_failed a w e a' w' : Create a w = ((Some e, a'), w') -> a' = a;
  update_failed a w e a' w' : Update a w = ((Some e, a'), w') -> a' = a;
}.

(** An update is answered with an object whose [payload] is the one that was sent, and so
    is a status update that fails. *)
Class WritesKeep {W A P : Type} `{Client W A} (payload : A -> P) := {
  update_keeps a w err a' w' : Update a w = ((err, a'), w') -> payload a' = payload a;
  status_keeps a w e a' w' : StatusUpdate a w = ((Some e, a'), w') -> payload a' = payload a;
}.

(** [List] with a namespace and a selector, given as a class of its own because
    only some types are listed. *)
Class Lister (W A : Type) := {
  List_ : string -> option LabelSelector -> W -> Result (list A) * W;
}.

(** [metav1.LabelSelectorAsSelector]: its error for a malformed selector. *)
Class SelectorLib := { LabelSelectorAsSelector : option LabelSelector -> option Err }.

(** [Matches] of the selector made of a label selector, on an object's labels. *)
Class LabelMatch := { Matches : option LabelSelector -> gmap string string -> bool }.

(** ** Errors *)

Definition IsNotFound (e : Err) : bool := bool_decide (e = ErrNotFound).
Definition IsAlreadyExists (e : Err) : bool := bool_decide (e = ErrAlreadyExists).
Definition IsConflict (e : Err) : bool := bool_decide (e = ErrConflict).
Definition IsInvalid (e : Err) : bool := bool_decide (e = ErrInvalid).

(** [err.Error()] *)
Class ErrorText := { errorText : Err -> string }.

(** ** [retry.RetryOnConflict] of client-go

    A closure over a mutable variable is a function on the variable's value: it
    returns its error and the new value. *)

Inductive Backoff := DefaultRetry | DefaultBackoff.

Class Retry := {
  RetryOnConflict {W S : Type} : Backoff -> (S -> M W (option Err * S)) -> S ->
    M W (option Err * S);
}.

(** An error the helper may retry on: a conflict, possibly wrapped. *)
Fixpoint retriable (e : Err) : Prop :=
  match e with ErrConflict => True | ErrStack e => retriable e | _ => False end.

(** Runs of a closure: it runs at least once, and again only after an error that
    may be retried; the last run's error is returned. *)
Inductive retryRun {W S} (fn : S -> M W (option Err * S))
  : S -> W -> Outcome (option Err * S) * W -> Prop :=
  | RunLast s w : retryRun fn s w (fn s w)
  | RunAgain s w e s' w' r :
      fn s w = (Ok (Some e, s'), w') -> retriable e -> retryRun fn s' w' r ->
      retryRun fn s w r.

Class RetryLaws `{Retry} := {
  RetryOnConflict_runs {W S} b (fn : S -> M W (option Err * S)) s w :
    retryRun fn s w (RetryOnConflict b fn s w);
}.

Lemma holds_retry `{RetryLaws} {W S} b (fn : S -> M W (option Err * S)) s w
    (Inv : S -> W -> Prop) (Q : Outcome (option Err * S) -> W -> Prop) :
  Inv s w ->
  (forall s w, Inv s w -> holds (fn s) w (fun o w' =>
     Q o w' /\ match o with
               | Ok (Some e, s') => retriable e -> Inv s' w'
               | _ => True
               end)) ->
  holds (RetryOnConflict b fn s) w Q.
Proof.
  intros HI Hstep. unfold holds.
  induction (RetryOnConflict_runs b fn s w) as [s w|s w e s' w' r E He Hr IH].
  - apply Hstep in HI as [HQ _]. exact HQ.
  - apply IH. apply Hstep in HI. unfold holds in HI. rewrite E in HI. cbn in HI.
    by apply HI.
Qed.

(** ** Events and time *)

(** [recorder.Event(object, eventtype, reason, message)] *)
Class Recorder (W : Type) := {
  Event : ObjectMeta -> string -> string -> string -> W -> W;
}.

Definition EventTypeNormal : string := "Normal".
Definition EventTypeWarning : string := "Warning".

Class Clock (W : Type) := { Now : W -> Z * W }.

(** ** [intstr] *)

Class IntStrLib := {
  (** [GetValueFromIntOrPercent(v, total, roundUp)] *)
  GetValueFromIntOrPercent : IntOrString -> Z -> bool -> Result Z;
}.
Class IntStrLaws `{IntStrLib} := {
  intValue i total up : GetValueFromIntOrPercent (FromInt i) total up = inr i;
}.

(** ** [sort.Sort] and [sort.Slice]: some sorted permutation, not a stable one *)

Class GoSort := {
  goSort {A} : (A -> Z) -> list A -> list A;
}.
Class GoSortLaws `{GoSort} := {
  goSort_perm {A} (key : A -> Z) l : goSort key l ≡ₚ l;
  goSort_sorted {A} (key : A -> Z) l :
    StronglySorted (fun a b => key a <= key b) (goSort key l);
}.

(** ** A concrete server

    One object type, kept by key; conflicts and failures do not happen. *)
Section FxServer.
Context {A : Type} (metaOf : A -> ObjectMeta).

Definition fx_client : Client (gmap ObjectKey A) A := {|
  Get k w := (match w !! k with Some a => inr a | None => inl ErrNotFound end, w);
  Create a w :=
    match w !! keyOf (metaOf a) with
    | Some _ => ((Some ErrAlreadyExists, a), w)
    | None => ((None, a), <[keyOf (metaOf a) := a]> w)
    end;
  Update a w := ((None, a), <[keyOf (metaOf a) := a]> w);
  StatusUpdate a w := ((None, a), <[keyOf (metaOf a) := a]> w);
  Delete a w := (None, delete (keyOf (metaOf a)) w);
  Patch a _ w := ((None, a), w);
|}.

Lemma fx_client_laws {P} (payload : A -> P) :
  @ClientLaws (gmap ObjectKey A) A P fx_client metaOf payload.
Proof.
  unshelve econstructor; [exact (fun w => w)|..]; cbn.
  - done.
  - intros k w a. by destruct (w !! k) eqn:E; cbn; [intros [= <-]|].
  - intros k w. by destruct (w !! k) eqn:E; cbn.
  - intros a w a' w'. destruct (w !! _); intros [= <- <-]. done.
  - intros a w a' w'. destruct (w !! _) eqn:E; intros [= <- <-]. done.
  - by intros a w err a' w' [= <- <- <-].
Defined.

Lemma fx_status_laws : @StatusLaws (gmap ObjectKey A) A fx_client metaOf.
Proof. split; by intros a w e a' w' [= <- <- <-]. Defined.
Lemma fx_status_stored {S} (statusOf : A -> S) :
  @StatusStored (gmap ObjectKey A) A S fx_client statusOf.
Proof. split; by intros a w e a' w' [= <- <- <-]. Defined.

Definition fx_lister : Lister (gmap ObjectKey A) A := {|
  List_ ns _ w := (inr (filter (fun a => Namespace (metaOf a) = ns) (map_to_list w).*2), w);
|}.
End FxServer.

(** The same as a list of objects, each found under its own key. *)
Section FxObjects.
Context {A : Type} (metaOf : A -> ObjectMeta).

Definition fx_find (k : ObjectKey) (w : list A) : option A :=
  snd <$> list_find (fun a => keyOf (metaOf a) = k) w.
Definition fx_store (a : A) (w : list A) : list A :=
  filter (fun b => keyOf (metaOf b) <> keyOf (metaOf a)) w ++ [a].

Definition fx_objects : Client (list A) A := {|
  Get k w := (match fx_find k w with Some a => inr a | None => inl ErrNotFound end, w);
  Create a w :=
    match fx_find (keyOf (metaOf a)) w with
    | Some _ => ((Some ErrAlreadyExists, a), w)
    | None => ((None, a), fx_store a w)
    end;
  Update a w := ((None, a), fx_store a w);
  StatusUpdate a w := ((None, a), fx_store a w);
  Delete a w := (None, filter (fun b => keyOf (metaOf b) <> keyOf (metaOf a)) w);
  Patch a _ w := ((None, a), w);
|}.

Lemma fx_objects_keys : @KeyLaws (list A) A fx_objects metaOf.
Proof.
  split.
  - intros k w a. cbn. unfold fx_find. destruct (list_find _ w) as [[i b]|] eqn:E; [|done].
    intros [= <-]. by apply list_find_Some in E as (_ & ? & _).
  - intros a w err a' w'. cbn. destruct (fx_find _ w); by intros [= <- <- <-].
  - by intros a w err a' w' [= <- <- <-].
  - intros a w e a' w'. cbn. destruct (fx_find _ w); by intros [= _ <- _].
  - by intros a w e a' w' [=].
Defined.
Lemma fx_objects_keep {P} (payload : A -> P) : @WritesKeep (list A) A P fx_objects payload.
Proof. split; by intros a w e a' w' [= _ <- _]. Defined.
End FxObjects.

(** Two stores side by side. *)
Definition onFst {W V A} (c : Client W A) : Client (W * V) A := {|
  Get k w := let (r, w') := Get k w.1 in (r, (w', w.2));
  Create a w := let (r, w') := Create a w.1 in (r, (w', w.2));
  Update a w := let (r, w') := Update a w.1 in (r, (w', w.2));
  StatusUpdate a w := let (r, w') := StatusUpdate a w.1 in (r, (w', w.2));
  Delete a w := let (r, w') := Delete a w.1 in (r, (w', w.2));
  Patch a p w := let (r, w') := Patch a p w.1 in (r, (w', w.2));
|}.
Definition onSnd {W V A} (c : Client V A) : Client (W * V) A := {|
  Get k w := let (r, w') := Get k w.2 in (r, (w.1, w'));
  Create a w := let (r, w') := Create a w.2 in (r, (w.1, w'));
  Update a w := let (r, w') := Update a w.2 in (r, (w.1, w'));
  StatusUpdate a w := let (r, w') := StatusUpdate a w.2 in (r, (w.1, w'));
  Delete a w := let (r, w') := Delete a w.2 in (r, (w.1, w'));
  Patch a p w := let (r, w') := Patch a p w.2 in (r, (w.1, w'));
|}.

Lemma onFst_keys {W V A} (c : Client W A) metaOf :
  @KeyLaws W A c metaOf -> @KeyLaws (W * V) A (onFst c) metaOf.
Proof.
  intros H. split.
  - intros k w a. cbn. pose proof (get_key k w.1 a) as Hk. by destruct (Get k w.1).
  - intros a w err a' w'. cbn. destruct (Create a w.1) as [[err0 a0] w0] eqn:E.
    intros [= <- <- <-]. by eapply create_key.
  - intros a w err a' w'. cbn. destruct (Update a w.1) as [[err0 a0] w0] eqn:E.
    intros [= <- <- <-]. by eapply update_key.
  - intros a w e a' w'. cbn. destruct (Create a w.1) as [[err0 a0] w0] eqn:E.
    intros [= -> <- _]. by eapply create_failed.
  - intros a w e a' w'. cbn. destruct (Update a w.1) as [[err0 a0] w0] eqn:E.
    intros [= -> <- _]. by eapply update_failed.
Defined.
Lemma onFst_keep {W V A P} (c : Client W A) (payload : A -> P) :
  @WritesKeep W A P c payload -> @WritesKeep (W * V) A P (onFst c) payload.
Proof.
  intros H. split.
  - intros a w err a' w'. cbn. destruct (Update a w.1) as [[err0 a0] w0] eqn:E.
    intros [= <- <- _]. by eapply update_keeps.
  - intros a w e a' w'. cbn. destruct (StatusUpdate a w.1) as [[err0 a0] w0] eqn:E.
    intros [= -> <- _]. by eapply status_keeps.
Defined.
Lemma onSnd_keys {W V A} (c : Client V A) metaOf :
  @KeyLaws V A c metaOf -> @KeyLaws (W * V) A (onSnd c) metaOf.
Proof.
  intros H. split.
  - intros k w a. cbn. pose proof (get_key k w.2 a) as Hk. by destruct (Get k w.2).
  - intros a w err a' w'. cbn. destruct (Create a w.2) as [[err0 a0] w0] eqn:E.
    intros [= <- <- <-]. by eapply create_key.
  - intros a w err a' w'. cbn. destruct (Update a w.2) as [[err0 a0] w0] eqn:E.
    intros [= <- <- <-]. by eapply update_key.
  - intros a w e a' w'. cbn. destruct (Create a w.2) as [[err0 a0] w0] eqn:E.
    intros [= -> <- _]. by eapply create_failed.
  - intros a w e a' w'. cbn. destruct (Update a w.2) as [[err0 a0] w0] eqn:E.
    intros [= -> <- _]. by eapply update_failed.
Defined.
Lemma onSnd_keep {W V A P} (c : Client V A) (payload : A -> P) :
  @WritesKeep V A P c payload -> @WritesKeep (W * V) A P (onSnd c) payload.
Proof.
  intros H. split.
  - intros a w err a' w'. cbn. destruct (Update a w.2) as [[err0 a0] w0] eqn:E.
    intros [= <- <- _]. by eapply update_keeps.
  - intros a w e a' w'. cbn. destruct (StatusUpdate a w.2) as [[err0 a0] w0] eqn:E.
    intros [= -> <- _]. by eapply status_keeps.
Defined.

(** Retrying at most [n] more times. *)
Fixpoint fx_retry (n : nat) {W S} (fn : S -> M W (option Err * S)) (s : S)
  : M W (option Err * S) := fun w =>
  match fn s w, n with
  | (Ok (Some ErrConflict, s'), w'), S n => fx_retry n fn s' w'
  | r, _ => r
  end.

#[export] Instance fx_Retry : Retry := {| RetryOnConflict _ _ b := fx_retry 4 |}.
#[export] Instance fx_RetryLaws : RetryLaws.
Proof.
  split. intros W S b fn s w. unfold RetryOnConflict, fx_Retry. generalize 4%nat.
  intros n. revert s w.
  induction n as [|n IH]; intros s w; cbn [fx_retry].
  - pose proof (RunLast fn s w) as HL.
    destruct (fn s w) as [[[[[]|] s']|] w'] eqn:E; exact HL.
  - pose proof (RunLast fn s w) as HL.
    destruct (fn s w) as [[[[[]|] s']|] w'] eqn:E; try exact HL.
    eapply RunAgain; [exact E|done|apply IH].
Defined.

#[export] Instance fx_intStr : IntStrLib := {|
  GetValueFromIntOrPercent v total up :=
    match v with FromInt i => inr i | FromString _ => inl (ErrMsg "invalid value for IntOrString") end;
|}.
#[export] Instance fx_intStr_laws : IntStrLaws.
Proof. by split. Defined.

Definition keyLe {A} (key : A -> Z) (a b : A) : Prop := key a <= key b.
#[export] Instance keyLe_dec {A} (key : A -> Z) : RelDecision (keyLe key).
Proof. unfold keyLe. intros a b. apply _. Defined.
#[export] Instance keyLe_trans {A} (key : A -> Z) : Transitive (keyLe key).
Proof. unfold keyLe. intros a b c. lia. Qed.
#[export] Instance keyLe_total {A} (key : A -> Z) : Total (keyLe key).
Proof. unfold keyLe. intros a b. lia. Qed.
#[export] Instance fx_sort : GoSort := {| goSort A key l := merge_sort (keyLe key) l |}.
#[export] Instance fx_sort_laws : GoSortLaws.
Proof.
  split; intros A key l; cbn.
  - apply merge_sort_Permutation.
  - apply (StronglySorted_merge_sort (keyLe key)).
Defined.

#[export] Instance fx_selector : SelectorLib := {| LabelSelectorAsSelector _ := None |}.
#[export] Instance fx_match : LabelMatch := {|
  Matches selector labels :=
    match selector with
    | Some s => forallb (fun '(k, v) => bool_decide (labels !! k = Some v)) (map_to_list (MatchLabels s))
    | None => false
    end;
|}.
#[export] Instance fx_errorText : ErrorText := {|
  errorText e := match e with ErrMsg m => m | _ => "error" end;
|}.
