(* ===== verification/CallLog.v ===== *)
(** Reasoning about the calls of a run. A component that talks to the world through
    a class can be run with a log of its calls ([Interfaces], [Cluster]); [emits]
    relates the outcome of a run to the calls it added to the log, for every
    implementation of the class and every starting world. *)

From S2P Require Import Prelude Objects Cluster.

(** A world that carries a log of calls of type [C]. *)
Class HasLog (State C : Type) := logOf : State -> list C.
#[export] Instance pairLog {W C} : HasLog (W * list C) C := snd.

Section Emits.
Context {State C : Type} `{!HasLog State C}.

(** [emits m Q]: from every world [m] makes some calls and ends in an outcome that
    are together in [Q]. *)
Definition emits {A} (m : M State A) (Q : Outcome A -> list C -> Prop) : Prop :=
  forall w, exists cs, logOf (m w).2 = logOf w ++ cs /\ Q (m w).1 cs.

Lemma emits_mono {A} (m : M State A) (Q Q' : Outcome A -> list C -> Prop) :
  emits m Q -> (forall o cs, Q o cs -> Q' o cs) -> emits m Q'.
Proof. intros Hm HQ w. destruct (Hm w) as (cs & E & HQw). eauto. Qed.

Lemma emits_bind {A B} (m : M State A) (f : A -> M State B)
    (Q : Outcome B -> list C -> Prop) :
  emits m (fun o cs => match o with
                       | Ok a => emits (f a) (fun o' cs' => Q o' (cs ++ cs'))
                       | Panic r => Q (Panic r) cs
                       end) ->
  emits (m ≫= f) Q.
Proof.
  intros Hm w. destruct (Hm w) as (cs & E & HQ). unfold mbind, M_bind.
  destruct (m w) as [[a|r] w']; cbn in *; [|by exists cs].
  destruct (HQ w') as (cs' & E' & HQ'). exists (cs ++ cs'). by rewrite E', E, app_assoc.
Qed.

Lemma emits_ret {A} (a : A) (Q : Outcome A -> list C -> Prop) :
  Q (Ok a) [] -> emits (mret a) Q.
Proof. intros HQ w. exists []. rewrite app_nil_r. split; [done|]. exact HQ. Qed.

Lemma emits_fbind {R A B} (m : F State R A) (f : A -> F State R B)
    (Q : Outcome (Flow B R) -> list C -> Prop) :
  emits m (fun o cs => match o with
                       | Ok (Next a) => emits (f a) (fun o' cs' => Q o' (cs ++ cs'))
                       | Ok (Return r) => Q (Ok (Return r)) cs
                       | Panic r => Q (Panic r) cs
                       end) ->
  emits (m ≫= f) Q.
Proof.
  intros Hm w. destruct (Hm w) as (cs & E & HQ). unfold mbind, F_bind.
  destruct (m w) as [[[a|r]|r] w']; cbn in *; [|by exists cs..].
  destruct (HQ w') as (cs' & E' & HQ'). exists (cs ++ cs'). by rewrite E', E, app_assoc.
Qed.

Lemma emits_fret {R A} (a : A) (Q : Outcome (Flow A R) -> list C -> Prop) :
  Q (Ok (Next a)) [] -> emits (mret a : F State R A) Q.
Proof. intros HQ w. exists []. rewrite app_nil_r. split; [done|]. exact HQ. Qed.

Lemma emits_return {R A} (r : R) (Q : Outcome (Flow A R) -> list C -> Prop) :
  Q (Ok (Return r)) [] -> emits (return_ r : F State R A) Q.
Proof. intros HQ w. exists []. rewrite app_nil_r. split; [done|]. exact HQ. Qed.

Lemma emits_run {R A} (m : M State A) (Q : Outcome (Flow A R) -> list C -> Prop) :
  emits m (fun o cs => match o with
                       | Ok a => Q (Ok (Next a)) cs
                       | Panic r => Q (Panic r) cs
                       end) ->
  emits (run m : F State R A) Q.
Proof.
  intros Hm w. destruct (Hm w) as (cs & E & HQ). exists cs. unfold run.
  by destruct (m w) as [[a|r] w'].
Qed.

Lemma emits_body {R} (m : F State R R) (Q : Outcome R -> list C -> Prop) :
  emits m (fun o cs => match o with
                       | Ok (Next r) | Ok (Return r) => Q (Ok r) cs
                       | Panic r => Q (Panic r) cs
                       end) ->
  emits (body m) Q.
Proof.
  intros Hm w. destruct (Hm w) as (cs & E & HQ). exists cs. unfold body.
  by destruct (m w) as [[[a|r]|r] w'].
Qed.

Lemma emits_lift {A} (o : Outcome A) (Q : Outcome A -> list C -> Prop) :
  Q o [] -> emits (lift o) Q.
Proof. intros HQ w. exists []. rewrite app_nil_r. split; [done|]. exact HQ. Qed.

(** A call that leaves the log alone. *)
Lemma emits_quiet {A} (f : State -> A * State) (Q : Outcome A -> list C -> Prop) :
  (forall w, logOf (f w).2 = logOf w) -> (forall a, Q (Ok a) []) -> emits (call f) Q.
Proof.
  intros Hf HQ w. exists []. rewrite app_nil_r. unfold call.
  specialize (Hf w). destruct (f w) as [a w']. cbn in *. auto.
Qed.

(** The loop rule: [Inv] relates the elements visited, the loop variables and the
    calls made so far. *)
Lemma emits_forLoop {I S R} (body : I -> S -> M State (Flow S R)) l s
    (Inv : list I -> S -> list C -> Prop) (Q : Outcome (Flow S R) -> list C -> Prop) :
  Inv [] s [] ->
  (forall done i todo s' cs, l = done ++ i :: todo -> Inv done s' cs ->
     emits (body i s') (fun o cs' =>
       match o with
       | Ok (Next s'') => Inv (done ++ [i]) s'' (cs ++ cs')
       | _ => Q o (cs ++ cs')
       end)) ->
  (forall s' cs, Inv l s' cs -> Q (Ok (Next s')) cs) ->
  emits (forLoop body l s) Q.
Proof.
  intros H0 Hstep Hend.
  cut (forall todo done s cs, l = done ++ todo -> Inv done s cs ->
         emits (forLoop body todo s) (fun o cs' => Q o (cs ++ cs'))).
  { intros Hcut. by apply (Hcut l [] s []). }
  clear s H0. induction todo as [|i todo IH]; intros done s cs -> HI; cbn [forLoop].
  { rewrite app_nil_r in Hend. apply emits_ret. rewrite app_nil_r. by apply Hend. }
  apply emits_bind. eapply emits_mono; [by eapply Hstep|].
  intros [[s'|r]|r] cs' HQ; [|apply emits_ret; by rewrite app_nil_r|done].
  eapply emits_mono; [apply (IH (done ++ [i])); [by rewrite <-app_assoc|exact HQ]|].
  intros o cs''. by rewrite app_assoc.
Qed.

Lemma emits_forEach {I S} (body : I -> S -> M State S) l s
    (Inv : list I -> S -> list C -> Prop) (Q : Outcome S -> list C -> Prop) :
  Inv [] s [] ->
  (forall done i todo s' cs, l = done ++ i :: todo -> Inv done s' cs ->
     emits (body i s') (fun o cs' =>
       match o with
       | Ok s'' => Inv (done ++ [i]) s'' (cs ++ cs')
       | Panic r => Q (Panic r) (cs ++ cs')
       end)) ->
  (forall s' cs, Inv l s' cs -> Q (Ok s') cs) ->
  emits (forEach body l s) Q.
Proof.
  intros H0 Hstep Hend.
  cut (forall todo done s cs, l = done ++ todo -> Inv done s cs ->
         emits (forEach body todo s) (fun o cs' => Q o (cs ++ cs'))).
  { intros Hcut. by apply (Hcut l [] s []). }
  clear s H0. induction todo as [|i todo IH]; intros done s cs -> HI; cbn [forEach].
  { rewrite app_nil_r in Hend. apply emits_ret. rewrite app_nil_r. by apply Hend. }
  apply emits_bind. eapply emits_mono; [by eapply Hstep|].
  intros [s'|r] cs' HQ; [|done].
  eapply emits_mono; [apply (IH (done ++ [i])); [by rewrite <-app_assoc|exact HQ]|].
  intros o cs''. by rewrite app_assoc.
Qed.

(** The retry rule: [Inv] holds of the closure's variable and the calls so far
    whenever the closure is entered. *)
Lemma emits_retry `{RetryLaws} {S} b (fn : S -> M State (option Err * S)) s
    (Inv : S -> list C -> Prop) (Q : Outcome (option Err * S) -> list C -> Prop) :
  Inv s [] ->
  (forall s cs, Inv s cs -> emits (fn s) (fun o cs' =>
     Q o (cs ++ cs')
     /\ match o with
        | Ok (Some e, s') => retriable e -> Inv s' (cs ++ cs')
        | _ => True
        end)) ->
  emits (RetryOnConflict b fn s) Q.
Proof.
  intros HI Hstep w.
  cut (forall r cs, retryRun fn s w r -> Inv s cs ->
         exists cs', logOf r.2 = logOf w ++ cs' /\ Q r.1 (cs ++ cs')).
  { intros Hcut. apply (Hcut _ []); [apply RetryOnConflict_runs|done]. }
  intros r cs Hr. clear HI. revert cs.
  induction Hr as [s w|s w e s' w' r E He Hr IH]; intros cs HI.
  - destruct (Hstep s cs HI w) as (cs' & E & HQ & _). by exists cs'.
  - destruct (Hstep s cs HI w) as (cs' & El & _ & HI'). rewrite E in El, HI'. cbn in El, HI'.
    destruct (IH (cs ++ cs') (HI' He)) as (cs'' & El' & HQ).
    exists (cs' ++ cs''). by rewrite El', El, !app_assoc in *.
Qed.
End Emits.

(** ** Runs from some worlds *)

Section EmitsIn.
Context {State C : Type} `{!HasLog State C} (P : State -> Prop).

Definition emitsIn {A} (m : M State A) (Q : Outcome A -> list C -> Prop) : Prop :=
  forall w, P w -> exists cs, logOf (m w).2 = logOf w ++ cs /\ Q (m w).1 cs.

Lemma emitsIn_mono {A} (m : M State A) (Q Q' : Outcome A -> list C -> Prop) :
  emitsIn m Q -> (forall o cs, Q o cs -> Q' o cs) -> emitsIn m Q'.
Proof. intros Hm HQ w Hw. destruct (Hm w Hw) as (cs & ? & ?). eauto. Qed.

Lemma emits_in {A} (m : M State A) (Q : Outcome A -> list C -> Prop) : emits m Q -> emitsIn m Q.
Proof. intros Hm w _. apply Hm. Qed.

Lemma emitsIn_body {R} (m : F State R R) (Q : Outcome R -> list C -> Prop) :
  emitsIn m (fun o cs => match o with
                         | Ok (Next r) | Ok (Return r) => Q (Ok r) cs
                         | Panic r => Q (Panic r) cs
                         end) ->
  emitsIn (body m) Q.
Proof.
  intros Hm w Hw. destruct (Hm w Hw) as (cs & E & HQ). exists cs. unfold body.
  by destruct (m w) as [[[a|r]|r] w'].
Qed.

Lemma emitsIn_fbind {R A B} (m : F State R A) (f : A -> F State R B)
    (Q : Outcome (Flow B R) -> list C -> Prop) :
  (forall w, P w -> P (m w).2) ->
  emits m (fun o cs => match o with
                       | Ok (Next a) => emitsIn (f a) (fun o' cs' => Q o' (cs ++ cs'))
                       | Ok (Return r) => Q (Ok (Return r)) cs
                       | Panic r => Q (Panic r) cs
                       end) ->
  emitsIn (m ≫= f) Q.
Proof.
  intros HP Hm w Hw. specialize (HP w Hw). destruct (Hm w) as (cs & E & HQ). unfold mbind, F_bind.
  destruct (m w) as [[[a|r]|r] w']; cbn in *; [|by exists cs..].
  destruct (HQ w' HP) as (cs' & E' & HQ'). exists (cs ++ cs'). by rewrite E', E, app_assoc.
Qed.

Lemma emitsIn_ret {A} (a : A) (Q : Outcome A -> list C -> Prop) : Q (Ok a) [] -> emitsIn (mret a) Q.
Proof. intros HQ. by apply emits_in, emits_ret. Qed.
Lemma emitsIn_fret {R A} (a : A) (Q : Outcome (Flow A R) -> list C -> Prop) :
  Q (Ok (Next a)) [] -> emitsIn (mret a : F State R A) Q.
Proof. intros HQ. by apply emits_in, emits_fret. Qed.

(** What only computes leaves the world where it is. *)
Lemma emitsIn_lift {A B} (o : Outcome A) (f : A -> M State B) (Q : Outcome B -> list C -> Prop) :
  match o with Ok a => emitsIn (f a) Q | Panic r => Q (Panic r) [] end ->
  emitsIn (lift o ≫= f) Q.
Proof.
  intros Hm w Hw. unfold mbind, M_bind, lift. destruct o as [a|r]; [by apply Hm|].
  exists []. by rewrite app_nil_r.
Qed.
Lemma emitsIn_flift {R A B} (o : Outcome A) (f : A -> F State R B)
    (Q : Outcome (Flow B R) -> list C -> Prop) :
  match o with Ok a => emitsIn (f a) Q | Panic r => Q (Panic r) [] end ->
  emitsIn (run (lift o) ≫= f) Q.
Proof.
  intros Hm w Hw. unfold mbind, F_bind, run, lift. destruct o as [a|r]; [by apply Hm|].
  exists []. by rewrite app_nil_r.
Qed.
Lemma emitsIn_then {A B} (m : M State A) (f : A -> M State B) (Q : Outcome B -> list C -> Prop) :
  emitsIn m (fun o cs => match o with
                         | Ok a => emits (f a) (fun o' cs' => Q o' (cs ++ cs'))
                         | Panic r => Q (Panic r) cs
                         end) ->
  emitsIn (m ≫= f) Q.
Proof.
  intros Hm w Hw. destruct (Hm w Hw) as (cs & E & HQ). unfold mbind, M_bind.
  destruct (m w) as [[a|r] w']; cbn in *; [|by exists cs].
  destruct (HQ w') as (cs' & E' & HQ'). exists (cs ++ cs'). by rewrite E', E, app_assoc.
Qed.
End EmitsIn.

Lemma emitsIn_all {State C A} `{!HasLog State C} (m : M State A) (Q : Outcome A -> list C -> Prop) :
  emitsIn (fun _ => True) m Q -> emits m Q.
Proof. intros Hm w. by apply Hm. Qed.

(** Two facts about the same run. *)
Lemma emits_and {State C A} `{!HasLog State C} (m : M State A)
    (Q Q' : Outcome A -> list C -> Prop) :
  emits m Q -> emits m Q' -> emits m (fun o cs => Q o cs /\ Q' o cs).
Proof.
  intros Hm Hm' w. destruct (Hm w) as (cs & E & HQ), (Hm' w) as (cs' & E' & HQ').
  rewrite E in E'. apply app_inv_head in E' as ->. eauto.
Qed.

(** ** Writes that are retried

    An operation that writes until a write succeeds: [write a err] is the call that
    wrote [a] with the answer [err], and [P] holds of everything written. *)
Section Commit.
Context {C A : Type} (write : A -> option Err -> C) `{!Inj2 (=) (=) (=) write}.
Context (P : A -> Prop).

Definition tried (c : C) : Prop := forall a err, c = write a err -> P a /\ err <> None.

(** Every write failed, which only counts as success when it may be [idle]; or the
    last call is a write that succeeded. *)
Definition committed (idle : Prop) (ok : bool) (cs : list C) : Prop :=
  ((ok = true -> idle) /\ Forall tried cs)
  \/ (ok = true /\ exists pre a, Forall tried pre /\ P a /\ cs = pre ++ [write a None]).

Lemma committed_app idle ok cs cs' :
  Forall tried cs -> committed idle ok cs' -> committed idle ok (cs ++ cs').
Proof.
  intros Hcs [[Hi Hcs']|(-> & pre & a & Hpre & Ha & ->)].
  - left. split; [done|]. by apply Forall_app.
  - right. split; [done|]. exists (cs ++ pre), a. rewrite <-app_assoc.
    split_and!; [by apply Forall_app|done|done].
Qed.

Lemma committed_failed idle cs : committed idle false cs -> Forall tried cs.
Proof. by intros [[_ ?]|[? _]]. Qed.

Lemma committed_spec idle ok cs :
  committed idle ok cs ->
  (forall a err, write a err ∈ cs -> P a)
  /\ (forall pre a post, cs = pre ++ write a None :: post -> post = [] /\ ok = true)
  /\ (ok = true -> idle \/ exists pre a, cs = pre ++ [write a None]).
Proof.
  assert (Htried : forall l a err, Forall tried l -> write a err ∈ l -> P a /\ err <> None).
  { intros l a err Hl Hin. rewrite list.Forall_forall in Hl. by apply (Hl _ Hin). }
  intros [[Hi Hcs]|(-> & pre & a & Hpre & Ha & ->)].
  - split_and!; [intros a err Hin; by destruct (Htried _ _ _ Hcs Hin)| |by auto].
    intros pre a post ->. destruct (Htried _ a None Hcs); [set_solver|done].
  - split_and!; [| |by eauto].
    + intros a' err. rewrite elem_of_app, list_elem_of_singleton.
      intros [Hin|[-> _]%(inj2 write)]; [by destruct (Htried _ _ _ Hpre Hin)|done].
    + intros pre' a' post E. split; [|done].
      destruct post as [|c post _] using rev_ind; [done|].
      rewrite app_comm_cons, app_assoc in E. apply app_inj_tail in E as [-> _].
      destruct (Htried _ a' None Hpre); [set_solver|done].
Qed.

Definition okOf {S} (o : Outcome (option Err * S)) : bool :=
  match o with Ok (None, _) => true | _ => false end.

Lemma emits_retry_commit {State S} `{!HasLog State C, RetryLaws} idle b
    (fn : S -> M State (option Err * S)) s :
  (forall s, emits (fn s) (fun o cs => committed idle (okOf o) cs)) ->
  emits (RetryOnConflict b fn s) (fun o cs => committed idle (okOf o) cs).
Proof.
  intros Hfn. apply (emits_retry _ _ _ (fun _ cs => Forall tried cs)); [done|].
  intros s' cs Hcs. eapply emits_mono; [apply Hfn|]. intros o cs' Hcs'.
  split; [by apply committed_app|].
  destruct o as [[[e|] s'']|r]; [|done..]. intros _. apply Forall_app. split; [done|].
  by eapply committed_failed.
Qed.
End Commit.

(** ** Runs that make only some calls

    [only P m Q]: every call of [m] is in [P], and its result, if it has one, in [Q]. *)
Definition resultIn {A} (Q : A -> Prop) (o : Outcome A) : Prop :=
  match o with Ok a => Q a | Panic _ => True end.

Section Only.
Context {State C : Type} `{!HasLog State C} (P : C -> Prop).

Definition only {A} (m : M State A) (Q : A -> Prop) : Prop :=
  emits m (fun o cs => Forall P cs /\ resultIn Q o).

Lemma only_mono {A} (m : M State A) (Q Q' : A -> Prop) :
  only m Q -> (forall a, Q a -> Q' a) -> only m Q'.
Proof.
  intros Hm HQ. eapply emits_mono; [exact Hm|]. intros [a|r] cs [Hcs Ha]; split; cbn; auto.
Qed.

Lemma only_ret {A} (a : A) (Q : A -> Prop) : Q a -> only (mret a) Q.
Proof. intros. by apply emits_ret. Qed.

Lemma only_bind {A B} (m : M State A) (f : A -> M State B) Q' (Q : B -> Prop) :
  only m Q' -> (forall a, Q' a -> only (f a) Q) -> only (m ≫= f) Q.
Proof.
  intros Hm Hf. apply emits_bind. eapply emits_mono; [exact Hm|].
  intros [a|r] cs [Hcs Ha]; [|by split]. eapply emits_mono; [by apply Hf|].
  intros o cs' [Hcs' Ho]. split; [by apply Forall_app|done].
Qed.

Lemma only_lift {A} (o : Outcome A) (Q : A -> Prop) :
  (forall a, o = Ok a -> Q a) -> only (lift o) Q.
Proof. intros HQ. apply emits_lift. split; [done|]. destruct o; cbn; auto. Qed.

Lemma only_quiet {A} (f : State -> A * State) (Q : A -> Prop) :
  (forall w, logOf (f w).2 = logOf w) -> (forall a, Q a) -> only (call f) Q.
Proof. intros Hf HQ. apply emits_quiet; [done|]. intros a. split; [done|apply HQ]. Qed.

(** The invariant need only be restored for an error that is retried. *)
Lemma only_retry_on `{RetryLaws} {S} b (fn : S -> M State (option Err * S)) s
    (Inv : S -> Prop) (Q : option Err * S -> Prop) :
  Inv s ->
  (forall s, Inv s -> only (fn s) (fun r =>
     Q r /\ match r.1 with Some e => retriable e -> Inv r.2 | None => True end)) ->
  only (RetryOnConflict b fn s) Q.
Proof.
  intros HI Hfn. apply (emits_retry _ _ _ (fun s cs => Forall P cs /\ Inv s)); [done|].
  intros s' cs [Hcs Hs']. eapply emits_mono; [by apply Hfn|]. intros o cs' [Hcs' Ho].
  assert (Forall P (cs ++ cs')) by by apply Forall_app.
  destruct o as [[[e|] s'']|r]; cbn in Ho; naive_solver.
Qed.

Lemma only_retry `{RetryLaws} {S} b (fn : S -> M State (option Err * S)) s (Inv : S -> Prop) :
  Inv s -> (forall s, Inv s -> only (fn s) (fun r => Inv r.2)) ->
  only (RetryOnConflict b fn s) (fun r => Inv r.2).
Proof.
  intros HI Hfn. apply (only_retry_on _ _ _ Inv); [done|]. intros s' Hs'.
  eapply only_mono; [by apply Hfn|]. intros r Hr. split; [done|]. by destruct r.1.
Qed.
End Only.

(** ** Exchanges with the API server *)

Inductive Request (A : Type) :=
  | GetRequest (key : ObjectKey)
  | CreateRequest (a : A)
  | UpdateRequest (a : A)
  | StatusRequest (a : A)
  | DeleteRequest (a : A)
  | PatchRequest (a : A) (patch : string).
Arguments GetRequest {A} key.
Arguments CreateRequest {A} a.
Arguments UpdateRequest {A} a.
Arguments StatusRequest {A} a.
Arguments DeleteRequest {A} a.
Arguments PatchRequest {A} a patch.

(** How a request and the error it was answered with are written to the log. *)
Class Traced (A C : Type) := exchange : Request A -> option Err -> C.

Definition errorOf {A} (r : Result A) : option Err :=
  match r with inl e => Some e | inr _ => None end.

Section TracedClient.
Context {W A C : Type} `{Client W A, !Traced A C}.

Definition inOut (request : A -> Request A) (f : A -> W -> (option Err * A) * W)
    (a : A) (w : W * list C) : (option Err * A) * (W * list C) :=
  let '((err, a'), w') := f a w.1 in ((err, a'), (w', w.2 ++ [exchange (request a) err])).

#[export] Instance tracedClient : Client (W * list C) A := {|
  Get k w :=
    let (r, w') := Get k w.1 in (r, (w', w.2 ++ [exchange (GetRequest k) (errorOf r)]));
  Create := inOut CreateRequest Create;
  Update := inOut UpdateRequest Update;
  StatusUpdate := inOut StatusRequest StatusUpdate;
  Delete a w :=
    let (err, w') := Delete a w.1 in (err, (w', w.2 ++ [exchange (DeleteRequest a) err]));
  Patch a patch := inOut (fun a => PatchRequest a patch) (fun a => Patch a patch) a;
|}.

Lemma emits_Get_from k (Q : Outcome (Result A) -> list C -> Prop) :
  (forall r (w : W), r = (Get k w).1 -> Q (Ok r) [exchange (GetRequest k) (errorOf r)]) ->
  emits (call (Get k)) Q.
Proof.
  intros HQ [w l]. unfold call. cbn. destruct (Get k w) as [r w'] eqn:E.
  eexists. split; [reflexivity|]. apply (HQ r w). by rewrite E.
Qed.

(** A run from the worlds in which the first read is answered by [r]. *)
Lemma emitsIn_Get {B} k r (f : Result A -> M (W * list C) B) (Q : Outcome B -> list C -> Prop) :
  emitsIn (fun w => exists w0 : W, (Get k w0).1 = r) (f r)
    (fun o cs => Q o (exchange (GetRequest k) (errorOf r) :: cs)) ->
  emitsIn (fun w => (Get k w.1).1 = r) (call (Get k) ≫= f) Q.
Proof.
  intros Hf [w l] Hr. cbn [fst] in Hr. unfold mbind, M_bind, call. cbn [Get tracedClient fst snd].
  destruct (Get k w) as [r' w'] eqn:E. cbn [fst] in Hr. subst r'.
  destruct (Hf (w', l ++ [exchange (GetRequest k) (errorOf r)])) as (cs & El & HQ);
    [exists w; by rewrite E|].
  exists (exchange (GetRequest k) (errorOf r) :: cs). split; [|exact HQ].
  unfold logOf, pairLog in El |- *. cbn [snd] in El. rewrite El. by rewrite <-app_assoc.
Qed.

Lemma emitsIn_fGet {R B} k r (f : Result A -> F (W * list C) R B)
    (Q : Outcome (Flow B R) -> list C -> Prop) :
  emits (f r) (fun o cs => Q o (exchange (GetRequest k) (errorOf r) :: cs)) ->
  emitsIn (fun w => (Get k w.1).1 = r) (run (call (Get k)) ≫= f) Q.
Proof.
  intros Hf [w l] Hr. cbn [fst] in Hr. unfold mbind, F_bind, run, call. cbn [Get tracedClient fst snd].
  destruct (Get k w) as [r' w'] eqn:E. cbn [fst] in Hr. subst r'.
  destruct (Hf (w', l ++ [exchange (GetRequest k) (errorOf r)])) as (cs & El & HQ).
  exists (exchange (GetRequest k) (errorOf r) :: cs). split; [|exact HQ].
  unfold logOf, pairLog in El |- *. cbn [snd] in El. rewrite El. by rewrite <-app_assoc.
Qed.

Lemma emits_Get k (Q : Outcome (Result A) -> list C -> Prop) :
  (forall r, Q (Ok r) [exchange (GetRequest k) (errorOf r)]) -> emits (call (Get k)) Q.
Proof. intros HQ. by apply emits_Get_from. Qed.

Lemma emits_inOut request f a (Q : Outcome (option Err * A) -> list C -> Prop) :
  (forall err a' w w', f a w = ((err, a'), w') -> Q (Ok (err, a')) [exchange (request a) err]) ->
  emits (call (inOut request f a)) Q.
Proof.
  intros HQ [w l]. unfold call, inOut. cbn.
  destruct (f a w) as [[err a'] w'] eqn:E. eexists. split; [reflexivity|by eapply HQ].
Qed.

Lemma emits_Delete a (Q : Outcome (option Err) -> list C -> Prop) :
  (forall err, Q (Ok err) [exchange (DeleteRequest a) err]) -> emits (call (Delete a)) Q.
Proof.
  intros HQ [w l]. unfold call. cbn. destruct (Delete a w) as [r w'].
  eexists. split; [reflexivity|apply HQ].
Qed.
End TracedClient.

Section OnlyClient.
Context {W A C : Type} `{Client W A, !Traced A C} (P : C -> Prop).

Lemma only_Get k (Q : Result A -> Prop) :
  (forall err, P (exchange (GetRequest k) err)) ->
  (forall r (w : W), r = (Get k w).1 -> Q r) ->
  only (State := W * list C) P (call (Get k)) Q.
Proof.
  intros HP HQ. apply emits_Get_from. intros r w Hr. split; [apply Forall_singleton, HP|].
  by apply (HQ r w).
Qed.

Lemma only_inOut request f a (Q : option Err * A -> Prop) :
  (forall err, P (exchange (request a) err)) ->
  (forall err a' w w', f a w = ((err, a'), w') -> Q (err, a')) ->
  only (State := W * list C) P (call (inOut request f a)) Q.
Proof.
  intros HP HQ. apply emits_inOut. intros err a' w w' E. split; [apply Forall_singleton, HP|].
  by eapply HQ.
Qed.

Lemma only_Delete a (Q : option Err -> Prop) :
  (forall err, P (exchange (DeleteRequest a) err)) -> (forall err, Q err) ->
  only (State := W * list C) P (call (Delete a)) Q.
Proof.
  intros HP HQ. apply emits_Delete. intros err. split; [apply Forall_singleton, HP|apply HQ].
Qed.
End OnlyClient.

#[export] Instance tracedLister {W A C} `{Lister W A} : Lister (W * list C) A := {|
  List_ ns selector w := let (r, w') := List_ ns selector w.1 in (r, (w', w.2));
|}.
