(* ===== verification/Interfaces.v ===== *)
(** The interfaces between the controllers' components: what the StatefulSet
    control logic needs from the code that talks to the API server. Each class is
    one Go interface; [PodControl] and [Revisions] give the instances the operator
    runs with, and [Control] is written and proved against the classes. *)

From S2P Require Import Prelude Objects Cluster PodIdentity InPlace.

(** [StatefulPodControlInterface] of [controllers/stateful_pod_control.go]. A pod
    an operation writes through the pointer is an in-out parameter: the pod the
    pointer refers to afterwards is returned with the error. *)
Class StatefulPodControl (W : Type) := {
  CreateStatefulPod : StatefulSet -> Pod -> M W (option Err * Pod);
  UpdateStatefulPod : StatefulSet -> Pod -> M W (option Err * Pod);
  InPlaceUpdateStatefulPod : StatefulSet -> Pod -> InPlaceUpdateSpec -> M W (option Err);
  UpdateStatefulPodCondition : StatefulSet -> Pod -> PodCondition -> M W (option Err * Pod);
  DeleteStatefulPod : StatefulSet -> Pod -> M W (option Err);
}.

(** [StatusUpdaterInterface] of [controllers/stateful_set_status_updater.go]. *)
Class StatusUpdater (W : Type) := {
  UpdateStatefulSetStatus : StatefulSet -> StatefulSetStatus -> M W (option Err);
}.

(** [history.Interface] of [k8s.io/kubernetes/pkg/controller/history], implemented by
    [controllers/revision_control.go]. The collision count is an in-out parameter,
    [None] for a nil pointer; a nil revision without error is [inr None]. *)
Class ControllerHistory (W : Type) := {
  ListControllerRevisions : ObjectMeta -> option LabelSelector ->
    M W (Result (list ControllerRevision));
  CreateControllerRevision : ObjectMeta -> ControllerRevision -> option Z ->
    M W (Result ControllerRevision * option Z);
  UpdateControllerRevision : ControllerRevision -> Z -> M W (Result ControllerRevision);
  DeleteControllerRevision : ControllerRevision -> M W (option Err);
  AdoptControllerRevision : ObjectMeta -> ControllerRevision -> M W (Result ControllerRevision);
  ReleaseControllerRevision : ObjectMeta -> ControllerRevision ->
    M W (Result (option ControllerRevision));
}.

(** A pod is created under the key it was sent with. Setting a condition of a pod
    changes neither its key nor its revision label, and of its status only that
    condition. *)
Class StatefulPodControlLaws (W : Type) `{StatefulPodControl W} := {
  create_podKey set pod w err pod' w' :
    CreateStatefulPod set pod w = (Ok (err, pod'), w') ->
    keyOf (pod_meta pod') = keyOf (pod_meta pod);
  condition_revision set pod c w err pod' w' :
    UpdateStatefulPodCondition set pod c w = (Ok (err, pod'), w') ->
    getPodRevision pod' = getPodRevision pod;
  condition_podKey set pod c w err pod' w' :
    UpdateStatefulPodCondition set pod c w = (Ok (err, pod'), w') ->
    keyOf (pod_meta pod') = keyOf (pod_meta pod);
  condition_status set pod c w err pod' w' :
    UpdateStatefulPodCondition set pod c w = (Ok (err, pod'), w') ->
    pod_Status pod' = pod_Status (updatePodCondition pod c);
}.

(** What the control logic relies on: a revision is created and renumbered without
    touching its data. *)
Class ControllerHistoryLaws (W : Type) `{ControllerHistory W} := {
  created_data parent r c w res c' w' :
    CreateControllerRevision parent r c w = (Ok (inr res, c'), w') -> Data res = Data r;
  updated_data r n w res w' :
    UpdateControllerRevision r n w = (Ok (inr res), w') -> Data res = Data r;
}.

(** ** Recording the calls

    Any implementation can be run with a log of the calls made through it; a
    theorem about the log holds for that implementation as it is. *)

Inductive PodCall :=
  | CreateCall (pod : Pod)
  | UpdateCall (pod : Pod)
  | InPlaceCall (pod : Pod) (spec : InPlaceUpdateSpec)
  | ConditionCall (pod : Pod) (condition : PodCondition)
  | DeleteCall (pod : Pod).

Inductive HistoryCall :=
  | HistoryCreate (revision : ControllerRevision)
  | HistoryUpdate (revision : ControllerRevision) (number : Z)
  | HistoryDelete (revision : ControllerRevision)
  | HistoryAdopt (revision : ControllerRevision)
  | HistoryRelease (revision : ControllerRevision).

Definition logged {W C A} (c : C) (m : M W A) : M (W * list C) A :=
  fun '(w, log) => let (o, w') := m w in (o, (w', log ++ [c])).
Definition unlogged {W C A} (m : M W A) : M (W * list C) A :=
  fun '(w, log) => let (o, w') := m w in (o, (w', log)).

#[export] Instance tracedPodControl {W} `{StatefulPodControl W}
  : StatefulPodControl (W * list PodCall) := {|
  CreateStatefulPod set pod := logged (CreateCall pod) (CreateStatefulPod set pod);
  UpdateStatefulPod set pod := logged (UpdateCall pod) (UpdateStatefulPod set pod);
  InPlaceUpdateStatefulPod set pod spec :=
    logged (InPlaceCall pod spec) (InPlaceUpdateStatefulPod set pod spec);
  UpdateStatefulPodCondition set pod c :=
    logged (ConditionCall pod c) (UpdateStatefulPodCondition set pod c);
  DeleteStatefulPod set pod := logged (DeleteCall pod) (DeleteStatefulPod set pod);
|}.

#[export] Instance tracedRecorder {W C} `{Recorder W} : Recorder (W * list C) := {|
  Event o t reason msg w := (Event o t reason msg w.1, w.2);
|}.
#[export] Instance tracedClock {W C} `{Clock W} : Clock (W * list C) := {|
  Now w := let (t, w') := Now w.1 in (t, (w', w.2));
|}.

#[export] Instance tracedHistory {W} `{ControllerHistory W}
  : ControllerHistory (W * list HistoryCall) := {|
  ListControllerRevisions parent selector := unlogged (ListControllerRevisions parent selector);
  CreateControllerRevision parent r c :=
    logged (HistoryCreate r) (CreateControllerRevision parent r c);
  UpdateControllerRevision r n := logged (HistoryUpdate r n) (UpdateControllerRevision r n);
  DeleteControllerRevision r := logged (HistoryDelete r) (DeleteControllerRevision r);
  AdoptControllerRevision parent r := logged (HistoryAdopt r) (AdoptControllerRevision parent r);
  ReleaseControllerRevision parent r :=
    logged (HistoryRelease r) (ReleaseControllerRevision parent r);
|}.

Lemma holds_logged {W C A} (c : C) (m : M W A) w log (Q : Outcome A -> W * list C -> Prop) :
  (forall o w', m w = (o, w') -> Q o (w', log ++ [c])) -> holds (logged c m) (w, log) Q.
Proof. unfold holds, logged. destruct (m w) as [o w'] eqn:E. cbn. auto. Qed.

Lemma logged_inv {W C A} (c : C) (m : M W A) w log o w' log' :
  logged c m (w, log) = (o, (w', log')) -> m w = (o, w') /\ log' = log ++ [c].
Proof. unfold logged. destruct (m w). by intros [= <- <- <-]. Qed.

#[export] Instance tracedHistory_laws {W} `{ControllerHistoryLaws W} :
  ControllerHistoryLaws (W * list HistoryCall).
Proof.
  split.
  - intros parent r c [w log] res c' [w' log'] [E _]%logged_inv. by eapply created_data.
  - intros r n [w log] res [w' log'] [E _]%logged_inv. by eapply updated_data.
Qed.

#[export] Instance tracedPodControl_laws {W} `{StatefulPodControlLaws W} :
  StatefulPodControlLaws (W * list PodCall).
Proof.
  split.
  - intros set pod [w log] err pod' [w' log'] [E _]%logged_inv. by eapply create_podKey.
  - intros set pod c [w log] err pod' [w' log'] [E _]%logged_inv. by eapply condition_revision.
  - intros set pod c [w log] err pod' [w' log'] [E _]%logged_inv. by eapply condition_podKey.
  - intros set pod c [w log] err pod' [w' log'] [E _]%logged_inv. by eapply condition_status.
Qed.

(** ** Reasoning about the calls of a run *)

(** The pod a call is about. *)
Definition callPod (c : PodCall) : Pod :=
  match c with
  | CreateCall p | UpdateCall p | InPlaceCall p _ | ConditionCall p _ | DeleteCall p => p
  end.
