(* ===== verification/Revisions.v ===== *)
(** Revision history: how a set's template is captured as a ControllerRevision,
    which revision a reconcile works towards, the history the API server keeps, and
    its truncation ([controllers/stateful_set_utils.go] lines 286-369,
    [controllers/revision_control.go], and the revision half of
    [controllers/stateful_set_control.go], lines 135-258). *)

From S2P Require Import Prelude Objects GoString Libraries Cluster PodIdentity InPlace.
From S2P Require Import Interfaces Fixtures.

(** ** Library functions *)

(** [k8s.io/kubernetes/pkg/controller/history] and [metav1.GetControllerOf]. *)
Class HistoryLib := {
  SortControllerRevisions : list ControllerRevision -> list ControllerRevision;
  FindEqualRevisions : list ControllerRevision -> ControllerRevision -> list ControllerRevision;
  EqualRevision : ControllerRevision -> ControllerRevision -> bool;
  (** [NewControllerRevision(parent, parentKind, templateLabels, data, revision, collisionCount)] *)
  NewControllerRevision : ObjectMeta -> string -> string -> gmap string string -> string -> Z -> Z ->
    Result ControllerRevision;
  HashControllerRevision : ControllerRevision -> Z -> string;
  ControllerRevisionName : string -> string -> string;
  GetControllerOf : ObjectMeta -> option OwnerReference;
}.

(** Sorting keeps the revisions and orders them by [Revision]. An equal revision is one of those searched, and has the same
    data. A new revision carries the data and the number it is given. *)
Class HistoryLibLaws `{HistoryLib} := {
  sort_perm l : SortControllerRevisions l ≡ₚ l;
  sort_sorted l : StronglySorted (fun a b => Revision a <= Revision b) (SortControllerRevisions l);
  equal_in l r r' : r' ∈ FindEqualRevisions l r -> r' ∈ l /\ Data r' = Data r;
  equal_data a b : EqualRevision a b = true -> Data a = Data b;
  new_revision parent av kind lbls data n c cr :
    NewControllerRevision parent av kind lbls data n c = inr cr ->
    Data cr = data /\ Revision cr = n;
}.

(** [runtime.Encode(patchCodec, set)], [encoding/json] on [interface{}] values, and
    [strategicpatch.StrategicMergePatch]. *)
Class SetCodec := {
  encodeSet : StatefulSet -> Result string;
  (** [json.Unmarshal] into a [map[string]interface{}]; on an error the map stays nil *)
  unmarshalObject : string -> option (list (string * JSON));
  marshalJSON : JSON -> string;
  StrategicMergePatch : string -> string -> Result string;
  unmarshalSet : string -> option StatefulSet;
}.

Definition controllerKindAPIVersion : string := "nuwa.nip.io/v1".
Definition controllerKindKind : string := "StatefulSet".

(** ** Capturing and restoring a template *)

(** [m[k]] of a [map[string]interface{}]; the last of duplicate keys wins. *)
Definition field (k : string) (o : list (string * JSON)) : option JSON :=
  match list_find (fun kv => kv.1 = k) (reverse o) with
  | Some (_, kv) => Some kv.2
  | None => None
  end.
Definition setField (k : string) (v : JSON) (o : list (string * JSON)) : list (string * JSON) :=
  filter (fun kv => kv.1 <> k) o ++ [(k, v)].
(** [v.(map[string]interface{})] *)
Definition asObject (v : option JSON) : Outcome (list (string * JSON)) :=
  match v with Some (JObject o) => Ok o | _ => Panic TypeAssertion end.

Section Patch.
Context `{HistoryLib, SetCodec, MapRange}.

Definition getPatch (set : StatefulSet) : Outcome (Result string) :=
  match encodeSet set with
  | inl err => Ok (inl err)
  | inr str =>
      let raw := default [] (unmarshalObject str) in
      spec ← asObject (field "spec" raw);
      template ← asObject (field "template" spec);
      let template := setField "$patch" (JString "replace") template in
      let specCopy := [("template", JObject template)] in
      let objCopy := [("spec", JObject specCopy)] in
      Ok (inr (marshalJSON (JObject objCopy)))
  end.

Definition Match (ss : StatefulSet) (history : ControllerRevision) : Outcome (Result bool) :=
  patch ← getPatch ss;
  match patch with
  | inl err => Ok (inl err)
  | inr patch => Ok (inr (bool_decide (patch = Data history)))
  end.

Definition newRevision (set : StatefulSet) (revision : Z) (collisionCount : Z)
  : Outcome (Result ControllerRevision) :=
  patch ← getPatch set;
  match patch with
  | inl err => Ok (inl err)
  | inr patch =>
      match NewControllerRevision (set_meta set) controllerKindAPIVersion controllerKindKind
              (Labels (tpl_meta (Template (set_Spec set)))) patch revision collisionCount with
      | inl err => Ok (inl err)
      | inr cr =>
          (* the set's annotations are copied over the revision's *)
          Ok (inr (overRevMeta (fun m =>
            setAnnotations (Annotations (set_meta set) ∪ Annotations m) m) cr))
      end
  end.

Definition ApplyRevision (set : StatefulSet) (revision : ControllerRevision)
  : Outcome (Result StatefulSet) :=
  match encodeSet set with
  | inl _ => Panic ExplicitPanic
  | inr original =>
      match StrategicMergePatch original (Data revision) with
      | inl err => Ok (inl err)
      | inr patched =>
          match unmarshalSet patched with
          | None => Ok (inl (ErrMsg "unmarshal"))
          | Some restoredSet => Ok (inr restoredSet)
          end
      end
  end.

Definition nextRevision (revisions : list ControllerRevision) : Outcome Z :=
  let count := Z.of_nat (length revisions) in
  if decide (count <= 0) then Ok 1
  else r ← index revisions (count - 1); Ok (int64 (Revision r + 1)).
End Patch.

(** ** [realHistory] of [controllers/revision_control.go] *)

Section RealHistory.
Context {W : Type} `{HistoryLib, Client W ControllerRevision, Lister W ControllerRevision, Retry}.

Definition ownedOrOrphan (parent : ObjectMeta) (r : ControllerRevision) : bool :=
  match GetControllerOf (rev_meta r) with
  | None => true
  | Some ref => bool_decide (owner_UID ref = UID parent)
  end.

Definition realListControllerRevisions (parent : ObjectMeta) (selector : option LabelSelector)
  : M W (Result (list ControllerRevision)) :=
  crls ← call (List_ (Namespace parent) selector);
  match crls with
  | inl err => mret (inl err)
  | inr items =>
      mret (inr (filter (fun r => ownedOrOrphan parent r = true) items))
  end.

(** One turn of the loop: [Next] is [continue]. *)
Definition createAttempt (parent : ObjectMeta) (revision clone : ControllerRevision)
    (collisionCount : Z)
  : M W (Flow (ControllerRevision * Z) (Result ControllerRevision * Z)) :=
  let hash := HashControllerRevision revision collisionCount in
  let ns := Namespace parent in
  let clone := overRevMeta (fun m =>
    setNamespace ns (setName (ControllerRevisionName (Name parent) hash) m)) clone in
  res ← call (Create clone);
  let '(err, clone) := res in
  match err with
  | Some ErrAlreadyExists =>
      exists_ ← call (Get (mkKey ns (rev_Name clone)));
      match exists_ with
      | inl err => mret (Return (inl err, collisionCount))
      | inr found =>
          if decide (Data found = Data clone)
          then mret (Return (inr found, collisionCount))
          else mret (Next (clone, int32 (collisionCount + 1)))
      end
  | Some err => mret (Return (inl err, collisionCount))
  | None => mret (Return (inr clone, collisionCount))
  end.

(** The unbounded loop with fuel; [None] when it runs out. *)
Fixpoint createLoop (fuel : nat) (parent : ObjectMeta) (revision clone : ControllerRevision)
    (collisionCount : Z) : M W (option (Result ControllerRevision * Z)) :=
  match fuel with
  | O => mret None
  | S fuel =>
      f ← createAttempt parent revision clone collisionCount;
      match f with
      | Next (clone, collisionCount) => createLoop fuel parent revision clone collisionCount
      | Return r => mret (Some r)
      end
  end.

Definition realCreateControllerRevision (fuel : nat) (parent : ObjectMeta)
    (revision : ControllerRevision) (collisionCount : option Z)
  : M W (option (Result ControllerRevision * option Z)) :=
  match collisionCount with
  | None => mret (Some (inl (ErrMsg "collisionCount should not be nil"), None))
  | Some c =>
      r ← createLoop fuel parent revision revision c;
      mret ((fun '(res, c) => (res, Some c)) <$> r)
  end.

Definition realUpdateControllerRevision (revision : ControllerRevision) (newRevision : Z)
  : M W (Result ControllerRevision) :=
  res ← RetryOnConflict DefaultBackoff
    (fun clone =>
       if decide (Revision clone = newRevision) then mret (None, clone) else
       let clone := mkRevision (rev_meta clone) (Data clone) newRevision in
       u ← call (Update clone);
       (* the error of the update is dropped *)
       let '(_, clone) := u in mret (None, clone))
    revision;
  let '(err, clone) := res in
  match err with
  | Some e => mret (inl e)
  | None => mret (inr clone)
  end.

Definition realDeleteControllerRevision (revision : ControllerRevision) : M W (option Err) :=
  call (Delete revision).

Definition quote : string := String (ascii_of_nat 34) "".
Definition quoted (s : string) : string := quote +:+ s +:+ quote.

Definition adoptPatch (parent : ObjectMeta) (revision : ControllerRevision) : string :=
  "{" +:+ quoted "metadata" +:+ ":{" +:+ quoted "ownerReferences" +:+ ":[{"
  +:+ quoted "apiVersion" +:+ ":" +:+ quoted controllerKindAPIVersion
  +:+ "," +:+ quoted "kind" +:+ ":" +:+ quoted controllerKindKind
  +:+ "," +:+ quoted "name" +:+ ":" +:+ quoted (Name parent)
  +:+ "," +:+ quoted "uid" +:+ ":" +:+ quoted (UID parent)
  +:+ "," +:+ quoted "controller" +:+ ":true,"
  +:+ quoted "blockOwnerDeletion" +:+ ":true}],"
  +:+ quoted "uid" +:+ ":" +:+ quoted (UID (rev_meta revision)) +:+ "}}".

Definition realAdoptControllerRevision (parent : ObjectMeta) (revision : ControllerRevision)
  : M W (Result ControllerRevision) :=
  match GetControllerOf (rev_meta revision) with
  | Some owner =>
      mret (inl (ErrMsg ("attempt to adopt revision owned by " +:+ owner_Name owner)))
  | None =>
      res ← call (Patch revision (adoptPatch parent revision));
      let '(err, revision) := res in
      match err with
      | Some e => mret (inl e)
      | None => call (Get (mkKey (Namespace parent) (rev_Name revision)))
      end
  end.

Definition releasePatch (parent : ObjectMeta) (revision : ControllerRevision) : string :=
  "{" +:+ quoted "metadata" +:+ ":{" +:+ quoted "ownerReferences" +:+ ":[{"
  +:+ quoted "$patch" +:+ ":" +:+ quoted "delete" +:+ "," +:+ quoted "uid" +:+ ":"
  +:+ quoted (UID parent) +:+ "}]," +:+ quoted "uid" +:+ ":"
  +:+ quoted (UID (rev_meta revision)) +:+ "}}".

Definition realReleaseControllerRevision (parent : ObjectMeta) (revision : ControllerRevision)
  : M W (Result (option ControllerRevision)) :=
  res ← call (Patch revision (releasePatch parent revision));
  let '(err, revision) := res in
  if decide (err = Some ErrInvalid) then mret (inr None) else
  (* any other error of the patch is dropped *)
  released ← call (Get (mkKey (Namespace parent) (rev_Name revision)));
  match released with
  | inl ErrNotFound => mret (inr None)
  | inl e => mret (inl e)
  | inr r => mret (inr (Some r))
  end.
End RealHistory.

(** [realHistory] as the interface the control logic uses. The loop of
    [CreateControllerRevision] gets [fuel] turns; running out of them is marked by
    [OutOfFuel], which no Go program raises, so a theorem about a run that does not panic is
    about a run of the unbounded loop. *)
Definition realHistory {W} `{HistoryLib, Client W ControllerRevision, Lister W ControllerRevision,
    Retry} (fuel : nat) : ControllerHistory W := {|
  ListControllerRevisions := realListControllerRevisions;
  CreateControllerRevision parent revision collisionCount :=
    r ← realCreateControllerRevision fuel parent revision collisionCount;
    match r with Some x => mret x | None => lift (Panic OutOfFuel) end;
  UpdateControllerRevision := realUpdateControllerRevision;
  DeleteControllerRevision := realDeleteControllerRevision;
  AdoptControllerRevision := realAdoptControllerRevision;
  ReleaseControllerRevision := realReleaseControllerRevision;
|}.

(** ** The revision half of [defaultStatefulSetControl] *)

Section ControlRevisions.
Context {W : Type} `{HistoryLib, SetCodec, MapRange, SelectorLib, ControllerHistory W}.

Definition ListRevisions (set : StatefulSet) : M W (Result (list ControllerRevision)) :=
  match LabelSelectorAsSelector (Selector (set_Spec set)) with
  | Some err => mret (inl err)
  | None => ListControllerRevisions (set_meta set) (Selector (set_Spec set))
  end.

(** The revisions are replaced in the caller's slice as they are adopted. *)
Fixpoint AdoptOrphanRevisions (set : StatefulSet) (revisions : list ControllerRevision)
  : M W (option Err * list ControllerRevision) :=
  match revisions with
  | [] => mret (None, [])
  | r :: revisions' =>
      adopted ← AdoptControllerRevision (set_meta set) r;
      match adopted with
      | inl err => mret (Some err, r :: revisions')
      | inr r' =>
          rest ← AdoptOrphanRevisions set revisions';
          mret (rest.1, r' :: rest.2)
      end
  end.

(** The names of live revisions. *)
Definition liveRevisions (pods : list Pod) (current update : ControllerRevision) : gset string :=
  {[rev_Name current; rev_Name update]} ∪ list_to_set (getPodRevision <$> pods).

Definition truncateHistory (set : StatefulSet) (pods : list Pod)
    (revisions : list ControllerRevision) (current update : ControllerRevision)
  : M W (option Err) :=
  let live := liveRevisions pods current update in
  let history := filter (fun r => rev_Name r ∉ live) revisions in
  let historyLen := Z.of_nat (length history) in
  let historyLimit := RevisionHistoryLimit (set_Spec set) in
  if decide (historyLen <= historyLimit) then mret None
  else
  (* a negative limit reslices past the history, into the nil pointers of its backing array *)
  let spare := replicate (length revisions - length history) None in
  let keep := historyLen - historyLimit in
  if decide (Z.of_nat (length revisions) < keep) then lift (Panic IndexOutOfRange) else
  body (
    _ ← forLoop (fun p _ =>
          r ← lift (deref p);
          err ← DeleteControllerRevision r;
          match err with
          | Some e => mret (Return (Some e))
          | None => mret (Next tt)
          end) (take (Z.to_nat keep) ((Some <$> history) ++ spare)) tt : F W (option Err) unit;
    mret None).

(** The current and update revisions, the collision count, and the sorted slice. *)
Record SetRevisions := mkSetRevisions {
  currentRevision : ControllerRevision;
  updateRevision : ControllerRevision;
  collisions : Z;
}.

Definition findCurrent (name : string) (revisions : list ControllerRevision)
  : option ControllerRevision :=
  foldl (fun cur r => if decide (rev_Name r = name) then Some r else cur) None revisions.

(** Which revision the set updates to: the newest when it is equivalent, an older
    equivalent one renumbered, or a new one. *)
Definition chooseUpdateRevision (set : StatefulSet) (revisions : list ControllerRevision)
    (updateRevision : ControllerRevision) (collisionCount : Z)
  : M W (Result ControllerRevision * Z) :=
  let revisionCount := Z.of_nat (length revisions) in
  let equalRevisions := FindEqualRevisions revisions updateRevision in
  match reverse equalRevisions with
  | [] =>
      res ← CreateControllerRevision (set_meta set) updateRevision (Some collisionCount);
      let '(res, c) := res in mret (res, default collisionCount c)
  | lastEqual :: _ =>
      newest ← lift (index revisions (revisionCount - 1));
      if EqualRevision newest lastEqual then mret (inr newest, collisionCount)
      else
        res ← UpdateControllerRevision lastEqual (Revision updateRevision);
        mret (res, collisionCount)
  end.

Definition getStatefulSetRevisions (set : StatefulSet) (revisions : list ControllerRevision)
  : M W (Result SetRevisions * list ControllerRevision) :=
  let revisions := SortControllerRevisions revisions in
  let collisionCount := default 0 (CollisionCount (set_Status set)) in
  next ← lift (nextRevision revisions);
  fresh ← lift (newRevision set next collisionCount);
  match fresh with
  | inl err => mret (inl err, revisions)
  | inr fresh =>
      chosen ← chooseUpdateRevision set revisions fresh collisionCount;
      let '(res, collisionCount) := chosen in
      match res with
      | inl err => mret (inl err, revisions)
      | inr update =>
          let current :=
            default update (findCurrent (CurrentRevision (set_Status set)) revisions) in
          mret (inr (mkSetRevisions current update collisionCount), revisions)
      end
  end.
End ControlRevisions.

(** ** Concrete library functions

    A set is encoded as the image of its first container. *)

#[export] Instance fx_historyLib : HistoryLib := {|
  SortControllerRevisions l := goSort Revision l;
  FindEqualRevisions l r := filter (fun r' => Data r' = Data r) l;
  EqualRevision a b := bool_decide (Data a = Data b);
  NewControllerRevision parent av kind lbls data n c :=
    inr (mkRevision (setLabels lbls (metaNamed (Namespace parent)
                                       (Name parent +:+ "-" +:+ itoa c))) data n);
  HashControllerRevision r c := Data r +:+ "." +:+ itoa c;
  ControllerRevisionName prefix hash := prefix +:+ "-" +:+ hash;
  GetControllerOf m := head (filter (fun o => owner_Controller o = Some true) (OwnerReferences m));
|}.
#[export] Instance fx_historyLib_laws : HistoryLibLaws.
Proof.
  split; cbn.
  - intros l. apply merge_sort_Permutation.
  - intros l. apply (StronglySorted_merge_sort (keyLe Revision)).
  - by intros l r r' [? ?]%list_elem_of_filter.
  - by intros a b ?%bool_decide_eq_true.
  - by intros parent av kind lbls data n c cr [= <-].
Defined.

Definition fx_imageOf (o : list (string * JSON)) : string :=
  match o with
  | [("spec", JObject [("template", JObject (("image", JString image) :: _))])] => image
  | _ => ""
  end.

#[export] Instance fx_codec : SetCodec := {|
  encodeSet set :=
    match Containers (tpl_Spec (Template (set_Spec set))) with
    | c :: _ => inr (ctr_Image c)
    | [] => inl (ErrMsg "no container")
    end;
  unmarshalObject s :=
    Some [("spec", JObject [("template", JObject [("image", JString s)])])];
  marshalJSON v := match v with JObject o => fx_imageOf o | _ => "" end;
  StrategicMergePatch original patch := inr patch;
  unmarshalSet data := Some (fx_set 3 "" (fx_rolling 0 1));
|}.

#[export] Instance fx_revClient : Client (gmap ObjectKey ControllerRevision) ControllerRevision :=
  fx_client rev_meta.
#[export] Instance fx_revLaws : ClientLaws rev_meta Data := fx_client_laws rev_meta Data.
#[export] Instance fx_revLister : Lister (gmap ObjectKey ControllerRevision) ControllerRevision :=
  fx_lister rev_meta.
#[export] Instance fx_realHistory : ControllerHistory (gmap ObjectKey ControllerRevision) :=
  realHistory 10.

(** ** Lemmas *)

Lemma field_setField k v o : field k (setField k v o) = Some v.
Proof. unfold field, setField. rewrite reverse_snoc. cbn. by rewrite decide_True. Qed.

Lemma findCurrent_None name l : findCurrent name l = None -> forall r, r ∈ l -> rev_Name r <> name.
Proof.
  induction l as [|r' l IH] using rev_ind; [by intros _ r ?%not_elem_of_nil|].
  unfold findCurrent. rewrite foldl_app. cbn. case_decide as Hn; [done|].
  intros Hl r [Hr|Hr%list_elem_of_singleton]%elem_of_app; [by apply IH|by subst].
Qed.
Lemma findCurrent_Some name l r : findCurrent name l = Some r -> r ∈ l /\ rev_Name r = name.
Proof.
  induction l as [|r' l IH] using rev_ind; [done|].
  unfold findCurrent. rewrite foldl_app. cbn. case_decide as Hn.
  - intros [= ->]. split; [|done]. apply elem_of_app. right. by apply list_elem_of_singleton.
  - intros [? ?]%IH. split; [|done]. apply elem_of_app. auto.
Qed.

(** Deleting a list of revisions logs a prefix of it, all of it when no call fails. *)
Lemma deleteAll_logs {W} `{ControllerHistory W} (l : list ControllerRevision) w log :
  holds (body (
    _ ← forLoop (fun p (_ : unit) =>
          r ← lift (deref p);
          err ← DeleteControllerRevision r;
          match err with
          | Some e => mret (Return (Some e))
          | None => mret (Next tt)
          end) (Some <$> l) tt : F (W * list HistoryCall) (option Err) unit;
    mret None)) (w, log)
    (fun o w' => exists deleted, deleted `prefix_of` l
       /\ w'.2 = log ++ (HistoryDelete <$> deleted)
       /\ (o = Ok None -> deleted = l)).
Proof.
  apply holds_body, holds_fbind.
  eapply (holds_forLoop _ _ _ _ (fun done _ w' => exists ds, done = Some <$> ds /\ ds `prefix_of` l
    /\ w'.2 = log ++ (HistoryDelete <$> ds))).
  - exists []. split_and!; [done|apply prefix_nil|by rewrite app_nil_r].
  - intros done p todo [] w' Hl (ds & -> & Hpre & Hlog).
    assert (exists r, p = Some r /\ ds ++ [r] `prefix_of` l) as (r & -> & Hpre').
    { destruct Hpre as [k ->]. rewrite fmap_app in Hl. apply app_inv_head in Hl.
      destruct k as [|r k]; [done|]. injection Hl as <- _. exists r. split; [done|].
      exists k. by rewrite <-app_assoc. }
    destruct w' as [w' log']. cbn in Hlog. subst log'.
    apply holds_bind, holds_lift. cbn [deref]. apply holds_bind.
    apply (holds_logged (HistoryDelete r)). intros o w'' Hrun.
    assert (Hlog' : (log ++ (HistoryDelete <$> ds)) ++ [HistoryDelete r]
              = log ++ (HistoryDelete <$> (ds ++ [r]))) by (by rewrite fmap_app, app_assoc).
    destruct o as [[e|]|reason]; [apply holds_ret| apply holds_ret|];
      exists (ds ++ [r]); rewrite ?fmap_app; cbn; rewrite <-?app_assoc; split_and!; done.
  - intros [] w' (ds & Heq & Hpre & Hlog). apply holds_fret.
    exists ds. split_and!; [done|done|]. intros _. by apply (inj (fmap Some)) in Heq.
Qed.

Lemma elem_of_liveRevisions n pods current update :
  n ∈ liveRevisions pods current update <->
  n = rev_Name current \/ n = rev_Name update \/ exists pod, pod ∈ pods /\ n = getPodRevision pod.
Proof.
  unfold liveRevisions. rewrite !elem_of_union, !elem_of_singleton, elem_of_list_to_set,
    list_elem_of_fmap. naive_solver.
Qed.

Lemma nonneg_limit_slots (history : list ControllerRevision) spare n :
  0 <= n <= Z.of_nat (length history) ->
  take (Z.to_nat n) ((Some <$> history) ++ spare) = Some <$> take (Z.to_nat n) history.
Proof.
  intros Hn. rewrite take_app_le by (rewrite length_fmap; lia). by rewrite fmap_take.
Qed.

Lemma StronglySorted_app_le {A} (R : A -> A -> Prop) l1 l2 a b :
  StronglySorted R (l1 ++ l2) -> a ∈ l1 -> b ∈ l2 -> R a b.
Proof.
  induction l1 as [|x l1 IH]; [by intros _ ?%not_elem_of_nil|]. cbn.
  intros [Hs Hall]%StronglySorted_inv [->|Ha]%elem_of_cons Hb; [|by apply IH].
  rewrite list.Forall_forall in Hall. apply Hall, elem_of_app. auto.
Qed.

Lemma StronglySorted_filter {A} (R : A -> A -> Prop) (P : A -> Prop) `{forall x, Decision (P x)} l :
  StronglySorted R l -> StronglySorted R (filter P l).
Proof.
  induction 1 as [|x l Hs IH Hall]; [constructor|]. rewrite filter_cons. case_decide; [|done].
  constructor; [done|]. rewrite list.Forall_forall in *. intros y [_ Hy]%list_elem_of_filter. auto.
Qed.

Section CreateLoop.
Context {W : Type} `{HistoryLib, ClientLaws W ControllerRevision string rev_meta Data}.
Context (parent : ObjectMeta) (revision : ControllerRevision).

(** The key of the attempt at a collision count. *)
Definition attemptKey (c : Z) : ObjectKey :=
  mkKey (Namespace parent)
    (ControllerRevisionName (Name parent) (HashControllerRevision revision c)).

(** An attempt ends the loop, with a revision that carries the data asked for, or
    finds the name taken by other data and moves on to the next count. *)
Lemma createAttempt_spec clone c w :
  Data clone = Data revision ->
  holds (createAttempt parent revision clone c) w (fun o w' =>
    match o with
    | Ok (Return (res, _)) => forall r, res = inr r -> Data r = Data revision
    | Ok (Next (clone', c')) =>
        c' = int32 (c + 1) /\ Data clone' = Data revision /\ stored w' = stored w
        /\ is_Some (stored w !! attemptKey c)
    | Panic _ => False
    end).
Proof.
  intros Hdata. unfold createAttempt.
  apply holds_bind, holds_call. set (clone0 := overRevMeta _ clone).
  destruct (Create clone0 w) as [[err clone1] w1] eqn:E. cbn [fst snd].
  destruct err as [[]|]; try (apply holds_ret; by intros r [=]).
  - apply (create_exists (payload := Data)) in E as (Hx & -> & Hst).
    apply holds_bind, holds_call.
    destruct (Get _ w1) as [[err|found] w2] eqn:G; cbn [fst snd]; [apply holds_ret; by intros r [=]|].
    destruct (decide (Data found = Data clone0)) as [Hd|Hd]; apply holds_ret.
    + intros r [= <-]. rewrite Hd. exact Hdata.
    + split_and!; [done|exact Hdata| |exact Hx].
      rewrite <-Hst, <-(get_stored (payload := Data) (mkKey (Namespace parent) (rev_Name clone0)) w1).
      by rewrite G.
  - apply (create_done (payload := Data)) in E as (_ & Hp & _).
    apply holds_ret. intros r [= <-]. rewrite Hp. exact Hdata.
Qed.

(** The loop ends by the first count whose name is free. *)
Lemma createLoop_free k : forall clone c w,
  Data clone = Data revision ->
  stored w !! attemptKey (int32 (c + Z.of_nat k)) = None ->
  int32 c = c ->
  exists res c' w', createLoop (S k) parent revision clone c w = (Ok (Some (res, c')), w')
    /\ (forall r, res = inr r -> Data r = Data revision).
Proof.
  induction k as [|k IH]; intros clone c w Hdata Hfree Hc.
  all: pose proof (createAttempt_spec clone c w Hdata) as Ha; unfold holds in Ha.
  all: cbn [createLoop]; unfold mbind, M_bind.
  all: destruct (createAttempt parent revision clone c w) as [[[[clone' c']|[res c']]|] w'];
    cbn in Ha; try done.
  - destruct Ha as (_ & _ & _ & [x Hx]). rewrite Z.add_0_r, Hc, Hx in Hfree. done.
  - by eexists _, _, _.
  - destruct Ha as (-> & Hd & Hst & _). apply IH; [done| |apply int32_id, int32_range].
    rewrite Hst, int32_idemp_add, <-Hfree. do 3 f_equal. lia.
  - by eexists _, _, _.
Qed.
End CreateLoop.

(** What [realHistory] promises its client. *)
Lemma realHistory_laws {W} `{HistoryLib, Retry, !RetryLaws, Lister W ControllerRevision,
    ClientLaws W ControllerRevision string rev_meta Data} fuel :
  @ControllerHistoryLaws W (realHistory fuel).
Proof.
  split; cbn.
  - intros parent r c w res c' w'.
    unfold realCreateControllerRevision. destruct c as [c|]; [|by intros [=]].
    set (Q := fun (x : option (Result ControllerRevision * Z)) =>
                forall res c, x = Some (inr res, c) -> Data res = Data r).
    assert (Hloop : forall fuel clone c w, Data clone = Data r ->
              holds (createLoop fuel parent r clone c) w
                (fun o _ => match o with Ok x => Q x | Panic _ => True end)).
    { clear fuel w c w' res c'. induction fuel as [|fuel IH]; intros clone c w Hd; cbn [createLoop].
      { apply holds_ret. by intros res c' [=]. }
      apply holds_bind. eapply holds_mono; [by apply createAttempt_spec|].
      intros [[[clone' c']|[res c']]|] w'; [|intros Hres|done].
      - intros (_ & Hd' & _). by apply IH.
      - apply holds_ret. intros r' c'' [= -> ->]. by apply Hres. }
    specialize (Hloop fuel r c w eq_refl). unfold holds in Hloop.
    unfold mbind, M_bind. destruct (createLoop fuel parent r r c w) as [[[[x c'']|]|] w''];
      cbn; intros [=]; subst. by eapply Hloop.
  - intros r n w res w'. unfold realUpdateControllerRevision, mbind, M_bind.
    assert (Hrun : holds (RetryOnConflict DefaultBackoff (fun clone =>
         if decide (Revision clone = n) then mret (None, clone) else
         let clone := mkRevision (rev_meta clone) (Data clone) n in
         u ← call (Update clone); let '(_, clone) := u in mret (None, clone)) r) w
       (fun o _ => match o with Ok (_, c) => Data c = Data r | Panic _ => True end)).
    { apply holds_retry with (Inv := fun c (_ : W) => Data c = Data r); [done|].
      clear w. intros c w Hc. case_decide; [by apply holds_ret|].
      apply holds_bind, holds_call.
      destruct (Update _ w) as [[err c1] w1] eqn:E. cbn [fst snd].
      apply holds_ret. split; [|done].
      apply (update_payload (payload := Data)) in E. by rewrite E. }
    unfold holds in Hrun. unfold mbind, M_bind in Hrun.
    destruct (RetryOnConflict _ _ r w) as [[[[e|] c]|] w'']; cbn in *; intros [=]; by subst.
Qed.

(** The patch of a set is what its new revision carries. *)
Lemma newRevision_data `{HistoryLibLaws, SetCodec} set n c cr :
  newRevision set n c = Ok (inr cr) ->
  getPatch set = Ok (inr (Data cr)) /\ Revision cr = n.
Proof.
  unfold newRevision. destruct (getPatch set) as [[e|patch]|]; [done| |done].
  cbn. destruct (NewControllerRevision _ _ _ _ _ _ _) as [e|cr0] eqn:E; [done|].
  intros [= <-]. apply new_revision in E as [Hd Hn]. cbn. by rewrite Hd.
Qed.

Lemma Match_data `{HistoryLib, SetCodec} set r :
  getPatch set = Ok (inr (Data r)) -> Match set r = Ok (inr true).
Proof. intros Hp. unfold Match. rewrite Hp. cbn. by rewrite bool_decide_eq_true_2. Qed.

Lemma index_Some {A} (l : list A) i x : index l i = Ok x -> 0 <= i /\ l !! Z.to_nat i = Some x.
Proof.
  unfold index. case_decide; [|done]. destruct (l !! _) eqn:E; [|done]. by intros [= ->].
Qed.

(** The last of sorted revisions is the newest. *)
Lemma index_last revisions r :
  index revisions (Z.of_nat (length revisions) - 1) = Ok r ->
  StronglySorted (fun a b => Revision a <= Revision b) revisions ->
  list.last revisions = Some r /\ forall r', r' ∈ revisions -> Revision r' <= Revision r.
Proof.
  intros [_ Hr]%index_Some Hs. destruct revisions as [|newest l _] using rev_ind; [done|].
  rewrite length_app in Hr. cbn in Hr. replace (Z.to_nat _) with (length l) in Hr by lia.
  rewrite list_lookup_middle in Hr by done. injection Hr as <-. rewrite last_snoc. split; [done|].
  intros r' [Hr'|Hr'%list_elem_of_singleton]%elem_of_app; [|by subst].
  apply (StronglySorted_app_le (fun a b => Revision a <= Revision b) l [newest]); [done..|].
  by apply list_elem_of_singleton.
Qed.

Lemma nextRevision_above revisions n r :
  StronglySorted (fun a b => Revision a <= Revision b) revisions ->
  nextRevision revisions = Ok n ->
  (forall r, r ∈ revisions -> 0 <= Revision r < MaxInt64) ->
  r ∈ revisions -> Revision r < n.
Proof.
  intros Hs Hn Hb Hr. unfold nextRevision in Hn.
  destruct (decide _) as [Hle|Hgt]; [destruct revisions; [by apply not_elem_of_nil in Hr|cbn in Hle; lia]|].
  destruct (index revisions _) as [newest|] eqn:E; [|done]. injection Hn as <-.
  destruct (index_last _ _ E Hs) as [Hlast Hmax]. specialize (Hmax r Hr).
  apply last_Some_elem_of, Hb in Hlast.
  unfold int64, MaxInt64 in *. rewrite Z.mod_small; lia.
Qed.

(** ** Properties *)

(** C15: Truncating the history: revisions are deleted only if no pod carries them and
    they are neither the current nor the update revision, oldest first, and never
    below the limit; when no call fails exactly the excess is gone. *)
Theorem truncateHistory_deletes {W} `{ControllerHistory W} set pods revisions current update w log :
  0 <= RevisionHistoryLimit (set_Spec set) ->
  StronglySorted (fun a b => Revision a <= Revision b) revisions ->
  let history := filter (fun r => rev_Name r ∉ liveRevisions pods current update) revisions in
  let excess :=
    take (Z.to_nat (Z.of_nat (length history) - RevisionHistoryLimit (set_Spec set))) history in
  holds (truncateHistory set pods revisions current update) (w, log) (fun o w' =>
    exists deleted, deleted `prefix_of` excess
      /\ w'.2 = log ++ (HistoryDelete <$> deleted)
      /\ (o = Ok None -> deleted = excess)
      /\ forall r, r ∈ deleted ->
           r ∈ revisions /\ rev_Name r <> rev_Name current /\ rev_Name r <> rev_Name update
           /\ (forall pod, pod ∈ pods -> rev_Name r <> getPodRevision pod)
           /\ (forall r', r' ∈ history -> r' ∉ excess -> Revision r <= Revision r')).
Proof.
  intros Hlim Hs history excess.
  assert (Hdel : forall deleted, deleted `prefix_of` excess -> forall r, r ∈ deleted ->
           r ∈ revisions /\ rev_Name r <> rev_Name current /\ rev_Name r <> rev_Name update
           /\ (forall pod, pod ∈ pods -> rev_Name r <> getPodRevision pod)
           /\ (forall r', r' ∈ history -> r' ∉ excess -> Revision r <= Revision r')).
  { intros deleted [k Hk] r Hr.
    assert (Hre : r ∈ excess) by (rewrite Hk; apply elem_of_app; auto).
    assert (Hrh : r ∈ history).
    { apply elem_of_take in Hre as (i & Hi & _). by eapply list_elem_of_lookup_2. }
    pose proof Hrh as [Hlive Hrev]%list_elem_of_filter.
    rewrite elem_of_liveRevisions in Hlive. split_and!; [done|naive_solver..|].
    intros r' Hr' Hne. unfold excess in Hne, Hre. set (n := Z.to_nat _) in *.
    rewrite <-(take_drop n history), elem_of_app in Hr'. destruct Hr' as [Hr'|Hr']; [done|].
    refine (StronglySorted_app_le (fun a b => Revision a <= Revision b) _ _ _ _ _ Hre Hr'). rewrite take_drop.
    by apply StronglySorted_filter. }
  unfold truncateHistory. fold history. cbv zeta.
  case_decide as Hle.
  { apply holds_ret. exists []. split_and!; [apply prefix_nil|by rewrite app_nil_r| |].
    - intros _. unfold excess. by replace (Z.to_nat _) with 0%nat by lia.
    - by intros r ?%not_elem_of_nil. }
  assert (length history <= length revisions)%nat by apply length_filter.
  rewrite decide_False, nonneg_limit_slots by lia.
  eapply holds_mono; [apply (deleteAll_logs excess)|].
  intros o w' (deleted & Hpre & Hlog & Hall). exists deleted. split_and!; [done..|].
  by apply Hdel.
Qed.

(** C14: Creating a revision never spins: if the name of the [k]-th collision count is
    free, the unbounded loop stops within [k + 1] turns, and a revision it returns
    without error carries the data asked for, also when an existing one is reused. *)
Theorem CreateControllerRevision_terminates {W}
    `{HistoryLib, ClientLaws W ControllerRevision string rev_meta Data} parent revision c k w :
  - 2 ^ 31 <= c < 2 ^ 31 ->
  stored w !! attemptKey parent revision (int32 (c + Z.of_nat k)) = None ->
  exists res c' w',
    realCreateControllerRevision (S k) parent revision (Some c) w = (Ok (Some (res, Some c')), w')
    /\ (forall r, res = inr r -> Data r = Data revision).
Proof.
  intros Hc Hfree.
  destruct (createLoop_free parent revision k revision c w eq_refl Hfree (int32_id _ Hc))
    as (res & c' & w' & E & Hd).
  exists res, c', w'. split; [|exact Hd].
  unfold realCreateControllerRevision, mbind, M_bind. by rewrite E.
Qed.

(** Renumbering a revision never reports an error: a rejected update, a conflict
    included, is neither retried nor returned. *)
Theorem UpdateControllerRevision_swallows {W} `{HistoryLib, Retry, !RetryLaws,
    Client W ControllerRevision} revision number w :
  holds (realUpdateControllerRevision revision number) w (fun o _ =>
    exists r, o = Ok (inr r)).
Proof.
  unfold realUpdateControllerRevision. apply holds_bind.
  apply holds_retry with (Inv := fun _ _ => True); [done|].
  intros clone w' _. case_decide; [apply holds_ret; cbn; split; [by eexists|done]|].
  apply holds_bind, holds_call. destruct (Update _ w') as [[err c] w'']. cbn [fst snd].
  apply holds_ret. cbn. split; [by eexists|done].
Qed.

(** C13: The revision a reconcile works towards. Whatever branch is taken, the update
    revision records the set's present template; the current revision is the one
    the status names if it still exists, else the update revision. A new revision
    is written exactly when no recorded one is equivalent; if the last equivalent one
    equals the newest of all, that one is reused without a call, and otherwise it is
    renumbered past every revision. *)
Theorem getStatefulSetRevisions_spec {W} `{HistoryLibLaws, SetCodec, SelectorLib,
    ControllerHistoryLaws W} set revisions w log :
  (forall r, r ∈ revisions -> 0 <= Revision r < MaxInt64) ->
  holds (getStatefulSetRevisions set revisions) (w, log) (fun o w' =>
    match o with
    | Ok (inr rs, revisions') =>
        revisions' = SortControllerRevisions revisions
        /\ Match set (updateRevision rs) = Ok (inr true)
        /\ ((forall r, r ∈ revisions -> rev_Name r <> CurrentRevision (set_Status set))
              /\ currentRevision rs = updateRevision rs
            \/ currentRevision rs ∈ revisions
               /\ rev_Name (currentRevision rs) = CurrentRevision (set_Status set))
        /\ exists fresh, Match set fresh = Ok (inr true)
           /\ (forall r, r ∈ revisions -> Revision r < Revision fresh)
           /\ match list.last (FindEqualRevisions revisions' fresh), list.last revisions' with
              | Some equal, Some newest =>
                  (forall r, r ∈ revisions -> Revision r <= Revision newest)
                  /\ if EqualRevision newest equal then updateRevision rs = newest /\ w'.2 = log
                     else w'.2 = log ++ [HistoryUpdate equal (Revision fresh)]
              | Some _, None => False
              | None, _ => w'.2 = log ++ [HistoryCreate fresh]
              end
    | _ => True
    end).
Proof.
  intros Hb. unfold getStatefulSetRevisions. set (sorted := SortControllerRevisions revisions).
  assert (Hin : forall r, r ∈ sorted <-> r ∈ revisions) by (intros r; unfold sorted; by rewrite sort_perm).
  apply holds_bind, holds_lift. destruct (nextRevision sorted) as [n|] eqn:En; [|done].
  assert (Hn : forall r, r ∈ revisions -> Revision r < n).
  { intros r Hr. eapply nextRevision_above; [apply sort_sorted|exact En| |by apply Hin].
    intros r' Hr'. by apply Hb, Hin. }
  apply holds_bind, holds_lift. destruct (newRevision _ _ _) as [[e|fresh]|] eqn:Ef;
    [by apply holds_ret| |done].
  apply newRevision_data in Ef as [Hp <-].
  set (c := default 0 (CollisionCount (set_Status set))).
  assert (Hcur : forall upd, (forall r, r ∈ revisions -> rev_Name r <> CurrentRevision (set_Status set))
      /\ default upd (findCurrent (CurrentRevision (set_Status set)) sorted) = upd
    \/ default upd (findCurrent (CurrentRevision (set_Status set)) sorted) ∈ revisions
       /\ rev_Name (default upd (findCurrent (CurrentRevision (set_Status set)) sorted))
          = CurrentRevision (set_Status set)).
  { intros upd. destruct (findCurrent _ sorted) as [r|] eqn:E; cbn.
    - right. apply findCurrent_Some in E as [? ?]. by rewrite <-Hin.
    - left. split; [|done]. intros r Hr%Hin. by eapply findCurrent_None. }
  apply holds_bind. unfold chooseUpdateRevision.
  assert (Hfresh : Match set fresh = Ok (inr true)) by (by apply Match_data).
  destruct (reverse (FindEqualRevisions sorted fresh)) as [|lastEqual l] eqn:El.
  - apply (f_equal reverse) in El. rewrite reverse_involutive in El.
    apply holds_bind, (holds_logged (HistoryCreate fresh)). intros o w' E.
    destruct o as [[[e|upd] c']|]; [by apply holds_ret| |done].
    apply holds_ret, holds_ret. apply created_data in E.
    split_and!; [done|apply Match_data; cbn; by rewrite E|by apply Hcur|].
    exists fresh. split_and!; [done..|]. rewrite El. reflexivity.
  - assert (lastEqual ∈ FindEqualRevisions sorted fresh) as [Hle Hd]%equal_in.
    { rewrite <-elem_of_reverse, El. by left. }
    assert (Hlast : list.last (FindEqualRevisions sorted fresh) = Some lastEqual)
      by by rewrite <-head_reverse, El.
    apply holds_bind, holds_lift. destruct (index sorted _) as [newest|] eqn:Ei; [|done].
    destruct (index_last sorted newest Ei) as [Hnew Hmax]; [apply sort_sorted|].
    assert (Hmax' : forall r, r ∈ revisions -> Revision r <= Revision newest) by (intros r ?%Hin; auto).
    destruct (EqualRevision newest lastEqual) eqn:Eeq.
    + apply holds_ret, holds_ret. pose proof (equal_data _ _ Eeq) as Heq.
      split_and!; [done|apply Match_data; cbn; by rewrite Heq, Hd|by apply Hcur|].
      exists fresh. split_and!; [done..|]. by rewrite Hlast, Hnew, Eeq.
    + apply holds_bind, (holds_logged (HistoryUpdate lastEqual (Revision fresh))). intros o w' E.
      destruct o as [[e|upd]|]; [by apply holds_ret| |done].
      apply holds_ret, holds_ret. apply updated_data in E.
      split_and!; [done|apply Match_data; cbn; by rewrite E, Hd|by apply Hcur|].
      exists fresh. split_and!; [done..|]. by rewrite Hlast, Hnew, Eeq.
Qed.

#[export] Instance fx_realHistory_laws :
  ControllerHistoryLaws (gmap ObjectKey ControllerRevision).
Proof. apply realHistory_laws. Defined.

Lemma truncateHistory_deletes_witness :
  let r n := fx_revision ("web-" +:+ itoa n) "" n in
  let set := fx_set 3 "" (fx_rolling 0 1) in
  exists deleted, deleted `prefix_of` [r 1; r 2]
    /\ (truncateHistory set [fx_pod "default" "web-0" "web-3" "Running" true]
          [r 1; r 2; r 3; r 4; r 5; r 6; r 7]
          (r 6) (r 7) (∅ : gmap ObjectKey ControllerRevision, [])).2.2
        = HistoryDelete <$> deleted.
Proof.
  intros r set.
  destruct (truncateHistory_deletes set [fx_pod "default" "web-0" "web-3" "Running" true]
    [r 1; r 2; r 3; r 4; r 5; r 6; r 7] (r 6) (r 7) (∅ : gmap ObjectKey ControllerRevision) [])
    as (deleted & Hpre & Hlog & _ & _).
  - done.
  - repeat constructor; cbn; lia.
  - exists deleted. split; [exact Hpre|exact Hlog].
Defined.

Lemma CreateControllerRevision_terminates_witness :
  let taken := mkRevision (metaNamed "default" "web-nginx:2.0") "other" 1 in
  exists res c' w',
    realCreateControllerRevision 2 (metaNamed "default" "web") (fx_revision "" "nginx:2" 2) (Some 0)
      (<[mkKey "default" "web-nginx:2.0" := taken]> ∅ : gmap ObjectKey ControllerRevision)
    = (Ok (Some (res, Some c')), w').
Proof.
  intros taken.
  destruct (CreateControllerRevision_terminates (metaNamed "default" "web")
    (fx_revision "" "nginx:2" 2) 0 1
    (<[mkKey "default" "web-nginx:2.0" := taken]> ∅ : gmap ObjectKey ControllerRevision))
    as (res & c' & w' & E & _).
  - lia.
  - vm_compute. reflexivity.
  - exists res, c', w'. exact E.
Defined.

Lemma UpdateControllerRevision_swallows_witness :
  exists r, (realUpdateControllerRevision (fx_revision "web-1" "d" 1) 4
               (∅ : gmap ObjectKey ControllerRevision)).1 = Ok (inr r).
Proof.
  exact (UpdateControllerRevision_swallows (fx_revision "web-1" "d" 1) 4
           (∅ : gmap ObjectKey ControllerRevision)).
Defined.

Definition fx_oldRevisions : list ControllerRevision :=
  [fx_revision "web-a" "nginx:1" 1; fx_revision "web-b" "nginx:0" 2].
Definition fx_noRevisions : gmap ObjectKey ControllerRevision * list HistoryCall := (∅, []).

Lemma getStatefulSetRevisions_spec_witness :
  let m := getStatefulSetRevisions (fx_set 3 "" (fx_rolling 0 1)) fx_oldRevisions in
  holds m fx_noRevisions (fun o w' =>
    match o with
    | Ok (inr rs, _) =>
        Match (fx_set 3 "" (fx_rolling 0 1)) (updateRevision rs) = Ok (inr true)
    | _ => True
    end)
  /\ match (m fx_noRevisions).1 with Ok (inr _, _) => True | _ => False end.
Proof.
  split; [|vm_compute; exact I].
  eapply holds_mono; [apply (getStatefulSetRevisions_spec _ fx_oldRevisions ∅ [])|].
  - intros r. unfold fx_oldRevisions, MaxInt64. rewrite !elem_of_cons.
    intros [->|[->|[]%not_elem_of_nil]]; cbn; lia.
  - intros [[[e|rs] l]|] w'; [exact (fun _ => I)| |exact (fun _ => I)].
    intros (_ & Hm & _). exact Hm.
Defined.
