(* ===== verification/CapturedTemplates.v ===== *)
(** Captured templates: the documents in which the history keeps the template of a set
    ([getPatch] of [controllers/stateful_set_utils.go]), what the codec, the strategic
    merge patches and the JSON patches are documented to do with them, and why capturing a
    template, restoring it, and drawing up an in-place update between two of them do not
    panic. *)

From S2P Require Import Prelude Objects GoString Libraries Coordinate Fixtures PodIdentity.
From S2P Require Import InPlace.
From S2P Require Import Cluster Interfaces Revisions.

(** ** JSON pointers *)

(** A reference token of a pointer: [~] and [/] are escaped. *)
Fixpoint escape (w : string) : string :=
  match w with
  | EmptyString => EmptyString
  | String c w' =>
      if decide (c = "~"%char) then "~0" +:+ escape w'
      else if decide (c = "/"%char) then "~1" +:+ escape w'
      else String c (escape w')
  end.
Fixpoint pointer (ws : list string) : string :=
  match ws with
  | [] => ""
  | w :: ws' => "/" +:+ escape w +:+ pointer ws'
  end.

(** The value a pointer refers to. *)
Fixpoint valueAt (ws : list string) (v : JSON) : option JSON :=
  match ws with
  | [] => Some v
  | w :: ws' =>
      match v with
      | JObject o => field w o ≫= valueAt ws'
      | JArray l =>
          let i := decimal 0 w in
          if decide (0 <= i /\ w = itoa i) then l !! Z.to_nat i ≫= valueAt ws' else None
      | _ => None
      end
  end.
Definition isObject (v : option JSON) : Prop := exists o, v = Some (JObject o).

(** The document that replaces the template of a set. *)
Definition templatePatch (t : list (string * JSON)) : JSON :=
  JObject [("spec", JObject [("template", JObject t)])].
Definition replacing (t : list (string * JSON)) : list (string * JSON) :=
  setField "$patch" (JString "replace") t.

(** ** The libraries *)

(** [t] is the encoding of a pod template: read back out of a revision's data it is that
    template, the values its pointers to container images match are strings of containers,
    and its labels are an object. *)
Record encodesTemplate `{SetCodec, PatchLib} (t : list (string * JSON)) (tpl : PodTemplateSpec)
    : Prop := mkEncodes {
  encodes_reads : unmarshalTemplate (marshalJSON (templatePatch (replacing t))) = Some (Some tpl);
  encodes_images ws v : valueAt ws (JObject t) = Some v ->
    HasPrefix (pointer ws) "/spec/" = true -> matchImagePath (pointer ws) = true ->
    exists i k image, 0 <= i /\ ws = ["spec"; "containers"; itoa i; k] /\ v = JString image;
  encodes_labels : Labels (tpl_meta tpl) <> ∅ ->
    exists l, valueAt ["metadata"; "labels"] (JObject t) = Some (JObject l)
      /\ forall k, field k l = JString <$> Labels (tpl_meta tpl) !! k;
}.

(** A set that some document decodes to, as all sets the API server hands out are. *)
Definition representable `{SetCodec} (set : StatefulSet) : Prop :=
  exists doc, unmarshalSet doc = Some set.

Definition setTemplate (tpl : PodTemplateSpec) (s : StatefulSetSpec) : StatefulSetSpec :=
  mkStatefulSetSpec (spec_Replicas s) (Selector s) tpl (VolumeClaimTemplates s) (ServiceName s)
    (PodManagementPolicy s) (UpdateStrategy s) (RevisionHistoryLimit s).

(** A typed set encodes to an object with its template in it. A strategic merge patch that
    replaces the template may be refused; otherwise it restores the set with that
    template. *)
Class CodecLaws `{SetCodec, PatchLib} := {
  encoded_set set : representable set -> exists str raw spec t,
    encodeSet set = inr str /\ unmarshalObject str = Some raw
    /\ field "spec" raw = Some (JObject spec) /\ field "template" spec = Some (JObject t)
    /\ encodesTemplate t (Template (set_Spec set));
  merged_set set original t patched restored :
    representable set -> encodeSet set = inr original ->
    StrategicMergePatch original (marshalJSON (templatePatch (replacing t))) = inr patched ->
    unmarshalSet patched = Some restored ->
    set_meta restored = set_meta set
    /\ exists tpl, unmarshalTemplate (marshalJSON (templatePatch (replacing t))) = Some (Some tpl)
         /\ set_Spec restored = setTemplate tpl (set_Spec set);
}.

(** [CreatePatch] works its way down the objects both documents have, so an operation is
    about a place one of them has and not about an object in both; a replacement carries
    the value of the second document. Applying operations leaves alone a label of the pod
    that is not at or below the place of one of them. *)
Class PatchLaws `{SetCodec, PatchLib} := {
  patch_ops a b ops op :
    CreatePatch (marshalJSON a) (marshalJSON b) = inr ops -> op ∈ ops ->
    exists ws, Path op = pointer ws
      /\ (is_Some (valueAt ws a) \/ is_Some (valueAt ws b))
      /\ ~ (isObject (valueAt ws a) /\ isObject (valueAt ws b))
      /\ (Operation op = "replace" -> valueAt ws b = Some (Value op));
  patch_label ops pod pod' k v :
    applyPatches ops pod = inr pod' -> Labels (pod_meta pod) !! k = Some v ->
    (forall op, op ∈ ops -> exists ws, Path op = pointer ws
       /\ ~ ws `prefix_of` ["metadata"; "labels"; k]) ->
    Labels (pod_meta pod') !! k = Some v;
}.

(** ** Paths of container images *)

Lemma escape_digits s : all_digits s = true -> escape s = s.
Proof.
  induction s as [|c s IH]; [done|]. cbn [all_digits escape].
  intros [Hc Hs]%andb_true_iff. rewrite IH by done.
  case_decide as H1; [by subst|]. case_decide as H2; [by subst|done].
Qed.

Lemma Split_word a b sep :
  occurs sep a = false -> Split (a +:+ String sep b) sep = a :: Split b sep.
Proof.
  induction a as [|c a IH]; cbn [occurs]; intros Ha.
  { rewrite append_nil_l. cbn. by rewrite decide_True. }
  apply orb_false_iff in Ha as [Hc Ha]. rewrite append_cons. cbn [Split].
  rewrite decide_False by by apply bool_decide_eq_false in Hc. by rewrite IH.
Qed.

Lemma digits_no_slash s : all_digits s = true -> occurs "/"%char s = false.
Proof.
  induction s as [|c s IH]; [done|]. cbn [all_digits occurs].
  intros [Hc Hs]%andb_true_iff. rewrite IH by done. rewrite orb_false_r.
  apply bool_decide_eq_false. by intros ->.
Qed.

Lemma Atoi_digits s : all_digits s = true -> 0 <= Atoi s.
Proof.
  destruct s as [|c s]; [done|]. intros Hd. unfold Atoi.
  assert (is_digit c = true) as Hc by by cbn in Hd; apply andb_true_iff in Hd as [].
  rewrite decide_False by by intros ->. rewrite decide_False by by intros ->.
  pose proof (decimal_nonneg 0 (String c s) ltac:(lia) Hd). destruct (_ && _); lia.
Qed.

Lemma append_nil_r s : s +:+ "" = s.
Proof. induction s as [|c s IH]; [done|]. by rewrite append_cons, IH. Qed.

(** Third word of the path of a container's field: the container's index. *)
Lemma imagePath_index i k :
  0 <= i -> index (Split (pointer ["spec"; "containers"; itoa i; k]) "/") 3 = Ok (itoa i).
Proof.
  intros Hi. destruct (itoa_nonneg i Hi) as (Hd & _ & _).
  replace (pointer _) with ("" +:+ String "/" ("spec" +:+ String "/" ("containers" +:+ String "/"
    (itoa i +:+ String "/" (escape k))))).
  2: { cbn [pointer]. rewrite (escape_digits (itoa i)) by done. rewrite append_nil_r.
       by repeat (rewrite ?append_assoc; f_equal). }
  rewrite !Split_word by (done || by apply digits_no_slash). done.
Qed.

Lemma field_setField_ne k k' v o : k <> k' -> field k (setField k' v o) = field k o.
Proof.
  intros Hk. unfold field, setField. rewrite reverse_snoc. cbn. rewrite decide_False by done.
  cut (forall l, snd <$> (snd <$> list_find (fun kv : string * JSON => kv.1 = k)
                            (filter (fun kv => kv.1 <> k') l))
                 = snd <$> (snd <$> list_find (fun kv : string * JSON => kv.1 = k) l)).
  { intros Hl. specialize (Hl (reverse o)). rewrite <-filter_reverse.
    destruct (list_find _ (filter _ _)) as [[i kv]|], (list_find _ (reverse o)) as [[j kv']|];
      cbn in *; congruence. }
  induction l as [|kv l IH]; [done|]. rewrite filter_cons. case_decide as Hf; cbn; case_decide as He.
  - done.
  - revert IH. by destruct (list_find _ (filter _ _)) as [[]|], (list_find _ l) as [[]|].
  - by subst.
  - rewrite IH. by destruct (list_find _ l) as [[]|].
Qed.

(** ** Captured templates *)

(** A template one revision may keep: captured from a set the codec can represent, whose
    coordinates can be used. *)
Definition capturedFrom `{SetCodec, MapRange, Json Coordinates} (from : StatefulSet) (data : string)
    : Prop :=
  representable from /\ coordinatesUsable from /\ getPatch from = Ok (inr data).

(** Labels that an in-place update leaves on a pod: the template has some, and not the
    revision label, which is the controller's. *)
Definition labelled (set : StatefulSet) : Prop :=
  Labels (tpl_meta (Template (set_Spec set))) <> ∅
  /\ Labels (tpl_meta (Template (set_Spec set))) !! StatefulSetRevisionLabel = None.

(** An in-place update that leaves a pod its revision label. *)
Definition keepsRevision `{PatchLib} (spec : InPlaceUpdateSpec) : Prop :=
  forall pod pod', applyPatches (patches spec) pod = inr pod' ->
    getPodRevision pod <> "" -> getPodRevision pod' = getPodRevision pod.

Section Captured.
Context `{HistoryLib, SetCodec, PatchLib, !CodecLaws, !PatchLaws, MapRange, Json Coordinates}.
Context `{Json InPlaceUpdateState}.

Lemma getPatch_captured set :
  representable set -> exists t,
    getPatch set = Ok (inr (marshalJSON (templatePatch (replacing t))))
    /\ encodesTemplate t (Template (set_Spec set)).
Proof.
  intros Hr. destruct (encoded_set set Hr) as (str & raw & spec & t & He & Hu & Hs & Ht & Henc).
  exists t. split; [|done]. unfold getPatch. rewrite He, Hu. cbn -[field setField]. rewrite Hs. cbn -[field setField].
  by rewrite Ht.
Qed.

Lemma capturedFrom_doc from data :
  capturedFrom from data -> exists t, data = marshalJSON (templatePatch (replacing t))
    /\ encodesTemplate t (Template (set_Spec from)).
Proof.
  intros (Hr & _ & Hp). destruct (getPatch_captured from Hr) as (t & Hp' & Ht).
  exists t. split; [congruence|done].
Qed.

(** Restoring a captured template does not panic, and what is restored is the set with
    that template. *)
Lemma ApplyRevision_captured set rev from :
  representable set -> capturedFrom from (Data rev) ->
  exists r, ApplyRevision set rev = Ok r
    /\ forall s, r = inr s -> set_meta s = set_meta set
         /\ set_Spec s = setTemplate (Template (set_Spec from)) (set_Spec set).
Proof.
  intros Hr Hc. destruct (capturedFrom_doc from _ Hc) as (t & Hd & [Hreads _ _]).
  destruct (encoded_set set Hr) as (str & raw & spec & t' & He & _).
  unfold ApplyRevision. rewrite He, Hd.
  destruct (StrategicMergePatch _ _) as [e|patched] eqn:Em; [by eexists|].
  destruct (unmarshalSet patched) as [s|] eqn:Eu; [|by eexists].
  eexists. split; [done|]. intros s' [= <-].
  destruct (merged_set set str t patched s Hr He Em Eu) as (Hm & tpl & Ht & Hs).
  rewrite Hreads in Ht. injection Ht as <-. done.
Qed.

(** ** In-place updates between captured templates *)

(** What is known of an operation once it is rewritten for the pod: the place it is about
    is inside the template. *)
Lemma captured_op t t' ops op :
  CreatePatch (marshalJSON (templatePatch (replacing t)))
              (marshalJSON (templatePatch (replacing t'))) = inr ops -> op ∈ ops ->
  exists ws, ReplaceFirst (Path op) "/spec/template" "" = pointer ws
    /\ (is_Some (valueAt ws (JObject (replacing t))) \/ is_Some (valueAt ws (JObject (replacing t'))))
    /\ ~ (isObject (valueAt ws (JObject (replacing t))) /\ isObject (valueAt ws (JObject (replacing t'))))
    /\ (Operation op = "replace" -> valueAt ws (JObject (replacing t')) = Some (Value op)).
Proof.
  intros Hp Hop. destruct (patch_ops _ _ _ _ Hp Hop) as (ws & Hpath & Hin & Hobj & Hrep).
  assert (Hone : forall k k' v, k <> k' -> field k [(k', v)] = None).
  { intros k k' v Hk. unfold field. cbn. by rewrite decide_False. }
  assert (Hself : forall k v, field k [(k, v)] = Some v).
  { intros k v. unfold field. cbn. by rewrite decide_True. }
  destruct ws as [|w ws]; [destruct Hobj; split; by eexists|].
  unfold templatePatch in *. cbn [valueAt] in *.
  destruct (decide (w = "spec")) as [->|Hw].
  2: { rewrite !Hone in Hin by done. by destruct Hin as [[]|[]]. }
  rewrite !Hself in *. cbn [mbind option_bind] in *.
  destruct ws as [|w ws]; [destruct Hobj; split; by eexists|]. cbn [valueAt] in *.
  destruct (decide (w = "template")) as [->|Hw].
  2: { rewrite !Hone in Hin by done. by destruct Hin as [[]|[]]. }
  rewrite !Hself in *. cbn [mbind option_bind] in *.
  exists ws. split_and!; [|done..]. rewrite Hpath.
  replace (pointer _) with ("/spec/template" +:+ pointer ws) by done.
  assert (Hstrip := stripPrefix_app "/spec/template" (pointer ws)).
  revert Hstrip. generalize ("/spec/template" +:+ pointer ws). intros [|c s] Hs; [done|].
  cbn [ReplaceFirst]. by rewrite Hs.
Qed.

(** An operation between captured templates that names a container image can be applied. *)
Definition applicable (op : JsonPatchOperation) : Prop :=
  let path := ReplaceFirst (Path op) "/spec/template" "" in
  HasPrefix path "/spec/" = true -> Operation op = "replace" -> matchImagePath path = true ->
  exists i image, 0 <= i /\ index (Split path "/") 3 = Ok (itoa i) /\ Value op = JString image.

Lemma collectImages_total temp ops spec :
  (forall op, op ∈ ops -> applicable op) ->
  exists plan, collectImages temp ops spec = Ok plan
    /\ forall spec', plan = Some spec' ->
         patches spec' = patches spec
           ++ ((fun op => mkPatchOp (Operation op) (ReplaceFirst (Path op) "/spec/template" "") (Value op))
                 <$> ops).
Proof.
  revert spec. induction ops as [|op ops IH]; intros spec Happ; cbn [collectImages].
  { eexists. split; [done|]. intros spec' [= <-]. by rewrite app_nil_r. }
  assert (Hrest : forall spec0, patches spec0 = patches spec
      ++ [mkPatchOp (Operation op) (ReplaceFirst (Path op) "/spec/template" "") (Value op)] ->
    exists plan, collectImages temp ops spec0 = Ok plan
      /\ forall spec', plan = Some spec' ->
           patches spec' = patches spec
             ++ ((fun op => mkPatchOp (Operation op) (ReplaceFirst (Path op) "/spec/template" "")
                             (Value op)) <$> op :: ops)).
  { intros spec0 Hs0. destruct (IH spec0) as (plan & Hp & Hs).
    { intros op' Hop'. apply Happ. by right. }
    exists plan. split; [done|]. intros spec' Hspec. rewrite (Hs _ Hspec), Hs0, <-app_assoc. done. }
  specialize (Happ op ltac:(by left)). unfold applicable in Happ. cbn [Path Operation Value].
  destruct (HasPrefix _ _); cbn [negb]; [|by apply Hrest].
  case_decide as Hd; [by eexists|].
  apply Decidable.not_or in Hd as [Hrep%dec_stable Him%not_false_iff_true].
  destruct Happ as (i & image & Hi & Hw & Hv); [done..|].
  rewrite Hw. cbn [mbind Outcome_bind]. case_decide as Hl; [by eexists|].
  destruct (itoa_nonneg i Hi) as (Hdigits & _ & _). pose proof (Atoi_digits _ Hdigits) as Hpos.
  destruct (lookup_lt_is_Some_2 (Containers (tpl_Spec temp)) (Z.to_nat (Atoi (itoa i)))) as [c Hc];
    [lia|].
  unfold index. rewrite decide_True, Hc by lia. cbn [mbind Outcome_bind]. rewrite Hv. cbn [mbind Outcome_bind].
  apply Hrest. cbn. by rewrite Hv.
Qed.

Lemma valueAt_replacing w ws t :
  w <> "$patch" -> valueAt (w :: ws) (JObject (replacing t)) = valueAt (w :: ws) (JObject t).
Proof. intros Hw. cbn [valueAt]. unfold replacing. by rewrite field_setField_ne. Qed.

(** Operations between captured templates whose sets are labelled: each can be applied and
    none is above, or at, the revision label. *)
Lemma captured_ops from to data data' ops op :
  capturedFrom from data -> capturedFrom to data' -> labelled from -> labelled to ->
  CreatePatch data data' = inr ops -> op ∈ ops ->
  applicable op
  /\ exists ws, ReplaceFirst (Path op) "/spec/template" "" = pointer ws
       /\ ~ ws `prefix_of` ["metadata"; "labels"; StatefulSetRevisionLabel].
Proof.
  intros (t & -> & [_ _ Hl])%capturedFrom_doc (t' & -> & [_ Hi' Hl'])%capturedFrom_doc
    [Hne Hno] [Hne' Hno'] Hp Hop.
  destruct (captured_op _ _ _ _ Hp Hop) as (ws & Hpath & Hin & Hobj & Hrep). split.
  - unfold applicable. rewrite Hpath. intros Hspec Hr Him. specialize (Hrep Hr).
    destruct ws as [|w ws]; [done|]. rewrite valueAt_replacing in Hrep.
    2: { intros ->. vm_compute in Hspec. done. }
    destruct (Hi' _ _ Hrep Hspec Him) as (i & k & image & Hi0 & Hws & Hv). rewrite Hws.
    exists i, image. split_and!; [done| |done]. by apply imagePath_index.
  - exists ws. split; [done|]. intros Hpre.
    destruct (Hl Hne) as (l & Hat & Hf), (Hl' Hne') as (l' & Hat' & Hf').
    destruct ws as [|w ws]; [destruct Hobj; split; by eexists|].
    apply prefix_cons_inv_1 in Hpre as Hw. subst w. apply prefix_cons_inv_2 in Hpre.
    rewrite !valueAt_replacing in * by done. cbn [valueAt] in *.
    destruct (field "metadata" t) as [[| | | | |m]|]; try done.
    destruct (field "metadata" t') as [[| | | | |m']|]; try done. cbn in Hat, Hat', Hobj, Hin.
    destruct ws as [|w ws]; [destruct Hobj; split; by eexists|].
    apply prefix_cons_inv_1 in Hpre as Hw. subst w. apply prefix_cons_inv_2 in Hpre.
    cbn [valueAt] in *.
    destruct (field "labels" m) as [[| | | | |lb]|]; try done.
    destruct (field "labels" m') as [[| | | | |lb']|]; try done. cbn in Hat, Hat', Hobj, Hin.
    destruct ws as [|w ws]; [destruct Hobj; split; by eexists|].
    apply prefix_cons_inv_1 in Hpre as Hw. subst w. injection Hat as ->. injection Hat' as ->.
    cbn [valueAt] in *. rewrite Hf, Hf', Hno, Hno' in Hin. cbn in Hin. by destruct Hin as [[]|[]].
Qed.

Definition updatesInPlace (ru : RollingUpdateStatefulSetStrategy) : Prop :=
  PodUpdatePolicy ru = InPlaceIfPossiblePodUpdateStrategyType
  \/ PodUpdatePolicy ru = InPlaceOnlyPodUpdateStrategyType.

(** Drawing up an in-place update between captured templates does not panic, and the plan
    leaves a pod its revision label. *)
Lemma shouldDoInPlaceUpdate_captured set updRev name revisions us ru to :
  UpdateStrategy (set_Spec set) = Some us -> RollingUpdate us = Some ru ->
  capturedFrom to (Data updRev) -> (updatesInPlace ru -> labelled to) ->
  (forall r, r ∈ revisions -> exists from, capturedFrom from (Data r)
     /\ (updatesInPlace ru -> labelled from)) ->
  exists plan, shouldDoInPlaceUpdate set updRev name revisions = Ok plan
    /\ forall spec, plan = Some spec ->
         updatesInPlace ru /\ (exists r, r ∈ revisions /\ rev_Name r = name) /\ keepsRevision spec.
Proof.
  intros Hus Hru Hto Hlto Hrevs. unfold shouldDoInPlaceUpdate. rewrite Hus. cbn [deref mbind Outcome_bind].
  rewrite Hru. case_decide as Hpol; [by eexists|].
  assert (Hin : updatesInPlace ru).
  { unfold updatesInPlace.
    destruct (decide (PodUpdatePolicy ru = InPlaceIfPossiblePodUpdateStrategyType)),
      (decide (PodUpdatePolicy ru = InPlaceOnlyPodUpdateStrategyType)); tauto. }
  unfold findRevision. destruct (list_find _ revisions) as [[j old]|] eqn:Ef; cbn [fmap option_fmap option_map snd];
    [|by eexists].
  apply list_find_Some in Ef as (Hold%list_elem_of_lookup_2 & Hname & _).
  destruct (Hrevs old Hold) as (from & Hfrom & Hlfrom). specialize (Hlto Hin). specialize (Hlfrom Hin).
  destruct (CreatePatch _ _) as [e|ops] eqn:Ep; [by eexists|].
  destruct (capturedFrom_doc _ _ Hfrom) as (t & Hd & [Hreads _ _]). rewrite <-Hd in Hreads. rewrite Hreads.
  cbn [deref mbind Outcome_bind].
  pose proof (fun op => captured_ops _ _ _ _ ops op Hfrom Hto Hlfrom Hlto Ep) as Hops.
  destruct (collectImages_total (Template (set_Spec from)) ops (mkInPlaceSpec (rev_Name updRev) [] ∅))
    as (plan & -> & Hspec).
  { intros op Hop. by apply Hops. }
  exists plan. split; [done|]. intros spec ->. specialize (Hspec spec eq_refl). cbn in Hspec.
  split_and!; [done|by eexists|]. intros pod pod' Ha Hne. unfold getPodRevision, label in *.
  destruct (Labels (pod_meta pod) !! StatefulSetRevisionLabel) as [v|] eqn:Ev; [|done].
  erewrite patch_label; [done|exact Ha|exact Ev|].
  intros op Hop. rewrite Hspec in Hop. apply list_elem_of_fmap in Hop as (op' & -> & Hop').
  destruct (Hops op' Hop') as (_ & ws & Hws & Hpre). by exists ws.
Qed.
End Captured.

(** ** Concrete libraries

    A template is written as the image of its first container; the codec knows the sets
    that differ from one in that image, a merge patch replaces it, and a patch between two
    templates is one replacement of it. *)

Definition fx_templateWith (image : string) : PodTemplateSpec :=
  mkPodTemplate (tpl_meta fx_template) (setContainers [mkContainer "c" image ""] fx_podSpec).
Definition fx_setWith (image : string) : StatefulSet :=
  mkStatefulSet (set_meta fx_inPlaceSet) (setTemplate (fx_templateWith image) (set_Spec fx_inPlaceSet))
    (set_Status fx_inPlaceSet).
(** The encoding of a template. *)
Definition fx_encoded (image : string) : list (string * JSON) :=
  [("metadata", JObject [("labels", JObject [("app", JString "web")])]);
   ("spec", JObject [("containers", JArray [JObject [("image", JString image)]])])].
Definition fx_imagePointer : list string := ["spec"; "template"; "spec"; "containers"; "0"; "image"].

Definition fx_templateCodec : SetCodec := {|
  encodeSet set :=
    match Containers (tpl_Spec (Template (set_Spec set))) with
    | c :: _ => inr (ctr_Image c)
    | [] => inl (ErrMsg "no container")
    end;
  unmarshalObject s := Some [("spec", JObject [("template", JObject (fx_encoded s))])];
  marshalJSON v := match valueAt fx_imagePointer v with Some (JString s) => s | _ => "" end;
  StrategicMergePatch original patch := inr patch;
  unmarshalSet s := Some (fx_setWith s);
|}.
Definition fx_templatePatches : PatchLib := {|
  CreatePatch old new :=
    if decide (new = "") then inl (ErrMsg "no template")
    else inr (if decide (old = new) then []
              else [mkPatchOp "replace" "/spec/template/spec/containers/0/image" (JString new)]);
  unmarshalTemplate s := Some (Some (fx_templateWith s));
  applyPatches := applyPatches (PatchLib := fx_patch);
|}.

Lemma field_one k k' (v x : JSON) : field k [(k', v)] = Some x -> k = k' /\ x = v.
Proof. unfold field. cbn. case_decide; [|done]. by intros [= <-]. Qed.

(** The only path of an encoded template that names a container image. *)
Lemma fx_encoded_images image ws v :
  valueAt ws (JObject (fx_encoded image)) = Some v ->
  HasPrefix (pointer ws) "/spec/" = true -> matchImagePath (pointer ws) = true ->
  ws = ["spec"; "containers"; "0"; "image"] /\ v = JString image.
Proof.
  destruct ws as [|w ws]; [done|]. cbn [valueAt]. intros Hv.
  destruct (field w (fx_encoded image)) as [x|] eqn:Ef; [|done]. cbn in Hv.
  assert (w = "metadata" \/ w = "spec"
          /\ x = JObject [("containers", JArray [JObject [("image", JString image)]])]) as [->|[-> ->]].
  { unfold field, fx_encoded in Ef. cbn in Ef. repeat case_decide; naive_solver. }
  { done. }
  destruct ws as [|w ws]; [done|]. cbn [valueAt] in Hv.
  destruct (field w _) as [x|] eqn:Ef'; [|done]. apply field_one in Ef' as [-> ->]. cbn in Hv.
  destruct ws as [|w ws]; [done|]. cbn [valueAt] in Hv.
  case_decide as Hi; [|done]. destruct Hi as [Hi Hw].
  destruct (Z.to_nat (decimal 0 w)) as [|i] eqn:Ei; [|done]. cbn in Hv.
  replace (decimal 0 w) with 0 in Hw by lia. subst w.
  destruct ws as [|w ws]; [done|]. cbn [valueAt] in Hv.
  destruct (field w _) as [x|] eqn:Ef'; [|done]. apply field_one in Ef' as [-> ->]. cbn in Hv.
  destruct ws; [|done]. by injection Hv as <-.
Qed.

Lemma fx_codec_laws : @CodecLaws fx_templateCodec fx_templatePatches.
Proof.
  split.
  - intros set [doc [= <-]]. eexists doc, _, _, _. do 4 (split; [reflexivity|]). split.
    + reflexivity.
    + intros ws v Hv Hs Hm. destruct (fx_encoded_images _ _ _ Hv Hs Hm) as [-> ->].
      exists 0, "image", doc. done.
    + intros _. eexists. split; [reflexivity|]. intros k. cbn [Template setTemplate set_Spec fx_setWith
        fx_templateWith tpl_meta fx_template Labels setLabels].
      destruct (decide (k = "app")) as [->|Hk]; [reflexivity|]. rewrite lookup_insert_ne, lookup_empty by done.
      destruct (field k _) as [x|] eqn:Ef; [|done]. by apply field_one in Ef as [-> _].
  - intros set original t patched restored [doc [= <-]] _ [= <-] [= <-]. split; [done|].
    eexists. split; reflexivity.
Qed.

Lemma fx_patch_laws : @PatchLaws fx_templateCodec fx_templatePatches.
Proof.
  split.
  - intros a b ops op. cbn -[valueAt]. destruct (valueAt fx_imagePointer b) as [[| | |new| |]|] eqn:Eb; try done.
    case_decide; [done|]. intros [= <-]. case_decide; [by intros ?%not_elem_of_nil|].
    intros ->%list_elem_of_singleton. exists fx_imagePointer. rewrite Eb.
    split_and!; [done|right; by eexists| |done]. by intros [_ [o ?]].
  - intros ops pod pod' k v [= <-] Hk _. revert pod Hk.
    induction ops as [|op ops IH]; intros pod Hk; [done|]. cbn. apply IH. by destruct (Value op).
Qed.
