(* ===== verification/PodControl.v ===== *)
(** How the controller talks to the API server about pods, their claims and the
    status of a set: [controllers/stateful_pod_control.go] and
    [controllers/stateful_set_status_updater.go]. The operations are the instances
    the operator runs [Control] with. *)

From S2P Require Import Prelude Objects GoString Libraries Coordinate Naming Fixtures.
From S2P Require Import PodIdentity SetStatus InPlace Cluster CallLog Interfaces.

(** ** Library functions *)

(** [errorutils.NewAggregate]: nil for no errors. *)
Class Aggregate := { NewAggregate : list Err -> option Err }.
Class AggregateLaws `{Aggregate} := {
  aggregate_nil es : NewAggregate es = None <-> es = [];
}.

(** ** Events *)

Definition upperChar (c : ascii) : ascii :=
  let n := nat_of_ascii c in
  if decide (97 <= n <= 122)%nat then ascii_of_nat (n - 32) else c.
(** Letters, digits and the underscore are part of a word. *)
Definition isSeparator (c : ascii) : bool :=
  let n := Z.of_nat (nat_of_ascii c) in
  negb (bool_decide (48 <= n <= 57) || bool_decide (65 <= n <= 90)
        || bool_decide (97 <= n <= 122) || bool_decide (n = 95)).
(** [strings.Title] of ASCII text: the first letter of every word in upper case. *)
Fixpoint titleFrom (prev : ascii) (s : string) : string :=
  match s with
  | EmptyString => EmptyString
  | String c s' => String (if isSeparator prev then upperChar c else c) (titleFrom c s')
  end.
Definition Title (s : string) : string := titleFrom " "%char s.

Section PodControl.
Context {W : Type} `{KubeLib, MapRange, Json Coordinates, PatchLib, Json InPlaceUpdateState}.
Context `{Client W Pod, Client W PersistentVolumeClaimT, Retry, Aggregate, ErrorText}.
Context `{Recorder W, Clock W}.

Definition recordEvent (meta : ObjectMeta) (eventtype reason message : string) : M W unit :=
  call (fun w => (tt, Event meta eventtype reason message w)).

Definition recordPodEvent (verb : string) (set : StatefulSet) (pod : Pod) (err : option Err)
  : M W unit :=
  match err with
  | None =>
      recordEvent (set_meta set) EventTypeNormal ("Successful" +:+ Title verb)
        (ToLower verb +:+ " Pod " +:+ Name (pod_meta pod) +:+ " in StatefulSet "
         +:+ Name (set_meta set) +:+ " successful")
  | Some e =>
      recordEvent (set_meta set) EventTypeWarning ("Failed" +:+ Title verb)
        (ToLower verb +:+ " Pod " +:+ Name (pod_meta pod) +:+ " in StatefulSet "
         +:+ Name (set_meta set) +:+ " failed error: " +:+ errorText e)
  end.

Definition recordClaimEvent (verb : string) (set : StatefulSet) (pod : Pod)
    (claim : PersistentVolumeClaimT) (err : option Err) : M W unit :=
  match err with
  | None =>
      recordEvent (set_meta set) EventTypeNormal ("Successful" +:+ Title verb)
        (ToLower verb +:+ " Claim " +:+ Name (pvc_meta claim) +:+ " Pod " +:+ Name (pod_meta pod)
         +:+ " in StatefulSet " +:+ Name (set_meta set) +:+ " success")
  | Some e =>
      recordEvent (set_meta set) EventTypeWarning ("Failed" +:+ Title verb)
        (ToLower verb +:+ " Claim " +:+ Name (pvc_meta claim) +:+ " for Pod "
         +:+ Name (pod_meta pod) +:+ " in StatefulSet " +:+ Name (set_meta set)
         +:+ " failed error: " +:+ errorText e)
  end.

(** ** Claims *)

(** The body of the loop over the claims; [errs] are the errors so far. *)
Definition ensureClaim (set : StatefulSet) (pod : Pod) (claim : PersistentVolumeClaimT)
    (errs : list Err) : M W (list Err) :=
  got ← call (Get (A := PersistentVolumeClaimT) (keyOf (pvc_meta claim)));
  match got with
  | inr _ => mret errs
  | inl err =>
      if IsNotFound err then
        res ← call (Create claim);
        let '(err, claim) := res in
        let errs := match err with
                    | None => errs
                    | Some e => errs ++ [ErrMsg ("Failed to create PVC " +:+ Name (pvc_meta claim)
                                                 +:+ ": " +:+ errorText e)]
                    end in
        match err with
        | Some ErrAlreadyExists => mret errs
        | _ => _ ← recordClaimEvent "create" set pod claim err; mret errs
        end
      else
        _ ← recordClaimEvent "create" set pod claim (Some err);
        mret (errs ++ [ErrMsg ("Failed to retrieve PVC " +:+ Name (pvc_meta claim)
                               +:+ ": " +:+ errorText err)])
  end.

Definition createPersistentVolumeClaims (set : StatefulSet) (pod : Pod) : M W (option Err) :=
  claims ← lift (getPersistentVolumeClaims set pod);
  errs ← forEach (fun '(_, claim) => ensureClaim set pod claim) (mapRange claims) [];
  mret (NewAggregate errs).

(** ** Pods *)

Definition realCreateStatefulPod (set : StatefulSet) (pod : Pod) : M W (option Err * Pod) :=
  err ← createPersistentVolumeClaims set pod;
  match err with
  | Some e => _ ← recordPodEvent "create" set pod (Some e); mret (Some e, pod)
  | None =>
      res ← call (Create pod);
      let '(err, pod) := res in
      match err with
      | Some ErrAlreadyExists => mret (err, pod)
      | _ => _ ← recordPodEvent "create" set pod err; mret (err, pod)
      end
  end.

(** The variables of the closure in [UpdateStatefulPod]: the caller's pod, the copy
    [pod] was moved to if any, and [attemptedUpdate]. *)
Record PodVars := mkPodVars {
  callerPod : Pod;
  ownCopy : option Pod;
  attempted : bool;
}.
(** [*pod] *)
Definition thePod (v : PodVars) : Pod := default (callerPod v) (ownCopy v).
(** [*pod = p] *)
Definition storePod (p : Pod) (v : PodVars) : PodVars :=
  match ownCopy v with
  | None => mkPodVars p None (attempted v)
  | Some _ => mkPodVars (callerPod v) (Some p) (attempted v)
  end.
(** [pod = p.DeepCopy()] *)
Definition movePod (p : Pod) (v : PodVars) : PodVars :=
  mkPodVars (callerPod v) (Some p) (attempted v).
Definition markAttempted (v : PodVars) : PodVars := mkPodVars (callerPod v) (ownCopy v) true.

(** Bring the pod's storage in line, creating missing claims. *)
Definition enforceStorage (set : StatefulSet) (v : PodVars) (consistent : bool)
  : F W (option Err * PodVars) (PodVars * bool) :=
  if storageMatches set (thePod v) then mret (v, consistent)
  else
    pod ← run (lift (updateStorage set (thePod v)));
    let v := storePod pod v in
    err ← run (createPersistentVolumeClaims set (thePod v));
    match err with
    | Some e =>
        _ ← run (recordPodEvent "update" set (thePod v) (Some e));
        return_ (Some e, v)
    | None => mret (v, false)
    end.

Definition updatePodAttempt (set : StatefulSet) (v : PodVars) : M W (option Err * PodVars) :=
  let '(v, consistent) :=
    if identityMatches set (thePod v) then (v, true)
    else (storePod (updateIdentity set (thePod v)) v, false) in
  body (
    x ← enforceStorage set v consistent;
    let '(v, consistent) := x in
    if consistent : bool then mret (None, v)
    else
      let v := markAttempted v in
      res ← run (call (Update (thePod v)));
      let '(updateErr, pod) := res in
      let v := storePod pod v in
      match updateErr with
      | None => mret (None, v)
      | Some e =>
          got ← run (call (Get (mkKey (Namespace (set_meta set)) (Name (pod_meta (thePod v))))));
          match got with
          | inr updated => mret (Some e, movePod updated v)
          | inl _ => mret (Some e, v)
          end
      end).

Definition realUpdateStatefulPod (set : StatefulSet) (pod : Pod) : M W (option Err * Pod) :=
  res ← RetryOnConflict DefaultBackoff (updatePodAttempt set) (mkPodVars pod None false);
  let '(err, v) := res in
  _ ← (if attempted v then recordPodEvent "update" set (thePod v) err else mret tt);
  mret (err, callerPod v).

(** [pod] is only moved, never written through. *)
Definition inPlaceAttempt (spec : InPlaceUpdateSpec) (pod : Pod) : M W (option Err * Pod) :=
  now ← call Now;
  updated ← lift (podInPlaceUpdate now pod spec);
  match updated with
  | inl err => mret (Some err, pod)
  | inr updated =>
      res ← call (Update updated);
      match res.1 with
      | Some err =>
          got ← call (Get (keyOf (pod_meta pod)));
          match got with
          | inl gotErr => mret (Some gotErr, pod)
          | inr updated => mret (Some err, updated)
          end
      | None => mret (None, pod)
      end
  end.

Definition realInPlaceUpdateStatefulPod (set : StatefulSet) (pod : Pod) (spec : InPlaceUpdateSpec)
  : M W (option Err) :=
  res ← RetryOnConflict DefaultBackoff (inPlaceAttempt spec) pod;
  let '(updateErr, pod) := res in
  _ ← recordPodEvent "InPlaceUpdate" set pod updateErr;
  mret updateErr.

Definition conditionAttempt (condition : PodCondition) (v : PodVars) : M W (option Err * PodVars) :=
  let v := storePod (updatePodCondition (thePod v) condition) v in
  res ← call (StatusUpdate (thePod v));
  let '(err, pod) := res in
  let v := storePod pod v in
  match err with
  | Some e =>
      got ← call (Get (keyOf (pod_meta (thePod v))));
      match got with
      | inl gotErr => mret (Some gotErr, v)
      | inr updated => mret (Some e, movePod updated v)
      end
  | None => mret (None, v)
  end.

Definition realUpdateStatefulPodCondition (set : StatefulSet) (pod : Pod)
    (condition : PodCondition) : M W (option Err * Pod) :=
  res ← RetryOnConflict DefaultRetry (conditionAttempt condition) (mkPodVars pod None false);
  let '(updateErr, v) := res in
  _ ← recordPodEvent "UpdateCondition" set (thePod v) updateErr;
  mret (updateErr, callerPod v).

Definition realDeleteStatefulPod (set : StatefulSet) (pod : Pod) : M W (option Err) :=
  err ← call (Delete pod);
  _ ← recordPodEvent "delete" set pod err;
  mret err.

#[export] Instance realStatefulPodControl : StatefulPodControl W := {|
  CreateStatefulPod := realCreateStatefulPod;
  UpdateStatefulPod := realUpdateStatefulPod;
  InPlaceUpdateStatefulPod := realInPlaceUpdateStatefulPod;
  UpdateStatefulPodCondition := realUpdateStatefulPodCondition;
  DeleteStatefulPod := realDeleteStatefulPod;
|}.
End PodControl.

(** ** The status of a set *)

Section StatusUpdater.
Context {W : Type} `{Client W StatefulSet, Retry}.

Definition statusAttempt (status : StatefulSetStatus) (set : StatefulSet)
  : M W (option Err * StatefulSet) :=
  let set := setStatus status set in
  res ← call (StatusUpdate set);
  let '(updateErr, set) := res in
  match updateErr with
  | Some e => mret (Some e, set)
  | None =>
      got ← call (Get (keyOf (set_meta set)));
      match got with
      | inr updated => mret (None, updated)
      | inl _ => mret (None, set)
      end
  end.

Definition realUpdateStatefulSetStatus (set : StatefulSet) (status : StatefulSetStatus)
  : M W (option Err) :=
  res ← RetryOnConflict DefaultRetry (statusAttempt status) set;
  mret res.1.

#[export] Instance realStatefulSetStatusUpdater : StatusUpdater W := {|
  UpdateStatefulSetStatus := realUpdateStatefulSetStatus;
|}.
End StatusUpdater.

(** ** The calls of the operations *)

Inductive ApiCall :=
  | PodCallX (r : Request Pod) (err : option Err)
  | ClaimCallX (r : Request PersistentVolumeClaimT) (err : option Err)
  | SetCallX (r : Request StatefulSet) (err : option Err).
#[export] Instance tracedPod : Traced Pod ApiCall := PodCallX.
#[export] Instance tracedClaim : Traced PersistentVolumeClaimT ApiCall := ClaimCallX.
#[export] Instance tracedSet : Traced StatefulSet ApiCall := SetCallX.

#[export] Instance updateX_inj :
  Inj2 (=) (=) (=) (fun p err => PodCallX (UpdateRequest p) err).
Proof. by intros p err p' err' [= -> ->]. Qed.
#[export] Instance statusX_inj :
  Inj2 (=) (=) (=) (fun p err => PodCallX (StatusRequest p) err).
Proof. by intros p err p' err' [= -> ->]. Qed.

(** The claim [key] was seen on the server or created. *)
Definition claimPresent (cs : list ApiCall) (key : ObjectKey) : Prop :=
  ClaimCallX (GetRequest key) None ∈ cs
  \/ exists claim, keyOf (pvc_meta claim) = key /\ ClaimCallX (CreateRequest claim) None ∈ cs.
(** A call about a claim. *)
Definition onClaim (c : ApiCall) : Prop := match c with ClaimCallX _ _ => True | _ => False end.

(** The key of the claim a template stands for, for the pod of [ordinal]. *)
Definition claimKey (set : StatefulSet) (ordinal : Z) (t : PersistentVolumeClaimT) : ObjectKey :=
  mkKey (Namespace (set_meta set)) (getPersistentVolumeClaimName set t ordinal).

Lemma claimPresent_mono cs cs' key : cs ⊆ cs' -> claimPresent cs key -> claimPresent cs' key.
Proof. intros Hsub [?|(c & ? & ?)]; [left|right]; set_solver. Qed.

(** The claims asked for are keyed by the templates' names, and carry the keys their
    templates stand for. *)
Lemma claimsFrom_keys set ordinal ts acc m :
  claimsFrom set ordinal ts acc = Ok m ->
  forall t, t ∈ ts -> exists claim, m !! Name (pvc_meta t) = Some claim
    /\ keyOf (pvc_meta claim) = claimKey set ordinal t.
Proof.
  revert acc. induction ts as [|t ts IH]; intros acc; cbn; [by intros _ t ?%not_elem_of_nil|].
  destruct (Selector (set_Spec set)) as [sel|] eqn:Hsel; [|done].
  cbn [deref mbind Outcome_bind]. intros Hm t' [->|Ht]%elem_of_cons; [|by eapply IH].
  clear IH. revert Hm. set (claim := mkClaim _ _).
  assert (Hacc : (<[Name (pvc_meta t) := claim]> acc) !! Name (pvc_meta t) = Some claim)
    by apply lookup_insert_eq.
  assert (Hkey : keyOf (pvc_meta claim) = claimKey set ordinal t) by reflexivity.
  revert Hacc Hkey. generalize claim, (<[Name (pvc_meta t) := claim]> acc). clear acc claim.
  induction ts as [|u ts IH]; intros claim acc Hacc Hkey; cbn; [intros [= <-]; eauto|].
  rewrite Hsel. cbn [deref mbind Outcome_bind].
  destruct (decide (Name (pvc_meta u) = Name (pvc_meta t))) as [E|E].
  - eapply IH; [by rewrite E, lookup_insert_eq|].
    unfold claimKey, getPersistentVolumeClaimName, keyOf. cbn. by rewrite E.
  - apply (IH claim); [by rewrite lookup_insert_ne|done].
Qed.

Section Logged.
Context {W : Type} `{KubeLib, MapRange, Json Coordinates, PatchLib, Json InPlaceUpdateState}.
Context `{Client W Pod, Client W PersistentVolumeClaimT, RetryLaws, AggregateLaws, ErrorText}.
Context `{Recorder W, Clock W}.
Notation T := (W * list ApiCall)%type.

Lemma emits_event meta ty reason msg (Q : Outcome unit -> list ApiCall -> Prop) :
  Q (Ok tt) [] -> emits (State := T) (recordEvent meta ty reason msg) Q.
Proof. intros HQ. by apply emits_quiet; [|intros []]. Qed.

Lemma emits_podEvent verb set pod err (Q : Outcome unit -> list ApiCall -> Prop) :
  Q (Ok tt) [] -> emits (State := T) (recordPodEvent verb set pod err) Q.
Proof. intros HQ. destruct err; by apply emits_event. Qed.

Lemma emits_claimEvent verb set pod claim err (Q : Outcome unit -> list ApiCall -> Prop) :
  Q (Ok tt) [] -> emits (State := T) (recordClaimEvent verb set pod claim err) Q.
Proof. intros HQ. destruct err; by apply emits_event. Qed.

Lemma ensureClaim_emits set pod claim errs :
  emits (State := T) (ensureClaim set pod claim errs) (fun o cs =>
    Forall onClaim cs /\ exists errs', o = Ok (errs ++ errs')
    /\ (errs' = [] -> claimPresent cs (keyOf (pvc_meta claim)))).
Proof.
  unfold ensureClaim. apply emits_bind, emits_Get. intros [e|found]; cbn [errorOf].
  2: { apply emits_ret. split; [by repeat constructor|]. exists []. rewrite app_nil_r.
       split; [done|]. intros _. left. by apply list_elem_of_singleton. }
  destruct (IsNotFound e).
  - apply emits_bind, emits_inOut. intros err claim' _ _ _.
    assert (Hend : forall r errs0, r = errs ++ errs0 -> (err <> None -> errs0 <> []) ->
      Forall onClaim [ClaimCallX (GetRequest (keyOf (pvc_meta claim))) (Some e);
                      ClaimCallX (CreateRequest claim) err]
      /\ exists errs', Ok r = Ok (errs ++ errs')
         /\ (errs' = [] -> claimPresent
               [ClaimCallX (GetRequest (keyOf (pvc_meta claim))) (Some e);
                ClaimCallX (CreateRequest claim) err] (keyOf (pvc_meta claim)))).
    { intros r errs0 -> Hne. split; [by repeat constructor|]. exists errs0. split; [done|].
      intros ->. destruct err; [by destruct Hne|]. right. exists claim. split; [done|].
      set_solver. }
    destruct err as [[]|];
      try (apply emits_bind, emits_claimEvent); apply emits_ret; try by eapply Hend.
    by apply (Hend errs []); [rewrite app_nil_r|].
  - apply emits_bind, emits_claimEvent, emits_ret. split; [by repeat constructor|].
    eexists. by split.
Qed.

(** Without an error every claim of the pod is there. *)
Lemma createClaims_emits set pod :
  emits (State := T) (createPersistentVolumeClaims set pod) (fun o cs =>
    Forall onClaim cs
    /\ (o = Ok None -> forall t, t ∈ VolumeClaimTemplates (set_Spec set) ->
          claimPresent cs (claimKey set (getOrdinal pod) t))).
Proof.
  unfold createPersistentVolumeClaims. apply emits_bind, emits_lift.
  destruct (getPersistentVolumeClaims set pod) as [claims|] eqn:E; [|by split].
  apply emits_bind. cbn [app].
  apply (emits_forEach _ _ _ (fun done errs cs => Forall onClaim cs
    /\ (errs = [] -> forall kc, kc ∈ done -> claimPresent cs (keyOf (pvc_meta kc.2))))).
  - split; [done|]. by intros _ kc ?%not_elem_of_nil.
  - intros done [k claim] todo errs cs _ [Hcs Hdone].
    eapply emits_mono; [apply ensureClaim_emits|]. intros o cs' (Hcs' & errs' & -> & Hc).
    cbn. split; [by apply Forall_app|]. intros [-> ->]%app_nil kc.
    rewrite elem_of_app, list_elem_of_singleton. intros [Hkc| ->].
    + eapply claimPresent_mono; [|by apply Hdone]. set_solver.
    + eapply claimPresent_mono; [|by apply Hc]. set_solver.
  - intros errs cs [Hcs Hall]. apply emits_ret. rewrite app_nil_r. split; [done|].
    intros [= Hnil%aggregate_nil] t Ht.
    destruct (claimsFrom_keys _ _ _ _ _ E t Ht) as (claim & Hl & <-).
    apply (Hall Hnil (Name (pvc_meta t), claim)). by apply elem_of_mapRange.
Qed.

Definition consistentPod (set : StatefulSet) (pod : Pod) : Prop :=
  identityMatches set pod = true /\ storageMatches set pod = true.
(** What is sent: a consistent pod, unless the pod's name had no ordinal. *)
Definition conformed (set : StatefulSet) (pod : Pod) : Prop :=
  consistentPod set pod \/ Name (pod_meta pod) = getPodName set (-1).

Lemma conform set pod0 pod1 pod2 :
  occurs newline (Name (set_meta set)) = false ->
  pod1 = (if identityMatches set pod0 then pod0 else updateIdentity set pod0) ->
  storageMatches set pod1 = true /\ pod2 = pod1 \/ updateStorage set pod1 = Ok pod2 ->
  conformed set pod2.
Proof.
  intros Hnl -> Hst. set (pod1 := if identityMatches set pod0 then _ else _) in *.
  assert (Hmeta : pod_meta pod2 = pod_meta pod1).
  { destruct Hst as [[_ ->]|Hu]; [done|]. by apply updateStorage_frame in Hu as [? _]. }
  assert (Hid : (identityMatches set pod1 = true /\ 0 <= getOrdinal pod1)
                \/ Name (pod_meta pod1) = getPodName set (-1)).
  { subst pod1. destruct (identityMatches set pod0) eqn:E.
    - left. split; [done|]. apply identityMatches_spec in E as (o & Hp & Ho & _).
      unfold getOrdinal. by rewrite Hp.
    - destruct (decide (0 <= getOrdinal pod0)) as [Ho|Ho].
      + left. destruct (updateIdentity_matches set pod0 Hnl Ho) as [Hm Heq].
        split; [done|]. by rewrite Heq.
      + right. pose proof (getOrdinal_range pod0). cbn.
        by replace (getOrdinal pod0) with (-1) by lia. }
  destruct Hid as [[Hid Ho]|Hname]; [left|right; by rewrite Hmeta].
  split; [by rewrite (identityMatches_meta _ _ _ Hmeta)|].
  destruct Hst as [[Hst ->]|Hu]; [done|]. by eapply updateStorage_matches.
Qed.

Lemma storePod_thePod p v : thePod (storePod p v) = p.
Proof. unfold thePod, storePod. by destruct (ownCopy v). Qed.

Lemma enforceStorage_emits set v b :
  emits (State := T) (enforceStorage set v b) (fun o cs =>
    Forall onClaim cs
    /\ match o with
       | Ok (Next (v', b')) =>
           (storageMatches set (thePod v) = true /\ v' = v /\ b' = b /\ cs = [])
           \/ (storageMatches set (thePod v) = false /\ b' = false
               /\ updateStorage set (thePod v) = Ok (thePod v'))
       | _ => storageMatches set (thePod v) = false
       end).
Proof.
  unfold enforceStorage. destruct (storageMatches set (thePod v)) eqn:E.
  { apply emits_fret. split; [done|]. by left. }
  apply emits_fbind, emits_run, emits_lift.
  destruct (updateStorage set (thePod v)) as [pod|] eqn:Eu; [|by split].
  apply emits_fbind, emits_run. eapply emits_mono; [apply createClaims_emits|].
  intros [[e|]|r] cs [Hcs _]; cbn [app]; [| |by split].
  - apply emits_fbind, emits_run, emits_podEvent, emits_return. by rewrite app_nil_r.
  - apply emits_fret. rewrite app_nil_r. split; [done|]. right. by rewrite storePod_thePod.
Qed.

Notation updates set := (committed (fun p err => PodCallX (UpdateRequest p) err) (conformed set) True).

Lemma updates_claims set ok cs : Forall onClaim cs -> updates set ok cs.
Proof.
  intros Hcs. left. split; [done|]. eapply list.Forall_impl; [exact Hcs|].
  by intros c Hc p err ->.
Qed.

(** One attempt: nothing for a consistent pod; else calls about claims, and an update
    whose error it returns. *)
Lemma updatePodAttempt_emits set v :
  occurs newline (Name (set_meta set)) = false ->
  emits (State := T) (updatePodAttempt set v) (fun o cs => updates set (okOf o) cs).
Proof.
  intros Hnl. unfold updatePodAttempt.
  set (v1b := if identityMatches set (thePod v) then _ else _).
  assert (Hv1 : thePod v1b.1 = (if identityMatches set (thePod v) then thePod v
                               else updateIdentity set (thePod v))).
  { subst v1b. destruct (identityMatches _ _); [done|apply storePod_thePod]. }
  destruct v1b as [v1 b]. cbn [fst snd] in *.
  apply emits_body, emits_fbind. eapply emits_mono; [apply enforceStorage_emits|].
  intros [[[v2 [|]]|[e v2]]|r] cs [Hcs Hpost]; cbn in Hpost; [| |by apply updates_claims..].
  - apply emits_fret. rewrite app_nil_r. by apply updates_claims.
  - assert (Hconf : conformed set (thePod v2)).
    { eapply conform; [done|exact Hv1|].
      destruct Hpost as [(Hs & -> & _)|(_ & _ & Hu)]; auto. }
    apply emits_fbind, emits_run, emits_inOut. intros [e|] pod _ _ _.
    + apply emits_fbind, emits_run, emits_Get. intros r.
      assert (Hc : updates set false (cs ++ [PodCallX (UpdateRequest (thePod v2)) (Some e)]
          ++ [PodCallX (GetRequest (mkKey (Namespace (set_meta set))
                (Name (pod_meta (thePod (storePod pod (markAttempted v2))))))) (errorOf r)])).
      { left. split; [done|]. apply Forall_app. split; [by apply (committed_failed _ _ True), updates_claims|].
        apply Forall_cons_2; [by intros p err [= <- <-]|].
        apply Forall_cons_2; [|constructor]. intros p err E. discriminate E. }
      destruct r; apply emits_fret; exact Hc.
    + apply emits_fret. right. split; [done|]. exists cs, (thePod v2).
      split_and!; [by apply (committed_failed _ _ True), updates_claims|done|done].
Qed.

(** A consistent pod is left alone. *)
Lemma updatePodAttempt_consistent set v :
  consistentPod set (thePod v) -> updatePodAttempt (W := T) set v = mret (None, v).
Proof.
  intros [Hi Hs]. unfold updatePodAttempt, enforceStorage. by rewrite Hi, Hs.
Qed.

(** ** Properties *)

(** C19: Creating a pod: whatever the API server answers, the pod is sent at most once,
    as the last call, and only after each of its claims has been found on the server
    or created; a nil error means that the pod was created. *)
Theorem CreateStatefulPod_claims_first set pod :
  emits (State := T) (CreateStatefulPod set pod) (fun o cs =>
    (forall pre p err post, cs = pre ++ PodCallX (CreateRequest p) err :: post ->
       p = pod /\ post = []
       /\ forall t, t ∈ VolumeClaimTemplates (set_Spec set) ->
            claimPresent pre (claimKey set (getOrdinal pod) t))
    /\ (forall q, o = Ok (None, q) -> PodCallX (CreateRequest pod) None ∈ cs)).
Proof.
  unfold CreateStatefulPod, realStatefulPodControl, realCreateStatefulPod.
  apply emits_bind. eapply emits_mono; [apply createClaims_emits|].
  intros o cs [Hcs Hall].
  assert (Hnone : forall pre p err post, cs <> pre ++ PodCallX (CreateRequest p) err :: post).
  { intros pre p err post ->. apply Forall_app in Hcs as [_ Hcs].
    by apply list.Forall_cons in Hcs as [[] _]. }
  destruct o as [[e|]|r].
  - apply emits_bind, emits_podEvent, emits_ret. rewrite !app_nil_r.
    split; [|done]. intros pre p err post E. by destruct (Hnone pre p err post).
  - apply emits_bind, emits_inOut. intros err pod' _ _ _.
    cut ((forall pre p err0 post,
            cs ++ [PodCallX (CreateRequest pod) err] = pre ++ PodCallX (CreateRequest p) err0 :: post ->
            p = pod /\ post = [] /\ forall t, t ∈ VolumeClaimTemplates (set_Spec set) ->
              claimPresent pre (claimKey set (getOrdinal pod) t))
         /\ (err = None -> PodCallX (CreateRequest pod) None
                             ∈ cs ++ [PodCallX (CreateRequest pod) err])).
    { intros [Hpre Hok].
      assert (Hfin : forall Q, Q = cs ++ [PodCallX (CreateRequest pod) err] ->
        (forall pre p err0 post, Q = pre ++ PodCallX (CreateRequest p) err0 :: post ->
           p = pod /\ post = [] /\ forall t, t ∈ VolumeClaimTemplates (set_Spec set) ->
             claimPresent pre (claimKey set (getOrdinal pod) t))
        /\ (forall q, Ok (err, pod') = Ok (None, q) -> PodCallX (CreateRequest pod) None ∈ Q)).
      { intros Q ->. split; [exact Hpre|]. intros q [= E _]. by apply Hok. }
      destruct err as [[]|]; try (apply emits_bind, emits_podEvent); apply emits_ret;
        by apply Hfin. }
    split; [|intros ->; set_solver].
    intros pre p err0 post E. destruct post as [|c post _] using rev_ind.
    + apply app_inj_tail in E as [-> [= -> ->]]. split_and!; [done|done|by apply Hall].
    + exfalso. rewrite app_comm_cons, app_assoc in E. apply app_inj_tail in E as [E _].
      by eapply Hnone.
  - split; [|done]. intros pre p err post E. by destruct (Hnone pre p err post).
Qed.

(** C20: Updating a pod: a pod with the set's identity and storage is left alone without
    a call; every pod sent has them (unless the name it had carries no ordinal); and
    a successful update is the last call, and reported. *)
Theorem UpdateStatefulPod_consistent set pod :
  occurs newline (Name (set_meta set)) = false ->
  emits (State := T) (UpdateStatefulPod set pod) (fun o cs =>
    (consistentPod set pod -> cs = [] /\ o = Ok (None, pod))
    /\ (forall p err, PodCallX (UpdateRequest p) err ∈ cs -> conformed set p)
    /\ (forall pre p post, cs = pre ++ PodCallX (UpdateRequest p) None :: post ->
          post = [] /\ exists q, o = Ok (None, q))).
Proof.
  intros Hnl. unfold UpdateStatefulPod, realStatefulPodControl, realUpdateStatefulPod.
  apply emits_bind. eapply emits_mono.
  { apply emits_and.
    - apply (emits_retry_commit (fun p err => PodCallX (UpdateRequest p) err) (conformed set) True).
      intros v. by apply updatePodAttempt_emits.
    - apply (emits_retry _ _ _ (fun v cs =>
        consistentPod set pod -> v = mkPodVars pod None false /\ cs = [])
        (fun o cs => consistentPod set pod -> cs = [] /\ o = Ok (None, mkPodVars pod None false)));
        [done|].
      intros v cs Hv. destruct (decide (identityMatches set pod = true
                                        /\ storageMatches set pod = true)) as [Hc|Hc].
      + destruct (Hv Hc) as [-> ->]. rewrite updatePodAttempt_consistent by done.
        by apply emits_ret.
      + eapply emits_mono; [by apply updatePodAttempt_emits|]. intros o cs' _.
        split; [done|]. by destruct o as [[[e|] v']|r]. }
  intros o cs [(Hconf & Hlast & _)%(committed_spec _ _) Hcons].
  destruct o as [[err v]|r].
  - apply emits_bind.
    assert (Hfin : (consistentPod set pod -> cs = [] /\ Ok (err, callerPod v) = Ok (None, pod))
      /\ (forall p e, PodCallX (UpdateRequest p) e ∈ cs -> conformed set p)
      /\ (forall pre p post, cs = pre ++ PodCallX (UpdateRequest p) None :: post ->
            post = [] /\ exists q, Ok (err, callerPod v) = Ok (None, q))).
    { split_and!; [|exact Hconf|].
      - intros Hc. by destruct (Hcons Hc) as [-> [= -> ->]].
      - intros pre p post E. destruct (Hlast _ _ _ E) as [-> Hok].
        destruct err; [done|]. by eauto. }
    destruct (attempted v); [apply emits_podEvent|apply emits_ret];
      apply emits_ret; by rewrite !app_nil_r.
  - split_and!; [|exact Hconf|].
    + intros Hc. by destruct (Hcons Hc) as [_ ?].
    + intros pre p post E. by destruct (Hlast _ _ _ E) as [_ ?].
Qed.

Notation committedPods request P := (committed (fun p err => PodCallX (request p) err) P False).

(** A write answered with an error, and one read after it. *)
Lemma failedWrite (request : Pod -> Request Pod) (P : Pod -> Prop) p e k err :
  P p -> (forall q, request q <> GetRequest k) ->
  (forall q q', request q = request q' -> q = q') ->
  committedPods request P false [PodCallX (request p) (Some e); PodCallX (GetRequest k) err].
Proof.
  intros Hp Hget Hinj. left. split; [done|].
  apply Forall_cons_2; [by intros q err' [= ->%Hinj <-]|].
  apply Forall_cons_2; [|constructor]. intros q err' [= E _]. by destruct (Hget q).
Qed.

(** What an in-place update may send: the patched form of some pod, marked with the
    update revision. *)
Definition inPlaceForm (spec : InPlaceUpdateSpec) (p : Pod) : Prop :=
  getPodRevision p = spec_revision spec
  /\ exists now q, podInPlaceUpdate now q spec = Ok (inr p).

Lemma podInPlaceUpdate_form now q spec p :
  podInPlaceUpdate now q spec = Ok (inr p) -> inPlaceForm spec p.
Proof.
  intros E. split; [|by eauto]. unfold podInPlaceUpdate in E.
  destruct (applyPatches _ _) as [|newPod]; [done|]. case_decide; [done|].
  injection E as <-. unfold getPodRevision, label, setPodRevision. cbn.
  by rewrite lookup_insert_eq.
Qed.

Lemma inPlaceAttempt_emits spec pod :
  emits (State := T) (inPlaceAttempt spec pod) (fun o cs =>
    committedPods UpdateRequest (inPlaceForm spec) (okOf o) cs).
Proof.
  assert (Hnil : forall o : Outcome (option Err * Pod), okOf o = false ->
    committedPods UpdateRequest (inPlaceForm spec) (okOf o) []).
  { intros o ->. left. by split. }
  unfold inPlaceAttempt. apply emits_bind, emits_quiet; [intros []; cbn; by destruct (Now _)|].
  intros now. apply emits_bind, emits_lift.
  destruct (podInPlaceUpdate now pod spec) as [[e|p]|r] eqn:E;
    [by apply emits_ret, Hnil| |by apply (Hnil (Panic r))].
  apply podInPlaceUpdate_form in E.
  apply emits_bind, emits_inOut. intros [e|] p' _ _ _.
  - apply emits_bind, emits_Get. intros r.
    destruct r; apply emits_ret; apply failedWrite; naive_solver.
  - apply emits_ret. right. split; [done|]. by exists [], p.
Qed.

Lemma conditionAttempt_emits condition v :
  emits (State := T) (conditionAttempt condition v) (fun o cs =>
    committedPods StatusRequest (fun p => condition ∈ Conditions (pod_Status p)) (okOf o) cs).
Proof.
  assert (Hc : condition ∈ Conditions (pod_Status (thePod (storePod
             (updatePodCondition (thePod v) condition) v)))).
  { rewrite storePod_thePod. cbn. induction (Conditions (pod_Status (thePod v))) as [|c cs IH];
      cbn; [by left|]. case_decide; [by left|by right]. }
  unfold conditionAttempt. apply emits_bind, emits_inOut. intros [e|] p' _ _ _.
  - apply emits_bind, emits_Get. intros r.
    destruct r; apply emits_ret; apply failedWrite; naive_solver.
  - apply emits_ret. right. split; [done|]. exists []. by eexists.
Qed.

(** C24: An in-place update sends only patched pods at the update revision, and a condition
    update only pods that carry the condition; each ends with its first successful
    write, and returns nil exactly when there is one. *)
Theorem InPlaceUpdate_writes set pod spec condition :
  emits (State := T) (InPlaceUpdateStatefulPod set pod spec) (fun o cs =>
    (forall p err, PodCallX (UpdateRequest p) err ∈ cs -> inPlaceForm spec p)
    /\ (o = Ok None <-> exists p, PodCallX (UpdateRequest p) None ∈ cs)
    /\ (forall pre p post, cs = pre ++ PodCallX (UpdateRequest p) None :: post -> post = []))
  /\ emits (State := T) (UpdateStatefulPodCondition set pod condition) (fun o cs =>
    (forall p err, PodCallX (StatusRequest p) err ∈ cs -> condition ∈ Conditions (pod_Status p))
    /\ ((exists q, o = Ok (None, q)) <-> exists p, PodCallX (StatusRequest p) None ∈ cs)
    /\ (forall pre p post, cs = pre ++ PodCallX (StatusRequest p) None :: post -> post = [])).
Proof.
  assert (Hspec : forall (request : Pod -> Request Pod) P ok cs,
    Inj2 (=) (=) (=) (fun p err => PodCallX (request p) err) ->
    committedPods request P ok cs ->
    (forall p err, PodCallX (request p) err ∈ cs -> P p)
    /\ (ok = true <-> exists p, PodCallX (request p) None ∈ cs)
    /\ (forall pre p post, cs = pre ++ PodCallX (request p) None :: post -> post = [])).
  { intros request P ok cs Hinj (Hp & Hlast & Hok)%(committed_spec _ _).
    split_and!; [exact Hp| |intros pre p post E; by destruct (Hlast _ _ _ E)].
    split.
    - intros [[]|(pre & p & ->)]%Hok. exists p. set_solver.
    - intros [p (pre & post & E)%list_elem_of_split]. by destruct (Hlast _ _ _ E). }
  split.
  - apply emits_bind. eapply emits_mono; 
      [apply (emits_retry_commit (fun p err => PodCallX (UpdateRequest p) err) (inPlaceForm spec)
                False), inPlaceAttempt_emits|].
    intros o cs (Hp & Hok & Hlast)%Hspec; [|apply _].
    destruct o as [[err q]|r]; [apply emits_bind, emits_podEvent, emits_ret|];
      rewrite ?app_nil_r; (split_and!; [exact Hp| |exact Hlast]); rewrite <-Hok; cbn; [|naive_solver].
    destruct err; naive_solver.
  - apply emits_bind. eapply emits_mono; 
      [apply (emits_retry_commit (fun p err => PodCallX (StatusRequest p) err)
                (fun p => condition ∈ Conditions (pod_Status p)) False), conditionAttempt_emits|].
    intros o cs (Hp & Hok & Hlast)%Hspec; [|apply _].
    destruct o as [[err v]|r]; [apply emits_bind, emits_podEvent, emits_ret|];
      rewrite ?app_nil_r; (split_and!; [exact Hp| |exact Hlast]); rewrite <-Hok; cbn; [|naive_solver].
    destruct err; naive_solver.
Qed.
End Logged.

(** ** The promise to the control loop *)

Section RealLaws.
Context {W : Type} `{KubeLib, MapRange, Json Coordinates, PatchLib, Json InPlaceUpdateState}.
Context `{Client W Pod, !StatusLaws pod_meta, !StatusStored pod_Status, !KeyLaws pod_meta}.
Context `{Client W PersistentVolumeClaimT, RetryLaws, Aggregate, ErrorText, Recorder W, Clock W}.

(** What the caller's pod keeps while its condition is set: [p] is the pod it was, or
    the pod with the condition. *)
Definition conditioned (pod : Pod) (c : PodCondition) (p : Pod) : Prop :=
  keyOf (pod_meta p) = keyOf (pod_meta pod)
  /\ Labels (pod_meta p) = Labels (pod_meta pod)
  /\ pod_Status p = pod_Status (updatePodCondition pod c).

Lemma conditioned_again pod c p :
  conditioned pod c p -> conditioned pod c (updatePodCondition p c).
Proof.
  intros (Hk & Hl & Hst). split_and!; [done|done|].
  unfold updatePodCondition, overConditions in *. cbn in *. rewrite Hst. cbn.
  by rewrite replaceCondition_twice.
Qed.

Lemma conditioned_sent pod c p w err q w' :
  conditioned pod c p -> StatusUpdate p w = ((err, q), w') -> conditioned pod c q.
Proof.
  intros (Hk & Hl & Hst) E. split_and!.
  - rewrite <-Hk. by eapply status_key.
  - rewrite <-Hl. by eapply status_labels.
  - rewrite <-Hst. by eapply status_stored.
Qed.

Lemma realCondition_conditioned set pod c w err q w' :
  realUpdateStatefulPodCondition set pod c w = (Ok (err, q), w') -> conditioned pod c q.
Proof.
  unfold realUpdateStatefulPodCondition.
  cut (holds (RetryOnConflict DefaultRetry (conditionAttempt c) (mkPodVars pod None false)) w
         (fun o _ => match o with Ok (_, v) => conditioned pod c (callerPod v) | Panic _ => True end)).
  { unfold holds, mbind, M_bind. destruct (RetryOnConflict _ _ _ w) as [[[e v]|r] w1]; [|done].
    cbn. intros Hl. destruct (recordPodEvent _ _ _ _ w1) as [[[]|] w2]; [|done].
    by intros [= _ <- _]. }
  apply (holds_retry _ _ _ _ (fun v _ => v = mkPodVars pod None false
                                         \/ conditioned pod c (callerPod v))); [by left|].
  intros v w1 Hv. unfold conditionAttempt. apply holds_bind, holds_call.
  destruct (StatusUpdate _ w1) as [[e p] w2] eqn:E. cbn [fst snd].
  assert (Hl : conditioned pod c
    (callerPod (storePod p (storePod (updatePodCondition (thePod v) c) v)))).
  { rewrite storePod_thePod in E. unfold storePod, thePod in *.
    destruct Hv as [->|Hv]; [cbn in *; eapply conditioned_sent; [|exact E]; done|].
    destruct (ownCopy v); cbn in *; [done|].
    eapply conditioned_sent; [by apply conditioned_again|exact E]. }
  destruct e as [e|]; [|apply holds_ret; by split].
  apply holds_bind, holds_call. destruct (Get _ w2) as [[|] w3]; apply holds_ret;
    (split; [exact Hl|intros _; by right]).
Qed.

Lemma realCreate_key set pod w err q w' :
  realCreateStatefulPod set pod w = (Ok (err, q), w') ->
  keyOf (pod_meta q) = keyOf (pod_meta pod).
Proof.
  unfold realCreateStatefulPod, mbind, M_bind, mret, M_ret, call.
  destruct (createPersistentVolumeClaims set pod w) as [[[e|]|r] w1]; [| |done].
  - destruct (recordPodEvent _ _ _ _ w1) as [[[]|] w2]; [|done]. by intros [= _ <- _].
  - destruct (Create pod w1) as [[e p] w2] eqn:E. apply create_key in E. rewrite <-E.
    destruct e as [[]|]; try (by intros [= _ <- _]);
      (destruct (recordPodEvent _ _ _ _ w2) as [[[]|] w3]; [by intros [= _ <- _]|done]).
Qed.

(** The pod control the operator runs with keeps its promise. *)
#[export] Instance realStatefulPodControl_laws : StatefulPodControlLaws W.
Proof.
  split.
  - exact realCreate_key.
  - intros set pod c w err q w' (_ & Hl & _)%realCondition_conditioned.
    unfold getPodRevision, label. by rewrite Hl.
  - by intros set pod c w err q w' (Hk & _ & _)%realCondition_conditioned.
  - by intros set pod c w err q w' (_ & _ & Hst)%realCondition_conditioned.
Qed.
End RealLaws.

(** ** Writing the status of a set *)

Section StatusProperties.
Context {W : Type} `{Client W StatefulSet, !StatusLaws set_meta, RetryLaws}.
Notation T := (W * list ApiCall)%type.

(** Every attempt to write the status sends the very same object: it is refetched
    only after a write that succeeded, so a conflict is answered by the same write at
    the same resource version. The result is nil exactly when some write succeeded. *)
Theorem UpdateStatefulSetStatus_stale set status :
  emits (State := T) (UpdateStatefulSetStatus set status) (fun o cs =>
    (forall s err, SetCallX (StatusRequest s) err ∈ cs -> s = setStatus status set)
    /\ (forall k err, SetCallX (GetRequest k) err ∈ cs ->
          SetCallX (StatusRequest (setStatus status set)) None ∈ cs)
    /\ (o = Ok None <-> SetCallX (StatusRequest (setStatus status set)) None ∈ cs)).
Proof.
  set (stale := setStatus status set).
  set (failed := fun c => exists e, c = SetCallX (StatusRequest stale) (Some e)).
  assert (Hfailed : forall cs c, Forall failed cs -> c ∈ cs -> failed c).
  { intros cs c Hcs Hin. rewrite list.Forall_forall in Hcs. by apply Hcs. }
  apply emits_bind.
  apply (emits_retry _ _ _ (fun s cs => setStatus status s = stale /\ Forall failed cs)); [done|].
  intros s cs [Hs Hcs]. unfold statusAttempt. rewrite Hs.
  apply emits_bind, emits_inOut. intros [e|] s' w w' E.
  - apply status_failed in E as ->. apply emits_ret. rewrite app_nil_r.
    assert (Hcs' : Forall failed (cs ++ [SetCallX (StatusRequest stale) (Some e)])).
    { apply Forall_app. split; [done|]. apply Forall_singleton. by eexists. }
    split; [|intros _; split; [by destruct set|done]].
    apply emits_ret. rewrite app_nil_r. cbn. split_and!.
    + intros s1 err Hin. by destruct (Hfailed _ _ Hcs' Hin) as [? [= -> _]].
    + intros k err Hin. by destruct (Hfailed _ _ Hcs' Hin) as [? ?].
    + split; [done|]. intros Hin. by destruct (Hfailed _ _ Hcs' Hin) as [? ?].
  - apply emits_bind, emits_Get. intros r.
    set (all := cs ++ [SetCallX (StatusRequest stale) None]
                ++ [SetCallX (GetRequest (keyOf (set_meta s'))) (errorOf r)]).
    assert (Hend : (forall s err, SetCallX (StatusRequest s) err ∈ all -> s = stale)
        /\ (forall k err, SetCallX (GetRequest k) err ∈ all ->
              SetCallX (StatusRequest stale) None ∈ all)
        /\ (Ok None = (Ok None : Outcome (option Err))
             <-> SetCallX (StatusRequest stale) None ∈ all)).
    { subst all. split_and!.
      - intros s1 err. rewrite elem_of_app. intros [Hin|Hin].
        + by destruct (Hfailed _ _ Hcs Hin) as [? [= -> _]].
        + cbn in Hin. set_solver.
      - intros k err _. set_solver.
      - split; [set_solver|done]. }
    destruct r as [e|s1]; apply emits_ret; (split; [|done]);
      apply emits_ret; rewrite app_nil_r; exact Hend.
Qed.
End StatusProperties.

(** ** Witnesses: a server with pods and claims *)

Notation fx_podServer := (gmap ObjectKey Pod * gmap ObjectKey PersistentVolumeClaimT)%type.
#[export] Instance fx_pods : Client fx_podServer Pod := onFst (fx_client pod_meta).
#[export] Instance fx_claims : Client fx_podServer PersistentVolumeClaimT :=
  onSnd (fx_client pvc_meta).
#[local] Instance fx_silent : Recorder fx_podServer := {| Event _ _ _ _ w := w |}.
#[local] Instance fx_stopped : Clock fx_podServer := {| Now w := (0, w) |}.
#[export] Instance fx_aggregate : Aggregate := {|
  NewAggregate es := match es with [] => None | _ => Some (ErrMsg "aggregate") end;
|}.
#[export] Instance fx_aggregate_laws : AggregateLaws.
Proof. split. by intros []. Defined.

Notation fx_log := (fx_podServer * list ApiCall)%type.
Definition fx_newPod : Pod := fx_pod "default" "web-1" "r1" "" false.

Example calls_of_create :
  ((CreateStatefulPod fx_spreadSet fx_newPod : M fx_log _) ((∅, ∅), [])).2.2
  = [ClaimCallX (GetRequest (mkKey "default" "data-web-1")) (Some ErrNotFound);
     ClaimCallX (CreateRequest (mkClaim (setLabels (<["app" := "web"]> ∅)
                                           (metaNamed "default" "data-web-1")) "")) None;
     PodCallX (CreateRequest fx_newPod) None].
Proof. vm_compute. reflexivity. Qed.

Lemma CreateStatefulPod_claims_first_witness :
  emits (State := fx_log) (CreateStatefulPod fx_spreadSet fx_newPod) (fun o cs =>
    forall q, o = Ok (None, q) -> PodCallX (CreateRequest fx_newPod) None ∈ cs).
Proof.
  eapply emits_mono; [apply (CreateStatefulPod_claims_first fx_spreadSet fx_newPod)|].
  intros o cs [_ Hok]. exact Hok.
Defined.

Lemma UpdateStatefulPod_consistent_witness :
  emits (State := fx_log) (UpdateStatefulPod fx_spreadSet fx_newPod) (fun o cs =>
    forall p err, PodCallX (UpdateRequest p) err ∈ cs -> conformed fx_spreadSet p).
Proof.
  eapply emits_mono; [apply (UpdateStatefulPod_consistent fx_spreadSet fx_newPod); reflexivity|].
  intros o cs (_ & Hconf & _). exact Hconf.
Defined.

Lemma InPlaceUpdate_writes_witness :
  emits (State := fx_log) (InPlaceUpdateStatefulPod fx_inPlaceSet fx_runningPod fx_inPlaceSpec)
    (fun o cs => o = Ok None <-> exists p, PodCallX (UpdateRequest p) None ∈ cs).
Proof.
  eapply emits_mono; [apply (InPlaceUpdate_writes fx_inPlaceSet fx_runningPod fx_inPlaceSpec
                               (mkPodCondition "Ready" "True" "" ""))|].
  intros o cs (_ & Hok & _). exact Hok.
Defined.

Lemma UpdateStatefulSetStatus_stale_witness :
  emits (State := gmap ObjectKey StatefulSet * list ApiCall)
    (UpdateStatefulSetStatus (StatusUpdater :=
       realStatefulSetStatusUpdater (H := tracedClient (H := fx_client set_meta)))
       fx_spreadSet fx_status)
    (fun o cs => forall s err, SetCallX (StatusRequest s) err ∈ cs -> s = setStatus fx_status fx_spreadSet).
Proof.
  eapply emits_mono;
    [apply (@UpdateStatefulSetStatus_stale _ (fx_client set_meta) (fx_status_laws set_meta)
              fx_Retry fx_RetryLaws fx_spreadSet fx_status)|].
  intros o cs [Hs _]. exact Hs.
Defined.
