(* ===== verification/RealPodControl.v ===== *)
(** [controllers/realpod_control.go]: the pod control handed to the library code that
    adopts and releases pods, with its own way of making a pod from a template. *)

From S2P Require Import Prelude Objects GoString Libraries Fixtures PodIdentity Cluster.
From S2P Require Import CallLog.
From S2P Require Import Interfaces PodControl.

Module RealPodControl.

(** [validation.ValidatePodName]: the reasons a name (or prefix) is refused. *)
Class PodNameLib := { ValidatePodName : string -> bool -> list string }.

Definition FailedCreatePodReason : string := "FailedCreate".
Definition SuccessfulCreatePodReason : string := "SuccessfulCreate".
Definition FailedDeletePodReason : string := "FailedDelete".
Definition SuccessfulDeletePodReason : string := "SuccessfulDelete".

(** ** Making a pod *)

Definition getPodsLabelSet (template : PodTemplateSpec) : gmap string string :=
  Labels (tpl_meta template).
Definition getPodsFinalizers (template : PodTemplateSpec) : list string :=
  Finalizers (tpl_meta template).
Definition getPodsAnnotationSet (template : PodTemplateSpec) : gmap string string :=
  Annotations (tpl_meta template).

Definition validateControllerRef (controllerRef : option OwnerReference) : option Err :=
  match controllerRef with
  | None => Some (ErrMsg "controllerRef is nil")
  | Some ref =>
      if decide (owner_APIVersion ref = "") then Some (ErrMsg "controllerRef has empty APIVersion")
      else if decide (owner_Kind ref = "") then Some (ErrMsg "controllerRef has empty Kind")
      else if decide (owner_Controller ref <> Some true)
      then Some (ErrMsg "controllerRef.Controller is not set to true")
      else if decide (owner_BlockOwnerDeletion ref <> Some true)
      then Some (ErrMsg "controllerRef.BlockOwnerDeletion is not set")
      else None
  end.

Section RealPodControl.
Context {W : Type} `{PodNameLib, Client W Pod, Retry, ErrorText, Recorder W}.

Definition getPodsPrefix (controllerName : string) : string :=
  let prefix := controllerName +:+ "-" in
  if decide (length (ValidatePodName prefix true) <> 0%nat) then controllerName else prefix.

(** [parentObject] is what [meta.Accessor] makes of it. *)
Definition GetPodFromTemplate (template : PodTemplateSpec) (parentObject : Result ObjectMeta)
    (controllerRef : option OwnerReference) : Result Pod :=
  match parentObject with
  | inl err => inl (ErrMsg ("parentObject does not have ObjectMeta, " +:+ errorText err))
  | inr accessor =>
      let prefix := getPodsPrefix (Name accessor) in
      let meta := mkObjectMeta "" prefix "" "" "" 0 None (getPodsLabelSet template)
                    (getPodsAnnotationSet template)
                    (match controllerRef with Some ref => [ref] | None => [] end)
                    (getPodsFinalizers template) in
      inr (mkPod meta (tpl_Spec template) (mkPodStatus "" [] [] ""))
  end.

(** The pod made for a node; every other node's scheduling is left to the cluster. *)
Definition onNode (nodeName : string) (pod : Pod) : Pod :=
  if decide (nodeName <> "") then overSpec (setNodeName nodeName) pod else pod.

(** The closure's variable is the pod [Create] writes back to. *)
Definition createPodAttempt (object : ObjectMeta) (pod : Pod) : M W (option Err * Pod) :=
  res ← call (Create pod);
  let '(err, pod) := res in
  match err with
  | Some e =>
      _ ← recordEvent object EventTypeWarning FailedCreatePodReason
            ("Error creating: " +:+ errorText e);
      mret (Some e, pod)
  | None =>
      _ ← recordEvent object EventTypeNormal SuccessfulCreatePodReason
            ("Created pod: " +:+ Name (pod_meta pod));
      mret (None, pod)
  end.

(** [namespace] is not used. *)
Definition createPods (nodeName namespace : string) (template : PodTemplateSpec)
    (object : Result ObjectMeta) (controllerRef : option OwnerReference) : M W (option Err) :=
  match GetPodFromTemplate template object controllerRef, object with
  | inl err, _ | _, inl err => mret (Some err)
  | inr pod, inr accessor =>
      let pod := onNode nodeName pod in
      if decide (Labels (pod_meta pod) = ∅)
      then mret (Some (ErrMsg "unable to create pods, no labels"))
      else
        res ← RetryOnConflict DefaultBackoff (createPodAttempt accessor) pod;
        mret res.1
  end.

Definition CreatePods (namespace : string) (template : PodTemplateSpec)
    (object : Result ObjectMeta) : M W (option Err) :=
  createPods "" namespace template object None.

Definition CreatePodsWithControllerRef (namespace : string) (template : PodTemplateSpec)
    (controllerObject : Result ObjectMeta) (controllerRef : option OwnerReference)
  : M W (option Err) :=
  match validateControllerRef controllerRef with
  | Some err => mret (Some err)
  | None => createPods "" namespace template controllerObject controllerRef
  end.

Definition CreatePodsOnNode (nodeName namespace : string) (template : PodTemplateSpec)
    (object : Result ObjectMeta) (controllerRef : option OwnerReference) : M W (option Err) :=
  match validateControllerRef controllerRef with
  | Some err => mret (Some err)
  | None => createPods nodeName namespace template object controllerRef
  end.

(** ** Patching and deleting *)

Definition PatchPod (namespace name data : string) : M W (option Err) :=
  got ← call (Get (mkKey namespace name));
  match got with
  | inl err => if IsNotFound err then mret None else mret (Some err)
  | inr pod => res ← call (Patch (pod : Pod) data); mret res.1
  end.

(** The pod named to the API server: its UID is [podID], its name empty. *)
Definition deletedPod (namespace podID : string) : Pod :=
  mkPod (mkObjectMeta "" "" namespace podID "" 0 None ∅ ∅ [] [])
    (mkPodSpec None [] [] None "" "" "" "") (mkPodStatus "" [] [] "").

Definition deletePodAttempt (namespace podID : string) (object : ObjectMeta) (_ : unit)
  : M W (option Err * unit) :=
  err ← call (Delete (deletedPod namespace podID));
  match err with
  | Some e =>
      if IsNotFound e then
        _ ← recordEvent object EventTypeNormal SuccessfulDeletePodReason
              ("Deleted pod: " +:+ podID);
        mret (None, tt)
      else
        _ ← recordEvent object EventTypeWarning FailedDeletePodReason
              ("Error deleting: " +:+ errorText e);
        mret (Some (ErrMsg ("unable to delete pods: " +:+ errorText e)), tt)
  | None =>
      _ ← recordEvent object EventTypeNormal SuccessfulDeletePodReason
            ("Deleted pod: " +:+ podID);
      mret (None, tt)
  end.

Definition DeletePod (namespace podID : string) (object : ObjectMeta) : M W (option Err) :=
  res ← RetryOnConflict DefaultBackoff (deletePodAttempt namespace podID object) tt;
  mret res.1.
End RealPodControl.

(** ** Properties *)

(** The references accepted are those of a managing controller that blocks deletion. *)
Lemma validateControllerRef_None ref :
  validateControllerRef ref = None <->
  exists r, ref = Some r /\ owner_APIVersion r <> "" /\ owner_Kind r <> ""
    /\ owner_Controller r = Some true /\ owner_BlockOwnerDeletion r = Some true.
Proof.
  unfold validateControllerRef. destruct ref as [r|]; [|naive_solver].
  repeat case_decide; naive_solver.
Qed.

Section Properties.
Context {W : Type} `{PodNameLib, Client W Pod, RetryLaws, ErrorText, Recorder W}.
Notation T := (W * list ApiCall)%type.

(** What is created first: labelled, with the template's spec, on the node, owned by
    the reference, and in no namespace. *)
Definition madeFor (nodeName : string) (template : PodTemplateSpec)
    (ref : option OwnerReference) (pod : Pod) : Prop :=
  Labels (pod_meta pod) = Labels (tpl_meta template) /\ Labels (tpl_meta template) <> ∅
  /\ OwnerReferences (pod_meta pod) = match ref with Some r => [r] | None => [] end
  /\ pod_Spec pod = (if decide (nodeName = "") then tpl_Spec template
                     else setNodeName nodeName (tpl_Spec template))
  /\ Namespace (pod_meta pod) = "".

(** A pod is created on a node only for a valid reference, with the template's labels
    and spec; without a valid reference or without labels there is an error and no
    call. The namespace asked for does not reach the pod. *)
Theorem CreatePodsOnNode_sends nodeName namespace template object ref :
  emits (State := T) (CreatePodsOnNode nodeName namespace template object ref) (fun o cs =>
    (cs = [] /\ exists e, o = Ok (Some e))
    \/ (validateControllerRef ref = None
        /\ exists pod err rest, cs = PodCallX (CreateRequest pod) err :: rest
             /\ madeFor nodeName template ref pod)).
Proof.
  unfold CreatePodsOnNode. destruct (validateControllerRef ref) as [e|]; [apply emits_ret; eauto|].
  unfold createPods, GetPodFromTemplate. destruct object as [e|accessor]; [apply emits_ret; eauto|].
  set (pod := onNode nodeName _). case_decide as Hl; [apply emits_ret; eauto|].
  assert (Hmade : madeFor nodeName template ref pod).
  { subst pod. unfold madeFor, onNode in *.
    destruct (decide (nodeName = "")) as [->|Hn].
    - rewrite decide_False in Hl |- * by (intros []; done). by split_and!.
    - rewrite decide_True in Hl |- * by done. by split_and!. }
  clearbody pod. clear Hl. apply emits_bind.
  set (Post := fun cs => exists p err rest, cs = PodCallX (CreateRequest p) err :: rest
                 /\ madeFor nodeName template ref p).
  apply (emits_retry _ _ _ (fun p cs => (cs = [] /\ p = pod) \/ Post cs)); [by left|].
  intros p cs HI. unfold createPodAttempt. apply emits_bind, emits_inOut. intros err p' _ _ _.
  assert (HP : Post (cs ++ [PodCallX (CreateRequest p) err])).
  { destruct HI as [[-> ->]|(q & e & rest & -> & Hq)]; [by exists pod, err, []|].
    by eexists q, e, _. }
  destruct err; apply emits_bind, emits_event, emits_ret; cbn [app]; rewrite ?app_nil_r;
    (split; [apply emits_ret; rewrite app_nil_r; by right|]); [intros _; by right|done].
Qed.
End Properties.

(** ** Witness *)

#[local] Instance fx_podNames : PodNameLib := {| ValidatePodName _ _ := [] |}.
#[local] Instance fx_silent : Recorder fx_podServer := {| Event _ _ _ _ w := w |}.

Lemma CreatePodsOnNode_sends_witness :
  emits (State := fx_log)
    (CreatePodsOnNode "n1" "default" fx_template (inr (metaNamed "default" "web"))
       (Some (mkOwnerReference "v1" "Set" "web" "u" (Some true) (Some true))))
    (fun o cs => (cs = [] /\ exists e, o = Ok (Some e))
       \/ exists pod err rest, cs = PodCallX (CreateRequest pod) err :: rest).
Proof.
  eapply emits_mono; [apply (CreatePodsOnNode_sends "n1" "default" fx_template
    (inr (metaNamed "default" "web"))
    (Some (mkOwnerReference "v1" "Set" "web" "u" (Some true) (Some true))))|].
  intros o cs [Hnil|(_ & pod & err & rest & E & _)]; [left; exact Hnil|right; eauto].
Defined.
End RealPodControl.
