(* ===== verification/Control.v ===== *)
(** The control loop of a StatefulSet ([controllers/stateful_set_control.go]): from
    the set and its pods to the calls that create, terminate and update pods, and
    the status recorded afterwards. Everything that talks to the API server goes
    through the interfaces of [Interfaces]. *)

From S2P Require Import Prelude Objects GoString Libraries Coordinate Cluster Naming.
From S2P Require Import Expectations PodIdentity SetStatus InPlace Interfaces Revisions.

(** ** State *)

(** The cluster, and the process-wide [updateExpectations]. *)
Notation World W := (W * controllerCache)%type.

Definition api {W A} (m : M W A) : M (World W) A :=
  fun '(w, cache) => let (o, w') := m w in (o, (w', cache)).
Definition onCache {W} (f : controllerCache -> controllerCache) : M (World W) unit :=
  fun '(w, cache) => (Ok tt, (w, f cache)).
Definition readCache {W A} (f : controllerCache -> A) : M (World W) A :=
  fun '(w, cache) => (Ok (f cache), (w, cache)).

(** A [*v1.Pod] of the loop: which object it points to, a listed pod or one made for
    an ordinal, and the object's present value. Every object is reached through one
    slot of [replicas] or [condemned] at most, so the value lives with the pointer. *)
Inductive PodRef :=
  | Listed (i : nat)
  | Fresh (ord : Z).
#[export] Instance PodRef_eq_dec : EqDecision PodRef.
Proof. solve_decision. Defined.

Record Ptr := mkPtr { ptr_id : PodRef; obj : Pod }.

Definition samePtr (p : Ptr) (q : option Ptr) : bool :=
  match q with Some q => bool_decide (ptr_id p = ptr_id q) | None => false end.

Definition podExpectUpdated := ExpectUpdated pod_meta.
Definition podObserveUpdated := ObserveUpdated pod_meta getPodRevision.

Section Control.
Context {W : Type} `{KubeLib, MapRange, Json Coordinates, PatchLib, Json InPlaceUpdateState}.
Context `{HistoryLib, SetCodec, SelectorLib, IntStrLib, GoSort, ErrorText}.
Context `{Recorder W, Clock W, StatefulPodControl W, StatusUpdater W, ControllerHistory W}.

Section Sync.
(** What [updateStatefulSet] fixes before it looks at the pods. *)
Context (set currentSet updateSet : StatefulSet).
Context (curRev updRev : ControllerRevision) (revisions : list ControllerRevision).

(** ** First pass: counting and placing the pods *)

Definition adjustRevisions (d : Z) (pod : Pod) (status : StatefulSetStatus) : StatefulSetStatus :=
  let status :=
    if decide (getPodRevision pod = rev_Name curRev) then addCurrentReplicas d status else status in
  if decide (getPodRevision pod = rev_Name updRev) then addUpdatedReplicas d status else status.

Definition countPod (status : StatefulSetStatus) (pod : Pod) : StatefulSetStatus :=
  let status := addReplicas 1 status in
  let status := if isRunningAndReady pod then addReadyReplicas 1 status else status in
  if isCreated pod && negb (isTerminating pod) then adjustRevisions 1 pod status else status.

Definition placePod (replicaCount : Z) (acc : list (option Ptr) * list Ptr) (p : Ptr)
  : list (option Ptr) * list Ptr :=
  let '(replicas, condemned) := acc in
  let ord := getOrdinal (obj p) in
  if decide (0 <= ord < replicaCount) then (<[Z.to_nat ord := Some p]> replicas, condemned)
  else if decide (ord >= replicaCount) then (replicas, condemned ++ [p])
  else (replicas, condemned).

Definition listedPods (pods : list Pod) : list Ptr := imap (fun i pod => mkPtr (Listed i) pod) pods.

Definition partitionPods (replicaCount : Z) (pods : list Pod) : list (option Ptr) * list Ptr :=
  foldl (placePod replicaCount) (replicate (Z.to_nat replicaCount) None, []) (listedPods pods).

Definition freshPod (ord : Z) : Outcome Ptr :=
  pod ← newVersionedStatefulSetPod currentSet updateSet (rev_Name curRev) (rev_Name updRev) ord;
  Ok (mkPtr (Fresh ord) pod).

(** A new pod for every empty slot. *)
Fixpoint fillReplicas (ord : Z) (slots : list (option Ptr)) : Outcome (list Ptr) :=
  match slots with
  | [] => Ok []
  | slot :: slots' =>
      p ← match slot with Some p => Ok p | None => freshPod ord end;
      rest ← fillReplicas (ord + 1) slots';
      Ok (p :: rest)
  end.

(** The number of unhealthy pods and the one with the smallest ordinal. *)
Definition scanUnhealthy (acc : Z * Z * option Ptr) (p : Ptr) : Z * Z * option Ptr :=
  let '(unhealthy, firstOrdinal, firstPod) := acc in
  if isHealthy (obj p) then acc
  else if decide (getOrdinal (obj p) < firstOrdinal)
  then (unhealthy + 1, getOrdinal (obj p), Some p)
  else (unhealthy + 1, firstOrdinal, firstPod).

Definition findUnhealthy (ptrs : list Ptr) : Z * option Ptr :=
  let '(unhealthy, _, firstPod) := foldl scanUnhealthy (0, MaxInt32, None) ptrs in
  (unhealthy, firstPod).

(** ** The replicas, in ordinal order *)

Let monotonic : bool := negb (allowsBurst set).

(** The result of returning out of one slot: status, error, and the slot's pod. *)
Notation SlotF A := (F (World W) (StatefulSetStatus * option Err * Ptr) A).

Definition withCondition (type msg : string) (status : StatefulSetStatus)
  : M (World W) StatefulSetStatus :=
  now ← api (call Now);
  mret (SetStatefulsetCondition status (NewStatefulsetCondition now type ConditionTrue "" msg)).

(** Delete a failed pod and put a new one in its slot. *)
Definition recreateFailed (i : Z) (p : Ptr) (status : StatefulSetStatus)
  : SlotF (StatefulSetStatus * Ptr) :=
  if isFailed (obj p) then
    _ ← run (api (call (fun w => (tt, Event (set_meta set) EventTypeWarning "RecreatingFailedPod"
          ("StatefulSet " +:+ Namespace (set_meta set) +:+ "/" +:+ Name (set_meta set)
           +:+ " is recreating failed Pod " +:+ Name (pod_meta (obj p))) w))));
    err ← run (api (DeleteStatefulPod set (obj p)));
    match err with
    | Some e => return_ (status, Some e, p)
    | None =>
        let status := addReplicas (-1) (adjustRevisions (-1) (obj p) status) in
        p ← run (lift (freshPod i));
        mret (status, p)
    end
  else mret (status, p).

Definition createReplica (p : Ptr) (status : StatefulSetStatus)
  : SlotF (StatefulSetStatus * Ptr) :=
  res ← run (api (CreateStatefulPod set (obj p)));
  let '(err, pod) := res in
  let p := mkPtr (ptr_id p) pod in
  match err with
  | Some e =>
      status ← run (withCondition FailedCreatePod
        ("StatefulPodControl failed to create Pod error: " +:+ errorText e) status);
      return_ (status, Some e, p)
  | None =>
      let status := adjustRevisions 1 (obj p) (addReplicas 1 status) in
      if monotonic then return_ (status, None, p) else mret (status, p)
  end.

(** Set the in-place condition back to true once the update has completed. *)
Definition markInPlaceReady (p : Ptr) (status : StatefulSetStatus) : SlotF Ptr :=
  if shouldUpdateInPlaceReady (obj p) then
    res ← run (api (UpdateStatefulPodCondition set (obj p)
            (mkPodCondition StatefulSetInPlaceUpdateReady ConditionTrue "" "")));
    let '(err, pod) := res in
    let p := mkPtr (ptr_id p) pod in
    match err with
    | Some e => return_ (status, Some e, p)
    | None => mret p
    end
  else mret p.

(** The update works on a copy of the pod. *)
Definition enforceIdentity (p : Ptr) (status : StatefulSetStatus)
  : SlotF (StatefulSetStatus * Ptr) :=
  if identityMatches set (obj p) && storageMatches set (obj p) then mret (status, p)
  else
    res ← run (api (UpdateStatefulPod updateSet (obj p)));
    match res.1 with
    | Some e =>
        status ← run (withCondition FailedUpdatePod
          ("StatefulPodControl failed to update Pod error: " +:+ errorText e) status);
        return_ (status, Some e, p)
    | None => mret (status, p)
    end.

Definition syncReplica (i : Z) (p : Ptr) (status : StatefulSetStatus)
  : SlotF (StatefulSetStatus * Ptr) :=
  x ← recreateFailed i p status;
  let '(status, p) := x in
  if negb (isCreated (obj p)) then createReplica p status
  else if isTerminating (obj p) && monotonic then return_ (status, None, p)
  else
    p ← markInPlaceReady p status;
    if negb (isRunningAndReady (obj p)) && monotonic then return_ (status, None, p)
    else enforceIdentity p status.

(** The result of returning out of [updateStatefulSet]: status, error, and the pods
    the slots of [replicas] point to. *)
Notation SetResult := (StatefulSetStatus * option Err * list Ptr)%type.

(** [for i := range replicas]: [done] are the slots already visited. *)
Fixpoint syncReplicas (i : Z) (todo done : list Ptr) (status : StatefulSetStatus)
  : F (World W) SetResult (StatefulSetStatus * list Ptr) :=
  match todo with
  | [] => mret (status, done)
  | p :: todo' => fun w =>
      match syncReplica i p status w with
      | (Ok (Next (status, p)), w') => syncReplicas (i + 1) todo' (done ++ [p]) status w'
      | (Ok (Return (status, err, p)), w') => (Ok (Return (status, err, done ++ p :: todo')), w')
      | (Panic r, w') => (Panic r, w')
      end
  end.

(** ** The condemned pods, in descending order *)

Definition terminateCondemned (replicas : list Ptr) (firstUnhealthy : option Ptr) (p : Ptr)
    (status : StatefulSetStatus) : F (World W) SetResult StatefulSetStatus :=
  if isTerminating (obj p) then
    if monotonic then return_ (status, None, replicas) else mret status
  else if negb (isRunningAndReady (obj p)) && monotonic && negb (samePtr p firstUnhealthy) then
    _ ← run (lift (deref firstUnhealthy));
    return_ (status, None, replicas)
  else
    err ← run (api (DeleteStatefulPod set (obj p)));
    match err with
    | Some e => return_ (status, Some e, replicas)
    | None =>
        let status := adjustRevisions (-1) (obj p) status in
        if monotonic then return_ (status, None, replicas) else mret status
    end.

(** ** The update, from the largest ordinal down *)

Definition inPlaceUpdatePod (p : Ptr) (spec : InPlaceUpdateSpec)
  : M (World W) (option Err * Ptr) :=
  res ← api (UpdateStatefulPodCondition set (obj p)
          (mkPodCondition StatefulSetInPlaceUpdateReady ConditionFalse "StartInPlaceUpdate" ""));
  let '(err, pod) := res in
  let p := mkPtr (ptr_id p) pod in
  match err with
  | Some e => mret (Some e, p)
  | None =>
      err ← api (InPlaceUpdateStatefulPod set (obj p) spec);
      match err with
      | Some e => mret (Some e, p)
      | None =>
          _ ← onCache (podExpectUpdated (getStatefulSetKey (set_meta set)) (spec_revision spec)
                (obj p));
          mret (None, p)
      end
  end.

(** [if !skipUpdating && getPodRevision(replicas[target]) == currentRevision.Name] *)
Definition leaveCurrent (p : Ptr) (status : StatefulSetStatus) : StatefulSetStatus :=
  if decide (getPodRevision (obj p) = rev_Name curRev) then addCurrentReplicas (-1) status
  else status.

Definition deleteForUpdate (p : Ptr) (status : StatefulSetStatus)
  : SlotF (StatefulSetStatus * Ptr) :=
  err ← run (api (DeleteStatefulPod set (obj p)));
  match err with
  | Some e => return_ (status, Some e, p)
  | None => mret (leaveCurrent p status, p)
  end.

(** Move a pod of another revision: in place when possible, else by deleting it. *)
Definition replacePod (p : Ptr) (completed : option Err) (status : StatefulSetStatus)
  : SlotF (StatefulSetStatus * Ptr) :=
  plan ← run (lift (shouldDoInPlaceUpdate set updRev (getPodRevision (obj p)) revisions));
  match plan with
  | None => deleteForUpdate p status
  | Some spec =>
      if decide (completed <> None) then mret (status, p)
      else
        res ← run (inPlaceUpdatePod p spec);
        let '(err, p) := res in
        inPlaceOnly ← run (lift (isInPlaceOnly set));
        match err with
        | Some e =>
            if negb (IsConflict e) && negb inPlaceOnly then deleteForUpdate p status
            else mret (leaveCurrent p status, p)
        | None => mret (leaveCurrent p status, p)
        end
  end.

Record UpdateState := mkUpdateState {
  us_status : StatefulSetStatus;
  unavailablePods : list string;
  us_replicas : list Ptr;
}.

Definition updateTarget (maxUnavailable : Z) (target : Z) (s : UpdateState)
  : F (World W) SetResult UpdateState := fun w =>
  match index (us_replicas s) target with
  | Panic r => (Panic r, w)
  | Ok p =>
      let completed := checkInPlaceUpdateCompleted (obj p) in
      let replace :=
        if decide (getPodRevision (obj p) <> rev_Name updRev) then
          if isTerminating (obj p) then mret (us_status s, p)
          else replacePod p completed (us_status s)
        else mret (us_status s, p) in
      match replace w with
      | (Panic r, w') => (Panic r, w')
      | (Ok (Return (status, err, p)), w') =>
          (Ok (Return (status, err, <[Z.to_nat target := p]> (us_replicas s))), w')
      | (Ok (Next (status, p)), w') =>
          let replicas := <[Z.to_nat target := p]> (us_replicas s) in
          let unavailable :=
            if decide (getPodRevision (obj p) <> rev_Name updRev \/ isHealthy (obj p) = false
                       \/ completed <> None)
            then unavailablePods s ++ [Name (pod_meta (obj p))] else unavailablePods s in
          if decide (Z.of_nat (length unavailable) >= maxUnavailable)
          then (Ok (Return (status, None, replicas)), w')
          else (Ok (Next (mkUpdateState status unavailable replicas)), w')
      end
  end.

(** [len(replicas) - 1, ..., updateMin] *)
Definition updateTargets (replicas : list Ptr) (updateMin : Z) : list Z :=
  reverse (seqZ updateMin (Z.of_nat (length replicas) - updateMin)).

(** [updateMin] and [maxUnavailable] of the strategy; [None] when it is paused. *)
Definition updateBounds (us : StatefulSetUpdateStrategy) (replicaCount : Z)
  : Outcome (Result (option (Z * Z))) :=
  match RollingUpdate us with
  | None => Ok (inr (Some (0, 1)))
  | Some ru =>
      updateMin ← deref (Partition ru);
      match GetValueFromIntOrPercent (default (FromInt 1) (MaxUnavailable ru)) replicaCount true with
      | inl err => Ok (inl err)
      | inr maxUnavailable =>
          if Paused ru then Ok (inr None) else Ok (inr (Some (updateMin, maxUnavailable)))
      end
  end.

Definition updateReplicas (replicaCount : Z) (replicas : list Ptr) (status : StatefulSetStatus)
  : F (World W) SetResult SetResult :=
  us ← run (lift (deref (UpdateStrategy (set_Spec set))));
  if decide (us_Type us = OnDeleteStatefulSetStrategyType) then mret (status, None, replicas) else
  satisfied ← run (readCache (fun cache =>
    (SatisfiedExpectations (getStatefulSetKey (set_meta set)) (rev_Name updRev) cache).1));
  if negb satisfied then mret (status, None, replicas) else
  bounds ← run (lift (updateBounds us replicaCount));
  match bounds with
  | inl err => mret (status, Some err, replicas)
  | inr None => mret (status, None, replicas)
  | inr (Some (updateMin, maxUnavailable)) =>
      s ← (forLoop (updateTarget maxUnavailable) (updateTargets replicas updateMin)
             (mkUpdateState status [] replicas) : F (World W) SetResult UpdateState);
      mret (us_status s, None, us_replicas s)
  end.

(** ** The loop body as a whole *)

Definition syncSet (replicaCount : Z) (replicas condemned : list Ptr) (status : StatefulSetStatus)
  : F (World W) SetResult SetResult :=
  let '(unhealthy, firstUnhealthy) := findUnhealthy (replicas ++ condemned) in
  _ ← run (lift (if decide (unhealthy > 0) then (_ ← deref firstUnhealthy; Ok tt) else Ok tt));
  if decide (DeletionTimestamp (set_meta set) <> None) then mret (status, None, replicas) else
  x ← syncReplicas 0 replicas [] status;
  let '(status, replicas) := x in
  status ← (forLoop (terminateCondemned replicas firstUnhealthy) (reverse condemned) status
            : F (World W) SetResult StatefulSetStatus);
  updateReplicas replicaCount replicas status.
End Sync.

(** ** [updateStatefulSet] and [UpdateStatefulSet] *)

Definition initialStatus (set : StatefulSet) (curRev updRev : ControllerRevision)
    (collisionCount : Z) : StatefulSetStatus :=
  mkStatefulSetStatus (Generation (set_meta set)) 0 0 0 0 (rev_Name curRev) (rev_Name updRev)
    (Some collisionCount) [].

(** No status is returned when a revision cannot be applied. *)
Definition updateStatefulSet (set : StatefulSet) (curRev updRev : ControllerRevision)
    (collisionCount : Z) (pods : list Pod) (revisions : list ControllerRevision)
  : M (World W) (option StatefulSetStatus * option Err * list Ptr) :=
  currentSet ← lift (ApplyRevision set curRev);
  match currentSet with inl err => mret (None, Some err, []) | inr currentSet =>
  updateSet ← lift (ApplyRevision set updRev);
  match updateSet with inl err => mret (None, Some err, []) | inr updateSet =>
  replicaCount ← lift (deref (spec_Replicas (set_Spec set)));
  if decide (replicaCount < 0) then lift (Panic NegativeLength) else
  let status := foldl (countPod curRev updRev) (initialStatus set curRev updRev collisionCount)
                  pods in
  let '(slots, condemned) := partitionPods replicaCount pods in
  replicas ← lift (fillReplicas currentSet updateSet curRev updRev 0 slots);
  let condemned := goSort (fun p => getOrdinal (obj p)) condemned in
  res ← body (syncSet set currentSet updateSet curRev updRev revisions
                replicaCount replicas condemned status);
  let '(status, err, replicas) := res in
  mret (Some status, err, replicas)
  end end.

Definition updateStatefulSetStatus (set : StatefulSet) (status : StatefulSetStatus)
  : M (World W) (option Err) :=
  status ← lift (completeRollingUpdate set status);
  if negb (inconsistentStatus set status) then mret None
  else api (UpdateStatefulSetStatus set status).

(** The listed pods after the loop wrote to some of them. *)
Definition writeBack (pods : list Pod) (replicas : list Ptr) : list Pod :=
  foldl (fun pods p => match ptr_id p with
                       | Listed i => <[i := obj p]> pods
                       | Fresh _ => pods
                       end) pods replicas.

Definition observePods (set : StatefulSet) (updRev : ControllerRevision) (pods : list Pod)
    (cache : controllerCache) : controllerCache :=
  foldl (fun cache pod =>
    podObserveUpdated (getStatefulSetKey (set_meta set)) (rev_Name updRev) pod cache) cache pods.

Definition UpdateStatefulSet (set : StatefulSet) (pods : list Pod) : M (World W) (option Err) :=
  listed ← api (ListRevisions set);
  match listed with inl err => mret (Some err) | inr revisions =>
  revs ← api (getStatefulSetRevisions set (SortControllerRevisions revisions));
  match revs with (inl err, _) => mret (Some err) | (inr rs, revisions) =>
  let curRev := currentRevision rs in
  let updRev := updateRevision rs in
  _ ← onCache (observePods set updRev pods);
  res ← updateStatefulSet set curRev updRev (collisions rs) pods revisions;
  match res with
  | (_, Some err, _) => mret (Some err)
  | (None, None, _) => lift (Panic NilDereference)
  | (Some status, None, replicas) =>
      err ← updateStatefulSetStatus set status;
      match err with
      | Some e => mret (Some e)
      | None =>
          api (truncateHistory set (writeBack pods replicas) revisions curRev updRev)
      end
  end end end.
End Control.
