(* ===== verification/StsController.v ===== *)
(** The StatefulSet controller ([controllers/statefulset_controller.go]): from an event's
    key to the control loop of [Control]. *)

From S2P Require Import Prelude Objects GoString Libraries Coordinate Cluster CallLog Fixtures.
From S2P Require Import Naming Expectations PodIdentity SetStatus InPlace Interfaces Revisions.
From S2P Require Import PodControl RealPodControl Control.

(** ** What the reconciler is made of *)

(** [ControlInterface] of [controllers/stateful_set_control.go]. *)
Class ControlInterface (W : Type) := {
  control_UpdateStatefulSet : StatefulSet -> list Pod -> M W (option Err);
  control_ListRevisions : StatefulSet -> M W (Result (list ControllerRevision));
  control_AdoptOrphanRevisions : StatefulSet -> list ControllerRevision ->
    M W (option Err * list ControllerRevision);
}.

(** [kubecontroller.RecheckDeletionTimestamp] and [PodControllerRefManager.ClaimPods] with
    the callbacks they are given: the first gets the set again, the second patches pods
    through a pod control, asks before adopting, and keeps what passes the filter. *)
Class RefManager := {
  RecheckDeletionTimestamp {W : Type} : M W (Result ObjectMeta) -> M W (option Err);
  ClaimPods {W : Type} : (string -> string -> string -> M W (option Err)) -> ObjectMeta ->
    option LabelSelector -> M W (option Err) -> (Pod -> bool) -> list Pod ->
    M W (Result (list Pod));
}.

(** They touch the world only through their callbacks, and pods are claimed from those
    offered that pass the filter. *)
Class RefManagerLaws `{RefManager} := {
  recheck_only {W : Type} (get : M W (Result ObjectMeta)) (Inv : W -> Prop) w :
    (forall w, Inv w -> Inv (get w).2) -> Inv w -> Inv (RecheckDeletionTimestamp get w).2;
  claim_only {W : Type} patch meta selector canAdopt keep pods (Inv : W -> Prop) w :
    (forall ns name data w, Inv w -> Inv (patch ns name data w).2) ->
    (forall w, Inv w -> Inv (canAdopt w).2) ->
    Inv w -> Inv (ClaimPods patch meta selector canAdopt keep pods w).2;
  claim_kept {W : Type} patch meta selector canAdopt keep pods (w : W) claimed :
    (ClaimPods patch meta selector canAdopt keep pods w).1 = Ok (inr claimed) ->
    forall p, p ∈ claimed -> p ∈ pods /\ keep p = true;
}.

(** Of pods that all are under the controller and selected if they pass the filter, those
    are claimed as they are; others may be patched. *)
Class ClaimLaws `{RefManager, LabelMatch} := {
  claim_controlled {W : Type} patch meta selector canAdopt keep pods (Inv : W -> Prop) w :
    (forall p data w, p ∈ pods -> keep p = false -> Inv w ->
       Inv (patch (Namespace (pod_meta p)) (Name (pod_meta p)) data w).2) ->
    (forall w, Inv w -> Inv (canAdopt w).2) ->
    (forall p, p ∈ pods -> keep p = true ->
       controlledBy meta p /\ Matches selector (Labels (pod_meta p)) = true) ->
    Inv w ->
    Inv (ClaimPods patch meta selector canAdopt keep pods w).2
    /\ forall claimed, (ClaimPods patch meta selector canAdopt keep pods w).1 = Ok (inr claimed) ->
         claimed = filter (fun p => keep p = true) pods;
}.

(** ** Defaults *)

Definition setRollingUpdate (ru : RollingUpdateStatefulSetStrategy) (spec : StatefulSetSpec)
    (us : StatefulSetUpdateStrategy) : StatefulSetSpec :=
  mkStatefulSetSpec (spec_Replicas spec) (Selector spec) (Template spec)
    (VolumeClaimTemplates spec) (ServiceName spec) (PodManagementPolicy spec)
    (Some (mkUpdateStrategy (us_Type us) (Some ru))) (RevisionHistoryLimit spec).

(** The first thing missing from a spec; a missing partition is also set. *)
Definition checkSetDefaultVariable (setSpec : StatefulSetSpec) : StatefulSetSpec * option Err :=
  match spec_Replicas setSpec with
  | None => (setSpec, Some (ErrMsg "Replicas not define"))
  | Some _ =>
      match UpdateStrategy setSpec with
      | None => (setSpec, Some (ErrMsg "UpdateStrategy not define"))
      | Some us =>
          match RollingUpdate us with
          | None => (setSpec, Some (ErrMsg "UpdateStrategy.RollingUpdate not define"))
          | Some ru =>
              match Partition ru with
              | None =>
                  (setRollingUpdate
                     (mkRollingUpdate (Some 1) (MaxUnavailable ru) (PodUpdatePolicy ru)
                        (Paused ru) (PriorityStrategy ru)) setSpec us,
                   Some (ErrMsg "UpdateStrategy.RollingUpdate.Partition not define"))
              | Some _ => (setSpec, None)
              end
          end
      end
  end.

Definition withSpec (spec : StatefulSetSpec) (set : StatefulSet) : StatefulSet :=
  mkStatefulSet (set_meta set) spec (set_Status set).

(** ** The reconciler *)

Section Reconciler.
Context {W : Type} `{HistoryLib, SelectorLib, RefManager, ErrorText}.
Context `{ControlInterface W, Client W StatefulSet, Client W Pod, Lister W Pod}.

(** Read the set again; it must still be the same object. *)
Definition freshSet (set : StatefulSet) : M W (Result ObjectMeta) :=
  got ← call (Get (A := StatefulSet) (keyOf (set_meta set)));
  match got with
  | inl err => mret (inl err)
  | inr fresh =>
      if decide (UID (set_meta fresh) <> UID (set_meta set))
      then mret (inl (ErrMsg ("original StatefulSet " +:+ Namespace (set_meta set) +:+ "/"
                 +:+ Name (set_meta set) +:+ " is gone: got uid " +:+ UID (set_meta fresh)
                 +:+ ", wanted " +:+ UID (set_meta set))))
      else mret (inr (set_meta fresh))
  end.

Definition adoptOrphanRevisions (set : StatefulSet) : M W (option Err) :=
  listed ← control_ListRevisions set;
  match listed with
  | inl err => mret (Some err)
  | inr revisions =>
      let hasOrphans := existsb (fun r => bool_decide (GetControllerOf (rev_meta r) = None))
                          revisions in
      if hasOrphans then
        fresh ← freshSet set;
        match fresh with
        | inl err => mret (Some err)
        | inr _ => res ← control_AdoptOrphanRevisions set revisions; mret res.1
        end
      else mret None
  end.

Definition getPodsForStatefulSet (set : StatefulSet) : M W (Result (list Pod)) :=
  listed ← call (List_ (A := Pod) (Namespace (set_meta set)) None);
  match listed with
  | inl err => mret (inl err)
  | inr pods =>
      ClaimPods RealPodControl.PatchPod (set_meta set) (Selector (set_Spec set))
        (RecheckDeletionTimestamp (freshSet set)) (isMemberOf set) pods
  end.

Definition syncStatefulSet (set : StatefulSet) (pods : list Pod) : M W (option Err) :=
  control_UpdateStatefulSet set pods.

Definition Reconcile (req : ObjectKey) : M W (option Err) :=
  got ← call (Get (A := StatefulSet) (realReconcileName req));
  match got with
  | inl err => if IsNotFound err then mret None else mret (Some err)
  | inr set =>
      let '(spec, _) := checkSetDefaultVariable (set_Spec set) in
      let set := withSpec spec set in
      match LabelSelectorAsSelector (Selector (set_Spec set)) with
      | Some _ => mret None
      | None =>
          err ← adoptOrphanRevisions set;
          match err with
          | Some e => mret (Some e)
          | None =>
              pods ← getPodsForStatefulSet set;
              match pods with
              | inl _ => mret None
              | inr pods => _ ← syncStatefulSet set pods; mret None
              end
          end
      end
  end.
End Reconciler.

(** The control the operator runs the reconciler with. *)
#[export] Instance realControl {W : Type}
    `{KubeLib, MapRange, Json Coordinates, PatchLib, Json InPlaceUpdateState}
    `{HistoryLib, SetCodec, SelectorLib, IntStrLib, GoSort, ErrorText}
    `{Recorder W, Clock W, StatefulPodControl W, StatusUpdater W, ControllerHistory W}
  : ControlInterface (World W) := {|
  control_UpdateStatefulSet := UpdateStatefulSet;
  control_ListRevisions set := api (ListRevisions set);
  control_AdoptOrphanRevisions set revisions := api (AdoptOrphanRevisions set revisions);
|}.

(** ** The calls of a reconcile *)

Inductive ReconcileCall :=
  | ApiX (c : ApiCall)
  | RevisionsX (set : StatefulSet) (answer : Outcome (Result (list ControllerRevision)))
  | AdoptX (set : StatefulSet) (revisions : list ControllerRevision)
  | PodsX (ns : string) (selector : option LabelSelector) (answer : Result (list Pod))
  | UpdateX (set : StatefulSet) (pods : list Pod).
#[export] Instance tracedApi {A} `{Traced A ApiCall} : Traced A ReconcileCall :=
  fun r err => ApiX (exchange r err).

(** A call is logged with what it was answered. *)
Definition loggedAnswer {W C A} (c : Outcome A -> C) (m : M W A) : M (W * list C) A :=
  fun '(w, log) => let (o, w') := m w in (o, (w', log ++ [c o])).

#[export] Instance tracedControl {W} `{ControlInterface W}
  : ControlInterface (W * list ReconcileCall) := {|
  control_UpdateStatefulSet set pods := logged (UpdateX set pods) (control_UpdateStatefulSet set pods);
  control_ListRevisions set := loggedAnswer (RevisionsX set) (control_ListRevisions set);
  control_AdoptOrphanRevisions set revisions :=
    logged (AdoptX set revisions) (control_AdoptOrphanRevisions set revisions);
|}.
#[export] Instance tracedPods {W} `{Lister W Pod} : Lister (W * list ReconcileCall) Pod := {|
  List_ ns selector w := let (r, w') := List_ ns selector w.1 in
    (r, (w', w.2 ++ [PodsX ns selector r]));
|}.

(** A call the reconciler makes of its own: it reads, and patches pods for ownership. *)
Definition ownCall (c : ReconcileCall) : Prop :=
  match c with
  | ApiX (SetCallX (GetRequest _) _) | ApiX (PodCallX (GetRequest _) _)
  | ApiX (PodCallX (PatchRequest _ _) _) => True
  | _ => False
  end.

Section Properties.
Context {W : Type} `{HistoryLib, SelectorLib, RefManagerLaws, ErrorText}.
Context `{ControlInterface W, Client W StatefulSet, Client W Pod, Lister W Pod}.
Notation T := (W * list ReconcileCall)%type.

Lemma emits_loggedCall {A} c (m : M W A) (Q : Outcome A -> list ReconcileCall -> Prop) :
  (forall w, Q (m w).1 [c]) -> emits (State := T) (logged c m) Q.
Proof.
  intros HQ [w log]. exists [c]. unfold logged. specialize (HQ w). destruct (m w) as [o w']. by split.
Qed.

Lemma emits_answered {A} c (m : M W A) (Q : Outcome A -> list ReconcileCall -> Prop) :
  (forall o, Q o [c o]) -> emits (State := T) (loggedAnswer c m) Q.
Proof.
  intros HQ [w log]. unfold loggedAnswer. destruct (m w) as [o w']. exists [c o]. by split.
Qed.

(** Code that only makes calls of a kind, as an invariant of the log. *)
Lemma emits_only {A} (P : ReconcileCall -> Prop) (m : M T A) :
  (forall w0, forall w, (exists cs, w.2 = w0 ++ cs /\ Forall P cs) ->
     exists cs, (m w).2.2 = w0 ++ cs /\ Forall P cs) ->
  emits (State := T) m (fun _ cs => Forall P cs).
Proof.
  intros Hm w. destruct (Hm w.2 w) as (cs & E & Hcs); [exists []; by rewrite app_nil_r|].
  exists cs. by split.
Qed.

Lemma only_emits {A} (P : ReconcileCall -> Prop) (m : M T A) w0 w :
  emits (State := T) m (fun _ cs => Forall P cs) ->
  (exists cs, w.2 = w0 ++ cs /\ Forall P cs) ->
  exists cs, (m w).2.2 = w0 ++ cs /\ Forall P cs.
Proof.
  intros Hm (cs & E & Hcs). destruct (Hm w) as (cs' & E' & Hcs').
  exists (cs ++ cs'). split; [|by apply Forall_app].
  unfold logOf, pairLog in E'. by rewrite E', E, app_assoc.
Qed.

(** Reading the set again, and what becomes of it. *)
Definition freshAnswer (set : StatefulSet) (o : Outcome (Result ObjectMeta))
    (cs : list ReconcileCall) : Prop :=
  exists w, let r := (Get (A := StatefulSet) (keyOf (set_meta set)) (w : W)).1 in
    cs = [ApiX (SetCallX (GetRequest (keyOf (set_meta set))) (errorOf r))]
    /\ match r with
       | inl e => o = Ok (inl e)
       | inr fresh =>
           if decide (UID (set_meta fresh) = UID (set_meta set))
           then o = Ok (inr (set_meta fresh)) else exists e, o = Ok (inl e)
       end.

Lemma freshSet_emits set : emits (State := T) (freshSet set) (freshAnswer set).
Proof.
  unfold freshSet. apply emits_bind, emits_Get_from. intros r w ->.
  destruct (Get _ w).1 as [e|fresh] eqn:E; [apply emits_ret; exists w; by rewrite E|].
  case_decide as Hu; apply emits_ret; exists w; rewrite E; (split; [done|]).
  - rewrite decide_False by done. by eexists.
  - rewrite decide_True; [done|]. by destruct (decide (UID (set_meta fresh) = UID (set_meta set))).
Qed.

Lemma PatchPod_emits ns name data :
  emits (State := T) (RealPodControl.PatchPod ns name data) (fun _ cs => Forall ownCall cs).
Proof.
  unfold RealPodControl.PatchPod. apply emits_bind, emits_Get. intros [e|pod].
  - destruct (IsNotFound e); apply emits_ret; by repeat constructor.
  - apply emits_bind, (emits_inOut (fun a => PatchRequest a data) (fun a => Patch a data)).
    intros err p w w' _. apply emits_ret. by repeat constructor.
Qed.

Lemma freshSet_own set : emits (State := T) (freshSet set) (fun _ cs => Forall ownCall cs).
Proof.
  eapply emits_mono; [apply freshSet_emits|]. intros o cs (w & -> & _). by repeat constructor.
Qed.

(** *** Claiming *)

Notation claim set listed :=
  (ClaimPods (W := T) RealPodControl.PatchPod (set_meta set) (Selector (set_Spec set))
     (RecheckDeletionTimestamp (freshSet set)) (isMemberOf set) listed).

(** The pods of the set's namespace are listed, all of them, and claimed from what was
    listed. *)
Definition claimCalls (set : StatefulSet) (o : Outcome (Result (list Pod)))
    (cs : list ReconcileCall) : Prop :=
  exists answer claiming, cs = PodsX (Namespace (set_meta set)) None answer :: claiming
    /\ Forall ownCall claiming
    /\ match answer with
       | inl e => claiming = [] /\ o = Ok (inl e)
       | inr listed => (exists w : T, o = (claim set listed w).1)
           /\ forall pods, o = Ok (inr pods) -> forall p, p ∈ pods -> p ∈ listed /\ isMemberOf set p = true
       end.

Lemma claim_own set listed :
  emits (State := T) (claim set listed) (fun _ cs => Forall ownCall cs).
Proof.
  apply emits_only. intros w0 w Hw.
  apply (claim_only _ _ _ _ _ _ (fun w : T => exists cs, w.2 = w0 ++ cs /\ Forall ownCall cs));
    [| |done].
  - intros ns name data w'. by apply only_emits, PatchPod_emits.
  - intros w' Hw'.
    apply (recheck_only _ (fun w : T => exists cs, w.2 = w0 ++ cs /\ Forall ownCall cs)); [|done].
    intros w''. by apply only_emits, freshSet_own.
Qed.

Lemma getPods_emits set : emits (State := T) (getPodsForStatefulSet set) (claimCalls set).
Proof.
  unfold getPodsForStatefulSet. apply emits_bind. intros [w log]. unfold call. cbn.
  destruct (List_ (Namespace (set_meta set)) None w) as [r w']. eexists. split; [reflexivity|].
  destruct r as [e|listed]; [apply emits_ret; by exists (inl e), []|].
  intros w1. destruct (claim_own set listed w1) as (cs & E & Hcs). exists cs. split; [exact E|].
  exists (inr listed), cs. split_and!; [done|done|by exists w1|].
  intros pods Hp p Hin. by destruct (claim_kept _ _ _ _ _ _ _ _ Hp p Hin).
Qed.

(** *** Adoption *)

(** The set's revisions are listed; if one of them has no controller, the set is read
    again, and if it still is the same object the revisions listed are adopted. *)
Definition adoptCalls (set : StatefulSet) (o : Outcome (option Err)) (cs : list ReconcileCall)
  : Prop :=
  exists answer rest, cs = RevisionsX set answer :: rest
    /\ match answer with
       | Panic p => rest = [] /\ o = Panic p
       | Ok (inl e) => rest = [] /\ o = Ok (Some e)
       | Ok (inr revisions) =>
           if decide (Exists (fun r => GetControllerOf (rev_meta r) = None) revisions) then
             exists fresh reading adopting, rest = reading ++ adopting /\ freshAnswer set fresh reading
               /\ match fresh with
                  | Ok (inr _) => adopting = [AdoptX set revisions]
                      /\ exists w : W, o = res ← (control_AdoptOrphanRevisions set revisions w).1; Ok res.1
                  | Ok (inl e) => adopting = [] /\ o = Ok (Some e)
                  | Panic p => adopting = [] /\ o = Panic p
                  end
           else rest = [] /\ o = Ok None
       end.

Lemma adoptOrphanRevisions_emits set :
  emits (State := T) (adoptOrphanRevisions set) (adoptCalls set).
Proof.
  unfold adoptOrphanRevisions. apply emits_bind, (emits_answered (RevisionsX set)).
  intros [[e|revisions]|r]; [apply emits_ret; by eexists _, []| |by eexists _, []].
  assert (Ho : existsb (fun r => bool_decide (GetControllerOf (rev_meta r) = None)) revisions = true
    <-> Exists (fun r => GetControllerOf (rev_meta r) = None) revisions).
  { rewrite existsb_exists, list.Exists_exists. setoid_rewrite bool_decide_eq_true.
    by setoid_rewrite list_elem_of_In. }
  destruct (existsb _ revisions).
  - apply emits_bind. eapply emits_mono; [apply freshSet_emits|]. intros fresh reading Hf.
    assert (Hend : forall o adopting,
      match fresh with
      | Ok (inr _) => adopting = [AdoptX set revisions]
          /\ exists w : W, o = res ← (control_AdoptOrphanRevisions set revisions w).1; Ok res.1
      | Ok (inl e) => adopting = [] /\ o = Ok (Some e)
      | Panic p => adopting = [] /\ o = Panic p
      end -> adoptCalls set o ([RevisionsX set (Ok (inr revisions))] ++ reading ++ adopting)).
    { intros o adopting Ha. exists (Ok (inr revisions)), (reading ++ adopting). split; [done|].
      rewrite decide_True by by apply Ho. by exists fresh, reading, adopting. }
    destruct fresh as [[e|m]|p]; [by apply emits_ret, Hend| |rewrite <-(app_nil_r reading); by apply Hend].
    apply emits_bind, emits_loggedCall. intros w.
    destruct (control_AdoptOrphanRevisions set revisions w).1 as [res|p] eqn:E;
      [apply emits_ret|]; apply Hend; (split; [done|]); exists w; by rewrite E.
  - apply emits_ret. exists (Ok (inr revisions)), []. split; [done|].
    rewrite decide_False; [done|]. by intros ?%Ho.
Qed.

(** *** The reconcile *)

(** The calls of a reconcile that was answered [r] when it read the set. *)
Definition reconcileCalls (req : ObjectKey) (r : Result StatefulSet) (o : Outcome (option Err))
    (cs : list ReconcileCall) : Prop :=
  exists rest, cs = ApiX (SetCallX (GetRequest (realReconcileName req)) (errorOf r)) :: rest
  /\ match r with
     | inl e => rest = [] /\ o = Ok (if IsNotFound e then None else Some e)
     | inr found =>
         let set := withSpec (checkSetDefaultVariable (set_Spec found)).1 found in
         if decide (LabelSelectorAsSelector (Selector (set_Spec set)) = None) then
           exists adopted adopting after, rest = adopting ++ after /\ adoptCalls set adopted adopting
             /\ match adopted with
                | Panic p => after = [] /\ o = Panic p
                | Ok (Some e) => after = [] /\ o = Ok (Some e)
                | Ok None => exists claimed claiming loop, after = claiming ++ loop
                    /\ claimCalls set claimed claiming
                    /\ match claimed with
                       | Panic p => loop = [] /\ o = Panic p
                       | Ok (inl _) => loop = [] /\ o = Ok None
                       | Ok (inr pods) => loop = [UpdateX set pods]
                           /\ exists w : W, o = _ ← (control_UpdateStatefulSet set pods w).1; Ok None
                       end
                end
         else rest = [] /\ o = Ok None
     end.

Lemma Reconcile_emits req r :
  emitsIn (State := T) (fun w => (Get (realReconcileName req) w.1).1 = r) (Reconcile req)
    (reconcileCalls req r).
Proof.
  intros [w0 log] Hr. unfold Reconcile, mbind, M_bind, call. cbn [Get tracedClient fst snd] in *.
  destruct (Get (realReconcileName req) w0) as [r' w1]. cbn [fst] in Hr. subst r'.
  set (first := exchange (GetRequest (realReconcileName req)) (errorOf r)).
  match goal with |- context [logOf (?m (w1, log ++ [first])).2] =>
    cut (emits (State := T) m (fun o cs => reconcileCalls req r o (first :: cs)))
  end.
  { intros Hm. destruct (Hm (w1, log ++ [first])) as (cs & E & HQ). exists (first :: cs).
    split; [|exact HQ]. unfold logOf, pairLog in E |- *. cbn [snd] in E |- *. rewrite E.
    by rewrite <-app_assoc. }
  destruct r as [e|found].
  { destruct (IsNotFound e) eqn:Ee; apply emits_ret; exists []; by rewrite Ee. }
  destruct (checkSetDefaultVariable (set_Spec found)) as [spec err] eqn:Es.
  set (set := withSpec spec found).
  destruct (LabelSelectorAsSelector _) eqn:El.
  { apply emits_ret. exists []. split; [done|]. cbv zeta. rewrite Es, decide_False; [done|].
    cbn [fst]. by fold set; rewrite El. }
  assert (Hset : forall o rest,
    (exists adopted adopting after, rest = adopting ++ after /\ adoptCalls set adopted adopting
       /\ match adopted with
          | Panic p => after = [] /\ o = Panic p
          | Ok (Some e) => after = [] /\ o = Ok (Some e)
          | Ok None => exists claimed claiming loop, after = claiming ++ loop
              /\ claimCalls set claimed claiming
              /\ match claimed with
                 | Panic p => loop = [] /\ o = Panic p
                 | Ok (inl _) => loop = [] /\ o = Ok None
                 | Ok (inr pods) => loop = [UpdateX set pods]
                     /\ exists w : W, o = _ ← (control_UpdateStatefulSet set pods w).1; Ok None
                 end
          end) -> reconcileCalls req (inr found) o (first :: rest)).
  { intros o rest Hrest. exists rest. split; [done|]. cbv zeta. by rewrite Es, decide_True. }
  clearbody first set. clear Es El.
  apply emits_bind. eapply emits_mono; [apply adoptOrphanRevisions_emits|].
  intros [[e|]|p] adopting Ha.
  - apply emits_ret. rewrite app_nil_r. apply Hset. exists (Ok (Some e)), adopting, [].
    by rewrite app_nil_r.
  - apply emits_bind. eapply emits_mono; [apply getPods_emits|]. intros claimed claiming Hc.
    assert (Hend : forall o loop,
      match claimed with
      | Panic p => loop = [] /\ o = Panic p
      | Ok (inl _) => loop = [] /\ o = Ok None
      | Ok (inr pods) => loop = [UpdateX set pods]
          /\ exists w : W, o = _ ← (control_UpdateStatefulSet set pods w).1; Ok None
      end -> reconcileCalls req (inr found) o (first :: adopting ++ claiming ++ loop)).
    { intros o loop Hl. apply Hset. exists (Ok None), adopting, (claiming ++ loop).
      split_and!; [done..|]. by exists claimed, claiming, loop. }
    destruct claimed as [[e|pods]|p]; [by apply emits_ret, Hend| |rewrite <-(app_nil_r claiming); by apply Hend].
    apply emits_bind, emits_loggedCall. intros w.
    destruct (control_UpdateStatefulSet set pods w).1 as [e|p] eqn:E;
      [apply emits_ret|]; apply Hend; (split; [done|]); exists w; by rewrite E.
  - apply Hset. exists (Panic p), adopting, []. by rewrite app_nil_r.
Qed.

(** C21: The calls of a reconcile, for each answer [r] to its first read, of the set under the
    name its key stands for. When that fails it does nothing more, and is successful if
    there is no such set. Otherwise it works on the set it read, with the defaults: a
    malformed selector ends it; the revisions are listed, and if one has no controller they
    are adopted, after the set was read again and is still the same; then the pods of
    the namespace are listed and claimed; and then the control loop is entered, exactly
    once and last, with that set and the pods that were claimed, which are listed members.
    Errors of the listing and of adopting are returned, those of the claiming and of the
    loop are not. *)
Theorem Reconcile_calls req r :
  emitsIn (State := T) (fun w => (Get (realReconcileName req) w.1).1 = r) (Reconcile req)
    (reconcileCalls req r).
Proof. apply Reconcile_emits. Qed.
End Properties.

(** ** Witness: a server with one set and one pod, and a control that does nothing *)

Notation fx_setServer := (gmap ObjectKey StatefulSet * gmap ObjectKey Pod)%type.
#[export] Instance fx_setsOf : Client fx_setServer StatefulSet := onFst (fx_client set_meta).
#[export] Instance fx_podsOf : Client fx_setServer Pod := onSnd (fx_client pod_meta).
#[export] Instance fx_podList : Lister fx_setServer Pod := {|
  List_ ns selector w := let (r, w') := List_ (Lister := fx_lister pod_meta) ns selector w.2 in
    (r, (w.1, w'));
|}.
#[export] Instance fx_refs : RefManager := {|
  RecheckDeletionTimestamp W get := get ≫= fun r => mret (errorOf r);
  ClaimPods W patch meta selector canAdopt keep pods :=
    mret (inr (filter (fun p => keep p = true) pods));
|}.
#[export] Instance fx_refs_laws : RefManagerLaws.
Proof.
  split.
  - intros W get Inv w Hget HI. cbn. unfold mbind, M_bind. specialize (Hget w HI).
    by destruct (get w) as [[]].
  - by intros W patch meta selector canAdopt keep pods Inv w _ _ HI.
  - intros W patch meta selector canAdopt keep pods w claimed [= <-] p Hp.
    by apply list_elem_of_filter in Hp as [? ?].
Defined.
#[export] Instance fx_refs_claim : ClaimLaws.
Proof.
  split. intros W patch meta selector canAdopt keep pods Inv w _ _ _ HI.
  split; [exact HI|]. by intros claimed [= <-].
Defined.
#[export] Instance fx_control : ControlInterface fx_setServer := {|
  control_UpdateStatefulSet set pods := mret None;
  control_ListRevisions set := mret (inr [fx_revision "r1" "nginx:1" 1]);
  control_AdoptOrphanRevisions set revisions := mret (None, revisions);
|}.

Definition fx_oneSet : fx_setServer :=
  ({[mkKey "default" "web" := fx_spreadSet]},
   {[mkKey "default" "web-0" := fx_pod "default" "web-0" "r1" "Running" true]}).

Example calls_of_reconcile :
  match ((Reconcile (mkKey "default" "web-0") : M (fx_setServer * list ReconcileCall) _)
          (fx_oneSet, [])).2.2 with
  | [ApiX (SetCallX (GetRequest (mkKey _ "web")) None); RevisionsX _ (Ok (inr [_]));
     ApiX (SetCallX (GetRequest (mkKey _ "web")) None); AdoptX _ [_];
     PodsX "default" None (inr [_]); UpdateX _ [_]] => True
  | _ => False
  end.
Proof. vm_compute. exact I. Qed.

Lemma Reconcile_calls_witness :
  exists cs, ((Reconcile (mkKey "default" "web-0") : M (fx_setServer * list ReconcileCall) _)
                (fx_oneSet, [])).2.2 = [] ++ cs
    /\ reconcileCalls (W := fx_setServer) (mkKey "default" "web-0") (inr fx_spreadSet) (Ok None) cs.
Proof.
  destruct (Reconcile_calls (W := fx_setServer) (mkKey "default" "web-0") (inr fx_spreadSet)
              (fx_oneSet, [])) as (cs & E & HQ); [vm_compute; reflexivity|].
  exists cs. split; [exact E|exact HQ].
Defined.
