(* ===== verification/Workloads.v ===== *)
(** What the Stone and Water controllers share: the strategies of [api/v1/strategy.go],
    the Service and Deployment objects they write, the names of [controllers/util.go],
    and the library functions they call. *)

From S2P Require Import Prelude Objects GoString Libraries Coordinate Cluster CallLog.

(** ** Strategies *)

Definition StrategyType := string.
Definition Alpha : StrategyType := "Alpha".
Definition Beta : StrategyType := "Beta".
Definition Omega : StrategyType := "Omega".
Definition Release : StrategyType := "Release".

(** ** Services and deployments, by the fields the code touches *)

Record ServicePort := mkServicePort {
  port_Name : string;
  port_rest : string;
}.
Record ServiceSpec := mkServiceSpec {
  Ports : list ServicePort;
  svc_Selector : gmap string string;
  svcspec_rest : string;
}.
Record Service := mkService {
  svc_meta : ObjectMeta;
  svc_Spec : ServiceSpec;
}.
Definition setServiceSelector (sel : gmap string string) (s : ServiceSpec) : ServiceSpec :=
  mkServiceSpec (Ports s) sel (svcspec_rest s).

Record DeploymentSpec := mkDeploymentSpec {
  dep_Replicas : option Z;
  dep_Template : PodTemplateSpec;
  dep_Selector : option LabelSelector;
}.
Record Deployment := mkDeployment {
  dep_meta : ObjectMeta;
  dep_Spec : DeploymentSpec;
}.

(** ** Library functions *)

(** [json.Marshal] and [json.Unmarshal] of a spec kept in an annotation. *)
Class SpecCodec (A : Type) := {
  marshalSpec : A -> Result string;
  unmarshalSpec : string -> Result A;
}.
(** [controllerutil.SetControllerReference(owner, object, scheme)] writes the object's
    owner references. *)
Class OwnerLib := {
  SetControllerReference : ObjectMeta -> ObjectMeta -> option Err * ObjectMeta;
}.

(** Which leaves an object where it is, and does not fail with a conflict. *)
Class OwnerLaws `{OwnerLib} := {
  owner_error owner m e : (SetControllerReference owner m).1 = Some e -> ~ retriable e;
  owner_key owner m : keyOf (SetControllerReference owner m).2 = keyOf m;
}.

(** ** Names and owners ([controllers/util.go]) *)

Definition ownerReference `{KubeLib} (obj : ObjectMeta) (kindName : string) : list OwnerReference :=
  [NewControllerRef obj "nuwa.nip.io/v1" kindName].

Definition deploymentName (coordinateName : string) (water : ObjectMeta) : string :=
  Name water +:+ "-" +:+ ToLower coordinateName.

Definition statefulSetName (stone : ObjectMeta) (group : string) (index : Z) : string :=
  ToLower (Name stone +:+ "-" +:+ itoa index +:+ "-" +:+ group).

(** ** Lemmas *)

Lemma occurs_app sep a b : occurs sep (a +:+ b) = occurs sep a || occurs sep b.
Proof.
  induction a as [|c a IH]; [done|]. rewrite append_cons. cbn. by rewrite IH, orb_assoc.
Qed.

(** Two names with the same dash-free tail agree before it. *)
Lemma lastDash_inj a a' d d' :
  occurs "-"%char d = false -> occurs "-"%char d' = false ->
  a +:+ "-" +:+ d = a' +:+ "-" +:+ d' -> a = a' /\ d = d'.
Proof.
  intros Hd Hd' E.
  assert (Some (a, d) = Some (a', d')) as [= -> ->]; [|done].
  rewrite <-(lastSplit_app "-"%char a d Hd), <-(lastSplit_app "-"%char a' d' Hd').
  f_equal. exact E.
Qed.
