(* ===== verification/Stone.v ===== *)
(** Stones ([api/v1/stone_types.go], [controllers/stone_controller.go]): a stone stands
    for one StatefulSet and one Service per group of coordinates; the controller
    creates them and keeps replicas and pod spec in line. *)

From S2P Require Import Prelude Objects GoString Libraries Coordinate Fixtures Naming.
From S2P Require Import PodIdentity InPlace Cluster CallLog Workloads.

(** ** The resource *)

Record CoordinatesGroup := mkGroup {
  Group : string;
  Zoneset : Coordinates;
  group_Replicas : option Z;
}.
Record StoneSpec := mkStoneSpec {
  stone_Template : PodTemplateSpec;
  stone_VolumeClaimTemplates : list PersistentVolumeClaimT;
  Strategy : StrategyType;
  stone_Coordinates : list CoordinatesGroup;
  stone_Service : ServiceSpec;
}.
Record StoneStatus := mkStoneStatus {
  stone_Replicas : Z;
  stone_StatefulSet : Z;
}.
Record Stone := mkStone {
  stone_meta : ObjectMeta;
  stone_Spec : StoneSpec;
  stone_Status : StoneStatus;
}.
Definition setStrategy (s : StrategyType) (ste : Stone) : Stone :=
  mkStone (stone_meta ste)
    (mkStoneSpec (stone_Template (stone_Spec ste)) (stone_VolumeClaimTemplates (stone_Spec ste)) s
       (stone_Coordinates (stone_Spec ste)) (stone_Service (stone_Spec ste)))
    (stone_Status ste).
Definition setStoneAnnotation (v : string) (ste : Stone) : Stone :=
  mkStone (setAnnotations (<["spec" := v]> (Annotations (stone_meta ste))) (stone_meta ste))
    (stone_Spec ste) (stone_Status ste).
Definition setStoneStatus (st : StoneStatus) (ste : Stone) : Stone :=
  mkStone (stone_meta ste) (stone_Spec ste) st.

(** ** The sets of a stone *)

Section NewSet.
Context `{KubeLib, Json Coordinates}.

Definition stoneLabels (ste : Stone) : gmap string string :=
  Labels (stone_meta ste) ∪ {["app" := Name (stone_meta ste)]}.

(** The set built for a group that has none yet. *)
Definition newStatefulSet (ste : Stone) (cg : CoordinatesGroup) (name : string) : StatefulSet :=
  let tplSpec := setReadinessGates ["InPlaceUpdateReady"] (tpl_Spec (stone_Template (stone_Spec ste))) in
  mkStatefulSet
    (setOwnerReferences (ownerReference (stone_meta ste) "Stone")
       (metaNamed (Namespace (stone_meta ste)) name))
    (mkStatefulSetSpec None (Some (mkLabelSelector (stoneLabels ste) ""))
       (mkPodTemplate
          (setAnnotations {["coordinates" := marshal (Zoneset cg)]}
             (setLabels (stoneLabels ste) (metaNamed "" "")))
          tplSpec)
       (stone_VolumeClaimTemplates (stone_Spec ste)) ("fake" +:+ "-" +:+ name)
       ParallelPodManagement
       (Some (mkUpdateStrategy RollingUpdateStatefulSetStrategyType
          (Some (mkRollingUpdate (Some 0) (Some (FromInt 1))
             InPlaceIfPossiblePodUpdateStrategyType false None)))) 0)
    (mkStatefulSetStatus 0 0 0 0 0 "" "" None []).

(** What is imposed on every set of the stone, new or found. *)
Definition imposeOn (ste : Stone) (size : Z) (sts : StatefulSet) : Outcome StatefulSet :=
  let spec := set_Spec sts in
  us ← deref (UpdateStrategy spec);
  ru ← deref (RollingUpdate us);
  let template :=
    mkPodTemplate (tpl_meta (Template spec))
      (setContainers (Containers (tpl_Spec (stone_Template (stone_Spec ste))))
         (tpl_Spec (Template spec))) in
  let ru := mkRollingUpdate (Some 0) (Some (FromInt 1)) (PodUpdatePolicy ru) (Paused ru)
              (PriorityStrategy ru) in
  Ok (mkStatefulSet (set_meta sts)
        (mkStatefulSetSpec (Some size) (Selector spec) template (VolumeClaimTemplates spec)
           (ServiceName spec) (PodManagementPolicy spec)
           (Some (mkUpdateStrategy (us_Type us) (Some ru))) (RevisionHistoryLimit spec))
        (set_Status sts)).
End NewSet.

(** The size of the set of group [i], [None] for a group that is skipped; an unknown
    strategy turns into [Alpha]. *)
Definition groupSize (strategy : StrategyType) (i : Z) (cg : CoordinatesGroup)
  : Outcome (StrategyType * option Z) :=
  if decide (strategy = Alpha) then Ok (strategy, if decide (i > 0) then None else Some 1)
  else if decide (strategy = Beta) then Ok (strategy, Some 1)
  else if decide (strategy = Omega) then Ok (strategy, Some (int32 (Coordinates_Len (Zoneset cg))))
  else if decide (strategy = Release) then
    size ← deref (group_Replicas cg); Ok (strategy, Some size)
  else Ok (Alpha, Some 1).

Section StoneController.
Context {W : Type} `{KubeLib, Json Coordinates, SpecCodec StoneSpec, OwnerLib, Retry}.
Context `{Client W Stone, Client W StatefulSet, Client W Service}.

(** [for i := range cgs]: [i] counts the groups, the sets so far are [acc]. *)
Fixpoint getStatefulSetFrom (i : Z) (cgs : list CoordinatesGroup) (ste : Stone)
    (acc : list StatefulSet) : M W (Result (list StatefulSet) * Stone) :=
  match cgs with
  | [] => mret (inr acc, ste)
  | cg :: cgs' =>
      let name := statefulSetName (stone_meta ste) (Group cg) i in
      sized ← lift (groupSize (Strategy (stone_Spec ste)) i cg);
      let '(strategy, size) := sized in
      let ste := setStrategy strategy ste in
      match size with
      | None => getStatefulSetFrom (i + 1) cgs' ste acc
      | Some size =>
          got ← call (Get (mkKey (Namespace (stone_meta ste)) name));
          match got with
          | inl err =>
              if IsNotFound err then
                sts ← lift (imposeOn ste size (newStatefulSet ste cg name));
                getStatefulSetFrom (i + 1) cgs' ste (acc ++ [sts])
              else mret (inl err, ste)
          | inr sts =>
              sts ← lift (imposeOn ste size sts);
              getStatefulSetFrom (i + 1) cgs' ste (acc ++ [sts])
          end
      end
  end.

Definition getStatefulSet (cgs : list CoordinatesGroup) (ste : Stone)
  : M W (Result (list StatefulSet) * Stone) := getStatefulSetFrom 0 cgs ste [].

(** ** Services *)

(** The loop over the ports renames a copy of each, which is dropped. *)
Definition checkService (service : Service) : bool :=
  bool_decide (1 <= Z.of_nat (length (Ports (svc_Spec service)))).

Definition newService (ste : Stone) (sts : StatefulSet) : Service :=
  mkService
    (setOwnerReferences (ownerReference (stone_meta ste) "Stone")
       (metaNamed (Namespace (set_meta sts)) (Name (set_meta sts))))
    (setServiceSelector {["app" := Name (stone_meta ste)]} (stone_Service (stone_Spec ste))).

Definition serviceAttempt (ste : Stone) (sts : StatefulSet) (_ : unit)
  : M W (option Err * unit) :=
  got ← call (Get (A := Service) (mkKey (Namespace (set_meta sts)) (Name (set_meta sts))));
  match got with
  | inl err =>
      if IsNotFound err then
        let service := newService ste sts in
        if negb (checkService service) then mret (None, tt)
        else res ← call (Create service); mret (res.1, tt)
      else mret (Some err, tt)
  | inr _ => mret (None, tt)
  end.

Definition updateService (ste : Stone) (sts : StatefulSet) : M W (option Err) :=
  res ← RetryOnConflict DefaultBackoff (serviceAttempt ste sts) tt;
  mret res.1.

(** ** Sets *)

Definition setAttempt (ste : Stone) (sts : StatefulSet) : M W (option Err * StatefulSet) :=
  got ← call (Get (A := StatefulSet) (mkKey (Namespace (set_meta sts)) (Name (set_meta sts))));
  match got with
  | inl err =>
      if IsNotFound err then
        res ← call (Create sts);
        let '(err, sts) := res in
        match err with
        | Some e => mret (Some e, sts)
        | None =>
            let '(err, meta) := SetControllerReference (stone_meta ste) (set_meta sts) in
            mret (err, mkStatefulSet meta (set_Spec sts) (set_Status sts))
        end
      else mret (Some err, sts)
  | inr tmp =>
      have ← lift (deref (spec_Replicas (set_Spec tmp)));
      want ← lift (deref (spec_Replicas (set_Spec sts)));
      if decide (have <> want
                 \/ tpl_Spec (Template (set_Spec tmp)) <> tpl_Spec (Template (set_Spec sts)))
      then call (Update sts)
      else mret (None, sts)
  end.

Definition stone_updateStatefulSet (sts : StatefulSet) (ste : Stone)
  : M W (option Err * StatefulSet) :=
  RetryOnConflict DefaultBackoff (setAttempt ste) sts.

(** The first loop: every set, until an error; the sets as they are afterwards. *)
Fixpoint updateSets (ste : Stone) (statefulSets : list StatefulSet)
  : M W (option Err * list StatefulSet) :=
  match statefulSets with
  | [] => mret (None, [])
  | sts :: rest =>
      res ← stone_updateStatefulSet sts ste;
      let '(err, sts) := res in
      match err with
      | Some e => mret (Some e, sts :: rest)
      | None => more ← updateSets ste rest; mret (more.1, sts :: more.2)
      end
  end.

Fixpoint updateServices (ste : Stone) (statefulSets : list StatefulSet) : M W (option Err) :=
  match statefulSets with
  | [] => mret None
  | sts :: rest =>
      err ← updateService ste sts;
      match err with
      | Some e => mret (Some e)
      | None => updateServices ste rest
      end
  end.

Definition syncAttempt (ste : Stone) : M W (option Err * Stone) :=
  got ← getStatefulSet (stone_Coordinates (stone_Spec ste)) ste;
  let '(got, ste) := got in
  match got with
  | inl err => mret (Some err, ste)
  | inr statefulSets =>
      res ← updateSets ste statefulSets;
      let '(err, statefulSets) := res in
      match err with
      | Some e => mret (Some e, ste)
      | None => err ← updateServices ste statefulSets; mret (err, ste)
      end
  end.

Definition stone_syncStatefulSet (ste : Stone) : M W (option Err * Stone) :=
  RetryOnConflict DefaultBackoff syncAttempt ste.

(** ** The stone itself *)

Definition sumReplicas (statefulSets : list StatefulSet) : Z :=
  foldl (fun n sts => int32 (n + Replicas (set_Status sts))) 0 statefulSets.

Definition stoneAttempt (ste : Stone) : M W (option Err * Stone) :=
  match marshalSpec (stone_Spec ste) with
  | inl err => mret (Some err, ste)
  | inr bytes =>
      let ste := setStoneAnnotation bytes ste in
      res ← call (Update ste);
      let '(err, ste) := res in
      match err with
      | Some e => mret (Some e, ste)
      | None =>
          got ← getStatefulSet (stone_Coordinates (stone_Spec ste)) ste;
          let '(got, ste) := got in
          match got with
          | inl err => mret (Some err, ste)
          | inr statefulSets =>
              let ste := setStoneStatus
                (mkStoneStatus (sumReplicas statefulSets)
                   (int32 (Z.of_nat (length statefulSets)))) ste in
              call (StatusUpdate ste)
          end
      end
  end.

Definition updateStone (ste : Stone) : M W (option Err) :=
  res ← RetryOnConflict DefaultBackoff stoneAttempt ste;
  mret res.1.

Definition stone_Reconcile (req : ObjectKey) : M W (option Err) :=
  got ← call (Get req);
  match got with
  | inl err => if IsNotFound err then mret None else mret (Some err)
  | inr ste =>
      res ← stone_syncStatefulSet ste;
      let '(err, ste) := res in
      match err with
      | Some e => mret (Some e)
      | None => updateStone ste
      end
  end.
End StoneController.

(** ** What a stone asks for *)

(** The groups that get a set, with their index and the set's size. *)
Definition plannedFrom (strategy : StrategyType) (i : Z) (cgs : list CoordinatesGroup)
  : list (Z * CoordinatesGroup * Z) :=
  let sized (size : CoordinatesGroup -> Z) :=
    imap (fun j cg => (i + Z.of_nat j, cg, size cg)) cgs in
  if decide (strategy = Alpha) then if decide (i > 0) then [] else take 1 (sized (fun _ => 1))
  else if decide (strategy = Beta) then sized (fun _ => 1)
  else if decide (strategy = Omega) then sized (fun cg => int32 (Coordinates_Len (Zoneset cg)))
  else if decide (strategy = Release) then sized (fun cg => default 0 (group_Replicas cg))
  else take 1 (sized (fun _ => 1)).
Definition planned (ste : Stone) : list (Z * CoordinatesGroup * Z) :=
  plannedFrom (Strategy (stone_Spec ste)) 0 (stone_Coordinates (stone_Spec ste)).

(** The key of the set and of the service of a group. *)
Definition groupKeyOf (ste : Stone) (item : Z * CoordinatesGroup * Z) : ObjectKey :=
  let '(i, cg, _) := item in
  mkKey (Namespace (stone_meta ste)) (statefulSetName (stone_meta ste) (Group cg) i).

(** A set as planned for a group. *)
Definition asPlanned (ste : Stone) (item : Z * CoordinatesGroup * Z) (sts : StatefulSet) : Prop :=
  let '(i, cg, size) := item in
  keyOf (set_meta sts)
  = mkKey (Namespace (stone_meta ste)) (statefulSetName (stone_meta ste) (Group cg) i)
  /\ spec_Replicas (set_Spec sts) = Some size
  /\ Containers (tpl_Spec (Template (set_Spec sts)))
     = Containers (tpl_Spec (stone_Template (stone_Spec ste))).

Lemma plannedFrom_step strategy i cg cgs strategy' size :
  0 <= i -> groupSize strategy i cg = Ok (strategy', size) ->
  plannedFrom strategy i (cg :: cgs)
  = match size with
    | Some size => (i, cg, size) :: plannedFrom strategy' (i + 1) cgs
    | None => plannedFrom strategy' (i + 1) cgs
    end.
Proof.
  intros Hi. unfold groupSize, plannedFrom.
  assert (Hmap : forall f : CoordinatesGroup -> Z,
    imap (fun j cg0 => (i + Z.of_nat j, cg0, f cg0)) (cg :: cgs)
    = (i, cg, f cg) :: imap (fun j cg0 => (i + 1 + Z.of_nat j, cg0, f cg0)) cgs).
  { intros f. rewrite imap_cons. f_equal; [by rewrite Z.add_0_r|].
    apply imap_ext. intros j x _. cbn. do 2 f_equal. lia. }
  destruct (decide (strategy = Alpha)) as [->|Ha].
  { destruct (decide (i > 0)); intros [= <- <-]; cbn [decide];
      rewrite ?Hmap, (decide_True (P := Alpha = Alpha)) by done.
    - by rewrite decide_True by lia.
    - cbn [take]. rewrite decide_True by lia. by rewrite take_0. }
  destruct (decide (strategy = Beta)) as [->|Hb].
  { intros [= <- <-]. by rewrite Hmap. }
  destruct (decide (strategy = Omega)) as [->|Ho].
  { intros [= <- <-]. by rewrite Hmap. }
  destruct (decide (strategy = Release)) as [->|Hr].
  { destruct (group_Replicas cg) as [n|] eqn:En; [|done]. intros [= <- <-].
    by rewrite Hmap, En. }
  intros [= <- <-]. rewrite Hmap, decide_True by done. cbn [take].
  rewrite decide_True by lia. by rewrite take_0.
Qed.

Lemma setStrategy_twice s s' ste : setStrategy s (setStrategy s' ste) = setStrategy s ste.
Proof. done. Qed.
Lemma setStrategy_same ste : setStrategy (Strategy (stone_Spec ste)) ste = ste.
Proof. by destruct ste as [? [] ?]. Qed.
(** An unknown strategy is replaced by [Alpha]. *)
Definition normalises (s s' : StrategyType) : Prop :=
  s' = s \/ ((s ∉ [Alpha; Beta; Omega; Release]) /\ s' = Alpha).

Lemma normalises_trans s s' s'' : normalises s s' -> normalises s' s'' -> normalises s s''.
Proof.
  intros [->|[Hs ->]] H'; [done|]. right. split; [done|].
  destruct H' as [->|[_ ->]]; done.
Qed.

Lemma groupSize_normalises s i cg s' size : groupSize s i cg = Ok (s', size) -> normalises s s'.
Proof.
  unfold groupSize. repeat case_decide; intros Hg; try (injection Hg as <- _; by left).
  - destruct (group_Replicas cg); [|done]. cbn in Hg. injection Hg as <- _. by left.
  - injection Hg as <- _. right. split; [|done]. rewrite !not_elem_of_cons. split_and!; try done.
    apply not_elem_of_nil.
Qed.

Lemma planned_normalises ste s : normalises (Strategy (stone_Spec ste)) s ->
  planned (setStrategy s ste) = planned ste.
Proof.
  intros [->|[Hs ->]]; [by rewrite setStrategy_same|].
  rewrite !not_elem_of_cons in Hs. destruct Hs as (? & ? & ? & ? & _).
  unfold planned, plannedFrom. cbn [setStrategy stone_Spec Strategy stone_Coordinates].
  rewrite (decide_True (P := Alpha = Alpha)) by done.
  rewrite (decide_False (P := 0 > 0)) by lia.
  rewrite (decide_False (P := _ = Alpha)), (decide_False (P := _ = Beta)),
    (decide_False (P := _ = Omega)), (decide_False (P := _ = Release)) by done. done.
Qed.

Inductive StoneCall :=
  | OnStone (r : Request Stone) (err : option Err)
  | OnSet (r : Request StatefulSet) (err : option Err)
  | OnService (r : Request Service) (err : option Err).
#[export] Instance tracedStone : Traced Stone StoneCall := OnStone.
#[export] Instance tracedStoneSet : Traced StatefulSet StoneCall := OnSet.
#[export] Instance tracedStoneService : Traced Service StoneCall := OnService.

Section NewSetLemmas.
Context `{KubeLib, Json Coordinates}.

Lemma imposeOn_planned ste i cg size sts sts' :
  keyOf (set_meta sts)
  = mkKey (Namespace (stone_meta ste)) (statefulSetName (stone_meta ste) (Group cg) i) ->
  imposeOn ste size sts = Ok sts' -> asPlanned ste (i, cg, size) sts'.
Proof.
  intros Hk. unfold imposeOn. destruct (UpdateStrategy _) as [us|]; [|done]. cbn.
  destruct (RollingUpdate us); [|done]. by intros [= <-].
Qed.

(** A set built for a group, as it is after the common settings. *)
Lemma imposeOn_new ste cg name size :
  exists sts, imposeOn ste size (newStatefulSet ste cg name) = Ok sts
    /\ set_meta sts = set_meta (newStatefulSet ste cg name)
    /\ tpl_meta (Template (set_Spec sts))
       = tpl_meta (Template (set_Spec (newStatefulSet ste cg name)))
    /\ Selector (set_Spec sts) = Some (mkLabelSelector (stoneLabels ste) "")
    /\ Affinity (tpl_Spec (Template (set_Spec sts)))
       = Affinity (tpl_Spec (stone_Template (stone_Spec ste)))
    /\ spec_Replicas (set_Spec sts) = Some size.
Proof. eexists. by split_and!. Qed.
End NewSetLemmas.

(** What the server keeps of a stone that is written. *)
Definition stoneKept (ste : Stone) : ObjectKey * StoneSpec := (keyOf (stone_meta ste), stone_Spec ste).

Section Properties.
Context {W : Type} `{KubeLib, Json Coordinates, SpecCodec StoneSpec, OwnerLaws, RetryLaws}.
Context `{Client W Stone, !KeyLaws stone_meta, !WritesKeep stoneKept}.
Context `{Client W StatefulSet, !KeyLaws set_meta, Client W Service}.
Notation T := (W * list StoneCall)%type.

Definition reads (c : StoneCall) : Prop :=
  match c with
  | OnStone (GetRequest _) _ | OnSet (GetRequest _) _ | OnService (GetRequest _) _ => True
  | _ => False
  end.

(** A set as it is sent for a planned group: the settings imposed on the one that the
    server has under the group's key, or on the one that is built for the group. *)
Definition plannedSet (ste : Stone) (item : Z * CoordinatesGroup * Z) (sts : StatefulSet) : Prop :=
  let key := groupKeyOf ste item in
  exists found,
    (found = newStatefulSet ste item.1.2 (key_Name key)
     \/ exists w : W, (Get key w).1 = inr found)
    /\ imposeOn ste item.2 found = Ok sts.

Lemma plannedSet_asPlanned ste item sts : plannedSet ste item sts -> asPlanned ste item sts.
Proof.
  destruct item as [[i cg] size]. intros (found & Hfound & Hi).
  eapply imposeOn_planned; [|exact Hi].
  destruct Hfound as [->|[w Hw]]; [reflexivity|by apply get_key in Hw].
Qed.

(** The reads of the sets of [items], and what they yield after the sets [acc]. *)
Definition readsPlanned (ste : Stone) (acc : list StatefulSet)
    (items : list (Z * CoordinatesGroup * Z))
    (o : Outcome (Result (list StatefulSet) * Stone)) (cs : list StoneCall) : Prop :=
  Forall (fun c => exists item err, item ∈ items /\ c = OnSet (GetRequest (groupKeyOf ste item)) err) cs
  /\ match o with
     | Ok (r, ste') =>
         (exists s, normalises (Strategy (stone_Spec ste)) s /\ ste' = setStrategy s ste)
         /\ match r with
            | inr l => exists l', l = acc ++ l' /\ Forall2 (plannedSet ste) items l'
            | inl _ => True
            end
     | Panic _ => True
     end.

(** One more set in front. *)
Lemma readsPlanned_after strategy ste acc l0 items rest c o cs :
  normalises (Strategy (stone_Spec ste)) strategy -> Forall2 (plannedSet ste) items l0 ->
  Forall (fun c => exists item err, item ∈ items
            /\ c = OnSet (GetRequest (groupKeyOf ste item)) err) c ->
  readsPlanned (setStrategy strategy ste) (acc ++ l0) rest o cs ->
  readsPlanned ste acc (items ++ rest) o (c ++ cs).
Proof.
  intros Hn Hl0 Hc [Hcs Hpost]. split.
  { apply list.Forall_app. split; (eapply list.Forall_impl; [done|]); intros x (item & err & Hi & ->);
      exists item, err; (split; [apply elem_of_app; auto|done]). }
  destruct o as [[r ste']|p]; [|done]. destruct Hpost as [(s & Hs & ->) Hr].
  split; [exists s; split; [by eapply normalises_trans|done]|].
  destruct r as [e|l]; [done|]. destruct Hr as (l' & -> & Hl'). exists (l0 ++ l').
  rewrite <-app_assoc. split; [done|]. by apply Forall2_app.
Qed.

Lemma getStatefulSetFrom_emits i cgs ste acc :
  0 <= i ->
  emits (State := T) (getStatefulSetFrom i cgs ste acc)
    (readsPlanned ste acc (plannedFrom (Strategy (stone_Spec ste)) i cgs)).
Proof.
  revert i ste acc. induction cgs as [|cg cgs IH]; intros i ste acc Hi; cbn [getStatefulSetFrom].
  { apply emits_ret. split; [done|].
    split; [exists (Strategy (stone_Spec ste)); by split; [left|rewrite setStrategy_same]|].
    exists []. rewrite app_nil_r. split; [done|]. unfold plannedFrom. by repeat case_decide. }
  apply emits_bind, emits_lift.
  destruct (groupSize _ i cg) as [[strategy size]|] eqn:Es; [|by split]. cbn [app].
  rewrite (plannedFrom_step _ _ _ _ _ _ Hi Es). apply groupSize_normalises in Es.
  destruct size as [size|].
  2: { eapply emits_mono; [apply IH; lia|]. intros o cs Ho.
       apply (readsPlanned_after strategy ste acc [] [] _ [] o cs); [done..|].
       by rewrite app_nil_r. }
  apply emits_bind, emits_Get_from. intros r w Hr.
  set (key := mkKey _ _) in *. set (item := (i, cg, size)).
  assert (Hread : Forall (fun c => exists item' err, item' ∈ [item]
       /\ c = OnSet (GetRequest (groupKeyOf ste item')) err) [OnSet (GetRequest key) (errorOf r)]).
  { apply Forall_singleton. exists item, (errorOf r). split; [by left|done]. }
  assert (Hone : forall sts,
    (sts = newStatefulSet ste cg (key_Name key) \/ exists w : W, (Get key w).1 = inr sts) ->
    emits (State := T)
      (sts ← lift (imposeOn (setStrategy strategy ste) size sts);
       getStatefulSetFrom (i + 1) cgs (setStrategy strategy ste) (acc ++ [sts]))
      (fun o cs => readsPlanned ste acc (item :: plannedFrom strategy (i + 1) cgs)
                     o ([OnSet (GetRequest key) (errorOf r)] ++ cs))).
  { intros sts Hsts. apply emits_bind, emits_lift.
    destruct (imposeOn _ size sts) as [sts'|] eqn:Ei.
    - eapply emits_mono; [apply IH; lia|]. intros o cs.
      apply (readsPlanned_after strategy ste acc [sts'] [item]
               (plannedFrom strategy (i + 1) cgs) [_]); [done| |exact Hread].
      constructor; [|done]. by exists sts.
    - split; [|done]. eapply list.Forall_impl; [exact Hread|].
      intros c (item' & err & ->%list_elem_of_singleton & ->). exists item, err. split; [by left|done]. }
  destruct r as [e|sts]; [destruct (IsNotFound e)|]; [apply Hone; by left| |].
  - apply emits_ret. split; [|split; [by exists strategy|done]].
    eapply list.Forall_impl; [exact Hread|].
    intros c (item' & err & ->%list_elem_of_singleton & ->). exists item, err. split; [by left|done].
  - apply Hone. right. by exists w.
Qed.

(** Reading the sets of a stone only reads, and yields for exactly the planned groups
    a set of the planned name, size and containers. *)
Theorem getStatefulSet_plan ste :
  emits (State := T) (getStatefulSet (stone_Coordinates (stone_Spec ste)) ste) (fun o cs =>
    Forall reads cs
    /\ forall l ste', o = Ok (inr l, ste') -> Forall2 (asPlanned ste) (planned ste) l).
Proof.
  eapply emits_mono; [by apply getStatefulSetFrom_emits|]. intros o cs [Hcs Ho]. split.
  { eapply list.Forall_impl; [exact Hcs|]. by intros c (item & err & _ & ->). }
  intros l ste' ->. destruct Ho as (_ & l' & -> & Hl').
  eapply Forall2_impl; [exact (plannedSet_asPlanned ste)|exact Hl'].
Qed.

(** ** What a reconcile writes *)

(** The stone under the key it had, with the same spec; only an unknown strategy may have
    been replaced. *)
Definition sameStone (ste ste' : Stone) : Prop :=
  keyOf (stone_meta ste') = keyOf (stone_meta ste)
  /\ exists s, normalises (Strategy (stone_Spec ste)) s
       /\ stone_Spec ste' = stone_Spec (setStrategy s ste).

(** Sets and services of planned groups are read; a planned set is created or updated as it
    is to be; the service of a planned group is created if it has ports; the stone is
    written with its own spec as its annotation, and then with a status that counts the
    planned sets. Nothing else. *)
Definition allowedCall (ste : Stone) (c : StoneCall) : Prop :=
  match c with
  | OnSet (GetRequest k) _ | OnService (GetRequest k) _ =>
      exists item, item ∈ planned ste /\ k = groupKeyOf ste item
  | OnSet (CreateRequest s) _ | OnSet (UpdateRequest s) _ =>
      exists item, item ∈ planned ste /\ plannedSet ste item s /\ asPlanned ste item s
  | OnService (CreateRequest svc) _ =>
      exists item, item ∈ planned ste /\ keyOf (svc_meta svc) = groupKeyOf ste item
        /\ OwnerReferences (svc_meta svc) = ownerReference (stone_meta ste) "Stone"
        /\ svc_Selector (svc_Spec svc) = {["app" := Name (stone_meta ste)]}
        /\ Ports (svc_Spec svc) = Ports (stone_Service (stone_Spec ste)) /\ Ports (svc_Spec svc) <> []
  | OnStone (UpdateRequest x) _ =>
      sameStone ste x /\ exists bytes, marshalSpec (stone_Spec x) = inr bytes
        /\ Annotations (stone_meta x) !! "spec" = Some bytes
  | OnStone (StatusRequest x) _ =>
      sameStone ste x /\ exists ste1 l, sameStone ste ste1 /\ Forall2 (plannedSet ste1) (planned ste1) l
        /\ stone_Status x
           = mkStoneStatus (sumReplicas l) (int32 (Z.of_nat (length (planned ste))))
  | _ => False
  end.

Notation does ste := (only (State := T) (allowedCall ste)).

Lemma sameStone_refl ste : sameStone ste ste.
Proof. split; [done|]. exists (Strategy (stone_Spec ste)). split; [by left|by rewrite setStrategy_same]. Qed.
Lemma sameStone_strategy ste ste' s :
  sameStone ste ste' -> normalises (Strategy (stone_Spec ste')) s -> sameStone ste (setStrategy s ste').
Proof.
  intros (Hk & s0 & Hs0 & E) Hs. split; [done|]. rewrite E in Hs. exists s.
  split; [by eapply normalises_trans|]. unfold setStrategy in *. cbn in *. by rewrite E.
Qed.
Lemma sameStone_like ste ste' ste2 :
  sameStone ste ste' -> keyOf (stone_meta ste2) = keyOf (stone_meta ste') ->
  stone_Spec ste2 = stone_Spec ste' -> sameStone ste ste2.
Proof. intros (Hk & s & Hs & E) Hk2 E2. split; [congruence|]. exists s. split; [done|congruence]. Qed.
Lemma planned_like ste ste' : sameStone ste ste' ->
  planned ste' = planned ste /\ forall item, groupKeyOf ste' item = groupKeyOf ste item.
Proof.
  intros ([= Hns Hn] & s & Hs & E). split.
  - rewrite <-(planned_normalises ste s Hs). unfold planned. by rewrite E.
  - intros [[i cg] size]. unfold groupKeyOf, statefulSetName. by rewrite Hns, Hn.
Qed.

Lemma getStatefulSet_does ste ste' :
  sameStone ste ste' ->
  does ste (getStatefulSet (stone_Coordinates (stone_Spec ste')) ste') (fun '(r, ste2) =>
    (exists s, normalises (Strategy (stone_Spec ste')) s /\ ste2 = setStrategy s ste')
    /\ forall l, r = inr l -> Forall2 (plannedSet ste') (planned ste') l).
Proof.
  intros [Hp Hk]%planned_like. unfold getStatefulSet.
  eapply emits_mono; [by apply getStatefulSetFrom_emits|]. intros o cs [Hcs Ho].
  split.
  { eapply list.Forall_impl; [exact Hcs|]. intros c (item & err & Hi & ->). exists item.
    change (item ∈ planned ste') in Hi. by rewrite <-Hp, Hk. }
  destruct o as [[r ste2]|p]; [|done]. destruct Ho as [Hs Hr]. split; [done|].
  intros l ->. by destruct Hr as (l' & -> & Hl').
Qed.

Lemma updateSet_does ste item sts :
  item ∈ planned ste -> plannedSet ste item sts ->
  does ste (stone_updateStatefulSet sts ste)
    (fun r => keyOf (set_meta r.2) = groupKeyOf ste item).
Proof.
  intros Hin Hsts. assert (Hkey : forall s, plannedSet ste item s -> keyOf (set_meta s) = groupKeyOf ste item).
  { intros s Hs%plannedSet_asPlanned. destruct item as [[i cg] size]. by destruct Hs. }
  apply (only_retry_on _ _ _ _ (plannedSet ste item)); [done|].
  clear sts Hsts. intros sts Hsts. unfold setAttempt. pose proof (Hkey _ Hsts) as Hk.
  eapply only_bind; [apply (only_Get _ _ (fun _ => True)); [|done]|].
  { intros err. exists item. by rewrite <-Hk. }
  intros [e|tmp] _.
  - destruct (IsNotFound e); [|apply only_ret; cbn; by split].
    eapply only_bind; [apply (only_inOut _ _ _ _ (fun r =>
      keyOf (set_meta r.2) = groupKeyOf ste item /\ (r.1 <> None -> r.2 = sts)))|].
    + intros err. exists item. split_and!; [done..|by apply plannedSet_asPlanned].
    + intros err s' w w' E. cbn. split; [by apply create_key in E as ->|].
      destruct err as [e'|]; [|done]. intros _. by eapply create_failed.
    + intros [[e'|] s'] [Hs' Hf]; cbn in Hs', Hf.
      { apply only_ret. cbn. split; [done|]. intros _. by rewrite Hf. }
      pose proof (owner_key (stone_meta ste) (set_meta s')) as Ho.
      pose proof (owner_error (stone_meta ste) (set_meta s')) as He.
      destruct (SetControllerReference _ _) as [e' m']. apply only_ret. cbn in *.
      split; [by rewrite Ho|]. destruct e' as [e'|]; [|done]. intros Hr. by destruct (He e').
  - eapply only_bind; [by apply (only_lift _ _ (fun _ => True))|]. intros have _.
    eapply only_bind; [by apply (only_lift _ _ (fun _ => True))|]. intros want _.
    case_decide; [|apply only_ret; cbn; by split].
    apply only_inOut; [intros err; exists item; split_and!; [done..|by apply plannedSet_asPlanned]|].
    intros err s' w w' E. cbn.
    pose proof (update_key _ _ _ _ _ E) as Hk'. split; [by rewrite Hk'|].
    destruct err as [e'|]; [|done]. intros _. by apply update_failed in E as ->.
Qed.

(** The sets after the first loop: each is under the key of its group. *)
Definition keyed (ste : Stone) (items : list (Z * CoordinatesGroup * Z)) (l : list StatefulSet) : Prop :=
  Forall2 (fun item sts => item ∈ planned ste /\ keyOf (set_meta sts) = groupKeyOf ste item) items l.

Lemma updateSets_does ste items l :
  (forall item, item ∈ items -> item ∈ planned ste) -> Forall2 (plannedSet ste) items l ->
  does ste (updateSets ste l) (fun r => r.1 = None -> keyed ste items r.2).
Proof.
  intros Hin Hall. induction Hall as [|item sts items l Hs Hall IH]; [apply only_ret; constructor|].
  cbn [updateSets]. eapply only_bind; [apply (updateSet_does ste item); [apply Hin; by left|done]|].
  intros [[e|] sts'] Hk; cbn in Hk; [by apply only_ret|].
  eapply only_bind; [apply IH; intros x Hx; apply Hin; by right|]. intros r Hr.
  apply only_ret. cbn. intros E. constructor; [|by apply Hr]. split; [apply Hin; by left|done].
Qed.

Lemma updateServices_does ste items l :
  keyed ste items l -> does ste (updateServices ste l) (fun _ => True).
Proof.
  induction 1 as [|item sts items l [Hin Hk] _ IH]; [by apply only_ret|].
  cbn [updateServices]. eapply only_bind.
  - eapply only_bind; [|by intros r _; apply (only_ret _ _ (fun _ => True))].
    apply (only_retry _ _ _ _ (fun _ => True)); [done|]. intros [] _. unfold serviceAttempt.
    eapply only_bind; [apply (only_Get _ _ (fun _ => True)); [|done]|].
    { intros err. exists item. by rewrite <-Hk. }
    intros [e|svc] _; [|by apply only_ret]. destruct (IsNotFound e); [|by apply only_ret].
    destruct (checkService (newService ste sts)) eqn:Ec; [|by apply only_ret]. cbn [negb].
    eapply only_bind; [|by intros r _; apply only_ret].
    apply (only_inOut _ _ _ _ (fun _ => True)); [|done]. intros err. exists item.
    split_and!; [done..|]. intros Hp. unfold checkService in Ec. by rewrite Hp in Ec.
  - intros [e|] _; [by apply only_ret|]. exact IH.
Qed.

(** What is allowed for the stone with another strategy of the same plan is allowed. *)
Lemma allowed_strategy s ste c :
  normalises (Strategy (stone_Spec ste)) s -> allowedCall (setStrategy s ste) c -> allowedCall ste c.
Proof.
  intros Hs. assert (Hsame : forall x, sameStone (setStrategy s ste) x -> sameStone ste x).
  { intros x (Hk & s' & Hs' & E). split; [done|]. exists s'. split; [by eapply normalises_trans|done]. }
  destruct c as [[]|[]|[]]; cbn [allowedCall]; rewrite ?planned_normalises by done; try done.
  - intros [Hx ?]. split; [by apply Hsame|done].
  - intros (Hx & ste1 & l & Hs1 & ? & ?). split; [by apply Hsame|]. exists ste1, l.
    split_and!; [by apply Hsame|done..].
Qed.

Lemma does_strategy {A} s ste (m : M T A) Q :
  normalises (Strategy (stone_Spec ste)) s -> does (setStrategy s ste) m Q -> does ste m Q.
Proof.
  intros Hs Hm. eapply emits_mono; [exact Hm|]. intros o cs [Hcs Ho]. split; [|done].
  eapply list.Forall_impl; [exact Hcs|]. intros c. by apply allowed_strategy.
Qed.

Lemma sync_does ste :
  does ste (stone_syncStatefulSet ste)
    (fun r => exists s, normalises (Strategy (stone_Spec ste)) s /\ r.2 = setStrategy s ste).
Proof.
  apply (only_retry _ _ _ _ (fun ste' => exists s, normalises (Strategy (stone_Spec ste)) s
                                            /\ ste' = setStrategy s ste)).
  { exists (Strategy (stone_Spec ste)). split; [by left|by rewrite setStrategy_same]. }
  intros ste0 (s & Hs & ->). unfold syncAttempt.
  assert (Hsame : sameStone ste (setStrategy s ste)) by by apply sameStone_strategy, Hs; apply sameStone_refl.
  eapply only_bind; [by apply getStatefulSet_does|].
  intros [[e|l] ste'] [(s' & Hs' & ->) Hl]; cbn in Hs'.
  { apply only_ret. exists s'. split; [by eapply normalises_trans|done]. }
  specialize (Hl l eq_refl).
  assert (Hss : normalises (Strategy (stone_Spec ste)) s') by by eapply normalises_trans.
  assert (Hplan : planned (setStrategy s ste) = planned (setStrategy s' ste))
    by by rewrite !planned_normalises.
  eapply only_bind.
  { apply (does_strategy s'); [done|]. apply (updateSets_does _ (planned (setStrategy s' ste))); [done|].
    rewrite <-Hplan. exact Hl. }
  intros [[e|] l'] Hl'; cbn in Hl'; [apply only_ret; by exists s'|].
  eapply only_bind.
  { apply (does_strategy s'); [done|]. by eapply updateServices_does, Hl'. }
  intros err _. apply only_ret. by exists s'.
Qed.

Lemma updateStone_does ste ste' :
  sameStone ste ste' -> does ste (updateStone ste') (fun _ => True).
Proof.
  intros Hsame. eapply only_bind; [|by intros r _; apply only_ret].
  eapply only_mono; [apply (only_retry_on _ _ _ _ (sameStone ste) (fun _ => True)); [done|]|done].
  clear ste' Hsame. intros s Hsame. unfold stoneAttempt.
  destruct (marshalSpec _) as [e|bytes] eqn:Eb; [apply only_ret; cbn; by split|].
  eapply only_bind; [apply (only_inOut _ _ _ _ (fun r => sameStone ste r.2))|].
  { intros err. split; [by eapply sameStone_like|]. exists bytes. split; [done|].
    cbn. apply lookup_insert_eq. }
  { intros err s' w w' E. apply update_keeps in E. injection E as E1 E2 E3.
    eapply sameStone_like; [exact Hsame| |exact E3]. unfold keyOf. cbn. congruence. }
  intros [[e|] s'] Hs'; cbn in Hs'; [apply only_ret; cbn; by split|].
  eapply only_bind; [by apply getStatefulSet_does|].
  intros [[e|l] s''] [(s0 & Hn & ->) Hl].
  { apply only_ret. split; [done|]. intros _. by apply sameStone_strategy. }
  specialize (Hl l eq_refl). pose proof (planned_like _ _ Hs') as [Hp _].
  assert (Hs'' : sameStone ste (setStrategy s0 s')) by by apply sameStone_strategy.
  apply only_inOut.
  - intros err. split; [by eapply sameStone_like|]. exists s', l. split_and!; [done..|].
    rewrite <-Hp. cbn. do 3 f_equal. symmetry. by eapply Forall2_length.
  - intros err x w w' E. split; [done|]. cbn. destruct err as [e|]; [|done]. intros _.
    apply status_keeps in E. injection E as E1 E2 E3.
    eapply sameStone_like; [exact Hs''| |exact E3]. unfold keyOf. cbn in *. congruence.
Qed.

(** C30: The calls of a reconcile of a stone, for each answer to its first read. When that
    fails it does nothing more, and is successful if there is no such stone. Otherwise, for
    the very stone it read: it reads the sets and services of the groups its strategy
    plans and of no other; it creates and updates the planned sets only, each with the
    planned size and the stone's containers on top of what the server has or of the set
    built for the group; it creates planned groups' services if they have ports; it
    writes the stone back with its own spec, recorded in its annotation, and a status that
    counts the planned sets. It deletes nothing, so the sets of a group that is gone stay. *)
Theorem stone_Reconcile_writes req r :
  emitsIn (State := T) (fun w => (Get (A := Stone) req w.1).1 = r) (stone_Reconcile req) (fun o cs =>
    exists rest, cs = OnStone (GetRequest req) (errorOf r) :: rest
    /\ match r with
       | inl e => rest = [] /\ o = Ok (if IsNotFound e then None else Some e)
       | inr ste => keyOf (stone_meta ste) = req /\ Forall (allowedCall ste) rest
       end).
Proof.
  unfold stone_Reconcile. apply emitsIn_Get. destruct r as [e|ste].
  - destruct (IsNotFound e); apply emits_in, emits_ret; by exists [].
  - assert (Hd : does ste (res ← stone_syncStatefulSet ste;
       let '(err, ste) := res in
       match err with Some e => mret (Some e) | None => updateStone ste end) (fun _ => True)).
    { eapply only_bind; [apply sync_does|]. intros [[e|] ste'] (s & Hs & E); cbn in E; subst ste';
        [by apply only_ret|].
      apply updateStone_does, sameStone_strategy; [apply sameStone_refl|done]. }
    intros w [w0 Hr]. destruct (Hd w) as (cs & E & Hcs & _). exists cs. split; [exact E|].
    exists cs. split; [done|]. split; [by apply get_key in Hr|done].
Qed.
End Properties.

(** ** The pods and services of a new set *)

Section Spread.
Context `{KubeLib, !KubeLibLaws, MapRange, Json Coordinates, !JsonLaws Coordinates}.

Lemma newStatefulSetPod_places set ordinal s coordinates :
  Annotations (tpl_meta (Template (set_Spec set))) !! "coordinates" = Some s ->
  unmarshal s = Some coordinates -> coordinates <> [] ->
  is_Some (Selector (set_Spec set)) -> 0 <= ordinal ->
  (Affinity (tpl_Spec (Template (set_Spec set))) ≫= aff_NodeAffinity) = None ->
  exists c pod, coordinates !! Z.to_nat (ordinal `mod` Z.of_nat (length coordinates)) = Some c
    /\ newStatefulSetPod set ordinal = Ok pod
    /\ (Affinity (pod_Spec pod) ≫= aff_NodeAffinity) = Some (organizationNodeAffinity c).
Proof.
  intros Ha Hu Hne Hsel Ho Haff. unfold newStatefulSetPod.
  destruct (template_ok (Template (set_Spec set)) (set_meta set)
              (NewControllerRef (set_meta set) "nuwa.nip.io/v1" "StatefulSet")) as [pod0 E].
  rewrite E. apply template_pod in E as (_ & _ & _ & Hspec & _).
  destruct (updateStorage_total set (initIdentity set (overMeta (setName (getPodName set ordinal)) pod0))
              Hsel) as [pod1 Hst].
  rewrite Hst. cbn [mbind Outcome_bind]. apply updateStorage_frame in Hst as (_ & _ & Hfr).
  assert (Hpod1 : (Affinity (pod_Spec pod1) ≫= aff_NodeAffinity) = None).
  { apply (f_equal Affinity) in Hfr. cbn in Hfr. by rewrite Hfr, Hspec. }
  pose proof (coordinatorPod_places set pod1 ordinal s coordinates Ha Hu Ho) as Hp.
  destruct (coordinates !! _) as [c|]; [|by destruct Hp].
  destruct Hp as (pod & Hp & Hplace & _). exists c, pod. by split_and!; [| |apply Hplace].
Qed.

(** C29: A set created for a group spreads its pods over the group's zones: the pod of an
    ordinal is placed by coordinate [ordinal mod n]; so with the [Omega] strategy, whose
    size is [n], every coordinate of the group gets exactly the pod of its index. *)
Theorem newStatefulSet_spreads ste cg name :
  let n := Coordinates_Len (Zoneset cg) in
  0 < n <= MaxInt32 ->
  (Affinity (tpl_Spec (stone_Template (stone_Spec ste))) ≫= aff_NodeAffinity) = None ->
  groupSize Omega 0 cg = Ok (Omega, Some n)
  /\ exists sts, imposeOn ste n (newStatefulSet ste cg name) = Ok sts
    /\ spec_Replicas (set_Spec sts) = Some n
    /\ (forall k, 0 <= k ->
          exists c pod, Zoneset cg !! Z.to_nat (k `mod` n) = Some c
            /\ newStatefulSetPod sts k = Ok pod
            /\ (Affinity (pod_Spec pod) ≫= aff_NodeAffinity) = Some (organizationNodeAffinity c))
    /\ (forall j c, Zoneset cg !! j = Some c ->
          0 <= Z.of_nat j < n
          /\ exists pod, newStatefulSetPod sts (Z.of_nat j) = Ok pod
            /\ (Affinity (pod_Spec pod) ≫= aff_NodeAffinity) = Some (organizationNodeAffinity c)).
Proof.
  intros n Hn Haff. unfold MaxInt32 in Hn.
  split; [unfold groupSize; cbn; by rewrite int32_id by (subst n; lia)|].
  destruct (imposeOn_new ste cg name n) as (sts & Hi & _ & Htpl & Hsel & Ha & Hr).
  exists sts. split; [done|]. split; [done|].
  assert (Hk : forall k, 0 <= k ->
    exists c pod, Zoneset cg !! Z.to_nat (k `mod` n) = Some c
      /\ newStatefulSetPod sts k = Ok pod
      /\ (Affinity (pod_Spec pod) ≫= aff_NodeAffinity) = Some (organizationNodeAffinity c)).
  { intros k Hk. apply (newStatefulSetPod_places sts k (marshal (Zoneset cg))).
    - rewrite Htpl. cbn. apply lookup_insert_eq.
    - apply unmarshal_marshal.
    - intros E. subst n. unfold Coordinates_Len in Hn. rewrite E in Hn. cbn in Hn. lia.
    - by rewrite Hsel.
    - done.
    - by rewrite Ha. }
  split; [exact Hk|]. intros j c Hj. pose proof (lookup_lt_Some _ _ _ Hj) as Hlt.
  assert (Hjn : 0 <= Z.of_nat j < n) by (unfold n, Coordinates_Len; lia).
  split; [done|]. destruct (Hk (Z.of_nat j) ltac:(lia)) as (c' & pod & Hc' & Hpod & Hp).
  rewrite Z.mod_small, Nat2Z.id, Hj in Hc' by done. injection Hc' as <-. by exists pod.
Qed.

(** The service of a set selects its pods exactly when the stone's own labels do not
    give [app] another value. *)
Theorem newService_selects ste cg name sts :
  (forall k v, svc_Selector (svc_Spec (newService ste sts)) !! k = Some v ->
     Labels (tpl_meta (Template (set_Spec (newStatefulSet ste cg name)))) !! k = Some v)
  <-> Labels (stone_meta ste) !! "app" = None
      \/ Labels (stone_meta ste) !! "app" = Some (Name (stone_meta ste)).
Proof.
  cbn. unfold stoneLabels. split.
  - intros Hsel. specialize (Hsel "app" (Name (stone_meta ste)) (lookup_singleton_eq _ _)).
    apply lookup_union_Some_raw in Hsel as [?|[? _]]; auto.
  - intros Happ k v [<- <-]%lookup_singleton_Some. apply lookup_union_Some_raw.
    destruct Happ as [?|?]; [right|by left]. by rewrite lookup_singleton_eq.
Qed.
End Spread.

(** ** Witnesses: a server with stones, sets and services *)

Notation fx_stoneServer := (list Stone * (list StatefulSet * list Service))%type.
#[local] Instance fx_stones : Client fx_stoneServer Stone := onFst (fx_objects stone_meta).
#[local] Instance fx_stoneSets : Client fx_stoneServer StatefulSet :=
  onSnd (onFst (fx_objects set_meta)).
#[local] Instance fx_stoneServices : Client fx_stoneServer Service :=
  onSnd (onSnd (fx_objects svc_meta)).
#[local] Instance fx_stones_keys : KeyLaws stone_meta (H := fx_stones).
Proof. apply onFst_keys, fx_objects_keys. Defined.
#[local] Instance fx_stones_keep : WritesKeep stoneKept (H := fx_stones).
Proof. apply onFst_keep, fx_objects_keep. Defined.
#[local] Instance fx_stoneSets_keys : KeyLaws set_meta (H := fx_stoneSets).
Proof. apply onSnd_keys, onFst_keys, fx_objects_keys. Defined.
#[local] Instance fx_stoneCodec : SpecCodec StoneSpec := {|
  marshalSpec s := inr "spec"; unmarshalSpec s := inl (ErrMsg "unmarshal");
|}.
#[local] Instance fx_owners : OwnerLib := {| SetControllerReference o m := (None, m) |}.
#[local] Instance fx_owners_laws : OwnerLaws.
Proof. by split. Defined.

Definition fx_stone (strategy : StrategyType) : Stone :=
  mkStone (metaNamed "default" "Shop")
    (mkStoneSpec fx_template [] strategy
       [mkGroup "A" fx_coordinates (Some 3); mkGroup "B" [mkCoordinate "C" "" "" 1] None]
       (mkServiceSpec [mkServicePort "http" ""] ∅ ""))
    (mkStoneStatus 0 0).

Definition fx_written (c : StoneCall) : option string :=
  match c with
  | OnSet (CreateRequest s) None => Some ("set " +:+ Name (set_meta s))
  | OnSet (UpdateRequest s) None => Some ("set update " +:+ Name (set_meta s))
  | OnService (CreateRequest s) None => Some ("service " +:+ Name (svc_meta s))
  | OnStone (UpdateRequest _) None => Some "stone"
  | OnStone (StatusRequest s) None =>
      Some ("status " +:+ itoa (stone_StatefulSet (stone_Status s)))
  | _ => None
  end.
Definition fx_reconcileStone (strategy : StrategyType) : list string :=
  omap fx_written
    ((stone_Reconcile (mkKey "default" "Shop") : M (fx_stoneServer * list StoneCall) _)
       (([fx_stone strategy], ([], [])), [])).2.2.

Example reconcile_omega :
  fx_reconcileStone Omega
  = ["set shop-0-a"; "set shop-1-b"; "service shop-0-a"; "service shop-1-b"; "stone"; "status 2"].
Proof. vm_compute. reflexivity. Qed.
Example reconcile_unknown :
  fx_reconcileStone "Gamma" = ["set shop-0-a"; "service shop-0-a"; "stone"; "status 1"].
Proof. vm_compute. reflexivity. Qed.

Lemma getStatefulSet_plan_witness :
  emits (State := fx_stoneServer * list StoneCall)
    (getStatefulSet (stone_Coordinates (stone_Spec (fx_stone Omega))) (fx_stone Omega)) (fun o cs =>
    forall l ste', o = Ok (inr l, ste') -> length l = 2%nat).
Proof.
  eapply emits_mono; [apply (getStatefulSet_plan (fx_stone Omega))|].
  intros o cs [_ Hl] l ste' E. pose proof (Hl l ste' E) as Hf.
  apply Forall2_length in Hf. symmetry. exact Hf.
Defined.

Lemma stone_Reconcile_writes_witness :
  exists rest,
    ((stone_Reconcile (mkKey "default" "Shop") : M (fx_stoneServer * list StoneCall) _)
       (([fx_stone Omega], ([], [])), [])).2.2
    = [] ++ OnStone (GetRequest (mkKey "default" "Shop")) None :: rest
    /\ Forall (allowedCall (W := fx_stoneServer) (fx_stone Omega)) rest.
Proof.
  destruct (stone_Reconcile_writes (W := fx_stoneServer) (mkKey "default" "Shop") (inr (fx_stone Omega))
              (([fx_stone Omega], ([], [])), [])) as (cs & E & rest & Hcs & _ & Hall);
    [vm_compute; reflexivity|].
  exists rest. split; [|exact Hall]. subst cs. exact E.
Defined.

#[local] Existing Instances fx_coordJson fx_coordJson_laws.

Lemma newStatefulSet_spreads_witness :
  exists sts, imposeOn (fx_stone Omega) 2
      (newStatefulSet (fx_stone Omega) (mkGroup "A" fx_coordinates None) "shop-0-a") = Ok sts
    /\ exists pod, newStatefulSetPod sts 1 = Ok pod
      /\ (Affinity (pod_Spec pod) ≫= aff_NodeAffinity)
         = Some (organizationNodeAffinity (mkCoordinate "B" "S-02" "node2" 1)).
Proof.
  destruct (newStatefulSet_spreads (fx_stone Omega) (mkGroup "A" fx_coordinates None) "shop-0-a")
    as (_ & sts & Hi & _ & _ & Hp).
  - split; [reflexivity|discriminate].
  - reflexivity.
  - exists sts. split; [exact Hi|].
    destruct (Hp 1%nat (mkCoordinate "B" "S-02" "node2" 1) eq_refl) as (_ & pod & Hpod & Ha).
    exists pod. split; [exact Hpod|exact Ha].
Defined.
