(* ===== verification/ServerStore.v ===== *)
(** The API server as a store that keeps what is written to it while nobody else writes:
    the assumption under which [StoneStore] shows that reconciles settle. *)

From S2P Require Import Prelude Objects Cluster.

(** What a write call leaves: the object keeps its key and payload, and on success it is
    what is stored under that key; a failed write may have been carried out. *)
Definition written {W A P} (metaOf : A -> ObjectMeta) (payload : A -> P)
    (objects : W -> gmap ObjectKey A) (a : A) (w : W) (err : option Err) (a' : A) (w' : W) : Prop :=
  keyOf (metaOf a') = keyOf (metaOf a) /\ payload a' = payload a
  /\ let stored := <[keyOf (metaOf a) := a']> (objects w) in
     match err with
     | None => objects w' = stored
     | Some _ => objects w' = objects w \/ objects w' = stored
     end.

(** What a status write leaves: the object's payload is the one that is stored,
    whatever the object sent says; a failed write leaves the object as it is. *)
Definition statusWritten {W A P} (metaOf : A -> ObjectMeta) (payload : A -> P)
    (objects : W -> gmap ObjectKey A) (a : A) (w : W) (err : option Err) (a' : A) (w' : W) : Prop :=
  let k := keyOf (metaOf a) in
  keyOf (metaOf a') = k
  /\ (err = None \/ payload a' = payload a)
  /\ ((err <> None /\ objects w' = objects w)
      \/ exists old new, objects w !! k = Some old /\ keyOf (metaOf new) = k
           /\ payload new = payload old
           /\ objects w' = <[k := new]> (objects w)).

(** Any call may fail; reads change nothing. *)
Class Store {W A P : Type} `{Client W A} (metaOf : A -> ObjectMeta) (payload : A -> P) := {
  objects : W -> gmap ObjectKey A;
  store_get k w : objects (Get k w).2 = objects w;
  store_found k w a : (Get k w).1 = inr a -> objects w !! k = Some a;
  store_missing k w : (Get k w).1 = inl ErrNotFound -> objects w !! k = None;
  store_key k w a : objects w !! k = Some a -> keyOf (metaOf a) = k;
  store_create a w err a' w' : Create a w = ((err, a'), w') ->
    written metaOf payload objects a w err a' w';
  store_update a w err a' w' : Update a w = ((err, a'), w') ->
    written metaOf payload objects a w err a' w';
  store_status a w err a' w' : StatusUpdate a w = ((err, a'), w') ->
    statusWritten metaOf payload objects a w err a' w';
  store_delete a w err w' : Delete a w = (err, w') ->
    objects w' = objects w \/ objects w' = delete (keyOf (metaOf a)) (objects w);
}.
Arguments objects {W A P _ metaOf payload _}.

(** A delete that is reported as done is done. *)
Class Deletes {W A P : Type} `{Store W A P metaOf payload} := {
  delete_done a w w' : Delete a w = (None, w') ->
    objects w' = delete (keyOf (metaOf a)) (objects w);
}.
Arguments Deletes W A {P H} metaOf payload {H0}.

(** A patch writes what is stored under the object's key, if anything; the key stays. *)
Class Patches {W A P : Type} `{Store W A P metaOf payload} := {
  patch_one a patch w : let w' := (Patch a patch w).2 in
    objects w' = objects w
    \/ exists new, keyOf (metaOf new) = keyOf (metaOf a)
         /\ objects w' = <[keyOf (metaOf a) := new]> (objects w);
}.
Arguments Patches W A {P H} metaOf payload {H0}.

(** A list without a selector has all the objects of the namespace. *)
Class Lists {W A P : Type} `{Store W A P metaOf payload, Lister W A} := {
  list_same ns w : objects (List_ (A := A) ns None w).2 = objects w;
  list_all ns w l : (List_ ns None w).1 = inr l ->
    l ≡ₚ filter (fun a => Namespace (metaOf a) = ns) (map_to_list (objects w)).*2;
}.
Arguments Lists W A {P H} metaOf payload {H0 H1}.

(** A part of the world that the calls about a type do not touch. *)
Class Apart {W X : Type} (A : Type) `{Client W A} (part : W -> X) := {
  apart_get k w : part (Get (A := A) k w).2 = part w;
  apart_create (a : A) w : part (Create a w).2 = part w;
  apart_update (a : A) w : part (Update a w).2 = part w;
  apart_status (a : A) w : part (StatusUpdate a w).2 = part w;
  apart_delete (a : A) w : part (Delete a w).2 = part w;
  apart_patch (a : A) patch w : part (Patch a patch w).2 = part w;
}.

Section Calls.
Context {W A P : Type} `{Store W A P metaOf payload}.
Implicit Types w : W.

(** Reading: the object stored under the key, or an error. *)
Lemma holds_Get {X} (part : W -> X) `{!Apart A part} k w
    (Q : Outcome (Result A) -> W -> Prop) :
  (forall r w', objects w' = objects w -> part w' = part w ->
     match r with
     | inr a => objects w !! k = Some a
     | inl e => IsNotFound e = true -> objects w !! k = None
     end -> Q (Ok r) w') ->
  holds (call (Get k)) w Q.
Proof.
  intros HQ. apply holds_call. apply HQ; [apply store_get|apply apart_get|].
  destruct (Get k w).1 as [e|a] eqn:E; [|by apply store_found in E].
  unfold IsNotFound. rewrite bool_decide_eq_true. intros ->. by apply store_missing in E.
Qed.

(** Writing. *)
Lemma holds_Create {X} (part : W -> X) `{!Apart A part} a w
    (Q : Outcome (option Err * A) -> W -> Prop) :
  (forall err a' w', written metaOf payload objects a w err a' w' -> part w' = part w ->
     Q (Ok (err, a')) w') -> holds (call (Create a)) w Q.
Proof.
  intros HQ. apply holds_call. pose proof (apart_create (part := part) a w) as Ha.
  destruct (Create a w) as [[err a'] w'] eqn:E. apply HQ; [by apply store_create|done].
Qed.
Lemma holds_Update {X} (part : W -> X) `{!Apart A part} a w
    (Q : Outcome (option Err * A) -> W -> Prop) :
  (forall err a' w', written metaOf payload objects a w err a' w' -> part w' = part w ->
     Q (Ok (err, a')) w') -> holds (call (Update a)) w Q.
Proof.
  intros HQ. apply holds_call. pose proof (apart_update (part := part) a w) as Ha.
  destruct (Update a w) as [[err a'] w'] eqn:E. apply HQ; [by apply store_update|done].
Qed.
Lemma holds_Status {X} (part : W -> X) `{!Apart A part} a w
    (Q : Outcome (option Err * A) -> W -> Prop) :
  (forall err a' w', statusWritten metaOf payload objects a w err a' w' -> part w' = part w ->
     Q (Ok (err, a')) w') -> holds (call (StatusUpdate a)) w Q.
Proof.
  intros HQ. apply holds_call. pose proof (apart_status (part := part) a w) as Ha.
  destruct (StatusUpdate a w) as [[err a'] w'] eqn:E. apply HQ; [by apply store_status|done].
Qed.
Lemma holds_Delete {X} (part : W -> X) `{!Apart A part} a w
    (Q : Outcome (option Err) -> W -> Prop) :
  (forall err w', part w' = part w -> Q (Ok err) w') -> holds (call (Delete a)) w Q.
Proof.
  intros HQ. apply holds_call. pose proof (apart_delete (part := part) a w) as Ha.
  destruct (Delete a w) as [err w']. by apply HQ.
Qed.

(** A write touches no other key, and nothing that was there goes away. *)
Lemma written_other a w err a' w' k :
  written metaOf payload objects a w err a' w' -> k <> keyOf (metaOf a) ->
  objects w' !! k = objects w !! k.
Proof.
  intros (_ & _ & Hw) Hk. destruct err; [destruct Hw as [->| ->]|rewrite Hw]; try done;
    by apply lookup_insert_ne.
Qed.
Lemma written_keeps a w err a' w' k :
  written metaOf payload objects a w err a' w' -> is_Some (objects w !! k) ->
  is_Some (objects w' !! k).
Proof.
  intros (_ & _ & Hw) Hk. destruct err; [destruct Hw as [->| ->]|rewrite Hw]; try done;
    (destruct (decide (keyOf (metaOf a) = k)) as [->|]; [by rewrite lookup_insert_eq|
       by rewrite lookup_insert_ne]).
Qed.
Lemma written_stored a w a' w' :
  written metaOf payload objects a w None a' w' ->
  objects w' !! keyOf (metaOf a) = Some a' /\ payload a' = payload a.
Proof. intros (_ & Hp & ->). split; [apply lookup_insert_eq|done]. Qed.
End Calls.

(** ** A concrete server

    Objects are found under their keys, writes succeed, and a status write takes what
    [withStatus sent stored] makes of the object that is stored. *)
Section FxStore.
Context {A P : Type} (metaOf : A -> ObjectMeta) (payload : A -> P) (withStatus : A -> A -> A).
Hypothesis withStatus_meta : forall a old, metaOf (withStatus a old) = metaOf old.
Hypothesis withStatus_payload : forall a old, payload (withStatus a old) = payload old.

Definition fx_server : Client (list A) A := {|
  Get := Get (Client := fx_objects metaOf);
  Create := Create (Client := fx_objects metaOf);
  Update := Update (Client := fx_objects metaOf);
  StatusUpdate a w :=
    match fx_find metaOf (keyOf (metaOf a)) w with
    | Some old =>
        let a' := withStatus a old in ((None, a'), fx_store metaOf a' w)
    | None => ((Some ErrNotFound, a), w)
    end;
  Delete := Delete (Client := fx_objects metaOf);
  Patch := Patch (Client := fx_objects metaOf);
|}.

Definition fx_map (w : list A) : gmap ObjectKey A :=
  list_to_map ((fun a => (keyOf (metaOf a), a)) <$> w).

Lemma fx_map_find k w : fx_map w !! k = fx_find metaOf k w.
Proof.
  unfold fx_map, fx_find. induction w as [|a w IH]; [done|]. cbn.
  destruct (decide (keyOf (metaOf a) = k)) as [->|Hne]; [apply lookup_insert_eq|].
  rewrite lookup_insert_ne by done. cbn in IH. rewrite IH.
  by destruct (list_find _ w) as [[i b]|].
Qed.

Lemma fx_find_key k w a : fx_find metaOf k w = Some a -> keyOf (metaOf a) = k.
Proof.
  unfold fx_find. destruct (list_find _ w) as [[i b]|] eqn:E; [|done]. intros [= <-].
  by apply list_find_Some in E as (_ & ? & _).
Qed.

Lemma fx_map_filter k w :
  fx_map (filter (fun b => keyOf (metaOf b) <> k) w) = delete k (fx_map w).
Proof.
  unfold fx_map. induction w as [|b w IH]; [symmetry; apply delete_empty|].
  rewrite filter_cons.
  destruct (decide (keyOf (metaOf b) <> k)) as [Hb|Hb]; cbn.
  - rewrite delete_insert_ne by done. f_equal. exact IH.
  - apply dec_stable in Hb as <-. rewrite delete_insert_eq. exact IH.
Qed.

Lemma fx_map_store a w : fx_map (fx_store metaOf a w) = <[keyOf (metaOf a) := a]> (fx_map w).
Proof.
  unfold fx_store. transitivity (delete (keyOf (metaOf a)) (fx_map w) ∪ {[keyOf (metaOf a) := a]}).
  - rewrite <-fx_map_filter. unfold fx_map. by rewrite fmap_app, list_to_map_app.
  - rewrite <-insert_union_singleton_r by apply lookup_delete_eq. apply insert_delete_eq.
Qed.

Lemma fx_server_store : @Store (list A) A P fx_server metaOf payload.
Proof using withStatus_meta withStatus_payload.
  apply (Build_Store _ _ _ _ _ _ fx_map); cbn.
  - done.
  - intros k w a. rewrite fx_map_find. by destruct (fx_find _ k w); [intros [= <-]|].
  - intros k w. rewrite fx_map_find. by destruct (fx_find _ k w).
  - intros k w a. rewrite fx_map_find. apply fx_find_key.
  - intros a w err a' w'. destruct (fx_find _ _ w); intros [= <- <- <-];
      (split_and!; [done..|]); [by left|apply fx_map_store].
  - intros a w err a' w' [= <- <- <-]. split_and!; [done..|apply fx_map_store].
  - intros a w err a' w'. destruct (fx_find _ _ w) as [old|] eqn:E; intros [= <- <- <-].
    + pose proof (fx_find_key _ _ _ E) as Hk. rewrite <-withStatus_meta with (a := a) in Hk.
      split_and!; [done|by left|]. right. exists old, (withStatus a old).
      rewrite fx_map_find, E. split_and!; [done..|]. rewrite <-Hk. apply fx_map_store.
    + split_and!; [done|by right|]. by left.
  - intros a w err w' [= <- <-]. right. apply fx_map_filter.
Defined.
Lemma fx_server_patches : @Patches (list A) A P fx_server metaOf payload fx_server_store.
Proof using withStatus_meta withStatus_payload.
  split; cbn. by left.
Defined.
Lemma fx_server_deletes : @Deletes (list A) A P fx_server metaOf payload fx_server_store.
Proof using withStatus_meta withStatus_payload.
  split; cbn. intros a w w' [= <-]. apply fx_map_filter.
Defined.
End FxStore.

(** Side by side with another server. *)
Section Beside.
Context {W V A P : Type} (c : Client W A) (metaOf : A -> ObjectMeta) (payload : A -> P).
Context `{!Store metaOf payload}.

Lemma onFst_store : @Store (W * V) A P (onFst c) metaOf payload.
Proof.
  apply (Build_Store _ _ _ _ _ _ (fun w => objects w.1)); cbn.
  - intros k w. pose proof (store_get k w.1). by destruct (Get k w.1).
  - intros k w a. pose proof (store_found k w.1 a). by destruct (Get k w.1).
  - intros k w. pose proof (store_missing k w.1). by destruct (Get k w.1).
  - intros k w a. apply store_key.
  - intros a w err a' w'. destruct (Create a w.1) as [[e b] v] eqn:E. intros [= <- <- <-].
    by apply store_create in E.
  - intros a w err a' w'. destruct (Update a w.1) as [[e b] v] eqn:E. intros [= <- <- <-].
    by apply store_update in E.
  - intros a w err a' w'. destruct (StatusUpdate a w.1) as [[e b] v] eqn:E.
    intros [= <- <- <-]. by apply store_status in E.
  - intros a w err w'. destruct (Delete a w.1) as [e v] eqn:E. intros [= <- <-].
    by apply store_delete in E.
Defined.
Lemma onSnd_store : @Store (V * W) A P (onSnd c) metaOf payload.
Proof.
  apply (Build_Store _ _ _ _ _ _ (fun w => objects w.2)); cbn.
  - intros k w. pose proof (store_get k w.2). by destruct (Get k w.2).
  - intros k w a. pose proof (store_found k w.2 a). by destruct (Get k w.2).
  - intros k w. pose proof (store_missing k w.2). by destruct (Get k w.2).
  - intros k w a. apply store_key.
  - intros a w err a' w'. destruct (Create a w.2) as [[e b] v] eqn:E. intros [= <- <- <-].
    by apply store_create in E.
  - intros a w err a' w'. destruct (Update a w.2) as [[e b] v] eqn:E. intros [= <- <- <-].
    by apply store_update in E.
  - intros a w err a' w'. destruct (StatusUpdate a w.2) as [[e b] v] eqn:E.
    intros [= <- <- <-]. by apply store_status in E.
  - intros a w err w'. destruct (Delete a w.2) as [e v] eqn:E. intros [= <- <-].
    by apply store_delete in E.
Defined.

Lemma onFst_deletes `{!Deletes W A metaOf payload} :
  @Deletes (W * V) A P (onFst c) metaOf payload onFst_store.
Proof.
  split; cbn. intros a w w'. destruct (Delete a w.1) as [e v] eqn:E. intros [= -> <-].
  by apply delete_done in E.
Defined.

Lemma onFst_patches `{!Patches W A metaOf payload} :
  @Patches (W * V) A P (onFst c) metaOf payload onFst_store.
Proof.
  split; cbn. intros a patch w. pose proof (patch_one a patch w.1).
  by destruct (Patch a patch w.1).
Defined.

Lemma onFst_apart {X} (f : V -> X) : @Apart (W * V) X A (onFst c) (fun w => f w.2).
Proof.
  split; intros; cbn;
    [destruct (Get k w.1)|destruct (Create a w.1)|destruct (Update a w.1)
    |destruct (StatusUpdate a w.1)|destruct (Delete a w.1)|destruct (Patch a patch w.1)]; done.
Defined.
Lemma apart_none : Apart A (fun _ : W => ()).
Proof. done. Defined.
Lemma onSnd_apart {X Y} (h : V -> X -> Y) (part : W -> X) :
  Apart A part -> @Apart (V * W) Y A (onSnd c) (fun w => h w.1 (part w.2)).
Proof.
  split; intros; cbn;
    [pose proof (apart_get (A := A) (part := part) k w.2); destruct (Get k w.2)
    |pose proof (apart_create (part := part) a w.2); destruct (Create a w.2)
    |pose proof (apart_update (part := part) a w.2); destruct (Update a w.2)
    |pose proof (apart_status (part := part) a w.2); destruct (StatusUpdate a w.2)
    |pose proof (apart_delete (part := part) a w.2); destruct (Delete a w.2)
    |pose proof (apart_patch (part := part) a patch w.2); destruct (Patch a patch w.2)];
    cbn in *; congruence.
Defined.
End Beside.

(** A server some of whose writes fail and leave it as it is: it counts them. *)
Section Flaky.
Context {W A P : Type} (c : Client W A) (metaOf : A -> ObjectMeta) (payload : A -> P).
Context `{!Store metaOf payload} (e : Err) (fails : nat -> bool).

Definition flakyWrite {R} (failed : R) (f : W -> R * W) (w : nat * W) : R * (nat * W) :=
  if fails w.1 then (failed, (S w.1, w.2)) else let (r, v) := f w.2 in (r, (S w.1, v)).
Definition flaky : Client (nat * W) A := {|
  Get k w := let (r, v) := Get k w.2 in (r, (w.1, v));
  Create a := flakyWrite (Some e, a) (Create a);
  Update a := flakyWrite (Some e, a) (Update a);
  StatusUpdate a := flakyWrite (Some e, a) (StatusUpdate a);
  Delete a := flakyWrite (Some e) (Delete (A := A) a);
  Patch a p := flakyWrite (Some e, a) (Patch a p);
|}.

Lemma flakyWrite_cases {R} (failed r : R) f (w w' : nat * W) :
  flakyWrite failed f w = (r, w') -> (r = failed /\ w'.2 = w.2) \/ f w.2 = (r, w'.2).
Proof.
  unfold flakyWrite. destruct (fails w.1); [intros [= <- <-]; by left|].
  destruct (f w.2). intros [= <- <-]. by right.
Qed.

Lemma flaky_store : @Store (nat * W) A P flaky metaOf payload.
Proof.
  apply (Build_Store _ _ _ _ _ _ (fun w => objects w.2)); cbn.
  - intros k w. pose proof (store_get k w.2). by destruct (Get k w.2).
  - intros k w a. pose proof (store_found k w.2 a). by destruct (Get k w.2).
  - intros k w. pose proof (store_missing k w.2). by destruct (Get k w.2).
  - intros k w a. apply store_key.
  - intros a w err a' w' [[[= -> ->] E]|E]%flakyWrite_cases; [|by apply store_create in E].
    unfold written. rewrite E. split_and!; [done..|by left].
  - intros a w err a' w' [[[= -> ->] E]|E]%flakyWrite_cases; [|by apply store_update in E].
    unfold written. rewrite E. split_and!; [done..|by left].
  - intros a w err a' w' [[[= -> ->] E]|E]%flakyWrite_cases; [|by apply store_status in E].
    unfold statusWritten. rewrite E. split_and!; [done|by right|by left].
  - intros a w err w' [[-> E]|E]%flakyWrite_cases; [by left; rewrite E|by apply store_delete in E].
Defined.
Lemma flaky_deletes `{!Deletes W A metaOf payload} :
  @Deletes (nat * W) A P flaky metaOf payload flaky_store.
Proof.
  split; cbn. intros a w w' [[? _]|E]%flakyWrite_cases; [done|]. by apply delete_done in E.
Defined.
Lemma flaky_patches `{!Patches W A metaOf payload} :
  @Patches (nat * W) A P flaky metaOf payload flaky_store.
Proof.
  split; cbn. intros a patch w. unfold flakyWrite. pose proof (patch_one a patch w.2).
  destruct (fails w.1); [by left|]. by destruct (Patch a patch w.2).
Defined.
End Flaky.
