(* ===== verification/StoneStore.v ===== *)
(** Stones on a server that keeps what is written: a reconcile that succeeds has brought
    the sets and services of the stone in line, and the next one leaves them alone. *)

From S2P Require Import Prelude Objects GoString Libraries Coordinate Fixtures Naming.
From S2P Require Import PodIdentity InPlace Cluster CallLog Workloads Stone ServerStore.

(** ** Names *)

Lemma firstDash_inj a a' b b' :
  occurs "-"%char a = false -> occurs "-"%char a' = false ->
  a +:+ "-" +:+ b = a' +:+ "-" +:+ b' -> a = a'.
Proof.
  revert a'. induction a as [|c a IH]; intros [|c' a']; [done| | |].
  - rewrite append_cons. intros _ Ho [= <- _]. by cbn in Ho.
  - rewrite append_cons. intros Ho _ [= -> _]. by cbn in Ho.
  - rewrite !append_cons. cbn. intros [_ Ho]%orb_false_iff [_ Ho']%orb_false_iff [= -> E].
    f_equal. by apply IH.
Qed.

Lemma append_cancel a b b' : a +:+ b = a +:+ b' -> b = b'.
Proof. induction a as [|c a IH]; [done|]. rewrite !append_cons. intros [= E]. auto. Qed.

(** The sets of different groups have different names. *)
Lemma statefulSetName_inj stone group group' i i' :
  0 <= i -> 0 <= i' -> statefulSetName stone group i = statefulSetName stone group' i' -> i = i'.
Proof.
  intros Hi Hi'. unfold statefulSetName. rewrite !ToLower_app.
  intros E%append_cancel%append_cancel.
  destruct (itoa_nonneg i Hi) as (Hd & _), (itoa_nonneg i' Hi') as (Hd' & _).
  rewrite (ToLower_digits (itoa i)), (ToLower_digits (itoa i')) in E by done.
  apply firstDash_inj in E; [|by apply itoa_no_dash..].
  by apply itoa_inj in E.
Qed.

(** ** What is settled *)

(** The set of a planned group is there, of the planned size and with the stone's
    containers; and its service is, unless the stone names no ports. *)
Definition placed (ste : Stone) (sets : gmap ObjectKey StatefulSet)
    (item : Z * CoordinatesGroup * Z) : Prop :=
  exists sts, sets !! groupKeyOf ste item = Some sts
    /\ spec_Replicas (set_Spec sts) = Some item.2
    /\ Containers (tpl_Spec (Template (set_Spec sts)))
       = Containers (tpl_Spec (stone_Template (stone_Spec ste))).
Definition served (ste : Stone) (services : gmap ObjectKey Service)
    (item : Z * CoordinatesGroup * Z) : Prop :=
  is_Some (services !! groupKeyOf ste item) \/ Ports (stone_Service (stone_Spec ste)) = [].

Definition established (ste : Stone) (sets : gmap ObjectKey StatefulSet)
    (services : gmap ObjectKey Service) : Prop :=
  forall item, item ∈ planned ste -> placed ste sets item /\ served ste services item.

Lemma planned_index ste j item : planned ste !! j = Some item -> item.1.1 = Z.of_nat j.
Proof.
  assert (Hsized : forall f : CoordinatesGroup -> Z,
    imap (fun k cg => (0 + Z.of_nat k, cg, f cg)) (stone_Coordinates (stone_Spec ste)) !! j
    = Some item -> item.1.1 = Z.of_nat j).
  { intros f. rewrite list_lookup_imap. destruct (_ !! j); [|done]. intros [= <-]. done. }
  assert (Htake : forall k (f : CoordinatesGroup -> Z),
    take k (imap (fun k cg => (0 + Z.of_nat k, cg, f cg)) (stone_Coordinates (stone_Spec ste))) !! j
    = Some item -> item.1.1 = Z.of_nat j).
  { intros k f [Hj _]%lookup_take_Some. by apply (Hsized f). }
  unfold planned, plannedFrom. repeat case_decide; [done|apply (Htake 1%nat)|apply Hsized..|apply (Htake 1%nat)].
Qed.

Lemma planned_keys ste : NoDup (groupKeyOf ste <$> planned ste).
Proof.
  apply NoDup_alt. intros i j k. rewrite !list_lookup_fmap.
  destruct (planned ste !! i) as [[[zi cgi] si]|] eqn:Ei; [|done].
  destruct (planned ste !! j) as [[[zj cgj] sj]|] eqn:Ej; [|done].
  apply planned_index in Ei, Ej. cbn in Ei, Ej. subst zi zj. cbn. intros [= <-] [= E].
  apply statefulSetName_inj in E; lia.
Qed.

(** ** The steps of a reconcile, on the stores *)

Lemma setContainers_same s : setContainers (Containers s) s = s.
Proof. by destruct s. Qed.

(** What the server keeps of a set: what the controller compares. *)
Definition setKept (sts : StatefulSet) : option Z * PodSpec :=
  (spec_Replicas (set_Spec sts), tpl_Spec (Template (set_Spec sts))).

Section Stores.
Context {W : Type} `{KubeLib, Json Coordinates, SpecCodec StoneSpec, OwnerLaws, RetryLaws}.
Context `{Store W Stone StoneSpec stone_meta stone_Spec}.
Context `{Store W StatefulSet (option Z * PodSpec) set_meta setKept}.
Context `{Store W Service unit svc_meta (fun _ => ())}.

Definition stones (w : W) : gmap ObjectKey Stone := objects w.
Definition sets (w : W) : gmap ObjectKey StatefulSet := objects w.
Definition services (w : W) : gmap ObjectKey Service := objects w.

(** The calls about one type leave the objects of the others alone. *)
Context `{!Apart Stone (fun w => (sets w, services w))}.
Context `{!Apart StatefulSet (fun w => (stones w, services w))}.
Context `{!Apart Service (fun w => (stones w, sets w))}.

(** Nothing stored has changed. *)
Definition same (w w' : W) : Prop :=
  stones w' = stones w /\ sets w' = sets w /\ services w' = services w.

Lemma same_refl w : same w w.
Proof. done. Qed.
Lemma same_trans w w' w'' : same w w' -> same w' w'' -> same w w''.
Proof. intros (? & ? & ?) (? & ? & ?). split_and!; congruence. Qed.

(** A set as [getStatefulSet] makes it from what is stored. *)
Definition fromStore (ste : Stone) (w : W) (item : Z * CoordinatesGroup * Z) (sts : StatefulSet)
  : Prop :=
  asPlanned ste item sts
  /\ forall tmp, sets w !! groupKeyOf ste item = Some tmp -> imposeOn ste item.2 tmp = Ok sts.

(** Reading the sets of [items], after the sets [acc]: nothing is changed. *)
Definition storePlanned (ste : Stone) (w : W) (acc : list StatefulSet)
    (items : list (Z * CoordinatesGroup * Z))
    (o : Outcome (Result (list StatefulSet) * Stone)) (w' : W) : Prop :=
  same w w' /\
  match o with
  | Ok (r, ste') =>
      (exists s, normalises (Strategy (stone_Spec ste)) s /\ ste' = setStrategy s ste)
      /\ match r with
         | inr l => exists l', l = acc ++ l' /\ Forall2 (fromStore ste w) items l'
         | inl _ => True
         end
  | Panic _ => True
  end.

Lemma storePlanned_after strategy ste w w1 acc l0 items rest o w' :
  normalises (Strategy (stone_Spec ste)) strategy -> Forall2 (fromStore ste w) items l0 ->
  same w w1 -> storePlanned (setStrategy strategy ste) w1 (acc ++ l0) rest o w' ->
  storePlanned ste w acc (items ++ rest) o w'.
Proof.
  intros Hn Hl0 Hw1 [Hw' Ho]. split; [by eapply same_trans|].
  destruct o as [[r ste']|p]; [|done]. destruct Ho as [(s & Hs & ->) Hr].
  split; [exists s; split; [by eapply normalises_trans|done]|].
  destruct r as [e|l]; [done|]. destruct Hr as (l' & -> & Hl'). exists (l0 ++ l').
  rewrite <-app_assoc. split; [done|]. apply Forall2_app; [done|].
  eapply Forall2_impl; [|exact Hl']. unfold fromStore. destruct Hw1 as (_ & -> & _). done.
Qed.

Lemma getStatefulSetFrom_store i cgs ste acc w :
  0 <= i ->
  holds (getStatefulSetFrom i cgs ste acc) w
    (storePlanned ste w acc (plannedFrom (Strategy (stone_Spec ste)) i cgs)).
Proof.
  revert i ste acc w. induction cgs as [|cg cgs IH]; intros i ste acc w Hi; cbn [getStatefulSetFrom].
  { apply holds_ret. split; [apply same_refl|]. split.
    { exists (Strategy (stone_Spec ste)). split; [by left|by rewrite setStrategy_same]. }
    exists []. rewrite app_nil_r. split; [done|]. unfold plannedFrom. by repeat case_decide. }
  apply holds_bind, holds_lift.
  destruct (groupSize _ i cg) as [[strategy size]|] eqn:Es; [|split; [apply same_refl|done]].
  rewrite (plannedFrom_step _ _ _ _ _ _ Hi Es). apply groupSize_normalises in Es.
  destruct size as [size|].
  2: { eapply holds_mono; [apply IH; lia|]. intros o w' Ho.
       apply (storePlanned_after strategy ste w w acc [] [] _ o w'); [done..|].
       by rewrite app_nil_r. }
  apply holds_bind, (holds_Get (fun w => (stones w, services w))). intros r w1 Hsets [= Hst Hsv] Hr.
  assert (Hw1 : same w w1) by by split_and!.
  assert (Hone : forall sts base, keyOf (set_meta base) = groupKeyOf ste (i, cg, size) ->
    (forall tmp, sets w !! groupKeyOf ste (i, cg, size) = Some tmp -> tmp = base) ->
    imposeOn ste size base = Ok sts ->
    holds (getStatefulSetFrom (i + 1) cgs (setStrategy strategy ste) (acc ++ [sts])) w1
      (storePlanned ste w acc ((i, cg, size) :: plannedFrom strategy (i + 1) cgs))).
  { intros sts base Hk Hbase Hi'. eapply holds_mono; [apply IH; lia|]. intros o w'.
    apply (storePlanned_after strategy ste w w1 acc [sts] [(i, cg, size)]); [done| |done].
    constructor; [|done]. split; [by eapply imposeOn_planned|]. by intros tmp ->%Hbase. }
  assert (Hlift : forall base, keyOf (set_meta base) = groupKeyOf ste (i, cg, size) ->
    (forall tmp, sets w !! groupKeyOf ste (i, cg, size) = Some tmp -> tmp = base) ->
    holds (sts ← lift (imposeOn (setStrategy strategy ste) size base);
           getStatefulSetFrom (i + 1) cgs (setStrategy strategy ste) (acc ++ [sts])) w1
      (storePlanned ste w acc ((i, cg, size) :: plannedFrom strategy (i + 1) cgs))).
  { intros base Hk Hbase. apply holds_bind, holds_lift.
    destruct (imposeOn _ size base) as [sts|] eqn:E; [by apply (Hone sts base)|by split]. }
  destruct r as [e|sts].
  - destruct (IsNotFound e) eqn:Ee.
    + apply Hlift; [done|]. intros tmp Htmp. specialize (Hr eq_refl).
      unfold sets in Htmp. cbn in Htmp, Hr. congruence.
    + apply holds_ret. split; [done|]. split; [|done]. by exists strategy.
  - apply Hlift; [by apply (store_key _ _ _ Hr)|]. intros tmp Htmp.
    unfold sets in Htmp. cbn in Htmp, Hr. congruence.
Qed.

(** *** Sets *)

(** Nothing but the set under [k] has changed. *)
Definition onlySet (k : ObjectKey) (w w' : W) : Prop :=
  stones w' = stones w /\ services w' = services w
  /\ forall k', k' <> k -> sets w' !! k' = sets w !! k'.

Lemma onlySet_refl k w : onlySet k w w.
Proof. done. Qed.
Lemma onlySet_trans k w w' w'' : onlySet k w w' -> onlySet k w' w'' -> onlySet k w w''.
Proof.
  intros (? & ? & Ho) (? & ? & Ho'). split_and!; try congruence.
  intros k' Hk. by rewrite Ho', Ho.
Qed.

Lemma placed_other ste item k w w' : onlySet k w w' -> groupKeyOf ste item <> k ->
  placed ste (sets w) item -> placed ste (sets w') item.
Proof. intros (_ & _ & Ho) Hk. unfold placed. by rewrite Ho. Qed.

Lemma asPlanned_key ste item sts :
  asPlanned ste item sts -> keyOf (set_meta sts) = groupKeyOf ste item.
Proof. destruct item as [[i cg] size]. by intros (? & _). Qed.

(** A set that keeps what the planned one has is in its place. *)
Lemma kept_placed ste item sts tmp w : asPlanned ste item sts -> setKept tmp = setKept sts ->
  sets w !! groupKeyOf ste item = Some tmp -> placed ste (sets w) item.
Proof.
  intros Hp Hk Hs. exists tmp. split; [done|]. unfold setKept in Hk.
  destruct item as [[i cg] size], Hp as (_ & Hr & Hc). cbn. injection Hk as -> ->. by split.
Qed.

Lemma asPlanned_like ste item sts sts' :
  keyOf (set_meta sts') = keyOf (set_meta sts) -> setKept sts' = setKept sts ->
  asPlanned ste item sts -> asPlanned ste item sts'.
Proof.
  unfold setKept, asPlanned. destruct item as [[i cg] size]. by intros -> [= -> ->].
Qed.

(** A step on the set of [item]: only that set changes, and on success it is in place. *)
Definition setStep (ste : Stone) (item : Z * CoordinatesGroup * Z) (w : W)
    (o : Outcome (option Err * StatefulSet)) (w' : W) : Prop :=
  onlySet (groupKeyOf ste item) w w'
  /\ match o with
     | Ok (err, sts) => asPlanned ste item sts /\ (err = None -> placed ste (sets w') item)
     | Panic _ => True
     end.

Lemma setStep_written ste item sts w w1 err sts' w' :
  asPlanned ste item sts -> onlySet (groupKeyOf ste item) w w1 ->
  written set_meta setKept objects sts w1 err sts' w' ->
  (stones w', services w') = (stones w1, services w1) ->
  setStep ste item w (Ok (err, sts')) w'.
Proof.
  intros Hsts Hw1 Hw [= Hst Hsv]. pose proof (asPlanned_key _ _ _ Hsts) as Hk. split.
  - eapply onlySet_trans; [exact Hw1|]. split_and!; [done..|]. intros k' Hne.
    apply (written_other _ _ _ _ _ _ Hw). by rewrite Hk.
  - destruct Hw as (Hk' & Hp & Hw). split; [by eapply asPlanned_like|]. intros ->.
    apply (kept_placed ste item sts sts'); [done..|]. unfold sets. rewrite Hw, Hk.
    apply lookup_insert_eq.
Qed.

Lemma setAttempt_store ste ste' item sts w :
  asPlanned ste item sts -> holds (setAttempt ste' sts) w (setStep ste item w).
Proof.
  intros Hsts. pose proof (asPlanned_key _ _ _ Hsts) as Hk. unfold setAttempt.
  apply holds_bind, (holds_Get (fun w => (stones w, services w))).
  intros r w1 Hsets [= Hst Hsv] Hr.
  assert (Hw1 : onlySet (groupKeyOf ste item) w w1).
  { split_and!; [done..|]. intros k' _. unfold sets. by rewrite Hsets. }
  destruct r as [e|tmp].
  - destruct (IsNotFound e); [|by apply holds_ret].
    apply holds_bind, (holds_Create (fun w => (stones w, services w))).
    intros err sts' w' Hw Hap.
    pose proof (setStep_written _ _ _ _ _ _ _ _ Hsts Hw1 Hw Hap) as [Ho [Hp Hpl]].
    destruct err as [e'|]; [by apply holds_ret|].
    pose proof (owner_key (stone_meta ste') (set_meta sts')) as Hok.
    destruct (SetControllerReference _ _) as [err meta]. apply holds_ret.
    split; [done|]. split; [by apply (asPlanned_like _ _ sts')|]. intros _. by apply Hpl.
  - apply holds_bind, holds_lift. destruct (spec_Replicas (set_Spec tmp)) as [have|] eqn:Eh; [|by split].
    apply holds_bind, holds_lift. destruct (spec_Replicas (set_Spec sts)) as [want|] eqn:Ew; [|by split].
    cbn [deref]. destruct (decide (_ \/ _)) as [Hd|Hd].
    + apply (holds_Update (fun w => (stones w, services w))). intros err sts' w' Hw Hap.
      by eapply setStep_written.
    + apply holds_ret. split; [done|]. split; [done|]. intros _.
      apply (kept_placed ste item sts tmp); [done| |].
      * unfold setKept. rewrite Eh, Ew. f_equal; [f_equal|];
          apply dec_stable; intros Hne; apply Hd; auto.
      * rewrite <-Hk. unfold sets. by rewrite Hsets.
Qed.

Lemma updateSet_store ste ste' item sts w :
  asPlanned ste item sts -> holds (stone_updateStatefulSet sts ste') w (setStep ste item w).
Proof.
  intros Hsts.
  apply (holds_retry _ _ _ _ (fun sts w' =>
    onlySet (groupKeyOf ste item) w w' /\ asPlanned ste item sts)); [by split|].
  clear sts Hsts. intros sts w1 [Hw1 Hsts].
  eapply holds_mono; [by apply (setAttempt_store ste ste' item)|]. intros o w' [Ho Hp].
  split; [split; [by eapply onlySet_trans|done]|]. destruct o as [[[e|] sts']|]; [|done..].
  intros _. split; [by eapply onlySet_trans|by destruct Hp].
Qed.

(** Every set of the plan, one after the other. *)
Lemma updateSets_store ste ste' items l w :
  NoDup (groupKeyOf ste <$> items) -> Forall2 (asPlanned ste) items l ->
  holds (updateSets ste' l) w (fun o w' =>
    stones w' = stones w /\ services w' = services w
    /\ (forall k, k ∉ groupKeyOf ste <$> items -> sets w' !! k = sets w !! k)
    /\ forall l', o = Ok (None, l') ->
         (forall item, item ∈ items -> placed ste (sets w') item)
         /\ Forall2 (asPlanned ste) items l').
Proof.
  intros Hd Hl. revert w. induction Hl as [|item sts items l Hsts Hl IH]; intros w.
  { apply holds_ret. split_and!; [done..|]. intros l' [= <-]. split; [|done].
    by intros item ?%not_elem_of_nil. }
  apply list.NoDup_cons in Hd as [Hni Hd]. cbn [updateSets].
  apply holds_bind. eapply holds_mono; [by apply (updateSet_store ste ste' item)|].
  intros [[err sts']|p] w1 [(Hst & Hsv & Ho) Hp].
  2: { split_and!; [done..| |done]. intros k Hk. apply Ho. set_solver. }
  destruct Hp as [Hp Hpl], err as [e|].
  { apply holds_ret. split_and!; [done..| |done]. intros k Hk. apply Ho. set_solver. }
  apply holds_bind. eapply holds_mono; [apply IH, Hd|].
  intros [[err l1]|p] w2 (Hst2 & Hsv2 & Ho2 & Hp2).
  2: { split_and!; [congruence..| |done].
       intros k [Hk Hk']%not_elem_of_cons. by rewrite Ho2, Ho. }
  apply holds_ret. split_and!; [congruence..| |].
  { intros k [Hk Hk']%not_elem_of_cons. by rewrite Ho2, Ho. }
  cbn. intros l' [= -> <-]. destruct (Hp2 l1 eq_refl) as [Hpl2 Hl2]. split; [|by constructor].
  intros it [->|Hit]%elem_of_cons; [|by apply Hpl2].
  specialize (Hpl eq_refl). unfold placed. by rewrite Ho2.
Qed.
(** A set that is in its place is left alone. *)
Definition atRest (ste : Stone) (w : W) (item : Z * CoordinatesGroup * Z) (sts : StatefulSet)
  : Prop :=
  keyOf (set_meta sts) = groupKeyOf ste item
  /\ exists tmp, sets w !! groupKeyOf ste item = Some tmp /\ setKept tmp = setKept sts
       /\ is_Some (spec_Replicas (set_Spec sts)).

Lemma fromStore_atRest ste w item sts :
  fromStore ste w item sts -> placed ste (sets w) item -> atRest ste w item sts.
Proof.
  intros [Hp Hs] (tmp & Htmp & Hr & Hc). split; [by apply asPlanned_key|]. exists tmp.
  split; [done|]. specialize (Hs tmp Htmp). unfold imposeOn in Hs.
  destruct (UpdateStrategy _) as [us|]; [|done]. cbn in Hs.
  destruct (RollingUpdate us); [|done]. injection Hs as <-.
  split; [|by eexists]. unfold setKept. cbn. by rewrite Hr, <-Hc, setContainers_same.
Qed.

Lemma updateSet_rest ste ste' item sts w :
  atRest ste w item sts ->
  holds (stone_updateStatefulSet sts ste') w (fun o w' =>
    same w w' /\ forall r, o = Ok r -> r.2 = sts).
Proof.
  intros Hrest. apply (holds_retry _ _ _ _ (fun s w' => s = sts /\ same w w')); [by split|].
  intros s w0 [-> Hw0]. unfold setAttempt.
  apply holds_bind, (holds_Get (fun w => (stones w, services w))).
  intros r w1 Hsets [= Hst Hsv] Hr.
  assert (Hw01 : same w0 w1) by by split_and!.
  assert (Hw1 : same w w1) by by eapply same_trans.
  destruct Hrest as (Hk & tmp & Htmp & Hkept & want & Hwant).
  assert (Hin : objects w0 !! keyOf (set_meta sts) = Some tmp).
  { destruct Hw0 as (_ & Hs & _). rewrite Hk, <-Htmp. by rewrite <-Hs. }
  change (mkKey _ _) with (keyOf (set_meta sts)) in Hr.
  destruct r as [e|tmp'].
  - destruct (IsNotFound e); [specialize (Hr eq_refl); congruence|].
    apply holds_ret. split; [|done]. split; [done|]. by intros r [= <-].
  - assert (tmp' = tmp) as -> by congruence.
    injection Hkept as Hrep Htpl. rewrite Hrep, Hwant.
    apply holds_bind, holds_lift, holds_bind, holds_lift. cbn [deref].
    destruct (decide (_ \/ _)) as [[?|?]|_]; [done..|]. apply holds_ret.
    split; [|done]. split; [done|]. by intros r [= <-].
Qed.

Lemma updateSets_rest ste ste' items l w w0 :
  Forall2 (atRest ste w) items l -> same w w0 ->
  holds (updateSets ste' l) w0 (fun o w' =>
    same w w' /\ forall l', o = Ok (None, l') -> l' = l).
Proof.
  intros Hl. revert w0. induction Hl as [|item sts items l Hsts Hl IH]; intros w0 Hw0.
  { apply holds_ret. split; [done|]. by intros l' [= <-]. }
  cbn [updateSets]. apply holds_bind. eapply holds_mono.
  { apply (updateSet_rest ste ste' item). destruct Hw0 as (_ & Hs & _).
    unfold atRest in *. by rewrite Hs. }
  intros [[err sts']|p] w1 [Hw1 Hr].
  2: { split; [by eapply same_trans|done]. }
  specialize (Hr _ eq_refl). cbn in Hr. subst sts'.
  destruct err as [e|]; [apply holds_ret; split; [by eapply same_trans|done]|].
  apply holds_bind. eapply holds_mono; [apply IH; by eapply same_trans|].
  intros [[err l1]|p] w2 [Hw2 Hr]; [|by split]. apply holds_ret. split; [done|].
  cbn. intros l' [= -> <-]. by rewrite (Hr l1 eq_refl).
Qed.

(** *** Services *)

(** Services are only added. *)
Definition onlyServices (w w' : W) : Prop :=
  stones w' = stones w /\ sets w' = sets w
  /\ forall k, is_Some (services w !! k) -> is_Some (services w' !! k).

Lemma onlyServices_trans w w' w'' :
  onlyServices w w' -> onlyServices w' w'' -> onlyServices w w''.
Proof. intros (? & ? & ?) (? & ? & ?). split_and!; [congruence..|auto]. Qed.

(** A step on the service of [item]: nothing changes when it is there or not asked for,
    and on success it is. *)
Definition serviceStep (ste : Stone) (item : Z * CoordinatesGroup * Z) (w : W)
    (err : option Err) (w' : W) : Prop :=
  onlyServices w w'
  /\ (served ste (services w) item -> services w' = services w)
  /\ (err = None -> served ste (services w') item).

Lemma serviceAttempt_store ste ste' item sts w :
  stone_Service (stone_Spec ste') = stone_Service (stone_Spec ste) -> keyOf (set_meta sts) = groupKeyOf ste item ->
  holds (serviceAttempt ste' sts ()) w (fun o w' =>
    exists err, o = Ok (err, ()) /\ serviceStep ste item w err w').
Proof.
  intros Hspec Hk. unfold serviceAttempt.
  apply holds_bind, (holds_Get (fun w => (stones w, sets w))).
  intros r w1 Hsv [= Hst Hsets] Hr. change (mkKey _ _) with (keyOf (set_meta sts)) in Hr.
  assert (Hw1 : onlyServices w w1).
  { split_and!; [done..|]. intros k. unfold services. by rewrite Hsv. }
  destruct r as [e|svc].
  2: { apply holds_ret. exists None. split; [done|]. split_and!; [done..|]. intros _. left.
       rewrite <-Hk. unfold services. rewrite Hsv. by eexists. }
  destruct (IsNotFound e); [specialize (Hr eq_refl)|by apply holds_ret; exists (Some e)].
  destruct (checkService (newService ste' sts)) eqn:Ec; cbn [negb].
  - assert (Hp : Ports (stone_Service (stone_Spec ste)) <> []).
    { intros Hp. unfold checkService in Ec. apply bool_decide_eq_true in Ec. cbn in Ec.
      rewrite Hspec, Hp in Ec. cbn in Ec. lia. }
    apply holds_bind, (holds_Create (fun w => (stones w, sets w))).
    intros err svc w' Hw [= Hst' Hsets']. apply holds_ret. exists err. split; [done|].
    change (keyOf (svc_meta (newService ste' sts))) with (keyOf (set_meta sts)) in Hw.
    split_and!.
    + split_and!; [congruence..|]. intros k Hin. apply (written_keeps _ _ _ _ _ _ Hw).
      unfold services in Hin. by rewrite Hsv.
    + intros [[svc0 Hin]|Hno]; [|done]. rewrite <-Hk in Hin. unfold services in Hin. congruence.
    + intros ->. left. apply written_stored in Hw as [Hin _]. exists svc. by rewrite <-Hk.
  - apply holds_ret. exists None. split; [done|]. split_and!; [done..|]. intros _. right.
    unfold checkService in Ec. apply bool_decide_eq_false in Ec. cbn in Ec.
    rewrite Hspec in Ec. destruct (Ports _); [done|]. cbn in Ec. lia.
Qed.

Lemma updateService_store ste ste' item sts w :
  stone_Service (stone_Spec ste') = stone_Service (stone_Spec ste) -> keyOf (set_meta sts) = groupKeyOf ste item ->
  holds (updateService ste' sts) w (fun o w' =>
    exists err, o = Ok err /\ serviceStep ste item w err w').
Proof.
  intros Hspec Hk. unfold updateService. apply holds_bind.
  apply (holds_retry _ _ _ _ (fun _ w' => onlyServices w w'
    /\ (served ste (services w) item -> services w' = services w))); [by split_and!|].
  intros [] w0 [Hw0 Hs0]. eapply holds_mono; [by apply (serviceAttempt_store ste ste' item)|].
  intros o w' (err & -> & Hw' & Hs' & Hok).
  assert (Hw : onlyServices w w') by by eapply onlyServices_trans.
  assert (Hs : served ste (services w) item -> services w' = services w).
  { intros Hin. pose proof (Hs0 Hin) as E. rewrite Hs'; by rewrite E. }
  split; [|by destruct err].
  destruct err; apply holds_ret; (eexists; split; [reflexivity|by split_and!]).
Qed.

Lemma served_mono ste item w w' :
  onlyServices w w' -> served ste (services w) item -> served ste (services w') item.
Proof. intros (_ & _ & Hm) [Hin|?]; [left; by apply Hm|by right]. Qed.

Lemma updateServices_store ste ste' items l w :
  stone_Service (stone_Spec ste') = stone_Service (stone_Spec ste) ->
  Forall2 (fun item sts => keyOf (set_meta sts) = groupKeyOf ste item) items l ->
  holds (updateServices ste' l) w (fun o w' =>
    onlyServices w w'
    /\ (Forall (served ste (services w)) items -> services w' = services w)
    /\ (o = Ok None -> Forall (served ste (services w')) items)).
Proof.
  intros Hspec Hl. revert w. induction Hl as [|item sts items l Hk Hl IH]; intros w.
  { by apply holds_ret. }
  cbn [updateServices]. apply holds_bind.
  eapply holds_mono; [by apply (updateService_store ste ste' item)|].
  intros o w1 (err & -> & Hw1 & Hs1 & Hok). destruct err as [e|].
  { apply holds_ret. split_and!; [done| |done]. intros [Hin _]%list.Forall_cons. by apply Hs1. }
  specialize (Hok eq_refl). eapply holds_mono; [apply IH|]. intros o w2 (Hw2 & Hs2 & Hok2).
  split_and!; [by eapply onlyServices_trans|..].
  - intros [Hin Hins]%list.Forall_cons. specialize (Hs1 Hin). rewrite Hs2; by rewrite Hs1.
  - intros Ho. constructor; [by eapply served_mono|by apply Hok2].
Qed.

(** *** The reconcile *)

(** A stone that asks for the same. *)
Definition alike (ste x : Stone) : Prop :=
  keyOf (stone_meta x) = keyOf (stone_meta ste)
  /\ exists s, normalises (Strategy (stone_Spec ste)) s
       /\ stone_Spec x = stone_Spec (setStrategy s ste).

Lemma alike_refl ste : alike ste ste.
Proof.
  split; [done|]. exists (Strategy (stone_Spec ste)). split; [by left|].
  by rewrite setStrategy_same.
Qed.
Lemma alike_trans ste x y : alike ste x -> alike x y -> alike ste y.
Proof.
  intros [Hk (s & Hs & E)] [Hk' (s' & Hs' & E')]. split; [congruence|]. exists s'.
  rewrite E in Hs'. split; [by eapply normalises_trans|]. rewrite E'. cbn. by rewrite E.
Qed.
Lemma alike_strategy ste s : normalises (Strategy (stone_Spec ste)) s -> alike ste (setStrategy s ste).
Proof. intros Hs. split; [done|]. by exists s. Qed.

Lemma alike_planned ste x : alike ste x -> planned x = planned ste.
Proof.
  intros [_ (s & Hs & E)]. unfold planned at 1. rewrite E. by apply (planned_normalises ste).
Qed.
Lemma alike_key ste x item : alike ste x -> groupKeyOf x item = groupKeyOf ste item.
Proof. intros [[= Hns Hn] _]. destruct item as [[i cg] size]. unfold groupKeyOf, statefulSetName. by rewrite Hns, Hn. Qed.
Lemma alike_established ste x st sv :
  alike ste x -> established ste st sv <-> established x st sv.
Proof.
  intros Hx. unfold established. rewrite (alike_planned _ _ Hx).
  split; intros He item Hin; specialize (He item Hin); unfold placed, served in *;
    rewrite (alike_key _ _ item Hx) in *; destruct Hx as [_ (s & _ & E)];
    rewrite E in *; exact He.
Qed.
(** A run that leaves the stones alone, that leaves everything alone when [ste] is
    established, and that establishes it when it succeeds. *)
Definition settles (ste : Stone) (w : W) (o : Outcome (option Err * Stone)) (w' : W) : Prop :=
  stones w' = stones w
  /\ (established ste (sets w) (services w) -> same w w')
  /\ match o with
     | Ok (err, x) => alike ste x /\ (err = None -> established ste (sets w') (services w'))
     | Panic _ => True
     end.

Lemma updateSets_settles ste ste' l w :
  Forall2 (fromStore ste w) (planned ste) l ->
  holds (updateSets ste' l) w (fun o w' =>
    stones w' = stones w /\ services w' = services w
    /\ (established ste (sets w) (services w) -> same w w')
    /\ forall l', o = Ok (None, l') ->
         (forall item, item ∈ planned ste -> placed ste (sets w') item)
         /\ Forall2 (asPlanned ste) (planned ste) l').
Proof.
  intros Hl. eapply holds_mono; [apply holds_and|].
  - apply (updateSets_store ste ste' (planned ste) l w (planned_keys ste)).
    eapply Forall2_impl; [|exact Hl]. by intros item sts [].
  - apply (holds_when (established ste (sets w) (services w))). intros He.
    apply (updateSets_rest ste ste' (planned ste) l w w); [|done].
    apply Forall2_same_length_lookup_2; [by eapply Forall2_length|].
    intros j item sts Hi Hj. apply fromStore_atRest; [by eapply Forall2_lookup_lr|].
    apply He. by eapply list_elem_of_lookup_2.
  - intros o w' [(Hst & Hsv & _ & Hok) Hrest]. split_and!; [done..| |exact Hok].
    intros He. by apply Hrest.
Qed.

Lemma syncAttempt_settles ste w : holds (syncAttempt ste) w (settles ste w).
Proof.
  unfold syncAttempt. apply holds_bind. eapply holds_mono; [by apply getStatefulSetFrom_store|].
  intros [[[e|l] ste']|p] w1 [Hw1 Hr]; [|..|by destruct Hw1; split_and!].
  { destruct Hr as [(s & Hs & ->) _]. apply holds_ret. split; [apply Hw1|]. split; [done|].
    split; [by apply alike_strategy|done]. }
  destruct Hr as [(s & Hs & ->) (l' & -> & Hl)]. cbn [app].
  assert (Hl1 : Forall2 (fromStore ste w1) (planned ste) l').
  { destruct Hw1 as (_ & E & _). unfold fromStore. by rewrite E. }
  destruct Hw1 as (Hst1 & Hse1 & Hsv1).
  apply holds_bind. eapply holds_mono; [by apply updateSets_settles|].
  intros o w2 (Hst2 & Hsv2 & Hrest2 & Hok2). rewrite Hse1, Hsv1 in Hrest2.
  assert (Hsame2 : established ste (sets w) (services w) -> same w w2).
  { intros He. eapply same_trans; [|by apply Hrest2]. by split_and!. }
  destruct o as [[[e|] l2]|p]; [|..|by split_and!; [congruence|..]].
  { apply holds_ret. split; [congruence|]. split; [done|]. split; [by apply alike_strategy|done]. }
  destruct (Hok2 l2 eq_refl) as [Hpl Hl2].
  apply holds_bind. eapply holds_mono.
  { apply (updateServices_store ste (setStrategy s ste) (planned ste) l2); [done|].
    eapply Forall2_impl; [exact (asPlanned_key ste)|exact Hl2]. }
  intros o w3 ((Hst3 & Hse3 & _) & Hrest3 & Hok3).
  assert (Hsame : established ste (sets w) (services w) -> same w w3).
  { intros He. destruct (Hsame2 He) as (E1 & E2 & E3). split_and!; [congruence..|].
    rewrite Hrest3; [done|]. rewrite E3. apply list.Forall_forall. intros item Hin. by apply He. }
  destruct o as [err|p]; [|by split_and!; [congruence|..]]. apply holds_ret.
  split; [congruence|]. split; [done|]. split; [by apply alike_strategy|].
  intros ->. specialize (Hok3 eq_refl). intros item Hin. split.
  - rewrite Hse3. by apply Hpl.
  - by eapply list.Forall_forall in Hok3.
Qed.
Lemma sync_settles ste w : holds (stone_syncStatefulSet ste) w (settles ste w).
Proof.
  apply (holds_retry _ _ _ _ (fun x w' => alike ste x /\ stones w' = stones w
    /\ (established ste (sets w) (services w) -> same w w'))).
  { split; [apply alike_refl|done]. }
  intros x w0 (Hx & Hst0 & Hsame0). eapply holds_mono; [apply syncAttempt_settles|].
  intros o w' (Hst & Hsame & Ho).
  assert (Hsame' : established ste (sets w) (services w) -> same w w').
  { intros He. pose proof (Hsame0 He) as H0'. eapply same_trans; [exact H0'|]. apply Hsame.
    destruct H0' as (_ & -> & ->). by apply (alike_established ste). }
  split; [split; [congruence|split; [done|]]|].
  - destruct o as [[err y]|p]; [|done]. destruct Ho as [Hy He]. split; [by eapply alike_trans|].
    intros E. by apply (alike_established ste x), He.
  - destruct o as [[[e|] y]|p]; [|done..]. intros _. destruct Ho as [Hy _].
    split_and!; [by eapply alike_trans|congruence|done].
Qed.

(** The sets and services are as in [w], and a stone that asks for the same is stored. *)
Definition stoneKept (ste : Stone) (w w' : W) : Prop :=
  sets w' = sets w /\ services w' = services w
  /\ exists y, stones w' !! keyOf (stone_meta ste) = Some y /\ alike ste y.

Lemma stoneKept_same ste w0 w w' : stoneKept ste w0 w -> same w w' -> stoneKept ste w0 w'.
Proof.
  intros (? & ? & y & Hy & Ha) (Hst & ? & ?). split_and!; [congruence..|].
  exists y. by rewrite Hst.
Qed.

(** Storing a stone that asks for the same. *)
Lemma stoneKept_store ste w0 w w' k y :
  stoneKept ste w0 w -> (sets w', services w') = (sets w, services w) ->
  k = keyOf (stone_meta ste) -> alike ste y -> stones w' = <[k := y]> (stones w) ->
  stoneKept ste w0 w'.
Proof.
  intros (? & ? & _) [= ? ?] -> Hy Hst. split_and!; [congruence..|].
  exists y. rewrite Hst. split; [apply lookup_insert_eq|done].
Qed.

Lemma alike_payload ste x y : alike ste x -> keyOf (stone_meta y) = keyOf (stone_meta x) ->
  stone_Spec y = stone_Spec x -> alike ste y.
Proof. intros [Hk (s & Hs & E)] Hk' E'. split; [congruence|]. exists s. by rewrite E'. Qed.

Lemma stoneKept_update ste w0 w x err x' w' :
  alike ste x -> stoneKept ste w0 w ->
  written stone_meta stone_Spec objects x w err x' w' ->
  (sets w', services w') = (sets w, services w) ->
  stoneKept ste w0 w' /\ alike ste x'.
Proof.
  intros Hx Hw (Hk & Hp & Hst) Hap.
  assert (Hx' : alike ste x') by by eapply alike_payload.
  split; [|done]. pose proof (proj1 Hx) as Hkey.
  destruct err; [destruct Hst as [Hst|Hst]|]; [|by eapply stoneKept_store..].
  injection Hap as Hs Hv. by apply (stoneKept_same ste w0 w).
Qed.

Lemma stoneKept_status ste w0 w x err x' w' :
  alike ste x -> stoneKept ste w0 w ->
  statusWritten stone_meta stone_Spec objects x w err x' w' ->
  (sets w', services w') = (sets w, services w) ->
  stoneKept ste w0 w' /\ (err <> None -> alike ste x').
Proof.
  intros Hx Hw (Hk & Hp & Hst) Hap. split.
  2: { intros Herr. destruct Hp as [?|Hp]; [done|]. by eapply alike_payload. }
  pose proof (proj1 Hx) as Hkey.
  destruct Hst as [[_ Hst]|(old & new & Hold & Hnk & Hnp & Hst)].
  { injection Hap as Hs Hv. by apply (stoneKept_same ste w0 w). }
  eapply stoneKept_store; [done..| |exact Hst].
  destruct Hw as (_ & _ & y & Hy & Hya). rewrite Hkey in Hold, Hnk. unfold stones in Hy.
  assert (old = y) as -> by congruence. eapply alike_payload; [exact Hya| |done].
  rewrite Hnk. symmetry. by apply Hya.
Qed.

Lemma stoneAttempt_keeps ste x w0 w :
  alike ste x -> stoneKept ste w0 w ->
  holds (stoneAttempt x) w (fun o w' => stoneKept ste w0 w'
    /\ forall e x', o = Ok (Some e, x') -> alike ste x').
Proof.
  intros Hx Hw. unfold stoneAttempt.
  destruct (marshalSpec _) as [e|bytes]; [apply holds_ret; split; [done|]; by intros ? ? [= _ <-]|].
  assert (Ha : alike ste (setStoneAnnotation bytes x)) by exact Hx.
  apply holds_bind, (holds_Update (fun w => (sets w, services w))).
  intros err y w1 Hup Hap.
  destruct (stoneKept_update _ _ _ _ _ _ _ Ha Hw Hup Hap) as [Hw1 Hy].
  destruct err as [e|]; [apply holds_ret; split; [done|]; by intros ? ? [= _ <-]|].
  apply holds_bind. eapply holds_mono; [by apply getStatefulSetFrom_store|].
  intros o w2 [Hsame Hr]. pose proof (stoneKept_same _ _ _ _ Hw1 Hsame) as Hw2.
  destruct o as [[r y2]|p]; [|by split]. destruct Hr as [(s & Hs & ->) _].
  assert (Hy2 : alike ste (setStrategy s y)).
  { eapply alike_trans; [exact Hy|by apply alike_strategy]. }
  destruct r as [e|l]; [apply holds_ret; split; [done|]; by intros ? ? [= _ <-]|].
  apply (holds_Status (fun w => (sets w, services w))). intros err z w3 Hstat Hap3.
  destruct (fun Hz => stoneKept_status ste w0 w2 _ err z w3 Hz Hw2 Hstat Hap3) as [Hw3 Hz];
    [exact Hy2|].
  split; [done|]. intros e x' [= -> ->]. by apply Hz.
Qed.

Lemma updateStone_keeps ste x w :
  alike ste x -> (exists y, stones w !! keyOf (stone_meta ste) = Some y /\ alike ste y) ->
  holds (updateStone x) w (fun _ w' => stoneKept ste w w').
Proof.
  intros Hx Hw. unfold updateStone. apply holds_bind.
  apply (holds_retry _ _ _ _ (fun x w' => alike ste x /\ stoneKept ste w w')); [by split_and!|].
  intros y w0 [Hy Hw0]. eapply holds_mono; [by apply (stoneAttempt_keeps ste y w)|].
  intros o w' [Hw' Ho]. split; [by destruct o|].
  destruct o as [[[e|] z]|p]; [|done..]. intros _. split; [by eapply Ho|done].
Qed.

Lemma reconcile_stored ste req w :
  stones w !! req = Some ste ->
  holds (stone_Reconcile req) w (fun o w' =>
    (established ste (sets w) (services w) -> sets w' = sets w /\ services w' = services w)
    /\ (o = Ok None -> exists x, stones w' !! req = Some x /\ alike ste x
          /\ established x (sets w') (services w'))).
Proof.
  intros Hste. pose proof (store_key _ _ _ Hste) as Hkey. unfold stone_Reconcile.
  apply holds_bind, (holds_Get (fun w => (sets w, services w))).
  intros r w1 Hst1 [= Hs1 Hv1] Hr. unfold stones in Hste. destruct r as [e|ste1].
  { destruct (IsNotFound e); [specialize (Hr eq_refl); congruence|by apply holds_ret]. }
  assert (ste1 = ste) as -> by congruence.
  apply holds_bind. eapply holds_mono; [apply sync_settles|].
  intros o w2 (Hst2 & Hsame & Ho). rewrite Hs1, Hv1 in Hsame.
  assert (Hkept : established ste (sets w) (services w) ->
    sets w2 = sets w /\ services w2 = services w).
  { intros He. destruct (Hsame He) as (_ & ? & ?). split; congruence. }
  destruct o as [[[e|] x]|p]; [by apply holds_ret| |done]. destruct Ho as [Hx Hest].
  specialize (Hest eq_refl). eapply holds_mono.
  { apply (updateStone_keeps ste x w2 Hx). exists ste. split; [|apply alike_refl].
    rewrite Hst2, Hkey. unfold stones. by rewrite Hst1. }
  intros o w3 (Hs3 & Hv3 & y & Hy & Hya). rewrite Hs3, Hv3, <-Hkey. split; [done|]. intros _.
  exists y. split_and!; [done..|]. by apply (alike_established ste).
Qed.

(** C28: A reconcile of a stored stone that succeeds has settled it: the stone that is then
    stored asks for the same, every group of its plan has a set of the planned size with
    the stone's containers, and a service if the stone names ports; and whatever the next
    reconcile returns, it leaves the sets and services as they are. Any call may fail on
    the way, and a write that fails may still have been carried out. *)
Theorem stone_settles ste req w :
  stones w !! req = Some ste ->
  holds (stone_Reconcile req) w (fun o w' => o = Ok None ->
    exists x, stones w' !! req = Some x /\ alike ste x
      /\ established x (sets w') (services w')
      /\ holds (stone_Reconcile req) w' (fun _ w'' =>
           sets w'' = sets w' /\ services w'' = services w')).
Proof.
  intros Hste. eapply holds_mono; [by apply reconcile_stored|]. intros o w' [_ Ho] E.
  destruct (Ho E) as (x & Hx & Hl & He). exists x. split_and!; [done..|].
  eapply holds_mono; [by apply (reconcile_stored x)|]. intros _ w'' [Hw'' _]. by apply Hw''.
Qed.
End Stores.

(** ** Witness: stones, sets and services side by side *)

Definition fx_keepStone (sent stored : Stone) : Stone := setStoneStatus (stone_Status sent) stored.
Definition fx_keepSet (sent stored : StatefulSet) : StatefulSet :=
  mkStatefulSet (set_meta stored) (set_Spec stored) (set_Status sent).

#[local] Instance fx_keptStones : Client fx_stoneServer Stone :=
  onFst (fx_server stone_meta fx_keepStone).
#[local] Instance fx_keptSets : Client fx_stoneServer StatefulSet :=
  onSnd (onFst (fx_server set_meta fx_keepSet)).
#[local] Instance fx_keptServices : Client fx_stoneServer Service :=
  onSnd (onSnd (fx_server svc_meta (fun _ stored => stored))).
#[local] Instance fx_storeStones : Store stone_meta stone_Spec (H := fx_keptStones).
Proof. by apply onFst_store, fx_server_store. Defined.
#[local] Instance fx_storeSets : Store set_meta setKept (H := fx_keptSets).
Proof. by apply onSnd_store, onFst_store, fx_server_store. Defined.
#[local] Instance fx_storeServices : Store svc_meta (fun _ => ()) (H := fx_keptServices).
Proof. by apply onSnd_store, onSnd_store, fx_server_store. Defined.
#[local] Existing Instances fx_stoneCodec fx_owners fx_owners_laws.

#[local] Instance fx_apartStones :
  Apart Stone (fun w : fx_stoneServer => (sets w, services w)).
Proof. apply (onFst_apart _ (fun v => (objects v, objects v))). Defined.
#[local] Instance fx_apartSets :
  Apart StatefulSet (fun w : fx_stoneServer => (stones w, services w)).
Proof. apply (onSnd_apart _ (fun v x => (objects v, x))), onFst_apart. Defined.
#[local] Instance fx_apartServices :
  Apart Service (fun w : fx_stoneServer => (stones w, sets w)).
Proof.
  apply (onSnd_apart _ (fun v x => (objects v, x))), (onSnd_apart _ (fun v _ => objects v) (fun _ => ())).
  apply apart_none.
Defined.

Definition fx_stoneWorld : fx_stoneServer := ([fx_stone "Gamma"], ([], [])).
Definition fx_settled : Outcome (option Err) * fx_stoneServer :=
  stone_Reconcile (mkKey "default" "Shop") fx_stoneWorld.

Example fx_settled_ok :
  fx_settled.1 = Ok None
  /\ ((fun s => Name (set_meta s)) <$> fx_settled.2.2.1) = ["shop-0-a"]
  /\ ((fun s => Name (svc_meta s)) <$> fx_settled.2.2.2) = ["shop-0-a"]
  /\ ((fun s => Strategy (stone_Spec s)) <$> fx_settled.2.1) = [Alpha].
Proof. vm_compute. done. Qed.

Lemma stone_settles_witness :
  fx_settled.1 = Ok None
  /\ (exists x, stones fx_settled.2 !! mkKey "default" "Shop" = Some x
       /\ established x (sets fx_settled.2) (services fx_settled.2))
  /\ sets (stone_Reconcile (mkKey "default" "Shop") fx_settled.2).2 = sets fx_settled.2.
Proof.
  assert (Hok : fx_settled.1 = Ok None) by (vm_compute; reflexivity).
  assert (Hin : stones fx_stoneWorld !! mkKey "default" "Shop" = Some (fx_stone "Gamma"))
    by apply lookup_insert_eq.
  destruct (stone_settles (fx_stone "Gamma") (mkKey "default" "Shop") fx_stoneWorld
              Hin Hok) as (x & Hx & _ & He & Hs & _).
  split; [exact Hok|]. split; [exists x; split; [exact Hx|exact He]|exact Hs].
Defined.
