(* ===== verification/Water.v ===== *)
(** Waters ([api/v1/water_types.go], [controllers/water_controller.go]): a water stands
    for one Deployment per coordinate and one Service; the controller creates them,
    keeps the replicas in line, and deletes deployments of coordinates that were left. *)

From S2P Require Import Prelude Objects GoString Libraries Coordinate Fixtures.
From S2P Require Import Cluster CallLog Workloads.

(** ** The resource *)

Record WaterSpec := mkWaterSpec {
  water_Template : PodTemplateSpec;
  water_Strategy : StrategyType;
  water_Coordinates : Coordinates;
  water_Service : ServiceSpec;
}.
Record WaterStatus := mkWaterStatus {
  DesiredReplicas : Z;
  AlreadyReplicas : Z;
  DesiredDeployment : Z;
  AlreadyDeployment : Z;
}.
#[export] Instance WaterStatus_eq_dec : EqDecision WaterStatus.
Proof. solve_decision. Defined.
Record Water := mkWater {
  water_meta : ObjectMeta;
  water_Spec : WaterSpec;
  water_Status : WaterStatus;
}.
Definition setWaterAnnotation (v : string) (w : Water) : Water :=
  mkWater (setAnnotations (<["spec" := v]> (Annotations (water_meta w))) (water_meta w))
    (water_Spec w) (water_Status w).
Definition setWaterStatus (st : WaterStatus) (w : Water) : Water :=
  mkWater (water_meta w) (water_Spec w) st.

(** [error_stack.WithStack(err)] *)
Definition WithStack (err : option Err) : option Err := ErrStack <$> err.

(** The replicas for a coordinator, [None] for one that is skipped. *)
Definition waterSize (strategy : StrategyType) (c : coordinator) : option Z :=
  if decide (strategy = Alpha) then if decide (Index c > 0) then None else Some 1
  else if decide (strategy = Release) then Some (coord_Replicas (coordinator_Coordinate c))
  else Some 1.

Section WaterController.
Context {W : Type} `{KubeLib, SpecCodec WaterSpec, OwnerLib, Retry}.
Context `{Client W Water, Client W Deployment, Client W Service}.

(** ** Deployments *)

Definition newDeployment (deployName : ObjectKey) (instance : Water) (size : Z)
    (nodeAffinity : option NodeAffinity) : Deployment :=
  let labels := {["app" := Name (water_meta instance)]} in
  let spec := tpl_Spec (water_Template (water_Spec instance)) in
  let spec := match nodeAffinity with
              | Some na => setAffinity (Some (mkAffinity (Some na) "")) spec
              | None => spec
              end in
  mkDeployment
    (setOwnerReferences (ownerReference (water_meta instance) "Water")
       (metaNamed (key_Namespace deployName) (key_Name deployName)))
    (mkDeploymentSpec (Some size)
       (mkPodTemplate (setLabels labels (metaNamed "" "")) spec)
       (Some (mkLabelSelector labels ""))).

Definition setDeploymentReplicas (size : Z) (d : Deployment) : Deployment :=
  mkDeployment (dep_meta d)
    (mkDeploymentSpec (Some size) (dep_Template (dep_Spec d)) (dep_Selector (dep_Spec d))).

(** The closure's variable is [newDeployment]. *)
Definition deploymentAttempt (deployName : ObjectKey) (instance : Water) (size : Z)
    (newDeployment : Deployment) : M W (option Err * Deployment) :=
  got ← call (Get (A := Deployment) deployName);
  match got with
  | inl err =>
      if IsNotFound err then
        res ← call (Create newDeployment);
        let '(err, newDeployment) := res in
        match err with
        | Some e => mret (WithStack (Some e), newDeployment)
        | None =>
            let '(err, meta) := SetControllerReference (water_meta instance)
                                  (dep_meta newDeployment) in
            mret (WithStack err, mkDeployment meta (dep_Spec newDeployment))
        end
      else mret (WithStack (Some err), newDeployment)
  | inr oldDeployment =>
      replicas ← lift (deref (dep_Replicas (dep_Spec oldDeployment)));
      if decide (replicas = size) then mret (None, newDeployment)
      else
        res ← call (Update (setDeploymentReplicas size oldDeployment));
        mret (WithStack res.1, newDeployment)
  end.

Definition updateDeployment (deployName : ObjectKey) (instance : Water) (size : Z)
    (nodeAffinity : option NodeAffinity) : M W (option Err) :=
  res ← RetryOnConflict DefaultBackoff (deploymentAttempt deployName instance size)
          (newDeployment deployName instance size nodeAffinity);
  mret res.1.

(** ** The service *)

Definition waterService (instance : Water) : Service :=
  mkService
    (setOwnerReferences (ownerReference (water_meta instance) "Water")
       (metaNamed (Namespace (water_meta instance)) (Name (water_meta instance))))
    (setServiceSelector {["app" := Name (water_meta instance)]} (water_Service (water_Spec instance))).

(** [request] is the key being reconciled, kept in the context. *)
Definition createService (request : ObjectKey) (instance : Water) : M W (option Err) :=
  got ← call (Get (A := Service) request);
  match got with
  | inl err =>
      if IsNotFound err then
        res ← RetryOnConflict DefaultBackoff (fun service => call (Create service))
                (waterService instance);
        mret res.1
      else mret (WithStack (Some err))
  | inr _ => mret None
  end.

(** ** The water itself *)

Definition annotationAttempt (instance : Water) : M W (option Err * Water) :=
  match marshalSpec (water_Spec instance) with
  | inl err => mret (Some err, instance)
  | inr data => call (Update (setWaterAnnotation data instance))
  end.

Definition annotationWater (instance : Water) : M W (option Err * Water) :=
  RetryOnConflict DefaultBackoff annotationAttempt instance.

(** The loop over the coordinators: returns on the first deployment that is missing
    or cannot be read, else gives the expected status. *)
Fixpoint countDeployments (instance : Water) (coordinators : list coordinator)
    (expectStatus : WaterStatus) : F W (option Err) WaterStatus :=
  match coordinators with
  | [] => mret expectStatus
  | local :: rest =>
      let expectStatus :=
        mkWaterStatus
          (int32 (DesiredReplicas expectStatus + coord_Replicas (coordinator_Coordinate local)))
          (AlreadyReplicas expectStatus) (DesiredDeployment expectStatus)
          (AlreadyDeployment expectStatus) in
      got ← run (call (Get (A := Deployment)
              (mkKey (Namespace (water_meta instance))
                 (deploymentName (coordinator_Name local) (water_meta instance)))));
      match got with
      | inl err => if IsNotFound err then return_ None else return_ (WithStack (Some err))
      | inr tmp =>
          replicas ← run (lift (deref (dep_Replicas (dep_Spec tmp))));
          countDeployments instance rest
            (mkWaterStatus (DesiredReplicas expectStatus)
               (int32 (AlreadyReplicas expectStatus + replicas))
               (DesiredDeployment expectStatus) (int32 (AlreadyDeployment expectStatus + 1)))
      end
  end.

Definition waterStatusAttempt (expectStatus : WaterStatus) (instance : Water)
  : M W (option Err * Water) :=
  if decide (water_Status instance = expectStatus) then mret (None, instance)
  else
    res ← call (StatusUpdate (setWaterStatus expectStatus instance));
    mret (WithStack res.1, res.2).

Definition updateWater (instance : Water) : M W (option Err) :=
  let coordinators := makeLocalCoordinates (water_Coordinates (water_Spec instance)) in
  body (
    expectStatus ← countDeployments instance coordinators
      (mkWaterStatus 0 0 (int32 (Z.of_nat (length coordinators))) 0);
    res ← run (RetryOnConflict DefaultBackoff (waterStatusAttempt expectStatus) instance);
    mret res.1).

(** ** Old deployments *)

(** The loop over the coordinates recorded in the annotation. *)
Fixpoint deleteLeft (instance : Water) (tmp1 tmp2 todo : Coordinates) : M W (option Err) :=
  match todo with
  | [] => mret None
  | c :: todo' =>
      if In tmp1 c && negb (In tmp2 c) then
        got ← call (Get (A := Deployment)
                (mkKey (Namespace (water_meta instance))
                   (deploymentName (coordinateName c) (water_meta instance))));
        match got with
        | inl err =>
            if IsNotFound err then deleteLeft instance tmp1 tmp2 todo'
            else mret (WithStack (Some err))
        | inr deployment =>
            err ← call (Delete deployment);
            match err with
            | Some e => mret (WithStack (Some e))
            | None => deleteLeft instance tmp1 tmp2 todo'
            end
        end
      else deleteLeft instance tmp1 tmp2 todo'
  end.

Definition cleanAttempt (instance : Water) (_ : unit) : M W (option Err * unit) :=
  match Annotations (water_meta instance) !! "spec" with
  | None => mret (None, tt)
  | Some bs =>
      match unmarshalSpec bs with
      | inl err => mret (WithStack (Some err), tt)
      | inr tmpWaterSpec =>
          let tmp1 := water_Coordinates tmpWaterSpec in
          let tmp2 := water_Coordinates (water_Spec instance) in
          if decide (Difference tmp1 tmp2 = []) then mret (None, tt)
          else err ← deleteLeft instance tmp1 tmp2 tmp1; mret (err, tt)
      end
  end.

Definition updateCleanOldDeployment (instance : Water) : M W (option Err) :=
  if decide (Annotations (water_meta instance) = ∅) then mret None
  else res ← RetryOnConflict DefaultBackoff (cleanAttempt instance) tt; mret res.1.

(** ** The reconciler *)

Fixpoint deployAll (req : ObjectKey) (instance : Water) (coordinators : list coordinator)
  : M W (option Err) :=
  match coordinators with
  | [] => mret None
  | c :: rest =>
      match waterSize (water_Strategy (water_Spec instance)) c with
      | None => deployAll req instance rest
      | Some size =>
          err ← updateDeployment
                  (mkKey (key_Namespace req)
                     (deploymentName (coordinator_Name c) (water_meta instance)))
                  instance size (Some (coordinator_NodeAffinity c));
          match err with
          | Some e => mret (Some e)
          | None => deployAll req instance rest
          end
      end
  end.

Definition water_Reconcile (req : ObjectKey) : M W (option Err) :=
  got ← call (Get (A := Water) req);
  match got with
  | inl err => if IsNotFound err then mret None else mret (Some err)
  | inr instance =>
      err ← updateCleanOldDeployment instance;
      match err with Some e => mret (Some e) | None =>
      err ← deployAll req instance
              (makeLocalCoordinates (water_Coordinates (water_Spec instance)));
      match err with Some e => mret (Some e) | None =>
      err ← createService req instance;
      match err with Some e => mret (Some e) | None =>
      res ← annotationWater instance;
      match res with
      | (Some e, _) => mret (Some e)
      | (None, instance) => updateWater instance
      end
      end end end
  end.
End WaterController.

(** ** What a reconcile writes *)

Inductive WaterCall :=
  | OnWater (r : Request Water) (err : option Err)
  | OnDeployment (r : Request Deployment) (err : option Err)
  | OnWaterService (r : Request Service) (err : option Err).
#[export] Instance tracedWater : Traced Water WaterCall := OnWater.
#[export] Instance tracedDeployment : Traced Deployment WaterCall := OnDeployment.
#[export] Instance tracedWaterService : Traced Service WaterCall := OnWaterService.

(** The key of a coordinate's deployment. *)
Definition deploymentKey (water : Water) (c : Coordinate) : ObjectKey :=
  mkKey (Namespace (water_meta water)) (deploymentName (coordinateName c) (water_meta water)).

(** Coordinate [c] of the water wants [size] replicas: with [Alpha] only the first one does,
    a single replica; with [Release] each wants its own number, and else one. *)
Definition wanted (water : Water) (c : Coordinate) (size : Z) : Prop :=
  let strategy := water_Strategy (water_Spec water) in
  exists i : nat, water_Coordinates (water_Spec water) !! i = Some c
    /\ (if decide (strategy = Alpha) then i = 0%nat /\ size = 1
        else if decide (strategy = Release) then size = coord_Replicas c else size = 1).

Lemma wanted_size water c size :
  wanted water c size <->
  exists i : nat, water_Coordinates (water_Spec water) !! i = Some c
    /\ waterSize (water_Strategy (water_Spec water)) (newLocalCoordinate (Z.of_nat i) c)
       = Some size.
Proof.
  unfold wanted, waterSize. apply exist_proper. intros i. apply and_iff_compat_l.
  repeat case_decide; cbn in *; try lia; split; try (by intros [= <-]); try (by intros ->).
  - intros [-> _]. cbn in *. lia.
  - intros [_ ->]. done.
  - intros [= <-]. split; [lia|done].
Qed.

(** Coordinate [c] was recorded by an earlier reconcile, and none at its position is
    wanted now. *)
Definition leftBehind (water : Water) `{SpecCodec WaterSpec} (c : Coordinate) : Prop :=
  exists bs spec, Annotations (water_meta water) !! "spec" = Some bs
    /\ unmarshalSpec bs = inr spec /\ c ∈ water_Coordinates spec
    /\ In (water_Coordinates (water_Spec water)) c = false.

(** The water under its key, with the same spec. *)
Definition waterIdentity (water : Water) : ObjectKey * WaterSpec :=
  (keyOf (water_meta water), water_Spec water).

Section Properties.
Context {W : Type} `{KubeLib, SpecCodec WaterSpec, OwnerLaws, RetryLaws}.
Context `{Client W Water, !KeyLaws water_meta, !WritesKeep waterIdentity}.
Context `{Client W Deployment, !KeyLaws dep_meta, Client W Service, !KeyLaws svc_meta}.
Notation T := (W * list WaterCall)%type.

(** The deployment of coordinate [c], spelled out: named and owned by the water, with [size]
    replicas, pods that carry the label [app] it selects, of the water's template and
    pinned to the coordinate. *)
Definition deploymentFor (water : Water) (c : Coordinate) (size : Z) (d : Deployment) : Prop :=
  let app := {["app" := Name (water_meta water)]} in
  keyOf (dep_meta d) = deploymentKey water c
  /\ OwnerReferences (dep_meta d) = ownerReference (water_meta water) "Water"
  /\ dep_Replicas (dep_Spec d) = Some size
  /\ dep_Selector (dep_Spec d) = Some (mkLabelSelector app "")
  /\ Labels (tpl_meta (dep_Template (dep_Spec d))) = app
  /\ tpl_Spec (dep_Template (dep_Spec d))
     = setAffinity (Some (mkAffinity (Some (organizationNodeAffinity c)) ""))
         (tpl_Spec (water_Template (water_Spec water))).

(** The deployment as it was read, with other replicas. *)
Definition scaled (size : Z) (old d : Deployment) : Prop :=
  dep_meta d = dep_meta old /\ dep_Template (dep_Spec d) = dep_Template (dep_Spec old)
  /\ dep_Selector (dep_Spec d) = dep_Selector (dep_Spec old)
  /\ dep_Replicas (dep_Spec d) = Some size /\ dep_Replicas (dep_Spec old) <> Some size.

(** The server answered a read of the coordinate's deployment with [d]. *)
Definition found (water : Water) (c : Coordinate) (d : Deployment) : Prop :=
  exists w : W, (Get (deploymentKey water c) w).1 = inr d.

(** The status of a water whose deployments are all there. *)
Definition statusOf (water : Water) (st : WaterStatus) : Prop :=
  let cs := water_Coordinates (water_Spec water) in
  exists ds, Forall2 (found water) cs ds
    /\ DesiredReplicas st = foldl (fun n c => int32 (n + coord_Replicas c)) 0 cs
    /\ AlreadyReplicas st = foldl (fun n d => int32 (n + default 0 (dep_Replicas (dep_Spec d)))) 0 ds
    /\ DesiredDeployment st = int32 (Z.of_nat (length cs))
    /\ AlreadyDeployment st = int32 (Z.of_nat (length cs)).

Definition allowedWater (water : Water) (call : WaterCall) : Prop :=
  match call with
  | OnDeployment (GetRequest k) _ =>
      exists c, (c ∈ water_Coordinates (water_Spec water) \/ leftBehind water c)
        /\ k = deploymentKey water c
  | OnDeployment (CreateRequest d) _ =>
      exists c size, wanted water c size /\ deploymentFor water c size d
  | OnDeployment (UpdateRequest d) _ =>
      exists c size old, wanted water c size /\ found water c old /\ scaled size old d
  | OnDeployment (DeleteRequest d) _ => exists c, leftBehind water c /\ found water c d
  | OnWaterService (GetRequest k) _ => k = keyOf (water_meta water)
  | OnWaterService (CreateRequest s) _ =>
      keyOf (svc_meta s) = keyOf (water_meta water)
      /\ OwnerReferences (svc_meta s) = ownerReference (water_meta water) "Water"
      /\ svc_Selector (svc_Spec s) = {["app" := Name (water_meta water)]}
      /\ Ports (svc_Spec s) = Ports (water_Service (water_Spec water))
  | OnWater (UpdateRequest x) _ =>
      waterIdentity x = waterIdentity water
      /\ exists bytes, marshalSpec (water_Spec water) = inr bytes
           /\ Annotations (water_meta x) !! "spec" = Some bytes
  | OnWater (StatusRequest x) _ =>
      waterIdentity x = waterIdentity water /\ statusOf water (water_Status x)
  | _ => False
  end.

Notation does water := (only (State := T) (allowedWater water)).

Lemma clean_does water : does water (updateCleanOldDeployment water) (fun _ => True).
Proof.
  unfold updateCleanOldDeployment. case_decide; [by apply only_ret|].
  eapply only_bind; [|by intros r _; apply only_ret].
  apply (only_retry _ _ _ _ (fun _ => True)); [done|]. intros [] _. unfold cleanAttempt.
  destruct (_ !! "spec") as [bs|] eqn:Ea; [|by apply only_ret].
  destruct (unmarshalSpec bs) as [e|spec] eqn:Eu; [by apply only_ret|].
  case_decide; [by apply only_ret|].
  apply (only_bind _ _ _ (fun _ => True)); [|by intros r _; apply only_ret].
  assert (Hsub : forall c, c ∈ water_Coordinates spec -> c ∈ water_Coordinates spec) by done.
  revert Hsub. generalize (water_Coordinates spec) at 1 4 as todo.
  induction todo as [|c todo IH]; intros Hsub; [by apply only_ret|]. cbn [deleteLeft].
  assert (IH' := IH (fun c' Hc' => Hsub c' (list_elem_of_further _ _ _ Hc'))).
  destruct (In (water_Coordinates spec) c && _) eqn:Ein; [|exact IH'].
  apply andb_true_iff in Ein as [_ Hnew%negb_true_iff].
  assert (Hleft : leftBehind water c).
  { exists bs, spec. split_and!; [done..| |done]. apply Hsub. by left. }
  eapply only_bind.
  - apply (only_Get _ _ (fun r => forall d, r = inr d -> found water c d)).
    + intros err. exists c. split; [by right|done].
    + intros r w E d ->. by exists w.
  - intros [e|d] Hd; [destruct (IsNotFound e); [exact IH'|by apply only_ret]|].
    eapply only_bind; [apply (only_Delete _ _ (fun _ => True)); [|done]|].
    + intros err. exists c. split; [done|by apply Hd].
    + intros [e|] _; [by apply only_ret|exact IH'].
Qed.

Lemma wanted_coordinate water c size : wanted water c size -> c ∈ water_Coordinates (water_Spec water).
Proof. intros (i & Hi & _). by eapply list_elem_of_lookup_2. Qed.

Lemma updateDeployment_does water c size :
  wanted water c size ->
  does water (updateDeployment (deploymentKey water c) water size (Some (organizationNodeAffinity c)))
    (fun _ => True).
Proof.
  intros Hw. set (d0 := newDeployment (deploymentKey water c) water size
                          (Some (organizationNodeAffinity c))).
  assert (Hd0 : deploymentFor water c size d0) by by split_and!.
  eapply only_bind; [|by intros r _; apply only_ret].
  apply (only_retry_on _ _ _ _ (fun d => d = d0) (fun _ => True)); [done|]. intros d ->.
  unfold deploymentAttempt.
  eapply only_bind.
  { apply (only_Get _ _ (fun r => forall d, r = inr d -> found water c d)).
    - intros err. exists c. split; [left; by eapply wanted_coordinate|done].
    - intros r w E d ->. by exists w. }
  intros [e|old] Hold.
  - destruct (IsNotFound e); [|by apply only_ret].
    eapply only_bind.
    + apply (only_inOut _ _ _ _ (fun r => r.1 <> None -> r.2 = d0)).
      * intros err. by exists c, size.
      * intros [err|] a' w w' E; [|done]. intros _. by apply create_failed in E.
    + intros [[e'|] d'] Hd'; [apply only_ret; split; [done|]; intros _; by apply Hd'|].
      pose proof (owner_error (water_meta water) (dep_meta d')) as Hoe.
      destruct (SetControllerReference _ _) as [err m']. apply only_ret. split; [done|].
      destruct err as [e'|]; [|done]. cbn. intros Hr. by destruct (Hoe e' eq_refl).
  - eapply only_bind; [apply (only_lift _ _ (fun n => dep_Replicas (dep_Spec old) = Some n))|].
    { intros n. by destruct (dep_Replicas _); [intros [= ->]|]. }
    intros replicas Hn. case_decide as Hne; [by apply only_ret|].
    eapply only_bind; [apply (only_inOut _ _ _ _ (fun _ => True)); [|done]|].
    + intros err. exists c, size, old. split; [done|]. split; [by apply Hold|].
      split_and!; [done..|]. rewrite Hn. congruence.
    + intros r _. apply only_ret. split; [done|]. cbn. by destruct (WithStack r.1).
Qed.

Lemma makeLocal_elem water c :
  c ∈ makeLocalCoordinates (water_Coordinates (water_Spec water)) ->
  exists i : nat, water_Coordinates (water_Spec water) !! i = Some (coordinator_Coordinate c)
    /\ c = newLocalCoordinate (Z.of_nat i) (coordinator_Coordinate c).
Proof.
  intros [i Hi]%list_elem_of_lookup. unfold makeLocalCoordinates in Hi.
  rewrite makeLocalCoordinatesFrom_lookup in Hi. destruct (_ !! i) as [c0|] eqn:E; [|done].
  injection Hi as <-. exists i. by rewrite Z.add_0_l.
Qed.

Lemma deployAll_does water coordinators :
  (forall c, c ∈ coordinators -> c ∈ makeLocalCoordinates (water_Coordinates (water_Spec water))) ->
  does water (deployAll (keyOf (water_meta water)) water coordinators) (fun _ => True).
Proof.
  induction coordinators as [|c rest IH]; intros Hin; [by apply only_ret|]. cbn [deployAll].
  assert (IH' := IH (fun c' Hc' => Hin c' (list_elem_of_further _ _ _ Hc'))).
  destruct (makeLocal_elem water c) as (i & Hi & Hc); [apply Hin; by left|].
  destruct (waterSize _ c) as [size|] eqn:Es; [|exact IH'].
  eapply only_bind.
  - rewrite Hc in Es |- *. apply (updateDeployment_does water _ size). apply wanted_size. by exists i.
  - intros [e|] _; [by apply only_ret|exact IH'].
Qed.

Lemma createService_does water :
  does water (createService (keyOf (water_meta water)) water) (fun _ => True).
Proof.
  unfold createService. eapply only_bind; [by apply (only_Get _ _ (fun _ => True))|].
  intros [e|s] _; [|by apply only_ret]. destruct (IsNotFound e); [|by apply only_ret].
  eapply only_bind; [|by intros r _; apply only_ret].
  apply (only_retry_on _ _ _ _ (fun s => s = waterService water) (fun _ => True)); [done|].
  intros s ->. apply only_inOut; [by intros err; split_and!|]. intros [e'|] s' w w' E; [|done].
  split; [done|]. intros _. by apply create_failed in E.
Qed.

Lemma annotationWater_does water :
  does water (annotationWater water) (fun r => waterIdentity r.2 = waterIdentity water).
Proof.
  apply (only_retry _ _ _ _ (fun s => waterIdentity s = waterIdentity water)); [done|].
  intros s [= Hns Hn Hs]. unfold annotationAttempt.
  assert (Hid : waterIdentity s = waterIdentity water)
    by (unfold waterIdentity, keyOf; by rewrite Hns, Hn, Hs).
  destruct (marshalSpec _) as [e|data] eqn:Ed; [by apply only_ret|]. apply only_inOut.
  - intros err. split; [done|]. exists data. rewrite <-Hs. split; [done|]. cbn. apply lookup_insert_eq.
  - intros err s' w w' E. cbn. by apply update_keeps in E as ->.
Qed.

(** *** Counting *)

(** What counting the deployments of [cs] makes of a status. *)
Definition counts (water : Water) (cs : Coordinates) (st st' : WaterStatus) : Prop :=
  exists ds, Forall2 (found water) cs ds
    /\ st' = mkWaterStatus
         (foldl (fun n c => int32 (n + coord_Replicas c)) (DesiredReplicas st) cs)
         (foldl (fun n d => int32 (n + default 0 (dep_Replicas (dep_Spec d)))) (AlreadyReplicas st) ds)
         (DesiredDeployment st) (foldl (fun n _ => int32 (n + 1)) (AlreadyDeployment st) cs).

Lemma count_int32 (cs : Coordinates) n :
  foldl (fun n _ => int32 (n + 1)) (int32 n) cs = int32 (n + Z.of_nat (length cs)).
Proof.
  revert n. induction cs as [|c cs IH]; intros n; cbn [foldl length]; [by rewrite Z.add_0_r|].
  rewrite int32_idemp_add, IH. f_equal. lia.
Qed.

Lemma countDeployments_does water instance l st :
  waterIdentity instance = waterIdentity water ->
  (forall c, c ∈ l -> c ∈ makeLocalCoordinates (water_Coordinates (water_Spec water))) ->
  emits (State := T) (countDeployments instance l st) (fun o cs => Forall (allowedWater water) cs
    /\ match o with
       | Ok (Next st') => counts water (coordinator_Coordinate <$> l) st st'
       | _ => True
       end).
Proof.
  intros [= Hns Hn Hs]. revert st. induction l as [|c l IH]; intros st Hin.
  { apply emits_fret. split; [done|]. exists []. by destruct st. }
  cbn [countDeployments]. destruct (makeLocal_elem water c) as (i & Hi & Hc); [apply Hin; by left|].
  assert (Hkey : mkKey (Namespace (water_meta instance))
      (deploymentName (coordinator_Name c) (water_meta instance))
    = deploymentKey water (coordinator_Coordinate c)).
  { unfold deploymentKey, deploymentName. rewrite Hns, Hn, Hc. done. }
  rewrite Hkey. set (key := deploymentKey water _).
  assert (Hread : forall err, allowedWater water (OnDeployment (GetRequest key) err)).
  { intros err. exists (coordinator_Coordinate c). split; [|done]. left.
    by eapply list_elem_of_lookup_2. }
  apply emits_fbind, emits_run, emits_Get_from. intros [e|d] w Hr.
  - destruct (IsNotFound e); apply emits_return; (split; [|done]); by apply Forall_app; split;
      [apply Forall_singleton|].
  - apply emits_fbind, emits_run, emits_lift.
    destruct (dep_Replicas _) as [n|] eqn:En; cbn [app deref]; [|split; [by apply Forall_singleton|done]].
    eapply emits_mono; [apply IH; intros c' Hc'; apply Hin; by right|]. intros o cs [Hcs Ho].
    split; [by constructor|]. destruct o as [[st'|r]|p]; [|done..].
    destruct Ho as (ds & Hds & ->). exists (d :: ds). split; [constructor; [by exists w|done]|].
    cbn. by rewrite En.
Qed.

Lemma makeLocal_coordinates cs : coordinator_Coordinate <$> makeLocalCoordinates cs = cs.
Proof.
  apply list_eq. intros i. unfold makeLocalCoordinates.
  rewrite list_lookup_fmap, makeLocalCoordinatesFrom_lookup. by destruct (cs !! i).
Qed.

Lemma updateWater_does water instance :
  waterIdentity instance = waterIdentity water -> does water (updateWater instance) (fun _ => True).
Proof.
  intros Hid. unfold updateWater.
  assert (water_Spec instance = water_Spec water) as -> by by injection Hid.
  apply emits_body, emits_fbind. eapply emits_mono; [by apply (countDeployments_does water)|].
  intros [[st|r]|r] cs [Hcs Hst]; [|by split|by split].
  assert (Hstatus : statusOf water st).
  { rewrite makeLocal_coordinates in Hst. destruct Hst as (ds & Hds & ->). exists ds.
    cbn [DesiredReplicas AlreadyReplicas DesiredDeployment AlreadyDeployment].
    split_and!; [done..| |].
    - by rewrite <-(makeLocal_coordinates (water_Coordinates (water_Spec water))) at 2; rewrite length_fmap.
    - change 0 with (int32 0) at 1. by rewrite count_int32, Z.add_0_l. }
  apply emits_fbind, emits_run. eapply emits_mono.
  { apply (only_retry_on (allowedWater water) _ _ _
      (fun s => waterIdentity s = waterIdentity water) (fun _ => True)); [done|].
    intros s Hs. unfold waterStatusAttempt. case_decide; [by apply only_ret|].
    eapply only_bind; [apply (only_inOut _ _ _ _ (fun r => r.1 <> None -> waterIdentity r.2 = waterIdentity water))|].
    - intros err. by split.
    - intros [err|] s' w w' E; [|done]. intros _. cbn. by apply status_keeps in E as ->.
    - intros [[e|] s'] Hr; apply only_ret; (split; [done|]); [|done]. intros _. by apply Hr. }
  intros [r|r] cs' [Hcs' _]; [apply emits_fret; rewrite app_nil_r|]; by split; [apply Forall_app|].
Qed.

(** C32: The calls of a reconcile of a water, for each answer to its first read. When that
    fails it does nothing more, and is successful if there is no such water. Otherwise, for
    the very water it read: it creates, for coordinates its strategy wants, deployments
    with the wanted replicas that are pinned to the coordinate and labelled for the service;
    it scales those that are there with other replicas, and changes nothing else of
    them; it deletes the deployments it finds under the names of coordinates that an
    earlier reconcile recorded and the water no longer has; it creates the water's
    service; and it writes the water back with its own spec, recorded in its annotation,
    and, once all deployments are there, with a status that counts them. *)
Theorem water_Reconcile_writes req r :
  emitsIn (State := T) (fun w => (Get (A := Water) req w.1).1 = r) (water_Reconcile req) (fun o cs =>
    exists rest, cs = OnWater (GetRequest req) (errorOf r) :: rest
    /\ match r with
       | inl e => rest = [] /\ o = Ok (if IsNotFound e then None else Some e)
       | inr water => keyOf (water_meta water) = req /\ Forall (allowedWater water) rest
       end).
Proof.
  unfold water_Reconcile. apply emitsIn_Get. destruct r as [e|water].
  { destruct (IsNotFound e); apply emits_in, emits_ret; by exists []. }
  intros w [w0 Hr%get_key]. subst req.
  match goal with |- context [logOf (?m w).2] => cut (does water m (fun _ => True)) end.
  { intros Hd. destruct (Hd w) as (cs & E & Hcs & _). exists cs. split; [exact E|].
    by exists cs. }
  eapply only_bind; [apply clean_does|]. intros [e|] _; [by apply only_ret|].
  eapply only_bind; [by apply deployAll_does|]. intros [e|] _; [by apply only_ret|].
  eapply only_bind; [apply createService_does|]. intros [e|] _; [by apply only_ret|].
  eapply only_bind; [apply annotationWater_does|].
  intros [[e|] instance] Hid; [by apply only_ret|by apply updateWater_does].
Qed.

(** ** What a successful reconcile has ensured *)

(** The deployment of a coordinate was found on the server or created. *)
Definition ensured (water : Water) (c : Coordinate) (size : Z) (cs : list WaterCall) : Prop :=
  OnDeployment (GetRequest (deploymentKey water c)) None ∈ cs
  \/ OnDeployment (CreateRequest (newDeployment (deploymentKey water c) water size
       (Some (organizationNodeAffinity c)))) None ∈ cs.

Lemma ensured_mono water c size cs cs' :
  ensured water c size cs -> cs ⊆ cs' -> ensured water c size cs'.
Proof. intros [?|?] ?; [left|right]; set_solver. Qed.

Lemma updateDeployment_ensures water c size :
  emits (State := T) (updateDeployment (deploymentKey water c) water size
                        (Some (organizationNodeAffinity c)))
    (fun o cs => o = Ok None -> ensured water c size cs).
Proof.
  set (d0 := newDeployment (deploymentKey water c) water size (Some (organizationNodeAffinity c))).
  apply emits_bind.
  assert (Hend : forall (r : option Err * Deployment) cs, (r.1 = None -> ensured water c size cs) ->
    emits (State := T) (mret r.1) (fun o cs' => o = Ok None -> ensured water c size (cs ++ cs'))).
  { intros r cs Hr. apply emits_ret. rewrite app_nil_r. by intros [= ?%Hr]. }
  apply (emits_retry _ _ _ (fun d _ => d = d0)); [done|]. intros d cs ->.
  assert (Hpost : forall (r : option Err * Deployment) cs', (r.1 = None -> ensured water c size cs') ->
     (match r.1 with Some e => retriable e -> r.2 = d0 | None => True end) ->
     emits (State := T) (mret r.1)
       (fun o cs'' => o = Ok None -> ensured water c size ((cs ++ cs') ++ cs''))
     /\ match r with (Some e, s') => retriable e -> s' = d0 | _ => True end).
  { intros [err d] cs' Hr Hi. split; [|exact Hi]. apply Hend. intros Hn.
    eapply ensured_mono; [by apply Hr|set_solver]. }
  unfold deploymentAttempt. apply emits_bind, emits_Get. intros [e|old]; cbn [errorOf].
  - destruct (IsNotFound e); [|apply emits_ret; by apply (Hpost (_, _))].
    apply emits_bind, emits_inOut. intros [e'|] d' w w' E.
    + apply emits_ret, (Hpost (_, _)); [done|]. intros _. cbn. by apply create_failed in E.
    + pose proof (owner_error (water_meta water) (dep_meta d')) as Hoe.
      destruct (SetControllerReference _ _) as [err m']. apply emits_ret, (Hpost (_, _)).
      * intros _. right. cbn. set_solver.
      * destruct err as [e'|]; [|done]. cbn. intros Hr. by destruct (Hoe e' eq_refl).
  - apply emits_bind, emits_lift. destruct (dep_Replicas _) as [n|]; cbn [deref]; [|done].
    case_decide.
    + apply emits_ret, (Hpost (None, d0)); [|done]. intros _. left. set_solver.
    + apply emits_bind, emits_inOut. intros err d' w w' _. apply emits_ret, (Hpost (_, _)).
      * intros _. left. set_solver.
      * cbn. by destruct err.
Qed.

Lemma deployAll_ensures water coordinators :
  (forall c, c ∈ coordinators -> c ∈ makeLocalCoordinates (water_Coordinates (water_Spec water))) ->
  emits (State := T) (deployAll (keyOf (water_meta water)) water coordinators) (fun o cs =>
    o = Ok None -> forall c size, c ∈ coordinators ->
      waterSize (water_Strategy (water_Spec water)) c = Some size ->
      ensured water (coordinator_Coordinate c) size cs).
Proof.
  induction coordinators as [|c rest IH]; intros Hin.
  { apply emits_ret. by intros _ c size ?%not_elem_of_nil. }
  cbn [deployAll].
  assert (IH' := IH (fun c' Hc' => Hin c' (list_elem_of_further _ _ _ Hc'))).
  destruct (makeLocal_elem water c) as (i & Hi & Hc); [apply Hin; by left|].
  destruct (waterSize _ c) as [size|] eqn:Es.
  - apply emits_bind. rewrite Hc. eapply emits_mono;
      [apply (updateDeployment_ensures water (coordinator_Coordinate c) size)|].
    intros [[e|]|r] cs Hcs; [by apply emits_ret| |done].
    eapply emits_mono; [exact IH'|]. intros o cs' Hcs' Ho c' size'.
    rewrite <-Hc. intros [->|Hc']%elem_of_cons Hs'.
    + rewrite Es in Hs'. injection Hs' as <-. eapply ensured_mono; [by apply Hcs|set_solver].
    + eapply ensured_mono; [by apply Hcs'|set_solver].
  - eapply emits_mono; [exact IH'|]. intros o cs' Hcs' Ho c' size'.
    intros [->|Hc']%elem_of_cons Hs'; [congruence|by apply Hcs'].
Qed.

(** When a reconcile of a water succeeds, the water was not there, or the deployment of
    every coordinate its strategy wants was found on the server or created, pinned to
    the coordinate and with the wanted replicas. *)
Theorem water_Reconcile_deploys req :
  emits (State := T) (water_Reconcile req) (fun o cs =>
    o = Ok None ->
    cs = [OnWater (GetRequest req) (Some ErrNotFound)]
    \/ exists water, keyOf (water_meta water) = req
         /\ forall c size, wanted water c size -> ensured water c size cs).
Proof.
  unfold water_Reconcile. apply emits_bind, emits_Get_from. intros [e|water] w Hr; cbn [errorOf].
  { destruct (IsNotFound e) eqn:En; apply emits_ret; [|done]. intros _. left.
    apply bool_decide_eq_true in En. by rewrite En. }
  symmetry in Hr. apply get_key in Hr. subst req.
  assert (Hany : forall A (m : M T A) (Q : Outcome A -> list WaterCall -> Prop),
    does water m (fun _ => True) -> (forall o cs, Q o cs) -> emits (State := T) m Q).
  { intros A m Q Hm HQ. eapply emits_mono; [exact Hm|]. intros o cs _. apply HQ. }
  apply emits_bind, (Hany _ _ _ (clean_does water)). intros [[e|]|r] cs; [by apply emits_ret| |done].
  apply emits_bind. eapply emits_mono; [by apply deployAll_ensures|].
  intros [[e|]|r] cs1 Hd; [by apply emits_ret| |done].
  assert (Hfin : forall A (m : M T A) (Q : Outcome A -> list WaterCall -> Prop),
    (forall o cs', (forall c size, wanted water c size -> ensured water c size (cs1 ++ cs')) -> Q o cs') ->
    (exists P, only (State := T) P m (fun _ => True)) -> emits (State := T) m Q).
  { intros A m Q HQ [P Hm]. eapply emits_mono; [exact Hm|]. intros o cs' _. apply HQ.
    intros c size (i & Hi & Hs)%wanted_size. eapply ensured_mono; [|apply (list_subseteq_app_l cs1 cs1 cs'); done].
    apply (Hd eq_refl (newLocalCoordinate (Z.of_nat i) c)); [|done].
    apply list_elem_of_lookup. exists i. unfold makeLocalCoordinates.
    by rewrite makeLocalCoordinatesFrom_lookup, Hi, Z.add_0_l. }
  apply Hfin.
  - intros o cs' Hens _. right. exists water. split; [done|]. intros c size Hw.
    eapply ensured_mono; [by apply Hens|]. set_solver.
  - exists (allowedWater water).
    eapply only_bind; [apply createService_does|]. intros [e|] _; [by apply only_ret|].
    eapply only_bind; [apply annotationWater_does|].
    intros [[e|] instance] Hid; [by apply only_ret|by apply updateWater_does].
Qed.
End Properties.

(** ** Witnesses: a server with waters, deployments and services *)

Notation fx_waterServer := (list Water * (list Deployment * list Service))%type.
#[local] Instance fx_waters : Client fx_waterServer Water := onFst (fx_objects water_meta).
#[local] Instance fx_deployments : Client fx_waterServer Deployment :=
  onSnd (onFst (fx_objects dep_meta)).
#[local] Instance fx_waterServices : Client fx_waterServer Service :=
  onSnd (onSnd (fx_objects svc_meta)).
#[local] Instance fx_waters_keys : KeyLaws water_meta (H := fx_waters).
Proof. apply onFst_keys, fx_objects_keys. Defined.
#[local] Instance fx_waters_keep : WritesKeep waterIdentity (H := fx_waters).
Proof. apply onFst_keep, fx_objects_keep. Defined.
#[local] Instance fx_deployments_keys : KeyLaws dep_meta (H := fx_deployments).
Proof. apply onSnd_keys, onFst_keys, fx_objects_keys. Defined.
#[local] Instance fx_waterServices_keys : KeyLaws svc_meta (H := fx_waterServices).
Proof. apply onSnd_keys, onSnd_keys, fx_objects_keys. Defined.
#[local] Instance fx_waterOwners : OwnerLib := {| SetControllerReference o m := (None, m) |}.
#[local] Instance fx_waterOwners_laws : OwnerLaws.
Proof. by split. Defined.

Definition fx_waterSpec (strategy : StrategyType) (cs : Coordinates) : WaterSpec :=
  mkWaterSpec fx_template strategy cs (mkServiceSpec [mkServicePort "http" ""] ∅ "").
(** The annotation [old] stands for a spec placed on host [h1] of rack [A-R]. *)
#[local] Instance fx_waterCodec : SpecCodec WaterSpec := {|
  marshalSpec s := inr "new";
  unmarshalSpec s :=
    if decide (s = "old") then inr (fx_waterSpec Beta [mkCoordinate "A" "R" "h1" 1])
    else inl (ErrMsg "unmarshal");
|}.
Definition fx_water (strategy : StrategyType) (cs : Coordinates) (old : bool) : Water :=
  mkWater (if old then setAnnotations {["spec" := "old"]} (metaNamed "default" "shop")
           else metaNamed "default" "shop")
    (fx_waterSpec strategy cs) (mkWaterStatus 0 0 0 0).

Definition fx_waterWritten (c : WaterCall) : option string :=
  match c with
  | OnDeployment (CreateRequest d) None => Some ("create " +:+ Name (dep_meta d))
  | OnDeployment (UpdateRequest d) None => Some ("scale " +:+ Name (dep_meta d))
  | OnDeployment (DeleteRequest d) None => Some ("delete " +:+ Name (dep_meta d))
  | OnWaterService (CreateRequest s) None => Some ("service " +:+ Name (svc_meta s))
  | OnWater (UpdateRequest _) None => Some "water"
  | OnWater (StatusRequest s) None =>
      Some ("status " +:+ itoa (AlreadyDeployment (water_Status s)))
  | _ => None
  end.
Definition fx_reconcileWater (water : Water) (ds : list Deployment) : list string :=
  omap fx_waterWritten
    ((water_Reconcile (mkKey "default" "shop") : M (fx_waterServer * list WaterCall) _)
       (([water], (ds, [])), [])).2.2.

Definition fx_zones : Coordinates := [mkCoordinate "A" "R" "h2" 2; mkCoordinate "B" "R" "" 5].

Example reconcile_release :
  fx_reconcileWater (fx_water Release fx_zones false) []
  = ["create shop-a-r"; "create shop-b-r"; "service shop"; "water"; "status 2"].
Proof. vm_compute. reflexivity. Qed.

(** With [Alpha] and two coordinates the second deployment never exists, so the status
    is never written. *)
Example reconcile_alpha :
  fx_reconcileWater (fx_water Alpha fx_zones false) [] = ["create shop-a-r"; "service shop"; "water"].
Proof. vm_compute. reflexivity. Qed.

(** Moving the coordinate to another host of its rack deletes the deployment that is
    still wanted, for deployments are named by zone and rack only. *)
Example reconcile_host_move :
  fx_reconcileWater (fx_water Beta fx_zones true)
    [newDeployment (mkKey "default" "shop-a-r") (fx_water Beta fx_zones true) 1 None]
  = ["delete shop-a-r"; "create shop-a-r"; "create shop-b-r"; "service shop"; "water"; "status 2"].
Proof. vm_compute. reflexivity. Qed.

Lemma water_Reconcile_writes_witness :
  exists rest,
    ((water_Reconcile (mkKey "default" "shop") : M (fx_waterServer * list WaterCall) _)
       (([fx_water Release fx_zones true], ([], [])), [])).2.2
    = [] ++ OnWater (GetRequest (mkKey "default" "shop")) None :: rest
    /\ Forall (allowedWater (W := fx_waterServer) (fx_water Release fx_zones true)) rest.
Proof.
  destruct (water_Reconcile_writes (W := fx_waterServer) (mkKey "default" "shop")
              (inr (fx_water Release fx_zones true))
              (([fx_water Release fx_zones true], ([], [])), [])) as (cs & E & rest & Hcs & _ & Hall);
    [vm_compute; reflexivity|].
  exists rest. split; [|exact Hall]. subst cs. exact E.
Defined.

Lemma water_Reconcile_deploys_witness :
  emits (State := fx_waterServer * list WaterCall) (water_Reconcile (mkKey "default" "shop"))
    (fun o cs => o = Ok None ->
       cs = [OnWater (GetRequest (mkKey "default" "shop")) (Some ErrNotFound)]
       \/ exists water, keyOf (water_meta water) = mkKey "default" "shop"
            /\ forall c size, wanted water c size -> ensured water c size cs).
Proof. apply (water_Reconcile_deploys (mkKey "default" "shop")). Defined.
