(* ===== verification/WaterStore.v ===== *)
(** Waters on a server that keeps what is written: a reconcile that succeeds has brought
    the deployments and the service of the water in line, and the next one leaves them
    alone. *)

From S2P Require Import Prelude Objects GoString Libraries Coordinate Fixtures Naming.
From S2P Require Import PodIdentity InPlace Cluster CallLog Workloads Water ServerStore.

(** ** What is settled *)

(** What the server keeps of a water and of a deployment. *)
Definition waterKept (water : Water) : gmap string string * WaterSpec :=
  (Annotations (water_meta water), water_Spec water).
Definition deploymentKept (d : Deployment) : option Z := dep_Replicas (dep_Spec d).

(** A deployment of the given size is there. *)
Definition deployed (k : ObjectKey) (size : Z) (deployments : gmap ObjectKey Deployment) : Prop :=
  exists d, deployments !! k = Some d /\ deploymentKept d = Some size.

Definition allDeployed (water : Water) (deployments : gmap ObjectKey Deployment) : Prop :=
  forall c size, wanted water c size -> deployed (deploymentKey water c) size deployments.

(** Deployments are named after zone and rack only: coordinates that share a name want
    the same size. *)
Definition agreed (water : Water) : Prop :=
  forall c c' size size', wanted water c size -> wanted water c' size' ->
    deploymentKey water c = deploymentKey water c' -> size = size'.

(** The annotation holds the spec. *)
Definition annotatedWith `{SpecCodec WaterSpec} (spec : WaterSpec) (water : Water) : Prop :=
  water_Spec water = spec
  /\ exists bytes, marshalSpec spec = inr bytes
       /\ Annotations (water_meta water) !! "spec" = Some bytes.

(** Marshalling loses no coordinates. *)
Class CodecLaws `{SpecCodec WaterSpec} := {
  unmarshal_coordinates spec bytes : marshalSpec spec = inr bytes ->
    exists spec', unmarshalSpec bytes = inr spec'
      /\ water_Coordinates spec' = water_Coordinates spec;
}.

Lemma Difference_same cs : Difference cs cs = [].
Proof. by apply Difference_symmetric. Qed.

(** ** The steps of a reconcile, on the stores *)

Section Stores.
Context {W : Type} `{KubeLib, SpecCodec WaterSpec, !CodecLaws, OwnerLaws, RetryLaws}.
Context `{Store W Water (gmap string string * WaterSpec) water_meta waterKept}.
Context `{Store W Deployment (option Z) dep_meta deploymentKept}.
Context `{Store W Service unit svc_meta (fun _ => ())}.

Definition waters (w : W) : gmap ObjectKey Water := objects w.
Definition deployments (w : W) : gmap ObjectKey Deployment := objects w.
Definition waterServices (w : W) : gmap ObjectKey Service := objects w.

Context `{!Apart Water (fun w => (deployments w, waterServices w))}.
Context `{!Apart Deployment (fun w => (waters w, waterServices w))}.
Context `{!Apart Service (fun w => (waters w, deployments w))}.

(** A step on the deployment of [k]: no other object changes, nothing does when it has
    the size already, and on success it has. *)
Definition deployStep (k : ObjectKey) (size : Z) (w : W) (err : option Err) (w' : W) : Prop :=
  waters w' = waters w /\ waterServices w' = waterServices w
  /\ (forall k', k' <> k -> deployments w' !! k' = deployments w !! k')
  /\ (deployed k size (deployments w) -> deployments w' = deployments w)
  /\ (err = None -> deployed k size (deployments w')).

Lemma deployStep_refl k size w e : deployStep k size w (Some e) w.
Proof. done. Qed.
Lemma deployStep_trans k size w e w' err w'' :
  deployStep k size w (Some e) w' -> deployStep k size w' err w'' -> deployStep k size w err w''.
Proof.
  intros (? & ? & Ho & Hd & _) (? & ? & Ho' & Hd' & Hok). split_and!; [congruence..| | |done].
  - intros k' Hk. by rewrite Ho', Ho.
  - intros Hin. pose proof (Hd Hin) as E. rewrite Hd'; by rewrite E.
Qed.

(** A write of a deployment of the right key and size. *)
Lemma deployStep_written k size w w1 d err d' w' :
  keyOf (dep_meta d) = k -> deploymentKept d = Some size ->
  ~ deployed k size (deployments w) ->
  waters w1 = waters w -> waterServices w1 = waterServices w -> deployments w1 = deployments w ->
  written dep_meta deploymentKept objects d w1 err d' w' ->
  (waters w', waterServices w') = (waters w1, waterServices w1) ->
  deployStep k size w err w'.
Proof.
  intros Hk Hs Hnot Hwa Hsv Hde Hw [= Hwa' Hsv']. split_and!; [congruence..| |done|].
  - intros k' Hne. rewrite <-Hde. apply (written_other _ _ _ _ _ _ Hw). by rewrite Hk.
  - intros ->. apply written_stored in Hw as [Hin Hp]. exists d'. split; [by rewrite <-Hk|].
    by rewrite Hp.
Qed.
Lemma deployStep_with k size w err err' w' :
  (err' = None -> err = None) -> deployStep k size w err w' -> deployStep k size w err' w'.
Proof. intros He (? & ? & ? & ? & Hok). split_and!; auto. Qed.

(** The error a run ended in; a panic is not a success. *)
Definition endError {S} (o : Outcome (option Err * S)) : option Err :=
  match o with Ok r => r.1 | Panic _ => Some ErrNotFound end.

Definition sized (k : ObjectKey) (size : Z) (d : Deployment) : Prop :=
  keyOf (dep_meta d) = k /\ deploymentKept d = Some size.

Lemma deploymentAttempt_store k water size d w :
  sized k size d ->
  holds (deploymentAttempt k water size d) w (fun o w' =>
    deployStep k size w (endError o) w' /\ forall r, o = Ok r -> sized k size r.2).
Proof.
  intros [Hk Hs]. unfold deploymentAttempt.
  apply holds_bind, (holds_Get (fun w => (waters w, waterServices w))).
  intros r w1 Hde [= Hwa Hsv] Hr.
  assert (Hread : forall e, deployStep k size w (Some e) w1).
  { intros e. split_and!; [done..| | |done]; intros; unfold deployments; by rewrite Hde. }
  destruct r as [e|old].
  - destruct (IsNotFound e); [specialize (Hr eq_refl)|].
    2: { apply holds_ret. split; [apply Hread|]. by intros ? [= <-]. }
    assert (Hnot : ~ deployed k size (deployments w)).
    { intros (d' & Hin & _). unfold deployments in Hin. congruence. }
    apply holds_bind, (holds_Create (fun w => (waters w, waterServices w))).
    intros err d' w' Hw Hap.
    pose proof (deployStep_written k size w w1 d err d' w' Hk Hs Hnot Hwa Hsv Hde Hw Hap) as Hstep.
    assert (Hd' : sized k size d') by (destruct Hw as (? & ? & _); split; congruence).
    destruct err as [e'|].
    { apply holds_ret. split; [by eapply deployStep_with; [|exact Hstep]|by intros ? [= <-]]. }
    pose proof (owner_key (water_meta water) (dep_meta d')) as Hok.
    destruct (SetControllerReference _ _) as [err meta]. apply holds_ret.
    split; [by eapply deployStep_with; [|exact Hstep]|]. intros ? [= <-]. cbn in *.
    destruct Hd' as [Hk' ?]. split; [cbn; congruence|done].
  - apply holds_bind, holds_lift. destruct (dep_Replicas (dep_Spec old)) as [n|] eqn:En.
    2: { split; [apply Hread|done]. }
    cbn [deref]. case_decide as Hn.
    + apply holds_ret. split; [|by intros ? [= <-]].
      destruct (Hread ErrNotFound) as (? & ? & ? & ? & _). split_and!; [done..|]. intros _.
      exists old. unfold deployments, deploymentKept. rewrite En, Hn. split; [|done].
      rewrite <-Hr. by apply (f_equal (lookup k)).
    + assert (Hnot : ~ deployed k size (deployments w)).
      { intros (d' & Hin & Hd'). unfold deployments, deploymentKept in *. congruence. }
      apply holds_bind, (holds_Update (fun w => (waters w, waterServices w))).
      intros err d' w' Hw Hap. apply holds_ret. split; [|by intros ? [= <-]].
      eapply deployStep_with; [|eapply deployStep_written; [| | |exact Hwa|exact Hsv|exact Hde|exact Hw|exact Hap]];
        [by destruct err|exact (store_key _ _ _ Hr)|done|done].
Qed.

Lemma updateDeployment_store k water size na w :
  holds (updateDeployment k water size na) w (fun o w' =>
    deployStep k size w (match o with Ok err => err | Panic _ => Some ErrNotFound end) w').
Proof.
  unfold updateDeployment. apply holds_bind.
  apply (holds_retry _ _ _ _ (fun d w' => sized k size d /\ deployStep k size w (Some ErrNotFound) w')).
  { split; [by destruct k|apply deployStep_refl]. }
  intros d w0 [Hd Hw0]. eapply holds_mono; [by apply (deploymentAttempt_store k)|].
  intros o w' [Hw' Hs].
  assert (Hstep : deployStep k size w (endError o) w') by by eapply deployStep_trans.
  split; [destruct o as [[err d']|p]; [by apply holds_ret|done]|].
  destruct o as [[[e|] d']|p]; [|done..]. intros _. split; [by apply (Hs (Some e, d'))|].
  eapply deployStep_with; [|exact Hstep]. done.
Qed.

(** *** All deployments *)

(** What a list of coordinators asks for. *)
Definition target (water : Water) (c : coordinator) : option (ObjectKey * Z) :=
  (fun size => (mkKey (Namespace (water_meta water))
                  (deploymentName (coordinator_Name c) (water_meta water)), size))
  <$> waterSize (water_Strategy (water_Spec water)) c.
Definition inPlace (w : W) (t : ObjectKey * Z) : Prop := deployed t.1 t.2 (deployments w).

Lemma deployed_kept k size w err w' k' size' :
  deployStep k size w err w' -> deployed k' size' (deployments w) -> (k' = k -> size = size') ->
  deployed k' size' (deployments w').
Proof.
  intros (_ & _ & Ho & Hd & _) Hin Heq. destruct (decide (k' = k)) as [E|Hne].
  - subst k'. rewrite <-(Heq eq_refl) in *. by rewrite (Hd Hin).
  - unfold deployed. by rewrite Ho.
Qed.

Lemma deployAll_store water l w :
  (forall k s s', (k, s) ∈ omap (target water) l -> (k, s') ∈ omap (target water) l -> s = s') ->
  holds (deployAll (keyOf (water_meta water)) water l) w (fun o w' =>
    waters w' = waters w /\ waterServices w' = waterServices w
    /\ (forall k s, deployed k s (deployments w) ->
          (forall s', (k, s') ∈ omap (target water) l -> s' = s) -> deployed k s (deployments w'))
    /\ (Forall (inPlace w) (omap (target water) l) -> deployments w' = deployments w)
    /\ (o = Ok None -> Forall (inPlace w') (omap (target water) l))).
Proof.
  revert w. induction l as [|c l IH]; intros w; [by intros _; apply holds_ret|].
  cbn [deployAll omap list_omap]. destruct (target water c) as [[k size]|] eqn:Et;
    unfold target in Et; destruct (waterSize _ c) as [size0|]; try done; [|by apply IH].
  cbn in Et. injection Et as Ek ->. intros Hag.
  assert (Hag' : forall k' s s', (k', s) ∈ omap (target water) l ->
    (k', s') ∈ omap (target water) l -> s = s') by (intros; eapply Hag; by right).
  assert (Hk : forall s', (k, s') ∈ omap (target water) l -> s' = size).
  { intros s' Hs'. apply (Hag k); [by right|by left]. }
  apply holds_bind. eapply holds_mono; [apply updateDeployment_store|]. cbn [key_Namespace keyOf].
  rewrite Ek. intros o w1 Hstep. pose proof Hstep as (Hwa & Hsv & _ & Hd & Hok).
  assert (Hkeep : forall k' s, deployed k' s (deployments w) ->
    (forall s', (k', s') ∈ (k, size) :: omap (target water) l -> s' = s) ->
    deployed k' s (deployments w1)).
  { intros k' s Hin Hall. eapply deployed_kept; [exact Hstep|exact Hin|]. intros ->.
    apply Hall. by left. }
  assert (Hone : Forall (inPlace w) ((k, size) :: omap (target water) l) ->
    deployments w1 = deployments w) by (intros [Hin _]%list.Forall_cons; by apply Hd).
  destruct o as [[e|]|p]; [by apply holds_ret; split_and!| |by split_and!].
  eapply holds_mono; [by apply IH|]. intros o w2 (Hwa2 & Hsv2 & Hkeep2 & Hall2 & Hok2).
  split_and!; [congruence..| | |].
  - intros k' s Hin Hall. apply Hkeep2; [by apply Hkeep|]. intros s' Hs'. apply Hall. by right.
  - intros Hin. pose proof (Hone Hin) as E. rewrite Hall2; [done|].
    apply list.Forall_cons in Hin as [_ Hin]. unfold inPlace. by rewrite E.
  - intros Ho. constructor; [|by apply Hok2]. apply Hkeep2; [by apply Hok|]. exact Hk.
Qed.
(** *** The service *)

Lemma createService_store req water w :
  keyOf (water_meta water) = req ->
  holds (createService req water) w (fun o w' =>
    waters w' = waters w /\ deployments w' = deployments w
    /\ (is_Some (waterServices w !! req) -> waterServices w' = waterServices w)
    /\ (o = Ok None -> is_Some (waterServices w' !! req))).
Proof.
  intros Hk. unfold createService.
  apply holds_bind, (holds_Get (fun w => (waters w, deployments w))).
  intros r w1 Hsv [= Hwa Hde] Hr. destruct r as [e|svc].
  2: { apply holds_ret. split_and!; [done..|]. intros _. exists svc. rewrite <-Hr.
       by apply (f_equal (lookup req)). }
  destruct (IsNotFound e); [specialize (Hr eq_refl)|by apply holds_ret].
  assert (Hno : ~ is_Some (waterServices w !! req)).
  { intros [svc Hin]. unfold waterServices in Hin. congruence. }
  apply holds_bind.
  apply (holds_retry _ _ _ _ (fun s w' => keyOf (svc_meta s) = req
    /\ waters w' = waters w /\ deployments w' = deployments w)); [by split_and!|].
  intros s w0 (Hs & Hwa0 & Hde0). apply (holds_Create (fun w => (waters w, deployments w))).
  intros err s' w' Hw [= Hwa' Hde']. split.
  - apply holds_ret. split_and!; [congruence..|done|]. cbn. intros [= ->].
    apply written_stored in Hw as [Hin _]. exists s'. by rewrite <-Hs.
  - destruct err as [e'|]; [|done]. intros _. destruct Hw as (Hs' & _).
    split_and!; congruence.
Qed.

(** *** The water itself *)

(** Only waters have changed, and that of [k] has this spec. *)
Definition waterOnly (k : ObjectKey) (spec : WaterSpec) (w w' : W) : Prop :=
  deployments w' = deployments w /\ waterServices w' = waterServices w
  /\ exists y, waters w' !! k = Some y /\ water_Spec y = spec.

Lemma annotationWater_store k water w :
  keyOf (water_meta water) = k -> 
  (exists y, waters w !! k = Some y /\ water_Spec y = water_Spec water) ->
  holds (annotationWater water) w (fun o w' =>
    waterOnly k (water_Spec water) w w'
    /\ forall x, o = Ok (None, x) -> keyOf (water_meta x) = k
         /\ waters w' !! k = Some x /\ annotatedWith (water_Spec water) x).
Proof.
  intros Hk Hin. apply (holds_retry _ _ _ _ (fun x w' => keyOf (water_meta x) = k
    /\ water_Spec x = water_Spec water /\ waterOnly k (water_Spec water) w w')).
  { by split_and!. }
  intros x w0 (Hx & Hs & Hde0 & Hsv0 & Hin0). unfold annotationAttempt. rewrite Hs.
  destruct (marshalSpec (water_Spec water)) as [e|bytes] eqn:Em; [by apply holds_ret|].
  apply (holds_Update (fun w => (deployments w, waterServices w))).
  intros err y w' (Hky & [= Ha Hsy] & Hw) [= Hde Hsv].
  assert (Hy : keyOf (water_meta y) = k) by by rewrite Hky.
  assert (Hys : water_Spec y = water_Spec water) by congruence.
  assert (Hst : waters w' = waters w0 \/ waters w' = <[k := y]> (waters w0)).
  { rewrite <-Hx. destruct err; [exact Hw|right; exact Hw]. }
  assert (Honly : waterOnly k (water_Spec water) w w').
  { split_and!; [congruence..|]. destruct Hst as [->| ->]; [done|]. exists y.
    split; [apply lookup_insert_eq|done]. }
  split; [|by destruct err].
  split; [done|]. intros x' [= -> <-]. split; [done|]. split.
  - assert (Hw' : waters w' = <[k := y]> (waters w0)) by (rewrite <-Hx; exact Hw).
    rewrite Hw'. apply lookup_insert_eq.
  - split; [done|]. exists bytes. split; [done|]. rewrite Ha. cbn. apply lookup_insert_eq.
Qed.

Lemma countDeployments_store water l st w :
  holds (countDeployments water l st) w (fun _ w' =>
    waters w' = waters w /\ deployments w' = deployments w /\ waterServices w' = waterServices w).
Proof.
  revert st w. induction l as [|c l IH]; intros st w; [by apply holds_fret|].
  cbn [countDeployments]. apply holds_fbind, holds_run.
  apply (holds_Get (fun w => (waters w, waterServices w))). intros r w1 Hde [= Hwa Hsv] _.
  destruct r as [e|d]; [destruct (IsNotFound e); by apply holds_return|].
  apply holds_fbind, holds_run, holds_lift. destruct (deref _) as [n|p]; [|by split_and!].
  eapply holds_mono; [apply IH|]. intros _ w2 (Hwa2 & Hde2 & Hsv2).
  split_and!; [congruence| |congruence]. rewrite Hde2. exact Hde.
Qed.

(** The stored water of [k] has its spec in its annotation. *)
Definition recorded (k : ObjectKey) (spec : WaterSpec) (w w' : W) : Prop :=
  deployments w' = deployments w /\ waterServices w' = waterServices w
  /\ exists y, waters w' !! k = Some y /\ annotatedWith spec y.

Lemma updateWater_store k spec water w :
  keyOf (water_meta water) = k ->
  (exists y, waters w !! k = Some y /\ annotatedWith spec y) ->
  holds (updateWater water) w (fun _ w' => recorded k spec w w').
Proof.
  intros Hk Hin. unfold updateWater. apply holds_body, holds_fbind.
  eapply holds_mono; [apply countDeployments_store|]. intros o w1 (Hwa & Hde & Hsv).
  assert (Hw1 : recorded k spec w w1) by (split_and!; [done..|by rewrite Hwa]).
  destruct o as [[st|r]|p]; [|done..].
  apply holds_fbind, holds_run.
  apply (holds_retry _ _ _ _ (fun x w' => keyOf (water_meta x) = k /\ recorded k spec w w'));
    [done|].
  clear Hwa Hde Hsv Hw1. intros x w0 (Hx & Hde0 & Hsv0 & y & Hy & Hay). unfold waterStatusAttempt.
  case_decide; [apply holds_ret; split; [|done]; split_and!; [done..|by exists y]|].
  apply holds_bind, (holds_Status (fun w => (deployments w, waterServices w))).
  intros err x' w' (Hk' & _ & Hst) [= Hde Hsv].
  assert (Hw' : recorded k spec w w').
  { split_and!; [congruence..|]. destruct Hst as [[_ Hst]|(old & new & Hold & _ & Hp & Hst)].
    - exists y. split; [|done]. rewrite <-Hy. by apply (f_equal (lookup k)).
    - exists new. change (keyOf (water_meta (setWaterStatus st x))) with (keyOf (water_meta x)) in *.
      rewrite Hx in Hold, Hst. unfold waters in *. rewrite Hst, lookup_insert_eq.
      split; [done|]. assert (old = y) as -> by congruence. injection Hp as Ha Hs.
      destruct Hay as (Hsp & bytes & Hm & Hb). split; [congruence|]. exists bytes.
      split; [done|congruence]. }
  apply holds_ret. split; [by destruct err|]. destruct err; [|done]. cbn. intros _.
  split; [|done]. rewrite Hk'. exact Hx.
Qed.
(** *** Old deployments *)

(** Only deployments have changed, and those not if the annotation is up to date. *)
Definition cleaned (water : Water) (w w' : W) : Prop :=
  waters w' = waters w /\ waterServices w' = waterServices w
  /\ (annotatedWith (water_Spec water) water -> deployments w' = deployments w).

Lemma cleaned_trans water w w' w'' : cleaned water w w' -> cleaned water w' w'' -> cleaned water w w''.
Proof. intros (? & ? & ?) (? & ? & Hd). split_and!; [congruence..|]. intros Ha. rewrite Hd; auto. Qed.

Lemma deleteLeft_store water tmp1 tmp2 todo w :
  holds (deleteLeft water tmp1 tmp2 todo) w (fun _ w' =>
    waters w' = waters w /\ waterServices w' = waterServices w).
Proof.
  revert w. induction todo as [|c todo IH]; intros w; [by apply holds_ret|]. cbn [deleteLeft].
  destruct (In tmp1 c && _); [|apply IH].
  apply holds_bind, (holds_Get (fun w => (waters w, waterServices w))).
  intros r w1 _ [= Hwa Hsv] _. rewrite <-Hwa, <-Hsv.
  destruct r as [e|d]; [destruct (IsNotFound e); [apply IH|by apply holds_ret]|].
  apply holds_bind, (holds_Delete (fun w => (waters w, waterServices w))).
  intros err w2 [= Hwa2 Hsv2]. rewrite <-Hwa2, <-Hsv2. destruct err; [by apply holds_ret|apply IH].
Qed.

Lemma clean_store water w :
  holds (updateCleanOldDeployment water) w (fun _ w' => cleaned water w w').
Proof.
  unfold updateCleanOldDeployment. case_decide; [by apply holds_ret|].
  apply holds_bind, (holds_retry _ _ _ _ (fun _ w' => cleaned water w w')); [done|].
  intros [] w0 Hw0. cut (holds (cleanAttempt water ()) w0 (fun _ w' => cleaned water w0 w')).
  { intros Hc. eapply holds_mono; [exact Hc|]. intros o w' Hw'.
    assert (cleaned water w w') by by eapply cleaned_trans.
    destruct o as [[[e|] []]|p]; by split. }
  unfold cleanAttempt. destruct (_ !! "spec") as [bs|] eqn:Ebs; [|by apply holds_ret].
  destruct (unmarshalSpec bs) as [e|spec] eqn:Eu; [by apply holds_ret|].
  case_decide as Hdiff; [by apply holds_ret|].
  apply holds_bind. eapply holds_mono; [apply deleteLeft_store|]. intros o w' [Hwa Hsv].
  assert (cleaned water w0 w'); [|by destruct o as [[e|]|p]].
  split_and!; [done..|]. intros (_ & bytes & Hm & Hb). destruct Hdiff.
  rewrite Ebs in Hb. injection Hb as ->. destruct (unmarshal_coordinates _ _ Hm) as (spec' & E & Ec).
  rewrite Eu in E. injection E as ->. rewrite Ec. apply Difference_same.
Qed.

(** *** The reconcile *)

Lemma targets_wanted water k size :
  (k, size) ∈ omap (target water) (makeLocalCoordinates (water_Coordinates (water_Spec water)))
  <-> exists c, wanted water c size /\ k = deploymentKey water c.
Proof.
  rewrite list_elem_of_omap. split.
  - intros (c & Hc & Ht). destruct (makeLocal_elem water c Hc) as (i & Hi & Ec).
    unfold target in Ht. destruct (waterSize _ c) as [n|] eqn:En; [|done]. injection Ht as <- <-.
    exists (coordinator_Coordinate c). split; [apply wanted_size; exists i; split; [done|by rewrite <-Ec]|].
    by rewrite Ec.
  - intros (c & (i & Hi & Hs)%wanted_size & ->). exists (newLocalCoordinate (Z.of_nat i) c). split.
    + apply list_elem_of_lookup. exists i. unfold makeLocalCoordinates.
      by rewrite makeLocalCoordinatesFrom_lookup, Hi, Z.add_0_l.
    + unfold target. by rewrite Hs.
Qed.

Lemma targets_inPlace water w :
  Forall (inPlace w) (omap (target water) (makeLocalCoordinates (water_Coordinates (water_Spec water))))
  <-> allDeployed water (deployments w).
Proof.
  rewrite list.Forall_forall. split.
  - intros Hall c size Hw. apply (Hall (deploymentKey water c, size)), targets_wanted. eauto.
  - intros Hall [k size] (c & Hw & ->)%targets_wanted. by apply Hall.
Qed.

(** The water, its deployments and its service are as they should be. *)
Definition waterSettled (req : ObjectKey) (water : Water) (w : W) : Prop :=
  annotatedWith (water_Spec water) water /\ allDeployed water (deployments w)
  /\ is_Some (waterServices w !! req).
Definition restKept (w w' : W) : Prop :=
  deployments w' = deployments w /\ waterServices w' = waterServices w.

Lemma restKept_trans w w' w'' : restKept w w' -> restKept w' w'' -> restKept w w''.
Proof. intros [? ?] [? ?]. split; congruence. Qed.

Lemma like_settled water x :
  keyOf (water_meta x) = keyOf (water_meta water) -> water_Spec x = water_Spec water ->
  (agreed water -> agreed x) /\ forall ds, allDeployed water ds -> allDeployed x ds.
Proof.
  intros Hk Hs.
  assert (Hkey : forall c, deploymentKey x c = deploymentKey water c).
  { intros c. injection Hk as Hns Hn. unfold deploymentKey, deploymentName. by rewrite Hns, Hn. }
  assert (Hw : forall c size, wanted x c size <-> wanted water c size).
  { intros c size. unfold wanted. by rewrite Hs. }
  split.
  - intros Hag c c' size size' ?%Hw ?%Hw. rewrite !Hkey. by apply Hag.
  - intros ds Hall c size ?%Hw. rewrite Hkey. by apply Hall.
Qed.

(** The service and the water, once the deployments are in place. *)
Lemma finish_store req water w :
  waters w !! req = Some water -> keyOf (water_meta water) = req ->
  holds (err ← createService req water;
         match err with Some e => mret (Some e) | None =>
         res ← annotationWater water;
         match res with
         | (Some e, _) => mret (Some e)
         | (None, instance) => updateWater instance
         end end) w (fun o w' =>
    deployments w' = deployments w
    /\ (is_Some (waterServices w !! req) -> waterServices w' = waterServices w)
    /\ (o = Ok None -> is_Some (waterServices w' !! req)
         /\ exists x, waters w' !! req = Some x /\ annotatedWith (water_Spec water) x)).
Proof.
  intros Hin Hk. apply holds_bind. eapply holds_mono; [by apply createService_store|].
  intros o w1 (Hwa1 & Hde1 & Hsv1 & Hok1). destruct o as [[e|]|p]; [by apply holds_ret| |done].
  specialize (Hok1 eq_refl). apply holds_bind. eapply holds_mono.
  { apply (annotationWater_store req water); [done|]. exists water. by rewrite Hwa1. }
  intros o w2 ((Hde2 & Hsv2 & _) & Hx). rewrite <-Hde1, <-Hde2.
  assert (Hsv : is_Some (waterServices w !! req) -> waterServices w2 = waterServices w).
  { intros Hsome. rewrite Hsv2. by apply Hsv1. }
  destruct o as [[[e|] x]|p]; [by apply holds_ret| |done].
  destruct (Hx x eq_refl) as (Hxk & Hxin & Hxa).
  eapply holds_mono; [apply (updateWater_store req (water_Spec water) x); eauto|].
  intros o w3 (Hde3 & Hsv3 & Hy). rewrite Hsv3, Hsv2. split; [done|].
  split; [by rewrite <-Hsv2|done].
Qed.

Lemma water_reconcile_stored water req w :
  waters w !! req = Some water -> agreed water ->
  holds (water_Reconcile req) w (fun o w' =>
    (waterSettled req water w -> restKept w w')
    /\ (o = Ok None -> exists x, waters w' !! req = Some x
         /\ water_Spec x = water_Spec water /\ waterSettled req x w')).
Proof.
  intros Hin Hag. pose proof (store_key _ _ _ Hin) as Hkey. unfold water_Reconcile.
  apply holds_bind, (holds_Get (fun w => (deployments w, waterServices w))).
  intros r w1 Hwa1 [= Hde1 Hsv1] Hr. unfold waters in Hin. destruct r as [e|water1].
  { destruct (IsNotFound e); [specialize (Hr eq_refl); congruence|by apply holds_ret]. }
  assert (water1 = water) as -> by congruence.
  apply holds_bind. eapply holds_mono; [apply clean_store|]. intros o w2 (Hwa2 & Hsv2 & Hde2).
  assert (Hs2 : waterSettled req water w -> restKept w w2).
  { intros (Ha & _). specialize (Hde2 Ha). split; congruence. }
  destruct o as [[e|]|p]; [by apply holds_ret| |done].
  apply holds_bind. rewrite <-Hkey. eapply holds_mono; [apply deployAll_store|].
  { intros k s s' (c & Hc & ->)%targets_wanted (c' & Hc' & E)%targets_wanted. by eapply Hag. }
  rewrite Hkey. intros o w3 (Hwa3 & Hsv3 & _ & Hde3 & Hok3). rewrite targets_inPlace in Hde3, Hok3.
  assert (Hs3 : waterSettled req water w -> restKept w w3).
  { intros Hw. destruct (Hs2 Hw) as [Hd Hv]. destruct Hw as (_ & Hall & _).
    split; [|congruence]. rewrite Hde3, Hd; [done|]. by rewrite Hd. }
  destruct o as [[e|]|p]; [by apply holds_ret| |done]. specialize (Hok3 eq_refl).
  eapply holds_mono.
  { apply (finish_store req water w3); [|done]. rewrite Hwa3, Hwa2. unfold waters. by rewrite Hwa1. }
  intros o w4 (Hde4 & Hsv4 & Hok4). split.
  - intros Hw. pose proof (Hs3 Hw) as [Hd Hv]. destruct Hw as (_ & _ & Hsome).
    split; [congruence|]. rewrite Hsv4, Hv; [done|]. by rewrite Hv.
  - intros Ho. destruct (Hok4 Ho) as (Hsome & x & Hx & Hxa). exists x.
    pose proof (store_key _ _ _ Hx) as Hxk. pose proof (proj1 Hxa) as Hspec.
    split; [done|]. split; [done|]. split; [by rewrite Hspec|]. split; [|done]. rewrite Hde4.
    apply (like_settled water x); [congruence|done..].
Qed.

(** C31: A reconcile of a stored water that succeeds has settled it: the stored water has the
    same spec, recorded in its annotation, every deployment its strategy wants has the
    wanted replicas, and its service is there; and whatever the next reconcile returns, it
    leaves the deployments and services as they are. Any call may fail on the way, and a
    write that fails may still have been carried out. Coordinates that share the name of
    their deployment must want the same replicas. *)
Theorem water_settles water req w :
  waters w !! req = Some water -> agreed water ->
  holds (water_Reconcile req) w (fun o w' => o = Ok None ->
    exists x, waters w' !! req = Some x /\ water_Spec x = water_Spec water
      /\ waterSettled req x w'
      /\ holds (water_Reconcile req) w' (fun _ w'' => restKept w' w'')).
Proof.
  intros Hin Hag. eapply holds_mono; [by apply (water_reconcile_stored water)|].
  intros o w' [_ Ho] E. destruct (Ho E) as (x & Hx & Hs & Hset). exists x.
  split; [done|]. split; [done|]. split; [done|].
  pose proof (store_key _ _ _ Hx). pose proof (store_key _ _ _ Hin).
  eapply holds_mono; [apply (water_reconcile_stored x); [done|]|].
  - apply (like_settled water x); [congruence|done..].
  - intros _ w'' [Hw'' _]. by apply Hw''.
Qed.
End Stores.

(** ** Witness: waters, deployments and services side by side *)

Definition fx_keepWater (sent stored : Water) : Water := setWaterStatus (water_Status sent) stored.

#[local] Instance fx_keptWaters : Client fx_waterServer Water :=
  onFst (fx_server water_meta fx_keepWater).
#[local] Instance fx_keptDeployments : Client fx_waterServer Deployment :=
  onSnd (onFst (fx_server dep_meta (fun _ stored => stored))).
#[local] Instance fx_keptWaterServices : Client fx_waterServer Service :=
  onSnd (onSnd (fx_server svc_meta (fun _ stored => stored))).
#[local] Instance fx_storeWaters : Store water_meta waterKept (H := fx_keptWaters).
Proof. by apply onFst_store, fx_server_store. Defined.
#[local] Instance fx_storeDeployments : Store dep_meta deploymentKept (H := fx_keptDeployments).
Proof. by apply onSnd_store, onFst_store, fx_server_store. Defined.
#[local] Instance fx_storeWaterServices : Store svc_meta (fun _ => ()) (H := fx_keptWaterServices).
Proof. by apply onSnd_store, onSnd_store, fx_server_store. Defined.
#[local] Instance fx_apartWaters :
  Apart Water (fun w : fx_waterServer => (deployments w, waterServices w)).
Proof. apply (onFst_apart _ (fun v => (objects v, objects v))). Defined.
#[local] Instance fx_apartDeployments :
  Apart Deployment (fun w : fx_waterServer => (waters w, waterServices w)).
Proof. apply (onSnd_apart _ (fun v x => (objects v, x))), onFst_apart. Defined.
#[local] Instance fx_apartWaterServices :
  Apart Service (fun w : fx_waterServer => (waters w, deployments w)).
Proof.
  apply (onSnd_apart _ (fun v x => (objects v, x))), (onSnd_apart _ (fun v _ => objects v) (fun _ => ())).
  apply apart_none.
Defined.

(** A codec that writes down the coordinates. *)
#[local] Existing Instances fx_coordJson fx_coordJson_laws fx_waterOwners fx_waterOwners_laws.
#[local] Instance fx_coordinatesCodec : SpecCodec WaterSpec := {|
  marshalSpec s := inr (marshal (water_Coordinates s));
  unmarshalSpec s :=
    match unmarshal s with
    | Some cs => inr (fx_waterSpec Beta cs)
    | None => inl (ErrMsg "unmarshal")
    end;
|}.
#[local] Instance fx_coordinatesCodec_laws : CodecLaws.
Proof.
  split. intros spec bytes E. injection E as <-.
  exists (fx_waterSpec Beta (water_Coordinates spec)). split; [|done].
  cbn. by rewrite fx_unbits_bits, decode_encode.
Defined.

Definition fx_waterWorld : fx_waterServer := ([fx_water Release fx_zones false], ([], [])).
Definition fx_waterSettled : Outcome (option Err) * fx_waterServer :=
  water_Reconcile (mkKey "default" "shop") fx_waterWorld.

Lemma water_settles_witness :
  fx_waterSettled.1 = Ok None
  /\ ((fun d => (Name (dep_meta d), dep_Replicas (dep_Spec d))) <$> fx_waterSettled.2.2.1)
     = [("shop-a-r", Some 2); ("shop-b-r", Some 5)]
  /\ deployments (water_Reconcile (mkKey "default" "shop") fx_waterSettled.2).2
     = deployments fx_waterSettled.2.
Proof.
  assert (Hok : fx_waterSettled.1 = Ok None) by (vm_compute; reflexivity).
  assert (Hin : waters fx_waterWorld !! mkKey "default" "shop" = Some (fx_water Release fx_zones false))
    by apply lookup_insert_eq.
  assert (Hag : agreed (fx_water Release fx_zones false)).
  { intros c c' size size' (i & Hi & Hs) (j & Hj & Hs') E.
    destruct i as [|[|i]]; [..|done]; destruct j as [|[|j]]; try done;
      injection Hi as <-; injection Hj as <-; vm_compute in Hs, Hs', E; congruence. }
  destruct (water_settles (fx_water Release fx_zones false) (mkKey "default" "shop") fx_waterWorld
              Hin Hag Hok) as (x & _ & _ & _ & Hd & _).
  split; [exact Hok|]. split; [vm_compute; reflexivity|exact Hd].
Defined.
