(* ===== verification/Injector.v ===== *)
(** Injectors ([api/v1/injector_types.go], [controllers/injector_controller.go]): the
    reconciler ties an injector to its water or stone and touches the pods it selects
    once, so that they pass through the webhook again. *)

From S2P Require Import Prelude Objects GoString Libraries Coordinate Fixtures Cluster CallLog.
From S2P Require Import Workloads Stone Water.

(** ** The resource *)

Record InjectorSpec := mkInjectorSpec {
  PreContainers : slice Container;
  PostContainers : slice Container;
  ResourceType : string;
  inj_NameSpace : string;
  inj_Name : string;
  inj_Volumes : slice Volume;
  inj_Selector : LabelSelector;
}.
Record Injector := mkInjector {
  inj_meta : ObjectMeta;
  inj_Spec : InjectorSpec;
}.

Definition annotationPrefix : string := "injector.admission.nuwav1.io".

(** [pkg/client.List] with a selector finds the pods whose labels it matches. *)
Class SelectorMatch := { Matches : LabelSelector -> gmap string string -> bool }.

Definition bouncedKey (name : string) : string := annotationPrefix +:+ "/bounced-" +:+ name.

(** [ctrl.Result]: the seconds after which to requeue, and the error. *)
Notation CtrlResult := (option Z * option Err)%type.

Section InjectorController.
Context {W : Type} `{KubeLib, SelectorLib, OwnerLib}.
Context `{Client W Injector, Client W Water, Client W Stone, Client W Pod, Lister W Pod}.

Definition addOwner (refs : list OwnerReference) (instance : Injector) : Injector :=
  mkInjector (setOwnerReferences (OwnerReferences (inj_meta instance) ++ refs) (inj_meta instance))
    (inj_Spec instance).

(** An injector without owners becomes owned by [owner], of its own namespace. *)
Definition tieOwner (kind : string) (owner : ObjectMeta) (instance : Injector)
  : F W CtrlResult Injector :=
  if decide (OwnerReferences (inj_meta instance) = []) then
    if decide (Namespace (inj_meta instance) <> Namespace owner)
    then return_ (None, Some (ErrMsg "cross-namespace owner references are disallowed"))
    else
      let instance := addOwner (ownerReference owner kind) instance in
      match (SetControllerReference (inj_meta instance) owner).1 with
      | Some err => return_ (None, Some err)
      | None => mret instance
      end
  else mret instance.

(** The common half of the two resource types: [got] is what reading the owner gave,
    whose errors other than not-found are dropped and leave an empty object. *)
Definition tieTo (kind : string) (got : Result ObjectMeta) (instance : Injector)
  : F W CtrlResult Injector :=
  match got with
  | inr owner => tieOwner kind owner instance
  | inl err =>
      if IsNotFound err then return_ (Some 5, None) else tieOwner kind (metaNamed "" "") instance
  end.

Definition mapResult {A B} (f : A -> B) (r : Result A) : Result B :=
  match r with inl e => inl e | inr a => inr (f a) end.

Definition tieInstance (instance : Injector) : F W CtrlResult Injector :=
  let objKey := mkKey (inj_NameSpace (inj_Spec instance)) (inj_Name (inj_Spec instance)) in
  if decide (ResourceType (inj_Spec instance) = "Water") then
    got ← run (call (Get (A := Water) objKey));
    tieTo "Water" (mapResult water_meta got) instance
  else if decide (ResourceType (inj_Spec instance) = "Stone") then
    got ← run (call (Get (A := Stone) objKey));
    tieTo "Stone" (mapResult stone_meta got) instance
  else mret instance.

(** Annotate and update every selected pod that has not been bounced. *)
Fixpoint bouncePods (instance : Injector) (pods : list Pod) : F W CtrlResult unit :=
  match pods with
  | [] => mret tt
  | pod :: pods' =>
      let key := bouncedKey (Name (inj_meta instance)) in
      match Annotations (pod_meta pod) !! key with
      | Some _ => bouncePods instance pods'
      | None =>
          res ← run (call (Update (overMeta (fun m =>
            setAnnotations (<[key := ResourceVersion (inj_meta instance)]> (Annotations m)) m) pod)));
          match res.1 with
          | Some err => return_ (None, Some err)
          | None => bouncePods instance pods'
          end
      end
  end.

Definition injector_Reconcile (req : ObjectKey) : M W CtrlResult :=
  body (
    got ← run (call (Get (A := Injector) req));
    match got with
    | inl err => if IsNotFound err then mret (None, None) else mret (None, Some err)
    | inr instance =>
        if decide (inj_Name (inj_Spec instance) = "")
        then mret (None, Some (ErrMsg "required name is not defined"))
        else
          instance ← tieInstance instance;
          match LabelSelectorAsSelector (Some (inj_Selector (inj_Spec instance))) with
          | Some err => mret (None, Some err)
          | None =>
              listed ← run (call (List_ (A := Pod) (Namespace (inj_meta instance))
                                    (Some (inj_Selector (inj_Spec instance)))));
              match listed with
              | inl err => mret (None, Some err)
              | inr pods =>
                  _ ← bouncePods instance pods;
                  res ← run (call (Update instance));
                  mret (None, res.1)
              end
          end
    end).
End InjectorController.

(** ** The calls of a reconcile *)

Inductive InjectorCall :=
  | OnInjector (r : Request Injector) (err : option Err)
  | OnInjWater (r : Request Water) (err : option Err)
  | OnInjStone (r : Request Stone) (err : option Err)
  | OnPod (r : Request Pod) (err : option Err)
  | OnPods (ns : string) (selector : option LabelSelector) (answer : Result (list Pod)).
#[export] Instance tracedInjector : Traced Injector InjectorCall := OnInjector.
#[export] Instance tracedInjWater : Traced Water InjectorCall := OnInjWater.
#[export] Instance tracedInjStone : Traced Stone InjectorCall := OnInjStone.
#[export] Instance tracedInjPod : Traced Pod InjectorCall := OnPod.

#[export] Instance tracedInjPods {W} `{Lister W Pod} : Lister (W * list InjectorCall) Pod := {|
  List_ ns selector w := let (r, w') := List_ ns selector w.1 in
    (r, (w', w.2 ++ [OnPods ns selector r]));
|}.

(** The pod as it is sent to be bounced. *)
Definition bounced (instance : Injector) (pod : Pod) : Pod :=
  overMeta (fun m => setAnnotations
    (<[bouncedKey (Name (inj_meta instance)) := ResourceVersion (inj_meta instance)]>
       (Annotations m)) m) pod.
Definition notBounced (instance : Injector) (pod : Pod) : Prop :=
  Annotations (pod_meta pod) !! bouncedKey (Name (inj_meta instance)) = None.

Section Properties.
Context {W : Type} `{KubeLib, SelectorLib, OwnerLib}.
Context `{Client W Injector, Client W Water, Client W Stone, Client W Pod, Lister W Pod}.
Notation T := (W * list InjectorCall)%type.

Notation touch instance err := (fun p => OnPod (UpdateRequest (bounced instance p)) err).

(** The pods not bounced yet are updated in order, until an update fails; owners do not
    matter. *)
Lemma bouncePods_emits instance0 instance pods :
  (exists refs, inj_meta instance = setOwnerReferences refs (inj_meta instance0)) ->
  emits (State := T) (bouncePods instance pods) (fun o cs =>
    let todo := filter (notBounced instance0) pods in
    (o = Ok (Next tt) /\ cs = touch instance0 None <$> todo)
    \/ (exists pre p post e, todo = pre ++ p :: post
         /\ cs = (touch instance0 None <$> pre) ++ [touch instance0 (Some e) p]
         /\ o = Ok (Return (None, Some e)))).
Proof.
  intros [refs Hmeta].
  assert (Hkey : bouncedKey (Name (inj_meta instance)) = bouncedKey (Name (inj_meta instance0)))
    by by rewrite Hmeta.
  assert (Hrv : ResourceVersion (inj_meta instance) = ResourceVersion (inj_meta instance0))
    by by rewrite Hmeta.
  induction pods as [|pod pods IH]; [apply emits_fret; by left|].
  cbn [bouncePods]. rewrite Hkey, Hrv. cbv zeta in *. rewrite filter_cons.
  destruct (decide (notBounced instance0 pod)) as [Hn|Hn].
  2: { unfold notBounced in Hn. destruct (Annotations (pod_meta pod) !! _) as [v|]; [|done].
       exact IH. }
  unfold notBounced in Hn. rewrite Hn. apply emits_fbind, emits_run, emits_inOut.
  intros [e|] p' w w' _; cbn [fst].
  - apply emits_return. right. by exists [], pod, (filter (notBounced instance0) pods), e.
  - eapply emits_mono; [exact IH|]. intros o cs [[-> ->]|(pre & p & post & e & -> & -> & ->)].
    + by left.
    + right. by exists (pod :: pre), p, post, e.
Qed.

(** What becomes of an injector when reading its owner, of a kind, gave [got]: it is tried
    again later when there is no owner; it is left as it is when it has owners already;
    else it gets that owner, which must be in its namespace. An owner that could not be
    read counts as an empty object. *)
Definition tied (kind : string) (got : Result ObjectMeta) (instance0 : Injector)
    (o : Flow Injector CtrlResult) : Prop :=
  let owner := match got with inr owner => owner | inl _ => metaNamed "" "" end in
  if decide (got = inl ErrNotFound) then o = Return (Some 5, None)
  else if decide (OwnerReferences (inj_meta instance0) <> []) then o = Next instance0
  else if decide (Namespace (inj_meta instance0) = Namespace owner) then
    exists instance,
      inj_Spec instance = inj_Spec instance0
      /\ inj_meta instance
         = setOwnerReferences (ownerReference owner kind) (inj_meta instance0)
      /\ o = match (SetControllerReference (inj_meta instance) owner).1 with
             | Some err => Return (None, Some err)
             | None => Next instance
             end
  else exists e, o = Return (None, Some e).

(** The owner is read under the key the injector names, if it is a water or a stone. *)
Definition tieCalls (instance0 : Injector) (o : Outcome (Flow Injector CtrlResult))
    (cs : list InjectorCall) : Prop :=
  let key := mkKey (inj_NameSpace (inj_Spec instance0)) (inj_Name (inj_Spec instance0)) in
  if decide (ResourceType (inj_Spec instance0) = "Water") then
    exists w flow, let got := (Get (A := Water) key (w : W)).1 in
      cs = [OnInjWater (GetRequest key) (errorOf got)]
      /\ o = Ok flow /\ tied "Water" (mapResult water_meta got) instance0 flow
  else if decide (ResourceType (inj_Spec instance0) = "Stone") then
    exists w flow, let got := (Get (A := Stone) key (w : W)).1 in
      cs = [OnInjStone (GetRequest key) (errorOf got)]
      /\ o = Ok flow /\ tied "Stone" (mapResult stone_meta got) instance0 flow
  else cs = [] /\ o = Ok (Next instance0).

Lemma tieTo_emits kind got instance0 :
  emits (State := T) (tieTo kind got instance0) (fun o cs =>
    cs = [] /\ exists flow, o = Ok flow /\ tied kind got instance0 flow).
Proof.
  unfold tied.
  assert (Howner : forall owner, emits (State := T) (tieOwner kind owner instance0) (fun o cs =>
    cs = [] /\ exists flow, o = Ok flow /\
      (if decide (OwnerReferences (inj_meta instance0) <> []) then flow = Next instance0
       else if decide (Namespace (inj_meta instance0) = Namespace owner) then
         exists instance, inj_Spec instance = inj_Spec instance0
           /\ inj_meta instance = setOwnerReferences (ownerReference owner kind) (inj_meta instance0)
           /\ flow = match (SetControllerReference (inj_meta instance) owner).1 with
                  | Some err => Return (None, Some err)
                  | None => Next instance
                  end
       else exists e, flow = Return (None, Some e)))).
  { intros owner. unfold tieOwner. case_decide as Hrefs.
    - assert (Hno : ~ OwnerReferences (inj_meta instance0) <> []) by (intros Hne; by apply Hne).
      case_decide as Hns.
      + apply emits_return. split; [done|]. eexists. split; [done|].
        rewrite decide_False, decide_False by done. by eexists.
      + cbv zeta. set (i := addOwner _ _).
        assert (Hi : inj_meta i = setOwnerReferences (ownerReference owner kind) (inj_meta instance0)).
        { unfold i, addOwner. cbn. by rewrite Hrefs. }
        destruct (SetControllerReference (inj_meta i) owner).1 as [err|] eqn:E;
          [apply emits_return|apply emits_fret]; (split; [done|]); eexists; (split; [done|]);
          (rewrite decide_False, decide_True by done); exists i; by rewrite E.
    - apply emits_fret. split; [done|]. eexists. split; [done|]. by rewrite decide_True. }
  unfold tieTo. destruct got as [e|owner].
  - destruct (IsNotFound e) eqn:Ee.
    + apply bool_decide_eq_true in Ee as ->. apply emits_return. split; [done|].
      eexists. split; [done|]. by rewrite decide_True.
    + apply bool_decide_eq_false in Ee. eapply emits_mono; [apply Howner|].
      intros o cs (-> & flow & -> & Hf). split; [done|]. exists flow.
      by rewrite (decide_False (P := inl e = _)) by congruence.
  - eapply emits_mono; [apply Howner|].
    intros o cs (-> & flow & -> & Hf). split; [done|]. exists flow.
    by rewrite (decide_False (P := inr owner = _)).
Qed.

Lemma tieInstance_emits instance0 :
  emits (State := T) (tieInstance instance0) (tieCalls instance0).
Proof.
  unfold tieInstance, tieCalls. case_decide; [|case_decide; [|by apply emits_fret]];
    apply emits_fbind, emits_run, emits_Get_from; intros r w ->; (eapply emits_mono; [apply tieTo_emits|]);
    intros o cs [-> (flow & Ho & Ht)]; by exists w, flow.
Qed.

(** The calls of a reconcile that was answered [r] when it read the injector. *)
Definition injectorCalls (req : ObjectKey) (r : Result Injector) (o : Outcome CtrlResult)
    (cs : list InjectorCall) : Prop :=
  exists rest, cs = OnInjector (GetRequest req) (errorOf r) :: rest
  /\ match r with
     | inl e => rest = [] /\ o = Ok (None, if IsNotFound e then None else Some e)
     | inr instance0 =>
         if decide (inj_Name (inj_Spec instance0) = "")
         then rest = [] /\ exists e, o = Ok (None, Some e)
         else exists tie reading after, rest = reading ++ after /\ tieCalls instance0 (Ok tie) reading
           /\ match tie with
              | Return res => after = [] /\ o = Ok res
              | Next instance =>
                  let selector := Some (inj_Selector (inj_Spec instance0)) in
                  match LabelSelectorAsSelector selector with
                  | Some e => after = [] /\ o = Ok (None, Some e)
                  | None => exists answer bouncing writing,
                      after = OnPods (Namespace (inj_meta instance0)) selector answer :: bouncing ++ writing
                      /\ match answer with
                         | inl e => bouncing = [] /\ writing = [] /\ o = Ok (None, Some e)
                         | inr pods =>
                             let todo := filter (notBounced instance0) pods in
                             let touch p err := OnPod (UpdateRequest (bounced instance0 p)) err in
                             (exists err, bouncing = (fun p => touch p None) <$> todo
                                /\ writing = [OnInjector (UpdateRequest instance) err]
                                /\ o = Ok (None, err))
                             \/ (exists pre p post e, todo = pre ++ p :: post
                                  /\ bouncing = ((fun p => touch p None) <$> pre) ++ [touch p (Some e)]
                                  /\ writing = [] /\ o = Ok (None, Some e))
                         end
                  end
              end
     end.

(** The tie changes nothing of an injector but its owners. *)
Lemma tied_same kind got instance0 instance :
  tied kind got instance0 (Next instance) ->
  inj_Spec instance = inj_Spec instance0
  /\ exists refs, inj_meta instance = setOwnerReferences refs (inj_meta instance0).
Proof.
  unfold tied. repeat case_decide; [done|..].
  - intros [= ->]. split; [done|]. exists (OwnerReferences (inj_meta instance0)).
    by destruct (inj_meta instance0).
  - intros (i & Hs & Hm & Hi). destruct (SetControllerReference _ _).1; [done|]. injection Hi as <-.
    split; [done|]. by eexists.
  - by intros [e [=]].
Qed.
Lemma tieCalls_same instance0 instance cs :
  tieCalls instance0 (Ok (Next instance)) cs ->
  inj_Spec instance = inj_Spec instance0
  /\ exists refs, inj_meta instance = setOwnerReferences refs (inj_meta instance0).
Proof.
  unfold tieCalls. repeat case_decide.
  - intros (w & flow & _ & [= <-] & Ht). by eapply tied_same.
  - intros (w & flow & _ & [= <-] & Ht). by eapply tied_same.
  - intros [_ [= ->]]. split; [done|]. exists (OwnerReferences (inj_meta instance0)).
    by destruct (inj_meta instance0).
Qed.
Lemma tieCalls_ok instance0 o cs : tieCalls instance0 o cs -> exists flow, o = Ok flow.
Proof. unfold tieCalls. repeat case_decide; naive_solver. Qed.

(** C35: The calls of a reconcile of an injector, for each answer to its first read. When that
    fails it does nothing more, and is successful if there is no such injector; one that
    names no owner is an error. Otherwise its owner, a water or a stone, is read under the
    key it names; without that the reconcile is tried again, and an injector that has no
    owner gets this one, unless they are in different namespaces; a malformed selector is an
    error. Then the pods of the
    injector's namespace that its selector selects are listed; exactly those among them that
    do not carry the mark yet are updated with it, in order, until one fails; and after all
    of them the injector is written as it was tied, and the error of that is returned. *)
Theorem injector_Reconcile_calls req r :
  emitsIn (State := T) (fun w => (Get (A := Injector) req w.1).1 = r) (injector_Reconcile req)
    (injectorCalls req r).
Proof.
  unfold injector_Reconcile. apply emitsIn_body, emitsIn_fGet. destruct r as [e|instance0].
  { destruct (IsNotFound e) eqn:Ee; apply emits_fret; exists []; by rewrite Ee. }
  destruct (decide (inj_Name (inj_Spec instance0) = "")) as [Hn|Hn].
  { apply emits_fret. exists []. split; [done|]. rewrite decide_True by done. eauto. }
  apply emits_fbind. eapply emits_mono; [apply tieInstance_emits|]. intros o reading Ht.
  destruct (tieCalls_ok _ _ _ Ht) as [flow ->].
  assert (Hend : forall o after,
    match flow with
    | Return res => after = [] /\ o = Ok res
    | Next instance =>
        let selector := Some (inj_Selector (inj_Spec instance0)) in
        match LabelSelectorAsSelector selector with
        | Some e => after = [] /\ o = Ok (None, Some e)
        | None => exists answer bouncing writing,
            after = OnPods (Namespace (inj_meta instance0)) selector answer :: bouncing ++ writing
            /\ match answer with
               | inl e => bouncing = [] /\ writing = [] /\ o = Ok (None, Some e)
               | inr pods =>
                   let todo := filter (notBounced instance0) pods in
                   let touch p err := OnPod (UpdateRequest (bounced instance0 p)) err in
                   (exists err, bouncing = (fun p => touch p None) <$> todo
                      /\ writing = [OnInjector (UpdateRequest instance) err]
                      /\ o = Ok (None, err))
                   \/ (exists pre p post e, todo = pre ++ p :: post
                        /\ bouncing = ((fun p => touch p None) <$> pre) ++ [touch p (Some e)]
                        /\ writing = [] /\ o = Ok (None, Some e))
               end
        end
    end -> injectorCalls req (inr instance0) o
             (OnInjector (GetRequest req) None :: reading ++ after)).
  { intros o after Ho. exists (reading ++ after). split; [done|]. cbv iota beta.
    rewrite decide_False by done. by exists flow, reading, after. }
  destruct flow as [instance|res]; [|rewrite <-(app_nil_r reading); by apply Hend].
  destruct (tieCalls_same _ _ _ Ht) as [Hspec [refs Hmeta]]. rewrite Hspec.
  assert (Hns : Namespace (inj_meta instance) = Namespace (inj_meta instance0)) by by rewrite Hmeta.
  cbv zeta in Hend. destruct (LabelSelectorAsSelector _) as [e|]; [by apply emits_fret, Hend|].
  apply emits_fbind, emits_run. intros [w log]. unfold call. cbn. rewrite Hns.
  destruct (List_ (Namespace (inj_meta instance0)) _ w) as [answer w']. eexists.
  split; [reflexivity|].
  destruct answer as [e|pods]; [apply emits_fret, Hend; by exists (inl e), [], []|].
  apply emits_fbind. eapply emits_mono; [apply (bouncePods_emits instance0); by exists refs|].
  intros o bouncing [[-> ->]|(pre & p & post & e & Etodo & -> & ->)].
  - apply emits_fbind, emits_run, emits_inOut. intros err i' w1 w2 _.
    apply emits_fret. rewrite app_nil_r. apply Hend.
    exists (inr pods), (touch instance0 None <$> filter (notBounced instance0) pods),
      [OnInjector (UpdateRequest instance) err].
    split; [reflexivity|]. left. exists err. split_and!; [done..|]. by destruct err.
  - rewrite <-(app_nil_r (_ ++ [_])). apply Hend. eexists (inr pods), _, []. split; [reflexivity|].
    right. by exists pre, p, post, e.
Qed.
End Properties.

(** ** Witness: a server with injectors, waters, stones and pods *)

Notation fx_injServer := (list Injector * (list Water * (list Stone * list Pod)))%type.
#[local] Instance fx_injectors : Client fx_injServer Injector := onFst (fx_objects inj_meta).
#[local] Instance fx_injWaters : Client fx_injServer Water := onSnd (onFst (fx_objects water_meta)).
#[local] Instance fx_injStones : Client fx_injServer Stone :=
  onSnd (onSnd (onFst (fx_objects stone_meta))).
#[local] Instance fx_injPods : Client fx_injServer Pod := onSnd (onSnd (onSnd (fx_objects pod_meta))).
#[local] Instance fx_injPodList : Lister fx_injServer Pod := {|
  List_ ns selector w :=
    (inr (filter (fun p => Namespace (pod_meta p) = ns
                           /\ Cluster.Matches selector (Labels (pod_meta p)) = true) w.2.2.2), w);
|}.
#[local] Instance fx_injOwners : OwnerLib := {| SetControllerReference o m := (None, m) |}.

(** An injector of the water [shop] for the pods with [app = shop]; one pod is marked. *)
Definition fx_injector : Injector :=
  mkInjector (metaNamed "default" "log")
    (mkInjectorSpec None None "Water" "default" "shop" None (mkLabelSelector {["app" := "shop"]} "")).
Definition fx_injPod (name app : string) (marked : bool) : Pod :=
  mkPod (setAnnotations (if marked then {[bouncedKey "log" := ""]} else ∅)
           (setLabels {["app" := app]} (metaNamed "default" name)))
    fx_podSpec (fx_podStatus "Running" true).
Definition fx_injWorld : fx_injServer :=
  ([fx_injector], ([fx_water Beta fx_zones false], ([],
    [fx_injPod "a" "shop" false; fx_injPod "b" "cart" false; fx_injPod "c" "shop" true]))).
Definition fx_injRun : Outcome CtrlResult * (fx_injServer * list InjectorCall) :=
  (injector_Reconcile (mkKey "default" "log") : M (fx_injServer * list InjectorCall) _) (fx_injWorld, []).

Example calls_of_injector :
  match fx_injRun.2.2 with
  | [OnInjector (GetRequest _) None; OnInjWater (GetRequest _) None;
     OnPods "default" _ (inr [_; _]); OnPod (UpdateRequest p) None; OnInjector (UpdateRequest i) None] =>
      Name (pod_meta p) = "a" /\ length (OwnerReferences (inj_meta i)) = 1%nat
  | _ => False
  end.
Proof. vm_compute. by split. Qed.

Lemma injector_Reconcile_calls_witness :
  exists cs, fx_injRun.2.2 = [] ++ cs
    /\ injectorCalls (W := fx_injServer) (mkKey "default" "log") (inr fx_injector) (Ok (None, None)) cs.
Proof.
  destruct (injector_Reconcile_calls (W := fx_injServer) (mkKey "default" "log") (inr fx_injector)
              (fx_injWorld, [])) as (cs & E & HQ); [vm_compute; reflexivity|].
  exists cs. split; [exact E|exact HQ].
Defined.
