(* ===== verification/Webhook.v ===== *)
(** The admission webhook ([api/v1/webhook.go]): pods get the containers and volumes of
    the injector that selects them, and workloads of a namespace with placement limits
    get a node affinity. *)

From S2P Require Import Prelude Objects GoString Libraries Coordinate Fixtures Cluster CallLog.
From S2P Require Import Workloads Stone Water Injector.

(** ** Admission reviews *)

Record GroupVersionResource := mkGvr {
  gvr_Group : string;
  gvr_Version : string;
  gvr_Resource : string;
}.
#[export] Instance GroupVersionResource_eq_dec : EqDecision GroupVersionResource.
Proof. solve_decision. Defined.

Record AdmissionRequest := mkRequest {
  areq_UID : string;
  areq_Kind : string;
  areq_Resource : GroupVersionResource;
  areq_Namespace : string;
  areq_Raw : string;
}.
Record AdmissionResponse := mkResponse {
  resp_UID : string;
  Allowed : bool;
  (** the message of a [Result] status *)
  Message : option string;
  PatchBytes : option string;
  PatchType : option string;
}.
Record AdmissionReview := mkReview {
  review_Request : option AdmissionRequest;
  review_Response : option AdmissionResponse;
  APIVersion : string;
  review_Kind : string;
}.

(** A workload, of one of the six kinds handled: the template is a pointer in a
    ReplicationController. *)
Record WorkloadObject := mkWorkloadObject {
  wl_Kind : string;
  wl_meta : ObjectMeta;
  (** the [Spec.Affinity] of the pod template; [None] for a nil template *)
  wl_Affinity : option (option AffinityT);
  wl_rest : string;
}.
Definition setWorkloadAffinity (a : option AffinityT) (o : WorkloadObject) : WorkloadObject :=
  mkWorkloadObject (wl_Kind o) (wl_meta o) (Some a) (wl_rest o).

(** ** Library functions *)

(** The deserializer, [encoding/json], and [gomodules.xyz/jsonpatch]. A review that does
    not decode is left as far as it was filled in. *)
Class WebhookLib := {
  decodeReview : string -> option Err * AdmissionReview;
  decodePod : string -> Result Pod;
  decodeWorkload : string -> string -> Result WorkloadObject;
  marshalPod : Pod -> Result string;
  marshalWorkload : WorkloadObject -> Result string;
  CreateJsonPatch : string -> string -> Result string;
  (** [json.Unmarshal] into a list of coordinates *)
  unmarshalCoordinates : string -> Result Coordinates;
}.

(** [rand.Read] of [crypto/rand] on a buffer of the given size. *)
Class RandReader (W : Type) := { rand_Read : Z -> W -> Result (list Z) * W }.
(** It fills the whole buffer or fails. *)
Class RandReaderLaws (W : Type) `{RandReader W} :=
  rand_fills n w b w' : 0 <= n -> rand_Read n w = (inr b, w') ->
    Z.of_nat (length b) = n /\ Forall (fun x => 0 <= x < 256) b.

(** [%x] *)
Definition hexDigit (d : Z) : ascii := ascii_of_N (Z.to_N (if decide (d < 10) then 48 + d else 87 + d)).
Definition hexString (b : list Z) : string :=
  foldr (fun x s => String (hexDigit (x / 16)) (String (hexDigit (x mod 16)) s)) "" b.

(** Eight random bytes in hexadecimal. *)
Definition random {W} `{RandReader W} (w : W) : (string * option Err) * W :=
  match rand_Read 8 w with
  | (inl err, w) => (("", Some err), w)
  | (inr b, w) => ((hexString b, None), w)
  end.

(** A namespace, by its metadata. *)
Record NamespaceT := mkNamespace { ns_meta : ObjectMeta }.

(** ** Helpers *)

Definition ingoredList : list string := ["kube-system"; "default"; "kube-public"].
Definition podGvr : GroupVersionResource := mkGvr "" "v1" "pods".
Definition MirrorPodAnnotationKey : string := "kubernetes.io/config.mirror".
Definition PatchTypeJSONPatch : string := "JSONPatch".

Definition ignoredRequired (namespace : string) : bool :=
  negb (existsb (fun ignoreNamespace => bool_decide (namespace = ignoreNamespace)) ingoredList).

(** The elements that do not occur again later. *)
Fixpoint removeRepeatedElement (arr : list string) : list string :=
  match arr with
  | [] => []
  | a :: rest =>
      let repeat := existsb (fun b => bool_decide (a = b)) rest in
      if repeat then removeRepeatedElement rest else a :: removeRepeatedElement rest
  end.

Definition convertToNodeSelectorAffinity (coordinates : Coordinates) : NodeAffinity :=
  let zones := Zone <$> coordinates in
  let racks := Rack <$> coordinates in
  let hosts := Host <$> coordinates in
  mkNodeAffinity
    (Some [mkTerm [mkRequirement NuwaZoneFlag NodeSelectorOpIn (removeRepeatedElement zones);
                   mkRequirement NuwaRackFlag NodeSelectorOpIn racks] []])
    [mkPreferred 100 (mkTerm [mkRequirement NuwaHostFlag NodeSelectorOpIn hosts] [])].

Section Webhook.
Context {W : Type} `{WebhookLib, ErrorText, RandReader W, SelectorLib, SelectorMatch}.
Context `{Client W NamespaceT, Lister W Injector}.

Definition toAdmissionResponse (err : Err) : AdmissionResponse :=
  mkResponse "" false (Some (errorText err)) None None.
Definition allowedResponse : AdmissionResponse := mkResponse "" true None None None.
Definition patchResponse (patch : string) : AdmissionResponse :=
  mkResponse "" true None (Some patch) (Some PatchTypeJSONPatch).

(** ** Placement limits of a namespace *)

(** The cases of the type switch differ only in where the template is. *)
Definition updateNamespaceForResourceLimitRange (namespaceName : string) (obj : WorkloadObject)
  : M W (option Err * WorkloadObject) :=
  got ← call (Get (A := NamespaceT) (mkKey "" namespaceName));
  match got with
  | inl err => mret (Some err, obj)
  | inr namespace =>
      match Annotations (ns_meta namespace) !! NuwaLimitFlag with
      | None => mret (None, obj)
      | Some limitContent =>
          match unmarshalCoordinates limitContent with
          | inl err => mret (Some err, obj)
          | inr coordinates =>
              affinity ← lift (deref (wl_Affinity obj));
              match affinity with
              | None =>
                  mret (None, setWorkloadAffinity
                    (Some (mkAffinity (Some (convertToNodeSelectorAffinity coordinates)) "")) obj)
              | Some _ => mret (None, obj)
              end
          end
      end
  end.

Definition workloadKinds : list string :=
  ["Deployment"; "StatefulSet"; "ReplicationController"; "ReplicaSet"; "Job"; "CronJob"].

(** The response is a pointer; an owned object gets the review's own, normally nil. *)
Definition namespaceMutateResource (ar : AdmissionReview) : M W (option AdmissionResponse) :=
  request ← lift (deref (review_Request ar));
  if decide (areq_Kind request ∈ workloadKinds) then
    match decodeWorkload (areq_Kind request) (areq_Raw request) with
    | inl err => mret (Some (toAdmissionResponse err))
    | inr srcObject =>
        if decide (OwnerReferences (wl_meta srcObject) <> []) then mret (review_Response ar)
        else
          res ← updateNamespaceForResourceLimitRange (areq_Namespace request) srcObject;
          let '(err, destObject) := res in
          match err with
          | Some e => mret (Some (toAdmissionResponse e))
          | None =>
              match marshalWorkload srcObject, marshalWorkload destObject with
              | inl e, _ | _, inl e => mret (Some (toAdmissionResponse e))
              | inr srcJSON, inr destJSON =>
                  match CreateJsonPatch srcJSON destJSON with
                  | inl e => mret (Some (toAdmissionResponse e))
                  | inr patch => mret (Some (patchResponse patch))
                  end
              end
          end
    end
  else mret (review_Response ar).

(** ** Injection into pods *)

(** The injectors whose selector matches the pod. *)
Fixpoint filterInjectorPod (items : list Injector) (pod : Pod) : Result (list Injector) :=
  match items with
  | [] => inr []
  | sp :: rest =>
      match LabelSelectorAsSelector (Some (inj_Selector (inj_Spec sp))) with
      | Some err => inl (ErrMsg ("label selector conversion failed: " +:+ errorText err))
      | None =>
          match filterInjectorPod rest pod with
          | inl err => inl err
          | inr matching =>
              inr (if Matches (inj_Selector (inj_Spec sp)) (Labels (pod_meta pod))
                   then sp :: matching else matching)
          end
      end
  end.

Definition setContainerName (n : string) (c : Container) : Container :=
  mkContainer n (ctr_Image c) (ctr_rest c).

(** A container named like the pod's gets a random suffix. *)
Definition renameClash (podContainer matching : Container) : M W Container :=
  if decide (ctr_Name podContainer = ctr_Name matching) then
    uid ← call random;
    mret (setContainerName (ctr_Name matching +:+ "-" +:+ uid.1) matching)
  else mret matching.

Fixpoint injectFor (podContainer : Container) (injected : list Container) : M W (list Container) :=
  match injected with
  | [] => mret []
  | matching :: rest =>
      c ← renameClash podContainer matching;
      cs ← injectFor podContainer rest;
      mret (c :: cs)
  end.

(** For every container of the pod, every container to inject. *)
Fixpoint injectContainers (podContainers injected : list Container) : M W (list Container) :=
  match podContainers with
  | [] => mret []
  | pc :: rest =>
      cs ← injectFor pc injected;
      more ← injectContainers rest injected;
      mret (cs ++ more)
  end.

Definition mutateContainers (spec : InjectorSpec) (containers : list Container)
  : M W (list Container) :=
  match PreContainers spec, PostContainers spec with
  | Some pre, None => pres ← injectContainers containers pre; mret (pres ++ containers)
  | None, Some post => posts ← injectContainers containers post; mret (containers ++ posts)
  | Some pre, Some post =>
      pres ← injectContainers containers pre;
      posts ← injectContainers containers post;
      mret ((pres ++ containers) ++ posts)
  | None, None => mret containers
  end.

(** [var volumes]; [append] of nothing to a nil slice is nil. *)
Definition mutateVolumes (spec : InjectorSpec) (podVolumes : slice Volume) : slice Volume :=
  match inj_Volumes spec with
  | None => None
  | Some injected =>
      let volumes :=
        match podVolumes with
        | Some vs => mjoin ((fun v => filter (fun i => vol_Name v <> vol_Name i) injected) <$> vs)
        | None => injected
        end in
      match volumes with [] => None | _ => Some volumes end
  end.

Definition injectPod (spec : InjectorSpec) (pod : Pod) : M W Pod :=
  containers ← mutateContainers spec (Containers (pod_Spec pod));
  mret (overSpec (fun s => setVolumes (mutateVolumes spec (Volumes s)) (setContainers containers s))
          pod).

Definition injectorMutatePods (ar : AdmissionReview) : M W AdmissionResponse :=
  request ← lift (deref (review_Request ar));
  if decide (areq_Resource request <> podGvr)
  then mret (toAdmissionResponse (ErrMsg "expect resource to be pods"))
  else
    match decodePod (areq_Raw request) with
    | inl err => mret (toAdmissionResponse err)
    | inr pod =>
        if negb (ignoredRequired (areq_Namespace request)) then mret allowedResponse
        else if decide (is_Some (Annotations (pod_meta pod) !! MirrorPodAnnotationKey))
        then mret allowedResponse
        else
          listed ← call (List_ (A := Injector) (Namespace (pod_meta pod)) None);
          match listed with
          | inl err => mret (toAdmissionResponse err)
          | inr [] => mret allowedResponse
          | inr items =>
              match filterInjectorPod items pod with
              | inl err => mret (toAdmissionResponse err)
              | inr [] => mret allowedResponse
              | inr (first :: _) =>
                  podCopy ← injectPod (inj_Spec first) pod;
                  match marshalPod podCopy, marshalPod pod with
                  | inl err, _ | _, inl err => mret (toAdmissionResponse err)
                  | inr podCopyJSON, inr podJSON =>
                      match CreateJsonPatch podJSON podCopyJSON with
                      | inl err => mret (toAdmissionResponse err)
                      | inr patch => mret (patchResponse patch)
                      end
                  end
              end
          end
    end.

(** ** The HTTP handler *)

(** A request: its body ([None] for nil) and how reading it went, and its content type. *)
Record HttpRequest := mkHttp {
  Body : option (Result string);
  ContentType : string;
}.

(** The review written back, [None] when nothing is written. *)
Definition serve (r : HttpRequest) (admitFunc : AdmissionReview -> M W (option AdmissionResponse))
  : M W (option AdmissionReview) :=
  read ← lift (deref (Body r));
  let body := match read with inr data => data | inl _ => "" end in
  if decide (ContentType r <> "application/json") then mret None
  else
    let '(err, ar) := decodeReview body in
    reviewResponse ← match err with
                     | Some e => mret (Some (toAdmissionResponse e))
                     | None => admitFunc ar
                     end;
    response ← match reviewResponse with
               | None => mret None
               | Some resp =>
                   request ← lift (deref (review_Request ar));
                   mret (Some (mkResponse (areq_UID request) (Allowed resp) (Message resp)
                                 (PatchBytes resp) (PatchType resp)))
               end;
    mret (Some (mkReview None response "admission.k8s.io/v1" "AdmissionReview")).

Definition ServeInjectorMutatePods (r : HttpRequest) : M W (option AdmissionReview) :=
  serve r (fun ar => resp ← injectorMutatePods ar; mret (Some resp)).
Definition ServeNamespaceMutateResource (r : HttpRequest) : M W (option AdmissionReview) :=
  serve r namespaceMutateResource.
End Webhook.

(** ** Helpers: what they compute *)

Lemma removeRepeatedElement_elem x arr : x ∈ removeRepeatedElement arr <-> x ∈ arr.
Proof.
  induction arr as [|a arr IH]; [done|]. cbn [removeRepeatedElement].
  destruct (existsb _ arr) eqn:E; rewrite elem_of_cons.
  - rewrite IH. split; [by right|]. intros [->|?]; [|done].
    apply existsb_exists in E as (b & Hb%list_elem_of_In & ->%bool_decide_eq_true). done.
  - by rewrite elem_of_cons, IH.
Qed.

(** Removing repetitions keeps exactly one copy of every element. *)
Theorem removeRepeatedElement_set arr :
  NoDup (removeRepeatedElement arr)
  /\ forall x, x ∈ removeRepeatedElement arr <-> x ∈ arr.
Proof.
  split; [|intros x; apply removeRepeatedElement_elem].
  induction arr as [|a arr IH]; [constructor|]. cbn [removeRepeatedElement].
  destruct (existsb _ arr) eqn:E; [done|]. apply list.NoDup_cons. split; [|done].
  rewrite removeRepeatedElement_elem. intros Hin.
  assert (existsb (fun b => bool_decide (a = b)) arr = true) as Ht; [|congruence].
  apply existsb_exists. exists a. split; [by apply list_elem_of_In|by apply bool_decide_eq_true].
Qed.

(** The affinity of a namespace's limits admits the nodes whose zone is the zone of some
    coordinate and whose rack is the rack of some coordinate, not necessarily of the
    same one; it prefers, with weight 100, the nodes named by some coordinate. So every
    node at a listed position is admitted, and so are mixed positions. *)
Theorem convertToNodeSelectorAffinity_product cs node :
  (admitted node (convertToNodeSelectorAffinity cs) = true
   <-> (exists c, c ∈ cs /\ node !! NuwaZoneFlag = Some (Zone c))
       /\ (exists c, c ∈ cs /\ node !! NuwaRackFlag = Some (Rack c)))
  /\ (preferenceScore node (convertToNodeSelectorAffinity cs) = 100
      <-> exists c, c ∈ cs /\ node !! NuwaHostFlag = Some (Host c)).
Proof.
  assert (Hfmap : forall (f : Coordinate -> string) o,
    (exists v, o = Some v /\ v ∈ f <$> cs) <-> exists c, c ∈ cs /\ o = Some (f c)).
  { intros f o. setoid_rewrite list_elem_of_fmap. naive_solver. }
  split.
  - unfold admitted, termMatches. cbn [Required convertToNodeSelectorAffinity existsb forallb MatchExpressions].
    rewrite orb_false_r, andb_true_r, andb_true_iff, !requirementMatches_In, <-!Hfmap.
    by setoid_rewrite removeRepeatedElement_elem.
  - unfold preferenceScore, termMatches. cbn [Preferred convertToNodeSelectorAffinity foldr pref_Weight
      Preference MatchExpressions forallb].
    rewrite andb_true_r, <-Hfmap, <-requirementMatches_In.
    destruct (requirementMatches _ _); split; done.
Qed.

Section Properties.
Context {W : Type} `{WebhookLib, ErrorText, RandReaderLaws W, SelectorLib, SelectorMatch}.
Context `{Client W NamespaceT, Lister W Injector}.
Implicit Types w : W.

(** ** Containers *)

(** Sixteen hexadecimal digits, or nothing when no randomness was to be had. *)
Definition suffix (uid : string) : Prop :=
  uid = "" \/ (String.length uid = 16%nat
              /\ forall c, c ∈ String.list_ascii_of_string uid ->
                   exists d, 0 <= d < 16 /\ c = hexDigit d).

Lemma hexString_digits b :
  Forall (fun x => 0 <= x < 256) b ->
  String.length (hexString b) = (2 * length b)%nat
  /\ forall c, c ∈ String.list_ascii_of_string (hexString b) ->
       exists d, 0 <= d < 16 /\ c = hexDigit d.
Proof.
  induction 1 as [|x b Hx _ [IHl IHc]]; [split; [done|intros c Hc; by apply elem_of_nil in Hc]|].
  split; [change (S (S (String.length (hexString b))) = (2 * S (length b))%nat); lia|].
  intros c. change (String.list_ascii_of_string _) with
    (hexDigit (x / 16) :: hexDigit (x mod 16) :: String.list_ascii_of_string (hexString b)).
  rewrite !elem_of_cons. intros [->|[->|Hc]]; [..|by apply IHc].
  - exists (x / 16). split; [|done]. split; [apply Z.div_pos; lia|apply Z.div_lt_upper_bound; lia].
  - exists (x mod 16). split; [apply Z.mod_pos_bound; lia|done].
Qed.

Lemma random_suffix w : suffix (random w).1.1.
Proof.
  unfold random. destruct (rand_Read 8 w) as [[e|b] w'] eqn:E; [by left|].
  apply rand_fills in E as [Hl Hb]; [|done]. right. cbn [fst].
  destruct (hexString_digits b Hb) as [Hlen Hd]. split; [lia|done].
Qed.

(** An injected container, next to which container of the pod: as it is, or with a
    suffix when the names clash. *)
Definition injectedAs (pair : Container * Container) (c : Container) : Prop :=
  c = pair.2
  \/ (ctr_Name pair.1 = ctr_Name pair.2
      /\ exists uid, suffix uid /\ c = setContainerName (ctr_Name pair.2 +:+ "-" +:+ uid) pair.2).

Lemma injectFor_spec pc injected w :
  holds (injectFor pc injected) w (fun o _ => exists cs, o = Ok cs
    /\ Forall2 injectedAs (pair pc <$> injected) cs).
Proof.
  revert w. induction injected as [|c injected IH]; intros w.
  { apply holds_ret. by exists []. }
  cbn [injectFor]. apply holds_bind. unfold renameClash. case_decide as Hn.
  - apply holds_bind, holds_call. pose proof (random_suffix w) as Hsuf.
    destruct (random w) as [uid w1]. cbn [fst snd] in *. apply holds_ret, holds_bind. eapply holds_mono; [apply IH|]. intros o w2 (cs & -> & Hcs).
    apply holds_ret. eexists. split; [done|]. constructor; [|done]. right. split; [done|].
    by exists uid.1.
  - apply holds_ret, holds_bind. eapply holds_mono; [apply IH|]. intros o w2 (cs & -> & Hcs).
    apply holds_ret. eexists. split; [done|]. constructor; [by left|done].
Qed.

Lemma injectContainers_spec containers injected w :
  holds (injectContainers containers injected) w (fun o _ => exists cs, o = Ok cs
    /\ Forall2 injectedAs (list_prod containers injected) cs).
Proof.
  revert w. induction containers as [|pc containers IH]; intros w.
  { apply holds_ret. by exists []. }
  cbn [injectContainers list_prod]. apply holds_bind. eapply holds_mono; [apply injectFor_spec|].
  intros o w1 (cs & -> & Hcs). apply holds_bind. eapply holds_mono; [apply IH|].
  intros o w2 (more & -> & Hmore). apply holds_ret. eexists. split; [done|].
  by apply Forall2_app.
Qed.

(** The containers of an injected pod: its own, in order and unchanged, preceded and
    followed by the injected ones, of which there is a copy per container of the pod,
    renamed where it has that container's name. *)
Lemma mutateContainers_spec spec containers w :
  holds (mutateContainers spec containers) w (fun o _ => exists pres posts,
    o = Ok (pres ++ containers ++ posts)
    /\ Forall2 injectedAs (list_prod containers (elems (PreContainers spec))) pres
    /\ Forall2 injectedAs (list_prod containers (elems (PostContainers spec))) posts).
Proof.
  assert (Hnil : Forall2 injectedAs (list_prod containers []) []).
  { induction containers; [constructor|done]. }
  unfold mutateContainers. destruct (PreContainers spec) as [pre|], (PostContainers spec) as [post|];
    cbn [elems default].
  - apply holds_bind. eapply holds_mono; [apply injectContainers_spec|].
    intros o w1 (pres & -> & Hpres). apply holds_bind. eapply holds_mono; [apply injectContainers_spec|].
    intros o w2 (posts & -> & Hposts). apply holds_ret. exists pres, posts. by rewrite app_assoc.
  - apply holds_bind. eapply holds_mono; [apply injectContainers_spec|].
    intros o w1 (pres & -> & Hpres). apply holds_ret. exists pres, []. by rewrite app_nil_r.
  - apply holds_bind. eapply holds_mono; [apply injectContainers_spec|].
    intros o w1 (posts & -> & Hposts). apply holds_ret. by exists [], posts.
  - apply holds_ret. exists [], []. by rewrite app_nil_r.
Qed.

(** ** Volumes *)

(** The volumes of an injected pod are the injector's: a volume the pod had is dropped,
    whatever its name, and an injector without volumes leaves the pod with none. *)
Theorem mutateVolumes_drops spec podVolumes :
  (forall v, v ∈ elems (mutateVolumes spec podVolumes) -> v ∈ elems (inj_Volumes spec))
  /\ (inj_Volumes spec = None -> mutateVolumes spec podVolumes = None)
  /\ (podVolumes = None -> forall v, v ∈ elems (inj_Volumes spec) ->
        v ∈ elems (mutateVolumes spec podVolumes)).
Proof.
  unfold mutateVolumes. destruct (inj_Volumes spec) as [injected|]; [|by split_and!].
  set (volumes := match podVolumes with Some _ => _ | None => _ end).
  assert (Hel : elems (match volumes with [] => None | _ => Some volumes end) = volumes)
    by by destruct volumes.
  rewrite Hel. split_and!; [|done|by intros -> v].
  intros v. subst volumes. destruct podVolumes as [vs|]; [|done].
  rewrite list_elem_of_join. setoid_rewrite list_elem_of_fmap.
  intros (l & Hv & u & -> & _). by apply list_elem_of_filter in Hv as [_ ?].
Qed.

(** ** Responses *)

Lemma filterInjectorPod_spec items pod matching :
  filterInjectorPod items pod = inr matching ->
  matching = filter (fun i => Matches (inj_Selector (inj_Spec i)) (Labels (pod_meta pod)) = true) items.
Proof.
  revert matching. induction items as [|sp items IH]; intros matching; [by intros [= <-]|].
  cbn [filterInjectorPod]. rewrite filter_cons. destruct (LabelSelectorAsSelector _); [done|].
  destruct (filterInjectorPod items pod) as [e|rest]; [done|]. intros [= <-].
  specialize (IH rest eq_refl). destruct (Matches _ _) eqn:E.
  - by rewrite decide_True, IH.
  - by rewrite decide_False, IH.
Qed.

(** The injectors listed in the pod's namespace whose selector matches the pod, in the
    order of the list. *)
Definition selected (w : W) (pod : Pod) (matching : list Injector) : Prop :=
  exists items, (List_ (A := Injector) (Namespace (pod_meta pod)) None w).1 = inr items
    /\ matching
       = filter (fun i => Matches (inj_Selector (inj_Spec i)) (Labels (pod_meta pod)) = true) items.

(** A pod the webhook looks at: not of a system namespace, and not a mirror pod. *)
Definition injectable (request : AdmissionRequest) (pod : Pod) : Prop :=
  (areq_Namespace request ∉ ingoredList)
  /\ Annotations (pod_meta pod) !! MirrorPodAnnotationKey = None.

(** How a pod may be changed: into itself with the containers and volumes of the first
    injector that selects it. *)
Definition injectedPod (w : W) (request : AdmissionRequest) (pod podCopy : Pod) : Prop :=
  injectable request pod
  /\ exists first rest pres posts,
       selected w pod (first :: rest)
       /\ podCopy = overSpec (fun s => setVolumes (mutateVolumes (inj_Spec first) (Volumes s))
            (setContainers (pres ++ Containers (pod_Spec pod) ++ posts) s)) pod
       /\ Forall2 injectedAs (list_prod (Containers (pod_Spec pod))
                                (elems (PreContainers (inj_Spec first)))) pres
       /\ Forall2 injectedAs (list_prod (Containers (pod_Spec pod))
                                (elems (PostContainers (inj_Spec first)))) posts.

(** Why a pod is refused: the request is about something else, or a step fails. *)
Inductive podRefused (w : W) (request : AdmissionRequest) : Err -> Prop :=
  | NotPods : areq_Resource request <> podGvr ->
      podRefused w request (ErrMsg "expect resource to be pods")
  | PodUndecoded err : decodePod (areq_Raw request) = inl err -> podRefused w request err
  | NotListed pod err : decodePod (areq_Raw request) = inr pod -> injectable request pod ->
      (List_ (A := Injector) (Namespace (pod_meta pod)) None w).1 = inl err ->
      podRefused w request err
  | BadSelector pod items err : decodePod (areq_Raw request) = inr pod -> injectable request pod ->
      (List_ (A := Injector) (Namespace (pod_meta pod)) None w).1 = inr items ->
      filterInjectorPod items pod = inl err -> podRefused w request err
  | PodUnmarshalled pod podCopy err : decodePod (areq_Raw request) = inr pod ->
      injectedPod w request pod podCopy ->
      marshalPod podCopy = inl err \/ marshalPod pod = inl err -> podRefused w request err
  | PodPatchFailed pod podCopy before after err : decodePod (areq_Raw request) = inr pod ->
      injectedPod w request pod podCopy ->
      marshalPod pod = inr before -> marshalPod podCopy = inr after ->
      CreateJsonPatch before after = inl err -> podRefused w request err.

Lemma ignoredRequired_true ns : ignoredRequired ns = true <-> ns ∉ ingoredList.
Proof.
  unfold ignoredRequired. rewrite negb_true_iff, <-not_true_iff_false, existsb_exists.
  setoid_rewrite bool_decide_eq_true. setoid_rewrite <-list_elem_of_In. split.
  - intros Hn Hin. apply Hn. eauto.
  - intros Hn (x & Hin & ->). done.
Qed.

Lemma injectPod_spec spec pod w :
  holds (injectPod spec pod) w (fun o _ => exists pres posts,
    o = Ok (overSpec (fun s => setVolumes (mutateVolumes spec (Volumes s))
              (setContainers (pres ++ Containers (pod_Spec pod) ++ posts) s)) pod)
    /\ Forall2 injectedAs (list_prod (Containers (pod_Spec pod)) (elems (PreContainers spec))) pres
    /\ Forall2 injectedAs (list_prod (Containers (pod_Spec pod)) (elems (PostContainers spec))) posts).
Proof.
  unfold injectPod. apply holds_bind. eapply holds_mono; [apply mutateContainers_spec|].
  intros o w1 (pres & posts & -> & Hpres & Hposts). apply holds_ret. by exists pres, posts.
Qed.

(** C33: The webhook changes a pod only by injection: the patch of a response is computed
    between the decoded pod and that pod with the containers and volumes of the first of
    the injectors listed in its namespace whose selector matches it. A pod is allowed
    without a patch exactly when it is of a system namespace, a mirror pod, or selected by
    none of the listed injectors; and it is refused only for a failure, with its message. *)
Theorem injectorMutatePods_patch ar request w :
  review_Request ar = Some request ->
  holds (injectorMutatePods ar) w (fun o _ => exists resp, o = Ok resp
    /\ match PatchBytes resp, Allowed resp with
       | Some patch, _ =>
           resp = patchResponse patch /\ areq_Resource request = podGvr
           /\ exists pod podCopy before after,
                decodePod (areq_Raw request) = inr pod
                /\ injectedPod w request pod podCopy
                /\ marshalPod pod = inr before /\ marshalPod podCopy = inr after
                /\ CreateJsonPatch before after = inr patch
       | None, true =>
           resp = allowedResponse /\ areq_Resource request = podGvr
           /\ exists pod, decodePod (areq_Raw request) = inr pod
                /\ (injectable request pod -> selected w pod [])
       | None, false => exists err, resp = toAdmissionResponse err /\ podRefused w request err
       end).
Proof.
  intros Hreq. set (Post := fun (o : Outcome AdmissionResponse) (_ : W) => _).
  assert (Hrefuse : forall e w', podRefused w request e -> Post (Ok (toAdmissionResponse e)) w').
  { intros e w' He. eexists. split; [done|]. cbn. by exists e. }
  unfold injectorMutatePods. rewrite Hreq. apply holds_bind, holds_lift. cbn [deref].
  case_decide as Hgvr; [by apply holds_ret, Hrefuse, NotPods|].
  destruct (decodePod _) as [e|pod] eqn:Edec; [by apply holds_ret, Hrefuse, PodUndecoded|].
  assert (Hallow : forall w', (injectable request pod -> selected w pod []) ->
    Post (Ok allowedResponse) w').
  { intros w' Hs. eexists. split; [done|]. cbn. split_and!; [done..|]. by exists pod. }
  destruct (ignoredRequired _) eqn:Ens; [apply ignoredRequired_true in Ens|].
  2: { apply holds_ret, Hallow. intros [Hn _]. apply ignoredRequired_true in Hn. congruence. }
  cbn [negb]. case_decide as Hmirror.
  { apply holds_ret, Hallow. intros [_ Hm]. rewrite Hm in Hmirror. by destruct Hmirror. }
  assert (Hable : injectable request pod) by (split; [done|by apply eq_None_not_Some]).
  apply holds_bind, holds_call. destruct (List_ _ _ w) as [[e|items] w1] eqn:El; cbn [fst snd].
  { apply holds_ret, Hrefuse. eapply NotListed; [done..|]. by rewrite El. }
  destruct items as [|item items].
  { apply holds_ret, Hallow. intros _. exists []. by rewrite El. }
  destruct (filterInjectorPod _ pod) as [e|matching] eqn:Ef.
  { apply holds_ret, Hrefuse. eapply BadSelector; [done..| |exact Ef]. by rewrite El. }
  assert (Hsel : selected w pod matching).
  { exists (item :: items). rewrite El. split; [done|]. by apply filterInjectorPod_spec. }
  destruct matching as [|first rest]; [by apply holds_ret, Hallow|].
  apply holds_bind. eapply holds_mono; [apply injectPod_spec|].
  intros o w2 (pres & posts & -> & Hpres & Hposts). set (podCopy := overSpec _ pod).
  assert (Hinj : injectedPod w request pod podCopy).
  { split; [done|]. by exists first, rest, pres, posts. }
  destruct (marshalPod podCopy) as [e|after] eqn:Ea.
  { apply holds_ret, Hrefuse. eapply PodUnmarshalled; eauto. }
  destruct (marshalPod pod) as [e|before] eqn:Eb.
  { apply holds_ret, Hrefuse. eapply PodUnmarshalled; eauto. }
  destruct (CreateJsonPatch before after) as [e|patch] eqn:Ep.
  { apply holds_ret, Hrefuse. eapply PodPatchFailed; eauto. }
  apply holds_ret. eexists. split; [done|]. cbn. split_and!; [done..|].
  by exists pod, podCopy, before, after.
Qed.

(** ** Placement limits *)

(** What the limits of the request's namespace make of a workload: with no limits it
    stays; with limits, a template without an affinity gets theirs. *)
Definition limited (w : W) (request : AdmissionRequest) (src dest : WorkloadObject) : Prop :=
  exists namespace,
    (Get (A := NamespaceT) (mkKey "" (areq_Namespace request)) w).1 = inr namespace
    /\ match Annotations (ns_meta namespace) !! NuwaLimitFlag with
       | None => dest = src
       | Some content => exists coordinates affinity,
           unmarshalCoordinates content = inr coordinates /\ wl_Affinity src = Some affinity
           /\ dest = match affinity with
                     | None => setWorkloadAffinity
                         (Some (mkAffinity (Some (convertToNodeSelectorAffinity coordinates)) "")) src
                     | Some _ => src
                     end
       end.

(** Why the limits of the namespace are not known. *)
Inductive unlimited (w : W) (request : AdmissionRequest) : Err -> Prop :=
  | NamespaceUnread err :
      (Get (A := NamespaceT) (mkKey "" (areq_Namespace request)) w).1 = inl err ->
      unlimited w request err
  | LimitsUndecoded namespace content err :
      (Get (A := NamespaceT) (mkKey "" (areq_Namespace request)) w).1 = inr namespace ->
      Annotations (ns_meta namespace) !! NuwaLimitFlag = Some content ->
      unmarshalCoordinates content = inl err -> unlimited w request err.

(** Why a workload is refused. *)
Inductive workloadRefused (w : W) (request : AdmissionRequest) : Err -> Prop :=
  | WorkloadUndecoded err : decodeWorkload (areq_Kind request) (areq_Raw request) = inl err ->
      workloadRefused w request err
  | NoLimits src err : decodeWorkload (areq_Kind request) (areq_Raw request) = inr src ->
      OwnerReferences (wl_meta src) = [] -> unlimited w request err ->
      workloadRefused w request err
  | WorkloadUnpatched src dest err :
      decodeWorkload (areq_Kind request) (areq_Raw request) = inr src ->
      OwnerReferences (wl_meta src) = [] -> limited w request src dest ->
      (marshalWorkload src = inl err \/ marshalWorkload dest = inl err
       \/ exists before after, marshalWorkload src = inr before /\ marshalWorkload dest = inr after
            /\ CreateJsonPatch before after = inl err) ->
      workloadRefused w request err.

Lemma updateNamespaceForResourceLimitRange_spec request src w :
  holds (updateNamespaceForResourceLimitRange (areq_Namespace request) src) w (fun o _ =>
    match o with
    | Ok (None, dest) => limited w request src dest
    | Ok (Some err, _) => unlimited w request err
    | Panic r => r = NilDereference /\ wl_Affinity src = None
    end).
Proof.
  unfold updateNamespaceForResourceLimitRange. apply holds_bind, holds_call.
  destruct (Get _ w) as [[e|ns] w1] eqn:Eg; cbn [fst snd].
  { apply holds_ret. apply NamespaceUnread. by rewrite Eg. }
  assert (Hget : (Get (A := NamespaceT) (mkKey "" (areq_Namespace request)) w).1 = inr ns) by by rewrite Eg.
  destruct (_ !! NuwaLimitFlag) as [content|] eqn:El.
  2: { apply holds_ret. exists ns. by rewrite El. }
  destruct (unmarshalCoordinates content) as [e|cs] eqn:Eu; [apply holds_ret; by eapply LimitsUndecoded|].
  apply holds_bind, holds_lift. destruct (wl_Affinity src) as [[a|]|] eqn:Ea; cbn [deref]; [| |done];
    apply holds_ret; exists ns; rewrite El; split; [done|eauto..|done|eauto].
Qed.

(** C34: A workload is changed only where its pod template has no affinity of its own, and
    then to the placement limits its namespace is annotated with, so the patch of a
    response is computed between the decoded workload and that one. The response is nil,
    like that of the request's review, exactly for an object that has owners or is of
    another kind; a workload is refused only for a failure, with its message; and the
    webhook panics only on a nil pod template. *)
Theorem namespaceMutateResource_patch ar request w :
  review_Request ar = Some request -> review_Response ar = None ->
  holds (namespaceMutateResource ar) w (fun o _ =>
    match o with
    | Ok None =>
        (areq_Kind request ∉ workloadKinds)
        \/ exists src, decodeWorkload (areq_Kind request) (areq_Raw request) = inr src
             /\ OwnerReferences (wl_meta src) <> []
    | Ok (Some resp) =>
        areq_Kind request ∈ workloadKinds
        /\ match PatchBytes resp with
           | None => exists err, resp = toAdmissionResponse err /\ workloadRefused w request err
           | Some patch =>
               resp = patchResponse patch
               /\ exists src dest before after,
                    decodeWorkload (areq_Kind request) (areq_Raw request) = inr src
                    /\ OwnerReferences (wl_meta src) = []
                    /\ limited w request src dest
                    /\ marshalWorkload src = inr before /\ marshalWorkload dest = inr after
                    /\ CreateJsonPatch before after = inr patch
           end
    | Panic r =>
        r = NilDereference
        /\ exists src, decodeWorkload (areq_Kind request) (areq_Raw request) = inr src
             /\ OwnerReferences (wl_meta src) = [] /\ wl_Affinity src = None
    end).
Proof.
  intros Hreq Hresp. unfold namespaceMutateResource. rewrite Hreq, Hresp.
  apply holds_bind, holds_lift. cbn [deref].
  case_decide as Hkind; [|apply holds_ret; by left].
  destruct (decodeWorkload _ _) as [e|src] eqn:Edec.
  { apply holds_ret. split; [done|]. exists e. split; [done|]. by apply WorkloadUndecoded. }
  case_decide as Hown; [apply holds_ret; right; by exists src|].
  apply holds_bind. eapply holds_mono; [apply updateNamespaceForResourceLimitRange_spec|].
  intros [[[e|] dest]|r] w1 Hdest; [|set (Post := fun _ _ => _)|].
  - apply holds_ret. split; [done|]. exists e. split; [done|]. by eapply NoLimits.
  - assert (Hrefuse : forall e w', (marshalWorkload src = inl e \/ marshalWorkload dest = inl e
       \/ exists before after, marshalWorkload src = inr before /\ marshalWorkload dest = inr after
            /\ CreateJsonPatch before after = inl e) -> Post (Ok (Some (toAdmissionResponse e))) w').
    { intros e w' He. split; [done|]. exists e. split; [done|]. by eapply WorkloadUnpatched. }
    destruct (marshalWorkload src) as [e|before] eqn:Eb; [apply holds_ret, Hrefuse; by left|].
    destruct (marshalWorkload dest) as [e|after] eqn:Ea; [apply holds_ret, Hrefuse; right; by left|].
    destruct (CreateJsonPatch before after) as [e|p] eqn:Ep; apply holds_ret.
    { apply Hrefuse. right; right. by exists before, after. }
    split; [done|]. split; [done|]. by exists src, dest, before, after.
  - destruct Hdest as [-> Hnil]. split; [done|]. by exists src.
Qed.

(** ** The handler *)

(** C40: The handler writes back a review exactly when the content type is JSON, and nothing
    otherwise. It is a response to the review that was read: it carries the request's
    UID and, field by field, the verdict the admission function gave for that review, no
    response when the function gave none, and no request. A body that is no review is
    refused with the decoder's message if it was filled in up to the request. The handler
    panics exactly when there is no body, when a verdict has no request to answer, or when
    the admission function panics. *)
Theorem serve_answers r admitFunc w :
  holds (serve r admitFunc) w (fun o _ =>
    match Body r with
    | None => o = Panic NilDereference
    | Some read =>
        if decide (ContentType r = "application/json") then
          let '(err, ar) := decodeReview (match read with inr data => data | inl _ => "" end) in
          let verdict := match err with
                         | Some e => Ok (Some (mkResponse "" false (Some (errorText e)) None None))
                         | None => (admitFunc ar w).1
                         end in
          match verdict, review_Request ar with
          | Panic p, _ => o = Panic p
          | Ok None, _ => o = Ok (Some (mkReview None None "admission.k8s.io/v1" "AdmissionReview"))
          | Ok (Some _), None => o = Panic NilDereference
          | Ok (Some v), Some request => exists resp,
              o = Ok (Some (mkReview None (Some resp) "admission.k8s.io/v1" "AdmissionReview"))
              /\ resp_UID resp = areq_UID request
              /\ Allowed resp = Allowed v /\ Message resp = Message v
              /\ PatchBytes resp = PatchBytes v /\ PatchType resp = PatchType v
          end
        else o = Ok None
    end).
Proof.
  unfold serve. apply holds_bind, holds_lift. destruct (Body r) as [read|]; cbn [deref]; [|done].
  set (data := match read with inl _ => _ | inr _ => _ end).
  destruct (decide (ContentType r = "application/json")) as [Hct|Hct].
  2: { rewrite decide_True by done. by apply holds_ret. }
  rewrite decide_False by (intros []; done). destruct (decodeReview data) as [[e|] ar].
  - apply holds_bind, holds_ret, holds_bind, holds_bind, holds_lift.
    destruct (review_Request ar) as [request|]; cbn [deref]; [|done].
    apply holds_ret, holds_ret. eexists. by split_and!.
  - apply holds_bind. unfold holds at 1.
    destruct (admitFunc ar w) as [[[verdict|]|p] w1] eqn:Ead; cbn [fst snd].
    + apply holds_bind, holds_bind, holds_lift. destruct (review_Request ar) as [request|]; cbn [deref];
        [|done].
      apply holds_ret, holds_ret. eexists. by split_and!.
    + by apply holds_bind, holds_ret, holds_ret.
    + done.
Qed.
End Properties.

(** ** Witnesses: one injector, and a namespace with limits *)

Notation fx_hookServer := (gmap ObjectKey NamespaceT * gmap ObjectKey Injector)%type.
#[local] Instance fx_namespaces : Client fx_hookServer NamespaceT := onFst (fx_client ns_meta).
#[local] Instance fx_injectors : Lister fx_hookServer Injector := {|
  List_ ns selector w := let (r, w') := List_ (Lister := fx_lister inj_meta) ns selector w.2 in
    (r, (w.1, w'));
|}.
#[local] Instance fx_rand : RandReader fx_hookServer := {|
  rand_Read n w := (inr (replicate (Z.to_nat n) 15), w);
|}.
#[local] Instance fx_rand_laws : RandReaderLaws fx_hookServer.
Proof.
  intros n w b w' Hn [= <- <-]. rewrite length_replicate. split; [lia|].
  apply Forall_replicate. lia.
Defined.
#[local] Instance fx_matches : SelectorMatch := {| Matches _ _ := true |}.

(** The pod [shop/web-0] with one container and one volume. *)
Definition fx_hookPod : Pod :=
  overSpec (fun s => setVolumes (Some [mkVolume "data" None ""])
                       (setContainers [mkContainer "c" "nginx:1" ""] s))
    (fx_pod "shop" "web-0" "r1" "" false).
Definition fx_workload : WorkloadObject :=
  mkWorkloadObject "Deployment" (metaNamed "shop" "web") (Some None) "".
#[local] Instance fx_hookLib : WebhookLib := {|
  decodeReview s :=
    if decide (s = "review")
    then (None, mkReview (Some (mkRequest "u1" "Pod" podGvr "shop" "pod")) None "" "")
    else (Some (ErrMsg "no review"), mkReview None None "" "");
  decodePod s := inr fx_hookPod;
  decodeWorkload k s := inr fx_workload;
  marshalPod p :=
    inr (foldr (fun c acc => ctr_Name c +:+ " " +:+ acc)
           (foldr (fun v acc => vol_Name v +:+ " " +:+ acc) "" (elems (Volumes (pod_Spec p))))
           (Containers (pod_Spec p)));
  marshalWorkload o := inr (match wl_Affinity o with Some (Some _) => "affinity" | _ => "none" end);
  CreateJsonPatch a b := inr (a +:+ "-> " +:+ b);
  unmarshalCoordinates s := inr fx_coordinates;
|}.
Definition fx_injector : Injector :=
  mkInjector (metaNamed "shop" "inj")
    (mkInjectorSpec (Some [mkContainer "init" "i" ""]) (Some [mkContainer "c" "side" ""]) "" "" "inj"
       (Some [mkVolume "logs" None ""]) (mkLabelSelector ∅ "")).
Definition fx_hookWorld : fx_hookServer :=
  ({[mkKey "" "shop" := mkNamespace (setAnnotations {[NuwaLimitFlag := "two"]} (metaNamed "" "shop"))]},
   {[mkKey "shop" "inj" := fx_injector]}).
Definition fx_podReview : AdmissionReview :=
  mkReview (Some (mkRequest "u1" "Pod" podGvr "shop" "pod")) None "" "".
Definition fx_workloadReview : AdmissionReview :=
  mkReview (Some (mkRequest "u2" "Deployment" podGvr "shop" "deployment")) None "" "".

(** The patch as before and after: the clashing sidecar is renamed, and the pod's own
    volume is gone. *)
Example injected_patch :
  (injectorMutatePods fx_podReview fx_hookWorld).1
  = Ok (patchResponse "c data -> init c c-0f0f0f0f0f0f0f0f logs ").
Proof. vm_compute. reflexivity. Qed.

Example limited_patch :
  (namespaceMutateResource fx_workloadReview fx_hookWorld).1
  = Ok (Some (patchResponse "none-> affinity")).
Proof. vm_compute. reflexivity. Qed.

Example served :
  (ServeInjectorMutatePods (mkHttp (Some (inr "review")) "application/json") fx_hookWorld).1
  = Ok (Some (mkReview None
      (Some (mkResponse "u1" true None (Some "c data -> init c c-0f0f0f0f0f0f0f0f logs ") (Some "JSONPatch")))
      "admission.k8s.io/v1" "AdmissionReview")).
Proof. vm_compute. reflexivity. Qed.

Example served_garbage :
  (ServeInjectorMutatePods (mkHttp (Some (inr "{}")) "application/json") fx_hookWorld).1
  = Panic NilDereference.
Proof. vm_compute. reflexivity. Qed.

Lemma injectorMutatePods_patch_witness :
  holds (injectorMutatePods fx_podReview) fx_hookWorld (fun o _ => exists resp patch,
    o = Ok resp /\ PatchBytes resp = Some patch
    /\ exists podCopy, injectedPod fx_hookWorld (mkRequest "u1" "Pod" podGvr "shop" "pod") fx_hookPod podCopy).
Proof.
  assert (Hrun := injectorMutatePods_patch fx_podReview (mkRequest "u1" "Pod" podGvr "shop" "pod")
                    fx_hookWorld eq_refl).
  unfold holds in *. destruct Hrun as (resp & Ho & Hresp). rewrite injected_patch in Ho |- *.
  injection Ho as <-. destruct Hresp as (_ & _ & pod & podCopy & before & after & Hdec & Hinj & _).
  injection Hdec as <-. eexists _, _. split; [reflexivity|]. split; [reflexivity|].
  exists podCopy. exact Hinj.
Defined.

(** The namespace's annotation stands for the coordinates it decodes to. *)
Lemma namespaceMutateResource_patch_witness :
  holds (namespaceMutateResource fx_workloadReview) fx_hookWorld (fun o _ =>
    o = Ok (Some (patchResponse "none-> affinity"))
    /\ limited fx_hookWorld (mkRequest "u2" "Deployment" podGvr "shop" "deployment") fx_workload
         (setWorkloadAffinity
            (Some (mkAffinity (Some (convertToNodeSelectorAffinity fx_coordinates)) "")) fx_workload)).
Proof.
  assert (Hrun := namespaceMutateResource_patch fx_workloadReview
    (mkRequest "u2" "Deployment" podGvr "shop" "deployment") fx_hookWorld eq_refl eq_refl).
  unfold holds in *. rewrite limited_patch in Hrun |- *. split; [reflexivity|].
  destruct Hrun as (_ & _ & src & dest & before & after & Hdec & _ & Hlim & _).
  injection Hdec as <-. destruct Hlim as (ns & Hns & Hlim).
  vm_compute in Hns. injection Hns as <-. destruct Hlim as (cs & affinity & Hcs & Ha & ->).
  injection Hcs as <-. injection Ha as <-.
  eexists. split; [vm_compute; reflexivity|]. exists fx_coordinates, None. by split_and!.
Defined.
