(* ===== verification/Memory.v ===== *)
(** Go values together with the memory they point to. Elsewhere in the development objects
    are immutable values; here pointers, slices and maps have addresses, so that sharing
    between two objects can be seen. [DeepCopy] uses it to show what the copies of
    [api/v1/zz_generated.deepcopy.go] share with their originals: nothing. *)

From S2P Require Import Prelude Objects Coordinate.

(** A cell at an address, holding a value. *)
Record Ref (A : Type) := mkRef { addr : Z; target : A }.
Arguments mkRef {A}.
Arguments addr {A}.
Arguments target {A}.

(** [*A], [[]A] and [map[string]V]; [None] is nil. *)
Definition pointer (A : Type) : Type := option (Ref A).
Definition slice (A : Type) : Type := option (Ref (list A)).
Definition gomap (V : Type) : Type := option (Ref (gmap string V)).

(** ** Allocation *)

(** A run that allocates: the number is the next address that has not been given out. *)
Definition Alloc (A : Type) : Type := Z -> A * Z.
#[export] Instance Alloc_ret : MRet Alloc := fun A a n => (a, n).
#[export] Instance Alloc_bind : MBind Alloc := fun A B f m n => let '(a, n') := m n in f a n'.

(** [new(T)], [make(...)] *)
Definition new : Alloc Z := fun n => (n, n + 1).

(** The pattern of every field with an address:
    [if in != nil { *out = new(T) or make(T); copy the content }]. *)
Definition newCopy {A} (content : A -> Alloc A) (p : option (Ref A)) : Alloc (option (Ref A)) :=
  match p with
  | None => mret None
  | Some r => a ← new; x ← content (target r); mret (Some (mkRef a x))
  end.

(** The loop that copies the elements of a slice with their own [DeepCopyInto]. *)
Fixpoint copyEach {A} (content : A -> Alloc A) (l : list A) : Alloc (list A) :=
  match l with
  | [] => mret []
  | x :: l => y ← content x; ys ← copyEach content l; mret (y :: ys)
  end.

(** ** Content and addresses of a value *)

(** [strip] forgets the addresses, [addrs] lists them. *)
Class Memory (A : Type) := {
  strip : A -> A;
  addrs : A -> list Z;
}.

(** Values without addresses. *)
Definition scalar A : Memory A := {| strip x := x; addrs _ := [] |}.
#[export] Instance Z_memory : Memory Z := scalar Z.
#[export] Instance string_memory : Memory string := scalar string.
#[export] Instance Coordinate_memory : Memory Coordinate := scalar Coordinate.
#[export] Instance IntOrString_memory : Memory IntOrString := scalar IntOrString.
#[export] Instance OrderTerm_memory : Memory UpdatePriorityOrderTerm := scalar _.
#[export] Instance gmap_memory V : Memory (gmap string V) := scalar _.

#[export] Instance Ref_memory `{Memory A} : Memory (Ref A) := {|
  strip r := mkRef 0 (strip (target r));
  addrs r := addr r :: addrs (target r);
|}.
#[export] Instance option_memory `{Memory A} : Memory (option A) := {|
  strip p := strip <$> p;
  addrs p := match p with Some x => addrs x | None => [] end;
|}.
#[export] Instance list_memory `{Memory A} : Memory (list A) := {|
  strip l := strip <$> l;
  addrs l := concat (addrs <$> l);
|}.

(** ** Fresh addresses *)

(** The addresses [l] were given out, each once, between [n] and [n']. *)
Definition fresh (n n' : Z) (l : list Z) : Prop :=
  n <= n' /\ NoDup l /\ Forall (fun a => n <= a < n') l.

Lemma fresh_nil n : fresh n n [].
Proof. split_and!; [lia|constructor..]. Qed.

Lemma fresh_widen n m n' m' l : fresh m m' l -> n <= m -> m' <= n' -> fresh n n' l.
Proof.
  intros (? & ? & Hall) ? ?. split_and!; [lia|done|].
  eapply list.Forall_impl; [exact Hall|]. cbn. lia.
Qed.

Lemma fresh_app n m n' l l' : fresh n m l -> fresh m n' l' -> fresh n n' (l ++ l').
Proof.
  intros H1 H2. pose proof (fresh_widen n _ n' _ _ H1) as H1'. pose proof (fresh_widen n _ n' _ _ H2) as H2'.
  destruct H1 as (? & ? & Hl), H2 as (? & ? & Hl'). split_and!; [lia| |].
  - apply list.NoDup_app. split_and!; [done| |done]. intros a Ha Ha'.
    rewrite list.Forall_forall in Hl, Hl'. specialize (Hl _ Ha). specialize (Hl' _ Ha'). lia.
  - apply list.Forall_app. split; [apply H1'|apply H2']; lia.
Qed.

Lemma fresh_cons n n' l : fresh (n + 1) n' l -> fresh n n' (n :: l).
Proof.
  intros Hl. apply (fresh_app n (n + 1) n' [n]); [|done].
  split_and!; [lia|apply NoDup_singleton|]. repeat constructor; lia.
Qed.

(** ** Deep copies *)

(** What a run from [n] yields, and up to which address it allocates. *)
Definition yields {A} (m : Alloc A) (n : Z) (Q : A -> Z -> Prop) : Prop := Q (m n).1 (m n).2.

Lemma yields_bind {A B} (m : Alloc A) (f : A -> Alloc B) n P Q :
  yields m n P -> (forall y n', P y n' -> yields (f y) n' Q) -> yields (m ≫= f) n Q.
Proof.
  unfold yields, mbind, Alloc_bind. intros Hm Hf. specialize (Hf _ _ Hm). by destruct (m n).
Qed.

Section Deep.
Context `{Memory A}.

(** [f] yields the content of its argument in fresh memory. *)
Definition deep (f : A -> Alloc A) : Prop :=
  forall x n, yields (f x) n (fun y n' => strip y = strip x /\ fresh n n' (addrs y)).

(** A value without addresses is its own copy. *)
Lemma deep_ret : (forall x : A, addrs x = []) -> deep mret.
Proof. intros Hnil x n. unfold yields. cbn. rewrite Hnil. split; [done|apply fresh_nil]. Qed.

(** What sharing nothing means for two objects that exist beside each other: the copy has
    the same content, every address of it occurs once, is known to the allocator, and is
    not one of the original's. *)
Definition isolates (f : A -> Alloc A) : Prop :=
  forall x n, (forall a, a ∈ addrs x -> a < n) ->
    let '(y, n') := f x n in
    strip y = strip x /\ NoDup (addrs y)
    /\ (forall a, a ∈ addrs y -> a ∉ addrs x) /\ (forall a, a ∈ addrs y -> a < n').

Lemma deep_isolates f : deep f -> isolates f.
Proof.
  intros Hf x n Hx. specialize (Hf x n). unfold yields in Hf. destruct (f x n) as [y n'].
  destruct Hf as [Hs (_ & Hnd & Hall)]. rewrite list.Forall_forall in Hall. cbn in *.
  split_and!; [done..| |].
  - intros a Ha Ha'. specialize (Hx a Ha'). specialize (Hall a Ha). lia.
  - intros a Ha. specialize (Hall a Ha). lia.
Qed.
End Deep.

Lemma deep_ret_list `{Memory A} : (forall x : A, addrs x = []) -> deep (mret (A := list A)).
Proof.
  intros Hnil. apply deep_ret. intros l. cbn. induction l as [|x l IH]; [done|].
  cbn. by rewrite Hnil, IH.
Qed.

Lemma deep_newCopy `{Memory A} (f : A -> Alloc A) : deep f -> deep (newCopy f).
Proof.
  intros Hf [[a x]|] n; cbn [newCopy]; [|split; [done|apply fresh_nil]].
  eapply (yields_bind _ _ _ (fun b m => b = n /\ m = n + 1)); [done|]. intros b m [-> ->].
  eapply yields_bind; [apply Hf|]. intros y n' [Hs Hl]. cbn in *.
  split; cbn; [by rewrite Hs|by apply fresh_cons].
Qed.

Lemma deep_copyEach `{Memory A} (f : A -> Alloc A) : deep f -> deep (copyEach f).
Proof.
  intros Hf l. induction l as [|x l IH]; intros n; cbn [copyEach]; [split; [done|apply fresh_nil]|].
  eapply yields_bind; [apply Hf|]. intros y n1 [Hy Hn1].
  eapply yields_bind; [apply IH|]. intros ys n2 [Hys Hn2]. cbn in *.
  split; cbn; [by rewrite Hy, Hys|by eapply fresh_app].
Qed.

Create HintDb deep.
#[export] Hint Resolve deep_newCopy deep_copyEach fresh_nil fresh_app : deep.
#[export] Hint Extern 2 (deep mret) =>
  first [apply deep_ret; by intros ? | apply deep_ret_list; by intros ?] : deep.

(** A record is copied deeply: its fields in the order of the code, each by a lemma of the
    database, then the record they are put into. *)
Ltac deep_record :=
  match goal with |- deep ?f => let body := eval red in f in change (deep body) end;
  intros [] ?;
  repeat (eapply yields_bind; [match goal with
                             | |- yields (?c ?x) ?n _ => refine ((_ : deep c) x n); solve [eauto with deep]
                             end|intros ? ? [? ?]]);
  split; cbn in *; [congruence|rewrite ?app_nil_r; eauto 10 with deep].
