(* ===== verification/DeepCopy.v ===== *)
(** The generated deep copies of the API types ([api/v1/zz_generated.deepcopy.go]), on objects
    with their memory. Every function of the file is a definition; the copy functions of
    the Kubernetes types inside are parameters, known to be deep. *)

From S2P Require Import Prelude Objects Coordinate Memory.

(** ** The types of Kubernetes *)

Class External (T : Type) := {
  ext_memory :: Memory T;
  ext_DeepCopyInto : T -> Alloc T;
}.
Class ExternalLaws (T : Type) `{External T} := ext_deep : deep (ext_DeepCopyInto (T := T)).

(** The types the generated code calls a copy function of, and [metav1.TypeMeta], which it
    copies by assignment (two strings). [metav1.Time] documents that its copy shares nothing
    that can change. *)
Class KubeTypes := {
  TypeMetaT : Type;
  TimeT : Type; Time_ext :: External TimeT;
  ObjectMetaT : Type; ObjectMeta_ext :: External ObjectMetaT;
  ListMetaT : Type; ListMeta_ext :: External ListMetaT;
  PodTemplateSpecT : Type; PodTemplateSpec_ext :: External PodTemplateSpecT;
  PersistentVolumeClaimT : Type; PersistentVolumeClaim_ext :: External PersistentVolumeClaimT;
  ContainerT : Type; Container_ext :: External ContainerT;
  VolumeT : Type; Volume_ext :: External VolumeT;
  LabelSelectorT : Type; LabelSelector_ext :: External LabelSelectorT;
  ServiceSpecT : Type; ServiceSpec_ext :: External ServiceSpecT;
  ConditionT : Type; Condition_ext :: External ConditionT;
}.
#[export] Instance TypeMeta_memory `{KubeTypes} : Memory TypeMetaT := scalar TypeMetaT.
Class KubeTypesLaws `{KubeTypes} := {
  Time_deep :: ExternalLaws TimeT;
  ObjectMeta_deep :: ExternalLaws ObjectMetaT;
  ListMeta_deep :: ExternalLaws ListMetaT;
  PodTemplateSpec_deep :: ExternalLaws PodTemplateSpecT;
  PersistentVolumeClaim_deep :: ExternalLaws PersistentVolumeClaimT;
  Container_deep :: ExternalLaws ContainerT;
  Volume_deep :: ExternalLaws VolumeT;
  LabelSelector_deep :: ExternalLaws LabelSelectorT;
  ServiceSpec_deep :: ExternalLaws ServiceSpecT;
  Condition_deep :: ExternalLaws ConditionT;
}.
#[export] Hint Extern 1 (deep ext_DeepCopyInto) => apply ext_deep : deep.

(** ** Copies of coordinates *)

(** The elements of a slice that may be nil. *)
Definition elements_of {A} (s : slice A) : list A :=
  match s with Some r => target r | None => [] end.

(** Of a nil slice this makes an empty one, so [DeepCopy] tests for nil itself. *)
Definition Coordinates_DeepCopyInto (x : slice Coordinate) : Alloc (slice Coordinate) :=
  a ← new; mret (Some (mkRef a (elements_of x))).
Definition Coordinates_DeepCopy (x : slice Coordinate) : Alloc (slice Coordinate) :=
  match x with
  | None => mret None
  | Some _ => _ ← new; Coordinates_DeepCopyInto x
  end.

Definition UpdatePriorityOrderTerm_DeepCopyInto (x : UpdatePriorityOrderTerm)
  : Alloc UpdatePriorityOrderTerm := mret x.
Definition UpdatePriorityOrderTerm_DeepCopy
  : pointer UpdatePriorityOrderTerm -> Alloc (pointer UpdatePriorityOrderTerm) :=
  newCopy UpdatePriorityOrderTerm_DeepCopyInto.

Section Types.
Context `{KubeTypes}.

(** ** [StatefulSet] *)

Record UpdatePriorityWeightTermM := mkUpdatePriorityWeightTermM {
  wt_Weight : Z;
  wt_MatchSelector : LabelSelectorT;
}.
#[export] Instance UpdatePriorityWeightTerm_memory : Memory UpdatePriorityWeightTermM := {|
  strip x :=
    mkUpdatePriorityWeightTermM (wt_Weight x) (strip (wt_MatchSelector x));
  addrs x :=
    addrs (wt_MatchSelector x);
|}.

Definition UpdatePriorityWeightTerm_DeepCopyInto (x : UpdatePriorityWeightTermM)
  : Alloc UpdatePriorityWeightTermM :=
  matchSelector ← ext_DeepCopyInto (wt_MatchSelector x);
  mret (mkUpdatePriorityWeightTermM (wt_Weight x) matchSelector).
Definition UpdatePriorityWeightTerm_DeepCopy
  : pointer UpdatePriorityWeightTermM -> Alloc (pointer UpdatePriorityWeightTermM) :=
  newCopy UpdatePriorityWeightTerm_DeepCopyInto.

Record UpdatePriorityStrategyM := mkUpdatePriorityStrategyM {
  ups_OrderPriority : slice UpdatePriorityOrderTerm;
  ups_WeightPriority : slice UpdatePriorityWeightTermM;
}.
#[export] Instance UpdatePriorityStrategy_memory : Memory UpdatePriorityStrategyM := {|
  strip x :=
    mkUpdatePriorityStrategyM (strip (ups_OrderPriority x)) (strip (ups_WeightPriority x));
  addrs x :=
    addrs (ups_OrderPriority x) ++ addrs (ups_WeightPriority x);
|}.

Definition UpdatePriorityStrategy_DeepCopyInto (x : UpdatePriorityStrategyM)
  : Alloc UpdatePriorityStrategyM :=
  orderPriority ← newCopy mret (ups_OrderPriority x);
  weightPriority ← newCopy (copyEach UpdatePriorityWeightTerm_DeepCopyInto) (ups_WeightPriority x);
  mret (mkUpdatePriorityStrategyM orderPriority weightPriority).
Definition UpdatePriorityStrategy_DeepCopy
  : pointer UpdatePriorityStrategyM -> Alloc (pointer UpdatePriorityStrategyM) :=
  newCopy UpdatePriorityStrategy_DeepCopyInto.

Record RollingUpdateStatefulSetStrategyM := mkRollingUpdateStatefulSetStrategyM {
  ru_Partition : pointer Z;
  ru_MaxUnavailable : pointer IntOrString;
  ru_PodUpdatePolicy : string;
  ru_Paused : bool;
  ru_PriorityStrategy : pointer UpdatePriorityStrategyM;
}.
#[export] Instance RollingUpdateStatefulSetStrategy_memory
  : Memory RollingUpdateStatefulSetStrategyM := {|
  strip x :=
    mkRollingUpdateStatefulSetStrategyM (strip (ru_Partition x)) (strip (ru_MaxUnavailable x))
    (ru_PodUpdatePolicy x) (ru_Paused x) (strip (ru_PriorityStrategy x));
  addrs x :=
    addrs (ru_Partition x) ++ addrs (ru_MaxUnavailable x) ++ addrs (ru_PriorityStrategy x);
|}.

Definition RollingUpdateStatefulSetStrategy_DeepCopyInto (x : RollingUpdateStatefulSetStrategyM)
  : Alloc RollingUpdateStatefulSetStrategyM :=
  partition ← newCopy mret (ru_Partition x);
  maxUnavailable ← newCopy mret (ru_MaxUnavailable x);
  priorityStrategy ← newCopy UpdatePriorityStrategy_DeepCopyInto (ru_PriorityStrategy x);
  mret (mkRollingUpdateStatefulSetStrategyM partition maxUnavailable (ru_PodUpdatePolicy x)
        (ru_Paused x) priorityStrategy).
Definition RollingUpdateStatefulSetStrategy_DeepCopy
  : pointer RollingUpdateStatefulSetStrategyM -> Alloc (pointer RollingUpdateStatefulSetStrategyM) :=
  newCopy RollingUpdateStatefulSetStrategy_DeepCopyInto.

Record StatefulSetUpdateStrategyM := mkStatefulSetUpdateStrategyM {
  sus_Type : string;
  sus_RollingUpdate : pointer RollingUpdateStatefulSetStrategyM;
}.
#[export] Instance StatefulSetUpdateStrategy_memory : Memory StatefulSetUpdateStrategyM := {|
  strip x :=
    mkStatefulSetUpdateStrategyM (sus_Type x) (strip (sus_RollingUpdate x));
  addrs x :=
    addrs (sus_RollingUpdate x);
|}.

Definition StatefulSetUpdateStrategy_DeepCopyInto (x : StatefulSetUpdateStrategyM)
  : Alloc StatefulSetUpdateStrategyM :=
  rollingUpdate ← newCopy RollingUpdateStatefulSetStrategy_DeepCopyInto (sus_RollingUpdate x);
  mret (mkStatefulSetUpdateStrategyM (sus_Type x) rollingUpdate).
Definition StatefulSetUpdateStrategy_DeepCopy
  : pointer StatefulSetUpdateStrategyM -> Alloc (pointer StatefulSetUpdateStrategyM) :=
  newCopy StatefulSetUpdateStrategy_DeepCopyInto.

Record StatefulSetSpecM := mkStatefulSetSpecM {
  ss_Replicas : pointer Z;
  ss_Selector : pointer LabelSelectorT;
  ss_Template : PodTemplateSpecT;
  ss_VolumeClaimTemplates : slice PersistentVolumeClaimT;
  ss_ServiceName : string;
  ss_PodManagementPolicy : string;
  ss_UpdateStrategy : pointer StatefulSetUpdateStrategyM;
  ss_RevisionHistoryLimit : Z;
}.
#[export] Instance StatefulSetSpec_memory : Memory StatefulSetSpecM := {|
  strip x :=
    mkStatefulSetSpecM (strip (ss_Replicas x)) (strip (ss_Selector x)) (strip (ss_Template x))
    (strip (ss_VolumeClaimTemplates x)) (ss_ServiceName x) (ss_PodManagementPolicy x)
    (strip (ss_UpdateStrategy x)) (ss_RevisionHistoryLimit x);
  addrs x :=
    addrs (ss_Replicas x) ++ addrs (ss_Selector x) ++ addrs (ss_Template x) ++
    addrs (ss_VolumeClaimTemplates x) ++ addrs (ss_UpdateStrategy x);
|}.

Definition StatefulSetSpec_DeepCopyInto (x : StatefulSetSpecM) : Alloc StatefulSetSpecM :=
  replicas ← newCopy mret (ss_Replicas x);
  selector ← newCopy ext_DeepCopyInto (ss_Selector x);
  template ← ext_DeepCopyInto (ss_Template x);
  volumeClaimTemplates ← newCopy (copyEach ext_DeepCopyInto) (ss_VolumeClaimTemplates x);
  updateStrategy ← newCopy StatefulSetUpdateStrategy_DeepCopyInto (ss_UpdateStrategy x);
  mret (mkStatefulSetSpecM replicas selector template volumeClaimTemplates (ss_ServiceName x)
        (ss_PodManagementPolicy x) updateStrategy (ss_RevisionHistoryLimit x)).
Definition StatefulSetSpec_DeepCopy
  : pointer StatefulSetSpecM -> Alloc (pointer StatefulSetSpecM) :=
  newCopy StatefulSetSpec_DeepCopyInto.

Record StatefulSetStatusM := mkStatefulSetStatusM {
  st_ObservedGeneration : Z;
  st_Replicas : Z;
  st_ReadyReplicas : Z;
  st_CurrentReplicas : Z;
  st_UpdatedReplicas : Z;
  st_CurrentRevision : string;
  st_UpdateRevision : string;
  st_CollisionCount : pointer Z;
  st_Conditions : slice ConditionT;
}.
#[export] Instance StatefulSetStatus_memory : Memory StatefulSetStatusM := {|
  strip x :=
    mkStatefulSetStatusM (st_ObservedGeneration x) (st_Replicas x) (st_ReadyReplicas x)
    (st_CurrentReplicas x) (st_UpdatedReplicas x) (st_CurrentRevision x) (st_UpdateRevision x)
    (strip (st_CollisionCount x)) (strip (st_Conditions x));
  addrs x :=
    addrs (st_CollisionCount x) ++ addrs (st_Conditions x);
|}.

Definition StatefulSetStatus_DeepCopyInto (x : StatefulSetStatusM) : Alloc StatefulSetStatusM :=
  collisionCount ← newCopy mret (st_CollisionCount x);
  conditions ← newCopy (copyEach ext_DeepCopyInto) (st_Conditions x);
  mret (mkStatefulSetStatusM (st_ObservedGeneration x) (st_Replicas x) (st_ReadyReplicas x)
        (st_CurrentReplicas x) (st_UpdatedReplicas x) (st_CurrentRevision x)
        (st_UpdateRevision x) collisionCount conditions).
Definition StatefulSetStatus_DeepCopy
  : pointer StatefulSetStatusM -> Alloc (pointer StatefulSetStatusM) :=
  newCopy StatefulSetStatus_DeepCopyInto.

Record StatefulSetM := mkStatefulSetM {
  sts_TypeMeta : TypeMetaT;
  sts_ObjectMeta : ObjectMetaT;
  sts_Spec : StatefulSetSpecM;
  sts_Status : StatefulSetStatusM;
}.
#[export] Instance StatefulSet_memory : Memory StatefulSetM := {|
  strip x :=
    mkStatefulSetM (sts_TypeMeta x) (strip (sts_ObjectMeta x)) (strip (sts_Spec x))
    (strip (sts_Status x));
  addrs x :=
    addrs (sts_ObjectMeta x) ++ addrs (sts_Spec x) ++ addrs (sts_Status x);
|}.

Definition StatefulSet_DeepCopyInto (x : StatefulSetM) : Alloc StatefulSetM :=
  objectMeta ← ext_DeepCopyInto (sts_ObjectMeta x);
  spec ← StatefulSetSpec_DeepCopyInto (sts_Spec x);
  status ← StatefulSetStatus_DeepCopyInto (sts_Status x);
  mret (mkStatefulSetM (sts_TypeMeta x) objectMeta spec status).
Definition StatefulSet_DeepCopy : pointer StatefulSetM -> Alloc (pointer StatefulSetM) :=
  newCopy StatefulSet_DeepCopyInto.
Definition StatefulSet_DeepCopyObject (p : pointer StatefulSetM) : Alloc (pointer StatefulSetM) :=
  c ← StatefulSet_DeepCopy p; match c with Some _ => mret c | None => mret None end.

Record StatefulSetListM := mkStatefulSetListM {
  stsl_TypeMeta : TypeMetaT;
  stsl_ListMeta : ListMetaT;
  stsl_Items : slice StatefulSetM;
}.
#[export] Instance StatefulSetList_memory : Memory StatefulSetListM := {|
  strip x :=
    mkStatefulSetListM (stsl_TypeMeta x) (strip (stsl_ListMeta x)) (strip (stsl_Items x));
  addrs x :=
    addrs (stsl_ListMeta x) ++ addrs (stsl_Items x);
|}.

Definition StatefulSetList_DeepCopyInto (x : StatefulSetListM) : Alloc StatefulSetListM :=
  listMeta ← ext_DeepCopyInto (stsl_ListMeta x);
  items ← newCopy (copyEach StatefulSet_DeepCopyInto) (stsl_Items x);
  mret (mkStatefulSetListM (stsl_TypeMeta x) listMeta items).
Definition StatefulSetList_DeepCopy
  : pointer StatefulSetListM -> Alloc (pointer StatefulSetListM) :=
  newCopy StatefulSetList_DeepCopyInto.
Definition StatefulSetList_DeepCopyObject (p : pointer StatefulSetListM)
  : Alloc (pointer StatefulSetListM) :=
  c ← StatefulSetList_DeepCopy p; match c with Some _ => mret c | None => mret None end.

(** ** [Stone] *)

Record CoordinatesGroupM := mkCoordinatesGroupM {
  cg_Group : string;
  cg_Zoneset : slice Coordinate;
  cg_Replicas : pointer Z;
}.
#[export] Instance CoordinatesGroup_memory : Memory CoordinatesGroupM := {|
  strip x :=
    mkCoordinatesGroupM (cg_Group x) (strip (cg_Zoneset x)) (strip (cg_Replicas x));
  addrs x :=
    addrs (cg_Zoneset x) ++ addrs (cg_Replicas x);
|}.

Definition CoordinatesGroup_DeepCopyInto (x : CoordinatesGroupM) : Alloc CoordinatesGroupM :=
  zoneset ← newCopy mret (cg_Zoneset x);
  replicas ← newCopy mret (cg_Replicas x);
  mret (mkCoordinatesGroupM (cg_Group x) zoneset replicas).
Definition CoordinatesGroup_DeepCopy
  : pointer CoordinatesGroupM -> Alloc (pointer CoordinatesGroupM) :=
  newCopy CoordinatesGroup_DeepCopyInto.

Record StoneSpecM := mkStoneSpecM {
  stp_Template : PodTemplateSpecT;
  stp_VolumeClaimTemplates : slice PersistentVolumeClaimT;
  stp_Strategy : string;
  stp_Coordinates : slice CoordinatesGroupM;
  stp_Service : ServiceSpecT;
}.
#[export] Instance StoneSpec_memory : Memory StoneSpecM := {|
  strip x :=
    mkStoneSpecM (strip (stp_Template x)) (strip (stp_VolumeClaimTemplates x)) (stp_Strategy x)
    (strip (stp_Coordinates x)) (strip (stp_Service x));
  addrs x :=
    addrs (stp_Template x) ++ addrs (stp_VolumeClaimTemplates x) ++ addrs (stp_Coordinates x) ++
    addrs (stp_Service x);
|}.

Definition StoneSpec_DeepCopyInto (x : StoneSpecM) : Alloc StoneSpecM :=
  template ← ext_DeepCopyInto (stp_Template x);
  volumeClaimTemplates ← newCopy (copyEach ext_DeepCopyInto) (stp_VolumeClaimTemplates x);
  coordinates ← newCopy (copyEach CoordinatesGroup_DeepCopyInto) (stp_Coordinates x);
  service ← ext_DeepCopyInto (stp_Service x);
  mret (mkStoneSpecM template volumeClaimTemplates (stp_Strategy x) coordinates service).
Definition StoneSpec_DeepCopy : pointer StoneSpecM -> Alloc (pointer StoneSpecM) :=
  newCopy StoneSpec_DeepCopyInto.

Record StoneStatusM := mkStoneStatusM {
  sst_Replicas : Z;
  sst_StatefulSet : Z;
}.
#[export] Instance StoneStatus_memory : Memory StoneStatusM := scalar _.

Definition StoneStatus_DeepCopyInto (x : StoneStatusM) : Alloc StoneStatusM := mret x.
Definition StoneStatus_DeepCopy : pointer StoneStatusM -> Alloc (pointer StoneStatusM) :=
  newCopy StoneStatus_DeepCopyInto.

Record StoneM := mkStoneM {
  sto_TypeMeta : TypeMetaT;
  sto_ObjectMeta : ObjectMetaT;
  sto_Spec : StoneSpecM;
  sto_Status : StoneStatusM;
}.
#[export] Instance Stone_memory : Memory StoneM := {|
  strip x :=
    mkStoneM (sto_TypeMeta x) (strip (sto_ObjectMeta x)) (strip (sto_Spec x)) (sto_Status x);
  addrs x :=
    addrs (sto_ObjectMeta x) ++ addrs (sto_Spec x);
|}.

Definition Stone_DeepCopyInto (x : StoneM) : Alloc StoneM :=
  objectMeta ← ext_DeepCopyInto (sto_ObjectMeta x);
  spec ← StoneSpec_DeepCopyInto (sto_Spec x);
  mret (mkStoneM (sto_TypeMeta x) objectMeta spec (sto_Status x)).
Definition Stone_DeepCopy : pointer StoneM -> Alloc (pointer StoneM) :=
  newCopy Stone_DeepCopyInto.
Definition Stone_DeepCopyObject (p : pointer StoneM) : Alloc (pointer StoneM) :=
  c ← Stone_DeepCopy p; match c with Some _ => mret c | None => mret None end.

Record StoneListM := mkStoneListM {
  stol_TypeMeta : TypeMetaT;
  stol_ListMeta : ListMetaT;
  stol_Items : slice StoneM;
}.
#[export] Instance StoneList_memory : Memory StoneListM := {|
  strip x :=
    mkStoneListM (stol_TypeMeta x) (strip (stol_ListMeta x)) (strip (stol_Items x));
  addrs x :=
    addrs (stol_ListMeta x) ++ addrs (stol_Items x);
|}.

Definition StoneList_DeepCopyInto (x : StoneListM) : Alloc StoneListM :=
  listMeta ← ext_DeepCopyInto (stol_ListMeta x);
  items ← newCopy (copyEach Stone_DeepCopyInto) (stol_Items x);
  mret (mkStoneListM (stol_TypeMeta x) listMeta items).
Definition StoneList_DeepCopy : pointer StoneListM -> Alloc (pointer StoneListM) :=
  newCopy StoneList_DeepCopyInto.
Definition StoneList_DeepCopyObject (p : pointer StoneListM) : Alloc (pointer StoneListM) :=
  c ← StoneList_DeepCopy p; match c with Some _ => mret c | None => mret None end.

(** ** [Water] *)

Record WaterSpecM := mkWaterSpecM {
  wsp_Template : PodTemplateSpecT;
  wsp_Strategy : string;
  wsp_Coordinates : slice Coordinate;
  wsp_Service : ServiceSpecT;
}.
#[export] Instance WaterSpec_memory : Memory WaterSpecM := {|
  strip x :=
    mkWaterSpecM (strip (wsp_Template x)) (wsp_Strategy x) (strip (wsp_Coordinates x))
    (strip (wsp_Service x));
  addrs x :=
    addrs (wsp_Template x) ++ addrs (wsp_Coordinates x) ++ addrs (wsp_Service x);
|}.

Definition WaterSpec_DeepCopyInto (x : WaterSpecM) : Alloc WaterSpecM :=
  template ← ext_DeepCopyInto (wsp_Template x);
  coordinates ← newCopy mret (wsp_Coordinates x);
  service ← ext_DeepCopyInto (wsp_Service x);
  mret (mkWaterSpecM template (wsp_Strategy x) coordinates service).
Definition WaterSpec_DeepCopy : pointer WaterSpecM -> Alloc (pointer WaterSpecM) :=
  newCopy WaterSpec_DeepCopyInto.

Record WaterStatusM := mkWaterStatusM {
  wst_DesiredReplicas : Z;
  wst_AlreadyReplicas : Z;
  wst_DesiredDeployment : Z;
  wst_AlreadyDeployment : Z;
}.
#[export] Instance WaterStatus_memory : Memory WaterStatusM := scalar _.

Definition WaterStatus_DeepCopyInto (x : WaterStatusM) : Alloc WaterStatusM := mret x.
Definition WaterStatus_DeepCopy : pointer WaterStatusM -> Alloc (pointer WaterStatusM) :=
  newCopy WaterStatus_DeepCopyInto.

Record WaterM := mkWaterM {
  wat_TypeMeta : TypeMetaT;
  wat_ObjectMeta : ObjectMetaT;
  wat_Spec : WaterSpecM;
  wat_Status : WaterStatusM;
}.
#[export] Instance Water_memory : Memory WaterM := {|
  strip x :=
    mkWaterM (wat_TypeMeta x) (strip (wat_ObjectMeta x)) (strip (wat_Spec x)) (wat_Status x);
  addrs x :=
    addrs (wat_ObjectMeta x) ++ addrs (wat_Spec x);
|}.

Definition Water_DeepCopyInto (x : WaterM) : Alloc WaterM :=
  objectMeta ← ext_DeepCopyInto (wat_ObjectMeta x);
  spec ← WaterSpec_DeepCopyInto (wat_Spec x);
  mret (mkWaterM (wat_TypeMeta x) objectMeta spec (wat_Status x)).
Definition Water_DeepCopy : pointer WaterM -> Alloc (pointer WaterM) :=
  newCopy Water_DeepCopyInto.
Definition Water_DeepCopyObject (p : pointer WaterM) : Alloc (pointer WaterM) :=
  c ← Water_DeepCopy p; match c with Some _ => mret c | None => mret None end.

Record WaterListM := mkWaterListM {
  watl_TypeMeta : TypeMetaT;
  watl_ListMeta : ListMetaT;
  watl_Items : slice WaterM;
}.
#[export] Instance WaterList_memory : Memory WaterListM := {|
  strip x :=
    mkWaterListM (watl_TypeMeta x) (strip (watl_ListMeta x)) (strip (watl_Items x));
  addrs x :=
    addrs (watl_ListMeta x) ++ addrs (watl_Items x);
|}.

Definition WaterList_DeepCopyInto (x : WaterListM) : Alloc WaterListM :=
  listMeta ← ext_DeepCopyInto (watl_ListMeta x);
  items ← newCopy (copyEach Water_DeepCopyInto) (watl_Items x);
  mret (mkWaterListM (watl_TypeMeta x) listMeta items).
Definition WaterList_DeepCopy : pointer WaterListM -> Alloc (pointer WaterListM) :=
  newCopy WaterList_DeepCopyInto.
Definition WaterList_DeepCopyObject (p : pointer WaterListM) : Alloc (pointer WaterListM) :=
  c ← WaterList_DeepCopy p; match c with Some _ => mret c | None => mret None end.

(** ** [Injector] *)

Record InjectorSpecM := mkInjectorSpecM {
  isp_PreContainers : slice ContainerT;
  isp_PostContainers : slice ContainerT;
  isp_ResourceType : string;
  isp_NameSpace : string;
  isp_Name : string;
  isp_Volumes : slice VolumeT;
  isp_Selector : LabelSelectorT;
}.
#[export] Instance InjectorSpec_memory : Memory InjectorSpecM := {|
  strip x :=
    mkInjectorSpecM (strip (isp_PreContainers x)) (strip (isp_PostContainers x))
    (isp_ResourceType x) (isp_NameSpace x) (isp_Name x) (strip (isp_Volumes x))
    (strip (isp_Selector x));
  addrs x :=
    addrs (isp_PreContainers x) ++ addrs (isp_PostContainers x) ++ addrs (isp_Volumes x) ++
    addrs (isp_Selector x);
|}.

Definition InjectorSpec_DeepCopyInto (x : InjectorSpecM) : Alloc InjectorSpecM :=
  preContainers ← newCopy (copyEach ext_DeepCopyInto) (isp_PreContainers x);
  postContainers ← newCopy (copyEach ext_DeepCopyInto) (isp_PostContainers x);
  volumes ← newCopy (copyEach ext_DeepCopyInto) (isp_Volumes x);
  selector ← ext_DeepCopyInto (isp_Selector x);
  mret (mkInjectorSpecM preContainers postContainers (isp_ResourceType x) (isp_NameSpace x)
        (isp_Name x) volumes selector).
Definition InjectorSpec_DeepCopy : pointer InjectorSpecM -> Alloc (pointer InjectorSpecM) :=
  newCopy InjectorSpec_DeepCopyInto.

Record InjectorStatusM := mkInjectorStatusM {}.
#[export] Instance InjectorStatus_memory : Memory InjectorStatusM := scalar _.

Definition InjectorStatus_DeepCopyInto (x : InjectorStatusM) : Alloc InjectorStatusM := mret x.
Definition InjectorStatus_DeepCopy : pointer InjectorStatusM -> Alloc (pointer InjectorStatusM) :=
  newCopy InjectorStatus_DeepCopyInto.

Record InjectorM := mkInjectorM {
  inj_TypeMeta : TypeMetaT;
  inj_ObjectMeta : ObjectMetaT;
  inj_Spec : InjectorSpecM;
  inj_Status : InjectorStatusM;
}.
#[export] Instance Injector_memory : Memory InjectorM := {|
  strip x :=
    mkInjectorM (inj_TypeMeta x) (strip (inj_ObjectMeta x)) (strip (inj_Spec x)) (inj_Status x);
  addrs x :=
    addrs (inj_ObjectMeta x) ++ addrs (inj_Spec x);
|}.

Definition Injector_DeepCopyInto (x : InjectorM) : Alloc InjectorM :=
  objectMeta ← ext_DeepCopyInto (inj_ObjectMeta x);
  spec ← InjectorSpec_DeepCopyInto (inj_Spec x);
  mret (mkInjectorM (inj_TypeMeta x) objectMeta spec (inj_Status x)).
Definition Injector_DeepCopy : pointer InjectorM -> Alloc (pointer InjectorM) :=
  newCopy Injector_DeepCopyInto.
Definition Injector_DeepCopyObject (p : pointer InjectorM) : Alloc (pointer InjectorM) :=
  c ← Injector_DeepCopy p; match c with Some _ => mret c | None => mret None end.

Record InjectorListM := mkInjectorListM {
  injl_TypeMeta : TypeMetaT;
  injl_ListMeta : ListMetaT;
  injl_Items : slice InjectorM;
}.
#[export] Instance InjectorList_memory : Memory InjectorListM := {|
  strip x :=
    mkInjectorListM (injl_TypeMeta x) (strip (injl_ListMeta x)) (strip (injl_Items x));
  addrs x :=
    addrs (injl_ListMeta x) ++ addrs (injl_Items x);
|}.

Definition InjectorList_DeepCopyInto (x : InjectorListM) : Alloc InjectorListM :=
  listMeta ← ext_DeepCopyInto (injl_ListMeta x);
  items ← newCopy (copyEach Injector_DeepCopyInto) (injl_Items x);
  mret (mkInjectorListM (injl_TypeMeta x) listMeta items).
Definition InjectorList_DeepCopy : pointer InjectorListM -> Alloc (pointer InjectorListM) :=
  newCopy InjectorList_DeepCopyInto.
Definition InjectorList_DeepCopyObject (p : pointer InjectorListM)
  : Alloc (pointer InjectorListM) :=
  c ← InjectorList_DeepCopy p; match c with Some _ => mret c | None => mret None end.

(** ** The state of an in-place update *)

Record InPlaceUpdateContainerStatusM := mkInPlaceUpdateContainerStatusM {
  ipc_ImageID : string;
}.
#[export] Instance InPlaceUpdateContainerStatus_memory
  : Memory InPlaceUpdateContainerStatusM := scalar _.

Definition InPlaceUpdateContainerStatus_DeepCopyInto (x : InPlaceUpdateContainerStatusM) : Alloc InPlaceUpdateContainerStatusM := mret x.
Definition InPlaceUpdateContainerStatus_DeepCopy
  : pointer InPlaceUpdateContainerStatusM -> Alloc (pointer InPlaceUpdateContainerStatusM) :=
  newCopy InPlaceUpdateContainerStatus_DeepCopyInto.

Record InPlaceUpdateStateM := mkInPlaceUpdateStateM {
  ips_Revision : string;
  ips_UpdateTimestamp : TimeT;
  ips_LastContainerStatuses : gomap InPlaceUpdateContainerStatusM;
}.
#[export] Instance InPlaceUpdateState_memory : Memory InPlaceUpdateStateM := {|
  strip x :=
    mkInPlaceUpdateStateM (ips_Revision x) (strip (ips_UpdateTimestamp x))
    (strip (ips_LastContainerStatuses x));
  addrs x :=
    addrs (ips_UpdateTimestamp x) ++ addrs (ips_LastContainerStatuses x);
|}.

Definition InPlaceUpdateState_DeepCopyInto (x : InPlaceUpdateStateM)
  : Alloc InPlaceUpdateStateM :=
  updateTimestamp ← ext_DeepCopyInto (ips_UpdateTimestamp x);
  lastContainerStatuses ← newCopy mret (ips_LastContainerStatuses x);
  mret (mkInPlaceUpdateStateM (ips_Revision x) updateTimestamp lastContainerStatuses).
Definition InPlaceUpdateState_DeepCopy
  : pointer InPlaceUpdateStateM -> Alloc (pointer InPlaceUpdateStateM) :=
  newCopy InPlaceUpdateState_DeepCopyInto.

(** ** Every copy is deep *)

Context `{!KubeTypesLaws}.

Lemma UpdatePriorityWeightTerm_deep : deep UpdatePriorityWeightTerm_DeepCopyInto.
Proof. deep_record. Qed.
#[local] Hint Resolve UpdatePriorityWeightTerm_deep : deep.
Lemma UpdatePriorityStrategy_deep : deep UpdatePriorityStrategy_DeepCopyInto.
Proof. deep_record. Qed.
#[local] Hint Resolve UpdatePriorityStrategy_deep : deep.
Lemma RollingUpdateStatefulSetStrategy_deep : deep RollingUpdateStatefulSetStrategy_DeepCopyInto.
Proof. deep_record. Qed.
#[local] Hint Resolve RollingUpdateStatefulSetStrategy_deep : deep.
Lemma StatefulSetUpdateStrategy_deep : deep StatefulSetUpdateStrategy_DeepCopyInto.
Proof. deep_record. Qed.
#[local] Hint Resolve StatefulSetUpdateStrategy_deep : deep.
Lemma StatefulSetSpec_deep : deep StatefulSetSpec_DeepCopyInto.
Proof. deep_record. Qed.
#[local] Hint Resolve StatefulSetSpec_deep : deep.
Lemma StatefulSetStatus_deep : deep StatefulSetStatus_DeepCopyInto.
Proof. deep_record. Qed.
#[local] Hint Resolve StatefulSetStatus_deep : deep.
Lemma StatefulSet_deep : deep StatefulSet_DeepCopyInto.
Proof. deep_record. Qed.
#[local] Hint Resolve StatefulSet_deep : deep.
Lemma StatefulSetList_deep : deep StatefulSetList_DeepCopyInto.
Proof. deep_record. Qed.
#[local] Hint Resolve StatefulSetList_deep : deep.
Lemma CoordinatesGroup_deep : deep CoordinatesGroup_DeepCopyInto.
Proof. deep_record. Qed.
#[local] Hint Resolve CoordinatesGroup_deep : deep.
Lemma StoneSpec_deep : deep StoneSpec_DeepCopyInto.
Proof. deep_record. Qed.
#[local] Hint Resolve StoneSpec_deep : deep.
Lemma StoneStatus_deep : deep StoneStatus_DeepCopyInto.
Proof. deep_record. Qed.
#[local] Hint Resolve StoneStatus_deep : deep.
Lemma Stone_deep : deep Stone_DeepCopyInto.
Proof. deep_record. Qed.
#[local] Hint Resolve Stone_deep : deep.
Lemma StoneList_deep : deep StoneList_DeepCopyInto.
Proof. deep_record. Qed.
#[local] Hint Resolve StoneList_deep : deep.
Lemma WaterSpec_deep : deep WaterSpec_DeepCopyInto.
Proof. deep_record. Qed.
#[local] Hint Resolve WaterSpec_deep : deep.
Lemma WaterStatus_deep : deep WaterStatus_DeepCopyInto.
Proof. deep_record. Qed.
#[local] Hint Resolve WaterStatus_deep : deep.
Lemma Water_deep : deep Water_DeepCopyInto.
Proof. deep_record. Qed.
#[local] Hint Resolve Water_deep : deep.
Lemma WaterList_deep : deep WaterList_DeepCopyInto.
Proof. deep_record. Qed.
#[local] Hint Resolve WaterList_deep : deep.
Lemma InjectorSpec_deep : deep InjectorSpec_DeepCopyInto.
Proof. deep_record. Qed.
#[local] Hint Resolve InjectorSpec_deep : deep.
Lemma InjectorStatus_deep : deep InjectorStatus_DeepCopyInto.
Proof. deep_record. Qed.
#[local] Hint Resolve InjectorStatus_deep : deep.
Lemma Injector_deep : deep Injector_DeepCopyInto.
Proof. deep_record. Qed.
#[local] Hint Resolve Injector_deep : deep.
Lemma InjectorList_deep : deep InjectorList_DeepCopyInto.
Proof. deep_record. Qed.
#[local] Hint Resolve InjectorList_deep : deep.
Lemma InPlaceUpdateContainerStatus_deep : deep InPlaceUpdateContainerStatus_DeepCopyInto.
Proof. deep_record. Qed.
#[local] Hint Resolve InPlaceUpdateContainerStatus_deep : deep.
Lemma InPlaceUpdateState_deep : deep InPlaceUpdateState_DeepCopyInto.
Proof. deep_record. Qed.
#[local] Hint Resolve InPlaceUpdateState_deep : deep.

Lemma UpdatePriorityOrderTerm_deep : deep UpdatePriorityOrderTerm_DeepCopyInto.
Proof. by apply deep_ret. Qed.
#[local] Hint Resolve UpdatePriorityOrderTerm_deep : deep.
Lemma Coordinates_deep : deep Coordinates_DeepCopy.
Proof.
  assert (Hl : forall l : list Coordinate, addrs l = []).
  { intros l. cbn. induction l as [|x l IH]; [done|exact IH]. }
  intros [[a l]|] n; [|split; [done|apply fresh_nil]].
  split; [done|]. change (fresh n (n + 1 + 1) ((n + 1) :: addrs l)). rewrite Hl.
  apply (fresh_widen _ (n + 1) _ (n + 1 + 1)); [|lia..]. apply fresh_cons, fresh_nil.
Qed.
#[local] Hint Resolve Coordinates_deep : deep.

(** [DeepCopyObject] passes the copy on as an interface value. *)
Lemma isolates_object {A} `{Memory A} (copy : pointer A -> Alloc (pointer A)) :
  isolates copy ->
  isolates (fun p => c ← copy p; match c with Some _ => mret c | None => mret None end).
Proof.
  intros Hc p n Hp. specialize (Hc p n Hp). unfold mbind, Alloc_bind. destruct (copy p n) as [[c|] n']; exact Hc.
Qed.

(** C38: A deep copy has the content of its original and shares no memory with it: no address
    of a pointer, slice or map of the copy occurs in the original, none occurs twice in
    the copy, and nil stays nil. For every [DeepCopy] and [DeepCopyObject] of the API
    types. *)
Theorem DeepCopy_isolates :
  isolates StatefulSet_DeepCopy /\ isolates StatefulSetList_DeepCopy
  /\ isolates StatefulSetSpec_DeepCopy /\ isolates StatefulSetStatus_DeepCopy
  /\ isolates StatefulSetUpdateStrategy_DeepCopy
  /\ isolates RollingUpdateStatefulSetStrategy_DeepCopy
  /\ isolates UpdatePriorityStrategy_DeepCopy /\ isolates UpdatePriorityWeightTerm_DeepCopy
  /\ isolates Stone_DeepCopy /\ isolates StoneList_DeepCopy /\ isolates StoneSpec_DeepCopy
  /\ isolates CoordinatesGroup_DeepCopy /\ isolates Coordinates_DeepCopy
  /\ isolates Water_DeepCopy /\ isolates WaterList_DeepCopy /\ isolates WaterSpec_DeepCopy
  /\ isolates Injector_DeepCopy /\ isolates InjectorList_DeepCopy
  /\ isolates InjectorSpec_DeepCopy /\ isolates InPlaceUpdateState_DeepCopy
  /\ isolates InPlaceUpdateContainerStatus_DeepCopy /\ isolates InjectorStatus_DeepCopy
  /\ isolates StoneStatus_DeepCopy /\ isolates WaterStatus_DeepCopy
  /\ isolates UpdatePriorityOrderTerm_DeepCopy
  /\ isolates StatefulSet_DeepCopyObject /\ isolates StatefulSetList_DeepCopyObject
  /\ isolates Stone_DeepCopyObject /\ isolates StoneList_DeepCopyObject
  /\ isolates Water_DeepCopyObject /\ isolates WaterList_DeepCopyObject
  /\ isolates Injector_DeepCopyObject /\ isolates InjectorList_DeepCopyObject.
Proof.
  split_and!; try (apply deep_isolates; solve [eauto with deep]);
    first [apply (isolates_object StatefulSet_DeepCopy)|apply (isolates_object StatefulSetList_DeepCopy)
          |apply (isolates_object Stone_DeepCopy)|apply (isolates_object StoneList_DeepCopy)
          |apply (isolates_object Water_DeepCopy)|apply (isolates_object WaterList_DeepCopy)
          |apply (isolates_object Injector_DeepCopy)|apply (isolates_object InjectorList_DeepCopy)];
    apply deep_isolates; eauto with deep.
Qed.

Lemma DeepCopyObject_nil n :
  (StatefulSet_DeepCopyObject None n).1 = None /\ (StatefulSetList_DeepCopyObject None n).1 = None
  /\ (Stone_DeepCopyObject None n).1 = None /\ (StoneList_DeepCopyObject None n).1 = None
  /\ (Water_DeepCopyObject None n).1 = None /\ (WaterList_DeepCopyObject None n).1 = None
  /\ (Injector_DeepCopyObject None n).1 = None /\ (InjectorList_DeepCopyObject None n).1 = None.
Proof. by split_and!. Qed.
End Types.

(** ** A concrete copy *)

(** Every type of Kubernetes is a slice of strings. *)
#[export] Instance fx_external : External (slice string) := {| ext_DeepCopyInto := newCopy mret |}.
#[export] Instance fx_external_laws : ExternalLaws (slice string).
Proof. apply deep_newCopy, deep_ret_list. by intros ?. Defined.
#[export] Instance fx_kubeTypes : KubeTypes := {|
  TypeMetaT := string; TimeT := slice string; ObjectMetaT := slice string;
  ListMetaT := slice string; PodTemplateSpecT := slice string;
  PersistentVolumeClaimT := slice string; ContainerT := slice string; VolumeT := slice string;
  LabelSelectorT := slice string; ServiceSpecT := slice string; ConditionT := slice string;
|}.
#[export] Instance fx_kubeTypes_laws : KubeTypesLaws.
Proof. split; exact fx_external_laws. Defined.

(** A strategy at the addresses 1 to 4. *)
Definition fx_strategy : pointer StatefulSetUpdateStrategyM :=
  Some (mkRef 1 (mkStatefulSetUpdateStrategyM "RollingUpdate"
    (Some (mkRef 2 (mkRollingUpdateStatefulSetStrategyM
      (Some (mkRef 3 0)) (Some (mkRef 4 (FromString "20%"))) "ReCreate" false None))))).

Example strategy_copy :
  StatefulSetUpdateStrategy_DeepCopy fx_strategy 5 =
    (Some (mkRef 5 (mkStatefulSetUpdateStrategyM "RollingUpdate"
      (Some (mkRef 6 (mkRollingUpdateStatefulSetStrategyM
        (Some (mkRef 7 0)) (Some (mkRef 8 (FromString "20%"))) "ReCreate" false None))))), 9).
Proof. reflexivity. Qed.

Lemma DeepCopy_isolates_witness :
  Forall (fun a => a ∉ addrs fx_strategy)
    (addrs (StatefulSetUpdateStrategy_DeepCopy fx_strategy 5).1).
Proof.
  apply list.Forall_forall. destruct DeepCopy_isolates as (_ & _ & _ & _ & Hsus & _).
  specialize (Hsus fx_strategy 5). destruct (StatefulSetUpdateStrategy_DeepCopy fx_strategy 5).
  apply Hsus. intros a Ha. cbn in Ha. rewrite !elem_of_cons, elem_of_nil in Ha. lia.
Defined.
