(* ===== verification/Startup.v ===== *)
(** How the operator is put together: [main.go], [api/v1/groupversion_info.go] and the
    [SetupWithManager] functions of the controllers, which say whose events each of them
    is told of. *)

From S2P Require Import Prelude Objects GoString Libraries Coordinate Cluster CallLog Fixtures.
From S2P Require Import Naming Expectations PodIdentity SetStatus InPlace Interfaces Revisions.
From S2P Require Import PodControl RealPodControl Control StsController.

(** ** [api/v1/groupversion_info.go] *)

Record GroupVersionT := mkGroupVersion { gv_Group : string; gv_Version : string }.
Definition GroupVersion : GroupVersionT := mkGroupVersion "nuwa.nip.io" "v1".

(** [schema.GroupKind], [schema.GroupResource] and [schema.GroupVersionKind] *)
Record GroupKind := mkGroupKind { gk_Group : string; gk_Kind : string }.
Record GroupResource := mkGroupResource { gr_Group : string; gr_Resource : string }.
Record GroupVersionKind := mkGvk { gvk_Group : string; gvk_Version : string; gvk_Kind : string }.
#[export] Instance GroupVersionKind_eq_dec : EqDecision GroupVersionKind.
Proof. solve_decision. Defined.

Definition Kind (kind : string) : GroupKind := mkGroupKind (gv_Group GroupVersion) kind.
Definition Resource (resource : string) : GroupResource :=
  mkGroupResource (gv_Group GroupVersion) resource.
Definition GVK (kind : string) : GroupVersionKind :=
  mkGvk (gv_Group GroupVersion) (gv_Version GroupVersion) kind.

(** ** The controllers *)

(** [handler.EnqueueRequestForObject{}]: the only handler used. *)
Inductive EventHandler := EnqueueRequestForObject.
#[export] Instance EventHandler_eq_dec : EqDecision EventHandler.
Proof. solve_decision. Defined.

(** What the builder of [ctrl.NewControllerManagedBy] is told. *)
Record ControllerSpec := mkController {
  For : GroupVersionKind;
  Owns : list GroupVersionKind;
  Watches : list (GroupVersionKind * EventHandler);
}.

Definition podKind : GroupVersionKind := mkGvk "" "v1" "Pod".
Definition deploymentKind : GroupVersionKind := mkGvk "apps" "v1" "Deployment".

Definition statefulSetController : ControllerSpec :=
  mkController (GVK "StatefulSet") [] [(podKind, EnqueueRequestForObject)].
Definition stoneController : ControllerSpec := mkController (GVK "Stone") [GVK "StatefulSet"] [].
Definition waterController : ControllerSpec := mkController (GVK "Water") [deploymentKind] [].
Definition injectorController : ControllerSpec :=
  mkController (GVK "Injector") [GVK "Water"; GVK "Stone"] [].

Definition jobOwnerKey : string := ".metadata.controller".
Definition apiGVStr : string := gv_Group GroupVersion +:+ "/" +:+ gv_Version GroupVersion.

(** The function of the field index: the name of the set that controls a set. *)
Definition ownerIndex `{HistoryLib} (job : StatefulSet) : list string :=
  match GetControllerOf (set_meta job) with
  | None => []
  | Some owner =>
      if decide (owner_APIVersion owner <> apiGVStr \/ owner_Kind owner <> "StatefulSet") then []
      else [owner_Name owner]
  end.

(** ** The process *)

Record ManagerOptions := mkManagerOptions {
  MetricsBindAddress : string;
  Port : Z;
  LeaderElection : bool;
  LeaderElectionID : string;
  CertDir : string;
}.

(** [ctrl.NewManager], the manager, the HTTP library and the scheduler. *)
Class Runtime (W : Type) := {
  NewManager : ManagerOptions -> M W (option Err);
  IndexField : GroupVersionKind -> string -> (StatefulSet -> list string) -> M W (option Err);
  Complete : ControllerSpec -> M W (option Err);
  Start : M W (option Err);
  HandleFunc : string -> M W unit;
  ListenAndServeTLS : string -> string -> string -> M W (option Err);
  (** [go podMutatingServe(...)]; it runs beside the caller from here on. *)
  GoPodMutatingServe : string -> M W unit;
}.

Record Flags := mkFlags { metricsAddr : string; enableLeaderElection : bool; sslDir : string }.
(** The default values. *)
Definition noFlags : Flags := mkFlags ":8080" false "/ssl".

Section Process.
Context {W : Type} `{HistoryLib, Runtime W}.

Definition statefulSet_SetupWithManager : M W (option Err) :=
  err ← IndexField (GVK "StatefulSet") jobOwnerKey ownerIndex;
  match err with
  | Some e => mret (Some e)
  | None => Complete statefulSetController
  end.
Definition stone_SetupWithManager : M W (option Err) := Complete stoneController.
Definition water_SetupWithManager : M W (option Err) := Complete waterController.
Definition injector_SetupWithManager : M W (option Err) := Complete injectorController.

(** The server of the admission webhook: it only comes back by panicking. *)
Definition podMutatingServe (sslDir : string) : M W unit :=
  _ ← HandleFunc "/injector-mutating-pods";
  _ ← HandleFunc "/namespace-mutating-resource";
  err ← ListenAndServeTLS ":1443" (sslDir +:+ "/tls.crt") (sslDir +:+ "/tls.key");
  match err with
  | Some _ => lift (Panic ExplicitPanic)
  | None => mret tt
  end.

(** [if err := ...; err != nil { os.Exit(1) }] *)
Definition orExit (m : M W (option Err)) : F W Z unit :=
  err ← run m; match err with Some _ => return_ 1 | None => mret tt end.

(** The exit code of the process. *)
Definition main (flags : Flags) : M W Z := body (
  _ ← orExit (NewManager (mkManagerOptions (metricsAddr flags) 9443 (enableLeaderElection flags)
                "e931e6e2.nuwa.nip.io" (sslDir flags)));
  _ ← orExit water_SetupWithManager;
  _ ← orExit stone_SetupWithManager;
  _ ← orExit injector_SetupWithManager;
  _ ← orExit statefulSet_SetupWithManager;
  _ ← run (GoPodMutatingServe (sslDir flags));
  _ ← orExit Start;
  mret 0).
End Process.

(** ** What is started when *)

Inductive ProcessCall :=
  | ManagerX (err : option Err)
  | IndexX (err : option Err)
  | ControllerX (c : ControllerSpec) (err : option Err)
  | ServerX (sslDir : string)
  | StartX (err : option Err).

Definition loggedErr {W} (c : option Err -> ProcessCall) (m : M W (option Err))
  : M (W * list ProcessCall) (option Err) := fun '(w, log) =>
  match m w with
  | (Ok err, w') => (Ok err, (w', log ++ [c err]))
  | (Panic r, w') => (Panic r, (w', log))
  end.

#[export] Instance tracedRuntime {W} `{Runtime W} : Runtime (W * list ProcessCall) := {|
  NewManager o := loggedErr ManagerX (NewManager o);
  IndexField kind key f := loggedErr IndexX (IndexField kind key f);
  Complete c := loggedErr (ControllerX c) (Complete c);
  Start := loggedErr StartX Start;
  HandleFunc path := unlogged (HandleFunc path);
  ListenAndServeTLS a c k := unlogged (ListenAndServeTLS a c k);
  GoPodMutatingServe dir := logged (ServerX dir) (GoPodMutatingServe dir);
|}.

(** The calls of a start without errors. *)
Definition startup (flags : Flags) : list ProcessCall :=
  [ManagerX None; ControllerX waterController None; ControllerX stoneController None;
   ControllerX injectorController None; IndexX None; ControllerX statefulSetController None;
   ServerX (sslDir flags); StartX None].

(** The same call with another error. *)
Definition failing (c : ProcessCall) (e : Err) : ProcessCall :=
  match c with
  | ManagerX _ => ManagerX (Some e)
  | IndexX _ => IndexX (Some e)
  | ControllerX s _ => ControllerX s (Some e)
  | ServerX dir => ServerX dir
  | StartX _ => StartX (Some e)
  end.

Section Startup.
Context {W : Type} `{HistoryLib, Runtime W}.
Notation T := (W * list ProcessCall)%type.

(** A call that fails is the last one. *)
Definition startsAs (calls : list ProcessCall) (o : Outcome Z) (cs : list ProcessCall) : Prop :=
  (o = Ok 0 /\ cs = calls)
  \/ (exists before c after e, calls = before ++ c :: after /\ cs = before ++ [failing c e] /\ o = Ok 1)
  \/ (exists r, o = Panic r /\ cs `prefix_of` calls).

Lemma startsAs_cons c calls o cs : startsAs calls o cs -> startsAs (c :: calls) o (c :: cs).
Proof.
  intros [[-> ->]|[(before & c' & after & e & -> & -> & ->)|(r & -> & Hp)]].
  - by left.
  - right; left. by exists (c :: before), c', after, e.
  - right; right. exists r. split; [done|]. by apply prefix_cons.
Qed.

Lemma emits_orExit c calls (m : M W (option Err)) (rest : F T Z Z) :
  (forall e, failing (c None) e = c (Some e)) ->
  emits (State := T) (body rest) (startsAs calls) ->
  emits (State := T) (body (_ ← orExit (loggedErr c m); rest)) (startsAs (c None :: calls)).
Proof.
  intros Hc Hrest [w log]. unfold body, orExit, loggedErr, mbind, F_bind, run.
  destruct (m w) as [[[e|]|r] w'].
  - exists [c (Some e)]. split; [done|]. right; left. exists [], (c None), calls, e.
    cbn. by rewrite Hc.
  - destruct (Hrest (w', log ++ [c None])) as (cs & E & Hcs). unfold body in E, Hcs. cbn in *.
    exists (c None :: cs).
    destruct (rest (w', log ++ [c None])) as [[[a|a]|r] [w'' log']]; cbn in *;
      (split; [by rewrite E, <-app_assoc|by apply startsAs_cons]).
  - exists []. rewrite app_nil_r. split; [done|]. right; right. exists r.
    split; [done|]. apply prefix_nil.
Qed.

Lemma emits_serve dir calls (rest : F T Z Z) :
  emits (State := T) (body rest) (startsAs calls) ->
  emits (State := T) (body (_ ← run (GoPodMutatingServe dir); rest))
    (startsAs (ServerX dir :: calls)).
Proof.
  intros Hrest [w log]. unfold body, mbind, F_bind, run. cbn [GoPodMutatingServe tracedRuntime].
  unfold logged. destruct (GoPodMutatingServe dir w) as [[[]|r] w'].
  - destruct (Hrest (w', log ++ [ServerX dir])) as (cs & E & Hcs). unfold body in E, Hcs. cbn in *.
    exists (ServerX dir :: cs).
    destruct (rest (w', log ++ [ServerX dir])) as [[[a|a]|r] [w'' log']]; cbn in *;
      (split; [by rewrite E, <-app_assoc|by apply startsAs_cons]).
  - exists [ServerX dir]. split; [done|]. right; right. exists r. split; [done|].
    apply prefix_cons, prefix_nil.
Qed.

(** Two set-up calls behind one test are two tests. *)
Lemma orExit_then (m1 m2 : M T (option Err)) (rest : F T Z Z) w :
  body (_ ← orExit (err ← m1; match err with Some e => mret (Some e) | None => m2 end); rest) w
  = body (_ ← orExit m1; _ ← orExit m2; rest) w.
Proof.
  unfold body, orExit, mbind, F_bind, M_bind, run. destruct (m1 w) as [[[e|]|r] w']; [done| |done].
  cbn. by destruct (m2 w') as [[[e|]|r] w''].
Qed.

(** The operator starts in order: the manager, the four controllers (with the index before
    the one that needs it), the server of the webhook, and last the manager's loop. The
    first call that fails ends the process with exit code 1, and nothing after it is
    started. *)
Theorem main_starts flags : emits (State := T) (main flags) (startsAs (startup flags)).
Proof.
  unfold main, startup, water_SetupWithManager, stone_SetupWithManager, injector_SetupWithManager.
  cbn [NewManager Complete Start tracedRuntime]. apply (emits_orExit ManagerX); [done|].
  do 3 (apply emits_orExit; [done|]).
  intros w. unfold statefulSet_SetupWithManager. rewrite orExit_then. revert w.
  cbn [IndexField Complete tracedRuntime].
  apply (emits_orExit IndexX); [done|]. apply emits_orExit; [done|]. apply emits_serve.
  apply (emits_orExit StartX); [done|]. intros w. exists []. rewrite app_nil_r.
  split; [done|]. by left.
Qed.
End Startup.

(** ** Whose reconcile an event causes *)

(** The requests the controller library makes of an event about an object: its own key for
    the kind a controller is for, and for a watched kind what the handler says. *)
Class EventLib := {
  requests : ControllerSpec -> GroupVersionKind -> ObjectMeta -> list ObjectKey;
}.
Class EventLaws `{EventLib} := {
  requests_for c m : keyOf m ∈ requests c (For c) m;
  requests_watched c kind m :
    (kind, EnqueueRequestForObject) ∈ Watches c -> keyOf m ∈ requests c kind m;
}.

Section Events.
Context {W : Type} `{EventLaws} `{HistoryLib, SelectorLib, RefManagerLaws, ErrorText}.
Context `{ControlInterface W, Client W StatefulSet, Client W Pod, Lister W Pod}.
Notation T := (W * list ReconcileCall)%type.

(** C23: An event about a pod of a set leads to a reconcile of that set: the controller watches
    pods, requests them under their own names, and reads the set the name belongs to
    before anything else. *)
Theorem pod_event_reconciles_set set ordinal pod :
  occurs newline (Name (set_meta set)) = false -> 0 <= ordinal <= MaxInt32 ->
  keyOf (pod_meta pod) = mkKey (Namespace (set_meta set)) (getPodName set ordinal) ->
  exists req, req ∈ requests statefulSetController podKind (pod_meta pod)
    /\ emits (State := T) (Reconcile req) (fun _ cs =>
         exists err rest, cs = ApiX (SetCallX (GetRequest (keyOf (set_meta set))) err) :: rest).
Proof.
  intros Hnl Hord Hkey. exists (keyOf (pod_meta pod)).
  split; [apply requests_watched; by left|]. rewrite Hkey.
  assert (Hname : realReconcileName (mkKey (Namespace (set_meta set)) (getPodName set ordinal))
                  = keyOf (set_meta set)).
  { unfold realReconcileName, getPodName. cbn [key_Name key_Namespace].
    rewrite regex_podName by (done || lia). by rewrite ParseInt32_itoa. }
  intros w. destruct (Reconcile_emits (keyOf (pod_meta pod)) (Get (keyOf (set_meta set)) w.1).1 w)
    as (cs & E & rest & -> & _); [by rewrite Hkey, Hname|].
  rewrite Hkey, Hname in E. eexists. split; [exact E|]. by eexists _, rest.
Qed.
End Events.

(** ** Witnesses *)

#[local] Instance fx_events : EventLib := {|
  requests c kind m :=
    if decide (kind = For c) then [keyOf m]
    else if decide ((kind, EnqueueRequestForObject) ∈ Watches c) then [keyOf m] else [];
|}.
#[local] Instance fx_events_laws : EventLaws.
Proof.
  split; intros; cbn; repeat case_decide; by try left.
Defined.

Lemma pod_event_reconciles_set_witness :
  exists req, req ∈ requests statefulSetController podKind (metaNamed "default" "web-2")
    /\ realReconcileName req = mkKey "default" "web".
Proof.
  destruct (pod_event_reconciles_set (W := fx_setServer) (fx_set 3 "" (fx_rolling 0 1)) 2
              (fx_pod "default" "web-2" "r1" "Running" true)) as (req & Hreq & _);
    [reflexivity|done|reflexivity|].
  exists req. split; [exact Hreq|]. cbn in Hreq. by apply list_elem_of_singleton in Hreq as ->.
Defined.

(** A start in which the stone controller cannot be set up. *)
#[local] Instance fx_runtime : Runtime unit := {|
  NewManager o := mret None;
  IndexField kind key f := mret None;
  Complete c := mret (if decide (For c = GVK "Stone") then Some (ErrMsg "no stone") else None);
  Start := mret None;
  HandleFunc path := mret tt;
  ListenAndServeTLS a c k := mret None;
  GoPodMutatingServe dir := mret tt;
|}.

Example main_exits :
  (main noFlags : M (unit * list ProcessCall) Z) (tt, [])
  = (Ok 1, (tt, [ManagerX None; ControllerX waterController None;
                 ControllerX stoneController (Some (ErrMsg "no stone"))])).
Proof. reflexivity. Qed.
