(* ===== verification/LoopInvariants.v ===== *)
(** Invariants of the world through the control loop: what every call of a component
    preserves, the code made of them preserves. Used for what the loop does to the cache
    of update expectations. *)

From S2P Require Import Prelude Objects GoString Libraries Coordinate Cluster Naming.
From S2P Require Import Expectations PodIdentity SetStatus InPlace Interfaces Revisions.
From S2P Require Import Control.

Section Preserves.
Context {S : Type} (I : S -> Prop).

Definition preserves {A} (m : M S A) : Prop := forall w, I w -> I (m w).2.

Lemma preserves_ret {A} (a : A) : preserves (mret a).
Proof. by intros w. Qed.
Lemma preserves_lift {A} (o : Outcome A) : preserves (lift o).
Proof. by intros w. Qed.
Lemma preserves_bind {A B} (m : M S A) (f : A -> M S B) :
  preserves m -> (forall a, preserves (f a)) -> preserves (m ≫= f).
Proof.
  intros Hm Hf w Hw. specialize (Hm w Hw). unfold mbind, M_bind.
  destruct (m w) as [[a|r] w']; [by apply Hf|done].
Qed.
Lemma preserves_fret {R A} (a : A) : preserves (mret a : F S R A).
Proof. by intros w. Qed.
Lemma preserves_return {R A} (r : R) : preserves (return_ r : F S R A).
Proof. by intros w. Qed.
Lemma preserves_fbind {R A B} (m : F S R A) (f : A -> F S R B) :
  preserves m -> (forall a, preserves (f a)) -> preserves (m ≫= f).
Proof.
  intros Hm Hf w Hw. specialize (Hm w Hw). unfold mbind, F_bind.
  destruct (m w) as [[[a|r]|r] w']; [by apply Hf|done..].
Qed.
Lemma preserves_run {R A} (m : M S A) : preserves m -> preserves (run m : F S R A).
Proof. intros Hm w Hw. specialize (Hm w Hw). unfold run. by destruct (m w) as [[a|r] w']. Qed.
Lemma preserves_body {R} (m : F S R R) : preserves m -> preserves (body m).
Proof. intros Hm w Hw. specialize (Hm w Hw). unfold body. by destruct (m w) as [[[a|r]|r] w']. Qed.
Lemma preserves_forLoop {J X R} (step : J -> X -> M S (Flow X R)) l s :
  (forall i s, preserves (step i s)) -> preserves (forLoop step l s).
Proof.
  intros Hstep. revert s. induction l as [|i l IH]; intros s; cbn [forLoop]; [apply preserves_ret|].
  apply preserves_bind; [done|]. intros [s'|r]; [apply IH|apply preserves_ret].
Qed.
(** A computed value, with what is known of it. *)
Lemma preserves_flift {R A B} (o : Outcome A) (f : A -> F S R B) :
  (forall a, o = Ok a -> preserves (f a)) -> preserves (run (lift o) ≫= f).
Proof.
  intros Hf w Hw. unfold mbind, F_bind, run, lift. destruct o as [a|r]; [by apply (Hf a)|done].
Qed.
End Preserves.

Create HintDb preserves.
#[export] Hint Resolve preserves_ret preserves_lift preserves_fret preserves_return : preserves.
(** Follow the code: its calls, binds and branches. *)
Ltac preserves :=
  repeat first
    [ solve [auto with preserves | by intros ?]
    | apply preserves_fbind; [|intros ?] | apply preserves_bind; [|intros ?]
    | apply preserves_run | apply preserves_body | case_match ].

(** ** The control loop *)

Section Loop.
Context {W : Type} `{KubeLib, MapRange, Json Coordinates, PatchLib, Json InPlaceUpdateState}.
Context `{HistoryLib, SetCodec, SelectorLib, IntStrLib, GoSort, ErrorText}.
Context `{Recorder W, Clock W, StatefulPodControl W}.
Context (I : World W -> Prop) (set : StatefulSet).

(** What the calls of the first two phases preserve. *)
Record stable : Prop := mkStable {
  stable_event m t r msg : preserves I (api (call (fun w => (tt, Event m t r msg w))));
  stable_now : preserves I (api (call Now));
  stable_create pod : preserves I (api (CreateStatefulPod set pod));
  stable_update s pod : preserves I (api (UpdateStatefulPod s pod));
  stable_condition pod c : preserves I (api (UpdateStatefulPodCondition set pod c));
  stable_delete pod : preserves I (api (DeleteStatefulPod set pod));
}.
Hypothesis Hstable : stable.
Hint Resolve stable_event stable_now stable_create stable_update stable_condition stable_delete
  : preserves.

Lemma syncReplica_preserves cur upd curRev updRev i p status :
  preserves I (syncReplica set cur upd curRev updRev i p status).
Proof.
  unfold syncReplica, recreateFailed, createReplica, markInPlaceReady, enforceIdentity, withCondition.
  preserves.
Qed.

Lemma syncReplicas_preserves cur upd curRev updRev todo : forall i done status,
  preserves I (syncReplicas set cur upd curRev updRev i todo done status).
Proof.
  induction todo as [|p todo IH]; intros i done status; cbn [syncReplicas]; [apply preserves_fret|].
  intros w Hw. pose proof (syncReplica_preserves cur upd curRev updRev i p status w Hw) as Hk.
  destruct (syncReplica set cur upd curRev updRev i p status w) as [[[[st p']|[[st err] p']]|r] w'];
    [|done..]. by apply (IH (i + 1) (done ++ [p']) st w').
Qed.

Lemma terminate_preserves curRev updRev replicas first condemned status :
  preserves I (forLoop (terminateCondemned set curRev updRev replicas first) condemned status).
Proof. apply preserves_forLoop. intros p st. unfold terminateCondemned. preserves. Qed.

(** The whole loop preserves what its in-place updates preserve too. *)
Lemma updateStatefulSet_preserves curRev updRev collisionCount pods revisions :
  (forall name p spec, shouldDoInPlaceUpdate set updRev name revisions = Ok (Some spec) ->
     preserves I (inPlaceUpdatePod set p spec)) ->
  preserves I (updateStatefulSet set curRev updRev collisionCount pods revisions).
Proof.
  intros Hin.
  assert (Hread : forall A (f : controllerCache -> A), preserves I (readCache f)).
  { by intros A f [w cache]. }
  assert (Hreplace : forall p c st, preserves I (replacePod set curRev updRev revisions p c st)).
  { intros p c st. unfold replacePod. apply preserves_flift. intros [spec|] Hplan.
    - pose proof (fun q => Hin _ q _ Hplan) as Hp. unfold deleteForUpdate. preserves.
    - unfold deleteForUpdate. preserves. }
  assert (Htarget : forall maxU t s, preserves I (updateTarget set curRev updRev revisions maxU t s)).
  { intros maxU t s w Hw. unfold updateTarget. destruct (index _ _) as [p|r]; [|done].
    set (m := if decide (getPodRevision (obj p) <> rev_Name updRev) then _ else _).
    assert (Hm : preserves I m) by (unfold m; preserves).
    specialize (Hm w Hw). destruct (m w) as [[[[st p']|[[st err] p']]|r] w']; [|done..].
    by case_decide. }
  unfold updateStatefulSet, syncSet, updateReplicas.
  repeat first
    [ solve [auto with preserves | by intros ?]
    | apply preserves_fbind; [|intros ?] | apply preserves_bind; [|intros ?]
    | apply preserves_run | apply preserves_body | apply syncReplicas_preserves
    | apply terminate_preserves | apply preserves_forLoop; intros ? ? | case_match ].
Qed.
End Loop.

(** The first two phases leave the cache of expectations alone. *)
Lemma cache_stable {W} `{Recorder W, Clock W, StatefulPodControl W} set (P : controllerCache -> Prop) :
  stable (W := W) (fun w => P w.2) set.
Proof.
  assert (Hapi : forall A (m : M W A), preserves (fun w : World W => P w.2) (api m)).
  { intros A m [w cache] Hw. unfold api. by destruct (m w). }
  split; intros; apply Hapi.
Qed.
