(* ===== verification/LoopSimulation.v ===== *)
(** Two implementations of what the control loop calls: as long as they answer alike, the
    loop does the same with both, and where the first fails its run ends with the error.
    Used to carry what is proved of calls that succeed over to a server where they need
    not. *)

From S2P Require Import Prelude Objects GoString Libraries Coordinate Cluster Naming.
From S2P Require Import Expectations PodIdentity SetStatus InPlace Interfaces Revisions.
From S2P Require Import Control LoopInvariants.

Section Agrees.
(** Worlds in step; worlds of the second run that are not of interest; and the worlds in
    which the first run has failed, while the second goes on. *)
Context {S S' : Type} (R : S -> S' -> Prop) (bad : S' -> Prop) (halted : S -> S' -> Prop).

(** What the second run does not leave. *)
Definition keeps {A} (m' : M S' A) : Prop :=
  preserves bad m' /\ forall s, preserves (halted s) m'.

(** From worlds in step both runs have the same outcome and end in step, or the second
    goes bad, or the first ends with a value that tells of its failure. *)
Definition agrees {A} (fails : A -> Prop) (m : M S A) (m' : M S' A) : Prop :=
  keeps m'
  /\ forall w w', R w w' ->
       bad (m' w').2
       \/ ((m w).1 = (m' w').1 /\ R (m w).2 (m' w').2)
       \/ exists a, (m w).1 = Ok a /\ fails a /\ halted (m w).2 (m' w').2.

(** Once halted, the first run ends with such a value, and changes nothing that matters. *)
Definition ends {A} (fails : A -> Prop) (m : M S A) : Prop :=
  forall w w', halted w w' -> exists a, (m w).1 = Ok a /\ fails a /\ halted (m w).2 w'.
Definition never {A} (a : A) : Prop := False.
Definition returns {A X} (fails : X -> Prop) (f : Flow A X) : Prop :=
  match f with Next _ => False | Return x => fails x end.

Lemma keeps_lift {A} (o : Outcome A) : keeps (lift o).
Proof. split; [|intros s]; apply preserves_lift. Qed.
Lemma keeps_bind {A B} (m : M S' A) (f : A -> M S' B) :
  keeps m -> (forall a, keeps (f a)) -> keeps (m ≫= f).
Proof. intros [Hb Hh] Hf. split; [|intros s]; apply preserves_bind; auto; intros a; apply Hf. Qed.

Lemma agrees_lift {A} fails (o : Outcome A) : agrees fails (lift o) (lift o).
Proof. split; [apply keeps_lift|]. by right; left. Qed.
Lemma agrees_ret {A} fails (a : A) : agrees fails (mret a) (mret a).
Proof. apply (agrees_lift fails (Ok a)). Qed.
Lemma agrees_fret {X A} fails (a : A) : agrees fails (mret a : F S X A) (mret a : F S' X A).
Proof. apply (agrees_lift fails (Ok (Next a))). Qed.
Lemma agrees_return {X A} fails (x : X) :
  agrees fails (return_ x : F S X A) (return_ x : F S' X A).
Proof. apply (agrees_lift fails (Ok (Return x))). Qed.

Lemma agrees_ext {A} fails (m n : M S A) (m' n' : M S' A) :
  (forall w, n w = m w) -> (forall w, n' w = m' w) -> agrees fails m m' -> agrees fails n n'.
Proof.
  intros E E' ([Hb Hh] & Hm). split; [split; [|intros s]; intros w; rewrite E'; auto; apply Hh|].
  intros w w'. rewrite E, E'. apply Hm.
Qed.

(** Sequencing: after a failure the rest of the first run must end, too. *)
Lemma agrees_then {A B} fails1 fails2 (m : M S A) (m' : M S' A) (f : A -> M S B) (f' : A -> M S' B) :
  agrees fails1 m m' -> (forall a, agrees fails2 (f a) (f' a)) ->
  (forall a, fails1 a -> ends fails2 (f a)) -> agrees fails2 (m ≫= f) (m' ≫= f').
Proof.
  intros [Hk Hm] Hf He. split; [apply keeps_bind; [done|]; intros a; apply Hf|].
  intros w w' HR. unfold mbind, M_bind. destruct (Hm w w' HR) as [Hb|[[E HR']|(a & E & Ha & Hh)]].
  - left. destruct (m' w') as [[a|r] v']; [by apply Hf|done].
  - destruct (m w) as [o v], (m' w') as [o' v']. cbn in E, HR'. subst o'.
    destruct o as [a|r]; [by apply Hf|by right; left].
  - right; right. destruct (m w) as [o v], (m' w') as [o' v']. cbn in E, Hh. subst o.
    destruct (He a Ha v v' Hh) as (b & Eb & Hb & Hh'). exists b. split_and!; [done..|].
    destruct o' as [a'|r]; [by apply Hf|done].
Qed.

(** Sequencing written as a match on the first run. *)
Lemma agrees_match {A B} fails1 fails2 (m : M S A) (m' : M S' A) (k : A -> M S B) (k' : A -> M S' B) n n' :
  agrees fails1 m m' -> (forall a, agrees fails2 (k a) (k' a)) ->
  (forall a, fails1 a -> ends fails2 (k a)) ->
  (forall w, n w = match m w with (Ok a, v) => k a v | (Panic r, v) => (Panic r, v) end) ->
  (forall w, n' w = match m' w with (Ok a, v) => k' a v | (Panic r, v) => (Panic r, v) end) ->
  agrees fails2 n n'.
Proof.
  intros Hm Hk He E E'. apply (agrees_ext _ (m ≫= k) _ (m' ≫= k')); [done..|]. by eapply agrees_then.
Qed.

(** The same for the code with returns, where a failure is returned. *)
Lemma F_bind_M {T X A B} (m : F T X A) (f : A -> F T X B) w :
  (m ≫= f) w = (@mbind (M T) _ (Flow A X) (Flow B X)
    (fun x => match x with Next a => f a | Return r => mret (Return r) end) m) w.
Proof. unfold mbind, F_bind, M_bind. by destruct (m w) as [[[a|r]|r] v]. Qed.

Lemma ends_ret {A} (fails : A -> Prop) a : fails a -> ends fails (mret a).
Proof. intros Ha w w' Hh. by exists a. Qed.

Lemma agrees_fbind {X A B} fails (m : F S X A) (m' : F S' X A) (f : A -> F S X B) (f' : A -> F S' X B) :
  agrees (returns fails) m m' -> (forall a, agrees (returns fails) (f a) (f' a)) ->
  agrees (returns fails) (m ≫= f) (m' ≫= f').
Proof.
  intros Hm Hf. eapply agrees_ext; [intros w; apply F_bind_M..|].
  eapply agrees_then; [exact Hm|..].
  - intros [a|x]; [apply Hf|apply agrees_ret].
  - intros [a|x]; [done|]. intros Hx. by apply ends_ret.
Qed.
Lemma agrees_bind {A B} fails (m : M S A) (m' : M S' A) (f : A -> M S B) (f' : A -> M S' B) :
  agrees never m m' -> (forall a, agrees fails (f a) (f' a)) -> agrees fails (m ≫= f) (m' ≫= f').
Proof. intros Hm Hf. by eapply agrees_then. Qed.

Lemma run_M {T X A} (m : M T A) w : (run m : F T X A) w = (m ≫= (fun a => mret (Next a))) w.
Proof. unfold run, mbind, M_bind. by destruct (m w) as [[a|r] v]. Qed.
Lemma agrees_run {X A} fails (m : M S A) (m' : M S' A) :
  agrees never m m' -> agrees (returns fails) (run m : F S X A) (run m').
Proof.
  intros Hm. eapply agrees_ext; [intros w; apply run_M..|].
  apply agrees_bind; [done|]. intros a. apply agrees_ret.
Qed.
(** A call that may fail, and what is done with its result. *)
Lemma agrees_try {X A B} fails fails1 (m : M S A) (m' : M S' A) (f : A -> F S X B) (f' : A -> F S' X B) :
  agrees fails1 m m' -> (forall a, agrees (returns fails) (f a) (f' a)) ->
  (forall a, fails1 a -> ends (returns fails) (f a)) ->
  agrees (returns fails) (run m ≫= f) (run m' ≫= f').
Proof.
  intros Hm Hf He. apply (agrees_ext _ (m ≫= (f : A -> M S (Flow B X))) _
    (m' ≫= (f' : A -> M S' (Flow B X)))); [..|by eapply agrees_then].
  - intros w. unfold mbind, F_bind, M_bind, run. by destruct (m w) as [[a|r] v].
  - intros w. unfold mbind, F_bind, M_bind, run. by destruct (m' w) as [[a|r] v].
Qed.

Lemma agrees_body {X} fails (m : F S X X) (m' : F S' X X) :
  agrees (returns fails) m m' -> agrees fails (body m) (body m').
Proof.
  intros Hm.
  apply (agrees_ext _ ((m : M S (Flow X X)) ≫= (fun x => match x with Next r | Return r => mret r end))
    _ ((m' : M S' (Flow X X)) ≫= (fun x => match x with Next r | Return r => mret r end))).
  - intros w. unfold mbind, M_bind, body. by destruct (m w) as [[[]|] ?].
  - intros w. unfold mbind, M_bind, body. by destruct (m' w) as [[[]|] ?].
  - eapply agrees_then; [exact Hm|..].
    + intros [r|r]; apply agrees_ret.
    + intros [r|r]; [done|]. intros Hr. by apply ends_ret.
Qed.

Lemma agrees_forLoop {J T X} fails (step : J -> T -> M S (Flow T X)) (step' : J -> T -> M S' (Flow T X)) l s :
  (forall i s, agrees (returns fails) (step i s) (step' i s)) ->
  agrees (returns fails) (forLoop step l s) (forLoop step' l s).
Proof.
  intros Hstep. revert s. induction l as [|i l IH]; intros s; cbn [forLoop]; [apply agrees_ret|].
  eapply agrees_then; [apply Hstep|..].
  - intros [s'|r]; [apply IH|apply agrees_ret].
  - intros [s'|r]; [done|]. intros Hr. by apply ends_ret.
Qed.

(** What the first run still does once it has halted. *)
Lemma ends_return {X A} fails (x : X) : fails x -> ends (returns fails) (return_ x : F S X A).
Proof. intros Hx. by apply (ends_ret (returns fails) (Return x)). Qed.
Lemma ends_bind {A B} fails (m : M S A) (f : A -> M S B) :
  ends (fun _ => True) m -> (forall a, ends fails (f a)) -> ends fails (m ≫= f).
Proof.
  intros Hm Hf w w' Hh. destruct (Hm w w' Hh) as (a & E & _ & Hh').
  unfold mbind, M_bind. destruct (m w) as [o v]. cbn in E, Hh'. subst o. by apply Hf.
Qed.
Lemma ends_run {X A B} fails (m : M S A) (f : A -> F S X B) :
  ends (fun _ => True) m -> (forall a, ends fails (f a)) -> ends fails (run m ≫= f).
Proof.
  intros Hm Hf w w' Hh. destruct (Hm w w' Hh) as (a & E & _ & Hh').
  unfold mbind, F_bind, run. destruct (m w) as [o v]. cbn in E, Hh'. subst o. by apply Hf.
Qed.
End Agrees.

Create HintDb agrees.
#[export] Hint Resolve agrees_ret agrees_lift agrees_fret agrees_return : agrees.
#[export] Hint Resolve ends_return : agrees.

(** ** The control loop *)

(** Results that tell of an error. *)
Definition errs {B} (r : option Err * B) : Prop := r.1 <> None.
Definition failure (err : option Err) : Prop := err <> None.
Definition erring {B C} (r : B * option Err * C) : Prop := r.1.2 <> None.

Ltac ends :=
  repeat first
    [ solve [auto with agrees]
    | solve [match goal with H : errs (None, _) |- _ => by destruct H
             | H : failure None |- _ => by destruct H end]
    | apply ends_return; discriminate | apply ends_ret; exact I
    | apply ends_run; [|intros ?] | apply ends_bind; [|intros ?] | case_match; subst ].
Ltac agrees :=
  repeat first
    [ solve [auto with agrees]
    | apply (agrees_try _ _ _ _ errs); [solve [auto with agrees]|intros ?|intros ? ?; ends]
    | apply (agrees_try _ _ _ _ failure); [solve [auto with agrees]|intros ?|intros ? ?; ends]
    | apply agrees_fbind; [|intros ?] | apply agrees_bind; [|intros ?]
    | apply agrees_run | apply agrees_body | apply agrees_forLoop; intros ? ?
    | case_match | apply agrees_fret | apply agrees_ret ].

Section Loop.
Context {W W' : Type} `{KubeLib, MapRange, Json Coordinates, PatchLib, Json InPlaceUpdateState}.
Context `{HistoryLib, SetCodec, SelectorLib, IntStrLib, GoSort, ErrorText}.
Context `{Recorder W, Clock W, StatefulPodControl W}.
Context `{Recorder W', Clock W', StatefulPodControl W'}.
Context (R : World W -> World W' -> Prop) (bad : World W' -> Prop).
Context (halted : World W -> World W' -> Prop) (set : StatefulSet).
Notation agrees := (agrees R bad halted).

(** The calls of the loop answer alike, except that creating and deleting may fail in the
    first run. *)
Record alike : Prop := mkAlike {
  alike_event m t r msg : agrees never (api (call (fun w => (tt, Event m t r msg w))))
                            (api (call (fun w => (tt, Event m t r msg w))));
  alike_now : agrees never (api (call Now)) (api (call Now));
  alike_create pod : agrees errs (api (CreateStatefulPod set pod)) (api (CreateStatefulPod set pod));
  alike_update s pod : agrees never (api (UpdateStatefulPod s pod)) (api (UpdateStatefulPod s pod));
  alike_condition pod c : agrees never (api (UpdateStatefulPodCondition set pod c))
                            (api (UpdateStatefulPodCondition set pod c));
  alike_inPlace pod spec : agrees never (api (InPlaceUpdateStatefulPod set pod spec))
                             (api (InPlaceUpdateStatefulPod set pod spec));
  alike_delete pod : agrees failure (api (DeleteStatefulPod set pod))
                       (api (DeleteStatefulPod set pod));
  alike_onCache f : agrees never (onCache f) (onCache f);
  alike_readCache {A} (f : controllerCache -> A) : agrees never (readCache f) (readCache f);
  alike_ends_now : ends halted (fun _ => True) (api (call Now));
}.
Hypothesis Halike : alike.
Hint Resolve alike_event alike_now alike_create alike_update alike_condition alike_inPlace
  alike_delete alike_onCache alike_readCache alike_ends_now : agrees.

Lemma syncReplica_agrees cur upd curRev updRev i p status :
  agrees (returns erring) (syncReplica set cur upd curRev updRev i p status)
    (syncReplica set cur upd curRev updRev i p status).
Proof.
  unfold syncReplica, recreateFailed, createReplica, markInPlaceReady, enforceIdentity, withCondition.
  agrees.
Qed.
Hint Resolve syncReplica_agrees : agrees.

Lemma syncReplicas_agrees cur upd curRev updRev todo : forall i done status,
  agrees (returns erring) (syncReplicas set cur upd curRev updRev i todo done status)
    (syncReplicas set cur upd curRev updRev i todo done status).
Proof.
  induction todo as [|p todo IH]; intros i done status; cbn [syncReplicas]; [apply agrees_fret|].
  pose (next := fun V (go : Z -> list Ptr -> StatefulSetStatus ->
                  F (World V) (StatefulSetStatus * option Err * list Ptr) (StatefulSetStatus * list Ptr))
      (x : Flow (StatefulSetStatus * Ptr) (StatefulSetStatus * option Err * Ptr)) =>
    match x return F (World V) (StatefulSetStatus * option Err * list Ptr) (StatefulSetStatus * list Ptr) with
    | Next (st, p) => go (i + 1) (done ++ [p]) st
    | Return (st, err, p) => return_ (st, err, done ++ p :: todo)
    end).
  eapply (agrees_match R bad halted _ _ _ _
    (next W (fun i d st => syncReplicas set cur upd curRev updRev i todo d st))
    (next W' (fun i d st => syncReplicas set cur upd curRev updRev i todo d st)));
    [apply (syncReplica_agrees cur upd curRev updRev i p status)| | |..];
    [| |intros w; by destruct (syncReplica _ _ _ _ _ i p status w) as [[[[st p']|[[st err] p']]|r] v]..].
  - intros [[st p']|[[st err] p']]; [apply IH|apply agrees_return].
  - intros [[st p']|[[st err] p']]; [done|]. intros He. by apply ends_return.
Qed.
Hint Resolve syncReplicas_agrees : agrees.

Lemma replacePod_agrees curRev updRev revisions p completed status :
  agrees (returns erring) (replacePod set curRev updRev revisions p completed status)
    (replacePod set curRev updRev revisions p completed status).
Proof. unfold replacePod, deleteForUpdate, inPlaceUpdatePod. agrees. Qed.
Hint Resolve replacePod_agrees : agrees.

Lemma updateTarget_agrees curRev updRev revisions maxU target s :
  agrees (returns erring) (updateTarget set curRev updRev revisions maxU target s)
    (updateTarget set curRev updRev revisions maxU target s).
Proof.
  unfold updateTarget. destruct (index _ _) as [p|r]; [|apply (agrees_lift R bad halted _ (Panic r))].
  set (completed := checkInPlaceUpdateCompleted (obj p)).
  pose (next := fun (x : Flow (StatefulSetStatus * Ptr) (StatefulSetStatus * option Err * Ptr)) =>
    match x return Flow UpdateState (StatefulSetStatus * option Err * list Ptr) with
    | Return (st, err, p) => Return (st, err, <[Z.to_nat target := p]> (us_replicas s))
    | Next (st, p) =>
        let replicas := <[Z.to_nat target := p]> (us_replicas s) in
        let unavailable :=
          if decide (getPodRevision (obj p) <> rev_Name updRev \/ isHealthy (obj p) = false
                     \/ completed <> None)
          then unavailablePods s ++ [Name (pod_meta (obj p))] else unavailablePods s in
        if decide (Z.of_nat (length unavailable) >= maxU) then Return (st, None, replicas)
        else Next (mkUpdateState st unavailable replicas)
    end).
  pose (replace := fun V (doIt : F (World V) (StatefulSetStatus * option Err * Ptr) (StatefulSetStatus * Ptr)) =>
    if decide (getPodRevision (obj p) <> rev_Name updRev) then
      if isTerminating (obj p) then mret (us_status s, p) else doIt
    else mret (us_status s, p)).
  apply (agrees_match R bad halted (returns erring) _
    (replace W (replacePod set curRev updRev revisions p completed (us_status s)))
    (replace W' (replacePod set curRev updRev revisions p completed (us_status s)))
    (fun x => mret (next x)) (fun x => mret (next x))).
  - unfold replace. agrees.
  - intros x. apply agrees_ret.
  - intros [[st p']|[[st err] p']]; [done|]. intros He. by apply ends_ret.
  - intros w. fold (replace W (replacePod set curRev updRev revisions p completed (us_status s))).
    destruct (replace W _ w) as [[[[st p']|[[st err] p']]|r] v]; [|done..]. cbn. by case_decide.
  - intros w. fold (replace W' (replacePod set curRev updRev revisions p completed (us_status s))).
    destruct (replace W' _ w) as [[[[st p']|[[st err] p']]|r] v]; [|done..]. cbn. by case_decide.
Qed.
Hint Resolve updateTarget_agrees : agrees.

Lemma syncSet_agrees cur upd curRev updRev revisions n replicas condemned status :
  agrees erring (body (syncSet set cur upd curRev updRev revisions n replicas condemned status))
    (body (syncSet set cur upd curRev updRev revisions n replicas condemned status)).
Proof.
  apply agrees_body. unfold syncSet, updateReplicas, terminateCondemned. agrees.
Qed.
Hint Resolve syncSet_agrees : agrees.

(** So does the whole loop. *)
Lemma updateStatefulSet_agrees curRev updRev collisionCount pods revisions :
  agrees erring (updateStatefulSet set curRev updRev collisionCount pods revisions)
    (updateStatefulSet set curRev updRev collisionCount pods revisions).
Proof.
  assert (Hrest : forall cur upd n replicas condemned status,
    agrees erring
      (res ← body (syncSet (W := W) set cur upd curRev updRev revisions n replicas condemned status);
       let '(status, err, replicas) := res in mret (Some status, err, replicas))
      (res ← body (syncSet (W := W') set cur upd curRev updRev revisions n replicas condemned status);
       let '(status, err, replicas) := res in mret (Some status, err, replicas))).
  { intros. eapply (agrees_then _ _ _ erring); [apply syncSet_agrees|..].
    - intros [[st err] reps]. apply agrees_ret.
    - intros [[st err] reps] He. by apply ends_ret. }
  unfold updateStatefulSet. agrees.
Qed.
End Loop.
