(* ===== verification/ControlCalls.v ===== *)
(** Which calls the control loop makes: the loop is run with any implementation of
    the pod interface and a log of the calls, and the theorems of [ControlSafety]
    are read off the log. This file has the logic for such runs and what one slot,
    one condemned pod and one update target contribute. *)

From S2P Require Import Prelude Objects GoString Libraries Coordinate Cluster Naming.
From S2P Require Import Expectations PodIdentity SetStatus InPlace Interfaces Revisions.
From S2P Require Import CallLog Control.

(** ** The calls of a run *)

#[export] Instance worldLog {T C} `{HasLog T C} : HasLog (World T) C := fun w => logOf w.1.

Section Emits.
Context {W : Type}.
Notation T := (W * list PodCall)%type.

Lemma emits_onCache f (Q : Outcome unit -> list PodCall -> Prop) :
  Q (Ok tt) [] -> emits (onCache (W := T) f) Q.
Proof. intros HQ [w cache]. exists []. rewrite app_nil_r. split; [done|]. apply HQ. Qed.

Lemma emits_readCache {A} (f : controllerCache -> A) (Q : Outcome A -> list PodCall -> Prop) :
  (forall a, Q (Ok a) []) -> emits (readCache (W := T) f) Q.
Proof. intros HQ [w cache]. exists []. rewrite app_nil_r. split; [done|]. apply HQ. Qed.

(** A call that is logged, with what is known about its result. *)
Lemma emits_logged {A} c (m : M W A) (Q : Outcome A -> list PodCall -> Prop) :
  (forall o w w', m w = (o, w') -> Q o [c]) -> emits (api (logged c m)) Q.
Proof.
  intros HQ [[w log] cache]. exists [c]. unfold api, logged.
  destruct (m w) as [o w'] eqn:E. cbn. split; [done|]. by eapply HQ.
Qed.

(** A call of another kind. *)
Lemma emits_silent {A} (f : T -> A * T) (Q : Outcome A -> list PodCall -> Prop) :
  (forall w, (f w).2.2 = w.2) -> (forall a, Q (Ok a) []) -> emits (api (call f)) Q.
Proof.
  intros Hf HQ [w cache]. exists []. rewrite app_nil_r. unfold api, call.
  specialize (Hf w). destruct (f w) as [a w']. cbn in *. auto.
Qed.
End Emits.

(** ** New pods are not created yet *)

Section Fresh.
Context `{KubeLib, !KubeLibLaws, MapRange, Json Coordinates}.

Lemma coordinatorPod_Status set pod ordinal pod' :
  coordinatorPod set pod ordinal = Ok pod' ->
  pod_Status pod' = pod_Status pod /\ pod_meta pod' = pod_meta pod.
Proof.
  unfold coordinatorPod. destruct (_ !! "coordinates") as [s|]; [|by intros [= ->]].
  destruct (unmarshal s) as [cs|]; [|by intros [= ->]].
  case_decide; [done|]. destruct (index cs _) as [c|]; [|done]. cbn.
  case_decide; by intros [= <-].
Qed.

Lemma newStatefulSetPod_fresh set ordinal pod :
  newStatefulSetPod set ordinal = Ok pod -> isCreated pod = false /\ isFailed pod = false.
Proof.
  unfold newStatefulSetPod. destruct (GetPodFromTemplate _ _ _) as [|pod0] eqn:E; [done|].
  apply template_pod in E as (_ & _ & _ & _ & Hphase).
  destruct (updateStorage _ _) as [pod1|] eqn:Eu; [|done]. cbn [mbind Outcome_bind].
  intros [Hst _]%coordinatorPod_Status. apply updateStorage_frame in Eu as (_ & Hst1 & _).
  unfold isCreated, isFailed. rewrite Hst, Hst1. cbn. rewrite Hphase.
  split; reflexivity.
Qed.

Lemma freshPod_fresh cur upd curRev updRev i q :
  freshPod cur upd curRev updRev i = Ok q ->
  ptr_id q = Fresh i /\ isCreated (obj q) = false /\ isFailed (obj q) = false.
Proof.
  unfold freshPod, newVersionedStatefulSetPod.
  destruct (atCurrentRevision cur i) as [[]|]; [| |done]; cbn [mbind Outcome_bind];
    (destruct (newStatefulSetPod _ i) as [pod|] eqn:E; [|done]); intros [= <-];
    apply newStatefulSetPod_fresh in E as [? ?]; done.
Qed.
End Fresh.

(** ** What one slot contributes *)

(** The condition that puts a pod back into service after an in-place update. *)
Definition readyMark : PodCondition :=
  mkPodCondition StatefulSetInPlaceUpdateReady ConditionTrue "" "".

(** A call that neither creates nor terminates a pod. *)
Definition upkeep (c : PodCall) : Prop :=
  match c with ConditionCall _ _ | UpdateCall _ => True | _ => False end.

Section Calls.
Context {W : Type} `{KubeLib, !KubeLibLaws, MapRange, Json Coordinates, PatchLib,
  Json InPlaceUpdateState}.
Context `{HistoryLib, SetCodec, SelectorLib, IntStrLib, GoSort, ErrorText}.
Context `{Recorder W, Clock W, StatefulPodControlLaws W}.
Context (set currentSet updateSet : StatefulSet).
Context (curRev updRev : ControllerRevision) (revisions : list ControllerRevision).
Notation T := (W * list PodCall)%type.
Notation fresh := (freshPod currentSet updateSet curRev updRev).

Notation SlotOutcome :=
  (Outcome (Flow (StatefulSetStatus * Ptr) (StatefulSetStatus * option Err * Ptr))).

(** What going on to the next slot and returning without an error mean for the mode. *)
Definition stopsQuietly (o : SlotOutcome) : Prop :=
  match o with Ok (Return (_, None, _)) => True | _ => False end.
Definition goesOn (o : SlotOutcome) : Prop :=
  match o with Ok (Next _) => True | _ => False end.

(** The pod of a slot after upkeep: the same one, with its in-place condition set if that
    was due. It keeps its name and revision, and is as ready as it was listed. *)
Definition sees (p p' : Ptr) : Prop :=
  (if shouldUpdateInPlaceReady (obj p)
   then pod_Status (obj p') = pod_Status (updatePodCondition (obj p) readyMark)
   else p' = p)
  /\ ptr_id p' = ptr_id p /\ keyOf (pod_meta (obj p')) = keyOf (pod_meta (obj p))
  /\ getPodRevision (obj p') = getPodRevision (obj p)
  /\ isRunningAndReady (obj p') = isRunningAndReady (obj p).

(** The three ways through a slot: its pod is kept, with upkeep calls only; its
    failed pod is deleted and the pass ends there; or a pod is created in it. Only a
    parallel pass goes on past a created pod, or past one that is not ready; only a
    monotonic one ends without an error. *)
Definition keptPost (p : Ptr) (o : SlotOutcome) (cs : list PodCall) : Prop :=
  Forall upkeep cs /\ isFailed (obj p) = false /\ isCreated (obj p) = true
  /\ match o with
     | Ok (Next (_, p')) =>
         sees p p'
         /\ (allowsBurst set = false ->
             isTerminating (obj p) = false /\ isRunningAndReady (obj p') = true)
     | _ => True
     end.
Definition deletedPost (p : Ptr) (o : SlotOutcome) (cs : list PodCall) : Prop :=
  isFailed (obj p) = true /\ cs = [DeleteCall (obj p)] /\ ~ goesOn o.
Definition createdPost (i : Z) (p : Ptr) (o : SlotOutcome) (cs : list PodCall) : Prop :=
  exists q, isCreated (obj q) = false
    /\ ((isFailed (obj p) = true /\ fresh i = Ok q
         /\ cs = [DeleteCall (obj p); CreateCall (obj q)])
        \/ (isFailed (obj p) = false /\ q = p /\ cs = [CreateCall (obj q)]))
    /\ (goesOn o -> allowsBurst set = true)
    /\ match o with
       | Ok (Next (_, p')) => keyOf (pod_meta (obj p')) = keyOf (pod_meta (obj q))
       | _ => True
       end.
Definition slotPost (i : Z) (p : Ptr) (o : SlotOutcome) (cs : list PodCall) : Prop :=
  (stopsQuietly o -> allowsBurst set = false)
  /\ (keptPost p o cs \/ deletedPost p o cs \/ createdPost i p o cs).

Lemma createReplica_emits p status (Q : SlotOutcome -> list PodCall -> Prop) :
  (forall o, (stopsQuietly o -> allowsBurst set = false) -> (goesOn o -> allowsBurst set = true) ->
     match o with
     | Ok (Next (_, p')) => keyOf (pod_meta (obj p')) = keyOf (pod_meta (obj p))
     | _ => True
     end ->
     Q o [CreateCall (obj p)]) ->
  emits (State := World T) (createReplica set curRev updRev p status) Q.
Proof.
  intros HQ. unfold createReplica. apply emits_fbind, emits_run, emits_logged.
  intros [[[e|] pod]|r] w1 w2 E; [| |by apply HQ].
  - apply emits_fbind, emits_run. unfold withCondition.
    apply emits_bind, emits_silent; [by intros [w log]; cbn; destruct (Now w)|].
    intros now. apply emits_ret, emits_return, HQ; done.
  - destruct (allowsBurst set) eqn:Eb; cbn [negb].
    + apply emits_fret. apply HQ; [done..|]. by eapply create_podKey.
    + apply emits_return. by apply HQ.
Qed.

Lemma enforceIdentity_emits p status :
  emits (State := World T) (enforceIdentity set updateSet p status) (fun o cs =>
    Forall upkeep cs /\ ~ stopsQuietly o
    /\ match o with Ok (Next (_, p')) => p' = p | _ => True end).
Proof.
  unfold enforceIdentity. destruct (_ && _);
    [apply emits_fret; split_and!; [constructor|by intros []|done]|].
  apply emits_fbind, emits_run, emits_logged. intros [[[e|] pod]|r] _ _ _.
  - apply emits_fbind, emits_run. unfold withCondition.
    apply emits_bind, emits_silent; [by intros [w log]; cbn; destruct (Now w)|].
    intros now. apply emits_ret, emits_return. split_and!; [repeat constructor|by intros []|done].
  - apply emits_fret. split_and!; [repeat constructor|by intros []|done].
  - split_and!; [repeat constructor|by intros []|done].
Qed.

Lemma markInPlaceReady_emits p status :
  emits (State := World T) (markInPlaceReady set p status) (fun o cs =>
    Forall upkeep cs
    /\ match o with
       | Ok (Next p') => sees p p'
       | Ok (Return (_, err, _)) => err <> None
       | Panic _ => True
       end).
Proof.
  unfold markInPlaceReady. destruct (shouldUpdateInPlaceReady _) eqn:E.
  - apply emits_fbind, emits_run, emits_logged. intros [[[e|] pod]|r] w w' Ec.
    + apply emits_return. split; [repeat constructor|done].
    + apply emits_fret. split; [repeat constructor|]. unfold sees. rewrite E. cbn [obj ptr_id].
      pose proof (condition_status _ _ _ _ _ _ _ Ec) as Hst.
      split_and!; [done|done|by eapply condition_podKey|by eapply condition_revision|].
      by apply (updatePodCondition_ready _ _ readyMark).
    + split; [repeat constructor|done].
  - apply emits_fret. split; [constructor|]. unfold sees. rewrite E. by split_and!.
Qed.

Lemma syncReplica_emits i p status :
  emits (State := World T) (syncReplica set currentSet updateSet curRev updRev i p status) (slotPost i p).
Proof.
  unfold syncReplica, recreateFailed. cbv zeta. apply emits_fbind.
  destruct (isFailed (obj p)) eqn:Ef.
  - apply emits_fbind, emits_run, emits_silent; [done|]. intros _.
    apply emits_fbind, emits_run, emits_logged. intros [[e|]|r] _ _ _; cbn [app].
    1: apply emits_return. 1, 3: split; [done|]; right; left; split_and!; [done..|by intros []].
    apply emits_fbind, emits_run, emits_lift.
    destruct (fresh i) as [q|r] eqn:Eq;
      [|split; [done|]; right; left; split_and!; [done..|by intros []]].
    apply emits_fret. pose proof (freshPod_fresh _ _ _ _ _ _ Eq) as (_ & Hc & _).
    rewrite Hc. cbn [negb]. apply createReplica_emits. intros o Hq Ho Hk.
    split; [done|]. right; right. exists q. split_and!; [done| |done|done]. left. done.
  - apply emits_fret. destruct (isCreated (obj p)) eqn:Ec; cbn [negb].
    2: { apply createReplica_emits. intros o Hq Ho Hk. split; [done|]. right; right.
         exists p. split_and!; [done| |done|done]. right. done. }
    destruct (isTerminating (obj p) && negb (allowsBurst set)) eqn:Et.
    { apply emits_return. split; [by destruct (isTerminating _), (allowsBurst set)|].
      left. split_and!; [constructor|done..]. }
    apply emits_fbind. eapply emits_mono; [apply markInPlaceReady_emits|].
    intros [[p'|[[st err] p']]|r] cs [Hcs Hp']; cbn [app];
      [|split; [by destruct err|]; left; split_and!; done|split; [done|]; left; split_and!; done].
    destruct (negb (isRunningAndReady (obj p')) && negb (allowsBurst set)) eqn:Er.
    { apply emits_return. rewrite app_nil_r.
      split; [by destruct (isRunningAndReady _), (allowsBurst set)|]. left. split_and!; done. }
    eapply emits_mono; [apply enforceIdentity_emits|].
    intros o cs' (Hcs' & Hq & Ho). split; [done|].
    left. split_and!; [by apply Forall_app|done|done|].
    destruct o as [[[st p'']|x]|r]; [|done..]. subst p''. split; [done|]. intros Hb.
    rewrite Hb in Et, Er. cbn in Et, Er. rewrite andb_true_r in Et, Er.
    split; [done|]. by destruct (isRunningAndReady _).
Qed.

(** ** The pass over the replicas *)

Notation PassOutcome :=
  (Outcome (Flow (StatefulSetStatus * list Ptr) (StatefulSetStatus * option Err * list Ptr))).

(** The runs of the loop, slot by slot. *)
Inductive Pass : Z -> list Ptr -> list Ptr -> PassOutcome -> list PodCall -> Prop :=
  | PassEnd i done st : Pass i [] done (Ok (Next (st, done))) []
  | PassNext i p todo done st p' cs o cs' :
      slotPost i p (Ok (Next (st, p'))) cs ->
      Pass (i + 1) todo (done ++ [p']) o cs' ->
      Pass i (p :: todo) done o (cs ++ cs')
  | PassReturn i p todo done st err p' cs :
      slotPost i p (Ok (Return (st, err, p'))) cs ->
      Pass i (p :: todo) done (Ok (Return (st, err, done ++ p' :: todo))) cs
  | PassPanic i p todo done r cs :
      slotPost i p (Panic r) cs -> Pass i (p :: todo) done (Panic r) cs.

Lemma syncReplicas_emits todo : forall i done status,
  emits (State := World T) (syncReplicas set currentSet updateSet curRev updRev i todo done status)
    (Pass i todo done).
Proof.
  induction todo as [|p todo IH]; intros i done status; cbn [syncReplicas].
  { apply emits_fret. constructor. }
  intros w. destruct (syncReplica_emits i p status w) as (cs & E & HQ).
  destruct (syncReplica set currentSet updateSet curRev updRev i p status w) as [o w'].
  cbn in E, HQ. destruct o as [[[st p']|[[st err] p']]|r].
  - destruct (IH (i + 1) (done ++ [p']) st w') as (cs' & E' & Hpass).
    exists (cs ++ cs'). split; [by rewrite E', E, <-app_assoc|]. by eapply PassNext.
  - exists cs. split; [done|]. by apply PassReturn.
  - exists cs. split; [done|]. by apply PassPanic.
Qed.

(** The calls after which a monotonic pass ends in slot [i]: none that create or
    terminate, the deletion of its failed pod, or the creation of its pod. *)
Definition stopCalls (i : Z) (p : Ptr) (last : list PodCall) : Prop :=
  Forall upkeep last
  \/ (isFailed (obj p) = true /\ last = [DeleteCall (obj p)])
  \/ exists q, isCreated (obj q) = false
       /\ ((isFailed (obj p) = true /\ fresh i = Ok q
            /\ last = [DeleteCall (obj p); CreateCall (obj q)])
           \/ (isFailed (obj p) = false /\ q = p /\ last = [CreateCall (obj q)])).

(** A pod a monotonic pass goes past: one that is running and ready, and stays. *)
Definition passable (p : Ptr) : Prop :=
  isCreated (obj p) = true /\ isFailed (obj p) = false /\ isTerminating (obj p) = false
  /\ isRunningAndReady (obj p) = true.

Lemma slotPost_stop i p o cs : slotPost i p o cs -> ~ goesOn o -> stopCalls i p cs.
Proof.
  intros [_ [(Hcs & _)|[(? & ? & _)|(q & ? & Hq & _)]]] _; [by left|right; by left|right; right].
  exists q. split; [done|]. exact Hq.
Qed.

(** A monotonic pass does upkeep on the slots it can go past, and ends in the first
    one it cannot. *)
Lemma Pass_monotonic i todo done o cs :
  allowsBurst set = false -> Pass i todo done o cs ->
  exists (k : nat) up last, cs = up ++ last /\ Forall upkeep up /\ Forall passable (take k todo)
    /\ match o with
       | Ok (Next (_, reps)) => last = [] /\ k = length todo
           /\ exists reps', reps = done ++ reps' /\ Forall2 sees todo reps'
       | _ => exists p, todo !! k = Some p /\ stopCalls (i + Z.of_nat k) p last
       end.
Proof.
  intros Hb. induction 1 as [i done st|i p todo done st p' cs o cs' Hslot Hpass IH
                            |i p todo done st err p' cs Hslot|i p todo done r cs Hslot].
  - exists 0%nat, [], []. split_and!; [done|constructor|constructor|done|done|].
    exists []. by rewrite app_nil_r.
  - destruct Hslot as [_ [(Hcs & Hf & Hc & Hs & Hr)|[(_ & _ & Hx)|(q & _ & _ & Hx & _)]]];
      [|by destruct Hx|by rewrite Hx in Hb].
    destruct (Hr Hb) as [Ht Hready].
    destruct IH as (k & up & last & -> & Hup & Hpre & Ho).
    exists (S k), (cs ++ up), last. rewrite <-app_assoc.
    split_and!; [done|by apply Forall_app| |].
    { constructor; [|done]. split_and!; [done..|]. destruct Hs as (_ & _ & _ & _ & <-). done. }
    replace (i + Z.of_nat (S k)) with (i + 1 + Z.of_nat k) by lia.
    destruct o as [[[st' reps]|x]|r]; [|exact Ho..].
    destruct Ho as (-> & -> & reps' & -> & Hall). split_and!; [done|done|].
    exists (p' :: reps'). rewrite <-app_assoc. split; [done|by constructor].
  - exists 0%nat, [], cs. split_and!; [done|constructor|constructor|].
    exists p. split; [done|]. rewrite Z.add_0_r. eapply slotPost_stop; [done|by intros []].
  - exists 0%nat, [], cs. split_and!; [done|constructor|constructor|].
    exists p. split; [done|]. rewrite Z.add_0_r. eapply slotPost_stop; [done|by intros []].
Qed.

(** The pod a slot is left with: the one it had, of the same name and revision, or one
    created in it, which is its own uncreated pod or the one built for its ordinal. *)
Definition slotPod (i : Z) (p p' : Ptr) : Prop :=
  (keyOf (pod_meta (obj p')) = keyOf (pod_meta (obj p))
   /\ (isCreated (obj p) = true -> getPodRevision (obj p') = getPodRevision (obj p)))
  \/ exists q, fresh i = Ok q /\ keyOf (pod_meta (obj p')) = keyOf (pod_meta (obj q)).

Lemma slotPost_pod i p st p' cs : slotPost i p (Ok (Next (st, p'))) cs -> slotPod i p p'.
Proof.
  intros [_ [(_ & _ & _ & (_ & _ & Hk & Hr & _) & _)|[(_ & _ & [])|(q & Hc & Hq & _ & Hk)]]].
  - by left.
  - done.
  - destruct Hq as [(_ & Hq & _)|(_ & -> & _)]; [right; by exists q|left].
    split; [done|]. congruence.
Qed.

(** A pass that goes through leaves every slot with such a pod. *)
Lemma Pass_slots i todo done o cs :
  Pass i todo done o cs ->
  match o with
  | Ok (Next (_, reps)) => exists reps', reps = done ++ reps'
      /\ forall k p', reps' !! k = Some p' ->
           exists p, todo !! k = Some p /\ slotPod (i + Z.of_nat k) p p'
  | _ => True
  end.
Proof.
  induction 1 as [i done st|i p todo done st p' cs o cs' Hslot Hpass IH|i p todo done st err p' cs Hslot
                 |i p todo done r cs Hslot]; [|clear Hpass|done..].
  - exists []. by rewrite app_nil_r.
  - destruct o as [[[st' reps]|x]|r]; [|done..]. destruct IH as (reps' & -> & IH).
    exists (p' :: reps'). rewrite <-app_assoc. split; [done|]. intros [|k] q; cbn.
    + intros [= <-]. exists p. split; [done|]. rewrite Z.add_0_r. by eapply slotPost_pod.
    + intros (q' & Hq' & Hs)%IH. exists q'. split; [done|].
      by replace (i + Z.of_nat (S k)) with (i + 1 + Z.of_nat k) by lia.
Qed.

(** ** Scaling down *)

(** A monotonic pass looks at the largest condemned pod only. *)
Lemma terminate_monotonic replicas first condemned status :
  allowsBurst set = false ->
  emits (State := World T) (forLoop (terminateCondemned set curRev updRev replicas first) condemned status)
    (fun o cs =>
       match o with
       | Ok (Next _) => condemned = [] /\ cs = []
       | Ok (Return (_, _, reps)) => reps = replicas
       | Panic _ => True
       end
       /\ (cs = [] \/ exists p condemned', condemned = p :: condemned'
             /\ isTerminating (obj p) = false
             /\ (isRunningAndReady (obj p) = true \/ samePtr p first = true)
             /\ cs = [DeleteCall (obj p)])).
Proof.
  intros Hb. destruct condemned as [|p condemned]; cbn [forLoop].
  { apply emits_ret. split; [done|by left]. }
  apply emits_bind. unfold terminateCondemned. rewrite Hb. cbn [negb].
  rewrite andb_true_r.
  destruct (isTerminating (obj p)) eqn:Et.
  { apply emits_return, emits_ret. split; [done|by left]. }
  destruct (negb (isRunningAndReady (obj p)) && negb (samePtr p first)) eqn:Er.
  { apply emits_fbind, emits_run, emits_lift. destruct (deref first) as [q|r]; [|by split; [|left]].
    apply emits_return, emits_ret. split; [done|by left]. }
  assert (Hr : isRunningAndReady (obj p) = true \/ samePtr p first = true).
  { destruct (isRunningAndReady (obj p)), (samePtr p first); auto; done. }
  apply emits_fbind, emits_run, emits_logged. intros [[e|]|r] _ _ _.
  - apply emits_return, emits_ret. split; [done|]. right. by exists p, condemned.
  - apply emits_return, emits_ret. split; [done|]. right. by exists p, condemned.
  - split; [done|]. right. by exists p, condemned.
Qed.
End Calls.

(** ** The update, target by target *)

Section Update.
Context {W : Type} `{KubeLib, PatchLib, Json InPlaceUpdateState, StatefulPodControlLaws W}.
Context (set : StatefulSet) (curRev updRev : ControllerRevision).
Context (revisions : list ControllerRevision).
Notation T := (W * list PodCall)%type.

(** The calls that move the pod of a slot to the update revision: none while an
    earlier in-place update is pending, its deletion, or an in-place update, which
    first takes the pod out of service and falls back to a deletion. *)
Inductive replaceCalls (p : Ptr) : list PodCall -> Prop :=
  | replace_wait : replaceCalls p []
  | replace_delete : replaceCalls p [DeleteCall (obj p)]
  | replace_inPlace q rest condition :
      pc_Type condition = StatefulSetInPlaceUpdateReady ->
      pc_Status condition = ConditionFalse ->
      getPodRevision q = getPodRevision (obj p) ->
      keyOf (pod_meta q) = keyOf (pod_meta (obj p)) ->
      (rest = [] \/ rest = [DeleteCall q]
       \/ exists spec, rest = [InPlaceCall q spec] \/ rest = [InPlaceCall q spec; DeleteCall q]) ->
      replaceCalls p (ConditionCall (obj p) condition :: rest).

Definition sameRevision (p p' : Ptr) : Prop := getPodRevision (obj p') = getPodRevision (obj p).

Lemma deleteForUpdate_emits p status :
  emits (State := World T) (deleteForUpdate set curRev p status) (fun o cs =>
    cs = [DeleteCall (obj p)]
    /\ match o with Ok (Next (_, p')) | Ok (Return (_, _, p')) => p' = p | _ => True end).
Proof.
  unfold deleteForUpdate. apply emits_fbind, emits_run, emits_logged.
  intros [[e|]|r] _ _ _; [apply emits_return|apply emits_fret|]; done.
Qed.

Lemma inPlaceUpdatePod_emits p spec :
  emits (State := World T) (inPlaceUpdatePod set p spec) (fun o cs =>
    exists q rest, getPodRevision q = getPodRevision (obj p)
      /\ keyOf (pod_meta q) = keyOf (pod_meta (obj p))
      /\ cs = ConditionCall (obj p) (mkPodCondition StatefulSetInPlaceUpdateReady ConditionFalse
                                       "StartInPlaceUpdate" "") :: rest
      /\ (rest = [] \/ rest = [InPlaceCall q spec])
      /\ match o with Ok (_, p') => obj p' = q | Panic _ => True end).
Proof.
  unfold inPlaceUpdatePod. apply emits_bind, emits_logged.
  intros [[[e|] q]|r] w w' E; [| |exists (obj p), []; split_and!; auto].
  - pose proof (condition_podKey _ _ _ _ _ _ _ E). apply condition_revision in E. apply emits_ret. exists q, []. split_and!; auto.
  - pose proof (condition_podKey _ _ _ _ _ _ _ E). apply condition_revision in E.
    apply emits_bind, emits_logged.
    intros [[e|]|r] _ _ _; [| |exists q, [InPlaceCall q spec]; split_and!; auto].
    + apply emits_ret. exists q, [InPlaceCall q spec]. split_and!; auto.
    + apply emits_bind, emits_onCache, emits_ret. exists q, [InPlaceCall q spec].
      split_and!; auto.
Qed.

Lemma replacePod_emits p completed status :
  emits (State := World T) (replacePod set curRev updRev revisions p completed status) (fun o cs =>
    replaceCalls p cs
    /\ match o with
       | Ok (Next (_, p')) | Ok (Return (_, _, p')) => sameRevision p p'
       | Panic _ => True
       end).
Proof.
  unfold replacePod. apply emits_fbind, emits_run, emits_lift.
  destruct (shouldDoInPlaceUpdate _ _ _ _) as [[spec|]|r]; cbn [app].
  2: { eapply emits_mono; [apply deleteForUpdate_emits|].
       intros o cs [-> Ho]. split; [apply replace_delete|].
       destruct o as [[[st p']|[[st err] p']]|r]; by subst. }
  2: by split; [apply replace_wait|].
  case_decide; [apply emits_fret; split; [apply replace_wait|done]|].
  apply emits_fbind, emits_run. eapply emits_mono; [apply inPlaceUpdatePod_emits|].
  intros [[err p']|r] cs (q & rest & Hq & Hk & -> & Hrest & Hp').
  2: { split; [|done]. eapply replace_inPlace; [done..|exact Hq|exact Hk|].
       destruct Hrest as [->| ->]; eauto. }
  subst q. apply emits_fbind, emits_run, emits_lift.
  assert (Hstop : replaceCalls p (ConditionCall (obj p) (mkPodCondition
     StatefulSetInPlaceUpdateReady ConditionFalse "StartInPlaceUpdate" "") :: rest)).
  { eapply replace_inPlace; [done..|exact Hq|exact Hk|]. destruct Hrest as [->| ->]; eauto. }
  destruct (isInPlaceOnly set) as [only|r]; [|by rewrite ?app_nil_r].
  destruct err as [e|]; [destruct (negb _ && negb only)|].
  2, 3: apply emits_fret; rewrite !app_nil_r; done.
  eapply emits_mono; [apply deleteForUpdate_emits|].
  intros o cs [-> Ho]. cbn [app]. split.
  - eapply replace_inPlace; [done..|exact Hq|exact Hk|]. destruct Hrest as [->| ->]; cbn; eauto.
  - destruct o as [[[st p'']|[[st err] p'']]|r]; by subst.
Qed.

(** What one target contributes, and how it counts against [maxUnavailable]. *)
Lemma updateTarget_emits maxUnavailable target s p :
  index (us_replicas s) target = Ok p ->
  emits (State := World T) (updateTarget set curRev updRev revisions maxUnavailable target s) (fun o cs =>
    (cs = [] \/ (getPodRevision (obj p) <> rev_Name updRev /\ isTerminating (obj p) = false
                 /\ replaceCalls p cs))
    /\ match o with
       | Ok (Next s') =>
           (exists p', us_replicas s' = <[Z.to_nat target := p']> (us_replicas s))
           /\ Z.of_nat (length (unavailablePods s')) < maxUnavailable
           /\ (length (unavailablePods s) <= length (unavailablePods s'))%nat
           /\ (cs <> [] -> length (unavailablePods s') = S (length (unavailablePods s)))
       | _ => True
       end).
Proof.
  intros Hp w. unfold updateTarget. rewrite Hp.
  set (m := if decide (getPodRevision (obj p) <> rev_Name updRev) then _ else _).
  assert (Hm : emits (State := World T) m (fun o cs =>
    (cs = [] \/ (getPodRevision (obj p) <> rev_Name updRev /\ isTerminating (obj p) = false
                 /\ replaceCalls p cs))
    /\ match o with
       | Ok (Next (_, p')) => sameRevision p p'
       | _ => True
       end)).
  { unfold m. destruct (decide _) as [Hne|]; [|apply emits_fret; by split; [left|]].
    destruct (isTerminating (obj p)) eqn:Et; [apply emits_fret; by split; [left|]|].
    eapply emits_mono; [apply replacePod_emits|]. intros o cs [Hcs Ho].
    split; [by right|]. by destruct o as [[[st p']|x]|r]. }
  destruct (Hm w) as (cs & E & Hcs & Ho). exists cs.
  destruct (m w) as [[[[st p']|[[st err] p']]|r] w'] eqn:Em; cbn in E, Ho; [|done..].
  set (unavailable := if decide (_ \/ _) then _ else unavailablePods s).
  assert (Hlen : (length (unavailablePods s) <= length unavailable)%nat
    /\ (cs <> [] -> length unavailable = S (length (unavailablePods s)))).
  { unfold unavailable. destruct (decide (_ \/ _)) as [_|Hn]; [rewrite length_app; cbn; split; lia|].
    split; [done|]. intros Hcs'. destruct Hcs as [?|(Hne & _)]; [done|].
    destruct Hn. left. unfold sameRevision in Ho. by rewrite Ho. }
  case_decide as Hd; cbn; [done|]. split; [done|]. split; [done|].
  split_and!; [by eexists|lia|apply Hlen|apply Hlen].
Qed.

(** A target that was touched: its slot's pod was of another revision and not
    terminating. *)
Definition touchedAt (replicas : list Ptr) (tc : Z * list PodCall) : Prop :=
  exists p, 0 <= tc.1 /\ replicas !! Z.to_nat tc.1 = Some p /\ tc.2 <> []
    /\ getPodRevision (obj p) <> rev_Name updRev /\ isTerminating (obj p) = false
    /\ replaceCalls p tc.2.

Lemma touched_one replicas t p cs :
  0 <= t -> replicas !! Z.to_nat t = Some p ->
  (cs = [] \/ (getPodRevision (obj p) <> rev_Name updRev /\ isTerminating (obj p) = false
               /\ replaceCalls p cs)) ->
  exists touched, cs = concat touched.*2 /\ touched.*1 `sublist_of` [t]
    /\ Forall (touchedAt replicas) touched
    /\ (touched = [] \/ (length touched = 1%nat /\ cs <> [])).
Proof.
  intros Ht Hp Hcs. destruct (decide (cs = [])) as [->|Hne].
  - exists []. split_and!; [done|apply sublist_nil_l|constructor|by left].
  - destruct Hcs as [->|Hcs]; [done|]. exists [(t, cs)]. cbn. rewrite app_nil_r.
    split_and!; [done|done| |by right]. constructor; [|constructor].
    exists p. cbn. split_and!; done || apply Hcs.
Qed.

Lemma updateLoop_emits maxUnavailable replicas targets : forall s,
  StronglySorted (fun a b => b < a) targets ->
  (forall t, t ∈ targets -> 0 <= t ->
     us_replicas s !! Z.to_nat t = replicas !! Z.to_nat t) ->
  Z.of_nat (length (unavailablePods s)) < maxUnavailable \/ unavailablePods s = [] ->
  emits (State := World T) (forLoop (updateTarget set curRev updRev revisions maxUnavailable) targets s)
    (fun o cs => exists touched, cs = concat touched.*2 /\ touched.*1 `sublist_of` targets
       /\ Forall (touchedAt replicas) touched
       /\ Z.of_nat (length touched + length (unavailablePods s)) <= Z.max 1 maxUnavailable).
Proof.
  induction targets as [|t targets IH]; intros s Hs Hreps Hun; cbn [forLoop].
  { apply emits_ret. exists []. split_and!; [done|constructor|constructor|].
    cbn [length Nat.add]. destruct Hun as [?| ->]; cbn; lia. }
  apply StronglySorted_inv in Hs as [Hs Hall]. rewrite list.Forall_forall in Hall.
  destruct (index (us_replicas s) t) as [p|r] eqn:Ei.
  2: { apply emits_bind. intros w. exists []. unfold updateTarget at 1 2. rewrite Ei, app_nil_r.
       split; [done|]. exists []. split_and!; [done|apply sublist_nil_l|constructor|].
       cbn [length Nat.add]. destruct Hun as [?| ->]; cbn; lia. }
  pose proof (index_Some _ _ _ Ei) as [Ht Hp]. rewrite Hreps in Hp by (done || by left).
  apply emits_bind. eapply emits_mono; [apply (updateTarget_emits maxUnavailable t s p Ei)|].
  intros o cs [Hcs Ho].
  pose proof (touched_one _ _ _ _ Ht Hp Hcs) as Htouch.
  destruct Htouch as (touched & -> & Hsub & Htouch & Hlen).
  assert (Hstop : exists touched0, concat touched.*2 ++ [] = concat touched0.*2
      /\ touched0.*1 `sublist_of` t :: targets /\ Forall (touchedAt replicas) touched0
      /\ Z.of_nat (length touched0 + length (unavailablePods s)) <= Z.max 1 maxUnavailable).
  { exists touched. rewrite app_nil_r. split_and!; [done| |done|].
    - apply (sublist_app _ [t] [] targets) in Hsub; [|apply sublist_nil_l].
      by rewrite app_nil_r in Hsub.
    - destruct Hlen as [->|[-> _]], Hun as [?| ->]; cbn [length]; lia. }
  destruct o as [[s'|x]|r].
  - destruct Ho as ((p' & Hr) & Hlt & Hle & Hgrow).
    eapply emits_mono; [apply (IH s' Hs)|].
    + intros t' Ht' Hnn. rewrite Hr, list_lookup_insert_ne; [by apply Hreps; [right|]|].
      apply Hall in Ht'. lia.
    + by left.
    + intros o' cs' (touched' & -> & Hsub' & Htouch' & Hlen').
      exists (touched ++ touched'). rewrite !fmap_app, concat_app.
      split_and!; [done|by apply (sublist_app _ [t])|by apply Forall_app|].
      rewrite length_app. destruct Hlen as [->|[Hl Hne]]; cbn [length]; [lia|].
      rewrite (Hgrow Hne) in Hlen'. lia.
  - apply emits_ret. exact Hstop.
  - rewrite app_nil_r in Hstop. exact Hstop.
Qed.
End Update.
