(* ===== verification/ControlSafety.v ===== *)
(** What the control loop guarantees: ordered creation and scale-down of a
    monotonic set, the bounds of a rolling update, what a parallel pass completes,
    where the pods of a set end up, and what is recorded. *)

From S2P Require Import Prelude Objects GoString Libraries Coordinate Cluster Fixtures Naming.
From S2P Require Import Expectations PodIdentity SetStatus InPlace Interfaces Revisions.
From S2P Require Import CallLog Control ControlCalls.

(** ** Placing the pods *)

Section Placement.
Context `{KubeLib, !KubeLibLaws, MapRange, Json Coordinates}.

(** The slot of an ordinal holds the last listed pod of that ordinal. *)
Lemma placePod_slots n ptrs : forall slots condemned,
  length slots = Z.to_nat n ->
  let '(slots', condemned') := foldl (placePod n) (slots, condemned) ptrs in
  length slots' = length slots
  /\ condemned' = condemned ++ filter (fun p => getOrdinal (obj p) >= n) ptrs
  /\ forall j : nat, (j < length slots)%nat ->
       slots' !! j = match reverse (filter (fun p => getOrdinal (obj p) = Z.of_nat j) ptrs) with
                     | p :: _ => Some (Some p)
                     | [] => slots !! j
                     end.
Proof.
  induction ptrs as [|p ptrs IH]; intros slots condemned Hlen.
  { cbn. split_and!; [done|by rewrite app_nil_r|done]. }
  cbn [foldl]. unfold placePod at 2. rewrite !filter_cons.
  assert (Hrev : forall (q : Ptr) l d, match reverse (q :: l) with
            | p :: _ => Some (Some p) | [] => d end
            = match reverse l with p :: _ => Some (Some p) | [] => Some (Some q) end).
  { intros q l d. rewrite reverse_cons. by destruct (reverse l). }
  case_decide as Hin; [|case_decide as Hge].
  - specialize (IH (<[Z.to_nat (getOrdinal (obj p)):=Some p]> slots) condemned).
    rewrite length_insert in IH. specialize (IH Hlen).
    destruct (foldl _ _ ptrs) as [slots' condemned']. destruct IH as (-> & -> & IH).
    split_and!; [done|by rewrite decide_False by lia|]. intros j Hj. rewrite IH by done.
    rewrite filter_cons. case_decide as Hoj.
    + rewrite Hrev. destruct (reverse _); [|done]. rewrite Hoj, Nat2Z.id.
      by apply list_lookup_insert_eq.
    + destruct (reverse _); [|done]. apply list_lookup_insert_ne. lia.
  - specialize (IH slots (condemned ++ [p]) Hlen).
    destruct (foldl _ _ ptrs) as [slots' condemned']. destruct IH as (-> & -> & IH).
    split_and!; [done|by rewrite <-app_assoc|].
    intros j Hj. rewrite IH, filter_cons by done. rewrite decide_False by lia. done.
  - specialize (IH slots condemned Hlen).
    destruct (foldl _ _ ptrs) as [slots' condemned']. destruct IH as (-> & -> & IH).
    split_and!; [done..|].
    intros j Hj. rewrite IH, filter_cons by done. rewrite decide_False by lia. done.
Qed.

Lemma listedPods_obj pods p : p ∈ listedPods pods -> obj p ∈ pods.
Proof.
  unfold listedPods. intros Hp. apply list_elem_of_lookup in Hp as [i Hi].
  rewrite list_lookup_imap in Hi. destruct (pods !! i) as [pod|] eqn:E; [|done].
  injection Hi as <-. by eapply list_elem_of_lookup_2.
Qed.

Lemma listedPods_fmap pods : obj <$> listedPods pods = pods.
Proof.
  apply list_eq. intros i. unfold listedPods.
  rewrite list_lookup_fmap, list_lookup_imap. by destruct (pods !! i).
Qed.

(** What the slots hold after empty ones are filled. *)
Definition filledBy cur upd curRev updRev (i : Z) (slot : option Ptr) (p : Ptr) : Prop :=
  match slot with
  | Some q => p = q
  | None => freshPod cur upd curRev updRev i = Ok p
  end.

Lemma fillReplicas_spec cur upd curRev updRev slots : forall i replicas,
  fillReplicas cur upd curRev updRev i slots = Ok replicas ->
  length replicas = length slots
  /\ forall j slot, slots !! j = Some slot ->
       exists p, replicas !! j = Some p
         /\ filledBy cur upd curRev updRev (i + Z.of_nat j) slot p.
Proof.
  induction slots as [|slot slots IH]; intros i replicas; cbn [fillReplicas].
  { intros [= <-]. split; [done|]. by intros j slot. }
  destruct (match slot with Some p => Ok p | None => _ end) as [p|] eqn:Ep; [|done].
  cbn [mbind Outcome_bind].
  destruct (fillReplicas _ _ _ _ (i + 1) slots) as [rest|] eqn:Er; [|done].
  intros [= <-]. apply IH in Er as [Hlen Hj]. split; [cbn; lia|].
  intros [|j] slot'; cbn.
  - intros [= <-]. exists p. split; [done|]. rewrite Z.add_0_r. unfold filledBy.
    destruct slot; [by injection Ep as ->|done].
  - intros Hs. destruct (Hj _ _ Hs) as (q & Hq & Hf). exists q. split; [done|].
    by replace (i + Z.of_nat (S j)) with (i + 1 + Z.of_nat j) by lia.
Qed.

Lemma partitionPods_spec n pods slots condemned :
  partitionPods n pods = (slots, condemned) ->
  length slots = Z.to_nat n
  /\ condemned = filter (fun p => getOrdinal (obj p) >= n) (listedPods pods)
  /\ forall j : nat, (j < Z.to_nat n)%nat ->
       slots !! j = match reverse (filter (fun p => getOrdinal (obj p) = Z.of_nat j)
                                     (listedPods pods)) with
                    | p :: _ => Some (Some p)
                    | [] => Some None
                    end.
Proof.
  unfold partitionPods. intros Hpart.
  pose proof (placePod_slots n (listedPods pods) (replicate (Z.to_nat n) None) []) as Hs.
  rewrite Hpart, length_replicate in Hs. destruct (Hs eq_refl) as (Hlen & Hc & Hslot).
  split_and!; [done|done|]. intros j Hj. rewrite Hslot by done.
  destruct (reverse _); [by apply lookup_replicate_2|done].
Qed.

Lemma placement_slot cur upd curRev updRev pods n slots condemned replicas (k : nat) p :
  0 <= n -> partitionPods n pods = (slots, condemned) ->
  fillReplicas cur upd curRev updRev 0 slots = Ok replicas -> replicas !! k = Some p ->
  Z.of_nat k < n
  /\ ((obj p ∈ pods /\ getOrdinal (obj p) = Z.of_nat k)
      \/ (freshPod cur upd curRev updRev (Z.of_nat k) = Ok p
          /\ forall pod, pod ∈ pods -> getOrdinal pod <> Z.of_nat k)).
Proof.
  intros Hn0 (Hlen & _ & Hslot)%partitionPods_spec [Hlen' Hfill]%fillReplicas_spec Hk.
  assert (Hkn : (k < Z.to_nat n)%nat) by (apply lookup_lt_Some in Hk; lia).
  split; [lia|]. specialize (Hslot k Hkn).
  assert (is_Some (slots !! k)) as [slot Hsl] by (apply lookup_lt_is_Some; lia).
  destruct (Hfill k slot Hsl) as (p' & Hp' & Hfilled). rewrite Hk in Hp'. injection Hp' as <-.
  rewrite Hsl in Hslot. destruct (reverse (filter _ (listedPods pods))) as [|q l] eqn:El.
  - right. injection Hslot as ->. split; [done|].
    intros pod Hpod Hord. rewrite <-listedPods_fmap in Hpod.
    apply list_elem_of_fmap in Hpod as (q & -> & Hq).
    assert (Hnil : q ∈ reverse (filter (fun p => getOrdinal (obj p) = Z.of_nat k) (listedPods pods)))
      by (by rewrite elem_of_reverse, list_elem_of_filter).
    rewrite El in Hnil. by apply not_elem_of_nil in Hnil.
  - left. injection Hslot as ->. cbn in Hfilled. subst p.
    assert (Hq : q ∈ filter (fun p => getOrdinal (obj p) = Z.of_nat k) (listedPods pods)).
    { rewrite <-elem_of_reverse, El. by left. }
    apply list_elem_of_filter in Hq as [Hord Hq]. split; [by apply listedPods_obj|done].
Qed.

Lemma placement_condemned pods n slots condemned pod :
  partitionPods n pods = (slots, condemned) ->
  (exists p, p ∈ condemned /\ obj p = pod) <-> pod ∈ pods /\ n <= getOrdinal pod.
Proof.
  intros (_ & -> & _)%partitionPods_spec. setoid_rewrite list_elem_of_filter. split.
  - intros (p & [Hge Hp%listedPods_obj] & <-). split; [done|lia].
  - intros [Hpod Hge]. rewrite <-listedPods_fmap in Hpod.
    apply list_elem_of_fmap in Hpod as (p & -> & Hp). exists p. split_and!; [lia|done|done].
Qed.

(** C18: Every pod of a set ends up where its ordinal says: slot [k] holds a listed pod of
    ordinal [k], or, when there is none, the pod built for [k]; the condemned pods
    are exactly the listed ones beyond the replicas. *)
Theorem pods_placed cur upd curRev updRev pods n slots condemned replicas :
  0 <= n -> partitionPods n pods = (slots, condemned) ->
  fillReplicas cur upd curRev updRev 0 slots = Ok replicas ->
  Z.of_nat (length replicas) = n
  /\ (forall k p, replicas !! k = Some p ->
        (obj p ∈ pods /\ getOrdinal (obj p) = Z.of_nat k)
        \/ (freshPod cur upd curRev updRev (Z.of_nat k) = Ok p
            /\ forall pod, pod ∈ pods -> getOrdinal pod <> Z.of_nat k))
  /\ (forall pod, (exists p, p ∈ condemned /\ obj p = pod) <-> pod ∈ pods /\ n <= getOrdinal pod).
Proof.
  intros Hn Hpart Hfill. split_and!.
  - apply fillReplicas_spec in Hfill as [-> _]. apply partitionPods_spec in Hpart as [-> _]. lia.
  - intros k p Hk. by eapply placement_slot.
  - intros pod. by eapply placement_condemned.
Qed.
End Placement.

(** ** The three phases of a reconcile *)

Lemma updateTargets_sorted replicas updateMin :
  StronglySorted (fun a b => b < a) (updateTargets replicas updateMin).
Proof.
  unfold updateTargets, seqZ. rewrite <-fmap_reverse.
  set (n := Z.to_nat _). clearbody n. induction n as [|n IH].
  { constructor. }
  rewrite seq_S, reverse_snoc. cbn. constructor; [exact IH|].
  rewrite list.Forall_forall. intros z (k & -> & Hk)%list_elem_of_fmap.
  rewrite elem_of_reverse, elem_of_seq in Hk. lia.
Qed.

Lemma elem_of_updateTargets replicas updateMin t :
  t ∈ updateTargets replicas updateMin <-> updateMin <= t < Z.of_nat (length replicas).
Proof. unfold updateTargets. rewrite elem_of_reverse, elem_of_seqZ. lia. Qed.

Section Phases.
Context {W : Type} `{KubeLib, !KubeLibLaws, MapRange, Json Coordinates, PatchLib,
  Json InPlaceUpdateState}.
Context `{HistoryLib, SetCodec, SelectorLib, IntStrLib, GoSort, ErrorText}.
Context `{Recorder W, Clock W, StatefulPodControlLaws W}.
Context (set : StatefulSet) (curRev updRev : ControllerRevision).
Context (revisions : list ControllerRevision).
Notation T := (W * list PodCall)%type.

(** A parallel pass terminates every condemned pod that is not terminating yet,
    unless a call fails. *)
Lemma terminate_parallel replicas first condemned : forall status,
  allowsBurst set = true ->
  emits (State := World T) (forLoop (terminateCondemned set curRev updRev replicas first) condemned status)
    (fun o cs => exists k,
       cs = (fun p => DeleteCall (obj p)) <$>
              filter (fun p => isTerminating (obj p) = false) (take k condemned)
       /\ match o with
          | Ok (Next _) => (length condemned <= k)%nat
          | Ok (Return (_, err, _)) => err <> None
          | Panic _ => True
          end).
Proof.
  induction condemned as [|p condemned IH]; intros status Hb; cbn [forLoop].
  { apply emits_ret. exists 0%nat. done. }
  apply emits_bind. unfold terminateCondemned at 1. rewrite Hb. cbn [negb].
  rewrite andb_false_r. destruct (isTerminating (obj p)) eqn:Et.
  - apply emits_fret. eapply emits_mono; [by apply IH|].
    intros o cs (k & -> & Ho). exists (S k). cbn [take app]. rewrite filter_cons, decide_False by congruence.
    split; [done|]. destruct o as [[st|x]|r]; cbn; [lia|done..].
  - cbn [andb]. apply emits_fbind, emits_run, emits_logged.
    assert (Hone : [DeleteCall (obj p)] = (fun p => DeleteCall (obj p)) <$>
       filter (fun p => isTerminating (obj p) = false) (take 1 (p :: condemned))).
    { cbn [take]. by rewrite filter_cons, decide_True. }
    intros [[e|]|r] _ _ _.
    + apply emits_return, emits_ret. exists 1%nat. by rewrite app_nil_r.
    + apply emits_fret. rewrite app_nil_r. eapply emits_mono; [by apply IH|].
      intros o cs (k & -> & Ho). exists (S k). cbn [take]. rewrite filter_cons, decide_True by done.
      split; [done|]. destruct o as [[st|x]|r]; cbn; [lia|done..].
    + exists 1%nat. done.
Qed.

(** The bounds a rolling update keeps: only slots at or above the partition, from
    the largest down, and at most [maxUnavailable] of them (or one). *)
Definition updateCalls (replicaCount : Z) (replicas : list Ptr) (cs : list PodCall) : Prop :=
  exists touched, cs = concat touched.*2 /\ Forall (touchedAt updRev replicas) touched
    /\ (cs <> [] -> exists us updateMin maxUnavailable,
          UpdateStrategy (set_Spec set) = Some us
          /\ us_Type us <> OnDeleteStatefulSetStrategyType
          /\ updateBounds us replicaCount = Ok (inr (Some (updateMin, maxUnavailable)))
          /\ touched.*1 `sublist_of` updateTargets replicas updateMin
          /\ Z.of_nat (length touched) <= Z.max 1 maxUnavailable).

Lemma updateCalls_nil n replicas : updateCalls n replicas [].
Proof. exists []. split_and!; [done|constructor|done]. Qed.

Lemma updateReplicas_emits n replicas status :
  emits (State := World T) (updateReplicas set curRev updRev revisions n replicas status)
    (fun _ cs => updateCalls n replicas cs).
Proof.
  unfold updateReplicas. apply emits_fbind, emits_run, emits_lift.
  destruct (UpdateStrategy (set_Spec set)) as [us|] eqn:Eus; cbn [deref]; [|apply updateCalls_nil].
  case_decide; [apply emits_fret, updateCalls_nil|].
  apply emits_fbind, emits_run, emits_readCache. intros satisfied.
  destruct (negb satisfied); [apply emits_fret, updateCalls_nil|].
  apply emits_fbind, emits_run, emits_lift.
  destruct (updateBounds us n) as [[e|[[updateMin maxU]|]]|r] eqn:Eb;
    try apply updateCalls_nil; try apply emits_fret, updateCalls_nil.
  apply emits_fbind.
  eapply emits_mono; [apply (updateLoop_emits set curRev updRev revisions maxU replicas)|].
  - apply updateTargets_sorted.
  - done.
  - by right.
  - intros o cs (touched & -> & Hsub & Hall & Hlen).
    assert (Hu : updateCalls n replicas (concat touched.*2)).
    { exists touched. split_and!; [done|done|]. intros _. exists us, updateMin, maxU.
      split_and!; [done..|]. cbn in Hlen. lia. }
    destruct o as [[s|x]|r]; [|exact Hu..].
    apply emits_fret. by rewrite !app_nil_r.
Qed.
End Phases.

(** ** The abstract specification and its refinement *)

Section Refinement.
Context {W : Type} `{KubeLib, !KubeLibLaws, MapRange, Json Coordinates, PatchLib,
  Json InPlaceUpdateState}.
Context `{HistoryLib, SetCodec, SelectorLib, IntStrLib, GoSort, !GoSortLaws, ErrorText}.
Context `{Recorder W, Clock W, StatefulPodControlLaws W}.
Notation T := (W * list PodCall)%type.

(** What a reconcile works on: the set at its two revisions, the slots with a pod
    each, and the pods beyond them by descending ordinal. *)
Inductive started (set : StatefulSet) (curRev updRev : ControllerRevision) (pods : list Pod)
  : StatefulSet -> StatefulSet -> Z -> list Ptr -> list Ptr -> Prop :=
  | Started currentSet updateSet n slots condemned replicas :
      ApplyRevision set curRev = Ok (inr currentSet) ->
      ApplyRevision set updRev = Ok (inr updateSet) ->
      spec_Replicas (set_Spec set) = Some n -> 0 <= n ->
      DeletionTimestamp (set_meta set) = None ->
      partitionPods n pods = (slots, condemned) ->
      fillReplicas currentSet updateSet curRev updRev 0 slots = Ok replicas ->
      started set curRev updRev pods currentSet updateSet n replicas
        (reverse (goSort (fun p => getOrdinal (obj p)) condemned)).

(** The calls a monotonic set may see in one reconcile: upkeep of its first pods,
    and then nothing, or one step at the first slot that is not ready, or the
    termination of the last condemned pod, or a rolling update. *)
Inductive monotonicCalls (set : StatefulSet) (curRev updRev : ControllerRevision)
    (currentSet updateSet : StatefulSet) (n : Z) (replicas condemned : list Ptr)
  : list PodCall -> Prop :=
  | calls_slot up last k p :
      Forall upkeep up -> Forall passable (take k replicas) -> replicas !! k = Some p ->
      stopCalls currentSet updateSet curRev updRev (Z.of_nat k) p last ->
      monotonicCalls set curRev updRev currentSet updateSet n replicas condemned (up ++ last)
  | calls_wait up :
      Forall upkeep up ->
      monotonicCalls set curRev updRev currentSet updateSet n replicas condemned up
  | calls_scaleDown up p rest :
      Forall upkeep up -> Forall passable replicas -> condemned = p :: rest ->
      isTerminating (obj p) = false ->
      (isRunningAndReady (obj p) = true
       \/ samePtr p (findUnhealthy (replicas ++ reverse condemned)).2 = true) ->
      monotonicCalls set curRev updRev currentSet updateSet n replicas condemned
        (up ++ [DeleteCall (obj p)])
  | calls_update up reps cs :
      Forall upkeep up -> Forall passable replicas -> condemned = [] ->
      Forall2 sees replicas reps -> updateCalls set updRev n reps cs ->
      monotonicCalls set curRev updRev currentSet updateSet n replicas condemned (up ++ cs).

(** The status of the first pass. *)
Definition countedStatus (set : StatefulSet) (curRev updRev : ControllerRevision)
    (collisionCount : Z) (pods : list Pod) : StatefulSetStatus :=
  foldl (countPod curRev updRev) (initialStatus set curRev updRev collisionCount) pods.

(** The phases of a reconcile after it has started. *)
Definition phases (set cur upd : StatefulSet) (curRev updRev : ControllerRevision)
    (revisions : list ControllerRevision) (n : Z) (replicas condemned : list Ptr)
    (status : StatefulSetStatus)
  : F (World T) (StatefulSetStatus * option Err * list Ptr) (StatefulSetStatus * option Err * list Ptr) :=
  x ← syncReplicas set cur upd curRev updRev 0 replicas [] status;
  let '(status, reps) := x in
  status ← (forLoop (terminateCondemned set curRev updRev reps
              (findUnhealthy (replicas ++ reverse condemned)).2) condemned status
            : F (World T) (StatefulSetStatus * option Err * list Ptr) StatefulSetStatus);
  updateReplicas set curRev updRev revisions n reps status.

(** Running a reconcile is: fail or stop before any call, or the phases on what it
    started with. [P] is what is known of the world it runs in. *)
Lemma updateStatefulSet_startedIn (P : World T -> Prop) set curRev updRev collisionCount pods revisions
    (Q : Outcome (option StatefulSetStatus * option Err * list Ptr) -> list PodCall -> Prop) :
  (forall o, match o with
             | Ok (Some st, err, _) =>
                 DeletionTimestamp (set_meta set) <> None /\ err = None
                 /\ st = countedStatus set curRev updRev collisionCount pods
             | _ => True
             end -> Q o []) ->
  (forall currentSet updateSet n replicas condemned,
     started set curRev updRev pods currentSet updateSet n replicas condemned ->
     emitsIn (State := World T) P
       (phases set currentSet updateSet curRev updRev revisions n replicas condemned
          (countedStatus set curRev updRev collisionCount pods))
       (fun o cs => match o with
                    | Ok (Next (st, err, reps)) | Ok (Return (st, err, reps)) =>
                        Q (Ok (Some st, err, reps)) cs
                    | Panic r => Q (Panic r) cs
                    end)) ->
  emitsIn (State := World T) P (updateStatefulSet set curRev updRev collisionCount pods revisions) Q.
Proof.
  intros Hnil Hsync. unfold updateStatefulSet.
  apply emitsIn_lift. destruct (ApplyRevision set curRev) as [[e|currentSet]|] eqn:Ec;
    [by apply emitsIn_ret, Hnil| |by apply Hnil].
  apply emitsIn_lift. destruct (ApplyRevision set updRev) as [[e|updateSet]|] eqn:Eu;
    [by apply emitsIn_ret, Hnil| |by apply Hnil].
  apply emitsIn_lift. destruct (spec_Replicas _) as [n|] eqn:En; cbn [deref];
    [|by apply Hnil].
  case_decide; [by apply emits_in, emits_lift, Hnil|].
  destruct (partitionPods n pods) as [slots condemned] eqn:Ep.
  apply emitsIn_lift. destruct (fillReplicas _ _ _ _ _ _) as [replicas|] eqn:Ef;
    [|by apply Hnil].
  apply emitsIn_then, emitsIn_body. unfold syncSet.
  set (sorted := goSort _ condemned). cbv zeta.
  destruct (findUnhealthy (replicas ++ sorted)) as [unhealthy first] eqn:Efu.
  apply emitsIn_flift.
  destruct (if decide (unhealthy > 0) then _ else _) as [[]|]; [|by apply Hnil].
  destruct (decide (DeletionTimestamp (set_meta set) <> None)) as [|Hdel].
  { apply emitsIn_fret, emits_ret. by apply Hnil. }
  assert (Hst : started set curRev updRev pods currentSet updateSet n replicas (reverse sorted)).
  { eapply Started; try done; [lia|]. by destruct (DeletionTimestamp _); [destruct Hdel|]. }
  specialize (Hsync _ _ _ _ _ Hst). unfold phases in Hsync.
  rewrite reverse_involutive, Efu in Hsync. cbn [snd] in Hsync.
  eapply emitsIn_mono; [apply Hsync|]. intros o cs.
  destruct o as [[[[st err] reps]|[[st err] reps]]|r]; intros HQ;
    [apply emits_ret; by rewrite app_nil_r..|done].
Qed.

Lemma updateStatefulSet_started set curRev updRev collisionCount pods revisions
    (Q : Outcome (option StatefulSetStatus * option Err * list Ptr) -> list PodCall -> Prop) :
  (forall o, match o with
             | Ok (Some st, err, _) =>
                 DeletionTimestamp (set_meta set) <> None /\ err = None
                 /\ st = countedStatus set curRev updRev collisionCount pods
             | _ => True
             end -> Q o []) ->
  (forall currentSet updateSet n replicas condemned,
     let status := countedStatus set curRev updRev collisionCount pods in
     started set curRev updRev pods currentSet updateSet n replicas condemned ->
     emits (State := World T)
       (phases set currentSet updateSet curRev updRev revisions n replicas condemned status)
       (fun o cs => match o with
                    | Ok (Next (st, err, reps)) | Ok (Return (st, err, reps)) =>
                        Q (Ok (Some st, err, reps)) cs
                    | Panic r => Q (Panic r) cs
                    end)) ->
  emits (State := World T) (updateStatefulSet set curRev updRev collisionCount pods revisions) Q.
Proof.
  intros Hnil Hsync. apply emitsIn_all, updateStatefulSet_startedIn; [done|].
  intros cur upd n replicas condemned Hst. by apply emits_in, Hsync.
Qed.

(** Every run of a monotonic set makes calls the specification allows. *)
Lemma monotonic_refines set curRev updRev collisionCount pods revisions :
  allowsBurst set = false ->
  emits (State := World T) (updateStatefulSet set curRev updRev collisionCount pods revisions) (fun _ cs =>
    cs = [] \/ exists currentSet updateSet n replicas condemned,
      started set curRev updRev pods currentSet updateSet n replicas condemned
      /\ monotonicCalls set curRev updRev currentSet updateSet n replicas condemned cs).
Proof.
  intros Hb. apply updateStatefulSet_started; [by left|].
  intros currentSet updateSet n replicas condemned status Hst.
  set (Post := fun cs => monotonicCalls set curRev updRev currentSet updateSet n replicas condemned cs).
  assert (Hup : forall up, Forall upkeep up -> Post up) by (intros up ?; by apply calls_wait).
  refine (emits_mono _ (fun _ cs => Post cs) _ _ _).
  2: { intros o cs HP. destruct o as [[[[st err] reps]|[[st err] reps]]|r]; right;
       exists currentSet, updateSet, n, replicas, condemned; exact (conj Hst HP). }
  apply emits_fbind. eapply emits_mono; [apply syncReplicas_emits|].
  intros o cs Hpass. apply Pass_monotonic in Hpass as (k & up & last & -> & Hupk & Hpre & Ho); [|done].
  assert (Hstop : (exists p, replicas !! k = Some p
      /\ stopCalls currentSet updateSet curRev updRev (0 + Z.of_nat k) p last) -> Post (up ++ last)).
  { intros (p & Hk & Hs). by eapply calls_slot. }
  destruct o as [[[st reps]|x]|r]; [|by apply Hstop..].
  destruct Ho as (-> & -> & reps' & Heq & Hsee). cbn in Heq. subst reps'. rewrite app_nil_r.
  rewrite firstn_all in Hpre.
  apply emits_fbind. eapply emits_mono; [by apply terminate_monotonic|].
  intros o cs [Ho Hcs].
  assert (Hdown : Post (up ++ cs)).
  { destruct Hcs as [->|(p & rest & -> & Ht & Hr & ->)]; [rewrite app_nil_r; by apply Hup|].
    by eapply calls_scaleDown. }
  destruct o as [[st'|x]|r]; [|exact Hdown..]. destruct Ho as [-> ->].
  eapply emits_mono; [apply updateReplicas_emits|]. intros o cs Hu. cbn [app].
  by eapply calls_update.
Qed.
End Refinement.

(** The pod [p] is the one of ordinal [t]: a listed pod of that ordinal, under its name
    and still at its revision, or the pod that was built for [t] in this reconcile. *)
Definition ordinalPod `{KubeLib, MapRange, Json Coordinates, SetCodec} (set : StatefulSet)
    (curRev updRev : ControllerRevision) (pods : list Pod) (t : Z) (p : Pod) : Prop :=
  (exists pod, pod ∈ pods /\ getOrdinal pod = t /\ keyOf (pod_meta p) = keyOf (pod_meta pod)
     /\ (isCreated pod = true -> getPodRevision p = getPodRevision pod))
  \/ exists cur upd q, ApplyRevision set curRev = Ok (inr cur) /\ ApplyRevision set updRev = Ok (inr upd)
       /\ freshPod cur upd curRev updRev t = Ok q /\ keyOf (pod_meta p) = keyOf (pod_meta (obj q)).

(** ** Reading the specification *)

Section Reading.
Context {W : Type} `{KubeLib, !KubeLibLaws, MapRange, Json Coordinates, PatchLib,
  Json InPlaceUpdateState}.
Context `{HistoryLib, SetCodec, SelectorLib, IntStrLib, GoSort, !GoSortLaws, ErrorText}.
Context `{Recorder W, Clock W, StatefulPodControlLaws W}.
Notation T := (W * list PodCall)%type.

Lemma isFailed_created pod : isFailed pod = true -> isCreated pod = true.
Proof.
  unfold isFailed, isCreated. rewrite !bool_decide_eq_true. by intros ->.
Qed.

(** What fills a slot: its listed pod if it has one, else a fresh pod. *)
Lemma started_slot set curRev updRev pods cur upd n replicas condemned (k : nat) p :
  started set curRev updRev pods cur upd n replicas condemned -> replicas !! k = Some p ->
  Z.of_nat k < n
  /\ ((obj p ∈ pods /\ getOrdinal (obj p) = Z.of_nat k)
      \/ (freshPod cur upd curRev updRev (Z.of_nat k) = Ok p
          /\ forall pod, pod ∈ pods -> getOrdinal pod <> Z.of_nat k)).
Proof.
  intros [cur' upd' n' slots cond replicas' _ _ _ Hn0 _ Hpart Hfill].
  by eapply placement_slot.
Qed.

Lemma started_length set curRev updRev pods cur upd n replicas condemned :
  started set curRev updRev pods cur upd n replicas condemned ->
  length replicas = Z.to_nat n /\ 0 <= n /\ spec_Replicas (set_Spec set) = Some n.
Proof.
  intros [cur' upd' n' slots cond replicas' _ _ Hn Hn0 _ Hpart Hfill].
  apply fillReplicas_spec in Hfill as [-> _]. by apply partitionPods_spec in Hpart as [-> _].
Qed.

Lemma started_condemned set curRev updRev pods cur upd n replicas condemned pod :
  started set curRev updRev pods cur upd n replicas condemned ->
  (exists p, p ∈ condemned /\ obj p = pod) <-> pod ∈ pods /\ n <= getOrdinal pod.
Proof.
  intros [cur' upd' n' slots cond replicas' _ _ Hn Hn0 _ Hpart Hfill].
  setoid_rewrite elem_of_reverse. setoid_rewrite goSort_perm.
  by eapply placement_condemned.
Qed.

(** [goSort] sorts in the sense of [sort.Sort]: no pod is [Less] than one before it. *)
Lemma goSort_ascending (ptrs : list Ptr) i j :
  0 <= i < j -> j < Z.of_nat (length ptrs) ->
  ascendingOrdinal_Less (obj <$> goSort (fun p => getOrdinal (obj p)) ptrs) j i = Ok false.
Proof.
  intros Hij Hj. pose proof (goSort_sorted (fun p => getOrdinal (obj p)) ptrs) as Hs.
  set (l := goSort _ ptrs) in *.
  assert (Hlen : length l = length ptrs) by (unfold l; by rewrite goSort_perm).
  destruct (lookup_lt_is_Some_2 l (Z.to_nat i)) as [p Hp]; [lia|].
  destruct (lookup_lt_is_Some_2 l (Z.to_nat j)) as [q Hq]; [lia|].
  unfold ascendingOrdinal_Less, index. rewrite !decide_True by lia.
  rewrite !list_lookup_fmap, Hp, Hq. cbn. f_equal. apply bool_decide_eq_false.
  rewrite <-(take_drop (S (Z.to_nat i)) l) in Hs.
  apply (StronglySorted_app_le _ _ _ p q) in Hs; [cbv beta in Hs; lia| |].
  - apply list_elem_of_lookup. exists (Z.to_nat i). by rewrite lookup_take_lt by lia.
  - apply list_elem_of_lookup. exists (Z.to_nat j - S (Z.to_nat i))%nat. rewrite lookup_drop.
    by replace (S (Z.to_nat i) + (Z.to_nat j - S (Z.to_nat i)))%nat with (Z.to_nat j) by lia.
Qed.

Lemma started_descending set curRev updRev pods cur upd n replicas p rest q :
  started set curRev updRev pods cur upd n replicas (p :: rest) -> q ∈ p :: rest ->
  getOrdinal (obj q) <= getOrdinal (obj p).
Proof.
  intros Hst Hq. remember (p :: rest) as l eqn:Heq.
  destruct Hst as [cur' upd' n' slots cond replicas' _ _ _ _ _ _ _]. rewrite Heq in Hq.
  apply (f_equal reverse) in Heq. rewrite reverse_involutive, reverse_cons in Heq.
  rewrite <-elem_of_reverse, reverse_cons in Hq.
  pose proof (goSort_sorted (fun p => getOrdinal (obj p)) cond) as Hs. rewrite Heq in Hs.
  apply elem_of_app in Hq as [Hq|Hq%list_elem_of_singleton]; [|by subst].
  apply (StronglySorted_app_le _ _ _ q p) in Hs; [done|done|]. by apply list_elem_of_singleton.
Qed.

Lemma passable_before set curRev updRev pods cur upd n replicas condemned (k : nat) :
  started set curRev updRev pods cur upd n replicas condemned ->
  Forall passable (take k replicas) -> Z.of_nat k <= n ->
  forall j, 0 <= j < Z.of_nat k -> exists pod, pod ∈ pods /\ getOrdinal pod = j
    /\ isFailed pod = false /\ isTerminating pod = false /\ isRunningAndReady pod = true.
Proof.
  intros Hst Hall Hkn j Hj. pose proof (started_length _ _ _ _ _ _ _ _ _ Hst) as (Hlen & _ & _).
  destruct (lookup_lt_is_Some_2 replicas (Z.to_nat j)) as [p Hp]; [lia|].
  rewrite list.Forall_forall in Hall.
  destruct (Hall p) as (Hc & Hf & Ht & Hr).
  { apply elem_of_take. exists (Z.to_nat j). split; [done|lia]. }
  exists (obj p). destruct (started_slot _ _ _ _ _ _ _ _ _ _ _ Hst Hp) as [_ [[Hin Hord]|[Hf' _]]].
  - split_and!; [done|lia|done..].
  - apply freshPod_fresh in Hf' as (_ & Hc' & _). congruence.
Qed.

(** The pods a pass leaves in the slots are those of their ordinals. *)
Lemma started_ordinal set curRev updRev pods cur upd n replicas condemned st reps cs t p :
  started set curRev updRev pods cur upd n replicas condemned ->
  Pass set cur upd curRev updRev 0 replicas [] (Ok (Next (st, reps))) cs ->
  0 <= t -> reps !! Z.to_nat t = Some p -> ordinalPod set curRev updRev pods t (obj p).
Proof.
  intros Hst (reps' & -> & Hslots)%Pass_slots Ht (p0 & Hp0 & Hs)%Hslots.
  rewrite Z2Nat.id in Hs by done.
  destruct (started_slot _ _ _ _ _ _ _ _ _ _ _ Hst Hp0) as [_ Hslot].
  rewrite Z2Nat.id in Hslot by done.
  assert (Hsets : ApplyRevision set curRev = Ok (inr cur) /\ ApplyRevision set updRev = Ok (inr upd))
    by (by destruct Hst).
  destruct Hsets as [Hcur Hupd].
  destruct Hs as [[Hk Hr]|(q & Hq & Hk)]; [|right; by exists cur, upd, q].
  destruct Hslot as [[Hin Hord]|[Hf _]]; [left; by exists (obj p0)|right; by exists cur, upd, p0].
Qed.

Lemma upkeep_no_create up pod : Forall upkeep up -> CreateCall pod ∉ up.
Proof. rewrite list.Forall_forall. intros Hall Hin. apply (Hall _ Hin). Qed.
Lemma upkeep_no_delete up pod : Forall upkeep up -> DeleteCall pod ∉ up.
Proof. rewrite list.Forall_forall. intros Hall Hin. apply (Hall _ Hin). Qed.

Lemma replaceCalls_no_create p cs pod : replaceCalls p cs -> CreateCall pod ∉ cs.
Proof.
  intros [| |q rest cond _ _ _ _ Hrest]; [set_solver|set_solver|].
  destruct Hrest as [->|[->|(spec & [->| ->])]]; set_solver.
Qed.

Lemma updateCalls_no_create set updRev n reps cs pod :
  updateCalls set updRev n reps cs -> CreateCall pod ∉ cs.
Proof.
  intros (touched & -> & Hall & _) Hin. apply list_elem_of_In, in_concat in Hin as (l & Hl & Hin).
  apply list_elem_of_In, list_elem_of_fmap in Hl as ([t cs] & -> & Ht).
  rewrite list.Forall_forall in Hall. destruct (Hall _ Ht) as (p & _ & _ & _ & _ & _ & Hr).
  apply (replaceCalls_no_create _ _ pod) in Hr. apply Hr. by apply list_elem_of_In.
Qed.
End Reading.

(** A call before the update: upkeep, the creation of a pod that does not exist,
    or the termination of a failed pod or of one beyond the replicas. *)
Definition firstPartCall `{KubeLib} (set : StatefulSet) (pods : list Pod) (c : PodCall) : Prop :=
  match c with
  | InPlaceCall _ _ => False
  | ConditionCall _ _ | UpdateCall _ => True
  | CreateCall pod => isCreated pod = false
  | DeleteCall pod =>
      isFailed pod = true
      \/ exists n, spec_Replicas (set_Spec set) = Some n /\ pod ∈ pods /\ n <= getOrdinal pod
  end.

(** A target and its calls: they move the pod of that ordinal, which is of another
    revision and not terminating. *)
Definition replacedPod `{KubeLib, MapRange, Json Coordinates, SetCodec} (set : StatefulSet)
    (curRev updRev : ControllerRevision) (pods : list Pod) (tc : Z * list PodCall) : Prop :=
  exists p, ordinalPod set curRev updRev pods tc.1 (obj p) /\ tc.2 <> []
    /\ getPodRevision (obj p) <> rev_Name updRev /\ isTerminating (obj p) = false
    /\ replaceCalls p tc.2.

(** A reconcile whose calls are a first part and then a bounded update. *)
Definition boundedUpdate `{KubeLib, MapRange, Json Coordinates, SetCodec, IntStrLib}
    (set : StatefulSet) (curRev updRev : ControllerRevision)
    (pods : list Pod) (cs : list PodCall) : Prop :=
  exists before update, cs = before ++ concat update.*2
    /\ Forall (firstPartCall set pods) before
    /\ Forall (replacedPod set curRev updRev pods) update
    /\ (update <> [] -> exists us n partition maxUnavailable,
          UpdateStrategy (set_Spec set) = Some us
          /\ us_Type us <> OnDeleteStatefulSetStrategyType
          /\ spec_Replicas (set_Spec set) = Some n
          /\ updateBounds us n = Ok (inr (Some (partition, maxUnavailable)))
          /\ Z.of_nat (length update) <= Z.max 1 maxUnavailable
          /\ StronglySorted (fun a b => b < a) update.*1
          /\ forall t, t ∈ update.*1 -> partition <= t < n).

Lemma bounded_firstPart `{KubeLib, MapRange, Json Coordinates, SetCodec, IntStrLib}
    set curRev updRev pods cs :
  Forall (firstPartCall set pods) cs -> boundedUpdate set curRev updRev pods cs.
Proof.
  intros Hcs. exists cs, []. cbn. rewrite app_nil_r. split_and!; [done|done|constructor|done].
Qed.

Lemma touched_calls updRev reps update :
  Forall (touchedAt updRev reps) update -> update <> [] -> concat update.*2 <> [].
Proof.
  intros Hall Hne Hnil. destruct update as [|tc l]; [done|].
  rewrite list.Forall_cons in Hall. destruct Hall as [(p & _ & _ & Htc & _) _].
  cbn in Hnil. by destruct tc.2.
Qed.

Lemma sublist_In {A} (l1 l2 : list A) x : l1 `sublist_of` l2 -> x ∈ l1 -> x ∈ l2.
Proof. induction 1; rewrite ?elem_of_cons; naive_solver. Qed.

Lemma StronglySorted_sublist {A} (R : A -> A -> Prop) l1 l2 :
  l1 `sublist_of` l2 -> StronglySorted R l2 -> StronglySorted R l1.
Proof.
  induction 1 as [|x l1 l2 Hsub IH|x l1 l2 Hsub IH]; intros Hs; [done| |].
  - apply StronglySorted_inv in Hs as [Hs Hall]. constructor; [auto|].
    rewrite list.Forall_forall in *. intros y Hy. apply Hall. by eapply sublist_In.
  - apply StronglySorted_inv in Hs as [Hs _]. auto.
Qed.

Section PassCalls.
Context {W : Type} `{KubeLib, !KubeLibLaws, MapRange, Json Coordinates, PatchLib,
  Json InPlaceUpdateState}.
Context `{HistoryLib, SetCodec, SelectorLib, IntStrLib, GoSort, ErrorText}.
Context `{Recorder W, Clock W, StatefulPodControlLaws W}.
Context (set currentSet updateSet : StatefulSet) (curRev updRev : ControllerRevision).
Context (pods : list Pod).
Notation T := (W * list PodCall)%type.

Lemma upkeep_firstPart cs : Forall upkeep cs -> Forall (firstPartCall set pods) cs.
Proof. intros Hcs. eapply list.Forall_impl; [exact Hcs|]. by intros []. Qed.

Lemma slotPost_calls i p o cs :
  slotPost set currentSet updateSet curRev updRev i p o cs -> Forall (firstPartCall set pods) cs.
Proof.
  intros [_ [(Hcs & _)|[(Hf & -> & _)|(q & Hc & [(Hf & _ & ->)|(_ & -> & ->)] & _)]]].
  - by apply upkeep_firstPart.
  - apply Forall_singleton. by left.
  - apply Forall_cons_2; [by left|]. by apply Forall_singleton.
  - by apply Forall_singleton.
Qed.

Lemma Pass_calls i todo done o cs :
  Pass set currentSet updateSet curRev updRev i todo done o cs ->
  Forall (firstPartCall set pods) cs
  /\ match o with
     | Ok (Next (_, reps)) => length reps = (length done + length todo)%nat
     | _ => True
     end.
Proof.
  induction 1 as [i done st|i p todo done st p' cs o cs' Hslot Hpass [IH Hlen]
                 |i p todo done st err p' cs Hslot|i p todo done r cs Hslot].
  - split; [constructor|cbn; lia].
  - split; [apply Forall_app; split; [by eapply slotPost_calls|done]|].
    destruct o as [[[st' reps]|x]|r]; [|done..]. rewrite length_app in Hlen. cbn in *. lia.
  - split; [by eapply slotPost_calls|done].
  - split; [by eapply slotPost_calls|done].
Qed.

Lemma terminate_calls n replicas first condemned status :
  spec_Replicas (set_Spec set) = Some n ->
  (forall p, p ∈ condemned -> obj p ∈ pods /\ n <= getOrdinal (obj p)) ->
  emits (State := World T) (forLoop (terminateCondemned set curRev updRev replicas first) condemned status)
    (fun _ cs => Forall (firstPartCall set pods) cs).
Proof.
  intros Hn Hall.
  assert (Hdel : forall p, p ∈ condemned -> firstPartCall set pods (DeleteCall (obj p))).
  { intros p Hp. right. exists n. split; [done|by apply Hall]. }
  destruct (allowsBurst set) eqn:Hb.
  - eapply emits_mono; [by apply terminate_parallel|]. intros o cs (k & -> & _).
    rewrite list.Forall_forall. intros c (p & -> & [_ Hp]%list_elem_of_filter)%list_elem_of_fmap.
    apply Hdel. apply elem_of_take in Hp as (j & Hj & _). by eapply list_elem_of_lookup_2.
  - eapply emits_mono; [by apply terminate_monotonic|].
    intros o cs [_ [->|(p & rest & -> & _ & _ & ->)]]; [constructor|].
    apply Forall_singleton, Hdel. by left.
Qed.
(** A parallel pass that goes through every slot fills and repairs each. *)
Lemma Pass_parallel i todo done o cs :
  allowsBurst set = true -> Pass set currentSet updateSet curRev updRev i todo done o cs ->
  match o with
  | Ok (Next _) => forall k p, todo !! k = Some p ->
      (isCreated (obj p) = false -> CreateCall (obj p) ∈ cs)
      /\ (isFailed (obj p) = true -> DeleteCall (obj p) ∈ cs
          /\ exists q, freshPod currentSet updateSet curRev updRev (i + Z.of_nat k) = Ok q
               /\ CreateCall (obj q) ∈ cs)
  | Ok (Return (_, err, _)) => err <> None
  | Panic _ => True
  end.
Proof.
  intros Hb. induction 1 as [i done st|i p todo done st p' cs o cs' Hslot Hpass IH
                            |i p todo done st err p' cs [Hq _]|i p todo done r cs Hslot]; [done| | |done].
  - destruct o as [[[st' reps]|x]|r]; [|done..]. intros [|k] p0; cbn [lookup list_lookup].
    + intros [= <-]. rewrite Z.add_0_r. setoid_rewrite elem_of_app.
      destruct Hslot as [_ [(_ & Hf & Hc & _)|[(_ & _ & [])|(q & Hc & Hq & _)]]];
        [rewrite Hf, Hc; done|done|].
      destruct Hq as [(Hf & Hfresh & ->)|(Hf & -> & ->)].
      * apply isFailed_created in Hf as Hc'. rewrite Hc'. split; [done|]. intros _.
        split; [left; by left|]. exists q. split; [done|]. left. right. by left.
      * rewrite Hf. split; [|done]. intros _. left. by left.
    + intros Hk. replace (i + Z.of_nat (S k)) with (i + 1 + Z.of_nat k) by lia.
      destruct (IH k p0 Hk) as [IH1 IH2]. setoid_rewrite elem_of_app. split; [auto|].
      intros Hf. destruct (IH2 Hf) as (? & q & ? & ?). split; [auto|]. exists q. auto.
  - intros ->. specialize (Hq I). congruence.
Qed.
End PassCalls.

(** ** A set with nothing to do *)

(** A pod that needs nothing but perhaps another revision: ready, a member, and with no
    in-place update under way. *)
Definition steadyPod `{KubeLib, Json InPlaceUpdateState} (set : StatefulSet) (pod : Pod) : Prop :=
  isRunningAndReady pod = true /\ isTerminating pod = false
  /\ shouldUpdateInPlaceReady pod = false /\ checkInPlaceUpdateCompleted pod = None
  /\ identityMatches set pod = true /\ storageMatches set pod = true.

(** One that needs nothing at all. *)
Definition settledPod `{KubeLib, Json InPlaceUpdateState} (set : StatefulSet)
    (updRev : ControllerRevision) (pod : Pod) : Prop :=
  steadyPod set pod /\ getPodRevision pod = rev_Name updRev.

Section Settled.
Context {W : Type} `{KubeLib, MapRange, Json Coordinates, PatchLib, Json InPlaceUpdateState}.
Context `{HistoryLib, SetCodec, SelectorLib, IntStrLib, GoSort, ErrorText}.
Context `{Recorder W, Clock W, StatefulPodControl W}.
Context (set currentSet updateSet : StatefulSet) (curRev updRev : ControllerRevision).
Context (revisions : list ControllerRevision).
Notation T := (W * list PodCall)%type.

Lemma ready_running pod :
  isRunningAndReady pod = true -> isCreated pod = true /\ isFailed pod = false.
Proof.
  unfold isRunningAndReady, isCreated, isFailed. intros [Hp%bool_decide_eq_true _]%andb_true_iff.
  rewrite Hp. split; reflexivity.
Qed.

Lemma syncReplica_steady i p status :
  steadyPod set (obj p) ->
  emits (State := World T) (syncReplica set currentSet updateSet curRev updRev i p status)
    (fun o cs => cs = [] /\ o = Ok (Next (status, p))).
Proof.
  intros (Hr & Ht & Hs & _ & Hi & Hst). destruct (ready_running _ Hr) as [Hc Hf].
  unfold syncReplica, recreateFailed, markInPlaceReady, enforceIdentity. cbv zeta. rewrite Hf.
  apply emits_fbind, emits_fret. rewrite Hc, Ht. cbn [negb andb]. rewrite Hs.
  apply emits_fbind, emits_fret. rewrite Hr, Hi, Hst. cbn [negb andb]. by apply emits_fret.
Qed.

Lemma syncReplicas_steady todo : forall i done status,
  Forall (fun p => steadyPod set (obj p)) todo ->
  emits (State := World T) (syncReplicas set currentSet updateSet curRev updRev i todo done status)
    (fun o cs => cs = [] /\ o = Ok (Next (status, done ++ todo))).
Proof.
  induction todo as [|p todo IH]; intros i done status Hall; cbn [syncReplicas].
  { apply emits_fret. by rewrite app_nil_r. }
  apply list.Forall_cons in Hall as [Hp Hall]. intros w.
  destruct (syncReplica_steady i p status Hp w) as (cs & E & -> & Ho).
  destruct (syncReplica set currentSet updateSet curRev updRev i p status w) as [o w'].
  cbn in Ho, E. subst o.
  destruct (IH (i + 1) (done ++ [p]) status Hall w') as (cs & E' & -> & Ho).
  exists []. rewrite E', E, !app_nil_r. split_and!; [done|done|]. by rewrite Ho, <-app_assoc.
Qed.

Lemma updateLoop_settled maxUnavailable targets status : forall s,
  us_status s = status -> Forall (fun p => settledPod set updRev (obj p)) (us_replicas s) ->
  emits (State := World T) (forLoop (updateTarget set curRev updRev revisions maxUnavailable) targets s)
    (fun o cs => cs = [] /\ match o with
                           | Ok (Next s') => us_status s' = status
                           | Ok (Return (st, _, _)) => st = status
                           | Panic _ => True
                           end).
Proof.
  induction targets as [|t targets IH]; intros s Hst Hall; cbn [forLoop]; [by apply emits_ret|].
  apply emits_bind. intros w. exists []. rewrite app_nil_r. unfold updateTarget at 1 2.
  destruct (index (us_replicas s) t) as [p|r] eqn:Ei; [|done].
  apply index_Some in Ei as [Ht Hp]. pose proof Hall as Hp'. rewrite list.Forall_forall in Hp'.
  destruct (Hp' p (list_elem_of_lookup_2 _ _ _ Hp)) as [(Hr & Hterm & _ & Hcomp & _ & _) Hrev].
  rewrite !decide_False by (by intros []). cbn [mret F_ret].
  rewrite list_insert_id by done.
  assert (Hh : isHealthy (obj p) = true) by (unfold isHealthy; by rewrite Hr, Hterm).
  rewrite !(decide_False (P := _ \/ _)) by (rewrite Hh, Hcomp; naive_solver).
  case_decide; cbn; (split; [done|]).
  - by apply emits_ret.
  - by apply IH.
Qed.

Lemma settled_update n replicas status :
  Forall (fun p => settledPod set updRev (obj p)) replicas ->
  emits (State := World T) (updateReplicas set curRev updRev revisions n replicas status)
    (fun o cs => match o with
       | Ok (Next (st, err, reps)) | Ok (Return (st, err, reps)) =>
           cs = [] /\ forall st0 err0 reps0, Ok (Some st, err, reps) = Ok (Some st0, err0, reps0) ->
             st0 = status
       | Panic r => cs = [] /\ forall st0 err0 reps0,
           (Panic r : Outcome (option StatefulSetStatus * option Err * list Ptr))
           = Ok (Some st0, err0, reps0) -> st0 = status
       end).
Proof.
  intros Hall. unfold updateReplicas. apply emits_fbind, emits_run, emits_lift.
  destruct (deref _) as [us|]; [|done].
  case_decide; [apply emits_fret; naive_solver|].
  apply emits_fbind, emits_run, emits_readCache. intros satisfied.
  destruct (negb satisfied); [apply emits_fret; naive_solver|].
  apply emits_fbind, emits_run, emits_lift.
  destruct (updateBounds us n) as [[e|[[updateMin maxU]|]]|r];
    [apply emits_fret; naive_solver| |apply emits_fret; naive_solver|done].
  apply emits_fbind. eapply emits_mono; [by apply (updateLoop_settled _ _ status)|].
  intros o cs [-> Ho]. destruct o as [[s|[[st err] reps]]|r]; [|naive_solver|done].
  apply emits_fret. naive_solver.
Qed.
End Settled.

(** ** Properties of a reconcile *)

Section Properties.
Context {W : Type} `{KubeLib, !KubeLibLaws, MapRange, Json Coordinates, PatchLib,
  Json InPlaceUpdateState}.
Context `{HistoryLib, SetCodec, SelectorLib, IntStrLib, GoSort, !GoSortLaws, ErrorText}.
Context `{Recorder W, Clock W, StatefulPodControlLaws W}.
Notation T := (W * list PodCall)%type.
Context (set : StatefulSet) (curRev updRev : ControllerRevision) (collisionCount : Z).
Context (pods : list Pod) (revisions : list ControllerRevision).

(** The pods of the ordinals below [i] that a monotonic set waits for: each is listed,
    is neither failed nor terminating, and is running and ready. *)
Definition predecessorsReady (i : Z) : Prop :=
  forall j, 0 <= j < i -> exists pod, pod ∈ pods /\ getOrdinal pod = j
    /\ isFailed pod = false /\ isTerminating pod = false /\ isRunningAndReady pod = true.

(** C1: The control loop refines its specification: the calls of any reconcile of a set
    that does not allow bursts are calls the specification allows, for every
    implementation of the pod interface. *)
Theorem updateStatefulSet_refines :
  allowsBurst set = false ->
  emits (State := World T) (updateStatefulSet set curRev updRev collisionCount pods revisions) (fun _ cs =>
    cs = [] \/ exists currentSet updateSet n replicas condemned,
      started set curRev updRev pods currentSet updateSet n replicas condemned
      /\ monotonicCalls set curRev updRev currentSet updateSet n replicas condemned cs).
Proof. apply monotonic_refines. Qed.

(** C7: Ordered creation: a set that does not allow bursts creates at most one pod per
    reconcile, as the last thing it does, at an ordinal below [replicas], and only
    when the pod of every smaller ordinal is running and ready; the pod created is
    the one built for that ordinal, or a listed one that never left the empty phase. *)
Theorem updateStatefulSet_ordered_creation :
  allowsBurst set = false ->
  emits (State := World T) (updateStatefulSet set curRev updRev collisionCount pods revisions) (fun _ cs =>
    forall pod, CreateCall pod ∈ cs -> exists pre i n cur upd,
      cs = pre ++ [CreateCall pod] /\ (forall q, CreateCall q ∉ pre)
      /\ (forall q, DeleteCall q ∈ pre -> isFailed q = true)
      /\ spec_Replicas (set_Spec set) = Some n /\ 0 <= i < n /\ predecessorsReady i
      /\ ApplyRevision set curRev = Ok (inr cur) /\ ApplyRevision set updRev = Ok (inr upd)
      /\ ((exists p, freshPod cur upd curRev updRev i = Ok p /\ pod = obj p)
          \/ (pod ∈ pods /\ getOrdinal pod = i /\ isCreated pod = false))).
Proof.
  intros Hb. eapply emits_mono; [by apply monotonic_refines|].
  intros _ cs [->|(cur & upd & n & replicas & condemned & Hst & Hcs)] pod Hin;
    [by apply not_elem_of_nil in Hin|].
  pose proof (started_length _ _ _ _ _ _ _ _ _ Hst) as (Hlen & _ & Hn).
  destruct Hcs as [up last k p Hup Hpre Hk Hstop|up Hup|up p rest Hup _ _ _ _|up reps cs Hup _ _ _ Hu].
  2: by apply upkeep_no_create in Hin.
  2: { apply elem_of_app in Hin as [Hin|Hin%list_elem_of_singleton]; [|done].
       by apply upkeep_no_create in Hin. }
  2: { apply elem_of_app in Hin as [Hin|Hin]; [by apply upkeep_no_create in Hin|].
       by apply (updateCalls_no_create _ _ _ _ _ _ Hu) in Hin. }
  destruct (started_slot _ _ _ _ _ _ _ _ _ _ _ Hst Hk) as [Hkn Hslot].
  assert (Hready : predecessorsReady (Z.of_nat k)).
  { intros j Hj. eapply passable_before; [exact Hst|exact Hpre|lia|done]. }
  assert (Hsets : ApplyRevision set curRev = Ok (inr cur) /\ ApplyRevision set updRev = Ok (inr upd))
    by (by destruct Hst).
  destruct Hsets as [Hcur Hupd].
  apply elem_of_app in Hin as [Hin|Hin]; [by apply upkeep_no_create in Hin|].
  destruct Hstop as [Hl|[[_ ->]|(q & Hc & [(Hf & Hq & ->)|(Hf & -> & ->)])]].
  - by apply upkeep_no_create in Hin.
  - by apply list_elem_of_singleton in Hin.
  - apply elem_of_cons in Hin as [|Hin%list_elem_of_singleton]; [done|]. injection Hin as ->.
    exists (up ++ [DeleteCall (obj p)]), (Z.of_nat k), n, cur, upd.
    rewrite <-app_assoc. split_and!; try done; [| |lia..|by left; eauto].
    + intros q'. rewrite elem_of_app, list_elem_of_singleton. intros [Hin|Hin]; [|done].
      by apply upkeep_no_create in Hin.
    + intros q'. rewrite elem_of_app, list_elem_of_singleton. intros [Hin|[= ->]]; [|done].
      by apply upkeep_no_delete in Hin.
  - apply list_elem_of_singleton in Hin. injection Hin as ->.
    exists up, (Z.of_nat k), n, cur, upd. split_and!; try done; [| |lia..|].
    + intros q'. by apply upkeep_no_create.
    + intros q' Hin. by apply upkeep_no_delete in Hin.
    + destruct Hslot as [[Hp Hord]|[Hp _]]; [right; done|left; eauto].
Qed.

(** C8: Ordered scale-down: while a set that does not allow bursts has pods beyond its
    replicas, a reconcile terminates nothing but failed pods, or one pod, as the last
    thing it does: the listed pod of the largest ordinal, once every replica is
    ready. In particular no pod is terminated for an update before scaling is done. *)
Theorem updateStatefulSet_ordered_scaleDown n extra :
  allowsBurst set = false -> spec_Replicas (set_Spec set) = Some n ->
  extra ∈ pods -> n <= getOrdinal extra ->
  emits (State := World T) (updateStatefulSet set curRev updRev collisionCount pods revisions) (fun _ cs =>
    forall pod, DeleteCall pod ∈ cs ->
      (isFailed pod = true /\ pod ∈ pods /\ getOrdinal pod < n)
      \/ exists pre, cs = pre ++ [DeleteCall pod] /\ Forall upkeep pre
         /\ pod ∈ pods /\ n <= getOrdinal pod /\ isTerminating pod = false
         /\ (forall q, q ∈ pods -> getOrdinal q <= getOrdinal pod)
         /\ predecessorsReady n).
Proof.
  intros Hb Hn Hex Hge. eapply emits_mono; [by apply monotonic_refines|].
  intros _ cs [->|(cur & upd & n' & replicas & condemned & Hst & Hcs)] pod Hin;
    [by apply not_elem_of_nil in Hin|].
  pose proof (started_length _ _ _ _ _ _ _ _ _ Hst) as (Hlen & Hn0 & Hn').
  rewrite Hn in Hn'. injection Hn' as <-.
  destruct Hcs as [up last k p Hup Hpre Hk Hstop|up Hup|up p rest Hup Hall -> Ht Hr|up reps cs Hup _ -> _ Hu].
  - destruct (started_slot _ _ _ _ _ _ _ _ _ _ _ Hst Hk) as [Hkn Hslot]. left.
    assert (Hlisted : isFailed (obj p) = true -> isFailed (obj p) = true /\ obj p ∈ pods
              /\ getOrdinal (obj p) < n).
    { intros Hf. split; [done|]. destruct Hslot as [[Hp Hord]|[Hp _]]; [split; [done|lia]|].
      apply freshPod_fresh in Hp as (_ & Hc & _). apply isFailed_created in Hf. congruence. }
    apply elem_of_app in Hin as [Hin|Hin]; [by apply upkeep_no_delete in Hin|].
    destruct Hstop as [Hl|[[Hf ->]|(q & Hc & [(Hf & Hq & ->)|(Hf & -> & ->)])]].
    + by apply upkeep_no_delete in Hin.
    + apply list_elem_of_singleton in Hin. injection Hin as ->. by apply Hlisted.
    + apply elem_of_cons in Hin as [[= ->]|Hin%list_elem_of_singleton]; [by apply Hlisted|done].
    + by apply list_elem_of_singleton in Hin.
  - by apply upkeep_no_delete in Hin.
  - right. exists up.
    apply elem_of_app in Hin as [Hin|Hin%list_elem_of_singleton]; [by apply upkeep_no_delete in Hin|].
    injection Hin as ->.
    destruct (proj1 (started_condemned _ _ _ _ _ _ _ _ _ (obj p) Hst)) as [Hp Hpn].
    { exists p. split; [by left|done]. }
    split_and!; try done.
    + intros q Hq. destruct (decide (n <= getOrdinal q)) as [Hqn|]; [|lia].
      destruct (proj2 (started_condemned _ _ _ _ _ _ _ _ _ q Hst) (conj Hq Hqn)) as (p' & Hp' & <-).
      by eapply started_descending.
    + intros j Hj. eapply (passable_before _ _ _ _ _ _ _ _ _ (Z.to_nat n)); [exact Hst| |lia|lia].
      by rewrite <-Hlen, firstn_all.
  - exfalso. destruct (proj2 (started_condemned _ _ _ _ _ _ _ _ _ extra Hst) (conj Hex Hge))
      as (p' & Hp' & _). by apply not_elem_of_nil in Hp'.
Qed.

(** C9: Rolling updates, in every mode: a reconcile is a first part, which terminates
    only failed pods and pods beyond the replicas and replaces nothing in place,
    followed by an update. The update visits ordinals in strictly descending order, all
    of them at or above the partition and below the replicas; at each it moves the pod
    of that very ordinal, the listed one or one built for it in this reconcile, and only
    if that is of another revision and not terminating; it moves at most
    [maxUnavailable] pods (or one); an in-place replacement always comes after the pod
    was marked not ready. There is none for a paused set or the strategy OnDelete. *)
Theorem updateStatefulSet_update_bounded :
  emits (State := World T) (updateStatefulSet set curRev updRev collisionCount pods revisions) (fun _ cs =>
    boundedUpdate set curRev updRev pods cs).
Proof.
  apply updateStatefulSet_started.
  { intros o _. apply bounded_firstPart. constructor. }
  intros cur upd n replicas condemned status Hst.
  pose proof (started_length _ _ _ _ _ _ _ _ _ Hst) as (Hlen & Hn0 & Hn).
  refine (emits_mono _ (fun _ cs => boundedUpdate set curRev updRev pods cs) _ _ _).
  2: { intros o cs HP. by destruct o as [[[[st err] reps]|[[st err] reps]]|r]. }
  apply emits_fbind. eapply emits_mono; [apply syncReplicas_emits|]. intros o cs Hpass.
  pose proof (Pass_calls set _ _ _ _ pods _ _ _ _ _ Hpass) as [Hcs Hreps].
  destruct o as [[[st reps]|x]|r]; [|by apply bounded_firstPart..].
  apply emits_fbind. eapply emits_mono; [apply (terminate_calls set curRev updRev pods n reps)|].
  { done. }
  { intros p Hp. eapply started_condemned; [exact Hst|]. by exists p. }
  intros o cs2 Hcs2. assert (Hboth : Forall (firstPartCall set pods) (cs ++ cs2)) by (by apply Forall_app).
  destruct o as [[st'|x]|r]; [|by apply bounded_firstPart..].
  eapply emits_mono; [apply updateReplicas_emits|]. intros o cs3 (touched & -> & Hall & Hu).
  exists (cs ++ cs2), touched. rewrite <-app_assoc. split_and!; [done|done| |].
  { eapply list.Forall_impl; [exact Hall|]. intros [t calls] (p & Ht & Hp & Htouch).
    exists p. split; [|done]. by eapply started_ordinal. }
  intros Hne. destruct Hu as (us & updateMin & maxU & ? & ? & ? & Hsub & Hmax).
  { by eapply touched_calls. }
  exists us, n, updateMin, maxU. split_and!; [done..| |].
  - eapply StronglySorted_sublist; [exact Hsub|apply updateTargets_sorted].
  - intros t Ht. eapply sublist_In in Ht; [|exact Hsub].
    apply elem_of_updateTargets in Ht. cbn in Hreps. lia.
Qed.

(** C11: Parallel sets: a reconcile that reports no error has created a pod for every
    ordinal without one and terminated every pod beyond the replicas that was not
    terminating already. *)
Theorem updateStatefulSet_parallel_complete :
  allowsBurst set = true -> DeletionTimestamp (set_meta set) = None ->
  emits (State := World T) (updateStatefulSet set curRev updRev collisionCount pods revisions) (fun o cs =>
    forall st reps, o = Ok (Some st, None, reps) ->
    exists cur upd n,
      ApplyRevision set curRev = Ok (inr cur) /\ ApplyRevision set updRev = Ok (inr upd)
      /\ spec_Replicas (set_Spec set) = Some n
      /\ (forall i, 0 <= i < n -> (forall pod, pod ∈ pods -> getOrdinal pod <> i) ->
           exists p, freshPod cur upd curRev updRev i = Ok p /\ CreateCall (obj p) ∈ cs)
      /\ (forall pod, pod ∈ pods -> n <= getOrdinal pod -> isTerminating pod = false ->
           DeleteCall pod ∈ cs)).
Proof.
  intros Hb Hdel. apply updateStatefulSet_started.
  { intros o Ho st reps ->. by destruct Ho as [? _]. }
  intros cur upd n replicas condemned status Hst.
  pose proof (started_length _ _ _ _ _ _ _ _ _ Hst) as (Hlen & Hn0 & Hn).
  assert (Hsets : ApplyRevision set curRev = Ok (inr cur) /\ ApplyRevision set updRev = Ok (inr upd))
    by (by destruct Hst). destruct Hsets as [Hcur Hupd].
  apply emits_fbind. eapply emits_mono; [apply syncReplicas_emits|]. intros o cs Hpass.
  apply Pass_parallel in Hpass; [|done].
  destruct o as [[[st reps]|[[st err] reps]]|r]; [|by intros ? ? [=]; subst|done].
  apply emits_fbind. eapply emits_mono; [by apply terminate_parallel|].
  intros o cs2 (k & Hcs2 & Hk).
  destruct o as [[st'|[[st' err] reps']]|r]; [|by intros ? ? [=]; subst|done].
  rewrite take_ge in Hcs2 by done. eapply emits_mono; [apply updateReplicas_emits|].
  intros o cs3 _.
  enough (Hgoal : (forall i, 0 <= i < n -> (forall pod, pod ∈ pods -> getOrdinal pod <> i) ->
       exists p, freshPod cur upd curRev updRev i = Ok p
         /\ CreateCall (obj p) ∈ cs ++ cs2 ++ cs3)
     /\ (forall pod, pod ∈ pods -> n <= getOrdinal pod -> isTerminating pod = false ->
         DeleteCall pod ∈ cs ++ cs2 ++ cs3)).
  { destruct o as [[[[st'' err] reps'']|[[st'' err] reps'']]|r]; try done; intros ? ? _;
      exists cur, upd, n; exact (conj Hcur (conj Hupd (conj Hn Hgoal))). }
  split.
  - intros i Hi Hnone. destruct (lookup_lt_is_Some_2 replicas (Z.to_nat i)) as [p Hp]; [lia|].
    destruct (started_slot _ _ _ _ _ _ _ _ _ _ _ Hst Hp) as [_ [[Hin Hord]|[Hfresh _]]].
    { destruct (Hnone _ Hin). lia. }
    rewrite Z2Nat.id in Hfresh by lia. exists p. split; [done|]. apply elem_of_app. left.
    apply (Hpass _ _ Hp). by eapply freshPod_fresh.
  - intros pod Hpod Hge Ht. apply elem_of_app. right. apply elem_of_app. left.
    destruct (proj2 (started_condemned _ _ _ _ _ _ _ _ _ pod Hst) (conj Hpod Hge)) as (p & Hp & <-).
    rewrite Hcs2. apply list_elem_of_fmap. exists p. split; [done|]. by apply list_elem_of_filter.
Qed.

(** A set that is being deleted is left alone: no call is made, and the status
    reported is the count of its pods. *)
Theorem updateStatefulSet_deleted :
  DeletionTimestamp (set_meta set) <> None ->
  emits (State := World T) (updateStatefulSet set curRev updRev collisionCount pods revisions) (fun o cs =>
    cs = [] /\ forall st err reps, o = Ok (Some st, err, reps) ->
      err = None /\ st = countedStatus set curRev updRev collisionCount pods).
Proof.
  intros Hdel. apply updateStatefulSet_started.
  { intros o Ho. split; [done|]. intros st err reps ->. by destruct Ho as (_ & -> & ->). }
  intros cur upd n replicas condemned status [cur' upd' n' slots cond replicas' _ _ _ _ Hnone _ _].
  done.
Qed.

(** C12: A settled set is left alone: when every ordinal below [replicas] has a pod, there
    are no others, and every pod is ready, a member at the update revision and not
    being updated in place, a reconcile makes no call and reports the plain count. *)
Theorem updateStatefulSet_settled n :
  spec_Replicas (set_Spec set) = Some n ->
  (forall i, 0 <= i < n -> exists pod, pod ∈ pods /\ getOrdinal pod = i) ->
  (forall pod, pod ∈ pods -> getOrdinal pod < n) ->
  (forall pod, pod ∈ pods -> settledPod set updRev pod) ->
  emits (State := World T) (updateStatefulSet set curRev updRev collisionCount pods revisions) (fun o cs =>
    cs = [] /\ forall st err reps, o = Ok (Some st, err, reps) ->
      st = countedStatus set curRev updRev collisionCount pods).
Proof.
  intros Hn Hsome Hmax Hset. apply updateStatefulSet_started.
  { intros o Ho. split; [done|]. intros st err reps ->. by destruct Ho as (_ & _ & ->). }
  intros cur upd n' replicas condemned status Hst.
  pose proof (started_length _ _ _ _ _ _ _ _ _ Hst) as (Hlen & _ & Hn').
  rewrite Hn in Hn'. injection Hn' as <-.
  assert (condemned = []) as ->.
  { apply elem_of_nil_inv. intros p Hp.
    destruct (proj1 (started_condemned _ _ _ _ _ _ _ _ _ (obj p) Hst)) as [Hin Hge]; [by exists p|].
    apply Hmax in Hin. lia. }
  assert (Hall : Forall (fun p => settledPod set updRev (obj p)) replicas).
  { apply list.Forall_forall. intros p [k Hk]%list_elem_of_lookup.
    destruct (started_slot _ _ _ _ _ _ _ _ _ _ _ Hst Hk) as [Hkn [[Hin _]|[_ Hnone]]]; [by apply Hset|].
    destruct (Hsome (Z.of_nat k)) as (pod & Hin & Hord); [lia|]. by destruct (Hnone pod Hin). }
  apply emits_fbind. eapply emits_mono; [apply syncReplicas_steady|].
  { eapply list.Forall_impl; [exact Hall|]. by intros p [? _]. } intros o cs [-> ->].
  cbn [forLoop app]. apply emits_fbind, emits_ret. cbn [app].
  apply (settled_update set curRev updRev revisions n replicas status Hall).
Qed.
End Properties.
