(* ===== verification/NoPanic.v ===== *)
(** When the control loop cannot panic: the sets and pods for which every nil
    pointer it follows, every index it takes and every slice it makes is in range,
    whatever the API server answers ([controllers/stateful_set_control.go]). *)

From S2P Require Import Prelude Objects GoString Libraries Coordinate Cluster Fixtures Naming.
From S2P Require Import Expectations PodIdentity SetStatus InPlace Interfaces Revisions.
From S2P Require Import CapturedTemplates.
From S2P Require Import CallLog PodControl Control StsController ControlCalls ControlSafety.

(** ** Code that does not panic *)

(** The panics that are put up with: none, or [OutOfFuel], which stands for a loop that
    goes on ([Revisions.realHistory]). *)
Class Tolerates := tolerated : PanicReason -> Prop.
Definition noPanic : Tolerates := fun _ => False.
Definition mayGoOn : Tolerates := fun r => r = OutOfFuel.

(** From every world [m] yields a value in [Q], up to the panics put up with. *)
Definition safe `{Tolerates} {W A} (m : M W A) (Q : A -> Prop) : Prop :=
  forall w, match (m w).1 with Ok a => Q a | Panic r => tolerated r end.

Section Safe.
Context `{Tolerates} {W : Type}.

Lemma safe_mono {A} (m : M W A) (Q Q' : A -> Prop) :
  safe m Q -> (forall a, Q a -> Q' a) -> safe m Q'.
Proof. intros Hm HQ w. specialize (Hm w). destruct (m w).1; auto. Qed.

Lemma safe_ret {A} (a : A) (Q : A -> Prop) : Q a -> safe (mret a : M W A) Q.
Proof. by intros HQ w. Qed.

Lemma safe_bind {A B} (m : M W A) (f : A -> M W B) (Q : B -> Prop) :
  safe m (fun a => safe (f a) Q) -> safe (m ≫= f) Q.
Proof.
  intros Hm w. specialize (Hm w). unfold mbind, M_bind. destruct (m w) as [[a|r] w']; [apply Hm|done].
Qed.

Lemma safe_lift {A} (o : Outcome A) (Q : A -> Prop) :
  (exists a, o = Ok a /\ Q a) -> safe (lift o : M W A) Q.
Proof. by intros (a & -> & HQ) w. Qed.

Lemma safe_call {A} (f : W -> A * W) (Q : A -> Prop) : (forall a, Q a) -> safe (call f) Q.
Proof. intros HQ w. unfold call. destruct (f w) as [a w']. apply HQ. Qed.

Lemma safe_fret {R A} (a : A) (Q : Flow A R -> Prop) :
  Q (Next a) -> safe (mret a : F W R A) Q.
Proof. by intros HQ w. Qed.

Lemma safe_return {R A} (r : R) (Q : Flow A R -> Prop) :
  Q (Return r) -> safe (return_ r : F W R A) Q.
Proof. by intros HQ w. Qed.

Lemma safe_run {R A} (m : M W A) (Q : Flow A R -> Prop) :
  safe m (fun a => Q (Next a)) -> safe (run m : F W R A) Q.
Proof. intros Hm w. specialize (Hm w). unfold run. by destruct (m w) as [[a|r] w']. Qed.

Lemma safe_fbind {R A B} (m : F W R A) (f : A -> F W R B) (Q : Flow B R -> Prop) :
  safe m (fun x => match x with Next a => safe (f a) Q | Return r => Q (Return r) end) ->
  safe (m ≫= f) Q.
Proof.
  intros Hm w. specialize (Hm w). unfold mbind, F_bind.
  destruct (m w) as [[[a|r]|r] w']; [apply Hm|done..].
Qed.

Lemma safe_body {R} (m : F W R R) (Q : R -> Prop) :
  safe m (fun x => match x with Next r | Return r => Q r end) -> safe (body m) Q.
Proof. intros Hm w. specialize (Hm w). unfold body. by destruct (m w) as [[[a|r]|r] w']. Qed.

(** The loop rule, with an invariant of the loop variables. *)
Lemma safe_forLoop {I S R} (step : I -> S -> M W (Flow S R)) l s
    (Inv : S -> Prop) (Q : Flow S R -> Prop) :
  Inv s ->
  (forall i s, i ∈ l -> Inv s ->
     safe (step i s) (fun x => match x with Next s' => Inv s' | Return r => Q (Return r) end)) ->
  (forall s, Inv s -> Q (Next s)) ->
  safe (forLoop step l s) Q.
Proof.
  revert s. induction l as [|i l IH]; intros s HI Hstep Hend; cbn [forLoop].
  { by apply safe_ret, Hend. }
  apply safe_bind. eapply safe_mono; [apply Hstep; [by left|done]|].
  intros [s'|r] Hs; [|by apply safe_ret].
  apply IH; [done| |done]. intros i' s'' Hi'. apply Hstep. by right.
Qed.

Lemma safe_onCache (f : controllerCache -> controllerCache) (Q : unit -> Prop) :
  Q tt -> safe (onCache (W := W) f) Q.
Proof. by intros HQ [w cache]. Qed.
Lemma safe_readCache {A} (f : controllerCache -> A) (Q : A -> Prop) :
  (forall a, Q a) -> safe (readCache (W := W) f) Q.
Proof. intros HQ [w cache]. apply HQ. Qed.
Lemma safe_api {A} (m : M W A) (Q : A -> Prop) : safe m Q -> safe (api m) Q.
Proof. intros Hm [w cache]. specialize (Hm w). unfold api. by destruct (m w). Qed.
End Safe.

(** What the loop asks of its pod interface: no operation panics on a set with a
    selector, creating a pod or setting its condition keeps its key, and setting a condition
    its revision label. The in-place rewrite is left out: it decodes a patched pod, and is
    asked for only where a set updates in place. *)
Class StatefulPodControlTotal (W : Type) `{Tolerates, StatefulPodControl W} := {
  create_total set pod : is_Some (Selector (set_Spec set)) -> safe (CreateStatefulPod set pod)
    (fun res => keyOf (pod_meta res.2) = keyOf (pod_meta pod));
  update_total set pod : is_Some (Selector (set_Spec set)) -> safe (UpdateStatefulPod set pod) (fun _ => True);
  condition_total set pod c : safe (UpdateStatefulPodCondition set pod c)
    (fun res => getPodRevision res.2 = getPodRevision pod
                /\ keyOf (pod_meta res.2) = keyOf (pod_meta pod));
  delete_total set pod : safe (DeleteStatefulPod set pod) (fun _ => True);
}.

(** ** Sets the loop can work on *)

(** A set every pod of which can be built: its name is a single line, it has a
    selector, its coordinates are usable, and its update strategy has a rolling
    update with a partition. *)
Record buildable `{Json Coordinates} (set : StatefulSet) (ru : RollingUpdateStatefulSetStrategy)
    : Prop := mkBuildable {
  build_name : occurs newline (Name (set_meta set)) = false;
  build_selector : is_Some (Selector (set_Spec set));
  build_coordinates : coordinatesUsable set;
  build_strategy : exists us, UpdateStrategy (set_Spec set) = Some us /\ RollingUpdate us = Some ru;
  build_partition : is_Some (Partition ru);
}.

(** A pod in the place of one of the set's: its name and namespace. *)
Definition ours (set : StatefulSet) (pod : Pod) : Prop :=
  isMemberOf set pod = true /\ 0 <= getOrdinal pod
  /\ Namespace (pod_meta pod) = Namespace (set_meta set).

Lemma ours_key set pod pod' :
  keyOf (pod_meta pod') = keyOf (pod_meta pod) -> ours set pod -> ours set pod'.
Proof.
  intros [= Hns Hn] (Hm & Ho & Hs). split_and!; [|by rewrite (getOrdinal_Name _ pod)|congruence].
  unfold isMemberOf, getParentName, getParentNameAndOrdinal in *. by rewrite Hn.
Qed.
Lemma ours_identity set set' pod :
  set_meta set' = set_meta set -> identityMatches set' pod = true -> ours set pod.
Proof.
  intros Hm. unfold identityMatches, ours, isMemberOf, getParentName, getOrdinal. rewrite Hm.
  destruct (getParentNameAndOrdinal pod) as [parent ordinal].
  rewrite !andb_true_iff, !bool_decide_eq_true. intros ((((? & ->) & _) & ?) & _). split_and!; [done|lia|done].
Qed.

(** An in-place plan for the pods of a revision can be drawn up; it is one only if the set
    updates in place, and then the revision has a name and the plan keeps the revision
    label. *)
Definition plansSafely `{PatchLib, Json InPlaceUpdateState} (set : StatefulSet)
    (updRev : ControllerRevision) (revisions : list ControllerRevision)
    (ru : RollingUpdateStatefulSetStrategy) (name : string) : Prop :=
  exists plan, shouldDoInPlaceUpdate set updRev name revisions = Ok plan
    /\ forall spec, plan = Some spec -> updatesInPlace ru /\ name <> "" /\ keepsRevision spec.

(** Pods the set claimed: members in its namespace, with room above their ordinals. *)
Definition claimedPods (set : StatefulSet) (pods : list Pod) : Prop :=
  forall pod, pod ∈ pods ->
    getOrdinal pod < MaxInt32 /\ isMemberOf set pod = true
    /\ Namespace (pod_meta pod) = Namespace (set_meta set).

(** What a reconcile starts from, for the loop not to panic: replicas and a partition
    that are not negative, revisions that apply or are refused, pods whose ordinals
    leave room above them, and in-place plans that can be drawn up and leave a pod its
    revision label. These are facts about the repository's own functions, which
    [captured_loopReady] establishes. *)
Record loopReady `{PatchLib, Json InPlaceUpdateState, HistoryLib, SetCodec, MapRange, Json Coordinates}
    (set : StatefulSet) (curRev updRev : ControllerRevision) (pods : list Pod)
    (revisions : list ControllerRevision) (n : Z) (ru : RollingUpdateStatefulSetStrategy) : Prop
    := mkLoopReady {
  ready_set : buildable set ru;
  ready_replicas : spec_Replicas (set_Spec set) = Some n;
  ready_count : 0 <= n <= MaxInt32;
  ready_partition : forall p, Partition ru = Some p -> 0 <= p;
  ready_current : exists r, ApplyRevision set curRev = Ok r
                    /\ forall s, r = inr s -> set_meta s = set_meta set /\ exists ru', buildable s ru';
  ready_update : exists r, ApplyRevision set updRev = Ok r
                    /\ forall s, r = inr s -> set_meta s = set_meta set /\ exists ru', buildable s ru';
  ready_pods : claimedPods set pods;
  ready_plans : forall name, plansSafely set updRev revisions ru name;
}.

Section Build.
Context `{KubeLib, !KubeLibLaws, MapRange, Json Coordinates}.

Lemma atCurrentRevision_total set ru i :
  buildable set ru -> exists b, atCurrentRevision set i = Ok b.
Proof.
  intros [_ _ _ (us & Hus & Hru) [p Hp]]. unfold atCurrentRevision. rewrite Hus. cbn.
  rewrite Hru. destruct (_ && _); [by eexists|]. rewrite Hp. cbn. by eexists.
Qed.

(** The pod of every ordinal can be built, carries that ordinal, and is neither
    created nor terminating. *)
Lemma freshPod_total cur upd curRev updRev ru ru' i :
  buildable cur ru -> buildable upd ru' -> 0 <= i <= MaxInt32 ->
  exists p, freshPod cur upd curRev updRev i = Ok p /\ getOrdinal (obj p) = i
    /\ forall set, set_meta cur = set_meta set -> set_meta upd = set_meta set -> ours set (obj p).
Proof.
  intros Hcur Hupd Hi. unfold freshPod, newVersionedStatefulSetPod.
  destruct (atCurrentRevision_total cur ru i Hcur) as [b ->]. cbn [mbind Outcome_bind].
  destruct Hcur as [? ? ? _ _], Hupd as [? ? ? _ _].
  destruct b; cbn [mbind Outcome_bind].
  - destruct (newPod_member cur i) as (pod & -> & Hid & _ & Ho & _); [done..|].
    eexists. split; [done|]. split; [cbn; by rewrite <-Ho|]. intros set Hc _.
    apply (ours_key _ pod); [done|by eapply ours_identity].
  - destruct (newPod_member upd i) as (pod & -> & Hid & _ & Ho & _); [done..|].
    eexists. split; [done|]. split; [cbn; by rewrite <-Ho|]. intros set _ Hc.
    apply (ours_key _ pod); [done|by eapply ours_identity].
Qed.

Lemma fillReplicas_total cur upd curRev updRev ru ru' slots : forall i,
  buildable cur ru -> buildable upd ru' ->
  0 <= i -> i + Z.of_nat (length slots) <= MaxInt32 + 1 ->
  exists replicas, fillReplicas cur upd curRev updRev i slots = Ok replicas.
Proof.
  induction slots as [|slot slots IH]; intros i Hcur Hupd Hi Hl; cbn [fillReplicas length] in *.
  { by eexists. }
  assert (exists p, match slot with Some p => Ok p | None => freshPod cur upd curRev updRev i end = Ok p)
    as [p ->].
  { destruct slot as [p|]; [by eexists|].
    destruct (freshPod_total cur upd curRev updRev ru ru' i) as (p & -> & _ & _); [done|done|lia|].
    by eexists. }
  cbn [mbind Outcome_bind]. destruct (IH (i + 1)) as [rest ->]; [done|done|lia|lia|].
  by eexists.
Qed.
End Build.

(** ** Finding an unhealthy pod *)

Section Unhealthy.
Context `{KubeLib}.

(** The scan counts the unhealthy pods, and has one in hand as soon as an unhealthy
    pod has an ordinal below the bound it starts from. *)
Lemma scanUnhealthy_spec ptrs : forall u bound first,
  (first <> None \/ bound = MaxInt32) ->
  let '(u', bound', first') := foldl scanUnhealthy (u, bound, first) ptrs in
  u <= u'
  /\ (u < u' -> exists p, p ∈ ptrs /\ isHealthy (obj p) = false)
  /\ (first <> None \/ (exists p, p ∈ ptrs /\ isHealthy (obj p) = false
                         /\ getOrdinal (obj p) < MaxInt32) -> first' <> None).
Proof.
  induction ptrs as [|p ptrs IH]; intros u bound first Hb; cbn [foldl].
  { split_and!; [lia|lia|]. intros [?|(p & ?%not_elem_of_nil & _)]; done. }
  unfold scanUnhealthy at 2. destruct (isHealthy (obj p)) eqn:Eh.
  - specialize (IH u bound first Hb). destruct (foldl _ _ ptrs) as [[u' bound'] first'].
    destruct IH as (? & Hu & Hf). split_and!; [done| |].
    + intros (q & ? & ?)%Hu. exists q. by split; [right|].
    + intros Hx. apply Hf. destruct Hx as [?|(q & [->|Hq]%elem_of_cons & ? & ?)];
        [by left|congruence|right; eauto].
  - case_decide as Ho.
    + specialize (IH (u + 1) (getOrdinal (obj p)) (Some p) ltac:(by left)).
      destruct (foldl _ _ ptrs) as [[u' bound'] first']. destruct IH as (? & Hu & Hf).
      split_and!; [lia| |by intros _; apply Hf; left].
      intros _. exists p. by split; [left|].
    + specialize (IH (u + 1) bound first Hb).
      destruct (foldl _ _ ptrs) as [[u' bound'] first']. destruct IH as (? & Hu & Hf).
      split_and!; [lia| |].
      * intros _. exists p. by split; [left|].
      * intros Hx. apply Hf. destruct Hx as [?|(q & [->|Hq]%elem_of_cons & ? & ?)];
          [by left| |right; eauto]. left. destruct Hb as [?| ->]; [done|lia].
Qed.

Lemma findUnhealthy_found ptrs :
  (forall p, p ∈ ptrs -> isHealthy (obj p) = false -> getOrdinal (obj p) < MaxInt32) ->
  (0 < (findUnhealthy ptrs).1 \/ (exists p, p ∈ ptrs /\ isHealthy (obj p) = false)) ->
  is_Some (findUnhealthy ptrs).2.
Proof.
  intros Hord Hx. unfold findUnhealthy in *.
  pose proof (scanUnhealthy_spec ptrs 0 MaxInt32 None ltac:(by right)) as Hs.
  destruct (foldl _ _ ptrs) as [[u b] first]. destruct Hs as (_ & Hu & Hf). cbn in Hx |- *.
  apply not_eq_None_Some, Hf. right.
  destruct Hx as [(q & ? & ?)%Hu|(q & ? & ?)]; exists q; auto.
Qed.
End Unhealthy.

(** ** The phases of the loop *)

Section Loop.
Context `{Tolerates} {W : Type} `{KubeLib, !KubeLibLaws, MapRange, Json Coordinates, PatchLib,
  Json InPlaceUpdateState}.
Context `{HistoryLib, SetCodec, SelectorLib, IntStrLib, GoSort, !GoSortLaws, ErrorText}.
Context `{Recorder W, Clock W, StatefulPodControl W, !StatefulPodControlTotal W}.
Context (set currentSet updateSet : StatefulSet).
Context (curRev updRev : ControllerRevision) (revisions : list ControllerRevision).
Context (ru ru' ru'' : RollingUpdateStatefulSetStrategy).
Hypothesis Hset : buildable set ru.
Hypothesis Hcur : buildable currentSet ru'.
Hypothesis Hupd : buildable updateSet ru''.
Hypothesis Hcurmeta : set_meta currentSet = set_meta set.
Hypothesis Hupdmeta : set_meta updateSet = set_meta set.
Hypothesis Hinplace : updatesInPlace ru -> forall pod spec,
  ours set pod -> getPodRevision pod <> "" -> keepsRevision spec ->
  safe (W := W) (InPlaceUpdateStatefulPod set pod spec) (fun _ => True).
Hypothesis Hplans : forall name, plansSafely set updRev revisions ru name.

#[local] Hint Resolve safe_ret safe_fret safe_return : core.

(** A step that goes on does so with a pod in the place of one of the set's. *)
Definition goesOnOurs {S R} (x : Flow (S * Ptr) R) : Prop :=
  match x with Next (_, p) => ours set (obj p) | Return _ => True end.

Lemma withCondition_safe type msg status :
  safe (W := World W) (withCondition type msg status) (fun _ => True).
Proof. apply safe_bind, safe_api, safe_call. intros now. by apply safe_ret. Qed.

Lemma createReplica_safe p status :
  ours set (obj p) -> safe (W := World W) (createReplica set curRev updRev p status) goesOnOurs.
Proof.
  intros Hp. apply safe_fbind, safe_run, safe_api.
  eapply safe_mono; [by apply create_total, (build_selector _ _ Hset)|]. intros [[e|] pod] Hpod.
  - apply safe_fbind, safe_run. eapply safe_mono; [apply withCondition_safe|]. intros st _.
    by apply safe_return.
  - destruct (negb _); [by apply safe_return|]. apply safe_fret. by eapply ours_key.
Qed.

Lemma markInPlaceReady_safe p status :
  ours set (obj p) -> safe (W := World W) (markInPlaceReady set p status)
    (fun x => match x with Next q => ours set (obj q) | Return _ => True end).
Proof.
  intros Hp. unfold markInPlaceReady. destruct (shouldUpdateInPlaceReady _); [|by apply safe_fret].
  apply safe_fbind, safe_run, safe_api. eapply safe_mono; [apply condition_total|].
  intros [[e|] pod] [_ Hk]; [by apply safe_return|]. apply safe_fret. by eapply ours_key.
Qed.

Lemma enforceIdentity_safe p status :
  ours set (obj p) -> safe (W := World W) (enforceIdentity set updateSet p status) goesOnOurs.
Proof.
  intros Hp. unfold enforceIdentity. destruct (_ && _); [by apply safe_fret|].
  apply safe_fbind, safe_run, safe_api.
  eapply safe_mono; [by apply update_total, (build_selector _ _ Hupd)|]. intros [[e|] pod] _; cbn.
  - apply safe_fbind, safe_run. eapply safe_mono; [apply withCondition_safe|]. intros st _.
    by apply safe_return.
  - by apply safe_fret.
Qed.

Lemma recreateFailed_safe i p status :
  0 <= i <= MaxInt32 -> ours set (obj p) ->
  safe (W := World W) (recreateFailed set currentSet updateSet curRev updRev i p status) goesOnOurs.
Proof.
  intros Hi Hp. unfold recreateFailed. destruct (isFailed (obj p)); [|by apply safe_fret].
  apply safe_fbind, safe_run, safe_api, safe_call. intros _.
  apply safe_fbind, safe_run, safe_api. eapply safe_mono; [apply delete_total|].
  intros [e|] _; [by apply safe_return|].
  apply safe_fbind, safe_run, safe_lift.
  destruct (freshPod_total currentSet updateSet curRev updRev ru' ru'' i) as (q & -> & _ & Hq); [done..|].
  exists q. split; [done|]. apply safe_fret. by apply Hq.
Qed.

Lemma syncReplica_safe i p status :
  0 <= i <= MaxInt32 -> ours set (obj p) ->
  safe (W := World W) (syncReplica set currentSet updateSet curRev updRev i p status) goesOnOurs.
Proof.
  intros Hi Hp. unfold syncReplica. apply safe_fbind.
  eapply safe_mono; [by apply recreateFailed_safe|]. intros [[st q]|r] Hq; [|done]. cbv beta iota zeta.
  cbn in Hq. destruct (negb (isCreated _)); [by apply createReplica_safe|].
  destruct (_ && _); [by apply safe_return|]. apply safe_fbind.
  eapply safe_mono; [by apply markInPlaceReady_safe|].
  intros [q'|r] Hq'; [|done]. destruct (_ && _); [by apply safe_return|by apply enforceIdentity_safe].
Qed.

Lemma syncReplicas_safe todo : forall i done status,
  0 <= i -> i + Z.of_nat (length todo) <= MaxInt32 + 1 ->
  (forall p, p ∈ done ++ todo -> ours set (obj p)) ->
  safe (W := World W) (syncReplicas set currentSet updateSet curRev updRev i todo done status)
    (fun x => match x with
              | Next (_, reps) => length reps = (length done + length todo)%nat
                                  /\ forall p, p ∈ reps -> ours set (obj p)
              | Return _ => True
              end).
Proof.
  induction todo as [|p todo IH]; intros i done status Hi Hl Hours; cbn [syncReplicas length] in *.
  { apply safe_fret. rewrite app_nil_r in Hours. by split; [lia|]. }
  assert (Hp : ours set (obj p)) by (apply Hours, elem_of_app; right; left).
  intros w. pose proof (syncReplica_safe i p status ltac:(lia) Hp w) as Hs.
  destruct (syncReplica _ _ _ _ _ i p status w) as [[[[st p']|[[st err] p']]|r] w']; [|done..].
  assert (Hours' : forall q, q ∈ (done ++ [p']) ++ todo -> ours set (obj q)).
  { intros q. rewrite <-app_assoc, !elem_of_app, list_elem_of_singleton.
    intros [Hq|[->|Hq]]; [|exact Hs|]; apply Hours, elem_of_app; [by left|by right; right]. }
  specialize (IH (i + 1) (done ++ [p']) st ltac:(lia) ltac:(lia) Hours' w').
  destruct (syncReplicas _ _ _ _ _ _ todo _ st w') as [[[[st' reps]|]|r] w'']; [|done..].
  cbn in IH |- *. destruct IH as [IH ?]. rewrite length_app in IH. cbn in IH. by split; [lia|].
Qed.

Lemma terminate_safe replicas first condemned status :
  (forall p, p ∈ condemned -> isHealthy (obj p) = false -> is_Some first) ->
  safe (W := World W) (forLoop (terminateCondemned set curRev updRev replicas first) condemned status)
    (fun _ => True).
Proof.
  intros Hf. apply (safe_forLoop _ _ _ (fun _ => True)); [done| |done].
  intros p st Hp _. unfold terminateCondemned.
  destruct (isTerminating (obj p)) eqn:Et; [destruct (negb (allowsBurst set)); auto|].
  destruct (negb (isRunningAndReady (obj p)) && _ && _) eqn:Er.
  - apply safe_fbind, safe_run, safe_lift. destruct (Hf p Hp) as [q ->].
    { unfold isHealthy. by destruct (isRunningAndReady _). }
    exists q. split; [done|]. auto.
  - apply safe_fbind, safe_run, safe_api. eapply safe_mono; [apply delete_total|].
    intros [e|] _; [auto|]. destruct (negb (allowsBurst set)); auto.
Qed.

Lemma deleteForUpdate_safe p status :
  ours set (obj p) -> safe (W := World W) (deleteForUpdate set curRev p status) goesOnOurs.
Proof.
  intros Hp. apply safe_fbind, safe_run, safe_api. eapply safe_mono; [apply delete_total|].
  intros [e|] _; [by apply safe_return|by apply safe_fret].
Qed.

Lemma replacePod_safe p completed status :
  ours set (obj p) ->
  safe (W := World W) (replacePod set curRev updRev revisions p completed status) goesOnOurs.
Proof.
  intros Hp. unfold replacePod. apply safe_fbind, safe_run, safe_lift.
  destruct (Hplans (getPodRevision (obj p))) as ([spec|] & Hplan & Hspec); eexists;
    (split; [exact Hplan|]); [|by apply deleteForUpdate_safe].
  destruct (Hspec spec eq_refl) as (Hpol & Hname & Hkeeps).
  destruct Hset as [_ _ _ (us & Hus & Hru) _].
  case_decide; [by apply safe_fret|]. apply safe_fbind, safe_run. unfold inPlaceUpdatePod.
  assert (Hend : forall err q, ours set (obj q) -> safe (W := World W)
    (inPlaceOnly ← run (lift (isInPlaceOnly set));
     match err with
     | Some e => if negb (IsConflict e) && negb inPlaceOnly then deleteForUpdate set curRev q status
                 else mret (leaveCurrent curRev q status, q)
     | None => mret (leaveCurrent curRev q status, q)
     end) goesOnOurs).
  { intros err q Hq. apply safe_fbind, safe_run, safe_lift. unfold isInPlaceOnly. rewrite Hus. cbn.
    rewrite Hru. eexists. split; [done|]. cbv beta iota. destruct err as [e|]; [|by apply safe_fret].
    destruct (_ && _); [by apply deleteForUpdate_safe|by apply safe_fret]. }
  apply safe_bind, safe_api. eapply safe_mono; [apply condition_total|]. intros [[e|] q] [Hq Hk];
    (assert (Hours : ours set q) by by eapply ours_key).
  { by apply safe_ret, (Hend (Some e) (mkPtr (ptr_id p) q)). }
  apply safe_bind, safe_api. eapply safe_mono; [apply Hinplace; [done|done| |done]|].
  { cbn in Hq |- *. by rewrite Hq. }
  intros [e|] _.
  { by apply safe_ret, (Hend (Some e) (mkPtr (ptr_id p) q)). }
  by apply safe_bind, safe_onCache, safe_ret, (Hend None (mkPtr (ptr_id p) q)).
Qed.

Lemma updateTarget_safe maxUnavailable target s (k : nat) :
  length (us_replicas s) = k -> (forall p, p ∈ us_replicas s -> ours set (obj p)) ->
  0 <= target < Z.of_nat k ->
  safe (W := World W) (updateTarget set curRev updRev revisions maxUnavailable target s)
    (fun x => match x with
              | Next s' => length (us_replicas s') = k /\ forall p, p ∈ us_replicas s' -> ours set (obj p)
              | Return _ => True
              end).
Proof.
  intros Hlen Hours Ht w. unfold updateTarget.
  destruct (lookup_lt_is_Some_2 (us_replicas s) (Z.to_nat target)) as [p Hp]; [lia|].
  unfold index. rewrite decide_True, Hp by lia.
  set (m := if decide (getPodRevision (obj p) <> rev_Name updRev) then _ else _).
  assert (Hr : safe (W := World W) m goesOnOurs).
  { assert (ours set (obj p)) by by eapply Hours, list_elem_of_lookup_2.
    unfold m. case_decide; [|by apply safe_fret].
    destruct (isTerminating _); [by apply safe_fret|by apply replacePod_safe]. }
  specialize (Hr w). destruct (m w) as [[[[st p']|[[st err] p']]|r] w']; [|done..].
  case_decide; [done|]. cbn. rewrite length_insert. split; [done|].
  intros q [j Hj]%list_elem_of_lookup.
  apply list_lookup_insert_Some in Hj as [(_ & <- & _)|[_ Hj]]; [done|].
  by eapply Hours, list_elem_of_lookup_2.
Qed.

Lemma updateReplicas_safe n replicas status :
  (forall p, Partition ru = Some p -> 0 <= p) -> (forall p, p ∈ replicas -> ours set (obj p)) ->
  safe (W := World W) (updateReplicas set curRev updRev revisions n replicas status) (fun _ => True).
Proof.
  intros Hnn Hours. unfold updateReplicas.
  destruct Hset as [_ _ _ (us & Hus & Hru) [p Hp]].
  apply safe_fbind, safe_run, safe_lift. rewrite Hus. eexists. split; [done|].
  case_decide; [auto|]. apply safe_fbind, safe_run, safe_readCache. intros sat.
  destruct (negb sat); [auto|].
  apply safe_fbind, safe_run, safe_lift. unfold updateBounds. rewrite Hru. cbn. rewrite Hp. cbn.
  assert (Htarget : forall maxU, safe (W := World W)
    (s ← (forLoop (updateTarget set curRev updRev revisions maxU) (updateTargets replicas p)
            (mkUpdateState status [] replicas)
          : F (World W) (StatefulSetStatus * option Err * list Ptr) UpdateState);
     (mret (us_status s, None : option Err, us_replicas s)
      : F (World W) (StatefulSetStatus * option Err * list Ptr) _)) (fun _ => True)).
  { intros maxU. apply safe_fbind.
    eapply safe_mono; [apply (safe_forLoop _ _ _ (fun s => length (us_replicas s) = length replicas
          /\ forall p, p ∈ us_replicas s -> ours set (obj p)) (fun _ => True)); [by split| |done]|].
    - intros t s Ht%elem_of_updateTargets [Hl Hs]. specialize (Hnn p Hp).
      eapply safe_mono; [apply (updateTarget_safe _ _ _ _ Hl Hs); lia|]. by intros [s'|r].
    - intros [s|r] _; auto. }
  destruct (GetValueFromIntOrPercent (default (FromInt 1) (MaxUnavailable ru)) n true) as [e|maxU].
  { exists (inl e). split; [done|]. by apply safe_fret. }
  destruct (Paused ru).
  - exists (inr None). split; [done|]. by apply safe_fret.
  - exists (inr (Some (p, maxU))). split; [done|]. apply Htarget.
Qed.
End Loop.

(** ** The loop as a whole *)

Section Whole.
Context `{Tolerates} {W : Type} `{KubeLib, !KubeLibLaws, MapRange, Json Coordinates, PatchLib,
  Json InPlaceUpdateState}.
Context `{HistoryLib, SetCodec, SelectorLib, IntStrLib, GoSort, !GoSortLaws, ErrorText}.
Context `{Recorder W, Clock W, StatefulPodControl W, !StatefulPodControlTotal W}.

(** The in-place rewrite of a pod in the place of one of the set's does not panic, if the set
    updates in place, the pod has a revision label, and the rewrite leaves it there. *)
Definition rewritesSafely (set : StatefulSet) (ru : RollingUpdateStatefulSetStrategy) : Prop :=
  updatesInPlace ru -> forall pod spec,
    ours set pod -> getPodRevision pod <> "" -> keepsRevision spec ->
    safe (W := W) (InPlaceUpdateStatefulPod set pod spec) (fun _ => True).

(** The slots and the condemned pods hold ordinals with room above them. *)
Lemma placed_ordinals cur upd curRev updRev ru ru' n pods slots condemned replicas :
  buildable cur ru -> buildable upd ru' -> 0 <= n <= MaxInt32 ->
  (forall pod, pod ∈ pods -> getOrdinal pod < MaxInt32) ->
  partitionPods n pods = (slots, condemned) ->
  fillReplicas cur upd curRev updRev 0 slots = Ok replicas ->
  forall p, p ∈ replicas ++ goSort (fun p => getOrdinal (obj p)) condemned ->
    getOrdinal (obj p) < MaxInt32.
Proof.
  intros Hcur Hupd Hn Hpods Hpart Hfill p [Hp|Hp]%elem_of_app.
  - apply list_elem_of_lookup in Hp as [k Hk].
    destruct (placement_slot _ _ _ _ _ _ _ _ _ _ _ (proj1 Hn) Hpart Hfill Hk)
      as [Hkn [[Hin _]|[Hf _]]]; [by apply Hpods|].
    destruct (freshPod_total cur upd curRev updRev ru ru' (Z.of_nat k)) as (q & Hq & Ho & _);
      [done|done|lia|]. rewrite Hf in Hq. injection Hq as ->. lia.
  - rewrite goSort_perm in Hp. apply Hpods.
    by apply (placement_condemned pods n slots condemned (obj p) Hpart); exists p.
Qed.

(** The pod of every slot is in the place of one of the set's. *)
Lemma placed_ours set cur upd curRev updRev ru ru' n pods slots condemned replicas :
  buildable cur ru -> buildable upd ru' -> 0 <= n <= MaxInt32 ->
  set_meta cur = set_meta set -> set_meta upd = set_meta set -> claimedPods set pods ->
  partitionPods n pods = (slots, condemned) ->
  fillReplicas cur upd curRev updRev 0 slots = Ok replicas ->
  forall p, p ∈ replicas -> ours set (obj p).
Proof.
  intros Hcur Hupd Hn Hcm Hum Hpods Hpart Hfill p [k Hk]%list_elem_of_lookup.
  destruct (placement_slot _ _ _ _ _ _ _ _ _ _ _ (proj1 Hn) Hpart Hfill Hk)
    as [Hkn [[Hin Ho]|[Hf _]]].
  - destruct (Hpods _ Hin) as (_ & ? & ?). split_and!; [done|lia|done].
  - destruct (freshPod_total cur upd curRev updRev ru ru' (Z.of_nat k)) as (q & Hq & _ & Hq');
      [done|done|lia|]. rewrite Hf in Hq. injection Hq as ->. by apply Hq'.
Qed.

Lemma syncSet_safe set cur upd curRev updRev revisions ru ru' ru'' n replicas condemned status :
  buildable set ru -> buildable cur ru' -> buildable upd ru'' ->
  set_meta cur = set_meta set -> set_meta upd = set_meta set ->
  (forall p, p ∈ replicas -> ours set (obj p)) ->
  (forall name, plansSafely set updRev revisions ru name) ->
  rewritesSafely set ru -> (forall p, Partition ru = Some p -> 0 <= p) ->
  Z.of_nat (length replicas) <= MaxInt32 ->
  (forall p, p ∈ replicas ++ condemned -> getOrdinal (obj p) < MaxInt32) ->
  safe (W := World W) (syncSet set cur upd curRev updRev revisions n replicas condemned status)
    (fun _ => True).
Proof.
  intros Hset Hcur Hupd Hcm Hum Hours Hplans Hin Hpart Hlen Hord. unfold syncSet.
  pose proof (findUnhealthy_found (replicas ++ condemned) (fun p Hp _ => Hord p Hp)) as Hfound.
  destruct (findUnhealthy (replicas ++ condemned)) as [unhealthy first]. cbn [fst snd] in Hfound.
  apply safe_fbind, safe_run, safe_lift. exists tt. split.
  { case_decide; [|done]. destruct Hfound as [q ->]; [left; lia|done]. }
  case_decide; [by apply safe_fret|].
  apply safe_fbind. eapply safe_mono; [eapply (syncReplicas_safe _ _ _ _ _ ru ru' ru''); done || lia|].
  intros [[st reps]|r] Hl; [|done]. destruct Hl as [Hl Hreps]. apply safe_fbind.
  eapply safe_mono; [apply (terminate_safe _ _ _ reps first)|].
  - intros p Hp Hh. apply Hfound. right. exists p. split; [|done].
    apply elem_of_app. right. by rewrite elem_of_reverse in Hp.
  - intros [st'|r] _; [|done]. by eapply updateReplicas_safe.
Qed.

(** The loop on a set it is ready for, with the form of its result: a status, or the
    error of a revision that does not apply. *)
Lemma loop_safe set curRev updRev collisionCount pods revisions n ru :
  loopReady set curRev updRev pods revisions n ru -> rewritesSafely set ru ->
  safe (W := World W) (updateStatefulSet set curRev updRev collisionCount pods revisions)
    (fun '(st, err, _) => st = None -> err <> None).
Proof.
  intros [Hset Hn Hrange Hpart (rc & Erc & Hrc) (ru0 & Eru & Hru) Hpods Hplans] Hin.
  unfold updateStatefulSet.
  apply safe_bind, safe_lift. exists rc. split; [done|].
  destruct rc as [e|cur]; [by apply safe_ret|]. destruct (Hrc cur eq_refl) as (Hcm & ru' & Hcur).
  apply safe_bind, safe_lift. exists ru0. split; [done|].
  destruct ru0 as [e|upd]; [by apply safe_ret|]. destruct (Hru upd eq_refl) as (Hum & ru'' & Hupd).
  apply safe_bind, safe_lift. exists n. split; [by rewrite Hn|].
  rewrite decide_False by lia.
  destruct (partitionPods n pods) as [slots condemned] eqn:Ep.
  pose proof (partitionPods_spec _ _ _ _ Ep) as (Hls & _).
  destruct (fillReplicas_total cur upd curRev updRev ru' ru'' slots 0) as [replicas Er]; [done|done|lia|lia|].
  pose proof (fillReplicas_spec _ _ _ _ _ _ _ Er) as [Hlr _].
  apply safe_bind, safe_lift. exists replicas. split; [done|].
  apply safe_bind, safe_body. eapply safe_mono.
  { apply (syncSet_safe _ _ _ _ _ _ ru ru' ru''); try done; [|lia|].
    - by eapply (placed_ours set cur upd).
    - eapply (placed_ordinals cur upd); try done. intros pod Hpod. by apply Hpods. }
  intros [[[st err] reps]|[[st err] reps]] _; by apply safe_ret.
Qed.
End Whole.

(** ** The whole of [UpdateStatefulSet] *)

(** What it asks of the history and of the status updater. *)
Class ControllerHistoryTotal (W : Type) `{Tolerates, ControllerHistory W} := {
  list_total parent selector : safe (ListControllerRevisions parent selector) (fun _ => True);
  createRevision_total parent r c : safe (CreateControllerRevision parent r c) (fun _ => True);
  updateRevision_total r n : safe (UpdateControllerRevision r n) (fun _ => True);
  deleteRevision_total r : safe (DeleteControllerRevision r) (fun _ => True);
  adopt_total parent r : safe (AdoptControllerRevision parent r) (fun _ => True);
}.
Class StatusUpdaterTotal (W : Type) `{Tolerates, StatusUpdater W} := {
  status_total set status : safe (UpdateStatefulSetStatus set status) (fun _ => True);
}.

(** A set that can be synced: one the codec can represent and every pod of which can be
    built, with replicas, a partition and a history limit that are not negative. *)
Record setReady `{SetCodec, MapRange, Json Coordinates}
    (set : StatefulSet) (n : Z) (ru : RollingUpdateStatefulSetStrategy) : Prop := mkSetReady {
  sound_set : buildable set ru;
  sound_replicas : spec_Replicas (set_Spec set) = Some n;
  sound_count : 0 <= n <= MaxInt32;
  sound_partition : forall p, Partition ru = Some p -> 0 <= p;
  sound_limit : 0 <= RevisionHistoryLimit (set_Spec set);
  sound_representable : representable set;
  sound_labelled : updatesInPlace ru -> labelled set;
}.

(** A revision the history holds: it has a name, and its data was captured from a set; from
    a labelled one, if pods are updated in place. *)
Definition keptRevision `{SetCodec, MapRange, Json Coordinates} (ru : RollingUpdateStatefulSetStrategy)
    (rev : ControllerRevision) : Prop :=
  rev_Name rev <> ""
  /\ exists from, capturedFrom from (Data rev) /\ (updatesInPlace ru -> labelled from).

Section Update.
Context `{Tolerates} {W : Type} `{KubeLib, !KubeLibLaws, MapRange, Json Coordinates, PatchLib,
  Json InPlaceUpdateState}.
Context `{HistoryLib, !HistoryLibLaws, SetCodec, SelectorLib, IntStrLib, GoSort, !GoSortLaws}.
Context `{!CodecLaws, !PatchLaws}.
Context `{ErrorText, Recorder W, Clock W, StatefulPodControl W, !StatefulPodControlTotal W}.
Context `{StatusUpdater W, !StatusUpdaterTotal W}.
Context `{ControllerHistory W, !ControllerHistoryTotal W, !ControllerHistoryLaws W}.

(** The loop is ready for a set between revisions that hold captured templates. *)
Lemma captured_loopReady set n ru curRev updRev pods revisions :
  setReady set n ru ->
  (exists from, capturedFrom from (Data curRev)) ->
  (exists from, capturedFrom from (Data updRev) /\ (updatesInPlace ru -> labelled from)) ->
  (forall r, r ∈ revisions -> keptRevision ru r) ->
  claimedPods set pods ->
  loopReady set curRev updRev pods revisions n ru.
Proof.
  intros [Hset Hn Hrange Hpart Hlim Hrep Hlab] (from & Hfrom) (to & Hto & Hlto) Hrevs Hpods.
  assert (Hrestored : forall from s, coordinatesUsable from -> set_meta s = set_meta set ->
    set_Spec s = setTemplate (Template (set_Spec from)) (set_Spec set) ->
    set_meta s = set_meta set /\ exists ru', buildable s ru').
  { intros from0 s Hc Hm Hs. split; [done|]. exists ru. destruct Hset as [Hname Hsel _ Hst Hp].
    split; [by rewrite Hm|by rewrite Hs| |by rewrite Hs|done].
    unfold coordinatesUsable in *. by rewrite Hs. }
  split; try done.
  - destruct (ApplyRevision_captured set curRev from Hrep Hfrom) as (r & Hr & Hs).
    exists r. split; [done|]. intros s [Hm Hspec]%Hs. destruct Hfrom as (_ & Hc & _). by eapply Hrestored.
  - destruct (ApplyRevision_captured set updRev to Hrep Hto) as (r & Hr & Hs).
    exists r. split; [done|]. intros s [Hm Hspec]%Hs. destruct Hto as (_ & Hc & _). by eapply Hrestored.
  - intros name. destruct Hset as [_ _ _ (us & Hus & Hru) _].
    destruct (shouldDoInPlaceUpdate_captured set updRev name revisions us ru to)
      as (plan & Hplan & Hspec); [done..| |].
    { intros r Hr. destruct (Hrevs r Hr) as (_ & from' & Hf & Hl). by exists from'. }
    exists plan. split; [done|]. intros spec Hs. destruct (Hspec spec Hs) as (Hpol & (r & Hr & <-) & Hk).
    split_and!; [done| |done]. by destruct (Hrevs r Hr).
Qed.

Lemma last_total (l : list ControllerRevision) :
  l <> [] -> exists r, index l (Z.of_nat (length l) - 1) = Ok r.
Proof.
  intros Hne. assert (0 < length l)%nat by (destruct l; [done|cbn; lia]).
  unfold index. rewrite decide_True by lia.
  destruct (lookup_lt_is_Some_2 l (Z.to_nat (Z.of_nat (length l) - 1))) as [r ->];
    [lia|by eexists].
Qed.

Lemma nextRevision_total l : exists k, nextRevision l = Ok k.
Proof.
  unfold nextRevision. case_decide as Hl; [by eexists|].
  destruct (last_total l) as [r ->]; [by destruct l|]. by eexists.
Qed.

Lemma chooseUpdateRevision_safe set revisions fresh c :
  safe (chooseUpdateRevision (W := W) set revisions fresh c)
    (fun '(res, _) => forall r, res = inr r -> Data r = Data fresh).
Proof.
  assert (Hin : forall r r', r' ∈ FindEqualRevisions revisions r -> Data r' = Data r).
  { intros r r' Hr. by apply equal_in in Hr as [_ ?]. }
  unfold chooseUpdateRevision. destruct (reverse _) as [|lastEqual l] eqn:Eq.
  { intros w. pose proof (createRevision_total (set_meta set) fresh (Some c) w) as Hs. unfold mbind, M_bind.
    destruct (CreateControllerRevision _ fresh _ w) as [[[res c']|] w'] eqn:E; [|done].
    cbn. intros r ->. by eapply created_data. }
  assert (Hl : lastEqual ∈ FindEqualRevisions revisions fresh).
  { apply elem_of_reverse. rewrite Eq. by left. }
  destruct (last_total revisions) as [newest Hnewest].
  { intros ->. apply equal_in in Hl as [Hl _]. by apply not_elem_of_nil in Hl. }
  apply safe_bind, safe_lift. exists newest. split; [done|].
  destruct (EqualRevision _ _) eqn:Ee.
  { apply safe_ret. intros r [= <-]. apply equal_data in Ee. rewrite Ee. by apply Hin. }
  intros w. pose proof (updateRevision_total lastEqual (Revision fresh) w) as Hs. unfold mbind, M_bind.
  destruct (UpdateControllerRevision _ _ w) as [[res|] w'] eqn:E; [|done].
  cbn. intros r ->. rewrite <-(Hin fresh lastEqual Hl). by eapply updated_data.
Qed.

(** The revisions a reconcile works with hold captured templates: the update revision that
    of the set, the current one that of a revision that was listed, or of the set. *)
Lemma getStatefulSetRevisions_safe set n ru revisions :
  setReady set n ru -> (forall r, r ∈ revisions -> keptRevision ru r) ->
  safe (getStatefulSetRevisions (W := W) set revisions) (fun '(res, sorted) =>
    (forall r, r ∈ sorted -> keptRevision ru r)
    /\ forall rs, res = inr rs ->
         capturedFrom set (Data (updateRevision rs))
         /\ exists from, capturedFrom from (Data (currentRevision rs))).
Proof.
  intros Hset Hrevs. pose proof (sound_representable _ _ _ Hset) as Hrep.
  pose proof (build_coordinates _ _ (sound_set _ _ _ Hset)) as Hc.
  assert (Hsorted : forall r, r ∈ SortControllerRevisions revisions -> keptRevision ru r).
  { intros r. rewrite sort_perm. apply Hrevs. }
  destruct (getPatch_captured set Hrep) as (t & Hpatch & _). unfold getStatefulSetRevisions.
  destruct (nextRevision_total (SortControllerRevisions revisions)) as [next Hnext].
  apply safe_bind, safe_lift. exists next. split; [done|].
  assert (exists fresh, newRevision set next (default 0 (CollisionCount (set_Status set))) = Ok fresh)
    as [fresh Hfresh].
  { unfold newRevision. rewrite Hpatch. cbn. destruct (NewControllerRevision _ _ _ _ _ _ _); by eexists. }
  apply safe_bind, safe_lift. exists fresh. split; [done|].
  destruct fresh as [e|fresh]; [by apply safe_ret|]. apply newRevision_data in Hfresh as [Hfresh _].
  apply safe_bind. eapply safe_mono; [apply chooseUpdateRevision_safe|].
  intros [[e|update] c] Hupd; [by apply safe_ret|]. specialize (Hupd update eq_refl).
  assert (Hcap : capturedFrom set (Data update)) by by rewrite Hupd.
  apply safe_ret. split; [done|]. intros rs [= <-]. split; [done|]. cbn.
  destruct (findCurrent _ _) as [current|] eqn:Ef; [|by exists set].
  apply findCurrent_Some in Ef as [Hin _]. destruct (Hsorted _ Hin) as (_ & from & Hf & _).
  by exists from.
Qed.

Lemma truncateHistory_safe set pods revisions current update :
  0 <= RevisionHistoryLimit (set_Spec set) ->
  safe (truncateHistory (W := W) set pods revisions current update) (fun _ => True).
Proof.
  intros Hlim. unfold truncateHistory.
  set (history := filter (fun r => rev_Name r ∉ _) revisions).
  pose proof (length_filter (fun r => rev_Name r ∉ liveRevisions pods current update) revisions) as Hle.
  fold history in Hle.
  case_decide; [by apply safe_ret|]. rewrite decide_False by lia.
  rewrite nonneg_limit_slots by lia.
  apply safe_body, safe_fbind.
  eapply safe_mono; [apply (safe_forLoop _ _ _ (fun _ => True) (fun _ => True)); [done| |done]|].
  - intros p [] Hp _. apply list_elem_of_fmap in Hp as (r & -> & _).
    apply safe_bind, safe_lift. exists r. split; [done|].
    apply safe_bind. eapply safe_mono; [apply deleteRevision_total|].
    intros [e|] _; by apply safe_ret.
  - intros [[]|r] _; [by apply safe_fret|done].
Qed.

(** No panics: on a set that is ready (its name is one line, it has a selector, replicas and
    a partition that are not negative, and usable coordinates), with a history of captured
    templates and claimed pods below the largest ordinal, syncing runs to its end whatever the API
    server answers: no nil pointer is followed, no index is out of range, and no nil map is
    written. (What the components it calls may raise, it may raise.) *)
Theorem UpdateStatefulSet_total set pods n ru :
  setReady set n ru -> rewritesSafely (W := W) set ru ->
  safe (W := W) (ListControllerRevisions (set_meta set) (Selector (set_Spec set)))
    (fun res => forall revisions, res = inr revisions -> forall r, r ∈ revisions -> keptRevision ru r) ->
  claimedPods set pods ->
  safe (W := World W) (UpdateStatefulSet set pods) (fun _ => True).
Proof.
  intros Hready Hin Hlist Hpods. unfold UpdateStatefulSet.
  apply safe_bind, safe_api. unfold ListRevisions.
  destruct (LabelSelectorAsSelector _); [by apply safe_ret, safe_ret|].
  eapply safe_mono; [apply Hlist|]. intros [e|revisions] Hrevs; [by apply safe_ret|].
  specialize (Hrevs revisions eq_refl).
  apply safe_bind, safe_api.
  eapply safe_mono; [apply (getStatefulSetRevisions_safe set n ru); [done|]|].
  { intros r. rewrite sort_perm. apply Hrevs. }
  intros [[e|rs] sorted] [Hsorted Hrs]; [by apply safe_ret|].
  destruct (Hrs rs eq_refl) as [Hupd Hcur].
  assert (Hloop : loopReady set (currentRevision rs) (updateRevision rs) pods sorted n ru).
  { apply captured_loopReady; try done. exists set. split; [done|]. apply Hready. }
  apply safe_bind, safe_onCache, safe_bind.
  eapply safe_mono; [by apply (loop_safe _ _ _ _ _ _ n ru)|].
  destruct Hready as [Hset _ _ _ Hlim _ _].
  intros [[[status|] [e|]] reps] Hst; try by apply safe_ret.
  2: by destruct (Hst eq_refl).
  apply safe_bind. unfold updateStatefulSetStatus. apply safe_bind, safe_lift.
  destruct Hset as [_ _ _ (us & Hus & _) _].
  assert (exists status', completeRollingUpdate set status = Ok status') as [status' Hc].
  { unfold completeRollingUpdate. rewrite Hus. cbn. case_decide; by eexists. }
  exists status'. split; [done|].
  assert (Htail : safe (W := World W) (api (truncateHistory set (writeBack pods reps) sorted
    (currentRevision rs) (updateRevision rs))) (fun _ => True)) by by apply safe_api, truncateHistory_safe.
  destruct (negb _); [by apply safe_ret|].
  apply safe_api. eapply safe_mono; [apply status_total|]. intros [e|] _; [by apply safe_ret|done].
Qed.
End Update.

(** ** The implementations the operator runs with *)

(** Retrying, with an invariant of what is retried with. *)
Lemma safe_retry_inv `{Tolerates, RetryLaws} {W S} b (fn : S -> M W (option Err * S)) s (Inv : S -> Prop) :
  Inv s ->
  (forall s, Inv s -> safe (fn s) (fun res => is_Some res.1 -> Inv res.2)) ->
  safe (RetryOnConflict b fn s) (fun _ => True).
Proof.
  intros HI Hfn w. revert HI.
  induction (RetryOnConflict_runs b fn s w) as [s w|s w e s' w' r E _ _ IH]; intros HI.
  - specialize (Hfn s HI w). by destruct (fn s w).1.
  - apply IH. specialize (Hfn s HI w). rewrite E in Hfn. cbn in Hfn. eauto.
Qed.
Lemma safe_retry `{Tolerates, RetryLaws} {W S} b (fn : S -> M W (option Err * S)) s :
  (forall s, safe (fn s) (fun _ => True)) -> safe (RetryOnConflict b fn s) (fun _ => True).
Proof.
  intros Hfn. apply (safe_retry_inv _ _ _ (fun _ => True)); [done|].
  intros s' _. eapply safe_mono; [apply Hfn|done].
Qed.

Section Real.
Context `{Tolerates} {W : Type} `{KubeLib, MapRange, Json Coordinates, PatchLib, Json InPlaceUpdateState}.
Context `{Client W Pod, !StatusLaws pod_meta, !StatusStored pod_Status, !KeyLaws pod_meta}.
Context `{Client W PersistentVolumeClaimT, RetryLaws, Aggregate, ErrorText}.
Context `{Recorder W, Clock W, Client W StatefulSet}.

Lemma podEvent_safe verb set pod err : safe (W := W) (recordPodEvent verb set pod err) (fun _ => True).
Proof. destruct err; by apply safe_call. Qed.
Lemma claimEvent_safe verb set pod claim err :
  safe (W := W) (recordClaimEvent verb set pod claim err) (fun _ => True).
Proof. destruct err; by apply safe_call. Qed.

(** A call on the server, then anything safe. *)
Lemma safe_then' {A B} (f : W -> A * W) (k : A -> M W B) (Q : B -> Prop) :
  (forall a, safe (k a) Q) -> safe (call f ≫= k) Q.
Proof. intros Hk. by apply safe_bind, safe_call. Qed.
Lemma safe_then {A B} (f : W -> A * W) (k : A -> M W B) :
  (forall a, safe (k a) (fun _ => True)) -> safe (call f ≫= k) (fun _ => True).
Proof. apply safe_then'. Qed.
Lemma safe_thenEvent {B} verb set pod err (k : unit -> M W B) :
  (forall a, safe (k a) (fun _ => True)) ->
  safe (recordPodEvent verb set pod err ≫= k) (fun _ => True).
Proof. intros Hk. apply safe_bind. eapply safe_mono; [apply podEvent_safe|]. intros a _. apply Hk. Qed.

Lemma ensureClaim_safe set pod claim errs :
  safe (W := W) (ensureClaim set pod claim errs) (fun _ => True).
Proof.
  apply safe_then. intros [e|c]; [|by apply safe_ret].
  assert (Hev : forall claim err errs, safe (W := W)
    (_ ← recordClaimEvent "create" set pod claim err; mret errs) (fun _ : list Err => True)).
  { intros c err es. apply safe_bind. eapply safe_mono; [apply claimEvent_safe|].
    intros [] _. by apply safe_ret. }
  destruct (IsNotFound e); [|apply Hev].
  apply safe_then. intros [[[]|] c']; try apply Hev. by apply safe_ret.
Qed.

Lemma createClaims_safe set pod :
  is_Some (Selector (set_Spec set)) ->
  safe (W := W) (createPersistentVolumeClaims set pod) (fun _ => True).
Proof.
  intros Hsel. apply safe_bind, safe_lift.
  destruct (claimsFrom_total set (getOrdinal pod) (VolumeClaimTemplates (set_Spec set)) ∅ Hsel)
    as [claims E]. exists claims. split; [exact E|].
  apply safe_bind. generalize (mapRange claims), (@nil Err).
  intros l. induction l as [|[k c] l IH]; intros errs; cbn [forEach]; [by apply safe_ret, safe_ret|].
  apply safe_bind. eapply safe_mono; [apply ensureClaim_safe|]. intros errs' _. apply IH.
Qed.

Lemma updatePodAttempt_safe set v :
  is_Some (Selector (set_Spec set)) -> safe (W := W) (updatePodAttempt set v) (fun _ => True).
Proof.
  intros Hsel. unfold updatePodAttempt.
  destruct (if identityMatches set (thePod v) then _ else _) as [v' consistent].
  apply safe_body, safe_fbind. eapply (safe_mono _ (fun _ => True)).
  - unfold enforceStorage. destruct (storageMatches set (thePod v')); [by apply safe_fret|].
    destruct (updateStorage_total set (thePod v') Hsel) as [pod Hu].
    apply safe_fbind, safe_run, safe_lift. exists pod. split; [done|].
    apply safe_fbind, safe_run. eapply safe_mono; [by apply createClaims_safe|]. intros [e|] _.
    + apply safe_fbind, safe_run. eapply safe_mono; [apply podEvent_safe|]. intros [] _.
      by apply safe_return.
    + by apply safe_fret.
  - intros [[v'' c]|r] _; [|done]. destruct c; [by apply safe_fret|].
    apply safe_fbind, safe_run, safe_call. intros [[e|] pod]; [|by apply safe_fret].
    apply safe_fbind, safe_run, safe_call. intros [e'|p]; by apply safe_fret.
Qed.

#[export] Instance realPodControl_total : StatefulPodControlTotal W.
Proof.
  split; cbn.
  - intros set pod Hsel w.
    enough (safe (realCreateStatefulPod set pod) (fun _ : option Err * Pod => True)) as Hs.
    { specialize (Hs w). destruct (realCreateStatefulPod set pod w) as [[[err q]|] w'] eqn:E; [|done].
      by apply realCreate_key in E. }
    apply safe_bind. eapply safe_mono; [by apply createClaims_safe|].
    intros [e|] _; [by apply safe_thenEvent; intros []; apply safe_ret|].
    apply safe_then. intros [err p].
    destruct err as [[]|]; try (apply safe_thenEvent; intros []; by apply safe_ret).
    by apply safe_ret.
  - intros set pod Hsel. apply safe_bind.
    eapply safe_mono; [apply safe_retry; intros v; by apply updatePodAttempt_safe|].
    intros [err v] _. apply safe_bind, (safe_mono _ (fun _ => True)).
    + destruct (attempted v); [apply podEvent_safe|by apply safe_ret].
    + intros [] _. by apply safe_ret.
  - intros set pod c w.
    enough (safe (realUpdateStatefulPodCondition set pod c) (fun _ : option Err * Pod => True)) as Hs.
    { specialize (Hs w). destruct (realUpdateStatefulPodCondition set pod c w) as [[[err q]|] w'] eqn:E;
        [|done]. apply realCondition_conditioned in E as (Ek & El & _).
      cbn. unfold getPodRevision, label. by rewrite El. }
    apply safe_bind. eapply safe_mono.
    + apply safe_retry. intros v. apply safe_then. intros [[e|] p]; [|by apply safe_ret].
      apply safe_then. intros [e'|p']; by apply safe_ret.
    + intros [err v] _. apply safe_thenEvent. intros []. by apply safe_ret.
  - intros set pod. apply safe_then. intros err. apply safe_thenEvent. intros []. by apply safe_ret.
Qed.

#[export] Instance realStatusUpdater_total : StatusUpdaterTotal W.
Proof.
  split. intros set status. apply safe_bind. eapply safe_mono.
  - apply safe_retry. intros s. apply safe_then. intros [[e|] s']; [by apply safe_ret|].
    apply safe_then. intros [e|s'']; by apply safe_ret.
  - intros [err s] _. by apply safe_ret.
Qed.
End Real.

(** ** Sets that do panic *)

(** A set without replicas, which [checkSetDefaultVariable] reports but the reconciler
    passes on, is dereferenced by every sync whose revisions apply. *)
Theorem updateStatefulSet_nil_replicas {W} `{KubeLib, MapRange, Json Coordinates, PatchLib,
    Json InPlaceUpdateState, HistoryLib, SetCodec, SelectorLib, IntStrLib, GoSort, ErrorText,
    Recorder W, Clock W, StatefulPodControl W} set curRev updRev collisionCount pods revisions
    cur upd w :
  spec_Replicas (checkSetDefaultVariable (set_Spec set)).1 = None ->
  ApplyRevision (withSpec (checkSetDefaultVariable (set_Spec set)).1 set) curRev = Ok (inr cur) ->
  ApplyRevision (withSpec (checkSetDefaultVariable (set_Spec set)).1 set) updRev = Ok (inr upd) ->
  (updateStatefulSet (W := W) (withSpec (checkSetDefaultVariable (set_Spec set)).1 set)
     curRev updRev collisionCount pods revisions w).1 = Panic NilDereference.
Proof.
  intros Hn Hc Hu. unfold updateStatefulSet, mbind, M_bind, lift. rewrite Hc, Hu. cbn [mret M_ret].
  unfold withSpec at 1. cbn [set_Spec]. by rewrite Hn.
Qed.

(** What the defaults establish of the strategy: a rolling update, if there is one, has a
    partition, the one it had or 1. *)
Lemma checkSetDefaultVariable_partition spec us ru :
  is_Some (spec_Replicas spec) -> UpdateStrategy spec = Some us -> RollingUpdate us = Some ru ->
  exists us' ru', UpdateStrategy (checkSetDefaultVariable spec).1 = Some us'
    /\ RollingUpdate us' = Some ru'
    /\ Partition ru' = Some (default 1 (Partition ru)).
Proof.
  intros [n Hn] Hus Hru. unfold checkSetDefaultVariable. rewrite Hn, Hus, Hru.
  destruct (Partition ru) as [p|] eqn:Ep; cbn; [rewrite Hus|]; eauto 10.
Qed.
