(* ===== verification/Convergence.v ===== *)
(** Convergence: what a cluster makes of the calls of a reconcile, the goal a set's spec
    asks for, and how many calls away from it a state is: as many as there are pods
    missing, left over, and (twice) outdated. *)

From S2P Require Import Prelude Objects GoString Libraries Coordinate Cluster Fixtures Naming.
From S2P Require Import Expectations PodIdentity SetStatus InPlace Interfaces Revisions.
From S2P Require Import CallLog Control ControlCalls ControlSafety NoPanic.

(** ** The cluster *)

(** What an API server and a kubelet leave of a pod as it was written: what the loop
    looks at besides the pod's status. *)
Definition kept (pod : Pod) :=
  let m := pod_meta pod in
  (Name m, Namespace m, Labels m, Annotations m, DeletionTimestamp m, OwnerReferences m,
   Volumes (pod_Spec pod), ReadinessGates (pod_Spec pod)).

(** An API server that accepts what the loop asks of it. *)
Class ReliablePodControl (W : Type) `{StatefulPodControl W} := {
  create_succeeds set pod w : exists pod' w',
    CreateStatefulPod set pod w = (Ok (None, pod'), w') /\ getPodRevision pod' = getPodRevision pod;
  delete_succeeds set pod w : exists w', DeleteStatefulPod set pod w = (Ok None, w');
}.

#[export] Instance traced_reliable {W} `{ReliablePodControl W} :
  ReliablePodControl (W * list PodCall).
Proof.
  split.
  - intros set pod [w log]. destruct (create_succeeds set pod w) as (pod' & w' & E & ?).
    cbn. unfold logged. rewrite E. by eexists _, _.
  - intros set pod [w log]. destruct (delete_succeeds set pod w) as (w' & E).
    cbn. unfold logged. rewrite E. by eexists.
Qed.

(** The pods of the set after a call that succeeded. The other calls do not occur in the
    rollouts below. *)
Definition answer (c : PodCall) (pods pods' : list Pod) : Prop :=
  match c with
  | CreateCall pod => exists pod', kept pod' = kept pod /\ pods' ≡ₚ pod' :: pods
  | DeleteCall pod => pods' ≡ₚ filter (fun q => Name (pod_meta q) <> Name (pod_meta pod)) pods
  | _ => False
  end.
Fixpoint answered (cs : list PodCall) (pods pods' : list Pod) : Prop :=
  match cs with
  | [] => pods' ≡ₚ pods
  | c :: cs' => exists mid, answer c pods mid /\ answered cs' mid pods'
  end.

#[export] Instance answer_proper c : Proper ((≡ₚ) ==> (≡ₚ) ==> iff) (answer c).
Proof.
  intros l l' Hl k k' Hk. destruct c; cbn; [|done..|by rewrite Hl, Hk].
  by setoid_rewrite Hl; setoid_rewrite Hk.
Qed.

#[export] Instance answered_proper cs : Proper ((≡ₚ) ==> (≡ₚ) ==> iff) (answered cs).
Proof.
  induction cs as [|c cs IH]; intros l l' Hl k k' Hk; cbn; [by rewrite Hl, Hk|].
  by setoid_rewrite Hl; setoid_rewrite Hk.
Qed.

Lemma answered_snoc cs c : forall pods mid pods',
  answered cs pods mid -> answer c mid pods' -> answered (cs ++ [c]) pods pods'.
Proof.
  induction cs as [|c' cs IH]; intros pods mid pods' Hcs Hc; cbn.
  - exists pods'. cbn in Hcs. rewrite <-Hcs. done.
  - destruct Hcs as (mid' & ? & ?). exists mid'. split; [done|]. by eapply IH.
Qed.

Section Cluster.
Context `{KubeLib, Json InPlaceUpdateState, LabelMatch} (set : StatefulSet).

(** The kubelet: a pod comes up, and one that needs nothing goes on that way. *)
Definition comesUp (p q : Pod) : Prop :=
  kept q = kept p /\ isRunningAndReady q = true /\ (steadyPod set p -> steadyPod set q).
Definition comeUp (pods pods' : list Pod) : Prop :=
  exists l, pods' ≡ₚ l /\ Forall2 comesUp pods l.

(** A pod the set controls and selects. *)
Definition claimable (pod : Pod) : Prop :=
  controlledBy (set_meta set) pod /\ Matches (Selector (set_Spec set)) (Labels (pod_meta pod)) = true.

#[export] Instance claimable_dec pod : Decision (claimable pod).
Proof. unfold claimable. apply _. Defined.

(** A claimable pod with its identity and storage that has no in-place update to wait for. *)
Definition promising (pod : Pod) : Prop :=
  claimable pod
  /\ identityMatches set pod = true /\ storageMatches set pod = true /\ isTerminating pod = false
  /\ Annotations (pod_meta pod) !! StatefulSetInPlaceUpdateStateAnnotation = None
  /\ StatefulSetInPlaceUpdateReady ∉ ReadinessGates (pod_Spec pod).
Definition pending (pod : Pod) : Prop := steadyPod set pod \/ promising pod.

(** The set's pods, each of its own ordinal: all steady, or some still to come up. *)
Definition orderly (pods : list Pod) : Prop :=
  Forall (steadyPod set) pods /\ NoDup (getOrdinal <$> pods).
Definition tidy (pods : list Pod) : Prop :=
  Forall pending pods /\ NoDup (getOrdinal <$> pods).

(** The ordinals taken, and the revisions of their pods. *)
Definition places (pods : list Pod) : gmap Z string :=
  list_to_map ((fun pod => (getOrdinal pod, getPodRevision pod)) <$> pods).

Lemma orderly_tidy pods : orderly pods -> tidy pods.
Proof. intros [Hs ?]. split; [|done]. eapply Forall_impl; [|exact Hs]. by left. Qed.

Lemma kept_ordinal p q : kept q = kept p -> getOrdinal q = getOrdinal p.
Proof. intros [=]. by apply getOrdinal_Name. Qed.
Lemma kept_revision p q : kept q = kept p -> getPodRevision q = getPodRevision p.
Proof. intros [=]. unfold getPodRevision, label. congruence. Qed.
Lemma kept_claimable p q : kept q = kept p -> claimable p -> claimable q.
Proof. intros [= _ _ Hl _ _ Ho _ _]. unfold claimable, controlledBy. by rewrite Hl, Ho. Qed.
Lemma kept_promising p q : kept q = kept p -> promising p -> promising q.
Proof.
  intros Hk (Hc & Hi & Hs & Ht & Ha & Hg). pose proof (kept_ordinal _ _ Hk) as Ho.
  split; [by eapply kept_claimable|].
  injection Hk as Hn Hns Hl Han Hd Hor Hv Hrg. split_and!; [| | |by rewrite Han|by rewrite Hrg].
  - rewrite <-Hi. unfold identityMatches, label.
    by rewrite (parentAndOrdinal_Name q p), Hn, Hns, Hl.
  - rewrite <-Hs. unfold storageMatches. by rewrite Ho, Hv.
  - rewrite <-Ht. unfold isTerminating. by rewrite Hd.
Qed.

(** A promising pod that has come up is steady. *)
Lemma promising_up pod : promising pod -> isRunningAndReady pod = true -> steadyPod set pod.
Proof.
  intros (_ & Hi & Hs & Ht & Ha & Hg) Hr. unfold steadyPod, checkInPlaceUpdateCompleted.
  rewrite Ha. split_and!; try done.
  unfold shouldUpdateInPlaceReady. by rewrite bool_decide_eq_false_2.
Qed.
Lemma pending_comesUp p q :
  pending p -> comesUp p q ->
  steadyPod set q /\ getOrdinal q = getOrdinal p /\ getPodRevision q = getPodRevision p.
Proof.
  intros Hp (Hk & Hr & Hs).
  split_and!; [|by apply kept_ordinal|by apply kept_revision].
  destruct Hp as [Hp|Hp]; [by apply Hs|]. by eapply promising_up, Hr; eapply kept_promising.
Qed.

Lemma pending_identity p : pending p -> identityMatches set p = true.
Proof. by intros [(_ & _ & _ & _ & ? & _)|(_ & ? & _)]. Qed.

Lemma identity_ordinal pod : identityMatches set pod = true -> 0 <= getOrdinal pod.
Proof. intros (o & E & Ho & _)%identityMatches_spec. unfold getOrdinal. by rewrite E. Qed.
Lemma steady_ordinal pod : steadyPod set pod -> 0 <= getOrdinal pod.
Proof. intros Hs. apply identity_ordinal, pending_identity. by left. Qed.

(** Members are told apart by their ordinals. *)
Lemma identity_name pod pod' :
  identityMatches set pod = true -> identityMatches set pod' = true ->
  Name (pod_meta pod) = Name (pod_meta pod') <-> getOrdinal pod = getOrdinal pod'.
Proof.
  intros Hid Hid'. split; [apply getOrdinal_Name|].
  apply identityMatches_spec in Hid as (o & E & _ & Hn & _).
  apply identityMatches_spec in Hid' as (o' & E' & _ & Hn' & _).
  unfold getOrdinal. rewrite E, E', Hn, Hn'. cbn. by intros ->.
Qed.

Lemma ordinals_inj pods pod pod' :
  NoDup (getOrdinal <$> pods) -> pod ∈ pods -> pod' ∈ pods ->
  getOrdinal pod = getOrdinal pod' -> pod = pod'.
Proof.
  intros Hnd Hp Hp' E. apply list_elem_of_lookup in Hp as [i Hi], Hp' as [j Hj].
  assert (i = j) as ->; [|congruence].
  eapply NoDup_lookup; [exact Hnd| |]; rewrite list_lookup_fmap.
  - by rewrite Hi.
  - by rewrite Hj, E.
Qed.

(** ** Places *)

Lemma places_fst pods :
  ((fun pod => (getOrdinal pod, getPodRevision pod)) <$> pods).*1 = getOrdinal <$> pods.
Proof. by rewrite <-list_fmap_compose. Qed.

Lemma places_Some pods i r :
  NoDup (getOrdinal <$> pods) ->
  places pods !! i = Some r <-> exists pod, pod ∈ pods /\ getOrdinal pod = i /\ getPodRevision pod = r.
Proof.
  intros Hnd. unfold places.
  rewrite <-(elem_of_list_to_map (M := gmap Z)) by (by rewrite places_fst).
  rewrite list_elem_of_fmap. split; [intros (pod & [= -> ->] & ?); eauto|].
  intros (pod & ? & <- & <-). eauto.
Qed.
Lemma places_None pods i :
  places pods !! i = None <-> forall pod, pod ∈ pods -> getOrdinal pod <> i.
Proof.
  unfold places. rewrite <-not_elem_of_list_to_map, places_fst, list_elem_of_fmap.
  split; [intros Hn pod Hp <-; apply Hn; eauto|]. intros Hn (pod & -> & Hp). by apply (Hn pod).
Qed.

Lemma places_proper pods pods' :
  NoDup (getOrdinal <$> pods) -> pods ≡ₚ pods' -> places pods = places pods'.
Proof.
  intros Hnd Hp. apply list_to_map_proper; [by rewrite places_fst|by apply fmap_Permutation].
Qed.

Lemma tidy_proper pods pods' : pods ≡ₚ pods' -> tidy pods -> tidy pods'.
Proof. intros Hp [Hf Hnd]. split; [by rewrite <-Hp|]. eapply NoDup_Permutation_proper; [|exact Hnd]. by rewrite Hp. Qed.

(** Coming up, the pods keep their places. *)
Lemma tidy_comeUp pods pods' :
  tidy pods -> comeUp pods pods' -> orderly pods' /\ places pods' = places pods.
Proof.
  intros [Hf Hnd] (l & Hperm & Hall).
  assert (Hl : Forall (steadyPod set) l
    /\ ((fun pod => (getOrdinal pod, getPodRevision pod)) <$> l)
       = ((fun pod => (getOrdinal pod, getPodRevision pod)) <$> pods)).
  { clear Hperm Hnd. induction Hall as [|p q pods l Hpq Hall IH]; [done|].
    apply list.Forall_cons in Hf as [Hp Hf].
    destruct (pending_comesUp p q Hp Hpq) as (? & Ho & Hr).
    destruct (IH Hf) as [? E]. cbn. rewrite Ho, Hr, E. split; [by constructor|done]. }
  destruct Hl as [Hs E]. pose proof (f_equal (fmap fst) E) as Eo. rewrite !places_fst in Eo.
  assert (Hndl : NoDup (getOrdinal <$> l)) by by rewrite Eo.
  split; [split; [by rewrite Hperm|by rewrite Hperm]|].
  rewrite <-(places_proper l) by done. unfold places. by rewrite E.
Qed.
End Cluster.

(** ** The goal, and how far a state is from it *)

Section Distance.
Context `{KubeLib, Json InPlaceUpdateState, LabelMatch}.
Context (set : StatefulSet) (updRev : ControllerRevision) (n partition : Z).

(** One pod per ordinal, none beyond, and those from the partition up at the update
    revision. *)
Definition rolledOut (pods : list Pod) : Prop :=
  (forall i, 0 <= i < n -> exists pod, pod ∈ pods /\ getOrdinal pod = i)
  /\ (forall pod, pod ∈ pods -> getOrdinal pod < n)
  /\ (forall pod, pod ∈ pods -> partition <= getOrdinal pod -> getPodRevision pod = rev_Name updRev).

Definition outdatedPlace (p : Z * string) : Prop := partition <= p.1 < n /\ p.2 <> rev_Name updRev.
Definition surplusPlace (p : Z * string) : Prop := n <= p.1.
#[export] Instance outdatedPlace_dec p : Decision (outdatedPlace p).
Proof. apply _. Defined.
#[export] Instance surplusPlace_dec p : Decision (surplusPlace p).
Proof. apply _. Defined.
Definition outdated (pod : Pod) : Prop := outdatedPlace (getOrdinal pod, getPodRevision pod).

Definition missing (m : gmap Z string) : gset Z := list_to_set (seqZ 0 n) ∖ dom m.
(** An outdated pod takes two calls, its deletion and its creation anew. *)
Definition distance (m : gmap Z string) : nat :=
  (2 * size (filter outdatedPlace m) + size (missing m) + size (filter surplusPlace m))%nat.

Lemma rolledOut_distance pods :
  orderly set pods -> distance (places pods) = 0%nat <-> rolledOut pods.
Proof.
  intros [Hs Hnd]. unfold distance, rolledOut. split.
  - intros Hz.
    assert (Ho : filter outdatedPlace (places pods) = ∅) by (apply map_size_empty_iff; lia).
    assert (Hx : filter surplusPlace (places pods) = ∅) by (apply map_size_empty_iff; lia).
    assert (Hm : missing (places pods) ≡ ∅) by (apply size_empty_iff; lia).
    assert (Hat : forall pod, pod ∈ pods -> places pods !! getOrdinal pod = Some (getPodRevision pod)).
    { intros pod Hp. apply places_Some; eauto. }
    assert (Hlt : forall pod, pod ∈ pods -> getOrdinal pod < n).
    { intros pod Hp. destruct (decide (n <= getOrdinal pod)) as [Hge|]; [|lia].
      by destruct (map_filter_empty_not_lookup _ _ _ _ Hx Hge (Hat _ Hp)). }
    split_and!; [|done|].
    + intros i Hi. destruct (places pods !! i) as [r|] eqn:E.
      * apply places_Some in E as (pod & ? & ? & _); [eauto|done].
      * assert (Hin : i ∈ missing (places pods)).
        { unfold missing. rewrite elem_of_difference, elem_of_list_to_set, elem_of_seqZ, not_elem_of_dom.
          split; [lia|done]. }
        rewrite Hm in Hin. by apply not_elem_of_empty in Hin.
    + intros pod Hp Hge. destruct (decide (getPodRevision pod = rev_Name updRev)); [done|].
      assert (Hout : outdatedPlace (getOrdinal pod, getPodRevision pod)) by (split; [split; [done|by apply Hlt]|done]).
      by destruct (map_filter_empty_not_lookup _ _ _ _ Ho Hout (Hat _ Hp)).
  - intros (Hall & Hlt & Hrev).
    assert (filter outdatedPlace (places pods) = ∅) as ->.
    { apply map_empty_filter. intros i r (pod & Hp & <- & <-)%places_Some [[Hge _] Hne]; [|done].
      by apply Hne, Hrev. }
    assert (filter surplusPlace (places pods) = ∅) as ->.
    { apply map_empty_filter. intros i r (pod & Hp & <- & <-)%places_Some Hge; [|done].
      apply Hlt in Hp. unfold surplusPlace in Hge. cbn in Hge. lia. }
    assert (missing (places pods) ≡ ∅) as Hm.
    { unfold missing. intros i. rewrite elem_of_difference, elem_of_list_to_set, elem_of_seqZ, not_elem_of_dom.
      split; [|by intros ?%not_elem_of_empty]. intros [Hi Hn].
      destruct (Hall i ltac:(lia)) as (pod & Hp & Ho).
      by destruct (proj1 (places_None _ _) Hn pod Hp). }
    apply size_empty_iff in Hm. rewrite Hm, !map_size_empty. done.
Qed.

(** ** One call *)

(** The calls of a rollout: creations of missing pods, and deletions of pods that are
    beyond the replicas or outdated. *)
Definition fits (m : gmap Z string) (pod : Pod) : Prop :=
  0 <= getOrdinal pod < n /\ m !! getOrdinal pod = None /\ promising set pod
  /\ (partition <= getOrdinal pod -> getPodRevision pod = rev_Name updRev).
Definition dispensable (pod : Pod) : Prop := n <= getOrdinal pod \/ outdated pod.
Definition removable (m : gmap Z string) (pod : Pod) : Prop :=
  m !! getOrdinal pod = Some (getPodRevision pod) /\ 0 <= getOrdinal pod
  /\ identityMatches set pod = true /\ dispensable pod.
Definition rolloutCall (m : gmap Z string) (c : PodCall) : Prop :=
  match c with
  | CreateCall pod => fits m pod
  | DeleteCall pod => removable m pod
  | _ => False
  end.
Definition placeCall (m : gmap Z string) (c : PodCall) : gmap Z string :=
  match c with
  | CreateCall pod => <[getOrdinal pod := getPodRevision pod]> m
  | DeleteCall pod => delete (getOrdinal pod) m
  | _ => m
  end.

#[export] Instance rolloutCall_dec m c : Decision (rolloutCall m c).
Proof.
  destruct c; cbn; try apply _; unfold fits, removable, promising, claimable, dispensable, outdated; apply _.
Defined.

(** What a place adds to the distance, or the gap without it. *)
Lemma distance_delete m i r :
  m !! i = Some r -> 0 <= i ->
  (distance m + (if decide (i < n)%Z then 1 else 0)
   = distance (delete i m) + (if decide (outdatedPlace (i, r)) then 2 else 0)
     + (if decide (surplusPlace (i, r)) then 1 else 0))%nat.
Proof.
  intros E Hi. unfold distance.
  rewrite (size_filter_delete outdatedPlace m i r), (size_filter_delete surplusPlace m i r) by done.
  enough (size (missing (delete i m)) = (if decide (i < n)%Z then 1 else 0) + size (missing m))%nat as ->.
  { repeat case_decide; lia. }
  unfold missing. rewrite dom_delete_L. set (X := list_to_set (seqZ 0 n) : gset Z).
  assert (HX : i ∈ X <-> 0 <= i < n) by (unfold X; rewrite elem_of_list_to_set, elem_of_seqZ; lia).
  assert (Hd : i ∈ dom m) by (by eapply elem_of_dom_2).
  case_decide as Hn.
  - rewrite <-(size_singleton (C := gset Z) i), <-size_union by set_solver. f_equal. apply set_eq.
    intros j. destruct (decide (j = i)) as [->|]; set_solver.
  - cbn [Nat.add]. f_equal. apply set_eq. intros j. destruct (decide (j = i)) as [->|]; set_solver.
Qed.

Lemma placeCall_step m c : rolloutCall m c -> S (distance (placeCall m c)) = distance m.
Proof.
  destruct c as [pod| | | |pod]; try done; cbn [rolloutCall placeCall].
  - intros (Hr & Hnone & _ & Hrev).
    pose proof (distance_delete (<[getOrdinal pod := getPodRevision pod]> m) (getOrdinal pod)
      (getPodRevision pod) (lookup_insert_eq _ _ _) (proj1 Hr)) as E.
    rewrite delete_insert_id in E by done. rewrite decide_True in E by lia.
    rewrite decide_False in E by (intros [[Hge _] Hne]; by apply Hne, Hrev).
    rewrite decide_False in E by (unfold surplusPlace; cbn; lia). lia.
  - intros (Hat & Hi & _ & Hd). pose proof (distance_delete m _ _ Hat Hi) as E. unfold outdated in Hd.
    destruct Hd as [Hge|[Hr Hne]]; cbn in *.
    + rewrite decide_False in E by lia. rewrite decide_False in E by (intros [[_ Hlt] _]; cbn in Hlt; lia).
      rewrite decide_True in E by done. lia.
    + rewrite decide_True in E by lia. rewrite decide_True in E by done.
      rewrite decide_False in E by (unfold surplusPlace; cbn; lia). lia.
Qed.

(** The cluster's answer to such a call is what the call does to the places. *)
Lemma answer_tidy pods pods' c :
  tidy set pods -> rolloutCall (places pods) c -> answer c pods pods' ->
  tidy set pods' /\ places pods' = placeCall (places pods) c.
Proof.
  intros [Hf Hnd]. destruct c as [pod| | | |pod]; try done; cbn [rolloutCall placeCall answer].
  - intros (_ & Hnone & Hprom & _) (pod' & Hk & Hperm).
    assert (Ht : tidy set (pod' :: pods)).
    { split; [constructor; [right; by eapply kept_promising|done]|]. cbn. apply list.NoDup_cons.
      split; [|done]. intros (q & E & Hq)%list_elem_of_fmap.
      rewrite places_None in Hnone. apply (Hnone q Hq). by rewrite <-E, (kept_ordinal _ _ Hk). }
    split; [by apply (tidy_proper set (pod' :: pods))|].
    rewrite <-(places_proper (pod' :: pods)) by (done || apply Ht). unfold places. cbn.
    by rewrite (kept_ordinal _ _ Hk), (kept_revision _ _ Hk).
  - intros (_ & _ & Hid & _) Hperm. set (pods1 := filter _ pods) in Hperm.
    assert (Hsub : pods1 `sublist_of` pods) by apply sublist_filter.
    assert (Ht : tidy set pods1).
    { split; [apply list.Forall_forall; rewrite list.Forall_forall in Hf; intros q [_ Hq]%list_elem_of_filter; by apply Hf|]. eapply sublist_NoDup; [exact Hnd|by apply fmap_sublist]. }
    split; [by apply (tidy_proper set pods1)|].
    rewrite <-(places_proper pods1) by (done || apply Ht). apply map_eq. intros i.
    apply option_eq. intros r. rewrite lookup_delete_Some, !places_Some by (done || apply Ht).
    unfold pods1. setoid_rewrite list_elem_of_filter.
    assert (Hname : forall q, q ∈ pods -> Name (pod_meta q) = Name (pod_meta pod) <-> getOrdinal q = getOrdinal pod).
    { intros q Hq. apply (identity_name set); [|done]. rewrite list.Forall_forall in Hf.
      by apply pending_identity, Hf. }
    split.
    + intros (q & [Hn Hq] & <- & <-). split; [|eauto]. intros E. by apply Hn, Hname.
    + intros (Hi & q & Hq & <- & <-). exists q. split_and!; try done. by intros ?%Hname.
Qed.

(** ** All the calls of a reconcile *)

Fixpoint rolloutCalls (m : gmap Z string) (cs : list PodCall) : Prop :=
  match cs with
  | [] => True
  | c :: cs' => rolloutCall m c /\ rolloutCalls (placeCall m c) cs'
  end.
#[export] Instance rolloutCalls_dec cs : forall m, Decision (rolloutCalls m cs).
Proof. induction cs; intros m; cbn; apply _. Defined.

Lemma rolloutCalls_app cs cs' : forall m,
  rolloutCalls m (cs ++ cs') <-> rolloutCalls m cs /\ rolloutCalls (foldl placeCall m cs) cs'.
Proof. induction cs as [|c cs IH]; intros m; cbn; [tauto|]. rewrite IH. tauto. Qed.

Lemma rolloutCalls_distance cs : forall m,
  rolloutCalls m cs -> (length cs + distance (foldl placeCall m cs) = distance m)%nat.
Proof.
  induction cs as [|c cs IH]; intros m; [done|]. intros [Hc%placeCall_step Hcs%IH]. cbn in *. lia.
Qed.

Lemma answered_tidy cs : forall pods pods',
  tidy set pods -> rolloutCalls (places pods) cs -> answered cs pods pods' ->
  tidy set pods' /\ places pods' = foldl placeCall (places pods) cs.
Proof.
  induction cs as [|c cs IH]; intros pods pods' Ht; cbn.
  - intros _ Hperm. split; [by apply (tidy_proper set pods)|]. symmetry. apply places_proper; [apply Ht|done].
  - intros [Hc Hcs] (mid & Ha & Has). destruct (answer_tidy _ _ _ Ht Hc Ha) as [Ht' E].
    rewrite <-E in *. by apply IH.
Qed.

Lemma member_removable pods pod :
  orderly set pods -> pod ∈ pods -> dispensable pod -> removable (places pods) pod.
Proof.
  intros [Hs Hnd] Hp Hd. rewrite list.Forall_forall in Hs. pose proof (Hs _ Hp) as Hst.
  split_and!; [|by eapply steady_ordinal| |done].
  - apply places_Some; eauto.
  - apply pending_identity. by left.
Qed.

(** Creations for different ordinals followed by deletions at different ones. *)
Lemma planned_calls qs : forall m ds,
  NoDup (getOrdinal <$> qs) -> (forall q, q ∈ qs -> fits m q) ->
  NoDup (getOrdinal <$> ds) -> (forall d, d ∈ ds -> removable m d) ->
  rolloutCalls m ((CreateCall <$> qs) ++ (DeleteCall <$> ds)).
Proof.
  induction qs as [|q qs IH]; intros m ds Hq Hqs Hd Hds.
  - cbn. clear Hq Hqs. revert m Hds. induction ds as [|d ds IH]; intros m Hds; [done|].
    cbn in Hd. apply list.NoDup_cons in Hd as [Hnin Hd]. cbn [fmap list_fmap rolloutCalls].
    split; [apply Hds; by left|]. apply IH; [done|]. intros d' Hd'. cbn [placeCall].
    destruct (Hds d' ltac:(by right)) as [Hat Hx]. split; [|done].
    rewrite lookup_delete_ne; [done|]. intros E. apply Hnin. rewrite E. by apply list_elem_of_fmap_2.
  - cbn in Hq. apply list.NoDup_cons in Hq as [Hnin Hq].
    assert (Hc : fits m q) by (apply Hqs; by left).
    cbn [fmap list_fmap app rolloutCalls]. split; [done|]. cbn [placeCall].
    apply IH; [done| |done|].
    + intros q' Hq'. destruct (Hqs q' ltac:(by right)) as (Hr & Hfree & Hx).
      split; [done|]. split; [|done]. rewrite lookup_insert_ne; [done|].
      intros E. apply Hnin. rewrite E. by apply list_elem_of_fmap_2.
    + intros d Hd'. destruct (Hds d Hd') as [Hat Hx]. split; [|done].
      destruct Hc as (_ & Hnone & _). rewrite lookup_insert_ne; [done|]. congruence.
Qed.
End Distance.

(** ** One state after the other *)

(** Another version of the set: of the same name, and with the same spec. *)
Definition sameSet (set set' : StatefulSet) : Prop :=
  Name (set_meta set') = Name (set_meta set)
  /\ Namespace (set_meta set') = Namespace (set_meta set)
  /\ UID (set_meta set') = UID (set_meta set) /\ set_Spec set' = set_Spec set.

Section Approach.
Context `{KubeLib, Json InPlaceUpdateState, LabelMatch}.
Context (set : StatefulSet) (updRev : ControllerRevision) (n partition : Z).
Notation distance := (distance updRev n partition).
Notation rolledOut := (rolledOut updRev n partition).

Lemma identityMatches_same set' pod :
  sameSet set set' -> identityMatches set' pod = identityMatches set pod.
Proof. intros (Hn & Hns & _). unfold identityMatches, getPodName. by rewrite Hn, Hns. Qed.
Lemma storageMatches_same set' pod :
  sameSet set set' -> storageMatches set' pod = storageMatches set pod.
Proof. intros (Hn & _ & _ & Hs). unfold storageMatches, claimMounted, getPersistentVolumeClaimName. by rewrite Hn, Hs. Qed.
Lemma orderly_same set' pods : sameSet set set' -> orderly set pods -> orderly set' pods.
Proof.
  intros Hset [Hs Hnd]. split; [|done]. eapply Forall_impl; [|exact Hs]. intros pod.
  unfold steadyPod. by rewrite (identityMatches_same set'), (storageMatches_same set').
Qed.
Lemma claimable_same set' pod : sameSet set set' -> claimable set' pod <-> claimable set pod.
Proof. intros (_ & _ & Hu & Hs). unfold claimable, controlledBy. by rewrite Hu, Hs. Qed.
Lemma rolloutCalls_same set' updRev' cs :
  sameSet set set' -> rev_Name updRev' = rev_Name updRev -> forall m,
  rolloutCalls set' updRev' n partition m cs -> rolloutCalls set updRev n partition m cs.
Proof.
  intros Hset Hrev. induction cs as [|c cs IH]; intros m; [done|]. intros [Hc Hcs].
  split; [|by apply IH]. revert Hc. destruct c as [pod| | | |pod]; try done; cbn.
  - unfold fits, promising. rewrite (identityMatches_same set'), (storageMatches_same set'), Hrev by done.
    by rewrite (claimable_same set').
  - unfold removable, dispensable, outdated, outdatedPlace. by rewrite (identityMatches_same set'), Hrev.
Qed.

(** Calls that are part of the rollout; if all is [well], some unless its goal is reached. *)
Definition advance (well : Prop) (pods : list Pod) (cs : list PodCall) : Prop :=
  rolloutCalls set updRev n partition (places pods) cs /\ (well -> ~ rolledOut pods -> cs <> []).

(** The cluster carries out such calls, and the pods come up. *)
Definition advanced (well : Prop) (pods pods' : list Pod) : Prop :=
  exists cs raw, advance well pods cs /\ answered cs pods raw /\ comeUp set raw pods'.

Lemma advance_settled well pods cs :
  orderly set pods -> rolledOut pods -> advance well pods cs -> cs = [].
Proof.
  intros Hord Hr [Hcs%rolloutCalls_distance _]. apply (rolledOut_distance set) in Hr; [|done].
  apply nil_length_inv. lia.
Qed.

Lemma advanced_step well pods pods' :
  orderly set pods -> advanced well pods pods' ->
  orderly set pods'
  /\ (distance (places pods') <= distance (places pods))%nat
  /\ (well -> distance (places pods') < distance (places pods)
             \/ distance (places pods') = 0)%nat.
Proof.
  intros Hord (cs & raw & [Hcs Hne] & Hans & Hup).
  destruct (answered_tidy set updRev n partition cs pods raw (orderly_tidy _ _ Hord) Hcs Hans) as [Ht Er].
  destruct (tidy_comeUp set raw pods' Ht Hup) as [Hord' E].
  pose proof (rolloutCalls_distance set updRev n partition cs _ Hcs) as Hd. rewrite <-Er, <-E in Hd.
  split_and!; [done|lia|]. intros Hw.
  destruct (decide (distance (places pods) = 0%nat)) as [Hz|Hnz]; [right; lia|left].
  destruct cs; [|cbn [length] in Hd; lia]. destruct (Hne Hw); [|done].
  intros Hr. by apply Hnz, (rolledOut_distance set).
Qed.

(** So the goal is reached once enough steps went well, and not left again. *)
Definition wellSteps (well : nat -> bool) (k : nat) : nat :=
  length (filter (fun j => well j = true) (seq 0 k)).

Lemma wellSteps_S well k : wellSteps well (S k) = (wellSteps well k + if well k then 1 else 0)%nat.
Proof.
  unfold wellSteps. rewrite seq_S, list.filter_app, length_app. f_equal.
  rewrite filter_cons, filter_nil. cbn. by destruct (well k).
Qed.
Lemma wellSteps_all k : wellSteps (fun _ => true) k = k.
Proof. induction k as [|k IH]; [done|]. rewrite wellSteps_S, IH. lia. Qed.

Lemma advanced_converges (states : nat -> list Pod) (well : nat -> bool) :
  orderly set (states 0%nat) ->
  (forall k, orderly set (states k) -> advanced (well k = true) (states k) (states (S k))) ->
  forall k, orderly set (states k)
    /\ ((distance (places (states 0%nat)) <= wellSteps well k)%nat -> rolledOut (states k)).
Proof.
  intros Hord Hstep k.
  enough (orderly set (states k)
    /\ (distance (places (states k)) <= distance (places (states 0)) - wellSteps well k)%nat) as [Hk Hd].
  { split; [done|]. intros Hle. apply (rolledOut_distance set); [done|lia]. }
  induction k as [|k [Hk Hd]]; [split; [done|]; change (wellSteps well 0) with 0%nat; lia|].
  destruct (advanced_step _ _ _ Hk (Hstep k Hk)) as (Hk' & Hle & Hlt). split; [done|].
  rewrite wellSteps_S. destruct (well k); [destruct (Hlt eq_refl); lia|lia].
Qed.
End Approach.

(** What a rollout does to claimable pods leaves claimable pods. *)
Section Claimable.
Context `{KubeLib, Json InPlaceUpdateState, LabelMatch} (set : StatefulSet).

Lemma answered_claimable updRev n partition cs : forall m pods pods',
  rolloutCalls set updRev n partition m cs -> answered cs pods pods' ->
  Forall (claimable set) pods -> Forall (claimable set) pods'.
Proof.
  induction cs as [|c cs IH]; intros m pods pods'; cbn; [by intros _ ->|].
  intros [Hc Hcs] (mid & Hmid & Hans) Hall. apply (IH _ mid pods' Hcs Hans).
  destruct c as [pod| | | |pod]; try done; cbn in Hmid.
  - destruct Hmid as (pod' & Hk & ->). apply list.Forall_cons. split; [|done].
    apply (kept_claimable set _ _ Hk). by destruct Hc as (_ & _ & [? _] & _).
  - rewrite Hmid. apply list.Forall_forall. intros q [_ Hq]%list_elem_of_filter.
    by eapply list.Forall_forall.
Qed.
Lemma comeUp_claimable pods pods' :
  comeUp set pods pods' -> Forall (claimable set) pods -> Forall (claimable set) pods'.
Proof.
  intros (l & -> & Hl) Hall. induction Hl as [|p q pods l (Hk & _) Hl IH]; [done|].
  apply list.Forall_cons in Hall as [Hp Hall]. constructor; [|by apply IH]. by eapply kept_claimable.
Qed.
End Claimable.

(** Only the name of the update revision matters, and of the set its name and spec. *)
Lemma advance_same `{KubeLib, Json InPlaceUpdateState, LabelMatch} set set' updRev updRev' n partition well pods cs :
  sameSet set set' -> rev_Name updRev' = rev_Name updRev ->
  advance set' updRev' n partition well pods cs -> advance set updRev n partition well pods cs.
Proof.
  intros Hset Hrev [Hcs Hne]. split; [by eapply rolloutCalls_same|].
  revert Hne. unfold rolledOut. by rewrite Hrev.
Qed.
Lemma advance_proper `{KubeLib, Json InPlaceUpdateState, LabelMatch} set updRev n partition well pods pods' cs :
  pods ≡ₚ pods' -> orderly set pods ->
  advance set updRev n partition well pods cs -> advance set updRev n partition well pods' cs.
Proof.
  intros Hp [_ Hnd] [Hcs Hne]. split; [by rewrite <-(places_proper pods)|].
  revert Hne. unfold rolledOut. by setoid_rewrite Hp.
Qed.
#[export] Instance orderly_proper `{KubeLib, Json InPlaceUpdateState, LabelMatch} set :
  Proper ((≡ₚ) ==> iff) (orderly set).
Proof. intros l l' Hl. unfold orderly. by rewrite Hl. Qed.
