(* ===== verification/Rollout.v ===== *)
(** A rollout of a set on a cluster that carries out what it is asked: which calls one
    reconcile makes when all pods are steady, and that reconciles reach the goal of
    [Convergence] and stay there. *)

From S2P Require Import Prelude Objects GoString Libraries Coordinate Cluster Fixtures Naming.
From S2P Require Import Expectations PodIdentity SetStatus InPlace Interfaces Revisions.
From S2P Require Import CallLog Control LoopInvariants ControlCalls ControlSafety NoPanic.
From S2P Require Import Convergence.

(** ** The sets considered *)

(** A revision of a set: what a revision restores is the set with another template. *)
Definition sameButTemplate (set s : StatefulSet) : Prop :=
  set_meta s = set_meta set
  /\ Selector (set_Spec s) = Selector (set_Spec set)
  /\ VolumeClaimTemplates (set_Spec s) = VolumeClaimTemplates (set_Spec set)
  /\ UpdateStrategy (set_Spec s) = UpdateStrategy (set_Spec set).

(** A template that does not take part in in-place updates. *)
Definition plainTemplate (tpl : PodTemplateSpec) : Prop :=
  Annotations (tpl_meta tpl) !! StatefulSetInPlaceUpdateStateAnnotation = None
  /\ StatefulSetInPlaceUpdateReady ∉ ReadinessGates (tpl_Spec tpl).

(** A set that rolls out [updRev] by recreating pods: not paused, at least one pod may be
    away at a time, and its revisions restore it, with templates its selector matches. *)
Record rollout `{HistoryLib, SetCodec, MapRange, Json Coordinates, IntStrLib, LabelMatch}
    (set cur upd : StatefulSet) (curRev updRev : ControllerRevision) (n partition maxUnavailable : Z)
    : Prop := mkRollout {
  ro_current : ApplyRevision set curRev = Ok (inr cur);
  ro_update : ApplyRevision set updRev = Ok (inr upd);
  ro_same : sameButTemplate set cur /\ sameButTemplate set upd;
  ro_name : occurs newline (Name (set_meta set)) = false;
  ro_selector : is_Some (Selector (set_Spec set));
  ro_templates : forall s, s = cur \/ s = upd ->
    coordinatesUsable s /\ plainTemplate (Template (set_Spec s));
  ro_selects : forall s name rev, s = cur \/ s = upd ->
    Matches (Selector (set_Spec set))
      (<[StatefulSetRevisionLabel := rev]>
         (<[StatefulSetPodNameLabel := name]> (Labels (tpl_meta (Template (set_Spec s)))))) = true;
  ro_alive : DeletionTimestamp (set_meta set) = None;
  ro_replicas : spec_Replicas (set_Spec set) = Some n;
  ro_count : 0 <= n <= MaxInt32;
  ro_strategy : exists us ru, UpdateStrategy (set_Spec set) = Some us
    /\ us_Type us <> OnDeleteStatefulSetStrategyType /\ RollingUpdate us = Some ru
    /\ Partition ru = Some partition
    /\ PodUpdatePolicy ru <> InPlaceIfPossiblePodUpdateStrategyType
    /\ PodUpdatePolicy ru <> InPlaceOnlyPodUpdateStrategyType
    /\ updateBounds us n = Ok (inr (Some (partition, maxUnavailable)));
  ro_bounds : 0 <= partition /\ 0 < maxUnavailable;
}.

Section Fresh.
Context `{KubeLib, !KubeLibLaws, MapRange, Json Coordinates, Json InPlaceUpdateState}.
Context `{LabelMatch, HistoryLib, SetCodec, IntStrLib}.

(** What a new pod has of its template. *)
Lemma newStatefulSetPod_template set ordinal pod :
  newStatefulSetPod set ordinal = Ok pod ->
  Annotations (pod_meta pod) = Annotations (tpl_meta (Template (set_Spec set)))
  /\ ReadinessGates (pod_Spec pod) = ReadinessGates (tpl_Spec (Template (set_Spec set)))
  /\ controlledBy (set_meta set) pod
  /\ exists name, Labels (pod_meta pod)
       = <[StatefulSetPodNameLabel := name]> (Labels (tpl_meta (Template (set_Spec set)))).
Proof.
  unfold newStatefulSetPod. destruct (GetPodFromTemplate _ _ _) as [|pod0] eqn:E; [done|].
  pose proof (template_owner _ _ _ _ E) as Hown. apply template_pod in E as (Hl & Ha & _ & Hs & _).
  destruct (updateStorage _ _) as [pod1|] eqn:Eu; [|done]. cbn [mbind Outcome_bind].
  apply updateStorage_frame in Eu as (Hm1 & _ & Hs1).
  assert (Hg : ReadinessGates (pod_Spec pod1) = ReadinessGates (tpl_Spec (Template (set_Spec set)))).
  { apply (f_equal ReadinessGates) in Hs1. cbn in Hs1. by rewrite Hs1, Hs. }
  intros Hc. pose proof (coordinatorPod_Status _ _ _ _ Hc) as [_ Hm]. split_and!.
  - rewrite Hm, Hm1. exact Ha.
  - rewrite <-Hg. revert Hc. unfold coordinatorPod.
    destruct (_ !! "coordinates") as [s|]; [|by intros [= ->]].
    destruct (unmarshal s) as [cs|]; [|by intros [= ->]].
    case_decide; [done|]. destruct (index cs _) as [c|]; [|done]. cbn.
    case_decide; by intros [= <-].
  - unfold controlledBy. rewrite Hm, Hm1. cbn. rewrite Hown. apply controllerRef_owner.
  - eexists. rewrite Hm, Hm1. cbn. by rewrite Hl.
Qed.

Lemma identityMatches_set set s pod :
  set_meta s = set_meta set -> identityMatches s pod = identityMatches set pod.
Proof. unfold identityMatches, getPodName. by intros ->. Qed.
Lemma storageMatches_set set s pod :
  set_meta s = set_meta set -> VolumeClaimTemplates (set_Spec s) = VolumeClaimTemplates (set_Spec set) ->
  storageMatches s pod = storageMatches set pod.
Proof. unfold storageMatches, claimMounted, getPersistentVolumeClaimName. by intros -> ->. Qed.

(** A pod made from a plain template has no in-place update to wait for. *)
Lemma template_promising set s pod rev :
  sameButTemplate set s -> plainTemplate (Template (set_Spec s)) ->
  Annotations (pod_meta pod) = Annotations (tpl_meta (Template (set_Spec s))) ->
  ReadinessGates (pod_Spec pod) = ReadinessGates (tpl_Spec (Template (set_Spec s))) ->
  claimable set (setPodRevision pod rev) ->
  isTerminating pod = false -> identityMatches s pod = true -> storageMatches s pod = true ->
  promising set (setPodRevision pod rev).
Proof.
  intros (Hm & _ & Hv & _) [Hann Hgate] Ha Hg Hcl Ht Hi Hs. split; [done|]. split_and!.
  - by rewrite identityMatches_setPodRevision, <-(identityMatches_set set s).
  - rewrite <-Hs, <-(storageMatches_set set s) by done. unfold storageMatches.
    by rewrite (getOrdinal_Name (setPodRevision pod rev) pod).
  - done.
  - cbn. by rewrite Ha.
  - cbn. by rewrite Hg.
Qed.

(** The pod made for an ordinal has its place in a rollout. *)
Lemma freshPod_fits set cur upd curRev updRev n partition maxU i :
  rollout set cur upd curRev updRev n partition maxU -> 0 <= i < n ->
  exists q, freshPod cur upd curRev updRev i = Ok q
    /\ getOrdinal (obj q) = i /\ promising set (obj q)
    /\ (partition <= i -> getPodRevision (obj q) = rev_Name updRev).
Proof.
  intros Hro Hi. destruct (ro_same _ _ _ _ _ _ _ _ Hro) as [Hsc Hsu].
  destruct (ro_strategy _ _ _ _ _ _ _ _ Hro) as (us & ru & Hus & _ & Hru & Hpart & _).
  pose proof (ro_count _ _ _ _ _ _ _ _ Hro) as Hn.
  assert (Hbuilt : forall s rev, s = cur \/ s = upd -> sameButTemplate set s ->
    exists pod, newStatefulSetPod s i = Ok pod /\ getOrdinal (setPodRevision pod rev) = i
      /\ promising set (setPodRevision pod rev)).
  { intros s rev Hs Hsame. pose proof Hsame as (Hm & Hsel & _).
    destruct (ro_templates _ _ _ _ _ _ _ _ Hro s Hs) as [Hc Hplain].
    destruct (newPod_member s i) as (pod & E & Hid & Hst & Ho & _ & Ht & _); [| |done|lia|].
    { rewrite Hm. by eapply ro_name. } { rewrite Hsel. by eapply ro_selector. }
    destruct (newStatefulSetPod_template _ _ _ E) as (Ha & Hg & Hown & name & Hl).
    exists pod. split_and!; [done|by rewrite (getOrdinal_Name _ pod)|].
    apply (template_promising set s); try done. split; [by rewrite <-Hm|]. cbn. rewrite Hl.
    by apply (ro_selects _ _ _ _ _ _ _ _ Hro). }
  unfold freshPod, newVersionedStatefulSetPod, atCurrentRevision.
  rewrite (proj2 (proj2 (proj2 Hsc))), Hus. cbn. rewrite Hru. rewrite andb_false_r. cbn.
  rewrite Hpart. cbn. case_bool_decide as Hlt; cbn.
  - destruct (Hbuilt cur (rev_Name curRev) (or_introl eq_refl) Hsc) as (pod & -> & Ho & Hst).
    eexists. split_and!; [done|done|done|lia].
  - destruct (Hbuilt upd (rev_Name updRev) (or_intror eq_refl) Hsu) as (pod & -> & Ho & Hst).
    eexists. split_and!; [done|done|done|]. intros _. apply getPodRevision_set.
Qed.
End Fresh.

(** ** One reconcile *)

Section Pass.
Context {W : Type} `{KubeLib, !KubeLibLaws, MapRange, Json Coordinates, PatchLib,
  Json InPlaceUpdateState}.
Context `{LabelMatch, HistoryLib, SetCodec, SelectorLib, IntStrLib, GoSort, !GoSortLaws, ErrorText}.
Context `{Recorder W, Clock W, ReliablePodControl W}.
Context (set cur upd : StatefulSet) (curRev updRev : ControllerRevision).
Context (revisions : list ControllerRevision) (n partition maxU : Z).
Notation T := (W * list PodCall)%type.

(** A parallel set does all it can in one pass, an ordered one a single step. *)
Definition inOneGo {A} (l : list A) : list A := if allowsBurst set then l else take 1 l.
Definition goesThrough {A} (l : list A) : Prop := allowsBurst set = true \/ l = [].

Lemma emits_create pod (Q : Outcome (option Err * Pod) -> list PodCall -> Prop) :
  (forall pod', getPodRevision pod' = getPodRevision pod -> Q (Ok (None, pod')) [CreateCall pod]) ->
  emits (State := World T) (api (CreateStatefulPod set pod)) Q.
Proof.
  intros HQ. apply emits_logged. intros o w w' E.
  destruct (create_succeeds set pod w) as (pod' & w'' & E' & Hr).
  rewrite E' in E. injection E as <- <-. by apply HQ.
Qed.
Lemma emits_delete pod (Q : Outcome (option Err) -> list PodCall -> Prop) :
  Q (Ok None) [DeleteCall pod] -> emits (State := World T) (api (DeleteStatefulPod set pod)) Q.
Proof.
  intros HQ. apply emits_logged. intros o w w' E.
  destruct (delete_succeeds set pod w) as (w'' & E'). rewrite E' in E. by injection E as <- <-.
Qed.

(** A slot of a rollout: a steady pod, or one that is not created yet. *)
Definition uncreated (p : Ptr) : Prop := isCreated (obj p) = false.
#[export] Instance uncreated_dec p : Decision (uncreated p).
Proof. apply _. Defined.
Definition calmSlot (p : Ptr) : Prop :=
  steadyPod set (obj p) \/ (uncreated p /\ isFailed (obj p) = false).
(** The slot after the pass. *)
Definition slotAfter (p p' : Ptr) : Prop :=
  (steadyPod set (obj p) /\ p' = p)
  \/ (uncreated p /\ getPodRevision (obj p') = getPodRevision (obj p)).

Lemma steady_created p : steadyPod set (obj p) -> ~ uncreated p /\ isFailed (obj p) = false.
Proof.
  intros [Hr _]. destruct (ready_running _ Hr) as [Hc Hf]. split; [|done].
  unfold uncreated. by rewrite Hc.
Qed.

(** The first slots, up to the first uncreated one, are left alone. *)
Lemma createReplica_reliable p status :
  emits (State := World T) (createReplica set curRev updRev p status) (fun o cs =>
    cs = [CreateCall (obj p)]
    /\ match o with
       | Ok (Next (_, p')) => allowsBurst set = true /\ getPodRevision (obj p') = getPodRevision (obj p)
       | Ok (Return (_, err, _)) => allowsBurst set = false /\ err = None
       | Panic _ => False
       end).
Proof.
  unfold createReplica. apply emits_fbind, emits_run, emits_create. intros pod' Hr.
  destruct (allowsBurst set) eqn:Hb; cbn [negb].
  - by apply emits_fret.
  - by apply emits_return.
Qed.

Lemma syncReplica_uncreated i p status :
  uncreated p -> isFailed (obj p) = false ->
  emits (State := World T) (syncReplica set cur upd curRev updRev i p status) (fun o cs =>
    cs = [CreateCall (obj p)]
    /\ match o with
       | Ok (Next (_, p')) => allowsBurst set = true /\ getPodRevision (obj p') = getPodRevision (obj p)
       | Ok (Return (_, err, _)) => allowsBurst set = false /\ err = None
       | Panic _ => False
       end).
Proof.
  intros Hu Hf. unfold syncReplica, recreateFailed. cbv zeta. rewrite Hf.
  apply emits_fbind, emits_fret. rewrite Hu. cbn [negb]. apply createReplica_reliable.
Qed.

(** The pass over calm slots creates the first uncreated pod and ends there, or all of
    them, and calls for nothing else. *)
Lemma syncReplicas_calm todo : forall i done status,
  Forall calmSlot todo ->
  emits (State := World T) (syncReplicas set cur upd curRev updRev i todo done status) (fun o cs =>
    cs = (fun p => CreateCall (obj p)) <$> inOneGo (filter uncreated todo)
    /\ match o with
       | Ok (Next (_, reps)) => goesThrough (filter uncreated todo)
           /\ exists reps', reps = done ++ reps' /\ Forall2 slotAfter todo reps'
       | Ok (Return (_, err, _)) => ~ goesThrough (filter uncreated todo) /\ err = None
       | Panic _ => False
       end).
Proof.
  induction todo as [|p todo IH]; intros i done status Hall; cbn [syncReplicas].
  { apply emits_fret. split; [unfold inOneGo; by destruct (allowsBurst set)|].
    split; [by right|]. exists []. by rewrite app_nil_r. }
  apply list.Forall_cons in Hall as [Hp Hall]. intros w.
  destruct Hp as [Hst|[Hu Hf]].
  - destruct (syncReplica_steady set cur upd curRev updRev i p status Hst w) as (cs & E & -> & Ho).
    destruct (syncReplica set cur upd curRev updRev i p status w) as [o w'].
    cbn in Ho, E. subst o.
    destruct (IH (i + 1) (done ++ [p]) status Hall w') as (cs & E' & -> & Ho).
    exists ((fun p => CreateCall (obj p)) <$> inOneGo (filter uncreated todo)).
    rewrite E', E, app_nil_r. split; [done|].
    rewrite filter_cons_False by (by apply steady_created). split; [done|].
    destruct (syncReplicas _ _ _ _ _ (i + 1) _ _ _ w') as [[[[st reps]|[[st err] reps]]|r] w'']; [|done..].
    destruct Ho as (Hg & reps' & -> & Hrs). cbn. split; [done|]. exists (p :: reps').
    rewrite <-app_assoc. split; [done|]. constructor; [by left|done].
  - destruct (syncReplica_uncreated i p status Hu Hf w) as (cs & E & -> & Ho).
    destruct (syncReplica set cur upd curRev updRev i p status w) as [[[[st p']|[[st err] p']]|r] w'];
      cbn in Ho, E; [| |done].
    + destruct Ho as [Hb Hr].
      destruct (IH (i + 1) (done ++ [p']) st Hall w') as (cs & E' & -> & Ho).
      exists (CreateCall (obj p) :: ((fun p => CreateCall (obj p)) <$> inOneGo (filter uncreated todo))).
      rewrite E', E, <-app_assoc. split; [done|]. rewrite filter_cons_True by done.
      split; [unfold inOneGo; by rewrite Hb|].
      destruct (syncReplicas _ _ _ _ _ (i + 1) _ _ _ w') as [[[[st' reps]|[[st' err] reps]]|r] w'']; [| |done].
      * destruct Ho as (Hg & reps' & -> & Hrs). split; [by left|]. exists (p' :: reps').
        rewrite <-app_assoc. split; [done|]. constructor; [by right|done].
      * destruct Ho as [Hn ->]. split; [|done]. destruct Hn. by left.
    + destruct Ho as [Hb ->]. exists [CreateCall (obj p)]. split; [exact E|].
      rewrite filter_cons_True by done. unfold inOneGo, goesThrough. rewrite Hb.
      split; [done|]. cbn. split; [|done]. by intros [?|?].
Qed.

Lemma terminate_steady replicas first condemned : forall status,
  Forall (fun p => steadyPod set (obj p)) condemned ->
  emits (State := World T) (forLoop (terminateCondemned set curRev updRev replicas first) condemned status)
    (fun o cs => cs = (fun p => DeleteCall (obj p)) <$> inOneGo condemned
       /\ match o with
          | Ok (Next _) => goesThrough condemned
          | Ok (Return (_, err, _)) => ~ goesThrough condemned /\ err = None
          | Panic _ => False
          end).
Proof.
  induction condemned as [|p condemned IH]; intros status Hall; cbn [forLoop].
  { apply emits_ret. split; [unfold inOneGo; by destruct (allowsBurst set)|by right]. }
  apply list.Forall_cons in Hall as [(Hr & Ht & _) Hall].
  apply emits_bind. unfold terminateCondemned at 1. rewrite Ht, Hr. cbn [negb andb].
  apply emits_fbind, emits_run, emits_delete. unfold inOneGo, goesThrough.
  destruct (allowsBurst set) eqn:Hb; cbn [negb].
  - apply emits_fret. eapply emits_mono; [by apply IH|].
    unfold inOneGo, goesThrough. rewrite Hb. intros o cs [-> Ho]. split; [done|].
    destruct o as [[st|[[st err] reps]]|r]; [by left| |done]. destruct Ho as [[] _]. by left.
  - apply emits_return, emits_ret. cbn. split; [done|]. split; [|done]. by intros [?|?].
Qed.

(** ** The update of a set that recreates its pods *)

Context (us : StatefulSetUpdateStrategy) (ru : RollingUpdateStatefulSetStrategy).
Hypothesis Hus : UpdateStrategy (set_Spec set) = Some us.
Hypothesis Hru : RollingUpdate us = Some ru.
Hypothesis Hpolicy : PodUpdatePolicy ru <> InPlaceIfPossiblePodUpdateStrategyType
  /\ PodUpdatePolicy ru <> InPlaceOnlyPodUpdateStrategyType.

Definition oldRevision (p : Ptr) : Prop := getPodRevision (obj p) <> rev_Name updRev.
#[export] Instance oldRevision_dec p : Decision (oldRevision p).
Proof. apply _. Defined.

Lemma replacePod_recreate p completed status :
  emits (State := World T) (replacePod set curRev updRev revisions p completed status) (fun o cs =>
    cs = [DeleteCall (obj p)] /\ exists st, o = Ok (Next (st, p))).
Proof.
  unfold replacePod, shouldDoInPlaceUpdate. apply emits_fbind, emits_run, emits_lift.
  rewrite Hus. cbn. rewrite Hru, decide_True by done.
  apply emits_fbind, emits_run, emits_delete, emits_fret. eauto.
Qed.

Lemma updateTarget_recreate reps target s p :
  us_replicas s = reps -> 0 <= target -> reps !! Z.to_nat target = Some p ->
  (oldRevision p -> steadyPod set (obj p)) ->
  emits (State := World T) (updateTarget set curRev updRev revisions maxU target s) (fun o cs =>
    cs = (if decide (oldRevision p) then [DeleteCall (obj p)] else [])
    /\ match o with
       | Ok (Next s') => us_replicas s' = reps
           /\ (steadyPod set (obj p) -> ~ oldRevision p -> unavailablePods s' = unavailablePods s)
       | Ok (Return (_, err, _)) => err = None
           /\ (steadyPod set (obj p) -> ~ oldRevision p ->
               maxU <= Z.of_nat (length (unavailablePods s)))
       | Panic _ => False
       end).
Proof.
  intros Hreps Ht Hp Hold w. unfold updateTarget, index. rewrite Hreps, decide_True, Hp by done.
  set (m := if decide (getPodRevision (obj p) <> rev_Name updRev) then _ else _).
  assert (Hm : emits (State := World T) m (fun o cs =>
    cs = (if decide (oldRevision p) then [DeleteCall (obj p)] else [])
    /\ exists st, o = Ok (Next (st, p)))).
  { unfold m, oldRevision. destruct (decide _) as [Ho|]; [|apply emits_fret; eauto].
    destruct (Hold Ho) as (_ & -> & _). apply replacePod_recreate. }
  destruct (Hm w) as (cs & E & Hcs & st & Ho). exists cs.
  destruct (m w) as [o w']. cbn in E, Ho. subst o.
  rewrite list_insert_id by done.
  set (unavailable := if decide (_ \/ _) then _ else unavailablePods s).
  assert (Hun : steadyPod set (obj p) -> ~ oldRevision p -> unavailable = unavailablePods s).
  { intros (Hr & Hterm & _ & Hc & _) Hn. apply decide_False. unfold isHealthy.
    rewrite Hr, Hterm, Hc. unfold oldRevision in Hn. by intros [?|[?|?]]. }
  clearbody unavailable. destruct (decide (Z.of_nat (length unavailable) >= maxU)) as [Hge|]; cbn; (split; [exact E|]); (split; [exact Hcs|]).
  - split; [done|]. intros Hst Hn. rewrite (Hun Hst Hn) in Hge. lia.
  - split; [done|]. exact Hun.
Qed.

(** The targets deleted are outdated ones, in descending order; when the pods of all
    targets are steady and one is outdated, some are deleted. *)
Lemma updateLoop_recreate reps targets : forall s,
  us_replicas s = reps ->
  (forall t, t ∈ targets -> 0 <= t /\ exists p, reps !! Z.to_nat t = Some p
     /\ (oldRevision p -> steadyPod set (obj p))) ->
  emits (State := World T) (forLoop (updateTarget set curRev updRev revisions maxU) targets s)
    (fun o cs =>
       (exists ts ds, ts `sublist_of` targets
          /\ Forall2 (fun t d => reps !! Z.to_nat t = Some d /\ oldRevision d) ts ds
          /\ cs = (fun p => DeleteCall (obj p)) <$> ds)
       /\ (unavailablePods s = [] -> 0 < maxU ->
           (forall t p, t ∈ targets -> reps !! Z.to_nat t = Some p -> steadyPod set (obj p)) ->
           (exists t p, t ∈ targets /\ reps !! Z.to_nat t = Some p /\ oldRevision p) -> cs <> [])
       /\ match o with
          | Ok (Next _) => True
          | Ok (Return (_, err, _)) => err = None
          | Panic _ => False
          end).
Proof.
  induction targets as [|t targets IH]; intros s Hs Hall; cbn [forLoop].
  { apply emits_ret. split_and!; [|by intros _ _ _ (t & p & ?%not_elem_of_nil & _)|done].
    exists [], []. split_and!; [done|constructor|done]. }
  destruct (Hall t ltac:(by left)) as (Ht & p & Hp & Hold).
  apply emits_bind. eapply emits_mono; [by apply (updateTarget_recreate reps t s p)|].
  intros o cs [-> Ho].
  assert (Hone : forall ts ds, ts `sublist_of` targets ->
    Forall2 (fun t d => reps !! Z.to_nat t = Some d /\ oldRevision d) ts ds ->
    exists ts' ds', ts' `sublist_of` t :: targets
      /\ Forall2 (fun t d => reps !! Z.to_nat t = Some d /\ oldRevision d) ts' ds'
      /\ (if decide (oldRevision p) then [DeleteCall (obj p)] else [])
         ++ ((fun p => DeleteCall (obj p)) <$> ds) = (fun p => DeleteCall (obj p)) <$> ds').
  { intros ts ds Hsub Hall2. destruct (decide (oldRevision p)) as [Hop|Hop].
    - exists (t :: ts), (p :: ds). split_and!; [by apply sublist_skip|by constructor|done].
    - exists ts, ds. split_and!; [by apply sublist_cons|done|done]. }
  destruct o as [[s'|[[st err] reps']]|r]; [| |done].
  - destruct Ho as [Hr Hun].
    eapply emits_mono; [apply (IH s' Hr); intros t' Ht'; apply Hall; by right|].
    intros o cs ((ts & ds & Hsub & Hall2 & ->) & Hprog & Ho).
    split_and!; [by eapply Hone| |done].
    intros Hnil Hmax Hst (t' & p' & Ht' & Hp' & Hop').
    destruct (decide (oldRevision p)) as [Hop|Hop]; [done|]. cbn [app].
    apply Hprog; [by rewrite Hun; [|by eapply (Hst t); [left|]|]|done| |].
    + intros t'' p'' Ht''. apply Hst. by right.
    + apply elem_of_cons in Ht' as [->|Ht']; [rewrite Hp in Hp'; by injection Hp' as ->|]. eauto.
  - destruct Ho as [-> Hge]. apply emits_ret. rewrite app_nil_r. split_and!; [|..|done].
    + destruct (Hone [] []) as (ts & ds & ? & ? & E); [apply sublist_nil_l|constructor|].
      exists ts, ds. split_and!; [done|done|]. by rewrite <-E, app_nil_r.
    + intros Hnil Hmax Hst _. destruct (decide (oldRevision p)) as [Hop|Hop]; [done|].
      rewrite Hnil in Hge. cbn in Hge.
      specialize (Hge (Hst t p ltac:(by left) Hp) Hop). lia.
Qed.
End Pass.

(** ** Where a reconcile starts *)

Section Start.
Context `{KubeLib, !KubeLibLaws, MapRange, Json Coordinates, PatchLib, Json InPlaceUpdateState}.
Context `{LabelMatch, HistoryLib, SetCodec, IntStrLib, GoSort, !GoSortLaws}.
Context (set cur upd : StatefulSet) (curRev updRev : ControllerRevision).
Context (n partition maxU : Z) (pods : list Pod).
Hypothesis Hro : rollout set cur upd curRev updRev n partition maxU.
Hypothesis Hord : orderly set pods.

(** A slot holds the steady pod of its ordinal, or a new one that fits. *)
Definition slotOf (k : nat) (p : Ptr) : Prop :=
  getOrdinal (obj p) = Z.of_nat k
  /\ ((steadyPod set (obj p) /\ obj p ∈ pods)
      \/ (uncreated p /\ isFailed (obj p) = false /\ fits set updRev n partition (places pods) (obj p)
          /\ (partition <= Z.of_nat k -> getPodRevision (obj p) = rev_Name updRev))).

Lemma pod_steady pod : pod ∈ pods -> steadyPod set pod.
Proof. destruct Hord as [Hs _]. rewrite list.Forall_forall in Hs. apply Hs. Qed.

Lemma rollout_started : exists replicas condemned,
  started set curRev updRev pods cur upd n replicas condemned
  /\ (forall k p, replicas !! k = Some p -> slotOf k p).
Proof.
  pose proof (ro_count _ _ _ _ _ _ _ _ Hro) as Hn.
  destruct (partitionPods n pods) as [slots condemned] eqn:Ep.
  pose proof (partitionPods_spec _ _ _ _ Ep) as (Hls & _).
  assert (Hbuild : forall s, s = cur \/ s = upd -> sameButTemplate set s -> exists ru, buildable s ru).
  { intros s Hs (Hm & Hsel & _ & Hstr).
    destruct (ro_strategy _ _ _ _ _ _ _ _ Hro) as (us & ru & Hus & _ & Hru & Hpart & _).
    exists ru. split; [rewrite Hm; by eapply ro_name|rewrite Hsel; by eapply ro_selector| | |by eexists].
    - by apply (ro_templates _ _ _ _ _ _ _ _ Hro s Hs).
    - exists us. by rewrite Hstr. }
  destruct (ro_same _ _ _ _ _ _ _ _ Hro) as [Hsc Hsu].
  destruct (Hbuild cur (or_introl eq_refl) Hsc) as [ru Hb].
  destruct (Hbuild upd (or_intror eq_refl) Hsu) as [ru' Hb'].
  destruct (fillReplicas_total cur upd curRev updRev ru ru' slots 0) as [replicas Er]; [done|done|lia|lia|].
  exists replicas. eexists. split.
  { eapply (Started set curRev updRev pods cur upd n slots condemned replicas); try apply Hro; done || lia. }
  intros k p Hk.
  destruct (placement_slot _ _ _ _ _ _ _ _ _ _ _ (proj1 Hn) Ep Er Hk) as [Hkn [[Hin Ho]|[Hf Hnone]]].
  { split; [done|]. left. split; [by apply pod_steady|done]. }
  pose proof (freshPod_fresh _ _ _ _ _ _ Hf) as (_ & Hc & Hfail).
  destruct (freshPod_fits set cur upd curRev updRev n partition maxU (Z.of_nat k) Hro ltac:(lia))
    as (q & Hq & Ho & Hst & Hrev). rewrite Hf in Hq. injection Hq as <-.
  split; [done|]. right. split_and!; [done|done| |done].
  unfold fits. rewrite Ho. split_and!; [lia|lia| |done|done].
  by apply places_None.
Qed.
End Start.

Lemma slotOf_calm `{KubeLib, Json InPlaceUpdateState, LabelMatch} set updRev n partition pods k p :
  slotOf set updRev n partition pods k p -> calmSlot set p.
Proof. intros [_ [[? _]|(? & ? & _)]]; [by left|by right]. Qed.

(** Slots hold their own ordinals. *)
Lemma slots_ordinals (replicas : list Ptr) :
  (forall k p, replicas !! k = Some p -> getOrdinal (obj p) = Z.of_nat k) ->
  (fun p => getOrdinal (obj p)) <$> replicas = seqZ 0 (Z.of_nat (length replicas)).
Proof.
  intros Hk. apply list_eq. intros i. rewrite list_lookup_fmap.
  destruct (replicas !! i) as [p|] eqn:E; cbn.
  - rewrite (Hk _ _ E). symmetry. apply lookup_seqZ. apply lookup_lt_Some in E. lia.
  - symmetry. apply lookup_ge_None in E. apply lookup_seqZ_ge. lia.
Qed.

Lemma inOneGo_sublist {A} set (l : list A) : inOneGo set l `sublist_of` l.
Proof. unfold inOneGo. destruct (allowsBurst set); [done|apply sublist_take]. Qed.
Lemma goesThrough_all {A} set (l : list A) : goesThrough set l -> inOneGo set l = l.
Proof. unfold inOneGo. intros [->| ->]; [done|]. by destruct (allowsBurst set). Qed.
Lemma inOneGo_nil {A} set (l : list A) : inOneGo set l = [] -> l = [].
Proof. unfold inOneGo. destruct (allowsBurst set); [done|]. by destruct l. Qed.

Section Plan.
Context `{KubeLib, !KubeLibLaws, MapRange, Json Coordinates, PatchLib, Json InPlaceUpdateState}.
Context `{LabelMatch, HistoryLib, SetCodec, GoSort, !GoSortLaws}.
Context (set cur upd : StatefulSet) (curRev updRev : ControllerRevision).
Context (n partition : Z) (pods : list Pod) (replicas condemned : list Ptr).
Hypothesis Hord : orderly set pods.
Hypothesis Hstart : started set curRev updRev pods cur upd n replicas condemned.
Hypothesis Hslots : forall k p, replicas !! k = Some p -> slotOf set updRev n partition pods k p.
Notation ordinals l := ((fun p => getOrdinal (obj p)) <$> l).

Lemma created_plan (ps : list Ptr) :
  ps `sublist_of` filter uncreated replicas ->
  NoDup (ordinals ps) /\ forall p, p ∈ ps -> fits set updRev n partition (places pods) (obj p).
Proof.
  intros Hsub. split.
  - eapply sublist_NoDup; [|apply fmap_sublist; etrans; [exact Hsub|apply sublist_filter]].
    rewrite slots_ordinals; [apply NoDup_seqZ|]. intros k p Hk. by apply Hslots.
  - intros p Hp. eapply sublist_In in Hp; [|exact Hsub].
    apply list_elem_of_filter in Hp as [Hu [k Hk]%list_elem_of_lookup].
    destruct (Hslots _ _ Hk) as [_ [[Hst _]|(_ & _ & Hf & _)]]; [|done].
    by apply steady_created in Hst as [? _].
Qed.

Lemma condemned_plan :
  NoDup (ordinals condemned)
  /\ forall p, p ∈ condemned -> obj p ∈ pods /\ n <= getOrdinal (obj p).
Proof.
  clear Hslots. split.
  - destruct Hstart as [cur' upd' n' slots cond replicas' _ _ _ _ _ Hpart _].
    apply partitionPods_spec in Hpart as (_ & -> & _).
    rewrite fmap_reverse, reverse_Permutation, goSort_perm.
    destruct Hord as [_ Hnd]. eapply sublist_NoDup; [exact Hnd|].
    rewrite <-(listedPods_fmap pods) at 2. rewrite <-list_fmap_compose.
    apply fmap_sublist, sublist_filter.
  - intros p Hp. eapply started_condemned; [exact Hstart|]. by exists p.
Qed.

Lemma update_plan reps (ts : list Z) (ds : list Ptr) :
  Forall2 (slotAfter set) replicas reps -> ts `sublist_of` updateTargets reps partition -> 0 <= partition ->
  Forall2 (fun t d => reps !! Z.to_nat t = Some d /\ oldRevision updRev d) ts ds ->
  ordinals ds = ts /\ forall d, d ∈ ds -> obj d ∈ pods /\ outdated updRev n partition (obj d).
Proof.
  intros Hafter Hsub Hp0 Hall.
  pose proof (started_length _ _ _ _ _ _ _ _ _ Hstart) as (Hlen & Hn0 & _).
  pose proof (list.Forall2_length _ _ _ Hafter) as Hlen'.
  assert (Hone : forall t d, t ∈ ts -> reps !! Z.to_nat t = Some d -> oldRevision updRev d ->
    getOrdinal (obj d) = t /\ obj d ∈ pods /\ outdated updRev n partition (obj d)).
  { intros t d Ht Hd Hold. eapply sublist_In in Ht; [|exact Hsub].
    apply elem_of_updateTargets in Ht.
    destruct (list.Forall2_lookup_r _ _ _ _ _ Hafter Hd) as (p & Hp & Hs).
    destruct (Hslots _ _ Hp) as [Ho Hslot]. rewrite Z2Nat.id in Ho by lia.
    destruct Hs as [[Hst ->]|[Hu Hrev]].
    - destruct Hslot as [[_ Hin]|(Hu & _)]; [|by apply steady_created in Hst as [? _]].
      split_and!; [done|done|]. split; [cbn; lia|done].
    - destruct Hslot as [[Hst _]|(_ & _ & _ & Hnew)]; [by apply steady_created in Hst as [? _]|].
      destruct Hold. rewrite Hrev. apply Hnew. lia. }
  clear Hsub. split.
  - induction Hall as [|t d ts ds [Hd Hold] Hall IH]; [done|]. cbn. f_equal.
    + by apply (Hone t); [left|..].
    + apply IH. intros t' d' Ht'. apply Hone. by right.
  - intros d [i Hi]%list_elem_of_lookup. destruct (list.Forall2_lookup_r _ _ _ _ _ Hall Hi) as (t & Ht & Hd & Hold).
    eapply (Hone t); [by eapply list_elem_of_lookup_2|done|done].
Qed.

(** Nothing to do in any of the three places is the goal. *)
Lemma idle_rolledOut :
  filter uncreated replicas = [] -> condemned = [] ->
  (forall k p, replicas !! k = Some p -> partition <= Z.of_nat k -> ~ oldRevision updRev p) ->
  rolledOut updRev n partition pods.
Proof.
  intros Hu Hc Hold. pose proof (started_length _ _ _ _ _ _ _ _ _ Hstart) as (Hlen & Hn0 & _).
  assert (Hslot : forall i, 0 <= i < n -> exists p, replicas !! Z.to_nat i = Some p
    /\ obj p ∈ pods /\ getOrdinal (obj p) = i).
  { intros i Hi. destruct (lookup_lt_is_Some_2 replicas (Z.to_nat i)) as [p Hp]; [lia|].
    exists p. split; [done|]. destruct (Hslots _ _ Hp) as [Ho [[_ Hin]|(Hup & _)]]; [split; [done|lia]|].
    assert (Hin : p ∈ filter uncreated replicas).
    { apply list_elem_of_filter. split; [done|]. by eapply list_elem_of_lookup_2. }
    rewrite Hu in Hin. by apply not_elem_of_nil in Hin. }
  assert (Hlt : forall pod, pod ∈ pods -> getOrdinal pod < n).
  { intros pod Hp. destruct (decide (n <= getOrdinal pod)) as [Hge|]; [|lia].
    destruct (proj2 (started_condemned _ _ _ _ _ _ _ _ _ pod Hstart) (conj Hp Hge)) as (p & Hpc & _).
    rewrite Hc in Hpc. by apply not_elem_of_nil in Hpc. }
  split_and!; [|done|].
  - intros i Hi. destruct (Hslot i Hi) as (p & _ & ? & ?). eauto.
  - intros pod Hp Hge. destruct (decide (getPodRevision pod = rev_Name updRev)); [done|].
    assert (0 <= getOrdinal pod).
    { destruct Hord as [Hs _]. rewrite list.Forall_forall in Hs. eapply steady_ordinal, Hs, Hp. }
    destruct (Hslot (getOrdinal pod)) as (p & Hpk & Hin & Ho); [by auto|].
    assert (obj p = pod) as <- by (eapply ordinals_inj; [apply Hord|done..]).
    by destruct (Hold _ _ Hpk ltac:(lia)).
Qed.
End Plan.

(** ** The calls of a reconcile *)

Section Run.
Context {W : Type} `{KubeLib, !KubeLibLaws, MapRange, Json Coordinates, PatchLib,
  Json InPlaceUpdateState}.
Context `{LabelMatch, HistoryLib, SetCodec, SelectorLib, IntStrLib}.
Context `{GoSort, !GoSortLaws, ErrorText, Recorder W, Clock W, ReliablePodControl W}.
Context (set cur upd : StatefulSet) (curRev updRev : ControllerRevision).
Context (n partition maxU : Z) (pods : list Pod) (revisions : list ControllerRevision).
Notation T := (W * list PodCall)%type.
Hypothesis Hro : rollout set cur upd curRev updRev n partition maxU.
Hypothesis Hord : orderly set pods.

(** No in-place update of the set is outstanding. *)
Definition expectNothing (w : World T) : Prop :=
  (SatisfiedExpectations (getStatefulSetKey (set_meta set)) (rev_Name updRev) w.2).1 = true.

Lemma expectNothing_stable : stable (W := T) expectNothing set.
Proof.
  apply (cache_stable set (fun c =>
    (SatisfiedExpectations (getStatefulSetKey (set_meta set)) (rev_Name updRev) c).1 = true)).
Qed.

(** What the update of the slots [reps] does: it deletes outdated pods, some unless the
    pods are steady and none is outdated, and reports no error. *)
Definition updatePost (reps : list Ptr)
    (o : Outcome (Flow (StatefulSetStatus * option Err * list Ptr)
                       (StatefulSetStatus * option Err * list Ptr))) (cs : list PodCall) : Prop :=
  (exists ts ds, ts `sublist_of` updateTargets reps partition
     /\ Forall2 (fun t d => reps !! Z.to_nat t = Some d /\ oldRevision updRev d) ts ds
     /\ cs = (fun p => DeleteCall (obj p)) <$> ds)
  /\ ((forall p, p ∈ reps -> steadyPod set (obj p)) ->
      (exists t p, t ∈ updateTargets reps partition /\ reps !! Z.to_nat t = Some p
         /\ oldRevision updRev p) -> cs <> [])
  /\ match o with
     | Ok (Next (_, err, _)) | Ok (Return (_, err, _)) => err = None
     | Panic _ => False
     end.

Lemma emitsIn_readCache {A R B} (f : controllerCache -> A) (k : A -> F (World T) R B) a
    (Q : Outcome (Flow B R) -> list PodCall -> Prop) :
  (forall w, expectNothing w -> f w.2 = a) -> emitsIn (State := World T) expectNothing (k a) Q ->
  emitsIn (State := World T) expectNothing (run (readCache f) ≫= k) Q.
Proof.
  intros Hf Hk [w cache] Hw. specialize (Hk (w, cache) Hw). specialize (Hf _ Hw). cbn [snd] in Hf.
  unfold mbind, F_bind, run, readCache. by rewrite Hf.
Qed.

(** With nothing expected, the update is the loop over the targets. *)
Lemma updateReplicas_loop us p maxUnavailable reps status
    (Q : Outcome (Flow (StatefulSetStatus * option Err * list Ptr)
                       (StatefulSetStatus * option Err * list Ptr)) -> list PodCall -> Prop) :
  UpdateStrategy (set_Spec set) = Some us -> us_Type us <> OnDeleteStatefulSetStrategyType ->
  updateBounds us n = Ok (inr (Some (p, maxUnavailable))) ->
  emits (State := World T)
    (forLoop (updateTarget set curRev updRev revisions maxUnavailable) (updateTargets reps p)
       (mkUpdateState status [] reps)
     : F (World T) (StatefulSetStatus * option Err * list Ptr) UpdateState)
    (fun o cs => match o with
       | Ok (Next s) => Q (Ok (Next (us_status s, None, us_replicas s))) cs
       | Ok (Return r) => Q (Ok (Return r)) cs
       | Panic r => Q (Panic r) cs
       end) ->
  emitsIn (State := World T) expectNothing (updateReplicas set curRev updRev revisions n reps status) Q.
Proof.
  intros Hus Htype Hb Hloop. unfold updateReplicas. apply emitsIn_flift. rewrite Hus. cbn [deref].
  rewrite decide_False by done. apply (emitsIn_readCache _ _ true); [by intros w|]. cbn [negb].
  apply emitsIn_flift. rewrite Hb. apply emits_in, emits_fbind. eapply emits_mono; [exact Hloop|].
  intros o cs HQ. destruct o as [[s|r]|r]; [|done..]. apply emits_fret. by rewrite app_nil_r.
Qed.

Lemma updateReplicas_rollout reps status :
  (forall t, t ∈ updateTargets reps partition -> 0 <= t /\ exists p, reps !! Z.to_nat t = Some p
     /\ (oldRevision updRev p -> steadyPod set (obj p))) ->
  emitsIn (State := World T) expectNothing
    (updateReplicas set curRev updRev revisions n reps status) (updatePost reps).
Proof.
  intros Hall.
  destruct (ro_strategy _ _ _ _ _ _ _ _ Hro) as (us & ru & Hus & Htype & Hru & Hpart & Hp1 & Hp2 & Hb).
  destruct (ro_bounds _ _ _ _ _ _ _ _ Hro) as [_ Hmax].
  apply (updateReplicas_loop us partition maxU); [done..|]. eapply emits_mono.
  { apply (updateLoop_recreate set curRev updRev revisions maxU us ru Hus Hru (conj Hp1 Hp2) reps);
      [done|exact Hall]. }
  intros o cs (Hcs & Hprog & Ho).
  assert (Hprog' : (forall p, p ∈ reps -> steadyPod set (obj p)) ->
    (exists t p, t ∈ updateTargets reps partition /\ reps !! Z.to_nat t = Some p
       /\ oldRevision updRev p) -> cs <> []).
  { intros Hst. apply Hprog; [done|done|]. intros t p _ Hp. apply Hst. by eapply list_elem_of_lookup_2. }
  unfold updatePost. by destruct o as [[s|[[st err] reps']]|r].
Qed.

(** Running the loop is running [syncSet] on what it starts with. *)
Lemma started_run replicas condemned collisionCount
    (Q : Outcome (option StatefulSetStatus * option Err * list Ptr) -> list PodCall -> Prop) :
  started set curRev updRev pods cur upd n replicas condemned ->
  emitsIn (State := World T) expectNothing
    (syncSet set cur upd curRev updRev revisions n replicas (reverse condemned)
       (countedStatus set curRev updRev collisionCount pods))
    (fun o cs => match o with
                 | Ok (Next (st, err, reps)) | Ok (Return (st, err, reps)) =>
                     Q (Ok (Some st, err, reps)) cs
                 | Panic r => Q (Panic r) cs
                 end) ->
  emitsIn (State := World T) expectNothing
    (updateStatefulSet set curRev updRev collisionCount pods revisions) Q.
Proof.
  intros [cur' upd' n' slots cond replicas' Hc Hu Hn Hn0 _ Hpart Hfill] Hsync w Hw.
  rewrite reverse_involutive in Hsync. destruct (Hsync w Hw) as (cs & E & HQ). exists cs.
  unfold updateStatefulSet, mbind, M_bind, lift. rewrite Hc, Hu. rewrite Hn. cbn [deref].
  rewrite decide_False by lia. rewrite Hpart, Hfill. unfold body.
  unfold countedStatus in E, HQ.
  destruct (syncSet _ _ _ _ _ _ _ _ _ _ w) as [[[[[st err] reps]|[[st err] reps]]|r] w']; by split.
Qed.

(** What a reconcile asks for is part of a rollout, it asks for something unless the
    goal is reached, and it reports no error. *)
Definition runPost (o : Outcome (option StatefulSetStatus * option Err * list Ptr))
    (cs : list PodCall) : Prop :=
  advance set updRev n partition True pods cs /\ exists st reps, o = Ok (Some st, None, reps).

(** Assembling the three phases: [qs] created, [ds] condemned pods and [us] outdated ones
    deleted. *)
Lemma phases_calls replicas condemned (qs cs us : list Ptr) :
  started set curRev updRev pods cur upd n replicas condemned ->
  (forall k p, replicas !! k = Some p -> slotOf set updRev n partition pods k p) ->
  qs `sublist_of` filter uncreated replicas -> cs `sublist_of` condemned ->
  NoDup ((fun p => getOrdinal (obj p)) <$> us) ->
  (forall d, d ∈ us -> obj d ∈ pods /\ outdated updRev n partition (obj d)) ->
  rolloutCalls set updRev n partition (places pods)
    (((fun p => CreateCall (obj p)) <$> qs) ++ ((fun p => DeleteCall (obj p)) <$> cs)
     ++ ((fun p => DeleteCall (obj p)) <$> us)).
Proof.
  intros Hst Hslots Hqs Hcs Hnd Hus.
  destruct (created_plan set updRev n partition pods replicas Hslots qs Hqs) as [Hq1 Hq2].
  destruct (condemned_plan set cur upd curRev updRev n pods replicas condemned Hord Hst) as [Hc1 Hc2].
  assert (Hcin : forall p, p ∈ cs -> obj p ∈ pods /\ n <= getOrdinal (obj p)).
  { intros p Hp. eapply Hc2, sublist_In; [exact Hcs|done]. }
  rewrite <-fmap_app, (list_fmap_compose obj CreateCall), (list_fmap_compose obj DeleteCall).
  apply planned_calls.
  - by rewrite <-list_fmap_compose.
  - intros q (p & -> & Hp)%list_elem_of_fmap. by apply Hq2.
  - rewrite <-list_fmap_compose. unfold compose. rewrite fmap_app. apply list.NoDup_app.
    split_and!; [eapply sublist_NoDup; [exact Hc1|by apply fmap_sublist]| |done].
    intros o (p & -> & Hp)%list_elem_of_fmap (d & Hd & [_ [Hr _]]%Hus)%list_elem_of_fmap.
    apply Hcin in Hp. cbn in Hr; lia.
  - intros d (p & -> & [Hp|Hp]%elem_of_app)%list_elem_of_fmap.
    + apply Hcin in Hp as [? ?]. apply (member_removable set); [done..|by left].
    + apply Hus in Hp as [? ?]. apply (member_removable set); [done..|by right].
Qed.

Lemma NoDup_updateTargets reps k : NoDup (updateTargets reps k).
Proof. unfold updateTargets. rewrite reverse_Permutation. apply NoDup_seqZ. Qed.

(** After the pass every slot is a steady pod, or was created at the update revision. *)
Lemma slots_after replicas reps :
  (forall k p, replicas !! k = Some p -> slotOf set updRev n partition pods k p) ->
  Forall2 (slotAfter set) replicas reps ->
  forall t, t ∈ updateTargets reps partition -> 0 <= t /\ exists p, reps !! Z.to_nat t = Some p
    /\ (oldRevision updRev p -> steadyPod set (obj p)).
Proof.
  intros Hslots Hafter t Ht%elem_of_updateTargets.
  destruct (ro_bounds _ _ _ _ _ _ _ _ Hro) as [Hp0 _]. split; [lia|].
  destruct (lookup_lt_is_Some_2 reps (Z.to_nat t)) as [p Hp]; [lia|]. exists p. split; [done|].
  destruct (list.Forall2_lookup_r _ _ _ _ _ Hafter Hp) as (p0 & Hp0' & [[Hst ->]|[Hu Hrev]]); [done|].
  destruct (Hslots _ _ Hp0') as [_ [[Hst _]|(_ & _ & _ & Hnew)]].
  - by apply steady_created in Hst as [? _].
  - intros Hold. destruct Hold. rewrite Hrev. apply Hnew. lia.
Qed.

Lemma all_steady replicas reps :
  (forall k p, replicas !! k = Some p -> slotOf set updRev n partition pods k p) ->
  Forall2 (slotAfter set) replicas reps -> filter uncreated replicas = [] ->
  reps = replicas /\ forall p, p ∈ replicas -> steadyPod set (obj p).
Proof.
  intros Hslots Hafter Hnone.
  assert (Hst : forall p, p ∈ replicas -> ~ uncreated p).
  { intros p Hp Hu. assert (Hin : p ∈ filter uncreated replicas) by (by apply list_elem_of_filter).
    rewrite Hnone in Hin. by apply not_elem_of_nil in Hin. }
  split.
  - clear Hslots Hnone. induction Hafter as [|p p' l l' Hs Hafter IH]; [done|]. f_equal.
    + destruct Hs as [[_ ->]|[Hu _]]; [done|]. by destruct (Hst p ltac:(by left)).
    + apply IH. intros q Hq. apply Hst. by right.
  - intros p Hp. destruct (proj1 (list_elem_of_lookup _ _) Hp) as [k Hk].
    destruct (Hslots _ _ Hk) as [_ [[? _]|(Hu & _)]]; [done|]. by destruct (Hst p Hp).
Qed.

(** The last phase of a pass that went through: the calls so far, and the update. *)
Lemma update_phase replicas condemned reps status :
  started set curRev updRev pods cur upd n replicas condemned ->
  (forall k p, replicas !! k = Some p -> slotOf set updRev n partition pods k p) ->
  Forall2 (slotAfter set) replicas reps ->
  emitsIn (State := World T) expectNothing (updateReplicas set curRev updRev revisions n reps status)
    (fun o cs' => match o with
       | Ok (Next (st, err, reps')) | Ok (Return (st, err, reps')) =>
           runPost (Ok (Some st, err, reps'))
             (((fun p => CreateCall (obj p)) <$> filter uncreated replicas)
              ++ ((fun p => DeleteCall (obj p)) <$> condemned) ++ cs')
       | Panic r => False
       end).
Proof.
  intros Hst Hslots Hafter. destruct (ro_bounds _ _ _ _ _ _ _ _ Hro) as [Hp0 _].
  pose proof (started_length _ _ _ _ _ _ _ _ _ Hst) as (Hlen & Hn0 & _).
  eapply emitsIn_mono; [by apply updateReplicas_rollout, (slots_after replicas)|].
  intros o cs' ((ts & ds & Hsub & Hall & ->) & Hprog & Ho).
  destruct (update_plan set cur upd curRev updRev n partition pods replicas condemned Hst Hslots
              reps ts ds Hafter Hsub Hp0 Hall) as [Hords Hds].
  assert (Hcalls := phases_calls replicas condemned (filter uncreated replicas) condemned ds Hst Hslots
    ltac:(done) ltac:(done)).
  rewrite Hords in Hcalls. specialize (Hcalls (sublist_NoDup _ _ (NoDup_updateTargets reps partition) Hsub) Hds).
  assert (Hne : ~ rolledOut updRev n partition pods ->
    ((fun p => CreateCall (obj p)) <$> filter uncreated replicas)
    ++ ((fun p => DeleteCall (obj p)) <$> condemned) ++ ((fun p => DeleteCall (obj p)) <$> ds) <> []).
  { intros Hnot Hnil. apply app_eq_nil in Hnil as [Hn1 [Hn2 Hn3]%app_eq_nil].
    apply fmap_nil_inv in Hn1, Hn2.
    destruct (all_steady replicas reps Hslots Hafter Hn1) as [-> Hsteady].
    apply Hnot, (idle_rolledOut set cur upd curRev updRev n partition pods replicas condemned); try done.
    intros k p Hk Hge Hold. apply Hprog; [done| |done]. exists (Z.of_nat k), p. rewrite Nat2Z.id.
    split_and!; [|done|done]. apply elem_of_updateTargets. apply lookup_lt_Some in Hk. lia. }
  destruct o as [[[[st err] reps']|[[st err] reps']]|r]; [| |done]; subst err; (split; [by split|eauto]).
Qed.

(** The phases that end a pass early: no error, and at least one call. *)
Lemma early_phase replicas condemned (qs cs : list Ptr) st reps :
  started set curRev updRev pods cur upd n replicas condemned ->
  (forall k p, replicas !! k = Some p -> slotOf set updRev n partition pods k p) ->
  qs `sublist_of` filter uncreated replicas -> cs `sublist_of` condemned -> qs ++ cs <> [] ->
  runPost (Ok (Some st, None, reps))
    (((fun p => CreateCall (obj p)) <$> qs) ++ ((fun p => DeleteCall (obj p)) <$> cs)).
Proof.
  intros Hst Hslots Hqs Hcs Hne. split; [split|eauto].
  - pose proof (phases_calls replicas condemned qs cs [] Hst Hslots Hqs Hcs) as Hcalls.
    cbn [fmap list_fmap] in Hcalls. rewrite app_nil_r in Hcalls. apply Hcalls; [constructor|].
    by intros d ?%not_elem_of_nil.
  - intros _ _ [Hn1%fmap_nil_inv Hn2%fmap_nil_inv]%app_eq_nil. by subst.
Qed.

Lemma rollout_run collisionCount :
  emitsIn (State := World T) expectNothing
    (updateStatefulSet set curRev updRev collisionCount pods revisions) runPost.
Proof.
  destruct (rollout_started set cur upd curRev updRev n partition maxU pods Hro Hord)
    as (replicas & condemned & Hst & Hslots).
  destruct (condemned_plan set cur upd curRev updRev n pods replicas condemned Hord Hst) as [_ Hcond].
  apply (started_run replicas condemned); [done|]. unfold syncSet.
  assert (Hcalm : Forall (calmSlot set) replicas).
  { apply list.Forall_forall. intros p [k Hk]%list_elem_of_lookup. by eapply slotOf_calm, Hslots. }
  assert (Hcst : Forall (fun p => steadyPod set (obj p)) condemned).
  { apply list.Forall_forall. intros p Hp. eapply pod_steady; [exact Hord|]. by apply Hcond. }
  assert (Hfirst : (findUnhealthy (replicas ++ reverse condemned)).1 > 0 ->
    is_Some (findUnhealthy (replicas ++ reverse condemned)).2).
  { intros Hgt. apply findUnhealthy_found; [|left; lia].
    intros p [[k Hk]%list_elem_of_lookup|Hp]%elem_of_app Hh.
    - destruct (Hslots _ _ Hk) as [-> _]. pose proof (ro_count _ _ _ _ _ _ _ _ Hro).
      apply lookup_lt_Some in Hk. pose proof (started_length _ _ _ _ _ _ _ _ _ Hst). lia.
    - rewrite elem_of_reverse in Hp. rewrite list.Forall_forall in Hcst. destruct (Hcst p Hp) as (Hr & Ht & _).
      unfold isHealthy in Hh. by rewrite Hr, Ht in Hh. }
  destruct (findUnhealthy (replicas ++ reverse condemned)) as [unhealthy first]. cbn [fst snd] in Hfirst.
  apply emitsIn_flift.
  assert ((if decide (unhealthy > 0) then (_ ← deref first; Ok tt) else Ok tt) = Ok tt) as ->.
  { case_decide as Hd; [|done]. by destruct (Hfirst Hd) as [q ->]. }
  rewrite decide_False by (rewrite (ro_alive _ _ _ _ _ _ _ _ Hro); by intros []).
  apply emitsIn_fbind; [apply syncReplicas_preserves, expectNothing_stable|].
  eapply emits_mono; [by apply syncReplicas_calm|]. intros o cs [-> Ho]. cbn [app].
  destruct o as [[[st reps]|[[st err] reps]]|r]; [| |done].
  2: { destruct Ho as [Hg ->].
       pose proof (early_phase replicas condemned (inOneGo set (filter uncreated replicas)) [] st reps
         Hst Hslots (inOneGo_sublist _ _) (sublist_nil_l _)) as He.
       cbn [fmap list_fmap] in He. rewrite !app_nil_r in He. apply He.
       intros Hnil%inOneGo_nil. apply Hg. by right. }
  destruct Ho as (Hg & reps' & -> & Hafter). rewrite (goesThrough_all _ _ Hg). cbn [app].
  apply emitsIn_fbind; [apply terminate_preserves, expectNothing_stable|].
  rewrite reverse_involutive.
  eapply emits_mono; [by apply terminate_steady|]. intros o cs [-> Ho].
  destruct o as [[st'|[[st' err] reps'']]|r]; [| |done].
  - rewrite (goesThrough_all _ _ Ho).
    eapply emitsIn_mono; [by apply (update_phase replicas condemned reps')|].
    intros o cs. by destruct o as [[[[? ?] ?]|[[? ?] ?]]|].
  - destruct Ho as [Hng ->]. apply (early_phase replicas condemned); [done|done|done| |].
    + apply inOneGo_sublist.
    + intros [_ Hnil%inOneGo_nil]%app_eq_nil. apply Hng. by right.
Qed.
End Run.

(** ** Rounds *)

Section Rounds.
Context {W : Type} `{KubeLib, !KubeLibLaws, MapRange, Json Coordinates, PatchLib,
  Json InPlaceUpdateState}.
Context `{LabelMatch, HistoryLib, SetCodec, SelectorLib, IntStrLib}.
Context `{GoSort, !GoSortLaws, ErrorText, Recorder W, Clock W, ReliablePodControl W}.
Context (set : StatefulSet) (updRev : ControllerRevision) (n partition : Z).

(** The calls of one reconcile. *)
Definition callsOf (set : StatefulSet) (curRev : ControllerRevision) (collisionCount : Z)
    (pods : list Pod) (revisions : list ControllerRevision) (w : W) (cache : controllerCache)
  : list PodCall :=
  (updateStatefulSet (W := W * list PodCall) set curRev updRev collisionCount pods revisions
     ((w, []), cache)).2.1.2.

(** A reconcile of some version of the set, in some world that expects no in-place
    update, and its calls. *)
Inductive reconcile (pods : list Pod) : list PodCall -> Prop :=
  | Reconciled set' cur upd curRev maxU w cache collisionCount revisions :
      sameSet set set' -> rollout set' cur upd curRev updRev n partition maxU ->
      (SatisfiedExpectations (getStatefulSetKey (set_meta set')) (rev_Name updRev) cache).1 = true ->
      reconcile pods (callsOf set' curRev collisionCount pods revisions w cache).

(** A reconcile, the cluster that carries out its calls, and the pods that come up. *)
Definition round (pods pods' : list Pod) : Prop :=
  exists cs raw, reconcile pods cs /\ answered cs pods raw /\ comeUp set raw pods'.

Lemma reconcile_advance pods cs :
  orderly set pods -> reconcile pods cs -> advance set updRev n partition True pods cs.
Proof.
  intros Hord Hrec. destruct Hrec as [set' cur upd curRev maxU w cache c revisions Hset Hro Hsat].
  destruct (rollout_run set' cur upd curRev updRev n partition maxU pods revisions Hro
              (orderly_same set set' pods Hset Hord) c ((w, []), cache) Hsat) as (cs' & E & Had & _).
  assert (callsOf set' curRev c pods revisions w cache = cs') as -> by apply E.
  by eapply advance_same.
Qed.

(** C2: Convergence, in either management mode: from any orderly pods, however many are
    missing, left over or outdated, as many rounds as two per outdated pod and one per
    missing or extra one reach the goal: exactly the ordinals below [replicas], each with
    one steady member, from the partition up at the update revision. The rounds may be of
    different versions of the set, as its status and current revision change. The goal is
    not left, and a reconcile there makes no call. *)
Theorem rollout_converges (states : nat -> list Pod) :
  orderly set (states 0%nat) ->
  (forall k, round (states k) (states (S k))) ->
  forall k, (distance updRev n partition (places (states 0%nat)) <= k)%nat ->
    orderly set (states k) /\ rolledOut updRev n partition (states k)
    /\ forall cs, reconcile (states k) cs -> cs = [].
Proof.
  intros Hord Hround k Hk.
  destruct (advanced_converges set updRev n partition states (fun _ => true) Hord) with (k := k)
    as [Hko Hr].
  { intros j Hj. destruct (Hround j) as (cs & raw & Hcs & ? & ?). exists cs, raw.
    split; [|done]. destruct (reconcile_advance _ _ Hj Hcs) as [? Hne]. split; [done|]. by auto. }
  rewrite wellSteps_all in Hr.
  split_and!; [done|by apply Hr|]. intros cs Hcs.
  eapply advance_settled; [done|by apply Hr|by apply reconcile_advance].
Qed.
End Rounds.
