(* ===== verification/InPlaceRollout.v ===== *)
(** A rolling update in place: when all the pods of a set are there and its revisions differ
    in what can be changed in place, reconciles one after the other bring every pod to the
    update revision without deleting any. *)

From S2P Require Import Prelude Objects GoString Libraries Coordinate Cluster Fixtures Naming.
From S2P Require Import Expectations PodIdentity SetStatus InPlace Interfaces Revisions.
From S2P Require Import CallLog Control LoopInvariants ControlCalls ControlSafety NoPanic.
From S2P Require Import Convergence Rollout.

(** A pod control whose in-place calls succeed; a status write leaves what is [kept], and the
    spec. *)
Class ReliableInPlace (W : Type) `{StatefulPodControl W} := {
  condition_succeeds set pod c w : exists pod' w',
    UpdateStatefulPodCondition set pod c w = (Ok (None, pod'), w')
    /\ kept pod' = kept pod /\ pod_Spec pod' = pod_Spec pod;
  inPlace_succeeds set pod spec w : exists w', InPlaceUpdateStatefulPod set pod spec w = (Ok None, w');
}.

(** The conditions the loop sets before an update and after it. *)
Definition updateStarts : PodCondition :=
  mkPodCondition StatefulSetInPlaceUpdateReady ConditionFalse "StartInPlaceUpdate" "".
Definition updateEnds : PodCondition :=
  mkPodCondition StatefulSetInPlaceUpdateReady ConditionTrue "" "".

(** A pod that some of the calls rewrite. *)
Definition rewritten (cs : list PodCall) (pod : Pod) : Prop :=
  exists q spec, InPlaceCall q spec ∈ cs /\ Name (pod_meta q) = Name (pod_meta pod).

(** No condition of a pod is set once it has been rewritten. *)
Definition notConditioned (pod : Pod) (c : PodCall) : Prop :=
  match c with ConditionCall p _ => Name (pod_meta p) <> Name (pod_meta pod) | _ => True end.
Fixpoint inOrder (cs : list PodCall) : Prop :=
  match cs with
  | [] => True
  | InPlaceCall q _ :: cs' => Forall (notConditioned q) cs' /\ inOrder cs'
  | _ :: cs' => inOrder cs'
  end.
#[export] Instance notConditioned_dec pod c : Decision (notConditioned pod c).
Proof. destruct c; apply _. Defined.
#[export] Instance inOrder_dec cs : Decision (inOrder cs).
Proof. induction cs as [|[] cs IH]; cbn; apply _. Defined.

Lemma rewritten_app cs cs' pod : rewritten (cs ++ cs') pod <-> rewritten cs pod \/ rewritten cs' pod.
Proof. unfold rewritten. setoid_rewrite elem_of_app. naive_solver. Qed.
Lemma rewritten_cons c cs pod : rewritten (c :: cs) pod <-> rewritten [c] pod \/ rewritten cs pod.
Proof. apply (rewritten_app [c]). Qed.
Lemma inOrder_app cs cs' :
  inOrder (cs ++ cs') <->
  inOrder cs /\ inOrder cs' /\ forall pod c, ConditionCall pod c ∈ cs' -> ~ rewritten cs pod.
Proof.
  induction cs as [|c cs IH]; cbn.
  { split; [|tauto]. intros Ho. split_and!; [done..|]. by intros pod c _ (q & spec & ?%not_elem_of_nil & _). }
  assert (Hquiet : (forall q spec, c <> InPlaceCall q spec) -> forall pod, rewritten (c :: cs) pod <-> rewritten cs pod).
  { intros Hno pod. rewrite rewritten_cons. split; [|by right].
    intros [(q & spec & <-%list_elem_of_singleton & _)|]; [by edestruct Hno|done]. }
  destruct c as [| |q spec| |]; try (rewrite IH; setoid_rewrite Hquiet; done).
  rewrite Forall_app, IH. setoid_rewrite rewritten_cons.
  assert (Hone : Forall (notConditioned q) cs' <-> forall pod c, ConditionCall pod c ∈ cs' -> ~ rewritten [InPlaceCall q spec] pod).
  { rewrite list.Forall_forall. split.
    - intros Hall pod c Hc (q' & spec' & [= -> ->]%list_elem_of_singleton & E). by apply (Hall _ Hc).
    - intros Hall c Hc. destruct c as [| | |pod c|]; try done. intros E.
      apply (Hall pod c Hc). exists q, spec. split; [by left|done]. }
  rewrite Hone. clear. naive_solver.
Qed.
Lemma inOrder_quiet cs : (forall q spec, InPlaceCall q spec ∉ cs) -> inOrder cs.
Proof.
  induction cs as [|c cs IH]; intros Hno; [done|].
  assert (Hcs : inOrder cs) by (apply IH; intros q spec Hq; apply (Hno q spec); by right).
  destruct c as [| |q spec| |]; try done. destruct (Hno q spec). by left.
Qed.

(** A pod whose update has completed and that is to be marked ready. *)
Definition unmarkedPod `{KubeLib, Json InPlaceUpdateState} (set : StatefulSet) (pod : Pod) : Prop :=
  isCreated pod = true /\ isFailed pod = false /\ isTerminating pod = false
  /\ shouldUpdateInPlaceReady pod = true
  /\ identityMatches set pod = true /\ storageMatches set pod = true.

(** ** One reconcile *)

Section Pass.
Context {W : Type} `{KubeLib, !KubeLibLaws, MapRange, Json Coordinates, PatchLib,
  Json InPlaceUpdateState}.
Context `{HistoryLib, SetCodec, SelectorLib, IntStrLib, GoSort, !GoSortLaws, ErrorText}.
Context `{Recorder W, Clock W, ReliableInPlace W}.
Context (set cur upd : StatefulSet) (curRev updRev : ControllerRevision).
Context (revisions : list ControllerRevision).
Notation T := (W * list PodCall)%type.

Lemma emits_condition pod c (Q : Outcome (option Err * Pod) -> list PodCall -> Prop) :
  (forall pod', kept pod' = kept pod -> pod_Spec pod' = pod_Spec pod ->
     Q (Ok (None, pod')) [ConditionCall pod c]) ->
  emits (State := World T) (api (UpdateStatefulPodCondition set pod c)) Q.
Proof.
  intros HQ. apply emits_logged. intros o w w' E.
  destruct (condition_succeeds set pod c w) as (pod' & w'' & E' & Hk & Hs).
  rewrite E' in E. injection E as <- <-. by apply HQ.
Qed.
Lemma emits_inPlace pod spec (Q : Outcome (option Err) -> list PodCall -> Prop) :
  Q (Ok None) [InPlaceCall pod spec] ->
  emits (State := World T) (api (InPlaceUpdateStatefulPod set pod spec)) Q.
Proof.
  intros HQ. apply emits_logged. intros o w w' E.
  destruct (inPlace_succeeds set pod spec w) as (w'' & E'). rewrite E' in E. by injection E as <- <-.
Qed.

(** A slot of a set that is being updated in place. *)
Definition stagedSlot (p : Ptr) : Prop := steadyPod set (obj p) \/ unmarkedPod set (obj p).
Definition marks (p : Ptr) : PodCall := ConditionCall (obj p) updateEnds.
Definition slotKept (p p' : Ptr) : Prop :=
  (steadyPod set (obj p) /\ p' = p) \/ (unmarkedPod set (obj p) /\ kept (obj p') = kept (obj p)).

Lemma identityMatches_labels pod pod' :
  Name (pod_meta pod') = Name (pod_meta pod) -> Namespace (pod_meta pod') = Namespace (pod_meta pod) ->
  Labels (pod_meta pod') = Labels (pod_meta pod) -> identityMatches set pod' = identityMatches set pod.
Proof.
  intros Hn Hns Hl. unfold identityMatches, label. by rewrite (parentAndOrdinal_Name pod' pod), Hn, Hns, Hl.
Qed.
Lemma kept_matches pod pod' :
  kept pod' = kept pod ->
  identityMatches set pod' = identityMatches set pod /\ storageMatches set pod' = storageMatches set pod.
Proof.
  intros Hk. pose proof (kept_ordinal _ _ Hk) as Ho. injection Hk as Hn Hns Hl _ _ _ Hv _. split.
  - by apply identityMatches_labels.
  - unfold storageMatches. by rewrite Ho, Hv.
Qed.

Lemma syncReplica_unmarked i p status :
  unmarkedPod set (obj p) ->
  emits (State := World T) (syncReplica set cur upd curRev updRev i p status) (fun o cs =>
    cs = [marks p]
    /\ match o with
       | Ok (Next (_, p')) => kept (obj p') = kept (obj p)
       | Ok (Return (_, err, _)) => err = None
       | Panic _ => False
       end).
Proof.
  intros (Hc & Hf & Ht & Hs & Hi & Hst).
  unfold syncReplica, recreateFailed, markInPlaceReady, enforceIdentity. cbv zeta. rewrite Hf.
  apply emits_fbind, emits_fret. rewrite Hc, Ht, Hs. cbn [negb andb].
  apply emits_fbind, emits_fbind, emits_run, emits_condition. intros pod' Hk _. apply emits_fret.
  cbn [obj app]. destruct (negb (isRunningAndReady pod') && _); [by apply emits_return|].
  destruct (kept_matches _ _ Hk) as [-> ->]. rewrite Hi, Hst. by apply emits_fret.
Qed.

(** The pass marks pods, one at least if there are any, and goes through if there is none. *)
Lemma syncReplicas_staged todo : forall i done status,
  Forall stagedSlot todo ->
  emits (State := World T) (syncReplicas set cur upd curRev updRev i todo done status) (fun o cs =>
    (forall c, c ∈ cs -> exists p, p ∈ todo /\ unmarkedPod set (obj p) /\ c = marks p)
    /\ (cs = [] -> Forall (fun p => steadyPod set (obj p)) todo)
    /\ match o with
       | Ok (Next (_, reps)) => exists reps', reps = done ++ reps' /\ Forall2 slotKept todo reps'
       | Ok (Return (_, err, _)) => cs <> [] /\ err = None
       | Panic _ => False
       end).
Proof.
  induction todo as [|p todo IH]; intros i done status Hall; cbn [syncReplicas].
  { apply emits_fret. split_and!; [by intros c ?%not_elem_of_nil|done|]. exists []. by rewrite app_nil_r. }
  apply list.Forall_cons in Hall as [Hp Hall]. intros w. destruct Hp as [Hst|Hun].
  - destruct (syncReplica_steady set cur upd curRev updRev i p status Hst w) as (cs & E & -> & Ho).
    destruct (syncReplica set cur upd curRev updRev i p status w) as [o w'].
    cbn in Ho, E. subst o.
    destruct (IH (i + 1) (done ++ [p]) status Hall w') as (cs & E' & Hcs & Hnil & Ho).
    exists cs. rewrite E', E, app_nil_r. split; [done|]. split_and!.
    + intros c (q & Hq & ?)%Hcs. exists q. split; [by right|done].
    + intros ->. constructor; [done|by apply Hnil].
    + destruct (syncReplicas _ _ _ _ _ (i + 1) _ _ _ w') as [[[[st reps]|[[st err] reps]]|r] w'']; [|done..].
      destruct Ho as (reps' & -> & Hrs). exists (p :: reps'). rewrite <-app_assoc.
      split; [done|]. constructor; [by left|done].
  - destruct (syncReplica_unmarked i p status Hun w) as (cs & E & -> & Ho).
    assert (Hone : forall c, c ∈ [marks p] -> exists q, q ∈ p :: todo /\ unmarkedPod set (obj q) /\ c = marks q).
    { intros c ->%list_elem_of_singleton. exists p. split; [by left|done]. }
    destruct (syncReplica set cur upd curRev updRev i p status w) as [[[[st p']|[[st err] p']]|r] w'];
      cbn in Ho, E; [| |done].
    + destruct (IH (i + 1) (done ++ [p']) st Hall w') as (cs & E' & Hcs & _ & Ho').
      exists (marks p :: cs). rewrite E', E, <-app_assoc. split; [done|]. split_and!; [|done|].
      * intros c [->|(q & Hq & ?)%Hcs]%elem_of_cons; [exists p; split; [by left|done]|].
        exists q. split; [by right|done].
      * destruct (syncReplicas _ _ _ _ _ (i + 1) _ _ _ w') as [[[[st' reps]|[[st' err] reps]]|r] w'']; [| |done].
        -- destruct Ho' as (reps' & -> & Hrs). exists (p' :: reps'). rewrite <-app_assoc.
           split; [done|]. constructor; [by right|done].
        -- by destruct Ho' as [_ ->].
    + subst err. exists [marks p]. split; [exact E|]. by split_and!.
Qed.

(** *** The update *)

Context (us : StatefulSetUpdateStrategy) (maxU : Z).
Hypothesis Hus : UpdateStrategy (set_Spec set) = Some us.

Definition planned (pod : Pod) (spec : InPlaceUpdateSpec) : Prop :=
  shouldDoInPlaceUpdate set updRev (getPodRevision pod) revisions = Ok (Some spec).
(** An outdated slot is steady and can be updated in place. *)
Definition updatable (p : Ptr) : Prop :=
  oldRevision updRev p -> steadyPod set (obj p) /\ exists spec, planned (obj p) spec.
(** The two calls of an update in place: the condition is set, and the pod rewritten. *)
Definition rewrites (p : Ptr) (cs : list PodCall) : Prop :=
  exists q spec, kept q = kept (obj p) /\ pod_Spec q = pod_Spec (obj p) /\ planned (obj p) spec
    /\ cs = [ConditionCall (obj p) updateStarts; InPlaceCall q spec].

Lemma replacePod_inPlace p status spec :
  planned (obj p) spec ->
  emits (State := World T) (replacePod set curRev updRev revisions p None status) (fun o cs =>
    rewrites p cs /\ exists st p', o = Ok (Next (st, p'))).
Proof.
  intros Hplan. unfold replacePod. unfold planned in Hplan.
  apply emits_fbind, emits_run, emits_lift. rewrite Hplan. rewrite decide_False by (by intros []).
  unfold inPlaceUpdatePod. apply emits_fbind, emits_run, emits_bind, emits_condition. intros q Hq Hs.
  apply emits_bind, emits_inPlace, emits_bind, emits_onCache, emits_ret.
  apply emits_fbind, emits_run, emits_lift. unfold isInPlaceOnly. rewrite Hus. cbn [deref mbind Outcome_bind].
  assert (Hdone : exists b, match RollingUpdate us with
    | None => Ok false
    | Some ru => Ok (bool_decide (PodUpdatePolicy ru = InPlaceOnlyPodUpdateStrategyType))
    end = Ok b) by (destruct (RollingUpdate us); eauto).
  destruct Hdone as [b ->]. apply emits_fret. split; [by exists q, spec|eauto].
Qed.

Lemma updateTarget_inPlace target s p :
  0 <= target -> us_replicas s !! Z.to_nat target = Some p -> updatable p ->
  emits (State := World T) (updateTarget set curRev updRev revisions maxU target s) (fun o cs =>
    (if decide (oldRevision updRev p) then rewrites p cs else cs = [])
    /\ match o with
       | Ok (Next s') => (exists p', us_replicas s' = <[Z.to_nat target := p']> (us_replicas s))
           /\ (steadyPod set (obj p) -> ~ oldRevision updRev p -> unavailablePods s' = unavailablePods s)
       | Ok (Return (_, err, _)) => err = None
           /\ (steadyPod set (obj p) -> ~ oldRevision updRev p ->
               maxU <= Z.of_nat (length (unavailablePods s)))
       | Panic _ => False
       end).
Proof.
  intros Ht Hp Hold w. unfold updateTarget, index. rewrite decide_True, Hp by done.
  set (m := if decide (getPodRevision (obj p) <> rev_Name updRev) then _ else _).
  assert (Hm : emits (State := World T) m (fun o cs =>
    (if decide (oldRevision updRev p) then rewrites p cs else cs = [])
    /\ exists st p', o = Ok (Next (st, p')) /\ (~ oldRevision updRev p -> p' = p))).
  { unfold m, oldRevision. destruct (decide _) as [Ho|Ho]; [|apply emits_fret; eauto].
    destruct (Hold Ho) as [(_ & -> & _ & Hcomp & _) [spec Hspec]]. rewrite Hcomp.
    eapply emits_mono; [by eapply replacePod_inPlace|]. intros o cs [Hcs (st & p' & ->)].
    split; [done|]. exists st, p'. split; [done|]. by intros []. }
  destruct (Hm w) as (cs & E & Hcs & st & p' & Ho & Hsame). exists cs.
  destruct (m w) as [o w']. cbn in E, Ho. subst o.
  set (unavailable := if decide (_ \/ _) then _ else unavailablePods s).
  assert (Hun : steadyPod set (obj p) -> ~ oldRevision updRev p -> unavailable = unavailablePods s).
  { intros (Hr & Hterm & _ & Hc & _) Hn. apply decide_False. rewrite (Hsame Hn). unfold isHealthy.
    rewrite Hr, Hterm, Hc. unfold oldRevision in Hn. by intros [?|[?|?]]. }
  clearbody unavailable. destruct (decide (Z.of_nat (length unavailable) >= maxU)) as [Hge|]; cbn;
    (split; [exact E|]); (split; [exact Hcs|]).
  - split; [done|]. intros Hst Hn. rewrite (Hun Hst Hn) in Hge. lia.
  - split; [by exists p'|exact Hun].
Qed.

(** The outdated targets that are visited, with the calls made for each. *)
Definition visitOf (reps : list Ptr) (v : Z * Ptr * list PodCall) : Prop :=
  let '(t, p, calls) := v in
  reps !! Z.to_nat t = Some p /\ oldRevision updRev p /\ rewrites p calls.
Definition visits (reps : list Ptr) (targets : list Z) (cs : list PodCall) : Prop :=
  exists vs : list (Z * Ptr * list PodCall),
    Forall (visitOf reps) vs /\ ((fun v => v.1.1) <$> vs) `sublist_of` targets
    /\ cs = vs ≫= (fun v => v.2).

(** The targets rewritten are outdated ones, and there are some when the pods of all targets
    are steady and one is outdated. *)
Lemma updateLoop_inPlace (reps : list Ptr) targets : forall s,
  NoDup targets ->
  (forall t, t ∈ targets -> 0 <= t /\ exists p, reps !! Z.to_nat t = Some p
     /\ us_replicas s !! Z.to_nat t = Some p /\ updatable p) ->
  emits (State := World T) (forLoop (updateTarget set curRev updRev revisions maxU) targets s)
    (fun o cs =>
       visits reps targets cs
       /\ (unavailablePods s = [] -> 0 < maxU ->
           (forall t p, t ∈ targets -> reps !! Z.to_nat t = Some p -> steadyPod set (obj p)) ->
           (exists t p, t ∈ targets /\ reps !! Z.to_nat t = Some p /\ oldRevision updRev p) ->
           exists q spec, InPlaceCall q spec ∈ cs)
       /\ match o with
          | Ok (Next _) => True
          | Ok (Return (_, err, _)) => err = None
          | Panic _ => False
          end).
Proof.
  induction targets as [|t targets IH]; intros s Hnd Hall; cbn [forLoop].
  { apply emits_ret. split_and!; [by exists []| |done].
    by intros _ _ _ (t & p & ?%not_elem_of_nil & _). }
  apply list.NoDup_cons in Hnd as [Hni Hnd].
  destruct (Hall t ltac:(by left)) as (Ht & p & Hp & Hsp & Hup).
  apply emits_bind. eapply emits_mono; [by apply (updateTarget_inPlace t s p)|].
  intros o cs [Hcs Ho].
  assert (Hvisit : forall cs', visits reps targets cs' -> visits reps (t :: targets) (cs ++ cs')).
  { intros cs' (vs & Hvs & Hsub & ->). destruct (decide (oldRevision updRev p)) as [Hop|]; subst.
    - exists ((t, p, cs) :: vs). split_and!; [by constructor|by apply sublist_skip|done].
    - exists vs. split_and!; [done|by apply sublist_cons|done]. }
  assert (Hne : oldRevision updRev p -> exists q spec, InPlaceCall q spec ∈ cs).
  { intros Hop. rewrite decide_True in Hcs by done. destruct Hcs as (q & spec & _ & _ & _ & ->).
    exists q, spec. right. by left. }
  destruct o as [[s'|[[st err] reps']]|r]; [| |done].
  - destruct Ho as [[p' Hr] Hun].
    eapply emits_mono; [apply (IH s' Hnd)|].
    + intros t' Ht'. destruct (Hall t' ltac:(by right)) as (Hge & q & Hq & Hsq & Huq).
      split; [done|]. exists q. split_and!; [done| |done]. rewrite Hr, list_lookup_insert_ne; [done|].
      intros E. apply Hni. by replace t with t' by lia.
    + intros o cs' (Hcs' & Hprog & Ho). split_and!; [by apply Hvisit| |done].
      intros Hnil Hmax Hst (t' & q & Ht' & Hq & Hoq). setoid_rewrite elem_of_app.
      destruct (decide (oldRevision updRev p)) as [Hop|Hop];
        [destruct (Hne Hop) as (q' & spec & ?); eauto|].
      destruct Hprog as (q' & spec & ?);
        [by rewrite Hun; [|by eapply (Hst t); [left|]|]|done| | |eauto].
      * intros t'' p'' Ht''. apply Hst. by right.
      * apply elem_of_cons in Ht' as [->|Ht']; [rewrite Hp in Hq; by injection Hq as ->|]. eauto.
  - destruct Ho as [-> Hge]. apply emits_ret.
    split_and!; [apply Hvisit; exists []; split_and!; [done|apply sublist_nil_l|done]| |done].
    rewrite app_nil_r.
    intros Hnil Hmax Hst _. destruct (decide (oldRevision updRev p)) as [Hop|Hop]; [by apply Hne|].
    rewrite Hnil in Hge. cbn in Hge. specialize (Hge (Hst t p ltac:(by left) Hp) Hop). lia.
Qed.

(** The calls of the visits, one by one. *)
Lemma visits_calls reps targets cs :
  visits reps targets cs ->
  forall c, c ∈ cs -> exists t p q spec, t ∈ targets /\ reps !! Z.to_nat t = Some p /\ oldRevision updRev p
    /\ kept q = kept (obj p) /\ pod_Spec q = pod_Spec (obj p) /\ planned (obj p) spec
    /\ (c = ConditionCall (obj p) updateStarts \/ c = InPlaceCall q spec) /\ InPlaceCall q spec ∈ cs.
Proof.
  intros (vs & Hvs & Hsub & ->) c ([[t p] calls] & Hc & Hv)%list_elem_of_bind.
  rewrite list.Forall_forall in Hvs. destruct (Hvs _ Hv) as (Hp & Hop & q & spec & Hk & Hs & Hplan & ->).
  exists t, p, q, spec. cbn in Hc. split_and!; [|done..| |].
  - eapply elem_of_submseteq; [|by apply sublist_submseteq].
    by apply (list_elem_of_fmap_2 (fun v : Z * Ptr * list PodCall => v.1.1)) in Hv.
  - apply elem_of_cons in Hc as [->|Hc]; [by left|right]. by apply list_elem_of_singleton in Hc.
  - apply list_elem_of_bind. eexists. split; [|exact Hv]. right. by left.
Qed.

Lemma visits_inOrder reps targets cs :
  NoDup targets -> (forall t p, t ∈ targets -> reps !! Z.to_nat t = Some p -> getOrdinal (obj p) = t) ->
  visits reps targets cs -> inOrder cs.
Proof.
  intros Hnd Hord (vs & Hvs & Hsub & ->). revert targets Hnd Hord Hsub.
  induction Hvs as [|[[t p] calls] vs (Hp & Hop & q & spec & Hk & Hs & Hplan & ->) Hvs IH];
    intros targets Hnd Hord Hsub; [apply inOrder_quiet; intros q spec ?%not_elem_of_nil; done|].
  rewrite fmap_cons in Hsub. cbn [fst] in Hsub.
  assert (Hin : forall t', t' ∈ t :: ((fun v => v.1.1) <$> vs) -> t' ∈ targets)
    by (intros t' Ht'; eapply elem_of_submseteq; [exact Ht'|by apply sublist_submseteq]).
  pose proof (sublist_NoDup _ _ Hnd Hsub) as [Hni Hnd']%list.NoDup_cons.
  rewrite bind_cons. apply (inOrder_app [_; _]). split_and!; [by cbn| |].
  - eapply IH; [exact Hnd'| |done]. intros t' p' Ht'. apply Hord, Hin. by right.
  - intros pod c ([[t' p'] calls'] & Hc & Hv)%list_elem_of_bind (q' & spec' & Hq' & Hname).
    rewrite list.Forall_forall in Hvs. destruct (Hvs _ Hv) as (Hp' & _ & q2 & spec2 & _ & _ & _ & ->).
    apply (list_elem_of_fmap_2 (fun v : Z * Ptr * list PodCall => v.1.1)) in Hv. cbn in Hv, Hc.
    apply elem_of_cons in Hc as [[= -> ->]|Hc]; [|by apply list_elem_of_singleton in Hc].
    apply elem_of_cons in Hq' as [?|Hq']; [done|]. apply list_elem_of_singleton in Hq' as [= -> ->].
    apply Hni. replace t with t'; [done|].
    rewrite <-(Hord t p), <-(Hord t' p') by (done || (apply Hin; (by left) || (by right))).
    rewrite <-(kept_ordinal _ _ Hk). symmetry. by apply getOrdinal_Name.
Qed.
End Pass.

(** ** A set with all its pods *)

Section Full.
Context `{KubeLib, MapRange, Json Coordinates, PatchLib, Json InPlaceUpdateState}.
Context `{HistoryLib, SetCodec, IntStrLib, GoSort, !GoSortLaws}.

Lemma fillReplicas_full cur upd curRev updRev slots : forall i,
  Forall is_Some slots -> exists replicas, fillReplicas cur upd curRev updRev i slots = Ok replicas.
Proof.
  induction slots as [|slot slots IH]; intros i; cbn [fillReplicas]; [by eexists|].
  intros [[p ->] Hall]%list.Forall_cons. cbn [mbind Outcome_bind].
  destruct (IH (i + 1) Hall) as [rest ->]. by eexists.
Qed.

(** One pod at least for every ordinal, and none beyond. *)
Definition full (n : Z) (pods : list Pod) : Prop :=
  (forall i, 0 <= i < n -> exists pod, pod ∈ pods /\ getOrdinal pod = i)
  /\ forall pod, pod ∈ pods -> getOrdinal pod < n.

Lemma full_started set cur upd curRev updRev n pods :
  ApplyRevision set curRev = Ok (inr cur) -> ApplyRevision set updRev = Ok (inr upd) ->
  spec_Replicas (set_Spec set) = Some n -> 0 <= n -> DeletionTimestamp (set_meta set) = None ->
  full n pods ->
  exists replicas, started set curRev updRev pods cur upd n replicas []
    /\ forall k p, replicas !! k = Some p -> obj p ∈ pods /\ getOrdinal (obj p) = Z.of_nat k.
Proof.
  intros Hc Hu Hn Hn0 Hdel [Hfull Hlt]. destruct (partitionPods n pods) as [slots condemned] eqn:Ep.
  pose proof (partitionPods_spec _ _ _ _ Ep) as (Hls & Hcond & Hslot).
  assert (Hsome : Forall is_Some slots).
  { apply list.Forall_forall. intros slot [j Hj]%list_elem_of_lookup.
    pose proof (lookup_lt_Some _ _ _ Hj). rewrite Hslot in Hj by lia.
    destruct (reverse _) as [|q l] eqn:El; [|by injection Hj as <-].
    destruct (Hfull (Z.of_nat j)) as (pod & Hpod & Ho); [lia|].
    rewrite <-listedPods_fmap in Hpod. apply list_elem_of_fmap in Hpod as (q & -> & Hq).
    assert (Hin : q ∈ reverse (filter (fun p => getOrdinal (obj p) = Z.of_nat j) (listedPods pods)))
      by (by rewrite elem_of_reverse, list_elem_of_filter).
    rewrite El in Hin. by apply not_elem_of_nil in Hin. }
  destruct (fillReplicas_full cur upd curRev updRev slots 0 Hsome) as [replicas Er].
  assert (Hnil : condemned = []).
  { destruct condemned as [|q l]; [done|]. assert (Hq : q ∈ q :: l) by left. rewrite Hcond in Hq.
    apply list_elem_of_filter in Hq as [Hge Hq]. apply listedPods_obj, Hlt in Hq. lia. }
  subst condemned. exists replicas. split.
  - pose proof (Started set curRev updRev pods cur upd n slots [] replicas Hc Hu Hn Hn0 Hdel) as Hst.
    assert (goSort (fun p => getOrdinal (obj p)) ([] : list Ptr) = []) as E.
    { apply Permutation_nil_r, goSort_perm. }
    rewrite Hnil in *. rewrite E in Hst. by apply Hst.
  - intros k p Hk. destruct (placement_slot _ _ _ _ _ _ _ _ _ _ _ Hn0 Ep Er Hk) as [Hkn [?|[_ Hnone]]]; [done|].
    destruct (Hfull (Z.of_nat k)) as (pod & Hpod & Ho); [lia|]. by destruct (Hnone pod Hpod).
Qed.
End Full.

(** ** The calls of a reconcile *)

Section Run.
Context {W : Type} `{KubeLib, !KubeLibLaws, MapRange, Json Coordinates, PatchLib,
  Json InPlaceUpdateState}.
Context `{HistoryLib, SetCodec, SelectorLib, IntStrLib, GoSort, !GoSortLaws, ErrorText}.
Context `{Recorder W, Clock W, ReliableInPlace W}.
Notation T := (W * list PodCall)%type.

(** A steady pod at any revision, or one that has been updated and is to be marked. *)
Definition staged (set : StatefulSet) (updRev : ControllerRevision) (pod : Pod) : Prop :=
  steadyPod set pod \/ (unmarkedPod set pod /\ getPodRevision pod = rev_Name updRev).
Definition updated (set : StatefulSet) (updRev : ControllerRevision) (partition : Z) (pods : list Pod)
  : Prop :=
  forall pod, pod ∈ pods -> steadyPod set pod
    /\ (partition <= getOrdinal pod -> getPodRevision pod = rev_Name updRev).
Definition behind (updRev : ControllerRevision) (partition : Z) (pod : Pod) : Prop :=
  partition <= getOrdinal pod /\ getPodRevision pod <> rev_Name updRev.

Context (set cur upd : StatefulSet) (curRev updRev : ControllerRevision).
Context (n partition maxU : Z) (revisions : list ControllerRevision) (pods : list Pod).

(** A set that rolls out [updRev] in place: not paused, one pod at least may be away, every
    pod that is behind can be updated in place, and an update leaves what the loop looks
    at. *)
Record inPlaceRollout : Prop := mkInPlaceRollout {
  ip_current : ApplyRevision set curRev = Ok (inr cur);
  ip_update : ApplyRevision set updRev = Ok (inr upd);
  ip_alive : DeletionTimestamp (set_meta set) = None;
  ip_replicas : spec_Replicas (set_Spec set) = Some n;
  ip_count : 0 <= n <= MaxInt32;
  ip_strategy : exists us, UpdateStrategy (set_Spec set) = Some us
    /\ us_Type us <> OnDeleteStatefulSetStrategyType
    /\ updateBounds us n = Ok (inr (Some (partition, maxU)));
  ip_bounds : 0 <= partition /\ 0 < maxU;
  ip_planned pod : pod ∈ pods -> behind updRev partition pod ->
    exists spec, planned set updRev revisions pod spec;
  ip_patches name spec pod pod' :
    shouldDoInPlaceUpdate set updRev name revisions = Ok (Some spec) ->
    applyPatches (patches spec) pod = inr pod' -> kept pod' = kept pod;
}.
Hypothesis Hip : inPlaceRollout.
Hypothesis Hstaged : Forall (staged set updRev) pods.
Hypothesis Hfull : full n pods.
Hypothesis Hnd : NoDup (getOrdinal <$> pods).

(** A pod is marked when its update has completed, and rewritten when it is behind. *)
Inductive inPlaceCall : PodCall -> Prop :=
  | MarkedReady pod : pod ∈ pods -> unmarkedPod set pod -> inPlaceCall (ConditionCall pod updateEnds)
  | MarkedUpdating pod :
      pod ∈ pods -> steadyPod set pod -> behind updRev partition pod ->
      inPlaceCall (ConditionCall pod updateStarts)
  | Rewritten pod q spec :
      pod ∈ pods -> steadyPod set pod -> behind updRev partition pod -> kept q = kept pod ->
      pod_Spec q = pod_Spec pod -> planned set updRev revisions pod spec -> inPlaceCall (InPlaceCall q spec).
Definition moves (c : PodCall) : Prop :=
  match c with
  | ConditionCall _ c => c = updateEnds
  | InPlaceCall _ _ => True
  | _ => False
  end.

(** A pod marked as updating is rewritten in the same reconcile. *)
Definition followed (cs : list PodCall) : Prop :=
  forall pod, ConditionCall pod updateStarts ∈ cs ->
  exists q spec, InPlaceCall q spec ∈ cs /\ kept q = kept pod.

Definition inPlacePost (o : Outcome (option StatefulSetStatus * option Err * list Ptr))
    (cs : list PodCall) : Prop :=
  Forall inPlaceCall cs /\ (~ updated set updRev partition pods -> Exists moves cs)
  /\ followed cs /\ inOrder cs
  /\ exists st reps, o = Ok (Some st, None, reps).

Lemma slot_staged replicas :
  (forall k p, replicas !! k = Some p -> obj p ∈ pods /\ getOrdinal (obj p) = Z.of_nat k) ->
  Forall (stagedSlot set) replicas.
Proof.
  intros Hslots. apply list.Forall_forall. intros p [k Hk]%list_elem_of_lookup.
  apply Hslots in Hk as [Hp _]. rewrite list.Forall_forall in Hstaged.
  destruct (Hstaged _ Hp) as [?|[? _]]; [by left|by right].
Qed.

(** The targets after the pass: slots at the update revision, or steady ones that can be
    updated. *)
Lemma targets_updatable replicas reps :
  length replicas = Z.to_nat n ->
  (forall k p, replicas !! k = Some p -> obj p ∈ pods /\ getOrdinal (obj p) = Z.of_nat k) ->
  Forall2 (slotKept set) replicas reps ->
  forall t, t ∈ updateTargets reps partition -> 0 <= t /\ exists p, reps !! Z.to_nat t = Some p
    /\ updatable set updRev revisions p
    /\ (oldRevision updRev p -> obj p ∈ pods /\ steadyPod set (obj p) /\ behind updRev partition (obj p))
    /\ getOrdinal (obj p) = t.
Proof.
  intros Hlen Hslots Hall t Ht%elem_of_updateTargets. destruct (ip_bounds Hip) as [Hp0 _].
  split; [lia|]. destruct (lookup_lt_is_Some_2 reps (Z.to_nat t)) as [p Hp]; [lia|].
  exists p. split; [done|].
  destruct (list.Forall2_lookup_r _ _ _ _ _ Hall Hp) as (p0 & Hk & Hs).
  destruct (Hslots _ _ Hk) as [Hin Ho]. rewrite list.Forall_forall in Hstaged.
  assert (Hold : oldRevision updRev p -> obj p ∈ pods /\ steadyPod set (obj p) /\ behind updRev partition (obj p)).
  { intros Hop. destruct Hs as [[Hst ->]|[Hun Hkept]].
    - split_and!; [done|done|]. split; [lia|done].
    - destruct Hop. rewrite (kept_revision _ _ Hkept).
      destruct (Hstaged _ Hin) as [(_ & _ & Hno & _)|[_ ?]]; [|done].
      destruct Hun as (_ & _ & _ & Hyes & _). congruence. }
  split_and!; [|done|].
  - intros Hop. destruct (Hold Hop) as (? & ? & ?). split; [done|]. by apply (ip_planned Hip).
  - destruct Hs as [[_ ->]|[_ Hkept]]; [lia|]. rewrite (kept_ordinal _ _ Hkept). lia.
Qed.

(** The pods are the slots. *)
Lemma all_updated replicas :
  length replicas = Z.to_nat n ->
  (forall k p, replicas !! k = Some p -> obj p ∈ pods /\ getOrdinal (obj p) = Z.of_nat k) ->
  (forall p, p ∈ replicas -> steadyPod set (obj p)) ->
  (forall t p, t ∈ updateTargets replicas partition -> replicas !! Z.to_nat t = Some p ->
     ~ oldRevision updRev p) ->
  updated set updRev partition pods.
Proof.
  intros Hlen Hslots Hsteady Hnone pod Hpod.
  assert (Ho : 0 <= getOrdinal pod < n).
  { split; [|by apply Hfull]. rewrite list.Forall_forall in Hstaged. apply (identity_ordinal set).
    by destruct (Hstaged _ Hpod) as [(_ & _ & _ & _ & ? & _)|[(_ & _ & _ & _ & ? & _) _]]. }
  destruct (lookup_lt_is_Some_2 replicas (Z.to_nat (getOrdinal pod))) as [p Hp]; [lia|].
  destruct (Hslots _ _ Hp) as [Hin Hord].
  assert (obj p = pod) as <- by (apply (ordinals_inj pods); [done..|lia]).
  split; [apply Hsteady; by eapply list_elem_of_lookup_2|]. intros Hge.
  destruct (decide (oldRevision updRev p)) as [Hop|Hop]; [|by apply dec_stable].
  destruct (Hnone (getOrdinal (obj p)) p); [|done..].
  apply elem_of_updateTargets. rewrite Hlen. lia.
Qed.

(** Steady slots are not touched by the pass before. *)
Lemma slotKept_steady replicas reps :
  Forall2 (slotKept set) replicas reps -> Forall (fun p => steadyPod set (obj p)) replicas ->
  reps = replicas.
Proof.
  intros Hall Hsteady. rewrite list.Forall_forall in Hsteady.
  induction Hall as [|p p' l l' Hs Hall IH]; [done|]. f_equal.
  - destruct Hs as [[_ ->]|[(_ & _ & _ & Hyes & _) _]]; [done|].
    destruct (Hsteady p ltac:(by left)) as (_ & _ & Hno & _). congruence.
  - apply IH. intros q Hq. apply Hsteady. by right.
Qed.

Lemma updateReplicas_inPlace replicas reps status before :
  length replicas = Z.to_nat n ->
  (forall k p, replicas !! k = Some p -> obj p ∈ pods /\ getOrdinal (obj p) = Z.of_nat k) ->
  Forall2 (slotKept set) replicas reps ->
  Forall inPlaceCall before ->
  (before = [] -> Forall (fun p => steadyPod set (obj p)) replicas) ->
  (before <> [] -> Exists moves before) ->
  Forall (fun c => exists pod, c = ConditionCall pod updateEnds) before ->
  emitsIn (State := World T) (expectNothing set updRev)
    (updateReplicas set curRev updRev revisions n reps status)
    (fun o cs => match o with
       | Ok (Next (st, err, reps')) | Ok (Return (st, err, reps')) =>
           inPlacePost (Ok (Some st, err, reps')) (before ++ cs)
       | Panic r => False
       end).
Proof.
  intros Hlen Hslots Hall Hbefore Hnil Hmoves Hmarks.
  pose proof (targets_updatable replicas reps Hlen Hslots Hall) as Htargets.
  destruct (ip_strategy Hip) as (us & Hus & Htype & Hb). destruct (ip_bounds Hip) as [Hp0 Hmax].
  apply (updateReplicas_loop set curRev updRev n revisions us partition maxU); [done..|].
  eapply emits_mono.
  { apply (updateLoop_inPlace set curRev updRev revisions us maxU Hus reps); [apply NoDup_updateTargets|].
    intros t Ht. destruct (Htargets t Ht) as (? & p & ? & ? & _). eauto 10. }
  intros o cs (Hvisits & Hprog & Ho). pose proof (visits_calls set updRev revisions _ _ _ Hvisits) as Hcs.
  rewrite list.Forall_forall in Hmarks.
  assert (Hcalls : Forall inPlaceCall (before ++ cs)).
  { apply Forall_app. split; [done|]. apply list.Forall_forall. intros c Hc.
    destruct (Hcs c Hc) as (t & p & q & spec & Ht & Hp & Hop & Hq & Hs & Hplan & Hcall & _).
    destruct (Htargets t Ht) as (_ & p' & Hp' & _ & Hold & _). rewrite Hp in Hp'. injection Hp' as <-.
    destruct (Hold Hop) as (? & ? & ?). destruct Hcall as [->| ->]; [by apply MarkedUpdating|].
    by eapply Rewritten. }
  assert (Horder : inOrder (before ++ cs)).
  { apply inOrder_app. split_and!.
    - apply inOrder_quiet. intros q spec (? & [=])%Hmarks.
    - eapply visits_inOrder; [apply NoDup_updateTargets| |exact Hvisits]. intros t p Ht Hp.
      destruct (Htargets t Ht) as (_ & p' & Hp' & _ & _ & Ho'). congruence.
    - intros pod c _ (q & spec & (? & [=])%Hmarks & _). }
  assert (Hmove : ~ updated set updRev partition pods -> Exists moves (before ++ cs)).
  { intros Hnot. apply Exists_app. destruct (decide (before = [])) as [->|]; [right|left; by apply Hmoves].
    specialize (Hnil eq_refl). pose proof (slotKept_steady _ _ Hall Hnil) as ->.
    rewrite list.Forall_forall in Hnil.
    destruct Hprog as (q & spec & Hin); [done|done|..].
    - intros t p _ Hp. apply Hnil. by eapply list_elem_of_lookup_2.
    - destruct (decide (Exists (oldRevision updRev)
        (omap (fun t => replicas !! Z.to_nat t) (updateTargets replicas partition)))) as [Hex|Hno].
      { apply list.Exists_exists in Hex as (p & (t & Ht & Hp)%list_elem_of_omap & Hop). eauto. }
      destruct Hnot. apply (all_updated replicas); [done..|].
      intros t p Ht Hp Hop. apply Hno, list.Exists_exists. exists p. split; [|done].
      apply list_elem_of_omap. by exists t.
    - apply list.Exists_exists. by exists (InPlaceCall q spec). }
  assert (Hfollowed : followed (before ++ cs)).
  { unfold followed. setoid_rewrite elem_of_app. intros pod [(? & [=])%Hmarks|Hc].
    destruct (Hcs _ Hc) as (t & p & q & spec & _ & _ & _ & Hq & _ & _ & [[= ->]|[=]] & Hin).
    exists q, spec. split; [by right|done]. }
  unfold inPlacePost. destruct o as [[s|[[st err] reps']]|r]; [| |done]; subst; eauto 20.
Qed.

Lemma inPlace_run collisionCount :
  emitsIn (State := World T) (expectNothing set updRev)
    (updateStatefulSet set curRev updRev collisionCount pods revisions) inPlacePost.
Proof.
  destruct (full_started set cur upd curRev updRev n pods) as (replicas & Hst & Hslots);
    [apply Hip..|done|].
  pose proof (started_length _ _ _ _ _ _ _ _ _ Hst) as (Hlen & Hn0 & _).
  apply (started_run set cur upd curRev updRev n pods revisions replicas []); [done|].
  unfold syncSet. change (reverse []) with (@nil Ptr). rewrite app_nil_r.
  assert (Hfirst : (findUnhealthy replicas).1 > 0 -> is_Some (findUnhealthy replicas).2).
  { intros Hgt. apply findUnhealthy_found; [|left; lia].
    intros p [k Hk]%list_elem_of_lookup _. destruct (Hslots _ _ Hk) as [_ ->].
    pose proof (ip_count Hip). apply lookup_lt_Some in Hk. lia. }
  destruct (findUnhealthy replicas) as [unhealthy first]. cbn [fst snd] in Hfirst.
  apply emitsIn_flift.
  assert ((if decide (unhealthy > 0) then (_ ← deref first; Ok tt) else Ok tt) = Ok tt) as ->.
  { case_decide as Hd; [|done]. by destruct (Hfirst Hd) as [q ->]. }
  rewrite decide_False by (rewrite (ip_alive Hip); by intros []).
  apply emitsIn_fbind; [apply syncReplicas_preserves, expectNothing_stable|].
  eapply emits_mono; [by apply syncReplicas_staged, slot_staged|]. intros o cs (Hcs & Hnil & Ho).
  assert (Hcalls : Forall inPlaceCall cs).
  { apply list.Forall_forall. intros c (p & [k Hk]%list_elem_of_lookup & Hun & ->)%Hcs.
    apply MarkedReady; [by eapply Hslots|done]. }
  assert (Hmoves : cs <> [] -> Exists moves cs).
  { destruct cs as [|c cs]; [done|]. intros _. left.
    by destruct (Hcs c ltac:(by left)) as (p & _ & _ & ->). }
  assert (Hmarks : Forall (fun c => exists pod, c = ConditionCall pod updateEnds) cs).
  { apply list.Forall_forall. intros c (p & _ & _ & ->)%Hcs. by eexists. }
  destruct o as [[[st reps]|[[st err] reps]]|r]; [| |done].
  - destruct Ho as (reps' & -> & Hall). cbn [app].
    apply emitsIn_fbind; [apply terminate_preserves, expectNothing_stable|].
    change (reverse []) with (@nil Ptr). cbn [forLoop]. apply emits_ret.
    eapply emitsIn_mono; [by apply (updateReplicas_inPlace replicas reps' st cs)|].
    intros o cs' HQ. cbn [app]. by destruct o as [[[[? ?] ?]|[[? ?] ?]]|].
  - destruct Ho as [Hne ->]. rewrite list.Forall_forall in Hmarks. split_and!; [done|by auto| | |eauto].
    + intros pod (? & [=])%Hmarks.
    + apply inOrder_quiet. intros q spec (? & [=])%Hmarks.
Qed.
End Run.

(** ** What is expected afterwards *)

Section Expected.
Context {W : Type} `{KubeLib, MapRange, Json Coordinates, PatchLib, Json InPlaceUpdateState}.
Context `{HistoryLib, SetCodec, SelectorLib, IntStrLib, GoSort, ErrorText}.
Context `{Recorder W, Clock W, StatefulPodControl W}.
Context (set : StatefulSet) (updRev : ControllerRevision).
Notation T := (W * list PodCall)%type.
Notation awaits := (Expectations.pending (getStatefulSetKey (set_meta set)) (rev_Name updRev)).

(** Only pods rewritten in place are awaited. *)
Definition accounted (s : World T) : Prop :=
  forall key, key ∈ awaits s.2 ->
  exists q spec, InPlaceCall q spec ∈ s.1.2 /\ getKey (pod_meta q) = key.

Lemma logged_accounted {A} c (m : M W A) : preserves accounted (api (logged c m)).
Proof.
  intros [[w log] cache] Hs. unfold api, logged. destruct (m w) as [o w'].
  intros key (q & spec & Hq & ?)%Hs. exists q, spec. split; [|done]. apply elem_of_app. by left.
Qed.

Lemma loop_accounted curRev collisionCount pods revisions :
  preserves accounted (updateStatefulSet (W := T) set curRev updRev collisionCount pods revisions).
Proof.
  apply updateStatefulSet_preserves.
  - split; intros; try apply logged_accounted.
    + by intros [[w log] cache].
    + intros [[w log] cache] Hs. unfold api, call. cbn. by destruct (Now w).
  - intros name p spec _. unfold inPlaceUpdatePod. apply preserves_bind; [apply logged_accounted|].
    intros [[e|] q]; [apply preserves_ret|].
    intros [[w log] cache] Hs. unfold mbind, M_bind, api. cbn.
    destruct (InPlaceUpdateStatefulPod set q spec w) as [[[e|]|r] w'].
    1, 3: intros key (x & sp & Hx & ?)%Hs; exists x, sp; (split; [|done]); apply elem_of_app; by left.
    intros key Hkey. cbn in Hkey |- *. unfold podExpectUpdated in Hkey. rewrite pending_expect in Hkey.
    rewrite decide_False in Hkey by auto.
    case_decide; [by apply not_elem_of_empty in Hkey|].
    apply elem_of_union in Hkey as [->%elem_of_singleton|(x & sp & Hx & ?)%Hs].
    + exists q, spec. split; [|done]. apply elem_of_app. right. by apply list_elem_of_singleton.
    + exists x, sp. split; [|done]. apply elem_of_app. by left.
Qed.

(** Observing pods at the revision ends what is awaited of them. *)
Lemma observePods_awaits pods key : forall cache,
  key ∈ awaits (observePods set updRev pods cache) ->
  key ∈ awaits cache
  /\ forall pod, pod ∈ pods -> getKey (pod_meta pod) = key -> getPodRevision pod <> rev_Name updRev.
Proof.
  unfold observePods. induction pods as [|p pods IH]; intros cache; cbn [foldl].
  { intros Hk. split; [done|]. by intros pod ?%not_elem_of_nil. }
  intros [Hk Hall]%IH. unfold podObserveUpdated in Hk. rewrite pending_observe in Hk.
  rewrite !decide_False in Hk by auto. case_decide as Hr.
  - apply elem_of_difference in Hk as [Hk Hne]. split; [done|].
    intros pod [->|Hp]%elem_of_cons E; [|by apply Hall]. destruct Hne. by apply elem_of_singleton.
  - split; [done|]. intros pod [->|Hp]%elem_of_cons E; [done|by apply Hall].
Qed.
End Expected.

(** ** The cluster *)

Section Cluster.
Context {W : Type} `{KubeLib, !KubeLibLaws, MapRange, Json Coordinates, PatchLib}.
Context `{Json InPlaceUpdateState, !JsonLaws InPlaceUpdateState}.
Context `{HistoryLib, SetCodec, SelectorLib, IntStrLib, GoSort, !GoSortLaws, ErrorText}.
Context `{Recorder W, Clock W, ReliableInPlace W}.
Context (set : StatefulSet) (updRev : ControllerRevision) (n partition : Z).
Notation T := (W * list PodCall)%type.

Definition marked (cs : list PodCall) (pod : Pod) : Prop :=
  exists q, ConditionCall q updateEnds ∈ cs /\ Name (pod_meta q) = Name (pod_meta pod).

(** The kubelet replaces the containers whose images changed: each reports an image ID that
    it did not have, and the pod comes up unless its readiness gate is still closed. *)
Record restarted (spec : InPlaceUpdateSpec) (stored pod : Pod) : Prop := mkRestarted {
  restarted_kept : kept pod = kept stored;
  restarted_images name old :
    recordStatuses (containerImages spec) (ContainerStatuses (pod_Status stored)) !! name = Some old ->
    exists c, statusOf name (ContainerStatuses (pod_Status pod)) = Some c /\ cs_ImageID c <> old;
  restarted_runs : isCreated pod = true /\ isFailed pod = false;
  restarted_ready : shouldUpdateInPlaceReady pod = false -> isRunningAndReady pod = true;
}.

(** The pods a server still has after the calls of a reconcile, and the ones it has got. *)
Definition terminated (cs : list PodCall) (pod : Pod) : Prop :=
  Exists (fun c => match c with
                   | DeleteCall q => Name (pod_meta q) = Name (pod_meta pod)
                   | _ => False
                   end) cs.
#[export] Instance terminated_dec cs pod : Decision (terminated cs pod).
Proof. unfold terminated. apply list.Exists_dec. intros []; apply _. Defined.
Definition surviving (cs : list PodCall) (pods : list Pod) : list Pod :=
  filter (fun pod => ~ terminated cs pod) pods.
Definition createdPods (cs : list PodCall) : list Pod :=
  omap (fun c => match c with CreateCall pod => Some pod | _ => None end) cs.

(** What becomes of such a pod: a rewritten one is stored and its containers restarted, one
    whose gate was opened gets ready, and the others stay. *)
Inductive carried (cs : list PodCall) (pod pod' : Pod) : Prop :=
  | CarriedUpdate q spec now stored :
      InPlaceCall q spec ∈ cs -> Name (pod_meta q) = Name (pod_meta pod) ->
      podInPlaceUpdate now q spec = Ok (inr stored) -> restarted spec stored pod' ->
      carried cs pod pod'
  | CarriedMark :
      ~ rewritten cs pod -> marked cs pod -> kept pod' = kept pod ->
      isRunningAndReady pod' = true -> shouldUpdateInPlaceReady pod' = false ->
      checkInPlaceUpdateCompleted pod' = None -> carried cs pod pod'
  | CarriedRest :
      ~ rewritten cs pod -> ~ marked cs pod -> kept pod' = kept pod ->
      (steadyPod set pod -> steadyPod set pod') -> (unmarkedPod set pod -> unmarkedPod set pod') ->
      carried cs pod pod'.

(** How many rounds a pod is away from being updated. *)
#[export] Instance behind_dec pod : Decision (behind updRev partition pod).
Proof. unfold behind. apply _. Defined.
Definition toGo (pod : Pod) : nat :=
  if decide (behind updRev partition pod) then 2 else if shouldUpdateInPlaceReady pod then 1 else 0.
Definition inPlaceDistance (pods : list Pod) : nat := sum_list_with toGo pods.

(** A call of such a rollout, whichever version of the set made it. *)
Definition moveCall (pods : list Pod) (c : PodCall) : Prop :=
  match c with
  | ConditionCall pod c =>
      (c = updateEnds /\ pod ∈ pods /\ unmarkedPod set pod)
      \/ (c = updateStarts /\ pod ∈ pods /\ behind updRev partition pod)
  | InPlaceCall q spec =>
      spec_revision spec = rev_Name updRev
      /\ (forall p p', applyPatches (patches spec) p = inr p' -> kept p' = kept p)
      /\ exists pod, pod ∈ pods /\ steadyPod set pod /\ behind updRev partition pod /\ kept q = kept pod
  | _ => False
  end.

(** Such calls leave every pod, and bring no other. *)
Lemma moves_survive pods cs :
  Forall (moveCall pods) cs ->
  surviving cs pods = pods /\ createdPods cs = []
  /\ forall pod, (CreateCall pod ∉ cs) /\ (DeleteCall pod ∉ cs).
Proof.
  intros Hcs. rewrite list.Forall_forall in Hcs. split_and!.
  - unfold surviving. generalize pods at 1 2. intros l.
    induction l as [|p l IH]; [done|]. rewrite filter_cons, IH, decide_True; [done|].
    intros ([] & Hc & Hd)%list.Exists_exists; try done. by apply (Hcs _ Hc).
  - unfold createdPods. destruct (omap _ cs) as [|pod l] eqn:E; [done|].
    assert (Hin : pod ∈ pod :: l) by by left. rewrite <-E in Hin.
    apply list_elem_of_omap in Hin as ([] & Hc & Heq); try done. by apply Hcs in Hc.
  - intros pod. split; intros Hc; by apply Hcs in Hc.
Qed.

Lemma rewritten_staged spec now q stored pod pod' :
  spec_revision spec = rev_Name updRev ->
  (forall p p', applyPatches (patches spec) p = inr p' -> kept p' = kept p) ->
  kept q = kept pod -> steadyPod set pod ->
  podInPlaceUpdate now q spec = Ok (inr stored) -> restarted spec stored pod' ->
  staged set updRev pod' /\ getPodRevision pod' = rev_Name updRev
  /\ Name (pod_meta pod') = Name (pod_meta pod) /\ Namespace (pod_meta pod') = Namespace (pod_meta pod).
Proof.
  intros Hrev Hpatch Hq (_ & Hterm & _ & _ & Hid & Hst) Hup [Hk Himages [Hc Hf] Hready].
  unfold podInPlaceUpdate in Hup. destruct (applyPatches (patches spec) q) as [e|p] eqn:Ea; [done|].
  apply Hpatch in Ea. rewrite Hq in Ea. destruct (decide _) in Hup; [done|].
  set (st := mkInPlaceState _ _ _) in Hup. injection Hup as <-.
  destruct (kept_matches set _ _ Ea) as [Hid' Hst']. destruct (kept_matches set _ _ Hk) as [Hid2 Hst2].
  assert (Hrev' : getPodRevision pod' = rev_Name updRev).
  { rewrite (kept_revision _ _ Hk), <-Hrev. apply getPodRevision_set. }
  assert (Hcheck : checkInPlaceUpdateCompleted pod' = None).
  { apply (checkInPlaceUpdateCompleted_spec pod' (marshal st) st).
    - injection Hk as _ _ _ -> _ _ _ _. cbn. apply lookup_insert_eq.
    - apply unmarshal_marshal.
    - split; [by rewrite Hrev'|exact Himages]. }
  assert (Hall : identityMatches set pod' = true /\ storageMatches set pod' = true
    /\ isTerminating pod' = false).
  { split_and!.
    - rewrite Hid2, <-Hid, <-Hid', <-(identityMatches_setPodRevision set p (spec_revision spec)).
      by apply identityMatches_labels.
    - rewrite Hst2, <-Hst, <-Hst'. unfold storageMatches. cbn.
      by rewrite (getOrdinal_Name _ p).
    - rewrite <-Hterm. injection Hk as _ _ _ _ Hd _ _ _. injection Ea as _ _ _ _ Hd' _ _ _.
      unfold isTerminating. rewrite Hd. cbn. by rewrite Hd'. }
  destruct Hall as (Hi & Hs & Ht). split_and!; [|done| |].
  - destruct (shouldUpdateInPlaceReady pod') eqn:Es.
    + right. by split_and!.
    + left. split_and!; try done. by apply Hready.
  - injection Hk as -> _. injection Ea as <- _. done.
  - injection Hk as _ -> _. injection Ea as _ <- _. done.
Qed.

(** Pods of the set are told apart by their names. *)
Definition apart (pods : list Pod) : Prop := NoDup (getOrdinal <$> pods).

Lemma same_pod pods pod pod' :
  apart pods -> pod ∈ pods -> pod' ∈ pods -> Name (pod_meta pod) = Name (pod_meta pod') -> pod = pod'.
Proof. intros Hnd Hp Hp' E. apply (ordinals_inj pods); [done..|]. by apply getOrdinal_Name. Qed.

(** What a round makes of one pod: it is staged again under its name, and no further from
    the update revision; closer, if a call moved it. *)
Record stepped (cs : list PodCall) (pod pod' : Pod) : Prop := mkStepped {
  step_staged : staged set updRev pod';
  step_name : Name (pod_meta pod') = Name (pod_meta pod);
  step_key : getKey (pod_meta pod') = getKey (pod_meta pod);
  step_toGo : (toGo pod' <= toGo pod)%nat;
  step_moves : rewritten cs pod \/ marked cs pod -> (toGo pod' < toGo pod)%nat;
  step_revision : rewritten cs pod \/ getPodRevision pod = rev_Name updRev ->
    getPodRevision pod' = rev_Name updRev;
}.

Lemma carried_step pods cs pod pod' :
  Forall (staged set updRev) pods -> apart pods -> Forall (moveCall pods) cs ->
  pod ∈ pods -> carried cs pod pod' -> stepped cs pod pod'.
Proof.
  intros Hstaged Hnd Hcs Hpod Hcar. rewrite list.Forall_forall in Hstaged. rewrite list.Forall_forall in Hcs.
  assert (Hgone : forall p, getPodRevision p = rev_Name updRev -> ~ behind updRev partition p)
    by (intros p Hp [_ Hne]; done).
  assert (Hkey : forall p p' : Pod, Name (pod_meta p') = Name (pod_meta p) ->
    Namespace (pod_meta p') = Namespace (pod_meta p) -> getKey (pod_meta p') = getKey (pod_meta p))
    by (unfold getKey; congruence).
  destruct Hcar as [q spec now stored Hin Hname Hup Hre|Hnr [q [Hin Hname]] Hk Hr Hs Hc|Hnr Hnm Hk Hsteady Hun].
  - destruct (Hcs _ Hin) as (Hrev & Hpatch & pod0 & Hp0 & Hst & Hbehind & Hq).
    assert (pod0 = pod) as ->.
    { apply (same_pod pods); [done..|]. injection Hq as Hn _. congruence. }
    destruct (rewritten_staged spec now q stored pod pod') as (Hstg & Hr & Hn & Hns); [done..|].
    assert (toGo pod = 2%nat) as Hto by (unfold toGo; by rewrite decide_True).
    assert (toGo pod' <= 1)%nat as Hto'.
    { unfold toGo. rewrite decide_False by by apply Hgone. destruct (shouldUpdateInPlaceReady pod'); lia. }
    split; [done|done|by apply Hkey|lia|lia|done].
  - destruct (Hcs _ Hin) as [(_ & Hq & Hun)|[E _]]; [|done].
    assert (q = pod) as -> by by apply (same_pod pods).
    pose proof (kept_revision _ _ Hk) as Hrev. destruct (kept_matches set _ _ Hk) as [Hi Hst].
    destruct (Hstaged _ Hpod) as [(_ & _ & Hno & _)|[_ Hupd]].
    { destruct Hun as (_ & _ & _ & Hyes & _). congruence. }
    destruct Hun as (_ & _ & Ht & Hyes & Hid & Hsm). pose proof Hk as Hk'. injection Hk' as Hn Hns _ _ Hd _ _ _.
    assert (toGo pod = 1%nat /\ toGo pod' = 0%nat) as [Hto Hto'].
    { unfold toGo. rewrite !decide_False by (apply Hgone; congruence). by rewrite Hyes, Hs. }
    split; [|done|by apply Hkey|lia|lia|congruence]. left. unfold steadyPod. rewrite Hi, Hst.
    split_and!; try done. unfold isTerminating. by rewrite Hd.
  - pose proof (kept_revision _ _ Hk) as Hrev. pose proof (kept_ordinal _ _ Hk) as Ho.
    injection Hk as Hn Hns _.
    assert (Hsame : toGo pod' = toGo pod).
    { assert (Hb : behind updRev partition pod' <-> behind updRev partition pod)
        by (unfold behind; by rewrite Ho, Hrev).
      unfold toGo. rewrite (decide_ext _ _ _ _ Hb).
      destruct (Hstaged _ Hpod) as [Hst|[Hu _]].
      - pose proof (Hsteady Hst) as (_ & _ & -> & _). by destruct Hst as (_ & _ & -> & _).
      - pose proof (Hun Hu) as (_ & _ & _ & -> & _). by destruct Hu as (_ & _ & _ & -> & _). }
    split; [|done|by apply Hkey|lia|by intros [?|?]|intros [?|?]; [done|congruence]].
    destruct (Hstaged _ Hpod) as [Hst|[Hu Hr]]; [left; by apply Hsteady|right; split; [by apply Hun|congruence]].
Qed.

(** *** Rounds *)

Notation awaits := (Expectations.pending (getStatefulSetKey (set_meta set)) (rev_Name updRev)).

(** A reconcile of some version of the set, after it has observed the pods; its calls, and
    the expectations it leaves. *)
Inductive inPlaceReconcile (pods : list Pod) (cache : controllerCache)
  : list PodCall -> controllerCache -> Prop :=
  | InPlaceReconciled set' cur upd curRev maxU revisions w collisionCount :
      sameSet set set' ->
      inPlaceRollout set' cur upd curRev updRev n partition maxU revisions pods ->
      let s := (updateStatefulSet (W := T) set' curRev updRev collisionCount pods revisions
                  ((w, []), observePods set' updRev pods cache)).2 in
      inPlaceReconcile pods cache s.1.2 s.2.

(** A reconcile, the server and the kubelet that carry out its calls, whatever they are: a
    deleted pod is gone, a created one is there, and the others are carried on. *)
Definition inPlaceRound (s s' : list Pod * controllerCache) : Prop :=
  exists cs l, inPlaceReconcile s.1 s.2 cs s'.2
    /\ Forall2 (carried cs) (surviving cs s.1) l /\ s'.1 ≡ₚ l ++ createdPods cs.

(** The state between rounds: every pod is there and staged, and an update is awaited only of
    pods that have it. *)
Record inPlaceReady (s : list Pod * controllerCache) : Prop := mkInPlaceReady {
  ipr_staged : Forall (staged set updRev) s.1;
  ipr_apart : apart s.1;
  ipr_full : full n s.1;
  ipr_awaits key : key ∈ awaits s.2 ->
    exists pod, pod ∈ s.1 /\ getKey (pod_meta pod) = key /\ getPodRevision pod = rev_Name updRev;
}.

Lemma staged_same set' pod : sameSet set set' -> staged set' updRev pod <-> staged set updRev pod.
Proof.
  intros Hset. unfold staged, steadyPod, unmarkedPod.
  by rewrite (identityMatches_same set set'), (storageMatches_same set set').
Qed.

Lemma updated_same set' pods :
  sameSet set set' -> updated set' updRev partition pods <-> updated set updRev partition pods.
Proof.
  intros Hset. unfold updated, steadyPod.
  split; intros Hall pod Hp; specialize (Hall pod Hp);
    by rewrite (identityMatches_same set set'), (storageMatches_same set set') in *.
Qed.

(** The calls a reconcile of some version of the set makes. *)
Lemma call_moves set' cur upd curRev maxU revisions pods c :
  sameSet set set' -> inPlaceRollout set' cur upd curRev updRev n partition maxU revisions pods ->
  inPlaceCall set' updRev partition revisions pods c -> moveCall pods c.
Proof.
  intros Hset Hip [pod Hp Hun|pod Hp Hst Hb|pod q spec Hp Hst Hb Hq _ Hplan].
  - left. split_and!; [done|done|]. revert Hun. unfold unmarkedPod.
    by rewrite (identityMatches_same set set'), (storageMatches_same set set').
  - right. by split_and!.
  - split; [by apply plan_sound in Hplan as [? _]|].
    split; [intros p p'; by apply (ip_patches _ _ _ _ _ _ _ _ _ _ Hip _ _ p p' Hplan)|].
    exists pod. split_and!; [done| |done..]. revert Hst. unfold steadyPod.
    by rewrite (identityMatches_same set set'), (storageMatches_same set set').
Qed.

Lemma stateKey_same set' : sameSet set set' -> getStatefulSetKey (set_meta set') = getStatefulSetKey (set_meta set).
Proof. intros (Hn & Hns & _). unfold getStatefulSetKey. by rewrite Hn, Hns. Qed.

(** Observing the pods ends all that is awaited of them. *)
Lemma observed_none set' (s : list Pod * controllerCache) pods :
  sameSet set set' -> inPlaceReady s -> s.1 ≡ₚ pods ->
  Expectations.pending (getStatefulSetKey (set_meta set')) (rev_Name updRev)
    (observePods set' updRev pods s.2) = ∅.
Proof.
  intros Hset [_ _ _ Hawaits] Hpods. apply elem_of_equiv_empty_L. intros key [Hk Hno]%observePods_awaits.
  rewrite (stateKey_same set') in Hk by done. destruct (Hawaits key Hk) as (pod & Hp & E & Hr).
  rewrite Hpods in Hp. by apply (Hno pod).
Qed.

(** The calls of a reconcile, some unless all pods are updated, and the expectations after
    it. *)
Lemma inPlaceReconcile_calls s cs cache' :
  inPlaceReady s -> inPlaceReconcile s.1 s.2 cs cache' ->
  Forall (moveCall s.1) cs /\ (~ updated set updRev partition s.1 -> Exists moves cs)
  /\ forall key, key ∈ awaits cache' -> exists q spec, InPlaceCall q spec ∈ cs /\ getKey (pod_meta q) = key.
Proof.
  intros [Hstaged Hnd Hfull Hawaits] Hrec. destruct s as [pods cache]. cbn [fst snd] in *.
  destruct Hrec as [set' cur upd curRev maxU revisions w c Hset Hip s].
  pose proof (observed_none set' (pods, cache) pods Hset
    (mkInPlaceReady (pods, cache) Hstaged Hnd Hfull Hawaits) (reflexivity _)) as Hnone. cbn in Hnone.
  destruct (inPlace_run (W := W) set' cur upd curRev updRev n partition maxU revisions pods Hip)
    with (collisionCount := c) (w := ((w, [] : list PodCall), observePods set' updRev pods cache))
    as (cs & E & Hcs & Hmove & _ & _); [|done|done|by apply Satisfied_pending|].
  { eapply Forall_impl; [|exact Hstaged]. intros pod. by apply staged_same. }
  assert (Hlog : s.1.2 = cs) by apply E. rewrite Hlog. split_and!.
  - eapply Forall_impl; [|exact Hcs]. intros c'. by eapply call_moves.
  - rewrite <-(updated_same set') by done. exact Hmove.
  - pose proof (loop_accounted set' updRev curRev c pods revisions
      ((w, []), observePods set' updRev pods cache)) as Hacc.
    intros key Hkey'. rewrite <-(stateKey_same set') in Hkey' by done. rewrite <-Hlog. apply Hacc; [|exact Hkey'].
    intros k Hk. cbn [snd] in Hk. rewrite Hnone in Hk. by apply not_elem_of_empty in Hk.
Qed.
Lemma round_steps (s : list Pod * controllerCache) cs l :
  inPlaceReady s -> Forall (moveCall s.1) cs -> Forall2 (carried cs) s.1 l ->
  Forall2 (stepped cs) s.1 l.
Proof.
  intros [Hstaged Hnd _ _] Hcs Hall. apply list.Forall2_same_length_lookup_2;
    [by eapply list.Forall2_length|].
  intros k pod pod' Hp Hp'. apply (carried_step s.1); [done..|by eapply list_elem_of_lookup_2|].
  by eapply list.Forall2_lookup_lr.
Qed.

Lemma steps_alike cs ps l :
  Forall2 (stepped cs) ps l ->
  (Name ∘ pod_meta <$> l) = (Name ∘ pod_meta <$> ps) /\ (getOrdinal <$> l) = (getOrdinal <$> ps)
  /\ Forall (staged set updRev) l
  /\ (inPlaceDistance l <= inPlaceDistance ps)%nat
  /\ (Exists (fun p => rewritten cs p \/ marked cs p) ps -> (inPlaceDistance l < inPlaceDistance ps)%nat).
Proof.
  unfold inPlaceDistance.
  induction 1 as [|p p' ps l Hs _ (Hn & Ho & Hst & IH & IH')]; cbn.
  { split_and!; [done..|constructor|lia|by intros ?%Exists_nil]. }
  pose proof (step_toGo _ _ _ Hs). split_and!; [| |constructor; [apply Hs|done]|lia|].
  - by rewrite (step_name _ _ _ Hs), Hn.
  - by rewrite (getOrdinal_Name p' p (step_name _ _ _ Hs)), Ho.
  - intros [Hm|Hm]%Exists_cons; [pose proof (step_moves _ _ _ Hs Hm); lia|]. specialize (IH' Hm). lia.
Qed.

(** Carrying out such calls keeps the pods ready for the next round, and their names; it
    brings them closer to the update revision if a call moves one. *)
Lemma carried_ready (s s' : list Pod * controllerCache) cs l :
  inPlaceReady s -> Forall (moveCall s.1) cs -> Forall2 (carried cs) s.1 l -> s'.1 ≡ₚ l ->
  (forall key, key ∈ awaits s'.2 ->
     key ∈ awaits s.2 \/ exists q spec, InPlaceCall q spec ∈ cs /\ getKey (pod_meta q) = key) ->
  inPlaceReady s' /\ (Name ∘ pod_meta <$> s'.1) ≡ₚ (Name ∘ pod_meta <$> s.1)
  /\ (inPlaceDistance s'.1 <= inPlaceDistance s.1)%nat
  /\ (Exists moves cs -> (inPlaceDistance s'.1 < inPlaceDistance s.1)%nat).
Proof.
  intros Hready Hcs Hcar Hperm Hawait. pose proof (round_steps s cs l Hready Hcs Hcar) as Hall. clear Hcar.
  pose proof Hready as [Hstaged Hnd [Hfull Hlt] Hawaits].
  destruct (steps_alike cs s.1 l Hall) as (Hnames & Hords & Hstaged' & Hle & Hless).
  assert (Hback : forall pod, pod ∈ s.1 -> exists pod', pod' ∈ s'.1 /\ stepped cs pod pod').
  { intros pod [k Hk]%list_elem_of_lookup.
    destruct (list.Forall2_lookup_l _ _ _ _ _ Hall Hk) as (pod' & Hk' & Hs).
    exists pod'. split; [|done]. rewrite Hperm. by eapply list_elem_of_lookup_2. }
  assert (Hdist : inPlaceDistance s'.1 = inPlaceDistance l).
  { unfold inPlaceDistance. by rewrite Hperm. }
  rewrite Hdist. split_and!; [|by rewrite Hperm, Hnames|lia|].
  - split.
    + by rewrite Hperm.
    + unfold apart. eapply NoDup_Permutation_proper; [by rewrite Hperm|]. by rewrite Hords.
    + assert (Ho : forall i, i ∈ getOrdinal <$> s'.1 <-> i ∈ getOrdinal <$> s.1) by (intros i; by rewrite Hperm, Hords).
      split.
      * intros i Hi. destruct (Hfull i Hi) as (pod & Hp & E).
        assert (Hin : i ∈ getOrdinal <$> s.1) by (apply list_elem_of_fmap; eauto).
        apply Ho, list_elem_of_fmap in Hin as (q & -> & ?). eauto.
      * intros q Hq. assert (Hin : getOrdinal q ∈ getOrdinal <$> s'.1) by (apply list_elem_of_fmap; eauto).
        apply Ho, list_elem_of_fmap in Hin as (pod & -> & ?). by apply Hlt.
    + intros key [Hk|(q & spec & Hq & <-)]%Hawait.
      { destruct (Hawaits key Hk) as (pod & Hp & <- & Hr). destruct (Hback pod Hp) as (pod' & Hp' & Hs).
        exists pod'. split_and!; [done|by rewrite (step_key _ _ _ Hs)|].
        apply (step_revision _ _ _ Hs). by right. }
      pose proof Hcs as Hcs'. rewrite list.Forall_forall in Hcs'.
      destruct (Hcs' _ Hq) as (_ & _ & pod & Hp & _ & _ & Hk). injection Hk as Hn Hns _.
      destruct (Hback pod Hp) as (pod' & Hp' & Hs). exists pod'. split_and!; [done| |].
      * rewrite (step_key _ _ _ Hs). unfold getKey. by rewrite Hn, Hns.
      * apply (step_revision _ _ _ Hs). left. by exists q, spec.
  - intros (c & Hc & Hm)%list.Exists_exists. apply Hless.
    rewrite list.Forall_forall in Hcs. specialize (Hcs _ Hc). apply list.Exists_exists.
    destruct c as [| |q spec|pod c|]; try done.
    + destruct Hcs as (_ & _ & pod & Hp & _ & _ & Hk). injection Hk as Hn _.
      exists pod. split; [done|]. left. by exists q, spec.
    + cbn in Hm. subst c. destruct Hcs as [(_ & Hp & _)|[E _]]; [|done].
      exists pod. split; [done|]. right. by exists pod.
Qed.

(** A round is no further from the update revision, and closer unless the pods are there. *)
Lemma inPlaceRound_ready (s s' : list Pod * controllerCache) :
  inPlaceReady s -> inPlaceRound s s' ->
  inPlaceReady s' /\ (Name ∘ pod_meta <$> s'.1) ≡ₚ (Name ∘ pod_meta <$> s.1)
  /\ (inPlaceDistance s'.1 <= inPlaceDistance s.1)%nat
  /\ (~ updated set updRev partition s.1 -> (inPlaceDistance s'.1 < inPlaceDistance s.1)%nat).
Proof.
  intros Hready (cs & l & Hrec & Hcar & Hperm).
  destruct (inPlaceReconcile_calls s cs s'.2 Hready Hrec) as (Hcs & Hmove & Hawait).
  destruct (moves_survive _ _ Hcs) as (Hs & Hc & _). rewrite Hs in Hcar. rewrite Hc, app_nil_r in Hperm.
  destruct (carried_ready s s' cs l) as (? & ? & ? & ?); [done..|by right; apply Hawait|].
  split_and!; auto.
Qed.

(** The rounds left are none when all pods are updated. *)
Lemma inPlaceDistance_updated pods :
  Forall (staged set updRev) pods ->
  updated set updRev partition pods <-> inPlaceDistance pods = 0%nat.
Proof.
  intros Hstaged. assert (Hone : forall pod, staged set updRev pod ->
    (steadyPod set pod /\ (partition <= getOrdinal pod -> getPodRevision pod = rev_Name updRev))
    <-> toGo pod = 0%nat).
  { intros pod Hpod. unfold toGo. case_decide as Hb.
    - split; [|done]. intros [_ Hr]. destruct Hb as [Hge Hne]. by destruct Hne, Hr.
    - split; [by intros [(_ & _ & -> & _) _]|]. destruct (shouldUpdateInPlaceReady pod) eqn:E; [done|].
      intros _. split; [|intros Hge; by apply dec_stable; intros Hne; apply Hb].
      destruct Hpod as [?|[(_ & _ & _ & Hyes & _) _]]; [done|congruence]. }
  unfold updated, inPlaceDistance. rewrite <-list.Forall_forall.
  induction Hstaged as [|pod pods Hpod _ IH]; [by split|]. rewrite list.Forall_cons, IH, (Hone _ Hpod).
  cbn. lia.
Qed.

(** A reconcile of updated pods makes no call. *)
Lemma inPlaceReconcile_updated (s : list Pod * controllerCache) cs cache :
  inPlaceReady s -> updated set updRev partition s.1 -> inPlaceReconcile s.1 s.2 cs cache -> cs = [].
Proof.
  intros Hr Hupd Hrec. destruct (inPlaceReconcile_calls _ _ _ Hr Hrec) as (Hcs & _ & _).
  destruct cs as [|c cs]; [done|]. apply list.Forall_cons in Hcs as [Hc _].
  assert (Hnot : forall pod, pod ∈ s.1 -> ~ behind updRev partition pod /\ ~ unmarkedPod set pod).
  { intros pod Hp. destruct (Hupd pod Hp) as [(_ & _ & Hno & _) Hrev]. split.
    - intros [Hge Hne]. by destruct Hne, Hrev.
    - intros (_ & _ & _ & Hyes & _). congruence. }
  destruct c as [| |q spec|pod c|]; try done.
  - destruct Hc as (_ & _ & pod & Hp & _ & Hb & _). by destruct (Hnot pod Hp).
  - destruct Hc as [(_ & Hp & Hun)|(_ & Hp & Hb)]; by destruct (Hnot pod Hp).
Qed.

(** C5: Convergence in place: when all pods of a set are there and every pod that is behind can
    be updated in place, as many rounds as two per outdated pod and one per updated pod that
    is still to be marked ready bring every pod from the partition up to the update
    revision, steady, each under the name it had, and a reconcile there makes no call. No
    reconcile on the way, whichever it is, deletes or creates a pod; the server would carry
    that out. The rounds may be of different versions of the set. *)
Theorem inPlace_converges (states : nat -> list Pod * controllerCache) :
  inPlaceReady (states 0%nat) ->
  (forall k, inPlaceRound (states k) (states (S k))) ->
  (forall k cs cache pod, inPlaceReconcile (states k).1 (states k).2 cs cache ->
     (CreateCall pod ∉ cs) /\ (DeleteCall pod ∉ cs))
  /\ forall k, (inPlaceDistance (states 0%nat).1 <= k)%nat ->
    updated set updRev partition (states k).1
    /\ (Name ∘ pod_meta <$> (states k).1) ≡ₚ (Name ∘ pod_meta <$> (states 0%nat).1)
    /\ forall cs cache, inPlaceReconcile (states k).1 (states k).2 cs cache -> cs = [].
Proof.
  intros Hinit Hround.
  assert (Hall : forall k, inPlaceReady (states k)
    /\ (Name ∘ pod_meta <$> (states k).1) ≡ₚ (Name ∘ pod_meta <$> (states 0%nat).1)
    /\ (inPlaceDistance (states k).1 <= inPlaceDistance (states 0%nat).1 - k)%nat).
  { induction k as [|k (Hr & Hn & Hd)]; [split_and!; [done..|lia]|].
    destruct (inPlaceRound_ready _ _ Hr (Hround k)) as (Hr' & Hn' & Hle & Hlt).
    split_and!; [done|by rewrite Hn', Hn|].
    rewrite inPlaceDistance_updated in Hlt by apply Hr. lia. }
  split.
  { intros k cs cache pod Hrec. destruct (Hall k) as (Hr & _ & _).
    destruct (inPlaceReconcile_calls _ _ _ Hr Hrec) as (Hcs & _). by apply (moves_survive _ _ Hcs). }
  intros k Hk. destruct (Hall k) as (Hr & Hn & Hd).
  assert (Hupd : updated set updRev partition (states k).1)
    by (apply inPlaceDistance_updated; [apply Hr|lia]).
  split_and!; [done..|]. intros cs cache. by apply inPlaceReconcile_updated.
Qed.
End Cluster.
