(* ===== verification/StaleReads.v ===== *)
(** Stale reads: a pod updated in place is expected in the process-wide cache, and until
    the set's pods are listed with it at the new revision, no further pod of the set is
    updated ([controllers/stateful_set_control.go], [controllers/util.go]). *)

From S2P Require Import Prelude Objects GoString Libraries Coordinate Cluster Fixtures Naming.
From S2P Require Import Expectations PodIdentity SetStatus InPlace Interfaces Revisions.
From S2P Require Import CallLog Control LoopInvariants ControlCalls ControlSafety.

(** ** Waiting *)

Section Waits.
Context {W : Type} `{KubeLib, !KubeLibLaws, MapRange, Json Coordinates, PatchLib,
  Json InPlaceUpdateState}.
Context `{HistoryLib, SetCodec, SelectorLib, IntStrLib, GoSort, !GoSortLaws, ErrorText}.
Context `{Recorder W, Clock W, StatefulPodControlLaws W}.
Context (set : StatefulSet) (curRev updRev : ControllerRevision).
Notation T := (W * list PodCall)%type.
Notation setKey := (getStatefulSetKey (set_meta set)).

(** Some pod of the set is expected at the update revision. *)
Definition expectsSome (w : World T) : Prop := pending setKey (rev_Name updRev) w.2 <> ∅.

Lemma updateReplicas_waits revisions n reps status :
  emitsIn (State := World T) expectsSome (updateReplicas set curRev updRev revisions n reps status)
    (fun _ cs => cs = []).
Proof.
  unfold updateReplicas. apply emitsIn_flift. destruct (UpdateStrategy (set_Spec set)) as [us|]; [|done].
  cbn [deref]. case_decide; [by apply emitsIn_fret|].
  intros [w cache] Hw. exists []. rewrite app_nil_r.
  unfold mbind, F_bind, run, readCache.
  destruct (SatisfiedExpectations setKey (rev_Name updRev) cache).1 eqn:E; [|done].
  apply Satisfied_pending in E. by destruct Hw.
Qed.

Lemma waits_calls collisionCount pods revisions :
  emitsIn (State := World T) expectsSome
    (updateStatefulSet set curRev updRev collisionCount pods revisions)
    (fun _ cs => Forall (firstPartCall set pods) cs).
Proof.
  apply updateStatefulSet_startedIn; [by intros|]. intros cur upd n replicas condemned Hst.
  pose proof (started_length _ _ _ _ _ _ _ _ _ Hst) as (_ & _ & Hn).
  refine (emitsIn_mono _ _ (fun _ cs => Forall (firstPartCall set pods) cs) _ _ _).
  2: { intros o cs HP. by destruct o as [[[[st err] reps]|[[st err] reps]]|r]. }
  apply emitsIn_fbind.
  { apply syncReplicas_preserves, (cache_stable set (fun c => pending setKey (rev_Name updRev) c <> ∅)). }
  eapply emits_mono; [apply syncReplicas_emits|]. intros o cs Hpass.
  pose proof (Pass_calls set _ _ _ _ pods _ _ _ _ _ Hpass) as [Hcs _].
  destruct o as [[[st reps]|x]|r]; [|done..].
  apply emitsIn_fbind.
  { apply terminate_preserves, (cache_stable set (fun c => pending setKey (rev_Name updRev) c <> ∅)). }
  eapply emits_mono; [apply (terminate_calls set curRev updRev pods n reps)|].
  { done. }
  { intros p Hp. eapply started_condemned; [exact Hst|]. by exists p. }
  intros o cs2 Hcs2. destruct o as [[st'|x]|r]; [|by apply Forall_app..].
  eapply emitsIn_mono; [apply updateReplicas_waits|]. intros o cs3 ->. rewrite app_nil_r.
  by apply Forall_app.
Qed.
End Waits.

(** ** Recording the in-place updates that succeed *)

#[export] Instance recordedPodControl {W} `{StatefulPodControl W}
  : StatefulPodControl (W * list Pod) := {|
  CreateStatefulPod set pod := unlogged (CreateStatefulPod set pod);
  UpdateStatefulPod set pod := unlogged (UpdateStatefulPod set pod);
  InPlaceUpdateStatefulPod set pod spec := fun '(w, updated) =>
    match InPlaceUpdateStatefulPod set pod spec w with
    | (Ok None, w') => (Ok None, (w', updated ++ [pod]))
    | (o, w') => (o, (w', updated))
    end;
  UpdateStatefulPodCondition set pod c := unlogged (UpdateStatefulPodCondition set pod c);
  DeleteStatefulPod set pod := unlogged (DeleteStatefulPod set pod);
|}.

Section Recorded.
Context {W : Type} `{KubeLib, MapRange, Json Coordinates, PatchLib, Json InPlaceUpdateState}.
Context `{HistoryLib, SetCodec, SelectorLib, IntStrLib, GoSort, ErrorText}.
Context `{Recorder W, Clock W, StatefulPodControl W}.
Context (set : StatefulSet) (updRev : ControllerRevision).
Notation setKey := (getStatefulSetKey (set_meta set)).
Notation Rec := (W * list Pod)%type.

(** Every pod updated in place is expected at the update revision. *)
Definition updatesExpected (w : World Rec) : Prop :=
  forall q, q ∈ w.1.2 -> getKey (pod_meta q) ∈ pending setKey (rev_Name updRev) w.2.

Lemma unlogged_expected {A} (m : M W A) : preserves updatesExpected (api (unlogged m)).
Proof. intros [[w l] cache] Hw. unfold api, unlogged. by destruct (m w). Qed.

Lemma updatesExpected_stable : stable (W := Rec) updatesExpected set.
Proof.
  split; intros; try apply unlogged_expected.
  - by intros [[w l] cache].
  - intros [[w l] cache] Hw. unfold api, call. cbn. by destruct (Now w).
Qed.

Lemma inPlaceUpdatePod_expected p spec :
  spec_revision spec = rev_Name updRev -> preserves updatesExpected (inPlaceUpdatePod (W := Rec) set p spec).
Proof.
  intros Hspec. unfold inPlaceUpdatePod. apply preserves_bind; [apply unlogged_expected|].
  intros [[e|] q]; [apply preserves_ret|].
  intros [[w l] cache] Hw. unfold mbind, M_bind, api. cbn [InPlaceUpdateStatefulPod recordedPodControl obj].
  destruct (InPlaceUpdateStatefulPod set q spec w) as [[[e|]|r] w']; [done| |done].
  intros x Hx. cbn [fst snd] in Hx.
  change (getKey (pod_meta x) ∈ pending setKey (rev_Name updRev)
            (podExpectUpdated setKey (spec_revision spec) q cache)).
  rewrite Hspec. unfold podExpectUpdated. rewrite pending_expect.
  rewrite !decide_False by auto. apply elem_of_union.
  apply elem_of_app in Hx as [Hx|Hx%list_elem_of_singleton]; [right; by apply Hw|left; subst; set_solver].
Qed.

Lemma loop_expected curRev collisionCount pods revisions :
  preserves updatesExpected
    (updateStatefulSet (W := Rec) set curRev updRev collisionCount pods revisions).
Proof.
  apply updateStatefulSet_preserves; [apply updatesExpected_stable|].
  intros name p spec Hplan. apply inPlaceUpdatePod_expected.
  by apply plan_sound in Hplan as [? _].
Qed.
End Recorded.

(** ** What a list that is still old leaves expected *)

Lemma observePods_keeps set updRev key pods cache :
  key ∈ pending (getStatefulSetKey (set_meta set)) (rev_Name updRev) cache ->
  (forall p, p ∈ pods -> getKey (pod_meta p) = key -> getPodRevision p <> rev_Name updRev) ->
  key ∈ pending (getStatefulSetKey (set_meta set)) (rev_Name updRev) (observePods set updRev pods cache).
Proof.
  unfold observePods. revert cache. induction pods as [|p pods IH]; intros cache Hin Hold; [done|].
  cbn [foldl]. apply IH; [|intros ? ?; apply Hold; by right].
  unfold podObserveUpdated. rewrite pending_observe, !decide_False by auto.
  case_decide; [|done]. apply elem_of_difference. split; [done|].
  intros ->%elem_of_singleton. by apply (Hold p); [left|..].
Qed.

Section Stale.
Context {W1 W2 : Type} `{KubeLib, !KubeLibLaws, MapRange, Json Coordinates, PatchLib,
  Json InPlaceUpdateState}.
Context `{HistoryLib, SetCodec, SelectorLib, IntStrLib, GoSort, !GoSortLaws, ErrorText}.
Context `{Recorder W1, Clock W1, StatefulPodControl W1}.
Context `{Recorder W2, Clock W2, StatefulPodControlLaws W2}.
Context (set set2 : StatefulSet) (updRev : ControllerRevision).

(** C10: Reconciling from a stale list is safe. When a reconcile updated a pod in place and
    a later one at the same update revision is given a list that does not show that pod
    at the revision yet, the later reconcile updates no further pod: it only tends pods,
    creates missing ones, and terminates failed or extra ones. *)
Theorem stale_sync_waits curRev cc pods revisions w cache o w' updated cache'
    curRev2 cc2 pods2 revisions2 q :
  updateStatefulSet (W := W1 * list Pod) set curRev updRev cc pods revisions ((w, []), cache)
    = (o, ((w', updated), cache')) ->
  q ∈ updated ->
  getStatefulSetKey (set_meta set2) = getStatefulSetKey (set_meta set) ->
  (forall p, p ∈ pods2 -> getKey (pod_meta p) = getKey (pod_meta q) ->
     getPodRevision p <> rev_Name updRev) ->
  emitsIn (fun w2 => w2.2 = observePods set2 updRev pods2 cache')
    (updateStatefulSet (W := W2 * list PodCall) set2 curRev2 updRev cc2 pods2 revisions2)
    (fun _ cs => Forall (firstPartCall set2 pods2) cs).
Proof.
  intros Hrun Hq Hkey Hold w2 Hw2. apply waits_calls. unfold expectsSome. rewrite Hw2.
  pose proof (loop_expected set updRev curRev cc pods revisions ((w, []), cache)) as Hexp.
  rewrite Hrun in Hexp. intros Hempty.
  eapply (not_elem_of_empty (C := gset string) (getKey (pod_meta q))). rewrite <-Hempty.
  apply observePods_keeps; [|done]. rewrite Hkey. apply Hexp; [|done].
  intros x Hx. by apply elem_of_nil in Hx.
Qed.
End Stale.
