(* ===== verification/ControlStatus.v ===== *)
(** The status a reconcile reports: what the first pass counts, which fields the
    rest of the loop leaves alone, and when it is written back
    ([controllers/stateful_set_control.go], lines 286-332 and 657-679). *)

From S2P Require Import Prelude Objects GoString Libraries Coordinate Cluster Fixtures Naming.
From S2P Require Import Expectations PodIdentity SetStatus InPlace Interfaces Revisions.
From S2P Require Import Control ControlCalls ControlSafety.

(** ** Counting *)

(** The pods of a revision among those created and not terminating. *)
Definition atRevision `{KubeLib} (rev : ControllerRevision) (pods : list Pod) : list Pod :=
  filter (fun pod => isCreated pod = true /\ isTerminating pod = false
                     /\ getPodRevision pod = rev_Name rev) pods.
Definition readyPods `{KubeLib} (pods : list Pod) : list Pod :=
  filter (fun pod => isRunningAndReady pod = true) pods.

Definition count {A} (l : list A) : Z := Z.of_nat (length l).

Section Counting.
Context `{KubeLib} (curRev updRev : ControllerRevision).

Lemma count_filter_cons {A} (P : A -> Prop) `{forall x, Decision (P x)} x l :
  count (filter P (x :: l)) = (if decide (P x) then 1 else 0) + count (filter P l).
Proof. rewrite filter_cons. unfold count. case_decide; cbn [length]; lia. Qed.

(** What one pod adds to each counter. *)
Lemma countPod_fields status pod :
  let one (P : Prop) `{Decision P} := if decide P then 1 else 0 in
  Replicas (countPod curRev updRev status pod) = int32 (Replicas status + 1)
  /\ (ReadyReplicas status = int32 (ReadyReplicas status) ->
      ReadyReplicas (countPod curRev updRev status pod)
      = int32 (ReadyReplicas status + one (isRunningAndReady pod = true)))
  /\ (CurrentReplicas status = int32 (CurrentReplicas status) ->
      CurrentReplicas (countPod curRev updRev status pod)
      = int32 (CurrentReplicas status + one (isCreated pod = true /\ isTerminating pod = false
                                             /\ getPodRevision pod = rev_Name curRev)))
  /\ (UpdatedReplicas status = int32 (UpdatedReplicas status) ->
      UpdatedReplicas (countPod curRev updRev status pod)
      = int32 (UpdatedReplicas status + one (isCreated pod = true /\ isTerminating pod = false
                                             /\ getPodRevision pod = rev_Name updRev))).
Proof.
  cbv zeta. unfold countPod, adjustRevisions.
  destruct (isRunningAndReady pod), (isCreated pod), (isTerminating pod); cbn [andb negb];
    destruct (decide (getPodRevision pod = rev_Name curRev)),
             (decide (getPodRevision pod = rev_Name updRev));
    repeat case_decide; cbn; rewrite ?Z.add_0_r; split_and!; intros; try done; try naive_solver.
Qed.

Lemma countPods_fields pods : forall status,
  let status' := foldl (countPod curRev updRev) status pods in
  0 <= Replicas status -> 0 <= ReadyReplicas status -> 0 <= CurrentReplicas status ->
  0 <= UpdatedReplicas status ->
  Replicas status + count pods < 2 ^ 31 -> ReadyReplicas status + count pods < 2 ^ 31 ->
  CurrentReplicas status + count pods < 2 ^ 31 -> UpdatedReplicas status + count pods < 2 ^ 31 ->
  Replicas status' = Replicas status + count pods
  /\ ReadyReplicas status' = ReadyReplicas status + count (readyPods pods)
  /\ CurrentReplicas status' = CurrentReplicas status + count (atRevision curRev pods)
  /\ UpdatedReplicas status' = UpdatedReplicas status + count (atRevision updRev pods).
Proof.
  induction pods as [|pod pods IH]; intros status; cbv zeta; cbn [foldl].
  { unfold count; cbn. intros. split_and!; lia. }
  intros H1 H2 H3 H4 L1 L2 L3 L4.
  assert (count (pod :: pods) = 1 + count pods) as Hc by (unfold count; cbn; lia).
  assert (0 <= count pods) by (unfold count; lia). rewrite Hc in *.
  destruct (countPod_fields status pod) as (E1 & E2 & E3 & E4).
  specialize (E2 ltac:(rewrite int32_id; lia)). specialize (E3 ltac:(rewrite int32_id; lia)).
  specialize (E4 ltac:(rewrite int32_id; lia)).
  unfold readyPods, atRevision. rewrite !count_filter_cons.
  set (s' := countPod _ _ status pod) in *.
  assert (Hone : forall (P : Prop) (d : Decision P), 0 <= (if d then 1 else 0) <= 1)
    by (intros P []; lia).
  pose proof (Hone _ (decide (isRunningAndReady pod = true))).
  pose proof (Hone _ (decide (isCreated pod = true /\ isTerminating pod = false
                              /\ getPodRevision pod = rev_Name curRev))).
  pose proof (Hone _ (decide (isCreated pod = true /\ isTerminating pod = false
                              /\ getPodRevision pod = rev_Name updRev))).
  rewrite int32_id in E1, E2, E3, E4 by lia.
  destruct (IH s') as (R1 & R2 & R3 & R4); try lia.
  unfold readyPods, atRevision in R2, R3, R4. split_and!; lia.
Qed.
End Counting.

(** The counters of the first pass, for fewer than 2^31 pods: all listed pods, those
    running and ready, and those at the current and at the update revision. *)
Theorem countedStatus_counts `{KubeLib} set curRev updRev collisionCount pods :
  count pods < 2 ^ 31 ->
  let status := foldl (countPod curRev updRev) (initialStatus set curRev updRev collisionCount) pods in
  Replicas status = count pods
  /\ ReadyReplicas status = count (readyPods pods)
  /\ CurrentReplicas status = count (atRevision curRev pods)
  /\ UpdatedReplicas status = count (atRevision updRev pods)
  /\ ReadyReplicas status <= Replicas status.
Proof.
  intros Hlen status.
  assert (count (readyPods pods) <= count pods)
    by (unfold count, readyPods; pose proof (length_filter (fun p => isRunningAndReady p = true) pods); lia).
  destruct (countPods_fields curRev updRev pods
    (initialStatus set curRev updRev collisionCount)) as (R1 & R2 & R3 & R4); cbn; try lia.
  cbn in R1, R2, R3, R4. unfold status. split_and!; lia.
Qed.

Lemma countedStatus_counts_witness :
  let status := foldl (countPod (fx_revision "r1" "" 1) (fx_revision "r2" "" 2))
    (initialStatus (fx_set 3 "" (fx_rolling 0 1)) (fx_revision "r1" "" 1) (fx_revision "r2" "" 2) 0)
    [fx_pod "default" "web-0" "r1" "Running" true; fx_pod "default" "web-1" "r2" "Running" false] in
  ReadyReplicas status <= Replicas status.
Proof.
  apply (countedStatus_counts (fx_set 3 "" (fx_rolling 0 1)) (fx_revision "r1" "" 1)
    (fx_revision "r2" "" 2) 0
    [fx_pod "default" "web-0" "r1" "Running" true; fx_pod "default" "web-1" "r2" "Running" false]).
  reflexivity.
Defined.

(** ** What the loop leaves alone *)

Lemma holds_api {W A} (m : M W A) w (Q : Outcome A -> World W -> Prop) :
  (forall o w', Q o w') -> holds (api m) w Q.
Proof. destruct w as [w c]. unfold holds, api. destruct (m w). cbn. auto. Qed.

(** [frame] is a part of the status that counting pods by revision leaves alone. *)
Section Frame.
Context {X : Type} (frame : StatefulSetStatus -> X).
Hypothesis frame_current : forall d st, frame (addCurrentReplicas d st) = frame st.
Hypothesis frame_updated : forall d st, frame (addUpdatedReplicas d st) = frame st.
Context {W : Type} `{KubeLib, MapRange, Json Coordinates, PatchLib, Json InPlaceUpdateState}.
Context `{HistoryLib, SetCodec, SelectorLib, IntStrLib, GoSort, ErrorText}.
Context `{Recorder W, Clock W, StatefulPodControl W}.
Context (set currentSet updateSet : StatefulSet) (curRev updRev : ControllerRevision).
Context (revisions : list ControllerRevision).

(** Outcomes whose status, when no error is returned, has the frame of [st]. *)
Definition framed {A P} (st : StatefulSetStatus)
    (o : Outcome (Flow (StatefulSetStatus * A) (StatefulSetStatus * option Err * P)))
    (w : World W) : Prop :=
  match o with
  | Ok (Next (st', _)) | Ok (Return (st', None, _)) => frame st' = frame st
  | _ => True
  end.

Lemma frame_adjust d pod st : frame (adjustRevisions curRev updRev d pod st) = frame st.
Proof. unfold adjustRevisions. repeat case_decide; congruence. Qed.
Lemma frame_leave p st : frame (leaveCurrent curRev p st) = frame st.
Proof. unfold leaveCurrent. case_decide; congruence. Qed.

(** The same for the loops, whose state is not a pair. *)
Definition framedBy {S R} (status : S -> StatefulSetStatus) (st : StatefulSetStatus)
    (o : Outcome (Flow S (StatefulSetStatus * option Err * R))) (w : World W) : Prop :=
  match o with
  | Ok (Next s) => frame (status s) = frame st
  | Ok (Return (st', None, _)) => frame st' = frame st
  | _ => True
  end.

Lemma terminateCondemned_framed reps first condemned : forall st w,
  holds (forLoop (terminateCondemned set curRev updRev reps first) condemned st) w
    (framedBy (fun st => st) st).
Proof.
  intros st w.
  eapply (holds_forLoop _ _ _ _ (fun _ st' _ => frame st' = frame st)); [done| |done].
  intros done_ p todo st' w' _ Hst. unfold terminateCondemned.
  destruct (isTerminating _); [destruct (negb _); [by apply holds_return|by apply holds_fret]|].
  destruct (_ && _ && _).
  - apply holds_fbind, holds_run, holds_lift. destruct (deref first); [|done]. by apply holds_return.
  - apply holds_fbind, holds_run, holds_api. intros [[e|]|r] w''; [by apply holds_return| |done].
    destruct (negb _); [apply holds_return|apply holds_fret]; cbn; by rewrite frame_adjust.
Qed.

Lemma deleteForUpdate_framed p st0 st w :
  frame st = frame st0 -> holds (deleteForUpdate set curRev p st) w (framed st0).
Proof.
  intros Hst. unfold deleteForUpdate. apply holds_fbind, holds_run, holds_api.
  intros [[e|]|r] w'; [by apply holds_return| |done]. apply holds_fret. cbn. by rewrite frame_leave.
Qed.

Lemma replacePod_framed p completed st w :
  holds (replacePod set curRev updRev revisions p completed st) w (framed st).
Proof.
  unfold replacePod. apply holds_fbind, holds_run, holds_lift.
  destruct (shouldDoInPlaceUpdate _ _ _ _) as [[spec|]|r]; [|by apply deleteForUpdate_framed|done].
  case_decide; [by apply holds_fret|]. apply holds_fbind, holds_run.
  eapply (holds_mono _ _ (fun _ _ => True)); [done|]. intros [[err p']|r] w' _; [|done].
  apply holds_fbind, holds_run, holds_lift. destruct (isInPlaceOnly set) as [only|r]; [|done].
  destruct err as [e|]; [destruct (_ && _)|]; try by apply deleteForUpdate_framed.
  all: apply holds_fret; cbn; by rewrite frame_leave.
Qed.

Lemma updateTarget_framed maxUnavailable t s w :
  holds (updateTarget set curRev updRev revisions maxUnavailable t s) w
    (framedBy us_status (us_status s)).
Proof.
  unfold holds, updateTarget. destruct (index _ t) as [p|r]; [|done].
  set (m := if decide _ then _ else _).
  assert (Hm : holds m w (framed (us_status s))).
  { unfold m. case_decide; [|by apply holds_fret]. destruct (isTerminating _); [by apply holds_fret|].
    apply replacePod_framed. }
  unfold holds in Hm. destruct (m w) as [[[[st p']|[[st [e|]] p']]|r] w']; cbn in *; try done.
  by case_decide.
Qed.

Lemma updateReplicas_framed n reps st w :
  holds (updateReplicas set curRev updRev revisions n reps st) w (fun o _ =>
    match o with
    | Ok (Next (st', None, _)) | Ok (Return (st', None, _)) => frame st' = frame st
    | _ => True
    end).
Proof.
  unfold updateReplicas. apply holds_fbind, holds_run, holds_lift.
  destruct (deref _) as [us|]; [|done]. case_decide; [by apply holds_fret|].
  apply holds_fbind, holds_run. unfold holds at 1, readCache. destruct w as [w c]. cbn.
  destruct (negb _); [by apply holds_fret|]. apply holds_fbind, holds_run, holds_lift.
  destruct (updateBounds us n) as [[e|[[umin maxU]|]]|r]; [by apply holds_fret| |by apply holds_fret|done].
  apply holds_fbind.
  eapply (holds_forLoop _ _ _ _ (fun _ s _ => frame (us_status s) = frame st)); [done| |].
  - intros done_ t todo s w' _ Hs. eapply holds_mono; [apply updateTarget_framed|].
    intros [[s'|[[st' [e|]] reps']]|r] w''; cbn; congruence || done.
  - intros s w' Hs. by apply holds_fret.
Qed.

(** The first pass also counts the pods it creates and deletes. *)
Hypothesis frame_add : forall d st, frame (addReplicas d st) = frame st.

Lemma createReplica_framed p st0 st w :
  frame st = frame st0 -> holds (createReplica set curRev updRev p st) w (framed st0).
Proof.
  intros Hst. unfold createReplica. apply holds_fbind, holds_run, holds_api.
  intros [[[e|] pod]|r] w'; [| |done].
  - apply holds_fbind, holds_run. unfold withCondition. apply holds_bind, holds_api.
    intros [now|r] w''; [|done]. by apply holds_ret, holds_return.
  - destruct (negb _); [apply holds_return|apply holds_fret]; cbn; by rewrite frame_adjust, frame_add.
Qed.

Lemma keptReplica_framed p st0 st w :
  frame st = frame st0 ->
  holds (if isTerminating (obj p) && negb (allowsBurst set) then return_ (st, None, p)
         else p ← markInPlaceReady set p st;
              if negb (isRunningAndReady (obj p)) && negb (allowsBurst set)
              then return_ (st, None, p) else enforceIdentity set updateSet p st) w (framed st0).
Proof.
  intros Hst. destruct (_ && _); [by apply holds_return|].
  apply holds_fbind. unfold markInPlaceReady, enforceIdentity.
  assert (Hrest : forall p w, holds (if negb (isRunningAndReady (obj p)) && negb (allowsBurst set)
      then return_ (st, None, p) else enforceIdentity set updateSet p st) w (framed st0)).
  { intros q w'. destruct (_ && _); [by apply holds_return|]. unfold enforceIdentity.
    destruct (_ && _); [by apply holds_fret|]. apply holds_fbind, holds_run, holds_api.
    intros [[[e|] pod]|r] w''; [|by apply holds_fret|done].
    apply holds_fbind, holds_run. unfold withCondition. apply holds_bind, holds_api.
    intros [now|r] w3; [|done]. by apply holds_ret, holds_return. }
  destruct (shouldUpdateInPlaceReady _); [|by apply holds_fret, Hrest].
  apply holds_fbind, holds_run, holds_api. intros [[[e|] pod]|r] w'; [by apply holds_return| |done].
  by apply holds_fret, Hrest.
Qed.

Lemma syncReplica_framed i p st w :
  holds (syncReplica set currentSet updateSet curRev updRev i p st) w (framed st).
Proof.
  unfold syncReplica, recreateFailed. cbv zeta. apply holds_fbind.
  destruct (isFailed (obj p)).
  - apply holds_fbind, holds_run, holds_api. intros [[]|r] w1; [|done].
    apply holds_fbind, holds_run, holds_api. intros [[e|]|r] w2; [by apply holds_return| |done].
    apply holds_fbind, holds_run, holds_lift. destruct (freshPod _ _ _ _ i) as [q|r]; [|done].
    apply holds_fret. set (st1 := addReplicas _ _).
    assert (Hst1 : frame st1 = frame st) by (unfold st1; by rewrite frame_add, frame_adjust).
    destruct (negb (isCreated (obj q))); [by apply createReplica_framed|].
    by apply keptReplica_framed.
  - apply holds_fret. destruct (negb (isCreated (obj p))); [by apply createReplica_framed|].
    by apply keptReplica_framed.
Qed.

Lemma syncReplicas_framed todo : forall i done st w,
  holds (syncReplicas set currentSet updateSet curRev updRev i todo done st) w (framed st).
Proof.
  induction todo as [|p todo IH]; intros i done st w; cbn [syncReplicas]; [by apply holds_fret|].
  pose proof (syncReplica_framed i p st w) as Hp. unfold holds in *. cbv beta.
  destruct (syncReplica _ _ _ _ _ i p st w) as [[[[st' p']|[[st' [e|]] p']]|r] w']; cbn in *; try done.
  specialize (IH (i + 1) (done ++ [p']) st' w').
  destruct (syncReplicas _ _ _ _ _ (i + 1) todo (done ++ [p']) st' w')
    as [[[[st'' reps]|[[st'' [e|]] reps]]|r] w'']; cbn in *; congruence || done.
Qed.
End Frame.

(** The statuses a reconcile returns without an error. *)
Definition endsIn {W A P} (K : StatefulSetStatus -> Prop)
    (o : Outcome (Flow (StatefulSetStatus * A) (StatefulSetStatus * option Err * P)))
    (w : World W) : Prop :=
  match o with
  | Ok (Next (st, _)) | Ok (Return (st, None, _)) => K st
  | _ => True
  end.

(** ** Whole reconciles *)

Section Walk.
Context {W : Type} `{KubeLib, MapRange, Json Coordinates, PatchLib, Json InPlaceUpdateState}.
Context `{HistoryLib, SetCodec, SelectorLib, IntStrLib, GoSort, ErrorText}.
Context `{Recorder W, Clock W, StatefulPodControl W}.
Context (set : StatefulSet) (curRev updRev : ControllerRevision) (collisionCount : Z).
Context (pods : list Pod) (revisions : list ControllerRevision).

Definition counted : StatefulSetStatus :=
  foldl (countPod curRev updRev) (initialStatus set curRev updRev collisionCount) pods.

(** What holds of the counted status, of the status the slots leave, and depends only on
    a part that the later phases leave alone, holds of the status returned. *)
Lemma updateStatefulSet_endsIn {X} (frame : StatefulSetStatus -> X) (K : X -> Prop) w :
  (forall d st, frame (addCurrentReplicas d st) = frame st) ->
  (forall d st, frame (addUpdatedReplicas d st) = frame st) ->
  (forall cur upd n slots condemned replicas w, spec_Replicas (set_Spec set) = Some n ->
     0 <= n -> partitionPods n pods = (slots, condemned) ->
     fillReplicas cur upd curRev updRev 0 slots = Ok replicas ->
     K (frame counted)
     /\ holds (syncReplicas (W := W) set cur upd curRev updRev 0 replicas [] counted) w
          (endsIn (fun st => K (frame st)))) ->
  holds (updateStatefulSet (W := W) set curRev updRev collisionCount pods revisions) w (fun o _ =>
    forall st reps, o = Ok (Some st, None, reps) -> K (frame st)).
Proof.
  intros Hcur Hupd Hsync. unfold updateStatefulSet.
  apply holds_bind, holds_lift. destruct (ApplyRevision set curRev) as [[e|cur]|];
    [by apply holds_ret| |done].
  apply holds_bind, holds_lift. destruct (ApplyRevision set updRev) as [[e|upd]|];
    [by apply holds_ret| |done].
  apply holds_bind, holds_lift. destruct (spec_Replicas _) as [n|] eqn:En; [|done]. cbn [deref].
  case_decide; [by apply holds_lift|].
  destruct (partitionPods n pods) as [slots condemned] eqn:Ep.
  apply holds_bind, holds_lift. destruct (fillReplicas _ _ _ _ _ _) as [replicas|] eqn:Ef; [|done].
  destruct (Hsync cur upd n slots condemned replicas w eq_refl ltac:(lia) Ep Ef) as [Hcount Hslots].
  apply holds_bind, holds_body. cbv zeta. unfold syncSet.
  destruct (findUnhealthy _) as [unhealthy first]. apply holds_fbind, holds_run, holds_lift.
  destruct (if decide (unhealthy > 0) then _ else _) as [[]|]; [|done].
  case_decide; [apply holds_fret, holds_ret; intros st reps [= <- _]; exact Hcount|].
  apply holds_fbind. eapply holds_mono; [exact Hslots|].
  intros [[[st2 reps]|[[st2 err] reps]]|r] w2 Hst2; [| |done].
  2: { apply holds_ret. intros st reps0 [= -> -> _]. exact Hst2. }
  apply holds_fbind.
  eapply holds_mono; [eapply (terminateCondemned_framed frame); eassumption|].
  intros [[st3|[[st3 err] reps']]|r] w3 Hst3; [| |done].
  2: { apply holds_ret. intros st reps0 [= -> -> _]. cbn in *. by rewrite Hst3. }
  eapply holds_mono; [eapply (updateReplicas_framed frame); eassumption|].
  intros [[[[st4 err] reps']|[[st4 err] reps']]|r] w4 Hst4; [| |done];
    apply holds_ret; intros st reps0 [= -> -> _]; cbn in *; by rewrite Hst4, Hst3.
Qed.
End Walk.

(** ** The status as a record *)

(** The fields of a status other than its counters. *)
Definition header (st : StatefulSetStatus) :=
  (ObservedGeneration st, CurrentRevision st, UpdateRevision st, CollisionCount st,
   set_Conditions st).

(** C16: The status a reconcile reports without error names the set's generation, the two
    revisions and the collision count it worked with, and carries no condition: the
    conditions [FailedCreatePod] and [FailedUpdatePod] are only set on statuses
    returned with an error, which are never recorded. *)
Theorem updateStatefulSet_reported {W} `{KubeLib, MapRange, Json Coordinates, PatchLib,
    Json InPlaceUpdateState, HistoryLib, SetCodec, SelectorLib, IntStrLib, GoSort, ErrorText,
    Recorder W, Clock W, StatefulPodControl W} set curRev updRev collisionCount pods revisions w :
  holds (updateStatefulSet (W := W) set curRev updRev collisionCount pods revisions) w (fun o _ =>
    forall st reps, o = Ok (Some st, None, reps) ->
      ObservedGeneration st = Generation (set_meta set)
      /\ CurrentRevision st = rev_Name curRev /\ UpdateRevision st = rev_Name updRev
      /\ CollisionCount st = Some collisionCount /\ set_Conditions st = []).
Proof.
  set (st0 := initialStatus set curRev updRev collisionCount).
  eapply holds_mono.
  { apply (updateStatefulSet_endsIn set curRev updRev collisionCount pods revisions header
             (fun h => h = header st0)); [done..|].
    intros cur upd n slots condemned replicas w' _ _ _ _.
    assert (Hcount : header (counted set curRev updRev collisionCount pods) = header st0).
    { unfold counted. fold st0. clearbody st0. clear. revert st0.
      induction pods as [|pod pods' IH]; intros st0; [done|]. cbn [foldl]. rewrite IH.
      unfold countPod. destruct (_ && _); rewrite ?(frame_adjust header); try done;
      by destruct (isRunningAndReady pod). }
    split; [done|]. eapply holds_mono; [by apply (syncReplicas_framed header)|].
    intros [[[st reps]|[[st [e|]] reps]]|r] w'' Hst; cbn in *; congruence || done. }
  intros o w' Ho st reps Heq. specialize (Ho st reps Heq). by injection Ho.
Qed.

(** ** The counters stay in range *)

Definition failedSlot (slot : option Ptr) : bool :=
  match slot with Some p => isFailed (obj p) | None => false end.
Definition countIf {A} (P : A -> bool) (l : list A) : Z := count (filter (fun x => P x = true) l).

Lemma countIf_nil {A} (P : A -> bool) : countIf P [] = 0.
Proof. done. Qed.
Lemma countIf_cons {A} (P : A -> bool) x l : countIf P (x :: l) = (if P x then 1 else 0) + countIf P l.
Proof. unfold countIf. rewrite count_filter_cons. by destruct (P x). Qed.
Lemma countIf_nonneg {A} (P : A -> bool) l : 0 <= countIf P l.
Proof. unfold countIf, count. lia. Qed.
Lemma countIf_fmap {A B} (f : A -> B) (P : B -> bool) l :
  countIf P (f <$> l) = countIf (fun x => P (f x)) l.
Proof. induction l as [|x l IH]; [done|]. rewrite fmap_cons, !countIf_cons. by rewrite IH. Qed.
Lemma countIf_insert {A} (P : A -> bool) k x l :
  countIf P (<[k := x]> l) <= (if P x then 1 else 0) + countIf P l.
Proof.
  revert k. induction l as [|y l IH]; intros [|k].
  1,2: cbn; rewrite ?countIf_nil; by destruct (P x).
  - change (<[0%nat := x]> (y :: l)) with (x :: l). rewrite !countIf_cons. destruct (P x), (P y); lia.
  - change (<[S k := x]> (y :: l)) with (y :: <[k := x]> l). rewrite !countIf_cons.
    specialize (IH k). lia.
Qed.
(** Two kinds of elements that exclude each other. *)
Lemma countIf_disjoint {A} (P Q : A -> bool) l :
  (forall x, P x && Q x = false) -> countIf P l + countIf Q l <= count l.
Proof.
  intros HPQ. induction l as [|x l IH]; [done|]. rewrite !countIf_cons.
  specialize (HPQ x).
  assert (Hc : count (x :: l) = 1 + count l) by (unfold count; cbn [length]; lia).
  destruct (P x), (Q x); cbn in HPQ; try done; lia.
Qed.

Section Counters.
Context {W : Type} `{KubeLib, !KubeLibLaws, MapRange, Json Coordinates, PatchLib,
  Json InPlaceUpdateState}.
Context `{HistoryLib, SetCodec, SelectorLib, IntStrLib, GoSort, ErrorText}.
Context `{Recorder W, Clock W, StatefulPodControl W}.
Context (set : StatefulSet) (curRev updRev : ControllerRevision).

Lemma placed_failed n pods : forall slots condemned,
  countIf failedSlot (foldl (placePod n) (slots, condemned) pods).1
  <= countIf failedSlot slots + countIf (fun p => isFailed (obj p)) pods.
Proof.
  induction pods as [|p pods IH]; intros slots condemned; [rewrite countIf_nil; cbn; lia|].
  cbn [foldl]. rewrite countIf_cons. unfold placePod at 2.
  pose proof (countIf_insert failedSlot (Z.to_nat (getOrdinal (obj p))) (Some p) slots) as Hins.
  cbn [failedSlot] in Hins.
  repeat case_decide; (etransitivity; [apply IH|]); revert Hins; destruct (isFailed (obj p)); intros; lia.
Qed.

Lemma filled_failed cur upd slots : forall ord replicas,
  fillReplicas cur upd curRev updRev ord slots = Ok replicas ->
  countIf (fun p => isFailed (obj p)) replicas = countIf failedSlot slots
  /\ length replicas = length slots.
Proof.
  induction slots as [|slot slots IH]; intros ord replicas; cbn [fillReplicas]; [by intros [= <-]|].
  destruct slot as [p|]; cbn [mbind Outcome_bind].
  - destruct (fillReplicas _ _ _ _ _ slots) as [rest|] eqn:E; [|done]. intros [= <-].
    apply IH in E as [E1 E2]. rewrite !countIf_cons. cbn. by rewrite E1, E2.
  - destruct (freshPod cur upd curRev updRev ord) as [p|] eqn:Ep; [|done]. cbn [mbind Outcome_bind].
    destruct (fillReplicas _ _ _ _ _ slots) as [rest|] eqn:E; [|done]. intros [= <-].
    apply IH in E as [E1 E2]. apply freshPod_fresh in Ep as (_ & _ & Hf).
    rewrite !countIf_cons. cbn [failedSlot length]. by rewrite Hf, E1, E2.
Qed.

Lemma replicas_failed cur upd n pods slots condemned replicas :
  partitionPods n pods = (slots, condemned) ->
  fillReplicas cur upd curRev updRev 0 slots = Ok replicas ->
  countIf (fun p => isFailed (obj p)) replicas <= countIf isFailed pods.
Proof.
  intros Hpart Hfill. apply filled_failed in Hfill as [-> _].
  pose proof (placed_failed n (listedPods pods) (replicate (Z.to_nat n) None) []) as Hp.
  unfold partitionPods in Hpart. rewrite Hpart in Hp. cbn [fst] in Hp.
  assert (Hnone : countIf failedSlot (replicate (Z.to_nat n) None) = 0).
  { clear. induction (Z.to_nat n) as [|k IH]; [done|]. cbn [replicate]. by rewrite countIf_cons. }
  rewrite Hnone, <-(countIf_fmap obj isFailed) in Hp.
  rewrite listedPods_fmap in Hp. lia.
Qed.

(** One slot adds at most one pod, and takes off at most the failed one it held. *)
Definition within (lo hi ready : Z) (st : StatefulSetStatus) : Prop :=
  lo <= Replicas st <= hi /\ ReadyReplicas st = ready.

Lemma adjustRevisions_tally d pod st :
  Replicas (adjustRevisions curRev updRev d pod st) = Replicas st
  /\ ReadyReplicas (adjustRevisions curRev updRev d pod st) = ReadyReplicas st.
Proof. unfold adjustRevisions. by repeat case_decide. Qed.

Lemma presentReplica_within upd p st w :
  - 2 ^ 31 <= Replicas st -> Replicas st + 1 < 2 ^ 31 ->
  holds (if negb (isCreated (obj p)) then createReplica (W := W) set curRev updRev p st
         else if isTerminating (obj p) && negb (allowsBurst set) then return_ (st, None, p)
         else p ← markInPlaceReady set p st;
              if negb (isRunningAndReady (obj p)) && negb (allowsBurst set)
              then return_ (st, None, p) else enforceIdentity set upd p st) w
    (endsIn (within (Replicas st) (Replicas st + 1) (ReadyReplicas st))).
Proof.
  intros Hlo Hhi. destruct (negb (isCreated (obj p))).
  - unfold createReplica. apply holds_fbind, holds_run, holds_api. intros [[[e|] pod]|r] w'; [| |done].
    { apply holds_fbind, holds_run. unfold withCondition. apply holds_bind, holds_api.
      intros [now|r] w''; [|done]. by apply holds_ret, holds_return. }
    assert (Hst : within (Replicas st) (Replicas st + 1) (ReadyReplicas st)
                    (adjustRevisions curRev updRev 1 pod (addReplicas 1 st))).
    { unfold within. destruct (adjustRevisions_tally 1 pod (addReplicas 1 st)) as [-> ->]. cbn.
      rewrite int32_id; lia. }
    destruct (negb _); [by apply holds_return|by apply holds_fret].
  - eapply holds_mono.
    { by apply (keptReplica_framed (fun st => (Replicas st, ReadyReplicas st)) set upd p st st). }
    intros [[[st' p']|[[st' [e|]] p']]|r] w'; cbn; try done;
      intros Heq; injection Heq as ? ?; unfold within; lia.
Qed.

Lemma syncReplica_within cur upd i p st w :
  let f := if isFailed (obj p) then 1 else 0 in
  f <= Replicas st -> Replicas st + 1 < 2 ^ 31 ->
  holds (syncReplica (W := W) set cur upd curRev updRev i p st) w
    (endsIn (within (Replicas st - f) (Replicas st + 1) (ReadyReplicas st))).
Proof.
  cbv zeta. intros Hf Hhi. unfold syncReplica, recreateFailed. cbv zeta. apply holds_fbind.
  destruct (isFailed (obj p)).
  - apply holds_fbind, holds_run, holds_api. intros [[]|r] w1; [|done].
    apply holds_fbind, holds_run, holds_api. intros [[e|]|r] w2; [by apply holds_return| |done].
    apply holds_fbind, holds_run, holds_lift. destruct (freshPod _ _ _ _ i) as [q|r]; [|done].
    apply holds_fret. set (st1 := addReplicas _ _).
    assert (Hst1 : Replicas st1 = Replicas st - 1 /\ ReadyReplicas st1 = ReadyReplicas st).
    { unfold st1. cbn. destruct (adjustRevisions_tally (-1) (obj p) st) as [-> ->].
      rewrite int32_id; lia. }
    eapply holds_mono; [apply presentReplica_within; lia|].
    destruct Hst1 as [-> ->].
    intros [[[st' p']|[[st' [e|]] p']]|r] w'; cbn; unfold within; try done; lia.
  - apply holds_fret. rewrite Z.sub_0_r. apply presentReplica_within; lia.
Qed.

Lemma syncReplicas_within cur upd todo : forall i done st w,
  let f := countIf (fun p => isFailed (obj p)) todo in
  f <= Replicas st -> Replicas st + count todo < 2 ^ 31 ->
  holds (syncReplicas (W := W) set cur upd curRev updRev i todo done st) w
    (endsIn (within (Replicas st - f) (Replicas st + count todo) (ReadyReplicas st))).
Proof.
  induction todo as [|p todo IH]; intros i done st w; cbv zeta; cbn [syncReplicas].
  { intros _ _. apply holds_fret. unfold within, countIf, count. cbn. lia. }
  rewrite countIf_cons. assert (Hc : count (p :: todo) = 1 + count todo) by (unfold count; cbn [length]; lia).
  pose proof (countIf_nonneg (fun p => isFailed (obj p)) todo) as Hf0.
  assert (Hc0 : 0 <= count todo) by (unfold count; lia). rewrite Hc. intros Hf Hhi.
  pose proof (syncReplica_within cur upd i p st w ltac:(lia) ltac:(lia)) as Hp. unfold holds in *.
  destruct (syncReplica _ _ _ _ _ i p st w) as [[[[st' p']|[[st' [e|]] p']]|r] w'];
    cbn in Hp |- *; unfold within in *; try done.
  - assert (Hfp : 0 <= (if isFailed (obj p) then 1 else 0)) by (destruct (isFailed (obj p)); lia).
    specialize (IH (i + 1) (done ++ [p']) st' w' ltac:(lia) ltac:(lia)). cbv beta in IH.
    destruct (syncReplicas _ _ _ _ _ (i + 1) todo (done ++ [p']) st' w')
      as [[[[st'' reps]|[[st'' [e|]] reps]]|r] w'']; cbn in *; done || lia.
  - lia.
Qed.
End Counters.

(** C17: The status a reconcile reports without error is well formed: no more pods are ready
    than exist, neither number is negative, and [Replicas] exceeds the number of listed
    pods by at most the number of slots. ([CurrentReplicas] has no such bound, see
    [ControlWitnesses.currentReplicas_negative].) *)
Theorem updateStatefulSet_status_wf {W} `{KubeLib, !KubeLibLaws, MapRange, Json Coordinates, PatchLib,
    Json InPlaceUpdateState, HistoryLib, SetCodec, SelectorLib, IntStrLib, GoSort, ErrorText,
    Recorder W, Clock W, StatefulPodControl W} set curRev updRev collisionCount pods revisions w n :
  spec_Replicas (set_Spec set) = Some n -> count pods + n < 2 ^ 31 ->
  holds (updateStatefulSet (W := W) set curRev updRev collisionCount pods revisions) w (fun o _ =>
    forall st reps, o = Ok (Some st, None, reps) ->
      0 <= ReadyReplicas st <= Replicas st /\ Replicas st <= count pods + n
      /\ ReadyReplicas st = count (readyPods pods)).
Proof.
  intros En Hn.
  eapply holds_mono.
  { apply (updateStatefulSet_endsIn set curRev updRev collisionCount pods revisions
      (fun st => (Replicas st, ReadyReplicas st))
      (fun t => 0 <= t.2 <= t.1 /\ t.1 <= count pods + n /\ t.2 = count (readyPods pods)));
      [done..|].
    intros cur upd n' slots condemned replicas w' En' Hn0 Hpart Hfill.
    rewrite En in En'. injection En' as <-. cbn [fst snd].
    destruct (countPods_fields curRev updRev pods (initialStatus set curRev updRev collisionCount))
      as (R1 & R2 & _); cbn; try lia.
    cbn in R1, R2. fold (counted set curRev updRev collisionCount pods) in R1, R2.
    pose proof (replicas_failed curRev updRev cur upd n pods slots condemned replicas Hpart Hfill) as Hf.
    pose proof (countIf_disjoint isFailed isRunningAndReady pods) as Hd.
    change (count (readyPods pods)) with (countIf isRunningAndReady pods) in *.
    pose proof (countIf_nonneg isRunningAndReady pods).
    pose proof (countIf_nonneg isFailed pods).
    specialize (Hd ltac:(intros p; unfold isFailed, isRunningAndReady;
      repeat case_bool_decide; try done; unfold PodFailed, PodRunning in *; congruence)).
    assert (Hlen : count replicas = n).
    { apply filled_failed in Hfill as [_ Hlen]. apply partitionPods_spec in Hpart as [Hl _].
      unfold count. lia. }
    split; [lia|]. eapply holds_mono; [apply syncReplicas_within; lia|].
    intros [[[st reps]|[[st [e|]] reps]]|r] w''; cbn; unfold within; done || lia. }
  intros o w' Ho st reps Heq. exact (Ho st reps Heq).
Qed.
