(* ===== verification/ControlWitnesses.v ===== *)
(** Concrete reconciles: an implementation of the pod interface on which the
    theorems of [ControlSafety] are applied. *)

From S2P Require Import Prelude Objects GoString Libraries Coordinate Cluster Fixtures Naming.
From S2P Require Import Expectations PodIdentity SetStatus InPlace Interfaces Revisions.
From S2P Require Import CallLog Control ControlCalls ControlSafety ControlStatus NoPanic.
From S2P Require Import Convergence Rollout StaleReads.

(** Every call succeeds and leaves the pod as it was sent. *)
#[export] Instance fx_podControl : StatefulPodControl unit := {|
  CreateStatefulPod set pod := mret (None, pod);
  UpdateStatefulPod set pod := mret (None, pod);
  InPlaceUpdateStatefulPod set pod spec := mret None;
  UpdateStatefulPodCondition set pod c := mret (None, updatePodCondition pod c);
  DeleteStatefulPod set pod := mret None;
|}.
#[export] Instance fx_podControl_laws : StatefulPodControlLaws unit.
Proof.
  split; [intros set pod w err pod' w' [= <- <- <-]; reflexivity|..];
    intros set pod c w err pod' w' [= <- <- <-]; reflexivity.
Defined.
#[export] Instance fx_recorder : Recorder unit := {| Event _ _ _ _ w := w |}.
#[export] Instance fx_clock : Clock unit := {| Now w := (0, w) |}.

Definition fx_r1 : ControllerRevision := fx_revision "r1" "nginx:1" 1.
Definition fx_r2 : ControllerRevision := fx_revision "r2" "nginx:2" 2.
Definition fx_ordered : StatefulSet := fx_set 3 "" (fx_rolling 0 1).
Definition fx_parallel : StatefulSet := fx_set 3 ParallelPodManagement (fx_rolling 0 1).
Definition fx_deleted : StatefulSet :=
  mkStatefulSet
    (mkObjectMeta "web" "" "default" "" "" 0 (Some 5) ∅ ∅ [] [])
    (set_Spec fx_ordered) fx_status.
Definition fx_member (i : Z) (rev : string) : Pod :=
  fx_pod "default" ("web-" +:+ itoa i) rev "Running" true.

(** The calls of one reconcile. *)
Definition fx_calls (set : StatefulSet) (pods : list Pod) : list PodCall :=
  (updateStatefulSet (W := unit * list PodCall) set fx_r1 fx_r2 0 pods [fx_r1; fx_r2]
     ((tt, []), ∅)).2.1.2.

Definition fx_verb (c : PodCall) : string * string :=
  (match c with
   | CreateCall _ => "create" | UpdateCall _ => "update" | InPlaceCall _ _ => "in-place"
   | ConditionCall _ _ => "condition" | DeleteCall _ => "delete"
   end, Name (pod_meta (callPod c))).

(** ** Runs *)

Example calls_scale_up :
  fx_verb <$> fx_calls fx_ordered [fx_member 0 "r2"] = [("create", "web-1")].
Proof. vm_compute. reflexivity. Qed.

Example calls_scale_down :
  fx_verb <$> fx_calls fx_ordered
    [fx_member 0 "r2"; fx_member 1 "r2"; fx_member 2 "r2"; fx_member 3 "r2"; fx_member 4 "r2"]
  = [("delete", "web-4")].
Proof. vm_compute. reflexivity. Qed.

Example calls_update :
  fx_verb <$> fx_calls fx_ordered [fx_member 0 "r1"; fx_member 1 "r1"; fx_member 2 "r2"]
  = [("delete", "web-1")].
Proof. vm_compute. reflexivity. Qed.

Example calls_parallel :
  fx_verb <$> fx_calls fx_parallel [fx_member 5 "r2"]
  = [("create", "web-0"); ("create", "web-1"); ("create", "web-2"); ("delete", "web-5")].
Proof. vm_compute. reflexivity. Qed.

(** ** Witnesses *)

Notation fx_reconcile set pods :=
  (updateStatefulSet (W := unit * list PodCall) set fx_r1 fx_r2 0 pods [fx_r1; fx_r2]).

Lemma updateStatefulSet_refines_witness :
  emits (fx_reconcile fx_ordered [fx_member 0 "r2"]) (fun _ cs =>
    cs = [] \/ exists currentSet updateSet n replicas condemned,
      started fx_ordered fx_r1 fx_r2 [fx_member 0 "r2"] currentSet updateSet n replicas condemned
      /\ monotonicCalls fx_ordered fx_r1 fx_r2 currentSet updateSet n replicas condemned cs).
Proof.
  apply (updateStatefulSet_refines fx_ordered fx_r1 fx_r2 0 [fx_member 0 "r2"] [fx_r1; fx_r2]).
  reflexivity.
Defined.

Lemma updateStatefulSet_ordered_creation_witness :
  emits (fx_reconcile fx_ordered [fx_member 0 "r2"]) (fun _ cs =>
    forall pod, CreateCall pod ∈ cs -> exists pre, cs = pre ++ [CreateCall pod]).
Proof.
  eapply emits_mono;
    [apply (updateStatefulSet_ordered_creation fx_ordered fx_r1 fx_r2 0 [fx_member 0 "r2"]
              [fx_r1; fx_r2]); reflexivity|].
  intros o cs Hcs pod Hin. destruct (Hcs pod Hin) as (pre & _ & _ & _ & _ & E & _).
  exists pre. exact E.
Defined.

Lemma updateStatefulSet_ordered_scaleDown_witness :
  emits (fx_reconcile fx_ordered [fx_member 4 "r2"]) (fun _ cs =>
    forall pod, DeleteCall pod ∈ cs ->
      isFailed pod = true \/ exists pre, cs = pre ++ [DeleteCall pod]).
Proof.
  eapply emits_mono;
    [apply (updateStatefulSet_ordered_scaleDown fx_ordered fx_r1 fx_r2 0 [fx_member 4 "r2"]
              [fx_r1; fx_r2] 3 (fx_member 4 "r2"))|].
  - reflexivity.
  - reflexivity.
  - apply list_elem_of_singleton. reflexivity.
  - vm_compute. discriminate.
  - intros o cs Hcs pod Hin. destruct (Hcs pod Hin) as [[Hf _]|(pre & E & _)];
      [left; exact Hf|right; exists pre; exact E].
Defined.

Lemma updateStatefulSet_update_bounded_witness :
  emits (fx_reconcile fx_ordered [fx_member 0 "r1"; fx_member 1 "r1"; fx_member 2 "r2"])
    (fun _ cs => boundedUpdate fx_ordered fx_r1 fx_r2
                   [fx_member 0 "r1"; fx_member 1 "r1"; fx_member 2 "r2"] cs).
Proof.
  apply (updateStatefulSet_update_bounded fx_ordered fx_r1 fx_r2 0
           [fx_member 0 "r1"; fx_member 1 "r1"; fx_member 2 "r2"] [fx_r1; fx_r2]).
Defined.

Lemma updateStatefulSet_parallel_complete_witness :
  emits (fx_reconcile fx_parallel [fx_member 5 "r2"]) (fun o cs =>
    forall st reps, o = Ok (Some st, None, reps) ->
    exists cur upd n,
      ApplyRevision fx_parallel fx_r1 = Ok (inr cur) /\ ApplyRevision fx_parallel fx_r2 = Ok (inr upd)
      /\ spec_Replicas (set_Spec fx_parallel) = Some n
      /\ (forall i, 0 <= i < n -> (forall pod, pod ∈ [fx_member 5 "r2"] -> getOrdinal pod <> i) ->
           exists p, freshPod cur upd fx_r1 fx_r2 i = Ok p /\ CreateCall (obj p) ∈ cs)
      /\ (forall pod, pod ∈ [fx_member 5 "r2"] -> n <= getOrdinal pod ->
           isTerminating pod = false -> DeleteCall pod ∈ cs)).
Proof.
  apply (updateStatefulSet_parallel_complete fx_parallel fx_r1 fx_r2 0 [fx_member 5 "r2"]
           [fx_r1; fx_r2]); reflexivity.
Defined.

Lemma updateStatefulSet_deleted_witness :
  emits (fx_reconcile fx_deleted [fx_member 0 "r2"]) (fun o cs => cs = []).
Proof.
  eapply emits_mono;
    [apply (updateStatefulSet_deleted fx_deleted fx_r1 fx_r2 0 [fx_member 0 "r2"] [fx_r1; fx_r2]);
     discriminate|].
  intros o cs [E _]. exact E.
Defined.

Definition fx_settled : list Pod := [fx_member 0 "r2"; fx_member 1 "r2"; fx_member 2 "r2"].

Lemma updateStatefulSet_settled_witness :
  emits (fx_reconcile fx_ordered fx_settled) (fun o cs => cs = []).
Proof.
  eapply emits_mono;
    [apply (updateStatefulSet_settled fx_ordered fx_r1 fx_r2 0 fx_settled [fx_r1; fx_r2] 3)|].
  - reflexivity.
  - intros i Hi. exists (fx_member i "r2"). unfold fx_settled. rewrite !elem_of_cons.
    assert (i = 0 \/ i = 1 \/ i = 2) as [->|[->| ->]] by lia; (split; [auto|vm_compute; reflexivity]).
  - intros pod. unfold fx_settled. rewrite !elem_of_cons.
    intros [->|[->|[->|[]%not_elem_of_nil]]]; vm_compute; reflexivity.
  - intros pod. unfold fx_settled. rewrite !elem_of_cons.
    intros [->|[->|[->|[]%not_elem_of_nil]]]; (split; [unfold steadyPod; split_and!|]; vm_compute; reflexivity).
  - intros o cs [E _]. exact E.
Defined.

Lemma pods_placed_witness :
  match fillReplicas fx_ordered fx_ordered fx_r1 fx_r2 0 (partitionPods 3 fx_settled).1 with
  | Ok replicas => Z.of_nat (length replicas) = 3
  | Panic _ => False
  end.
Proof.
  destruct (partitionPods 3 fx_settled) as [slots condemned] eqn:E. cbn [fst].
  destruct (fillReplicas fx_ordered fx_ordered fx_r1 fx_r2 0 slots) as [replicas|r] eqn:Ef.
  - apply (pods_placed fx_ordered fx_ordered fx_r1 fx_r2 fx_settled 3 slots condemned replicas);
      [discriminate|exact E|exact Ef].
  - vm_compute in E. injection E as <- <-. vm_compute in Ef. discriminate.
Defined.

(** ** A rollout *)

#[export] Instance fx_podControl_reliable : ReliablePodControl unit.
Proof.
  split; [intros set pod w; exists pod, w; split; reflexivity|intros set pod w; exists w; reflexivity].
Qed.

(** Two outdated pods, one missing, one left over. *)
Definition fx_before : list Pod := [fx_member 0 "r1"; fx_member 1 "r1"; fx_member 4 "r2"].
(** A server that keeps what it is sent, and a kubelet that has pods running at once. *)
Definition fx_answer (pods : list Pod) (c : PodCall) : list Pod :=
  match c with
  | CreateCall pod => pods ++ [pod]
  | DeleteCall pod => filter (fun q => Name (pod_meta q) <> Name (pod_meta pod)) pods
  | _ => pods
  end.
Definition fx_up (pod : Pod) : Pod :=
  if isRunningAndReady pod then pod
  else mkPod (pod_meta pod) (pod_Spec pod) (fx_podStatus "Running" true).
Definition fx_roundCalls (set : StatefulSet) (pods : list Pod) : list PodCall :=
  callsOf fx_r2 set fx_r1 0 pods [fx_r1; fx_r2] tt ∅.
Definition fx_round (set : StatefulSet) (pods : list Pod) : list Pod :=
  fx_up <$> foldl fx_answer pods (fx_roundCalls set pods).
Definition fx_state (set : StatefulSet) (k : nat) : list Pod := Nat.iter k (fx_round set) fx_before.

Lemma fx_answered set cs : forall m pods,
  rolloutCalls set fx_r2 3 0 m cs -> answered cs pods (foldl fx_answer pods cs).
Proof.
  induction cs as [|c cs IH]; intros m pods; [intros _; apply Permutation_refl|]. intros [Hc Hcs].
  exists (fx_answer pods c). split; [|by eapply IH].
  destruct c as [pod| | | |pod]; try done; [|apply Permutation_refl].
  exists pod. split; [done|]. apply Permutation_app_comm.
Qed.
Lemma fx_comeUp set pods : comeUp set pods (fx_up <$> pods).
Proof.
  eexists. split; [reflexivity|]. apply Forall2_fmap_r, Forall_Forall2_diag, list.Forall_forall.
  intros pod _. unfold compose, fx_up. destruct (isRunningAndReady pod) eqn:E.
  - split; [reflexivity|]. split; [exact E|]. intros Hst. exact Hst.
  - split; [reflexivity|]. split; [reflexivity|]. intros [Hr _]. congruence.
Qed.

Example rollout_rounds :
  (fun k => (fun pod => (Name (pod_meta pod), getPodRevision pod)) <$> fx_state fx_ordered k)
    <$> seq 0 8
  = [[("web-0", "r1"); ("web-1", "r1"); ("web-4", "r2")];
     [("web-0", "r1"); ("web-1", "r1"); ("web-4", "r2"); ("web-2", "r2")];
     [("web-0", "r1"); ("web-1", "r1"); ("web-2", "r2")];
     [("web-0", "r1"); ("web-2", "r2")];
     [("web-0", "r1"); ("web-2", "r2"); ("web-1", "r2")];
     [("web-2", "r2"); ("web-1", "r2")];
     [("web-2", "r2"); ("web-1", "r2"); ("web-0", "r2")];
     [("web-2", "r2"); ("web-1", "r2"); ("web-0", "r2")]].
Proof. vm_compute. reflexivity. Qed.

(** With a [maxUnavailable] of 0 the first target ends the update, also when it is up to
    date, so outdated pods below it stay. *)
Example rollout_stalls :
  fx_calls (fx_set 3 "" (fx_rolling 0 0)) [fx_member 0 "r1"; fx_member 1 "r1"; fx_member 2 "r2"] = [].
Proof. vm_compute. reflexivity. Qed.

Lemma fx_selected (name rev : string) :
  Matches (Selector (set_Spec fx_ordered))
    (<[StatefulSetRevisionLabel := rev]>
       (<[StatefulSetPodNameLabel := name]> (Labels (tpl_meta fx_template)))) = true.
Proof.
  cbn. replace (map_to_list _) with [("app", "web")] by (vm_compute; reflexivity). cbn.
  rewrite andb_true_r. apply bool_decide_eq_true_2.
  by rewrite !lookup_insert_ne by (vm_compute; discriminate).
Qed.
Lemma fx_rollout : rollout fx_ordered fx_ordered fx_ordered fx_r1 fx_r2 3 0 1.
Proof.
  split; try reflexivity.
  - split; repeat split.
  - by eexists.
  - intros s [->| ->]; (split; [exact I|split; [reflexivity|apply not_elem_of_nil]]).
  - intros s name rev [->| ->]; apply fx_selected.
  - split; discriminate.
  - eexists _, _. split_and!; try reflexivity; discriminate.
  - split; [discriminate|reflexivity].
Qed.

Lemma fx_reconciled pods : reconcile fx_ordered fx_r2 3 0 pods (fx_roundCalls fx_ordered pods).
Proof.
  apply (Reconciled fx_ordered fx_r2 3 0 pods fx_ordered fx_ordered fx_ordered fx_r1 1);
    [by repeat split|apply fx_rollout|reflexivity].
Qed.

Lemma fx_rounds k :
  orderly fx_ordered (fx_state fx_ordered k)
  /\ round fx_ordered fx_r2 3 0 (fx_state fx_ordered k) (fx_state fx_ordered (S k)).
Proof.
  assert (Hround : forall pods, orderly fx_ordered pods ->
    round fx_ordered fx_r2 3 0 pods (fx_round fx_ordered pods)).
  { intros pods Hord. pose proof (reconcile_advance fx_ordered fx_r2 3 0 _ _ Hord (fx_reconciled pods)) as [Hcs _].
    exists (fx_roundCalls fx_ordered pods), (foldl fx_answer pods (fx_roundCalls fx_ordered pods)).
    split_and!; [apply fx_reconciled|by eapply fx_answered|apply fx_comeUp]. }
  enough (orderly fx_ordered (fx_state fx_ordered k)) by auto.
  induction k as [|k IH].
  - split; [repeat constructor; vm_compute; reflexivity|]. apply (bool_decide_unpack _). vm_compute. exact I.
  - destruct (Hround _ IH) as (cs & raw & Hcs & Hans & Hup).
    apply (advanced_step fx_ordered fx_r2 3 0 True (fx_state fx_ordered k)); [done|].
    exists cs, raw. split; [by apply reconcile_advance|done].
Qed.

Lemma rollout_converges_witness :
  rolledOut fx_r2 3 0 (fx_state fx_ordered 6) /\ fx_roundCalls fx_ordered (fx_state fx_ordered 6) = [].
Proof.
  destruct (rollout_converges fx_ordered fx_r2 3 0 (fx_state fx_ordered)) with (k := 6%nat)
    as (_ & Hr & Hidle).
  - apply (fx_rounds 0).
  - intros k. apply fx_rounds.
  - vm_compute. repeat constructor.
  - split; [exact Hr|apply Hidle, fx_reconciled].
Defined.

(** ** The reported status *)

(** A failed pod at [r1] that is also being deleted. *)
Definition fx_lost : Pod :=
  mkPod
    (mkObjectMeta "web-0" "" "default" "" "" 0 (Some 5)
       (<[StatefulSetPodNameLabel := "web-0"]> (<[StatefulSetRevisionLabel := "r1"]> ∅)) ∅ [] [])
    fx_podSpec (fx_podStatus "Failed" false).

Definition fx_reported (set : StatefulSet) (pods : list Pod) : option (Z * Z * Z * Z) :=
  match (updateStatefulSet (W := unit) set fx_r1 fx_r2 0 pods [fx_r1; fx_r2] (tt, ∅)).1 with
  | Ok (Some st, None, _) =>
      Some (Replicas st, ReadyReplicas st, CurrentReplicas st, UpdatedReplicas st)
  | _ => None
  end.

(** Such a pod is not counted at its revision and is taken off all the same: the number
    of current replicas becomes negative. *)
Example currentReplicas_negative : fx_reported fx_ordered [fx_lost] = Some (1, 0, -1, 1).
Proof. vm_compute. reflexivity. Qed.

Lemma updateStatefulSet_status_wf_witness :
  match fx_reported fx_ordered [fx_lost; fx_member 1 "r2"] with
  | Some (replicas, ready, _, _) => 0 <= ready <= replicas /\ replicas <= 5
  | None => False
  end.
Proof.
  pose proof (updateStatefulSet_status_wf fx_ordered fx_r1 fx_r2 0 [fx_lost; fx_member 1 "r2"]
                [fx_r1; fx_r2] (tt, ∅) 3 eq_refl eq_refl) as Hwf.
  unfold holds in Hwf. unfold fx_reported.
  destruct ((updateStatefulSet (W := unit) fx_ordered fx_r1 fx_r2 0 [fx_lost; fx_member 1 "r2"]
               [fx_r1; fx_r2] (tt, ∅)).1) as [[[[st|] [e|]] reps]|r] eqn:E; try by vm_compute in E.
  destruct (Hwf st reps eq_refl) as (H1 & H2 & _). split; [exact H1|exact H2].
Defined.

(** ** Stale reads *)

Definition fx_old (i : Z) : Pod :=
  mkPod (pod_meta (fx_member i "r1")) (pod_Spec fx_runningPod) (pod_Status fx_runningPod).
Definition fx_olds : list Pod := fx_old <$> [0; 1; 2].

(** One reconcile that updates [web-2] in place, and the cache it leaves. *)
Definition fx_firstSync :=
  updateStatefulSet (W := unit * list Pod) fx_inPlaceSet fx_r1 fx_r2 0 fx_olds [fx_r1; fx_r2]
    ((tt, []), ∅).

Definition fx_secondSync (cache : controllerCache) : list PodCall :=
  (updateStatefulSet (W := unit * list PodCall) fx_inPlaceSet fx_r1 fx_r2 0 fx_olds [fx_r1; fx_r2]
     ((tt, []), observePods fx_inPlaceSet fx_r2 fx_olds cache)).2.1.2.

(** With the cache the same list makes the second reconcile wait; with an empty one it
    would have rewritten the pod again. *)
Example stale_sync_example :
  (fun p => getKey (pod_meta p)) <$> fx_firstSync.2.1.2 = ["default/web-2"]
  /\ fx_secondSync fx_firstSync.2.2 = []
  /\ fx_verb <$> fx_secondSync ∅ = [("condition", "web-2"); ("in-place", "web-2")].
Proof. split_and!; vm_compute; reflexivity. Qed.

Lemma stale_sync_waits_witness :
  Forall (firstPartCall fx_inPlaceSet fx_olds) (fx_secondSync fx_firstSync.2.2).
Proof.
  destruct fx_firstSync as [o [[w' updated] cache']] eqn:E.
  assert (Hq : (fun p => getKey (pod_meta p)) <$> updated = ["default/web-2"]).
  { transitivity ((fun p => getKey (pod_meta p)) <$> fx_firstSync.2.1.2); [by rewrite E|].
    vm_compute. reflexivity. }
  destruct updated as [|q updated]; [discriminate|].
  destruct (stale_sync_waits (W1 := unit) (W2 := unit) fx_inPlaceSet fx_inPlaceSet fx_r2
              fx_r1 0 fx_olds [fx_r1; fx_r2] tt ∅ o w' (q :: updated) cache'
              fx_r1 0 fx_olds [fx_r1; fx_r2] q) with
    (w := ((tt, @nil PodCall), observePods fx_inPlaceSet fx_r2 fx_olds cache')) as (cs & Hlog & Hcs).
  - exact E.
  - by left.
  - reflexivity.
  - intros p Hp _. unfold fx_olds in Hp. cbn [fmap list_fmap] in Hp.
    rewrite !elem_of_cons, elem_of_nil in Hp.
    destruct Hp as [->|[->|[->|[]]]]; vm_compute; discriminate.
  - reflexivity.
  - assert (Hsecond : fx_secondSync cache' = cs) by exact Hlog.
    cbn [snd]. rewrite Hsecond. exact Hcs.
Defined.
