(* ===== verification/InPlaceWitnesses.v ===== *)
(** A concrete rolling update in place, on which the theorem of [InPlaceRollout] is applied. *)

From S2P Require Import Prelude Objects GoString Libraries Coordinate Cluster Fixtures Naming.
From S2P Require Import Expectations PodIdentity SetStatus InPlace Interfaces Revisions.
From S2P Require Import CallLog Control ControlCalls Convergence Rollout InPlaceRollout.
From S2P Require Import ControlWitnesses.


#[export] Instance fx_podControl_inPlace : ReliableInPlace unit.
Proof. split; intros; repeat eexists. Qed.

(** A pod of [fx_inPlaceSet] before its update, when its containers have been replaced but
    its readiness gate is closed, and afterwards. *)
Inductive fx_Stage := fx_Outdated | fx_Replaced | fx_Updated.
Definition fx_gated (i : Z) (stage : fx_Stage) : Pod :=
  let image := match stage with fx_Outdated => "nginx:1" | _ => "nginx:2" end in
  let id := match stage with fx_Outdated => "sha-1" | _ => "sha-2" end in
  let meta := pod_meta (fx_member i (match stage with fx_Outdated => "r1" | _ => "r2" end)) in
  mkPod
    (match stage with
     | fx_Outdated => meta
     | _ => setAnnotations (<[StatefulSetInPlaceUpdateStateAnnotation :=
              marshal (mkInPlaceState "r2" 0 (<["c" := "sha-1"]> ∅))]> ∅) meta
     end)
    (mkPodSpec None [mkContainer "c" image ""] [StatefulSetInPlaceUpdateReady] None "" "" "" "")
    (mkPodStatus "Running"
       (match stage with
        | fx_Replaced => [updateStarts]
        | _ => [mkPodCondition "Ready" "True" "" ""; updateEnds]
        end) [mkContainerStatus "c" id ""] "").

(** The kubelet, for pods of this kind. *)
Definition fx_kubelet (cs : list PodCall) (pod : Pod) : Pod :=
  let name := Name (pod_meta pod) in
  let named c := bool_decide (Name (pod_meta (callPod c)) = name) in
  if existsb (fun c => match c with InPlaceCall _ _ => named c | _ => false end) cs
  then fx_gated (getOrdinal pod) fx_Replaced
  else if existsb (fun c => match c with ConditionCall _ _ => named c | _ => false end) cs
  then fx_gated (getOrdinal pod) fx_Updated
  else pod.

Definition fx_inPlaceSync (s : list Pod * controllerCache) : list PodCall * controllerCache :=
  let w := (updateStatefulSet (W := unit * list PodCall) fx_inPlaceSet fx_r1 fx_r2 0 s.1 [fx_r1; fx_r2]
     ((tt, []), observePods fx_inPlaceSet fx_r2 s.1 s.2)).2 in
  (w.1.2, w.2).
Definition fx_inPlaceNext (s : list Pod * controllerCache) : list Pod * controllerCache :=
  let '(cs, cache) := fx_inPlaceSync s in (fx_kubelet cs <$> s.1, cache).
Definition fx_inPlaceState (k : nat) : list Pod * controllerCache :=
  Nat.iter k fx_inPlaceNext ([fx_gated 0 fx_Outdated; fx_gated 1 fx_Outdated; fx_gated 2 fx_Replaced], ∅).

(** The pods before each reconcile, and its calls. *)
Fixpoint fx_inPlaceTrace (n : nat) (s : list Pod * controllerCache) : list (list Pod * list PodCall) :=
  match n with
  | O => []
  | S n => let '(cs, cache) := fx_inPlaceSync s in
      (s.1, cs) :: fx_inPlaceTrace n (fx_kubelet cs <$> s.1, cache)
  end.
Definition fx_updating (i : Z) : list PodCall :=
  [ConditionCall (fx_gated i fx_Outdated) updateStarts;
   InPlaceCall (updatePodCondition (fx_gated i fx_Outdated) updateStarts) fx_inPlaceSpec].
Definition fx_marking (i : Z) : list PodCall := [ConditionCall (fx_gated i fx_Replaced) updateEnds].
Definition fx_three (a b c : fx_Stage) : list Pod := [fx_gated 0 a; fx_gated 1 b; fx_gated 2 c].
Definition fx_updatedThree : list Pod := fx_three fx_Updated fx_Updated fx_Updated.

Lemma fx_inPlaceTrace_lookup n : forall k s, (k < n)%nat ->
  fx_inPlaceTrace n s !! k
  = Some ((Nat.iter k fx_inPlaceNext s).1, (fx_inPlaceSync (Nat.iter k fx_inPlaceNext s)).1).
Proof.
  induction n as [|n IH]; intros [|k] s Hk; [lia|lia|..]; cbn [fx_inPlaceTrace].
  - cbn. by destruct (fx_inPlaceSync s).
  - rewrite Nat.iter_succ_r. unfold fx_inPlaceNext at 2 4. destruct (fx_inPlaceSync s) as [cs cache].
    apply IH. lia.
Qed.

Example inPlace_rounds :
  fx_inPlaceTrace 6 (fx_inPlaceState 0)
  = [(fx_three fx_Outdated fx_Outdated fx_Replaced, fx_marking 2);
     (fx_three fx_Outdated fx_Outdated fx_Updated, fx_updating 1);
     (fx_three fx_Outdated fx_Replaced fx_Updated, fx_marking 1);
     (fx_three fx_Outdated fx_Updated fx_Updated, fx_updating 0);
     (fx_three fx_Replaced fx_Updated fx_Updated, fx_marking 0);
     (fx_updatedThree, [])].
Proof. vm_compute. reflexivity. Qed.

Lemma fx_gated_name i stage : Name (pod_meta (fx_gated i stage)) = "web-" +:+ itoa i.
Proof. by destruct stage. Qed.

Lemma fx_carriedUpdate cs i :
  InPlaceCall (updatePodCondition (fx_gated i fx_Outdated) updateStarts) fx_inPlaceSpec ∈ cs ->
  carried fx_inPlaceSet cs (fx_gated i fx_Outdated) (fx_gated i fx_Replaced).
Proof.
  intros Hin. eapply CarriedUpdate; [exact Hin|reflexivity|reflexivity|].
  split; [|intros name old Hl|split; reflexivity|by vm_compute].
  - reflexivity.
  - cbn in Hl. apply lookup_insert_Some in Hl as [[<- <-]|[_ Hn]]; [|by rewrite lookup_empty in Hn].
    eexists. split; [reflexivity|done].
Qed.

Lemma fx_carriedMark cs i :
  (forall q spec, InPlaceCall q spec ∈ cs -> False) ->
  ConditionCall (fx_gated i fx_Replaced) updateEnds ∈ cs ->
  carried fx_inPlaceSet cs (fx_gated i fx_Replaced) (fx_gated i fx_Updated).
Proof.
  intros Hno Hin. apply CarriedMark; try reflexivity.
  - intros (q & spec & Hq & _). by eapply Hno.
  - by exists (fx_gated i fx_Replaced).
Qed.
Lemma fx_carriedRest cs pod :
  (forall c, c ∈ cs -> Name (pod_meta (callPod c)) <> Name (pod_meta pod)) ->
  carried fx_inPlaceSet cs pod pod.
Proof.
  intros Hno. apply CarriedRest; try done.
  - intros (q & spec & Hq & E). by apply (Hno _ Hq).
  - intros (q & Hq & E). by apply (Hno _ Hq).
Qed.

Lemma fx_inPlaceRollout pods :
  (forall pod, pod ∈ pods -> exists i stage, pod = fx_gated i stage) ->
  inPlaceRollout fx_inPlaceSet (fx_set 3 "" (fx_rolling 0 1)) (fx_set 3 "" (fx_rolling 0 1))
    fx_r1 fx_r2 3 0 1 [fx_r1; fx_r2] pods.
Proof.
  intros Hpods. split; try reflexivity; try done.
  - eexists. by split_and!.
  - intros pod Hp [_ Hne]. destruct (Hpods pod Hp) as (i & [] & ->); [by eexists|by destruct Hne..].
  - intros name spec pod pod' _ [= <-].
    enough (Hk : forall ops pod, kept (foldl _ pod ops) = kept pod) by apply Hk.
    induction ops as [|[op path [| |image| | |]] ops IH]; intros p; cbn; by rewrite ?IH.
Qed.

Definition fx_gatedAll (pods : list Pod) : Prop :=
  forall pod, pod ∈ pods -> exists i stage, pod = fx_gated i stage.
Lemma fx_three_gated a b c : fx_gatedAll (fx_three a b c).
Proof.
  intros pod Hp. unfold fx_three in Hp. rewrite !elem_of_cons, elem_of_nil in Hp.
  destruct Hp as [->|[->|[->|[]]]]; eauto.
Qed.

Lemma fx_inPlaceReconciled s cs cache :
  fx_gatedAll s.1 -> fx_inPlaceSync s = (cs, cache) ->
  inPlaceReconcile (W := unit) fx_inPlaceSet fx_r2 3 0 s.1 s.2 cs cache.
Proof.
  intros Hs [= <- <-]. eapply InPlaceReconciled; [by repeat split|by apply fx_inPlaceRollout].
Qed.

(** What the kubelet does is what [carried] allows, for the calls of the first rounds. *)
Lemma fx_three_carried cs a b c a' b' c' :
  fx_kubelet cs <$> fx_three a b c = fx_three a' b' c' ->
  carried fx_inPlaceSet cs (fx_gated 0 a) (fx_gated 0 a') ->
  carried fx_inPlaceSet cs (fx_gated 1 b) (fx_gated 1 b') ->
  carried fx_inPlaceSet cs (fx_gated 2 c) (fx_gated 2 c') ->
  Forall2 (carried fx_inPlaceSet cs) (fx_three a b c) (fx_kubelet cs <$> fx_three a b c).
Proof. intros -> ???. by repeat apply list.Forall2_cons_2. Qed.

Lemma fx_updating_others i j stage :
  itoa i <> itoa j -> carried fx_inPlaceSet (fx_updating i) (fx_gated j stage) (fx_gated j stage).
Proof.
  intros Hij. apply fx_carriedRest. intros c Hc E. apply Hij, (inj (String.append "web-")).
  rewrite fx_gated_name in E. rewrite <-E. unfold fx_updating in Hc.
  apply elem_of_cons in Hc as [->|Hc]; [done|]. by apply list_elem_of_singleton in Hc as ->.
Qed.
Lemma fx_marking_others i j stage :
  itoa i <> itoa j -> carried fx_inPlaceSet (fx_marking i) (fx_gated j stage) (fx_gated j stage).
Proof.
  intros Hij. apply fx_carriedRest. intros c Hc E. apply Hij, (inj (String.append "web-")).
  rewrite fx_gated_name in E. rewrite <-E. unfold fx_marking in Hc.
  by apply list_elem_of_singleton in Hc as ->.
Qed.
Lemma fx_updating_own i :
  carried fx_inPlaceSet (fx_updating i) (fx_gated i fx_Outdated) (fx_gated i fx_Replaced).
Proof. apply fx_carriedUpdate. right. left. Qed.
Lemma fx_marking_own i :
  carried fx_inPlaceSet (fx_marking i) (fx_gated i fx_Replaced) (fx_gated i fx_Updated).
Proof.
  apply fx_carriedMark; [|left]. intros q spec Hc. unfold fx_marking in Hc.
  apply list_elem_of_singleton in Hc. discriminate.
Qed.

Ltac fx_three_next a b c :=
  split; [apply fx_three_gated|];
  apply (fx_three_carried _ _ _ _ a b c); [vm_compute; reflexivity|..];
  first [ apply fx_updating_own | apply fx_marking_own
        | apply fx_updating_others; vm_compute; discriminate
        | apply fx_marking_others; vm_compute; discriminate ].

Lemma fx_kubelet_carried k pods cs :
  (k < 5)%nat -> fx_inPlaceTrace 6 (fx_inPlaceState 0) !! k = Some (pods, cs) ->
  fx_gatedAll pods /\ Forall2 (carried fx_inPlaceSet cs) pods (fx_kubelet cs <$> pods).
Proof.
  rewrite inPlace_rounds. intros Hk5 Hk.
  destruct k as [|[|[|[|[|k]]]]]; [injection Hk as <- <-..|lia].
  - fx_three_next fx_Outdated fx_Outdated fx_Updated.
  - fx_three_next fx_Outdated fx_Replaced fx_Updated.
  - fx_three_next fx_Outdated fx_Updated fx_Updated.
  - fx_three_next fx_Replaced fx_Updated fx_Updated.
  - fx_three_next fx_Updated fx_Updated fx_Updated.
Qed.

Lemma fx_inPlaceReady_start : inPlaceReady fx_inPlaceSet fx_r2 3 (fx_inPlaceState 0).
Proof.
  split.
  - apply list.Forall_forall. intros pod Hp. cbn in Hp. rewrite !elem_of_cons, elem_of_nil in Hp.
    destruct Hp as [->|[->|[->|[]]]]; [left|left|right; split; [|done]]; by split_and!.
  - apply (bool_decide_unpack _). by vm_compute.
  - split.
    + intros i Hi. exists (fx_gated i (if decide (i = 2) then fx_Replaced else fx_Outdated)).
      assert (i = 0 \/ i = 1 \/ i = 2) as [->|[-> | ->]] by lia; cbn; rewrite !elem_of_cons;
        (split; [auto|by vm_compute]).
    + intros pod Hp. cbn in Hp. rewrite !elem_of_cons, elem_of_nil in Hp.
      destruct Hp as [->|[->|[->|[]]]]; by vm_compute.
  - intros key Hkey. by apply not_elem_of_empty in Hkey.
Qed.

Lemma fx_updatedThree_updated : updated fx_inPlaceSet fx_r2 0 fx_updatedThree.
Proof.
  intros pod Hp. unfold fx_updatedThree, fx_three in Hp. rewrite !elem_of_cons, elem_of_nil in Hp.
  destruct Hp as [->|[->|[->|[]]]]; (split; [by split_and!|done]).
Qed.

Lemma fx_inPlaceNext_round s :
  inPlaceReady fx_inPlaceSet fx_r2 3 s -> fx_gatedAll s.1 ->
  Forall2 (carried fx_inPlaceSet (fx_inPlaceSync s).1) s.1 (fx_kubelet (fx_inPlaceSync s).1 <$> s.1) ->
  inPlaceRound (W := unit) fx_inPlaceSet fx_r2 3 0 s (fx_inPlaceNext s).
Proof.
  intros Hr Hs Hc. unfold fx_inPlaceNext. destruct (fx_inPlaceSync s) as [cs cache] eqn:E.
  assert (Hrec : inPlaceReconcile (W := unit) fx_inPlaceSet fx_r2 3 0 s.1 s.2 cs cache)
    by by apply fx_inPlaceReconciled.
  destruct (inPlaceReconcile_calls (W := unit) _ _ _ _ _ _ _ Hr Hrec) as (Hcs & _).
  destruct (moves_survive _ _ _ _ _ Hcs) as (Hsv & Hcr & _).
  exists cs, (fx_kubelet cs <$> s.1). split_and!; [done|by rewrite Hsv|by rewrite Hcr, app_nil_r].
Qed.

Lemma fx_row_pods (l : list (list Pod * list PodCall)) k pods cs pods' cs' :
  l !! k = Some (pods, cs) -> l !! k = Some (pods', cs') -> pods = pods'.
Proof. by intros -> [= ->]. Qed.

Lemma fx_inPlace_rounds k :
  inPlaceReady fx_inPlaceSet fx_r2 3 (fx_inPlaceState k)
  /\ ((5 <= k)%nat -> (fx_inPlaceState k).1 = fx_updatedThree)
  /\ inPlaceRound (W := unit) fx_inPlaceSet fx_r2 3 0 (fx_inPlaceState k) (fx_inPlaceState (S k)).
Proof.
  assert (Hrow : forall j, (j < 6)%nat -> fx_inPlaceTrace 6 (fx_inPlaceState 0) !! j
    = Some ((fx_inPlaceState j).1, (fx_inPlaceSync (fx_inPlaceState j)).1))
    by (intros j; apply fx_inPlaceTrace_lookup).
  assert (Hround : forall j, inPlaceReady fx_inPlaceSet fx_r2 3 (fx_inPlaceState j) ->
    ((5 <= j)%nat -> (fx_inPlaceState j).1 = fx_updatedThree) ->
    inPlaceRound (W := unit) fx_inPlaceSet fx_r2 3 0 (fx_inPlaceState j) (fx_inPlaceState (S j))
    /\ ((5 <= j)%nat -> (fx_inPlaceState (S j)).1 = (fx_inPlaceState j).1)).
  { intros j Hr Hj. destruct (decide (j < 5)%nat) as [Hlt|Hge].
    - split; [|lia].
      destruct (fx_kubelet_carried j _ _ Hlt (Hrow j ltac:(lia))). by apply fx_inPlaceNext_round.
    - assert (Hidle : (fx_inPlaceSync (fx_inPlaceState j)).1 = []).
      { destruct (fx_inPlaceSync (fx_inPlaceState j)) as [cs cache] eqn:E.
        apply (inPlaceReconcile_updated (W := unit) fx_inPlaceSet fx_r2 3 0 (fx_inPlaceState j) cs cache);
          [done| |apply fx_inPlaceReconciled; [|done]]; rewrite Hj by lia;
          [apply fx_updatedThree_updated|apply fx_three_gated]. }
      assert (Hsame : fx_kubelet [] <$> (fx_inPlaceState j).1 = (fx_inPlaceState j).1)
        by (rewrite Hj by lia; reflexivity).
      split.
      + apply fx_inPlaceNext_round; [done|rewrite Hj by lia; apply fx_three_gated|]. rewrite Hidle, Hsame.
        apply Forall_Forall2_diag, list.Forall_forall. intros pod _. apply fx_carriedRest.
        by intros c ?%not_elem_of_nil.
      + intros _. change (fx_inPlaceState (S j)) with (fx_inPlaceNext (fx_inPlaceState j)).
        unfold fx_inPlaceNext. destruct (fx_inPlaceSync (fx_inPlaceState j)) as [cs cache].
        cbn in Hidle. by subst cs. }
  assert (Hall : inPlaceReady fx_inPlaceSet fx_r2 3 (fx_inPlaceState k)
    /\ ((5 <= k)%nat -> (fx_inPlaceState k).1 = fx_updatedThree)).
  { induction k as [|k [Hr Hk]]; [split; [apply fx_inPlaceReady_start|lia]|].
    destruct (Hround k Hr Hk) as [Hstep Hstay]. split; [by eapply inPlaceRound_ready|].
    intros Hle. destruct (decide (S k = 5)%nat) as [E|]; [|by rewrite Hstay, Hk by lia].
    rewrite E. eapply fx_row_pods; [apply Hrow; lia|]. by rewrite inPlace_rounds. }
  destruct Hall as [Hr Hk]. split_and!; [done..|]. by apply Hround.
Qed.

Lemma inPlace_converges_witness :
  updated fx_inPlaceSet fx_r2 0 (fx_inPlaceState 5).1
  /\ (Name ∘ pod_meta <$> (fx_inPlaceState 5).1) ≡ₚ ["web-0"; "web-1"; "web-2"].
Proof.
  destruct (inPlace_converges (W := unit) fx_inPlaceSet fx_r2 3 0 fx_inPlaceState) as (_ & Hall).
  - apply (fx_inPlace_rounds 0).
  - intros k. apply fx_inPlace_rounds.
  - destruct (Hall 5%nat) as (Hu & Hn & _); [vm_compute; repeat constructor|].
    split; [exact Hu|exact Hn].
Defined.
