(* ===== verification/FullReconcile.v ===== *)
(** The reconciler of the sets with the components it runs with: the real control, pod
    control, status updater and revision history ([controllers/statefulset_controller.go]
    down to the calls on the API server). *)

From S2P Require Import Prelude Objects GoString Libraries Coordinate Cluster Fixtures Naming.
From S2P Require Import Expectations PodIdentity SetStatus InPlace Interfaces Revisions.
From S2P Require Import CapturedTemplates.
From S2P Require Import CallLog PodControl RealPodControl Control StsController NoPanic.
From S2P Require Import ControlWitnesses.

(** The API server below the expectations cache. *)
#[export] Instance worldClient {W A} `{Client W A} : Client (World W) A := onFst _.
#[export] Instance worldLister {W A} `{Lister W A} : Lister (World W) A := {|
  List_ ns selector w := let (r, w') := List_ ns selector w.1 in (r, (w', w.2));
|}.

(** What is asked of the claiming of pods: it runs its callbacks, and panics only if they
    do. *)
Class RefManagerTotal `{Tolerates, RefManager} := {
  recheck_total {W} (get : M W (Result ObjectMeta)) :
    safe get (fun _ => True) -> safe (RecheckDeletionTimestamp get) (fun _ => True);
  claim_total {W} (patch : string -> string -> string -> M W (option Err)) meta selector
      canAdopt keep pods :
    (forall ns name data, safe (patch ns name data) (fun _ => True)) ->
    safe canAdopt (fun _ => True) ->
    safe (ClaimPods patch meta selector canAdopt keep pods) (fun _ => True);
}.

(** ** The history panics only by going on *)

Section History.
Context {W : Type} `{HistoryLib, Client W ControllerRevision, Lister W ControllerRevision}.
Context `{RetryLaws}.
#[local] Existing Instance mayGoOn.

Lemma createLoop_safe fuel parent revision clone c :
  safe (createLoop (W := W) fuel parent revision clone c) (fun _ => True).
Proof.
  revert clone c. induction fuel as [|fuel IH]; intros clone c; [by apply safe_ret|].
  cbn [createLoop]. apply safe_bind, (safe_mono _ (fun _ => True)).
  - apply safe_then. intros [[[]|] r]; try by apply safe_ret.
    apply safe_then. intros [e|found]; [by apply safe_ret|]. case_decide; by apply safe_ret.
  - intros [[clone' c']|r] _; [apply IH|by apply safe_ret].
Qed.

Lemma realHistory_total fuel : ControllerHistoryTotal W (H0 := realHistory fuel).
Proof.
  split; cbn.
  - intros parent selector. apply safe_then. intros [e|items]; by apply safe_ret.
  - intros parent r c. apply safe_bind, (safe_mono _ (fun _ => True)).
    + destruct c as [c|]; [|by apply safe_ret]. apply safe_bind.
      eapply safe_mono; [apply createLoop_safe|]. intros x _. by apply safe_ret.
    + intros [x|] _; [by apply safe_ret|]. by intros w.
  - intros r n. apply safe_bind. eapply safe_mono; [apply safe_retry|].
    + intros clone. case_decide; [by apply safe_ret|]. apply safe_then. intros [e c]. by apply safe_ret.
    + intros [[e|] c] _; by apply safe_ret.
  - intros r. by apply safe_call.
  - intros parent r. unfold realAdoptControllerRevision.
    destruct (GetControllerOf _); [by apply safe_ret|]. apply safe_then.
    intros [[e|] r']; [by apply safe_ret|by apply safe_call].
Qed.
End History.

(** ** The whole reconcile *)

Section Whole.
Context {W : Type} `{KubeLib, !KubeLibLaws, MapRange, Json Coordinates, PatchLib,
  Json InPlaceUpdateState}.
Context `{HistoryLib, !HistoryLibLaws, SetCodec, SelectorLib, IntStrLib, GoSort, !GoSortLaws}.
Context `{!CodecLaws, !PatchLaws}.
Context `{ErrorText, Recorder W, Clock W, RetryLaws, Aggregate, RefManager, !RefManagerLaws}.
Context `{Client W StatefulSet, Client W PersistentVolumeClaimT}.
Context `{Client W Pod, !StatusLaws pod_meta, !StatusStored pod_Status, !KeyLaws pod_meta}.
Context `{Client W ControllerRevision, !ClientLaws rev_meta Data, Lister W Pod, Lister W ControllerRevision}.
Context (fuel : nat).
#[local] Existing Instance mayGoOn.
#[local] Instance theHistory : ControllerHistory W := realHistory fuel.
#[local] Instance theHistory_total : ControllerHistoryTotal W := realHistory_total fuel.
#[local] Instance theHistory_laws : ControllerHistoryLaws W := realHistory_laws fuel.
Context `{!RefManagerTotal}.

(** The set as the reconciler goes on with it. *)
Definition defaulted (set : StatefulSet) : StatefulSet :=
  withSpec (checkSetDefaultVariable (set_Spec set)).1 set.













(** ** Orphans among owned revisions *)

Lemma holds_below {A} (m : M W A) w (Q : Outcome A -> World W -> Prop) :
  holds m w.1 (fun o w' => Q o (w', w.2)) -> holds (api m) w Q.
Proof. destruct w as [w c]. unfold holds, api. cbn. by destruct (m w). Qed.

(** Adopting fails at the first revision that has an owner. *)
Lemma adoptAll_owned set revisions r w :
  r ∈ revisions -> GetControllerOf (rev_meta r) <> None ->
  holds (W := W) (AdoptOrphanRevisions set revisions) w (fun o _ =>
    exists e l, o = Ok (Some e, l)).
Proof.
  intros Hr Ho. revert w. induction revisions as [|r' l IH]; intros w.
  { by apply not_elem_of_nil in Hr. }
  cbn [AdoptOrphanRevisions]. apply holds_bind.
  destruct (decide (GetControllerOf (rev_meta r') = None)) as [Hn|Hn].
  - assert (Hl : r ∈ l) by (apply elem_of_cons in Hr as [->|?]; done).
    cbn. unfold realAdoptControllerRevision. rewrite Hn. apply holds_bind, holds_call.
    assert (Hrest : forall res w', holds (match res with
        | inl err => mret (Some err, r' :: l)
        | inr r1 => rest ← AdoptOrphanRevisions (W := W) set l; mret (rest.1, r1 :: rest.2)
        end) w' (fun o _ => exists e l, o = Ok (Some e, l))).
    { intros [e|r1] w'; [apply holds_ret; by eexists _, _|]. apply holds_bind.
      eapply holds_mono; [by apply IH|]. intros o w2 (e & l' & ->). apply holds_ret. by eexists _, _. }
    destruct (Patch r' _ w) as [[[e|] r1] w']; cbn [fst snd];
      [apply holds_ret, (Hrest (inl e))|apply holds_call, Hrest].
  - cbn. unfold realAdoptControllerRevision.
    destruct (GetControllerOf (rev_meta r')) as [owner|]; [|done].
    apply holds_ret, holds_ret. by eexists _, _.
Qed.

(** C22: One orphaned revision next to an owned one stops the reconciler for good: every
    listed revision is adopted, not only the orphans, and the history refuses a revision
    that has an owner. So from any world in which the revisions of the set include one of
    each kind, a reconcile ends in an error before it syncs the set, whatever the server
    answers afterwards; and the error comes back as long as the two are there. *)
Theorem Reconcile_orphan_blocks req (w : World W) set w1 items orphan owned ref :
  Get (A := StatefulSet) (realReconcileName req) w.1 = (inr set, w1) ->
  LabelSelectorAsSelector (Selector (set_Spec (defaulted set))) = None ->
  (List_ (A := ControllerRevision) (Namespace (set_meta set))
     (Selector (set_Spec (defaulted set))) w1).1 = inr items ->
  orphan ∈ items -> GetControllerOf (rev_meta orphan) = None ->
  owned ∈ items -> GetControllerOf (rev_meta owned) = Some ref ->
  owner_UID ref = UID (set_meta set) ->
  exists e, (Reconcile req w).1 = Ok (Some e).
Proof.
  intros Hset Hsel Hlist Hin Ho Hin' Ho' Huid.
  enough (holds (Reconcile req) w (fun o _ => exists e, o = Ok (Some e))) as H' by exact H'.
  destruct w as [w0 cache]. cbn in Hset. unfold Reconcile. apply holds_bind, holds_call.
  cbn [Get worldClient onFst]. cbn [fst snd]. rewrite Hset. cbn [fst snd].
  unfold defaulted in Hsel, Hlist.
  destruct (checkSetDefaultVariable (set_Spec set)) as [spec err]. cbn [fst] in Hsel, Hlist.
  rewrite Hsel. apply holds_bind.
  cut (holds (adoptOrphanRevisions (withSpec spec set)) (w1, cache) (fun o _ =>
    exists e, o = Ok (Some e))).
  { intros Hc. eapply holds_mono; [exact Hc|]. intros o w' [e ->]. apply holds_ret. by exists e. }
  unfold adoptOrphanRevisions. apply holds_bind. cbn [control_ListRevisions realControl].
  unfold ListRevisions. rewrite Hsel.
  apply holds_below, holds_bind, holds_call. cbn [fst snd set_meta withSpec] in *. rewrite Hlist.
  apply holds_ret. set (w2 := (_, cache)). clearbody w2.
  set (listed := filter _ items).
  assert (Hl : orphan ∈ listed).
  { apply list_elem_of_filter. unfold ownedOrOrphan. by rewrite Ho. }
  assert (Hl' : owned ∈ listed).
  { apply list_elem_of_filter. unfold ownedOrOrphan. rewrite Ho'. split; [|done].
    by apply bool_decide_eq_true_2. }
  destruct (existsb _ listed) eqn:Ee.
  2: { apply not_true_iff_false in Ee. destruct Ee. apply existsb_exists. exists orphan.
       split; [by apply list_elem_of_In|by apply bool_decide_eq_true_2]. }
  apply holds_bind, (holds_mono _ _ (fun o _ => exists r, o = Ok r)).
  { apply holds_bind, holds_call. destruct (Get _ w2).1 as [e|fresh]; [by eexists|].
    case_decide; by eexists. }
  intros o w3 [[e|m] ->]; [apply holds_ret; by exists e|].
  apply holds_bind, holds_below. eapply holds_mono; [apply (adoptAll_owned _ listed owned)|].
  - done.
  - by rewrite Ho'.
  - intros o w4 (e & l & ->). apply holds_ret. by exists e.
Qed.
End Whole.

(** ** Witnesses: a server that never changes

    It holds a set that updates its pods in place, its three pods, all of one revision, and
    that revision and the set's present one. It lists the two with the set as their owner,
    together with an orphan if the flag is set. *)

Record fx_still := mkStill { fx_withOrphan : bool }.

#[local] Instance fx_stillCodec : SetCodec := fx_templateCodec.
#[local] Instance fx_stillPatches : PatchLib := fx_templatePatches.
#[local] Instance fx_stillCodec_laws : CodecLaws := fx_codec_laws.
#[local] Instance fx_stillPatch_laws : PatchLaws := fx_patch_laws.

Definition fx_stillSet : StatefulSet := fx_setWith "nginx:2".
Definition fx_owning (r : ControllerRevision) : ControllerRevision :=
  overRevMeta (setOwnerReferences
    [mkOwnerReference "nuwa.nip.io/v1" "StatefulSet" "web" (UID (set_meta fx_stillSet))
       (Some true) (Some true)]) r.
Definition fx_ownedOld : ControllerRevision := fx_owning (fx_revision "r1" "nginx:1" 1).
Definition fx_ownedNew : ControllerRevision := fx_owning (fx_revision "r2" "nginx:2" 2).
Definition fx_orphan : ControllerRevision := fx_revision "r0" "nginx:0" 0.
Definition fx_stillMembers : list Pod := [fx_member 0 "r1"; fx_member 1 "r1"; fx_member 2 "r1"].

(** What is found under a key. *)
Definition fx_under {A} (metaOf : A -> ObjectMeta) (found : list A) (k : ObjectKey) : Result A :=
  match list_find (fun a => keyOf (metaOf a) = k) found with
  | Some (_, a) => inr a
  | None => inl ErrNotFound
  end.
Lemma fx_under_key {A} metaOf (found : list A) k a :
  fx_under metaOf found k = inr a -> a ∈ found /\ keyOf (metaOf a) = k.
Proof.
  unfold fx_under. destruct (list_find _ found) as [[i x]|] eqn:E; [|done].
  apply list_find_Some in E as (Hin%list_elem_of_lookup_2 & Hk & _). by intros [= <-].
Qed.

(** Objects are found; creating is refused if there is a refusal, and other writes do
    nothing. *)
Definition fx_answering {A} (metaOf : A -> ObjectMeta) (found : list A) (refusal : option Err)
  : Client fx_still A := {|
  Get k w := (fx_under metaOf found k, w);
  Create a w := ((refusal, a), w);
  Update a w := ((None, a), w);
  StatusUpdate a w := ((None, a), w);
  Delete a w := (None, w);
  Patch a _ w := ((None, a), w);
|}.
#[local] Instance fx_stillSets : Client fx_still StatefulSet := fx_answering set_meta [fx_stillSet] None.
#[local] Instance fx_stillPods : Client fx_still Pod := fx_answering pod_meta fx_stillMembers None.
#[local] Instance fx_stillClaims : Client fx_still PersistentVolumeClaimT :=
  fx_answering pvc_meta [] None.
#[local] Instance fx_stillRevisions : Client fx_still ControllerRevision :=
  fx_answering rev_meta [fx_orphan] (Some (ErrMsg "no more revisions")).

#[local] Instance fx_stillPods_keys : KeyLaws (W := fx_still) pod_meta.
Proof.
  split; try by intros a w err a' w' [= _ <- _].
  intros k w a Hget. by apply fx_under_key in Hget as [_ ?].
Defined.
#[local] Instance fx_stillPods_status : StatusLaws (W := fx_still) pod_meta.
Proof. split; by intros a w err a' w' [= _ <- _]. Defined.
#[local] Instance fx_stillPods_stored : StatusStored (W := fx_still) pod_Status.
Proof. split; by intros a w err a' w' [= _ <- _]. Defined.
#[local] Instance fx_stillRevisions_laws : ClientLaws (W := fx_still) rev_meta Data.
Proof.
  refine {| stored _ := {[keyOf (rev_meta fx_orphan) := fx_orphan]} |}; try done.
  - intros k w a Hget. apply fx_under_key in Hget as [->%list_elem_of_singleton <-].
    apply lookup_singleton_eq.
  - intros k w. cbn. unfold fx_under. cbn. case_decide as Hk; [done|]. intros _.
    rewrite lookup_insert_ne; [apply lookup_empty|done].
  - by intros a w err a' w' [= _ <- _].
Defined.

#[local] Instance fx_stillPodList : Lister fx_still Pod := {|
  List_ ns _ w := (inr (filter (fun pod => Namespace (pod_meta pod) = ns) fx_stillMembers), w);
|}.
#[local] Instance fx_stillRevisionList : Lister fx_still ControllerRevision := {|
  List_ _ _ w := (inr ((if fx_withOrphan w then [fx_orphan] else []) ++ [fx_ownedOld; fx_ownedNew]), w);
|}.
#[local] Instance fx_stillRecorder : Recorder fx_still := {| Event _ _ _ _ w := w |}.
#[local] Instance fx_stillClock : Clock fx_still := {| Now w := (0, w) |}.
#[local] Instance fx_stillHistory : ControllerHistory fx_still := realHistory 1.
#[local] Instance fx_refs_total `{Tolerates} : RefManagerTotal.
Proof.
  split.
  - intros W get Hget. apply safe_bind. eapply safe_mono; [exact Hget|]. intros r _. by apply safe_ret.
  - intros W patch meta selector canAdopt keep pods _ _. by apply safe_ret.
Defined.

Example fx_still_runs :
  (Reconcile (mkKey "default" "web") (mkStill false, ∅)).1 = Ok None
  /\ (Reconcile (mkKey "default" "web") (mkStill true, ∅)).1
     = Ok (Some (ErrMsg "attempt to adopt revision owned by web")).
Proof. vm_compute. done. Qed.

(** The pods of the old revision are updated in place. *)
Example fx_still_plan :
  shouldDoInPlaceUpdate fx_stillSet fx_ownedNew "r1" [fx_ownedOld; fx_ownedNew]
  = Ok (Some (mkInPlaceSpec "r2" [mkPatchOp "replace" "/spec/containers/0/image" (JString "nginx:2")]
                {["c" := "nginx:2"]})).
Proof. vm_compute. reflexivity. Qed.






Lemma Reconcile_orphan_blocks_witness :
  exists e, (Reconcile (mkKey "default" "web") (mkStill true, ∅)).1 = Ok (Some e).
Proof.
  eapply (Reconcile_orphan_blocks 1 (mkKey "default" "web") (mkStill true, ∅) fx_stillSet
            (mkStill true) [fx_orphan; fx_ownedOld; fx_ownedNew] fx_orphan fx_ownedOld).
  - reflexivity.
  - reflexivity.
  - reflexivity.
  - by left.
  - reflexivity.
  - right. by left.
  - reflexivity.
  - reflexivity.
Defined.
