(* ===== verification/ServerRollout.v ===== *)
(** A rollout with the pod control the operator runs with, on a server that keeps what is
    written to it, but may fail any call: what [Rollout] shows of a pod control that
    accepts every call holds of this one up to the first failure, where it stops. *)

From S2P Require Import Prelude Objects GoString Libraries Coordinate Naming Fixtures.
From S2P Require Import PodIdentity SetStatus InPlace Cluster CallLog Interfaces Expectations.
From S2P Require Import Revisions PodControl Control ServerStore LoopInvariants LoopSimulation.
From S2P Require Import ControlCalls ControlSafety NoPanic Convergence Rollout.

(** ** Calls that are made to look successful *)

(** The calls of an implementation, with a failed create or delete reported as done. *)
Definition forcedPodControl {W} `{StatefulPodControl W} : StatefulPodControl W := {|
  CreateStatefulPod set pod := fun w =>
    let (o, w') := CreateStatefulPod set pod w in
    (match o with
     | Ok (None, pod') => if decide (getPodRevision pod' = getPodRevision pod)
                          then Ok (None, pod') else Ok (None, pod)
     | _ => Ok (None, pod)
     end, w');
  UpdateStatefulPod := UpdateStatefulPod;
  InPlaceUpdateStatefulPod := InPlaceUpdateStatefulPod;
  UpdateStatefulPodCondition := UpdateStatefulPodCondition;
  DeleteStatefulPod set pod := fun w => (Ok None, (DeleteStatefulPod set pod w).2);
|}.

Lemma forced_reliable {W} `{StatefulPodControl W} : @ReliablePodControl W forcedPodControl.
Proof.
  split; cbn.
  - intros set pod w. destruct (CreateStatefulPod set pod w) as [[[[e|] pod']|r] w']; [by eexists _, _| |by eexists _, _].
    destruct (decide _); by eexists _, _.
  - intros set pod w. by eexists.
Qed.

(** ** The operator's run and one whose calls are made to look successful

    [after log w] says that [w] is what the calls of [log] have made of some first world, while
    they are calls that [okLog] allows; [broken log w] says what holds of [w] when the
    operator's run has failed. *)

Section Forced.
Context {W : Type} (after broken : list PodCall -> W -> Prop) (okLog : list PodCall -> Prop).
Context `{!forall log, Decision (okLog log)}.
Hypothesis ok_app : forall log cs, okLog (log ++ cs) -> okLog log.
Hypothesis broken_app : forall log cs w, broken log w -> broken (log ++ cs) w.

(** The two worlds, while the calls made are allowed. *)
Definition inStep (s : World W) (s' : World (W * list PodCall)) : Prop :=
  s.1 = s'.1.1 /\ s.2 = s'.2 /\ after s'.1.2 s.1.
Definition offCourse (s' : World (W * list PodCall)) : Prop := ~ okLog s'.1.2.
Definition stopped (s : World W) (s' : World (W * list PodCall)) : Prop := broken s'.1.2 s.1.
Notation agrees := (agrees inStep offCourse stopped).

Lemma longer_keeps {A} (m' : M (World (W * list PodCall)) A) :
  (forall s', s'.1.2 `prefix_of` (m' s').2.1.2) -> keeps offCourse stopped m'.
Proof using ok_app broken_app.
  intros Hlog. unfold offCourse, stopped. split; [intros s' Hoff Hok; apply Hoff|intros s s' Hb];
    destruct (Hlog s') as [cs E]; rewrite E in *; eauto.
Qed.

(** A call that has its reply, and the forced one. *)
Lemma logged_agrees {A} fails c (m m' : M W A) :
  (forall w log, after log w -> okLog (log ++ [c]) ->
     (m' w = m w /\ after (log ++ [c]) (m w).2)
     \/ exists a, (m w).1 = Ok a /\ fails a /\ broken (log ++ [c]) (m w).2) ->
  agrees fails (api m) (api (logged c m')).
Proof.
  intros Hm. split.
  { apply longer_keeps. intros [[w log] cache]. unfold api, logged. destruct (m' w) as [o w']. cbn.
    by apply prefix_app_r. }
  intros [w cache] [[w' log] cache'] (Hw & Hc & Haft). cbn in Hw, Hc, Haft. subst w' cache'.
  destruct (decide (okLog (log ++ [c]))) as [Hok|Hoff].
  2: { left. unfold api, logged. by destruct (m' w) as [o w1]. }
  right. unfold api, logged. destruct (Hm w log Haft Hok) as [[Em Ha]|(a & Ea & Hfail & Ha)].
  - left. rewrite Em. destruct (m w) as [o w1]. by split_and!.
  - right. exists a. destruct (m w) as [o w1], (m' w) as [o' w1']. by split_and!.
Qed.

(** A call the forced control passes on and that is not allowed. *)
Lemma foreign_agrees {A} c (m m' : M W A) :
  (forall log, ~ okLog (log ++ [c])) -> agrees never (api m) (api (logged c m')).
Proof. intros Hc. apply logged_agrees. intros w log _ H'. by apply Hc in H'. Qed.

Lemma quiet_agrees {A} (f : W -> A * W) (f' : W * list PodCall -> A * (W * list PodCall)) :
  (forall w log, f' (w, log) = ((f w).1, ((f w).2, log))) ->
  (forall log w, after log w -> after log (f w).2) ->
  agrees never (api (call f)) (api (call f')).
Proof.
  intros Ef Hf. split.
  { apply longer_keeps. intros [[w log] cache]. unfold api, call. by rewrite Ef. }
  intros [w cache] [[w' log] cache'] (Hw & Hc & Haft). cbn in Hw, Hc, Haft. subst w' cache'.
  right; left. unfold api, call. rewrite Ef. pose proof (Hf log w Haft). destruct (f w) as [a w1].
  by split_and!.
Qed.

Lemma onCache_agrees f : agrees never (onCache f) (onCache f).
Proof.
  split; [by apply longer_keeps; intros [[w log] cache]|].
  intros [w cache] [[w' log] cache'] (? & Hc & ?).
  right; left. split; [done|]. split_and!; [done| |done]. cbn in *. by f_equal.
Qed.
Lemma readCache_agrees {A} (f : controllerCache -> A) : agrees never (readCache f) (readCache f).
Proof.
  split; [by apply longer_keeps; intros [[w log] cache]|].
  intros [w cache] [[w' log] cache'] (? & Hc & ?). right; left. cbn in Hc. subst. by split_and!.
Qed.
End Forced.

(** ** The pods of a set on a server *)

Section Server.
Context {W : Type} `{KubeLib, MapRange, Json Coordinates, PatchLib, Json InPlaceUpdateState}.
Context `{Client W Pod, Client W PersistentVolumeClaimT, Retry, Aggregate, ErrorText}.
Context `{Recorder W, Clock W}.
Context `{!Store pod_meta kept, !Deletes W Pod pod_meta kept}.

Definition podsOf (w : W) : gmap ObjectKey Pod := objects w.

(** Events, the clock and claims are no business of the pods. *)
Class PodsApart : Prop := {
  event_pods m t r msg w : podsOf (Event m t r msg w) = podsOf w;
  now_pods w : podsOf (Now w).2 = podsOf w;
  claims_pods :: Apart PersistentVolumeClaimT podsOf;
}.
Context `{!PodsApart}.
Implicit Types w : W.

Definition members (set : StatefulSet) (w : W) : list Pod :=
  filter (fun pod => Namespace (pod_meta pod) = Namespace (set_meta set) /\ isMemberOf set pod = true)
    (map_to_list (podsOf w)).*2.

Lemma members_pods set w w' : podsOf w' = podsOf w -> members set w' = members set w.
Proof. unfold members. by intros ->. Qed.

Lemma elem_of_members set pod w :
  pod ∈ members set w <->
  podsOf w !! keyOf (pod_meta pod) = Some pod
  /\ Namespace (pod_meta pod) = Namespace (set_meta set) /\ isMemberOf set pod = true.
Proof.
  unfold members. rewrite list_elem_of_filter, list_elem_of_fmap. split.
  - intros [[Hns Hm] ([k q] & -> & Hq%elem_of_map_to_list)]. cbn in *.
    split_and!; [|done..]. by rewrite (store_key k w q).
  - intros (Hq & Hns & Hm). split; [done|]. exists (keyOf (pod_meta pod), pod).
    split; [done|]. by apply elem_of_map_to_list.
Qed.

Lemma members_NoDup set w : NoDup (members set w).
Proof.
  apply list.NoDup_filter, (NoDup_fmap_1 (fun pod => keyOf (pod_meta pod))).
  rewrite <-list_fmap_compose. erewrite Forall_fmap_ext_1; [apply NoDup_fst_map_to_list|].
  apply list.Forall_forall. intros [k pod] Hp%elem_of_map_to_list. by apply (store_key k w).
Qed.

Lemma identity_member set pod :
  identityMatches set pod = true ->
  Namespace (pod_meta pod) = Namespace (set_meta set) /\ isMemberOf set pod = true.
Proof.
  intros (o & E & _ & _ & Hns & _)%identityMatches_spec. split; [done|].
  unfold isMemberOf, getParentName. rewrite E. by apply bool_decide_eq_true.
Qed.

(** *** Creating *)

Lemma recordEvent_pods m t r msg w (Q : Outcome () -> W -> Prop) :
  (forall w', podsOf w' = podsOf w -> Q (Ok ()) w') -> holds (recordEvent m t r msg) w Q.
Proof. intros HQ. apply holds_call, HQ, event_pods. Qed.
Lemma recordPodEvent_pods verb set pod err w (Q : Outcome () -> W -> Prop) :
  (forall w', podsOf w' = podsOf w -> Q (Ok ()) w') -> holds (recordPodEvent verb set pod err) w Q.
Proof. intros HQ. unfold recordPodEvent. destruct err; by apply recordEvent_pods. Qed.
Lemma recordClaimEvent_pods verb set pod claim err w (Q : Outcome () -> W -> Prop) :
  (forall w', podsOf w' = podsOf w -> Q (Ok ()) w') ->
  holds (recordClaimEvent verb set pod claim err) w Q.
Proof. intros HQ. unfold recordClaimEvent. destruct err; by apply recordEvent_pods. Qed.

Lemma ensureClaim_pods set pod claim errs w :
  holds (ensureClaim set pod claim errs) w (fun o w' =>
    (exists errs', o = Ok errs') /\ podsOf w' = podsOf w).
Proof.
  unfold ensureClaim. apply holds_bind, holds_call.
  pose proof (apart_get (A := PersistentVolumeClaimT) (part := podsOf) (keyOf (pvc_meta claim)) w) as Hp.
  destruct (Get (A := PersistentVolumeClaimT) (keyOf (pvc_meta claim)) w) as [[e|c] w1];
    cbn [fst snd] in *; [|apply holds_ret; eauto].
  destruct (IsNotFound e).
  - pose proof (apart_create (part := podsOf) claim w1) as Hp2. apply holds_bind, holds_call.
    destruct (Create claim w1) as [[err c] w2]. cbn [fst snd] in *.
    destruct err as [[]|]; try (apply holds_bind, recordClaimEvent_pods; intros w3 Hp3);
      apply holds_ret; (split; [eauto|congruence]).
  - apply holds_bind, recordClaimEvent_pods. intros w2 Hp2. apply holds_ret. split; [eauto|congruence].
Qed.

Lemma createClaims_pods set pod w :
  is_Some (Selector (set_Spec set)) ->
  holds (createPersistentVolumeClaims set pod) w (fun o w' =>
    (exists err, o = Ok err) /\ podsOf w' = podsOf w).
Proof.
  intros Hsel. unfold createPersistentVolumeClaims, getPersistentVolumeClaims.
  destruct (claimsFrom_total set (getOrdinal pod) (VolumeClaimTemplates (set_Spec set)) ∅ Hsel) as [claims ->].
  apply holds_bind, holds_lift, holds_bind.
  eapply (holds_mono _ _ (fun o w' => (exists errs, o = Ok errs) /\ podsOf w' = podsOf w)).
  2: { intros o w' [[errs ->] Hp]. apply holds_ret. eauto. }
  generalize (mapRange claims), (@nil Err). intros l. revert w.
  induction l as [|[k claim] l IH]; intros w errs; cbn [forEach]; [apply holds_ret; eauto|].
  apply holds_bind. eapply holds_mono; [apply ensureClaim_pods|].
  intros o w' [[errs' ->] Hp]. eapply holds_mono; [apply IH|]. intros o w'' [? Hp']. split; [done|congruence].
Qed.

(** What a create and a delete leave, with or without an error, as the [answer] of a server
    that may have failed. *)
Definition reply (set : StatefulSet) (c : PodCall) (err : option Err) (w w' : W) : Prop :=
  answer c (members set w) (members set w')
  \/ (err <> None /\ members set w' ≡ₚ members set w).

(** Creating a pod whose key is free. *)
Lemma create_reply set pod w :
  is_Some (Selector (set_Spec set)) -> identityMatches set pod = true ->
  podsOf w !! keyOf (pod_meta pod) = None ->
  exists err pod' w', realCreateStatefulPod set pod w = (Ok (err, pod'), w')
    /\ (err = None -> kept pod' = kept pod) /\ reply set (CreateCall pod) err w w'.
Proof.
  intros Hsel Hid Hfree.
  assert (Hw : holds (realCreateStatefulPod set pod) w (fun o w' => exists err pod',
    o = Ok (err, pod') /\ (err = None -> kept pod' = kept pod) /\ reply set (CreateCall pod) err w w')).
  { unfold realCreateStatefulPod. apply holds_bind.
    eapply holds_mono; [by apply createClaims_pods|]. intros o w1 [[err0 ->] Hp1].
    destruct err0 as [e|].
    { apply holds_bind, recordPodEvent_pods. intros w2 Hp2. apply holds_ret. exists (Some e), pod.
      split_and!; [done..|]. right. split; [done|]. rewrite (members_pods set w w2) by congruence. done. }
    apply holds_bind, holds_call. destruct (Create pod w1) as [[err pod'] w2] eqn:Ec. cbn [fst snd].
    pose proof (store_create _ _ _ _ _ Ec) as (Hkey & Hkept & Hst). cbn in Hst.
    assert (Hnew : objects w2 = <[keyOf (pod_meta pod) := pod']> (objects w1) ->
      members set w2 ≡ₚ pod' :: members set w).
    { intros E. unfold members, podsOf in *. rewrite E, Hp1, map_to_list_insert by done.
      cbn [fmap list_fmap]. rewrite filter_cons_True; [done|]. cbn.
      destruct (identity_member set pod Hid) as [Hns Hmem]. injection Hkept as Hn Hns' _.
      split; [congruence|]. rewrite <-Hmem. unfold isMemberOf, getParentName.
      by rewrite (parentAndOrdinal_Name pod' pod). }
    assert (Hreply : reply set (CreateCall pod) err w w2).
    { destruct err as [e|]; [destruct Hst as [Hst|Hst]|].
      - right. split; [done|]. rewrite (members_pods set w w2); [done|].
        unfold podsOf in *. congruence.
      - left. exists pod'. auto.
      - left. exists pod'. auto. }
    assert (Hend : forall w3, podsOf w3 = podsOf w2 -> reply set (CreateCall pod) err w w3).
    { intros w3 Hp3. revert Hreply. unfold reply. by rewrite (members_pods set w2 w3). }
    destruct err as [[]|]; try (apply holds_bind, recordPodEvent_pods; intros w3 Hp3); apply holds_ret;
      eexists _, pod'; (split; [done|]); split; auto. }
  unfold holds in Hw. destruct (realCreateStatefulPod set pod w) as [o w'].
  cbn [fst snd] in Hw. destruct Hw as (err & pod' & -> & ? & ?). by eexists _, _, _.
Qed.

(** Deleting a member. *)
Lemma delete_reply set pod w :
  identityMatches set pod = true ->
  exists err w', realDeleteStatefulPod set pod w = (Ok err, w')
    /\ reply set (DeleteCall pod) err w w'.
Proof.
  intros Hid.
  assert (Hgone : forall w', podsOf w' = delete (keyOf (pod_meta pod)) (podsOf w) ->
    answer (DeleteCall pod) (members set w) (members set w')).
  { intros w' Hobj. apply NoDup_Permutation; [apply members_NoDup|apply list.NoDup_filter, members_NoDup|].
    destruct (identity_member set pod Hid) as [Hns _].
    intros q. rewrite list_elem_of_filter, !elem_of_members, Hobj, lookup_delete_Some.
    unfold keyOf. split; [|naive_solver congruence]. intros [[Hk ?] [Hq ?]]. split; [|done].
    intros E. apply Hk. congruence. }
  assert (Hw : holds (realDeleteStatefulPod set pod) w (fun o w' => exists err,
    o = Ok err /\ reply set (DeleteCall pod) err w w')).
  { unfold realDeleteStatefulPod. apply holds_bind, holds_call.
    destruct (Delete pod w) as [err w1] eqn:Ed. cbn [fst snd].
    apply holds_bind, recordPodEvent_pods. intros w2 Hp. apply holds_ret. exists err. split; [done|].
    unfold reply. rewrite (members_pods set w1 w2) by done. destruct err as [e|].
    - apply store_delete in Ed as [Ed|Ed]; [right; split; [done|]; by rewrite (members_pods set w w1)|left; auto].
    - left. apply Hgone. by apply delete_done. }
  unfold holds in Hw. destruct (realDeleteStatefulPod set pod w) as [o w'].
  cbn [fst snd] in Hw. destruct Hw as (err & -> & ?). by eexists _, _.
Qed.

(** A key is free unless a member has its ordinal. *)
Lemma key_free set pod w :
  identityMatches set pod = true -> places (members set w) !! getOrdinal pod = None ->
  podsOf w !! keyOf (pod_meta pod) = None.
Proof.
  intros Hid Hnone. destruct (podsOf w !! keyOf (pod_meta pod)) as [q|] eqn:E; [|done].
  destruct (identity_member set pod Hid) as [Hns Hmem]. rewrite places_None in Hnone.
  pose proof (store_key _ w q E) as Hk. pose proof Hk as Hk'. injection Hk' as Hns' Hn.
  destruct (Hnone q); [|by apply getOrdinal_Name].
  apply elem_of_members. rewrite Hk. split_and!; [done|congruence|].
  rewrite <-Hmem. unfold isMemberOf, getParentName. by rewrite (parentAndOrdinal_Name q pod).
Qed.
(** *** A reconcile *)

Section Reconcile.
Context `{!KubeLibLaws, LabelMatch, HistoryLib, SetCodec, SelectorLib, IntStrLib, GoSort, !GoSortLaws}.
Context (set : StatefulSet) (updRev : ControllerRevision) (n partition : Z) (pods : list Pod).
Hypothesis Hord : orderly set pods.
Hypothesis Hsel : is_Some (Selector (set_Spec set)).

#[local] Instance forced : StatefulPodControl (W * list PodCall) :=
  tracedPodControl (H := forcedPodControl).

(** The calls of a rollout of [pods], and what they have made of the set's pods; after a
    failure the pods are what the first of the calls have made of them. *)
Definition rolledOn (cs : list PodCall) (w : W) : Prop := answered cs pods (members set w).
Definition rolloutLog (cs : list PodCall) : Prop := rolloutCalls set updRev n partition (places pods) cs.
Definition partly (cs : list PodCall) (w : W) : Prop :=
  exists cs', cs' `prefix_of` cs /\ rolledOn cs' w.
#[local] Instance rolloutLog_dec cs : Decision (rolloutLog cs).
Proof. unfold rolloutLog. apply _. Defined.

Lemma rolloutLog_app log cs : rolloutLog (log ++ cs) -> rolloutLog log.
Proof. by intros [? _]%rolloutCalls_app. Qed.
Lemma partly_app log cs w : partly log w -> partly (log ++ cs) w.
Proof. intros (cs' & Hpre & Hans). exists cs'. split; [|done]. etrans; [done|by apply prefix_app_r]. Qed.
Lemma rolledOn_pods cs w w' : podsOf w' = podsOf w -> rolledOn cs w -> rolledOn cs w'.
Proof. intros Hp. unfold rolledOn. by rewrite (members_pods set w w'). Qed.
Notation agrees := (agrees (inStep rolledOn) (offCourse rolloutLog) (stopped partly)).

(** A call of a rollout. *)
Lemma rollout_agrees {A} fails c (m m' : M W A) :
  (forall w, rolloutCall set updRev n partition (places (members set w)) c ->
     (m' w = m w /\ answer c (members set w) (members set (m w).2))
     \/ exists a, (m w).1 = Ok a /\ fails a
          /\ (answer c (members set w) (members set (m w).2)
              \/ members set (m w).2 ≡ₚ members set w)) ->
  agrees fails (api m) (api (logged c m')).
Proof.
  intros Hm. apply (logged_agrees _ _ _ rolloutLog_app partly_app).
  intros w log Hans [Hlog [Hc _]]%rolloutCalls_app.
  destruct (answered_tidy set updRev n partition log pods _ (orderly_tidy _ _ Hord) Hlog Hans) as [_ E].
  rewrite <-E in Hc. destruct (Hm w Hc) as [[Em Ha]|(a & Ea & Hfail & Ha)].
  - left. split; [done|]. by eapply answered_snoc.
  - right. exists a. split_and!; [done..|]. destruct Ha as [Ha|Ha].
    + exists (log ++ [c]). split; [done|]. by eapply answered_snoc.
    + exists log. split; [by apply prefix_app_r|]. unfold rolledOn. by rewrite Ha.
Qed.
Lemma noRollout_agrees {A} c (m m' : M W A) :
  (forall places, ~ rolloutCall set updRev n partition places c) ->
  agrees never (api m) (api (logged c m')).
Proof. intros Hc. apply rollout_agrees. intros w H'. by apply Hc in H'. Qed.

Lemma rollout_alike :
  alike (W' := W * list PodCall) (inStep rolledOn) (offCourse rolloutLog) (stopped partly) set.
Proof.
  split.
  - intros m t r msg. apply (quiet_agrees _ _ _ rolloutLog_app partly_app); [done|].
    intros log w. apply rolledOn_pods, event_pods.
  - apply (quiet_agrees _ _ _ rolloutLog_app partly_app); [|intros log w; apply rolledOn_pods, now_pods].
    intros w log. cbn. by destruct (Now w).
  - intros pod. apply rollout_agrees. intros w (Hr & Hnone & Hprom & _).
    destruct (create_reply set pod w Hsel (proj1 (proj2 Hprom))) as (err & pod' & w' & E & Hk & Hrep).
    { apply (key_free set); [apply Hprom|done]. }
    cbn. rewrite E. destruct err as [e|].
    + right. exists (Some e, pod'). split_and!; [done..|]. destruct Hrep as [?|[_ ?]]; auto.
    + left. rewrite decide_True by (apply kept_revision; auto). split; [done|].
      by destruct Hrep as [?|[[] _]].
  - intros s pod. apply noRollout_agrees. by intros places [].
  - intros pod c. apply noRollout_agrees. by intros places [].
  - intros pod spec. apply noRollout_agrees. by intros places [].
  - intros pod. apply rollout_agrees. intros w (Hat & _ & Hid & _).
    destruct (delete_reply set pod w Hid) as (err & w' & E & Hrep).
    cbn. rewrite E. destruct err as [e|].
    + right. exists (Some e). split_and!; [done..|]. destruct Hrep as [?|[_ ?]]; auto.
    + left. split; [done|]. by destruct Hrep as [?|[[] _]].
  - apply (onCache_agrees _ _ _ rolloutLog_app partly_app).
  - intros A. apply (readCache_agrees _ _ _ rolloutLog_app partly_app).
  - intros [w cache] s' (cs & Hpre & Hans). unfold api, call. pose proof (now_pods w) as Hp.
    destruct (Now w) as [t w1]. eexists. split_and!; [done..|]. exists cs. split; [done|].
    by apply (rolledOn_pods _ w).
Qed.

Context (cur upd : StatefulSet) (curRev : ControllerRevision) (maxU : Z).
Hypothesis Hro : rollout set cur upd curRev updRev n partition maxU.

Lemma recreates name revisions : shouldDoInPlaceUpdate set updRev name revisions = Ok None.
Proof.
  destruct (ro_strategy _ _ _ _ _ _ _ _ Hro) as (us & ru & Hus & _ & Hru & _ & Hp1 & Hp2 & _).
  unfold shouldDoInPlaceUpdate. rewrite Hus. cbn. by rewrite Hru, decide_True.
Qed.

(** What one reconcile does to the pods on the server: a part of the rollout, some of it
    unless the goal is reached or it reports an error; it expects no in-place update. *)
Lemma server_reconcile collisionCount revisions w cache :
  members set w ≡ₚ pods -> expectNothing (W := W) set updRev ((w, []), cache) ->
  holds (updateStatefulSet set curRev updRev collisionCount pods revisions) (w, cache) (fun o s =>
    (exists st err reps, o = Ok (st, err, reps) /\ (err = None -> is_Some st)
       /\ exists cs, advance set updRev n partition (err = None) pods cs
            /\ answered cs pods (members set s.1))
    /\ (SatisfiedExpectations (getStatefulSetKey (set_meta set)) (rev_Name updRev) s.2).1 = true).
Proof.
  intros Hmem Hsat. unfold holds.
  assert (Hkeep : preserves (fun s : World W =>
    (SatisfiedExpectations (getStatefulSetKey (set_meta set)) (rev_Name updRev) s.2).1 = true)
    (updateStatefulSet set curRev updRev collisionCount pods revisions)).
  { apply updateStatefulSet_preserves.
    - apply (cache_stable set (fun c =>
        (SatisfiedExpectations (getStatefulSetKey (set_meta set)) (rev_Name updRev) c).1 = true)).
    - intros name p spec. by rewrite recreates. }
  specialize (Hkeep (w, cache) Hsat). split; [|exact Hkeep]. clear Hkeep.
  pose proof (updateStatefulSet_agrees _ _ _ set rollout_alike curRev updRev
    collisionCount pods revisions) as [_ Hag].
  destruct (rollout_run (H16 := forced_reliable) set cur upd curRev updRev n partition maxU pods revisions
    Hro Hord collisionCount ((w, []), cache) Hsat) as (cs & Elog & [Hcs Hne] & st & reps & Ho).
  specialize (Hag (w, cache) ((w, []), cache)). revert Hag Elog Ho. unfold offCourse, inStep, stopped, partly, rolledOn.
  destruct (updateStatefulSet set curRev updRev collisionCount pods revisions ((w, []), cache))
    as [o' [[w' log] cache']].
  cbn. intros Hag -> ->.
  destruct Hag as [Hoff|[[Eo (Ew & Ec & Hans)]|([[st' err] reps'] & Eo & He & pre & [rest ->] & Hans)]];
    [by split_and!|by destruct Hoff| |].
  - exists (Some st), None, reps. split_and!; [done|by eexists|]. exists cs. split; [|done]. split; auto.
  - exists st', err, reps'. split_and!; [done|by intros ->|]. exists pre. split; [|done].
    apply rolloutCalls_app in Hcs as [Hpre _]. split; [done|]. by intros ->.
Qed.
End Reconcile.
End Server.
