(* ===== verification/ServerControl.v ===== *)
(** The control of a set, from its revisions to its status, on a server that keeps what is
    written to it and may fail any call: what one call of it leaves of the set's pods. *)

From S2P Require Import Prelude Objects GoString Libraries Coordinate Naming Fixtures.
From S2P Require Import PodIdentity SetStatus InPlace Cluster CallLog Interfaces Expectations.
From S2P Require Import Revisions PodControl Control ServerStore LoopInvariants LoopSimulation.
From S2P Require Import ControlCalls ControlSafety NoPanic Convergence Rollout FullReconcile.
From S2P Require Import ServerRollout.

(** ** Calls to the server that leave a part of it alone *)

Section Apart.
Context {S : Type} (I : S -> Prop).

Lemma preserves_call {A} (f : S -> A * S) : (forall w, I w -> I (f w).2) -> preserves I (call f).
Proof. intros Hf w Hw. unfold call. specialize (Hf w Hw). by destruct (f w). Qed.

Lemma preserves_retry `{RetryLaws} {V} b (fn : V -> M S (option Err * V)) v :
  (forall v, preserves I (fn v)) -> preserves I (RetryOnConflict b fn v).
Proof.
  intros Hfn w Hw. change (holds (RetryOnConflict b fn v) w (fun _ w' => I w')).
  apply (holds_retry _ _ _ _ (fun _ w => I w)); [done|]. clear v w Hw. intros v w Hw.
  pose proof (Hfn v w Hw) as Hv. unfold holds.
  destruct (fn v w) as [[[[e|] v']|r] w']; cbn in *; auto.
Qed.

Section Client.
Context `{Client S A} {X : Type} (part : S -> X) `{!Apart A part}.
Hypothesis Hpart : forall w w', part w' = part w -> I w -> I w'.

Lemma preserves_Get k : preserves I (call (Get (A := A) k)).
Proof. apply preserves_call. intros w. apply Hpart, apart_get. Qed.
Lemma preserves_Create (a : A) : preserves I (call (Create a)).
Proof. apply preserves_call. intros w. apply Hpart, apart_create. Qed.
Lemma preserves_Update (a : A) : preserves I (call (Update a)).
Proof. apply preserves_call. intros w. apply Hpart, apart_update. Qed.
Lemma preserves_Status (a : A) : preserves I (call (StatusUpdate a)).
Proof. apply preserves_call. intros w. apply Hpart, apart_status. Qed.
Lemma preserves_Delete (a : A) : preserves I (call (Delete a)).
Proof. apply preserves_call. intros w. apply Hpart, apart_delete. Qed.
Lemma preserves_Patch (a : A) patch : preserves I (call (Patch a patch)).
Proof. apply preserves_call. intros w. apply Hpart, apart_patch. Qed.
End Client.
End Apart.

(** ** Revisions and status *)

Section Others.
Context {W X : Type} (part : W -> X) `{RetryLaws}.
Context `{Client W ControllerRevision, !Apart ControllerRevision part, Lister W ControllerRevision}.
Context `{Client W StatefulSet, !Apart StatefulSet part}.
Context `{HistoryLib, SetCodec, SelectorLib, MapRange}.
Hypothesis list_part : forall ns sel w, part (List_ (A := ControllerRevision) ns sel w).2 = part w.
Context (fuel : nat) (x : X).
#[local] Instance theHistory : ControllerHistory W := realHistory fuel.
Notation I := (fun w : W => part w = x).

Lemma part_same w w' : part w' = part w -> I w -> I w'.
Proof. congruence. Qed.
Hint Resolve preserves_ret preserves_lift preserves_fret : preserves.
Hint Extern 1 (preserves _ (call (Get _))) => apply (preserves_Get _ part part_same) : preserves.
Hint Extern 1 (preserves _ (call (Create _))) => apply (preserves_Create _ part part_same) : preserves.
Hint Extern 1 (preserves _ (call (Update _))) => apply (preserves_Update _ part part_same) : preserves.
Hint Extern 1 (preserves _ (call (StatusUpdate _))) => apply (preserves_Status _ part part_same) : preserves.
Hint Extern 1 (preserves _ (call (Delete _))) => apply (preserves_Delete _ part part_same) : preserves.
Hint Extern 1 (preserves _ (call (Patch _ _))) => apply (preserves_Patch _ part part_same) : preserves.

Lemma createLoop_part parent r : forall clone c, preserves I (createLoop fuel parent r clone c).
Proof.
  induction fuel as [|k IH]; intros clone c; cbn [createLoop]; [preserves|].
  unfold createAttempt. preserves.
Qed.

Lemma ListRevisions_part set : preserves I (ListRevisions set).
Proof.
  unfold ListRevisions. cbn. unfold realListControllerRevisions. preserves.
  apply preserves_call. intros w. by rewrite list_part.
Qed.

Lemma getStatefulSetRevisions_part set revisions : preserves I (getStatefulSetRevisions set revisions).
Proof.
  unfold getStatefulSetRevisions, chooseUpdateRevision. cbn.
  unfold realCreateControllerRevision, realUpdateControllerRevision.
  pose proof createLoop_part. preserves. apply preserves_retry; [apply _|]. intros clone. preserves.
Qed.

Lemma truncateHistory_part set pods revisions cur upd :
  preserves I (truncateHistory set pods revisions cur upd).
Proof.
  unfold truncateHistory. cbn. preserves. apply preserves_forLoop. intros p s.
  unfold realDeleteControllerRevision. preserves.
Qed.

Lemma AdoptOrphanRevisions_part set revisions : preserves I (AdoptOrphanRevisions set revisions).
Proof.
  induction revisions as [|r revisions IH]; cbn [AdoptOrphanRevisions]; [apply preserves_ret|].
  cbn. unfold realAdoptControllerRevision. preserves.
Qed.

Lemma updateStatus_part set status : preserves I (realUpdateStatefulSetStatus set status).
Proof.
  unfold realUpdateStatefulSetStatus. preserves. apply preserves_retry; [apply _|]. intros s.
  unfold statusAttempt. preserves.
Qed.
End Others.

(** Observing the pods awaits nothing. *)
Lemma observePods_satisfied set updRev pods k rev : forall cache,
  (SatisfiedExpectations k rev cache).1 = true ->
  (SatisfiedExpectations k rev (observePods set updRev pods cache)).1 = true.
Proof.
  unfold observePods. induction pods as [|pod pods IH]; intros cache Hc; [done|]. cbn. apply IH.
  revert Hc. rewrite !Satisfied_pending. unfold podObserveUpdated. rewrite pending_observe. intros E.
  repeat case_decide; rewrite ?E; set_solver.
Qed.

(** ** The control *)

Section Control.
Context {W : Type} `{KubeLib, !KubeLibLaws, MapRange, Json Coordinates, PatchLib, Json InPlaceUpdateState}.
Context `{Client W Pod, Client W PersistentVolumeClaimT, RetryLaws, Aggregate, ErrorText}.
Context `{Recorder W, Clock W}.
Context `{!Store pod_meta kept, !Deletes W Pod pod_meta kept}.
Context `{!PodsApart, LabelMatch}.
Context `{HistoryLib, SetCodec, SelectorLib, IntStrLib, GoSort, !GoSortLaws}.
Context `{Client W ControllerRevision, !Apart ControllerRevision podsOf, Lister W ControllerRevision}.
Context `{Client W StatefulSet, !Apart StatefulSet podsOf}.
Context (list_pods : forall ns sel w,
  podsOf (List_ (A := ControllerRevision) ns sel w).2 = podsOf w).
Context (fuel : nat).
#[local] Instance controlHistory : ControllerHistory W := realHistory fuel.

(** The revisions the control works with: what it finds or creates. *)
Definition finds (set : StatefulSet) (w : W) (rs : SetRevisions) : Prop :=
  exists listed w1 revisions w2, ListRevisions set w = (Ok (inr listed), w1)
    /\ getStatefulSetRevisions set (SortControllerRevisions listed) w1 = (Ok (inr rs, revisions), w2).

(** The world with the pods [x] and the cache [c]. *)
Definition unmoved (x : gmap ObjectKey Pod) (c : controllerCache) (s : World W) : Prop :=
  podsOf s.1 = x /\ s.2 = c.
Lemma unmoved_api {A} x c (m : M W A) :
  preserves (fun w => podsOf w = x) m -> preserves (unmoved x c) (api m).
Proof.
  intros Hm [w cache] [Hw Hc]. specialize (Hm w Hw). unfold api. by destruct (m w).
Qed.

(** Status and history, once the pods have been seen to. *)
Lemma rest_unmoved x c set status pods revisions cur upd :
  preserves (unmoved x c) (
    err ← updateStatefulSetStatus set status;
    match err with
    | Some e => mret (Some e)
    | None => api (truncateHistory set pods revisions cur upd)
    end).
Proof.
  apply preserves_bind.
  - unfold updateStatefulSetStatus. apply preserves_bind; [apply preserves_lift|]. intros st.
    case_match; [apply preserves_ret|]. apply unmoved_api, (updateStatus_part podsOf).
  - intros [e|]; [apply preserves_ret|]. apply unmoved_api, (truncateHistory_part podsOf).
Qed.

Definition expectsNothing (set : StatefulSet) (updRev : ControllerRevision) (s : World W) : Prop :=
  (SatisfiedExpectations (getStatefulSetKey (set_meta set)) (rev_Name updRev) s.2).1 = true.

Definition noError (o : Outcome (option Err)) : bool :=
  match o with Ok None => true | _ => false end.

(** One call of the control for steady pods, when the revisions it finds, if any, lead to a
    rollout of [updRev]. *)
Lemma control_reconcile set updRev n partition pods s :
  orderly set pods -> members set s.1 ≡ₚ pods -> expectsNothing set updRev s ->
  (forall rs, finds set s.1 rs -> rev_Name (updateRevision rs) = rev_Name updRev
     /\ exists cur upd maxU,
          rollout set cur upd (currentRevision rs) (updateRevision rs) n partition maxU) ->
  holds (UpdateStatefulSet set pods) s (fun o s' =>
    (exists cs, advance set updRev n partition (noError o = true) pods cs
       /\ answered cs pods (members set s'.1))
    /\ expectsNothing set updRev s').
Proof.
  intros Hord Hmem Hsat Hfinds. destruct s as [w cache]. cbn [fst snd] in *.
  (* whatever fails before the pods are looked at *)
  assert (Hearly : forall o w1, podsOf w1 = podsOf w -> noError o = false ->
    (exists cs, advance set updRev n partition (noError o = true) pods cs
       /\ answered cs pods (members set w1)) /\ expectsNothing set updRev (w1, cache)).
  { intros o w1 Hp Ho. split; [|exact Hsat]. exists []. split; [split; [done|congruence]|].
    cbn. by rewrite (members_pods set w w1). }
  assert (Hp1 : podsOf (ListRevisions set w).2 = podsOf w)
    by by apply (ListRevisions_part podsOf list_pods fuel (podsOf w)).
  unfold UpdateStatefulSet. apply holds_bind, holds_below. unfold holds at 1. cbn [fst snd].
  destruct (ListRevisions set w) as [[[e|listed]|r] w1] eqn:El; cbn [fst snd] in *;
    [by apply holds_ret, Hearly| |by apply Hearly].
  assert (Hp2 : podsOf (getStatefulSetRevisions set (SortControllerRevisions listed) w1).2 = podsOf w)
    by by apply (getStatefulSetRevisions_part podsOf fuel (podsOf w)).
  apply holds_bind, holds_below. unfold holds at 1. cbn [fst snd].
  destruct (getStatefulSetRevisions set (SortControllerRevisions listed) w1)
    as [[[[e|rs] revisions]|r] w2] eqn:Eg; cbn [fst snd] in *;
    [by apply holds_ret, Hearly| |by apply Hearly].
  destruct (Hfinds rs) as (Hrev & cur & upd & maxU & Hro); [by eexists _, _, _, _|].
  eapply holds_step; [reflexivity|].
  apply holds_bind. eapply holds_mono.
  { eapply (server_reconcile set (updateRevision rs) n partition pods Hord);
      [by eapply ro_selector|exact Hro| |].
    - by rewrite (members_pods set w w2).
    - apply observePods_satisfied. by rewrite Hrev. }
  intros o s' ((st & err & reps & -> & Hst & cs & Had & Hans) & Hsat'). rewrite Hrev in Hsat'.
  apply (advance_same set set updRev _ _ _ _ _ _ ltac:(by repeat split) Hrev) in Had as [Hcalls Hgoal].
  destruct err as [e|]; [destruct st; apply holds_ret; by split; [exists cs|]|].
  destruct (Hst eq_refl) as [st' ->]. unfold holds.
  destruct (rest_unmoved (podsOf s'.1) s'.2 set st' (writeBack pods reps) revisions
    (currentRevision rs) (updateRevision rs) s' (conj eq_refl eq_refl)) as [Hp Hc]. split.
  - exists cs. split; [split; [done|]; intros _; by apply Hgoal|].
    by rewrite (members_pods set s'.1).
  - unfold expectsNothing. by rewrite Hc.
Qed.
End Control.
