(* ===== verification/ServerFixtures.v ===== *)
(** A concrete cluster for the witnesses about whole reconciles on a server: the pods on some
    server, the claims, revisions and sets each on one that carries out every call. *)

From S2P Require Import Prelude Objects GoString Libraries Coordinate Naming Fixtures.
From S2P Require Import Cluster Interfaces Expectations PodIdentity Revisions StsController.
From S2P Require Import ServerStore.
From S2P Require Import Convergence Rollout ServerRollout ControlWitnesses.

Notation fx_clusterOf V :=
  (V * (list PersistentVolumeClaimT * (list ControllerRevision * list StatefulSet)))%type.

Section Cluster.
Context {V : Type} `{Client V Pod, !Store pod_meta kept}.

#[export] Instance fx_clusterPods : Client (fx_clusterOf V) Pod := onFst _.
#[export] Instance fx_clusterClaims : Client (fx_clusterOf V) PersistentVolumeClaimT :=
  onSnd (onFst (fx_server pvc_meta (fun _ stored => stored))).
#[export] Instance fx_clusterRevisions : Client (fx_clusterOf V) ControllerRevision :=
  onSnd (onSnd (onFst (fx_server rev_meta (fun _ stored => stored)))).
#[export] Instance fx_clusterSets : Client (fx_clusterOf V) StatefulSet :=
  onSnd (onSnd (onSnd (fx_server set_meta (fun sent stored =>
    mkStatefulSet (set_meta stored) (set_Spec stored) (set_Status sent))))).
#[export] Instance fx_revisionLister : Lister (fx_clusterOf V) ControllerRevision := {|
  List_ ns _ w := (inr (filter (fun r => Namespace (rev_meta r) = ns) w.2.2.1), w);
|}.
#[export] Instance fx_clusterEvents : Recorder (fx_clusterOf V) := {| Event _ _ _ _ w := w |}.
#[export] Instance fx_clusterClock : Clock (fx_clusterOf V) := {| Now w := (0, w) |}.

#[export] Instance fx_storePods : Store pod_meta kept (H := fx_clusterPods).
Proof. by apply onFst_store. Defined.
#[export] Instance fx_deletesPods `{!Deletes V Pod pod_meta kept} :
  Deletes (fx_clusterOf V) Pod pod_meta kept.
Proof. by apply onFst_deletes. Defined.
#[export] Instance fx_patchesPods `{!Patches V Pod pod_meta kept} :
  Patches (fx_clusterOf V) Pod pod_meta kept.
Proof. by apply onFst_patches. Defined.
#[export] Instance fx_podLister : Lister (fx_clusterOf V) Pod := {|
  List_ ns _ w :=
    (inr (filter (fun p => Namespace (pod_meta p) = ns) (map_to_list (podsOf w)).*2), w);
|}.
#[export] Instance fx_listsPods : Lists (fx_clusterOf V) Pod pod_meta kept.
Proof. split; [done|]. by intros ns w l [= <-]. Defined.
#[export] Instance fx_apartRevisions : Apart ControllerRevision (podsOf (W := fx_clusterOf V)).
Proof. apply (onSnd_apart _ (fun v _ => objects v) (fun _ => ())), apart_none. Defined.
#[export] Instance fx_apartSets : Apart StatefulSet (podsOf (W := fx_clusterOf V)).
Proof. apply (onSnd_apart _ (fun v _ => objects v) (fun _ => ())), apart_none. Defined.
#[export] Instance fx_podsApart : PodsApart (W := fx_clusterOf V).
Proof. split; [done..|]. apply (onSnd_apart _ (fun v _ => objects v) (fun _ => ())), apart_none. Defined.

Lemma fx_listed ns sel (w : fx_clusterOf V) :
  podsOf (List_ (A := ControllerRevision) ns sel w).2 = podsOf w.
Proof. reflexivity. Qed.
End Cluster.

(** ** What happens to the pods between reconciles *)

(** Pods that are found under the same keys as before. *)
Lemma fx_map_kept (f : Pod -> Pod) l :
  (forall pod, kept (f pod) = kept pod) -> fx_map pod_meta (f <$> l) = f <$> fx_map pod_meta l.
Proof.
  intros Hf. unfold fx_map. rewrite <-list_to_map_fmap, <-!list_fmap_compose. f_equal.
  apply list_fmap_ext. intros i pod _. cbn. pose proof (Hf pod) as [=]. unfold keyOf. congruence.
Qed.

Lemma members_mapped {W} `{Client W Pod, !Store pod_meta kept} (f : Pod -> Pod) set (w w' : W) :
  (forall pod, kept (f pod) = kept pod) -> podsOf w' = f <$> podsOf w ->
  members set w' = f <$> members set w.
Proof.
  intros Hf Hw. unfold members. rewrite Hw, map_to_list_fmap, <-list_fmap_compose.
  change (snd ∘ prod_map id f) with (f ∘ (snd : ObjectKey * Pod -> Pod)).
  rewrite list_fmap_compose, filter_fmap_same; [done|].
  intros pod. pose proof (Hf pod) as [= Hn Hns _].
  unfold isMemberOf, getParentName. by rewrite Hns, (parentAndOrdinal_Name (f pod) pod).
Qed.

(** ** Objects under the control of the set [default/web] *)

Definition fx_keepPod (sent stored : Pod) : Pod :=
  mkPod (pod_meta stored) (pod_Spec stored) (pod_Status sent).
Lemma fx_podStore : @Store (list Pod) _ _ (fx_server pod_meta fx_keepPod) pod_meta kept.
Proof. by apply fx_server_store. Defined.

Definition fx_ref : OwnerReference :=
  NewControllerRef (set_meta fx_ordered) "nuwa.nip.io/v1" "StatefulSet".
Definition fx_old : ControllerRevision :=
  overRevMeta (setOwnerReferences [fx_ref]) (fx_revision "r1" "nginx:0" 1).
Definition fx_new : ControllerRevision :=
  overRevMeta (setOwnerReferences [fx_ref]) (fx_revision "r2" "nginx:1" 2).
Definition fx_controlled (pod : Pod) : Pod :=
  overMeta (fun m => setOwnerReferences [fx_ref] (setLabels (<["app" := "web"]> (Labels m)) m)) pod.
(** A pod of another set. *)
Definition fx_strange : Pod := fx_pod "default" "db-0" "x" "Running" true.

Definition fx_req : ObjectKey := mkKey "default" "web".

(** What is true of the first states is true of all, when the last of them does not change. *)
Lemma iter_fixed {A} (f : A -> A) m x k :
  f (Nat.iter m f x) = Nat.iter m f x -> Nat.iter (k + m) f x = Nat.iter m f x.
Proof.
  intros Hf. induction k as [|k IH]; [done|].
  change (f (Nat.iter (k + m) f x) = Nat.iter m f x). by rewrite IH.
Qed.
Lemma iter_always {A} (P : A -> Prop) (f : A -> A) m x :
  f (Nat.iter m f x) = Nat.iter m f x -> (forall k, (k <= m)%nat -> P (Nat.iter k f x)) ->
  forall k, P (Nat.iter k f x).
Proof.
  intros Hf HP k. destruct (decide (k <= m)%nat) as [Hk|Hk]; [by apply HP|].
  replace k with (k - m + m)%nat by lia. rewrite iter_fixed by done. by apply HP.
Qed.
