(* ===== verification/ServerReconcile.v ===== *)
(** Whole reconciles of a set on a server that keeps what is written to it and may fail any
    call: the pods of a set that come back from listing and claiming are those the server
    holds, so that reconciles one after the other bring the set to the state its spec asks
    for. *)

From S2P Require Import Prelude Objects GoString Libraries Coordinate Naming Fixtures.
From S2P Require Import PodIdentity SetStatus InPlace Cluster CallLog Interfaces Expectations.
From S2P Require Import Revisions PodControl RealPodControl Control StsController ServerStore.
From S2P Require Import LoopInvariants LoopSimulation ControlCalls ControlSafety NoPanic.
From S2P Require Import Convergence Rollout FullReconcile ServerRollout ServerControl.
From S2P Require Import ControlWitnesses ServerFixtures.

(** ** A reconcile up to the control *)

Section Stages.
Context {W : Type} `{HistoryLib, SelectorLib, RefManager, ErrorText}.
Context `{ControlInterface W, Client W StatefulSet, Client W Pod, Lister W Pod}.

(** The set and the pods the reconciler hands to the control, if it gets that far. *)
Definition prepared (req : ObjectKey) : M W (option (StatefulSet * list Pod)) :=
  got ← call (Get (A := StatefulSet) (realReconcileName req));
  match got with
  | inl _ => mret None
  | inr set =>
      let set := defaulted set in
      match LabelSelectorAsSelector (Selector (set_Spec set)) with
      | Some _ => mret None
      | None =>
          err ← adoptOrphanRevisions set;
          match err with
          | Some _ => mret None
          | None =>
              pods ← getPodsForStatefulSet set;
              match pods with inl _ => mret None | inr pods => mret (Some (set, pods)) end
          end
      end
  end.

(** A reconcile is that, and then the control. *)
Lemma Reconcile_prepared req w :
  (Reconcile req w).2 =
    match prepared req w with
    | (Ok (Some (set, pods)), w') => (control_UpdateStatefulSet set pods w').2
    | (_, w') => w'
    end.
Proof.
  unfold Reconcile, prepared, defaulted, syncStatefulSet, mbind, M_bind.
  destruct (call (Get (realReconcileName req)) w) as [[[e|set]|r] w1]; [by destruct (IsNotFound e)| |done].
  destruct (checkSetDefaultVariable (set_Spec set)) as [spec ?]. cbn [fst].
  destruct (LabelSelectorAsSelector _); [done|].
  destruct (adoptOrphanRevisions _ w1) as [[[e|]|r] w2]; [done| |done].
  destruct (getPodsForStatefulSet _ w2) as [[[e|pods]|r] w3]; [done| |done]. cbn.
  by destruct (control_UpdateStatefulSet _ pods w3) as [[]].
Qed.

(** What the control returned, if it was called. *)
Definition synced (req : ObjectKey) (w : W) : option (Outcome (option Err)) :=
  match prepared req w with
  | (Ok (Some (set, pods)), w') => Some (control_UpdateStatefulSet set pods w').1
  | _ => None
  end.
Definition goesWell (req : ObjectKey) (w : W) : bool :=
  match synced req w with Some o => noError o | None => false end.
End Stages.

(** ** On the server *)

Section Server.
Context {W : Type} `{KubeLib, !KubeLibLaws, MapRange, Json Coordinates, PatchLib, Json InPlaceUpdateState}.
Context `{Client W Pod, Client W PersistentVolumeClaimT, RetryLaws, Aggregate, ErrorText}.
Context `{Recorder W, Clock W, Lister W Pod}.
Context `{!Store pod_meta kept, !Deletes W Pod pod_meta kept, !Patches W Pod pod_meta kept}.
Context `{!Lists W Pod pod_meta kept, !PodsApart, LabelMatch}.
Context `{HistoryLib, SetCodec, SelectorLib, IntStrLib, GoSort, !GoSortLaws}.
Context `{RefManager, !RefManagerLaws, !ClaimLaws}.
Context `{Client W ControllerRevision, !Apart ControllerRevision podsOf, Lister W ControllerRevision}.
Context `{Client W StatefulSet, !Apart StatefulSet podsOf}.
Context (list_pods : forall ns sel w,
  podsOf (List_ (A := ControllerRevision) ns sel w).2 = podsOf w).
Context (fuel : nat).
#[local] Instance serverHistory : ControllerHistory W := realHistory fuel.

(** *** Listing and claiming *)

(** The members [x] and the cache [c]. *)
Definition membersAre (set : StatefulSet) (x : list Pod) (c : controllerCache) (s : World W) : Prop :=
  members set s.1 ≡ₚ x /\ s.2 = c.
Lemma membersAre_unmoved set x c s s' :
  membersAre set x c s -> unmoved (podsOf s.1) s.2 s' -> membersAre set x c s'.
Proof. intros [Hm Hc] [Hp Hc']. split; [by rewrite (members_pods set s.1)|congruence]. Qed.

Lemma freshSet_unmoved set x c : preserves (unmoved x c) (freshSet (W := World W) set).
Proof.
  apply preserves_bind.
  - intros [w c'] [Hw Hc]. unfold call. cbn.
    pose proof (apart_get (A := StatefulSet) (part := podsOf) (keyOf (set_meta set)) w) as Hp.
    destruct (Get (A := StatefulSet) (keyOf (set_meta set)) w) as [r w']. cbn in *.
    by split; [cbn; congruence|].
  - intros [e|fresh]; [apply preserves_ret|]. case_decide; apply preserves_ret.
Qed.
Lemma membersAre_freshSet set set' x c : preserves (membersAre set x c) (freshSet set').
Proof. intros s Hs. eapply membersAre_unmoved; [exact Hs|]. by apply freshSet_unmoved. Qed.

(** Patching a pod that is not a member. *)
Lemma membersAre_patch set x c p data :
  Namespace (pod_meta p) = Namespace (set_meta set) -> isMemberOf set p = false ->
  preserves (membersAre set x c)
    (RealPodControl.PatchPod (Namespace (pod_meta p)) (Name (pod_meta p)) data).
Proof.
  intros Hns Hno [w c'] [Hm Hc]. cbn in Hm, Hc. subst c'. unfold RealPodControl.PatchPod, mbind, M_bind, call.
  cbn. set (k := mkKey _ _). pose proof (store_get k w) as Hg. pose proof (store_found k w) as Hf.
  destruct (Get k w) as [r w1]. cbn in Hg, Hf.
  assert (Hm1 : members set w1 ≡ₚ x) by by rewrite (members_pods set w w1).
  destruct r as [e|pod]; [by destruct (IsNotFound e)|]. cbn.
  pose proof (store_key k w pod (Hf pod eq_refl)) as Hk.
  pose proof (patch_one pod data w1) as Hp. rewrite Hk in Hp.
  destruct (Patch pod data w1) as [[err pod'] w2]. cbn in *. split; [|done].
  rewrite <-Hm1. destruct Hp as [Hp|(new & Hnew & Hp)]; [by rewrite (members_pods set w1 w2)|].
  apply NoDup_Permutation; [apply members_NoDup..|]. intros q. rewrite !elem_of_members.
  unfold podsOf in *. cbn [fst]. rewrite Hp, lookup_insert. case_decide as Hq; [|done].
  assert (Hnq : isMemberOf set q = false).
  { rewrite <-Hno. injection Hq as _ Hn. unfold isMemberOf, getParentName.
    by rewrite (parentAndOrdinal_Name q p). }
  rewrite Hnq. naive_solver.
Qed.

(** The pods of a set whose members are all claimable are its members. *)
Lemma getPods_members set x c s :
  Forall (claimable set) x -> membersAre set x c s ->
  holds (getPodsForStatefulSet set) s (fun o s' =>
    membersAre set x c s' /\ forall pods, o = Ok (inr pods) -> pods ≡ₚ x).
Proof.
  intros Hclaim Hx. unfold getPodsForStatefulSet. apply holds_bind, holds_call.
  destruct s as [w c']. pose proof Hx as [Hm Hc]. cbn in Hm, Hc. subst c'. cbn.
  pose proof (list_same (Namespace (set_meta set)) w) as Hsame.
  pose proof (list_all (Namespace (set_meta set)) w) as Hall.
  destruct (List_ (Namespace (set_meta set)) None w) as [[e|listed] w1]; cbn in Hsame, Hall |- *.
  { apply holds_ret. split; [|done]. split; [|done]. cbn. by rewrite (members_pods set w w1). }
  specialize (Hall listed eq_refl).
  assert (Hx1 : membersAre set x c (w1, c)).
  { split; [|done]. cbn. by rewrite (members_pods set w w1). }
  assert (Hfilter : filter (fun p => isMemberOf set p = true) listed ≡ₚ x).
  { rewrite Hall, list_filter_filter, <-Hm. unfold members. apply reflexive_eq.
    apply list_filter_iff. intros p. tauto. }
  destruct (claim_controlled RealPodControl.PatchPod (set_meta set) (Selector (set_Spec set))
    (RecheckDeletionTimestamp (freshSet set)) (isMemberOf set) listed (membersAre set x c) (w1, c))
    as [Hinv Hclaimed]; [| | |done|].
  - intros p data w' Hp Hno. apply membersAre_patch; [|done].
    rewrite Hall in Hp. by apply list_elem_of_filter in Hp as [? _].
  - intros w'. by apply (recheck_only _ (membersAre set x c)), membersAre_freshSet.
  - intros p Hp Hmem. rewrite list.Forall_forall in Hclaim. apply Hclaim.
    rewrite <-Hfilter. by apply list_elem_of_filter.
  - split; [done|]. by intros pods ->%Hclaimed.
Qed.

Lemma adoptOrphanRevisions_unmoved set x c : preserves (unmoved x c) (adoptOrphanRevisions (W := World W) set).
Proof.
  unfold adoptOrphanRevisions. apply preserves_bind.
  { apply unmoved_api, (ListRevisions_part podsOf list_pods). }
  intros [e|revisions]; [apply preserves_ret|]. case_match; [|apply preserves_ret].
  apply preserves_bind; [apply freshSet_unmoved|]. intros [e|m]; [apply preserves_ret|].
  apply preserves_bind; [|intros res; apply preserves_ret].
  apply unmoved_api, (AdoptOrphanRevisions_part podsOf).
Qed.

(** *** One reconcile after the other *)

Section Rounds.
Context (req : ObjectKey) (set : StatefulSet) (updRev : ControllerRevision) (n partition : Z).

Lemma members_same set' w : sameSet set set' -> members set' w = members set w.
Proof. intros (Hn & Hns & _). unfold members, isMemberOf. by rewrite Hn, Hns. Qed.

Lemma expectsNothing_same set' (s : World W) :
  sameSet set set' -> expectsNothing set' updRev s <-> expectsNothing set updRev s.
Proof. intros (Hn & Hns & _). unfold expectsNothing, getStatefulSetKey. by rewrite Hn, Hns. Qed.

(** The server holds some version of the set under the request's key. *)
Definition holdsSet (s : World W) : Prop :=
  forall set0, (Get (A := StatefulSet) (realReconcileName req) s).1 = inr set0 -> sameSet set (defaulted set0).

Lemma prepared_members s x c :
  holdsSet s -> Forall (claimable set) x -> membersAre set x c s ->
  holds (prepared (W := World W) req) s (fun o s' =>
    membersAre set x c s'
    /\ forall set' pods, o = Ok (Some (set', pods)) -> sameSet set set' /\ pods ≡ₚ x).
Proof.
  intros Hset Hclaim Hx. unfold prepared. apply holds_bind, holds_call. unfold holdsSet in Hset.
  assert (Hx1 : membersAre set x c (Get (A := StatefulSet) (realReconcileName req) s).2).
  { eapply membersAre_unmoved; [exact Hx|]. destruct s as [w c']. cbn.
    pose proof (apart_get (A := StatefulSet) (part := podsOf) (realReconcileName req) w) as Hp.
    destruct (Get (A := StatefulSet) (realReconcileName req) w). by split. }
  destruct (Get (realReconcileName req) s) as [[e|set0] s1]; cbn [fst snd] in *; [by apply holds_ret|].
  specialize (Hset set0 eq_refl). destruct (LabelSelectorAsSelector _); [by apply holds_ret|].
  assert (Hadopt : membersAre set x c (adoptOrphanRevisions (defaulted set0) s1).2).
  { eapply membersAre_unmoved; [exact Hx1|]. by apply adoptOrphanRevisions_unmoved. }
  apply holds_bind. unfold holds at 1.
  destruct (adoptOrphanRevisions (defaulted set0) s1) as [[[e|]|r] s2]; cbn [fst snd] in *;
    [by apply holds_ret| |done].
  apply holds_bind. eapply holds_mono; [apply (getPods_members (defaulted set0) x c)|].
  - eapply Forall_impl; [|exact Hclaim]. intros pod. by apply claimable_same.
  - unfold membersAre. by rewrite (members_same (defaulted set0)).
  - intros o s3 [Hm Hpods]. unfold membersAre in Hm. rewrite (members_same (defaulted set0)) in Hm by done.
    destruct o as [[e|pods]|r]; [by apply holds_ret| |done]. apply holds_ret. split; [done|].
    intros set' pods' [= <- <-]. split; [done|by apply Hpods].
Qed.

(** A reconcile of some version of the set; if it comes to the control, the revisions it
    finds lead to a rollout of [updRev]. Then the pods come up, and no expectation of the set
    is added. [well] says that it came to the control, which returned no error. *)
Inductive reconcileRound (s : World W) (well : bool) (s' : World W) : Prop :=
  | ReconcileRound :
      holdsSet s ->
      (forall set' pods s1 rs, prepared req s = (Ok (Some (set', pods)), s1) -> finds fuel set' s1.1 rs ->
         rev_Name (updateRevision rs) = rev_Name updRev
         /\ exists cur upd maxU,
              rollout set' cur upd (currentRevision rs) (updateRevision rs) n partition maxU) ->
      well = goesWell req s ->
      comeUp set (members set (Reconcile req s).2.1) (members set s'.1) ->
      (expectsNothing set updRev (Reconcile req s).2 -> expectsNothing set updRev s') ->
      reconcileRound s well s'.

(** The state between reconciles. *)
Record ready (s : World W) : Prop := mkReady {
  ready_orderly : orderly set (members set s.1);
  ready_claimable : Forall (claimable set) (members set s.1);
  ready_expects : expectsNothing set updRev s;
}.

Lemma wholeReconcile_advance s :
  ready s -> holdsSet s ->
  (forall set' pods s1 rs, prepared req s = (Ok (Some (set', pods)), s1) -> finds fuel set' s1.1 rs ->
     rev_Name (updateRevision rs) = rev_Name updRev
     /\ exists cur upd maxU,
          rollout set' cur upd (currentRevision rs) (updateRevision rs) n partition maxU) ->
  let s' := (Reconcile req s).2 in
  (exists cs, advance set updRev n partition (goesWell req s = true) (members set s.1) cs
     /\ answered cs (members set s.1) (members set s'.1))
  /\ expectsNothing set updRev s'.
Proof.
  intros [Hord Hclaim Hexp] Hset Hfinds. cbv zeta. rewrite Reconcile_prepared. unfold goesWell, synced.
  pose proof (prepared_members s (members set s.1) s.2 Hset Hclaim (conj (reflexivity _) eq_refl)) as Hprep.
  unfold holds in Hprep. destruct (prepared req s) as [o s1] eqn:Ep. cbn [fst snd] in Hprep.
  destruct Hprep as [[Hm Hc] Ho].
  assert (Hexp1 : expectsNothing set updRev s1) by (unfold expectsNothing; by rewrite Hc).
  assert (Hidle : (exists cs, advance set updRev n partition (false = true) (members set s.1) cs
    /\ answered cs (members set s.1) (members set s1.1)) /\ expectsNothing set updRev s1).
  { split; [|done]. by exists []. }
  destruct o as [[[set' pods]|]|r]; [|done..].
  destruct (Ho set' pods eq_refl) as [Hsame Hpods].
  assert (Hord' : orderly set pods) by by rewrite (orderly_proper set _ _ Hpods).
  destruct (control_reconcile list_pods fuel set' updRev n partition pods s1)
    as [(cs & Had & Hans) Hexp2].
  - by apply (orderly_same set).
  - rewrite (members_same set') by done. by rewrite Hm, Hpods.
  - by apply expectsNothing_same.
  - intros rs. by apply (Hfinds set' pods s1).
  - rewrite (members_same set') in Hans by done. split; [|by apply (expectsNothing_same set')].
    exists cs. split; [|by rewrite <-Hpods].
    eapply advance_proper; [exact Hpods|done|]. by apply (advance_same set set' updRev updRev).
Qed.

Lemma reconcileRound_advanced s well s' :
  ready s -> reconcileRound s well s' ->
  advanced set updRev n partition (well = true) (members set s.1) (members set s'.1) /\ ready s'.
Proof.
  intros Hready [Hset Hrs -> Hup Hkeep].
  destruct (wholeReconcile_advance s Hready Hset Hrs) as [(cs & Had & Hans) Hexp].
  assert (Hadv : advanced set updRev n partition (goesWell req s = true) (members set s.1) (members set s'.1))
    by by exists cs, (members set (Reconcile req s).2.1).
  split; [done|]. destruct Hready as [Hord Hclaim _]. split; [| |by apply Hkeep].
  - by apply (advanced_step set updRev n partition _ _ _ Hord Hadv).
  - eapply comeUp_claimable; [exact Hup|]. eapply answered_claimable; [apply Had|exact Hans|done].
Qed.

(** C3: Convergence. On a server that keeps what is written and may fail any call, reconciles
    of a set follow one another, with the pod control, revision history and status updater
    the operator runs with. Whatever pods of the set the server holds at first, as long as
    they are steady, one per ordinal, and under the set's control: no reconcile takes the set
    further away from what its spec asks for, and after as many reconciles as computed came
    to the control and had no error there, the server holds exactly the pods asked for, and
    goes on holding them. *)
Theorem server_rollout_converges (states : nat -> World W) (well : nat -> bool) :
  ready (states 0%nat) -> (forall k, reconcileRound (states k) (well k) (states (S k))) ->
  forall k, orderly set (members set (states k).1)
    /\ ((distance updRev n partition (places (members set (states 0%nat).1)) <= wellSteps well k)%nat ->
        rolledOut updRev n partition (members set (states k).1)).
Proof.
  intros Hready Hround.
  assert (Hall : forall k, ready (states k)).
  { induction k as [|j IH]; [done|]. by apply (reconcileRound_advanced (states j) (well j)). }
  apply (advanced_converges set updRev n partition (fun k => members set (states k).1)); [apply (Hall 0%nat)|].
  intros j _. by apply (reconcileRound_advanced (states j)).
Qed.
End Rounds.
End Server.

(** ** Witness: a server where every other write of a pod fails *)

Notation fx_flakyPods := (nat * list Pod)%type.
Notation fx_cluster := (fx_clusterOf fx_flakyPods).
#[local] Instance fx_flakyClient : Client fx_flakyPods Pod :=
  flaky (fx_server pod_meta fx_keepPod) ErrConflict Nat.even.
#[local] Instance fx_flakyStore : Store pod_meta kept (H := fx_flakyClient).
Proof. apply flaky_store, fx_podStore. Defined.
#[local] Instance fx_flakyDeletes : Deletes fx_flakyPods Pod pod_meta kept.
Proof. apply flaky_deletes, fx_server_deletes. Defined.
#[local] Instance fx_flakyPatches : Patches fx_flakyPods Pod pod_meta kept.
Proof. apply flaky_patches, fx_server_patches. Defined.
#[local] Instance fx_clusterHistory : ControllerHistory fx_cluster := realHistory 1.

(** A kubelet that has the pods running at once. *)
Definition fx_kubelet (w : fx_cluster) : fx_cluster := ((w.1.1, fx_up <$> w.1.2), w.2).

Lemma fx_up_kept pod : kept (fx_up pod) = kept pod.
Proof. unfold fx_up. by destruct (isRunningAndReady pod). Qed.

Lemma fx_kubelet_comeUp set w : comeUp set (members set w) (members set (fx_kubelet w)).
Proof.
  rewrite (members_mapped fx_up set w (fx_kubelet w)); [apply fx_comeUp|apply fx_up_kept|].
  apply (fx_map_kept fx_up), fx_up_kept.
Qed.

(** Two outdated pods, one missing, one left over, and a pod of another set. *)
Definition fx_start : World fx_cluster :=
  (((0%nat, fx_strange :: (fx_controlled <$> fx_before)), ([], ([fx_old; fx_new], [fx_ordered]))), ∅).

Definition fx_step (s : World fx_cluster) : World fx_cluster :=
  let s' := (Reconcile fx_req s).2 in (fx_kubelet s'.1, s'.2).
Definition fx_at (k : nat) : World fx_cluster := Nat.iter k fx_step fx_start.
Definition fx_well (k : nat) : bool := goesWell fx_req (fx_at k).

Example reconcile_rounds :
  (fun k => ((fun pod => (Name (pod_meta pod), getPodRevision pod)) <$> (fx_at k).1.1.2,
             synced fx_req (fx_at k))) <$> [0; 1; 2; 4; 12]%nat
  = [([("db-0", "x"); ("web-0", "r1"); ("web-1", "r1"); ("web-4", "r2")], Some (Ok (Some ErrConflict)));
     ([("db-0", "x"); ("web-0", "r1"); ("web-1", "r1"); ("web-4", "r2")], Some (Ok None));
     ([("db-0", "x"); ("web-0", "r1"); ("web-1", "r1"); ("web-4", "r2"); ("web-2", "r2")],
        Some (Ok (Some ErrConflict)));
     ([("db-0", "x"); ("web-0", "r1"); ("web-1", "r1"); ("web-2", "r2")], Some (Ok (Some ErrConflict)));
     ([("db-0", "x"); ("web-2", "r2"); ("web-1", "r2"); ("web-0", "r2")], Some (Ok None))].
Proof. vm_compute. reflexivity. Qed.

(** The fifteenth state does not change. *)
Lemma fx_always (P : World fx_cluster -> Prop) :
  (forall k, (k <= 14)%nat -> P (fx_at k)) -> forall k, P (fx_at k).
Proof. apply (iter_always P fx_step 14). vm_compute. reflexivity. Qed.

(** The set on the server, up to its status, and what the control works with. *)
Definition fx_version (st : StatefulSetStatus) : StatefulSet :=
  mkStatefulSet (set_meta fx_ordered) (set_Spec fx_ordered) st.
Definition fx_found (s : World fx_cluster) : option (StatefulSet * SetRevisions) :=
  match prepared fx_req s with
  | (Ok (Some (set, _)), s1) =>
      match ListRevisions set s1.1 with
      | (Ok (inr listed), w1) =>
          match getStatefulSetRevisions set (SortControllerRevisions listed) w1 with
          | (Ok (inr rs, _), _) => Some (set, rs)
          | _ => None
          end
      | _ => None
      end
  | _ => None
  end.

Lemma fx_found_finds s set pods s1 rs :
  prepared fx_req s = (Ok (Some (set, pods)), s1) -> finds (W := fx_cluster) 1 set s1.1 rs ->
  fx_found s = Some (set, rs).
Proof.
  unfold fx_found. intros -> (listed & w1 & revisions & w2 & El & Eg).
  change (ListRevisions set s1.1 = (Ok (inr listed), w1)) in El. rewrite El.
  change (getStatefulSetRevisions set (SortControllerRevisions listed) w1 = (Ok (inr rs, revisions), w2)) in Eg.
  by rewrite Eg.
Qed.

Lemma fx_at_found k :
  (exists st, (Get (A := StatefulSet) (realReconcileName fx_req) (fx_at k)).1 = inr (fx_version st))
  /\ exists st, fx_found (fx_at k) = Some (fx_version st, mkSetRevisions fx_new fx_new 0).
Proof.
  pattern (fx_at k). revert k. apply fx_always. intros k Hk.
  do 15 (destruct k as [|k]; [split; eexists; vm_compute; reflexivity|]). lia.
Qed.

Lemma fx_rollout_new st : rollout (fx_version st) fx_ordered fx_ordered fx_new fx_new 3 0 1.
Proof. destruct fx_rollout. by split. Qed.

Lemma fx_round s :
  (exists st, (Get (A := StatefulSet) (realReconcileName fx_req) s).1 = inr (fx_version st)) ->
  (exists st, fx_found s = Some (fx_version st, mkSetRevisions fx_new fx_new 0)) ->
  reconcileRound (W := fx_cluster) 1 fx_req fx_ordered fx_new 3 0 s (goesWell fx_req s) (fx_step s).
Proof.
  intros [st Hget] [st' Hfound]. split.
  - intros set0 Hset0. pose proof (eq_trans (eq_sym Hget) Hset0) as [= <-].
    split_and!; reflexivity.
  - intros set pods s1 rs Hprep Hrs. pose proof (fx_found_finds _ _ _ _ _ Hprep Hrs) as E.
    pose proof (eq_trans (eq_sym Hfound) E) as [= <- <-]. split; [reflexivity|].
    exists fx_ordered, fx_ordered, 1. apply fx_rollout_new.
  - reflexivity.
  - apply fx_kubelet_comeUp.
  - auto.
Qed.

Lemma fx_at_round k :
  reconcileRound (W := fx_cluster) 1 fx_req fx_ordered fx_new 3 0 (fx_at k) (fx_well k) (fx_at (S k)).
Proof. destruct (fx_at_found k). by apply fx_round. Qed.

#[local] Instance fx_steady_dec pod : Decision (steadyPod fx_ordered pod).
Proof. unfold steadyPod. apply _. Defined.

Lemma fx_start_ready : ready (W := fx_cluster) fx_ordered fx_new fx_start.
Proof.
  split.
  - split; apply (bool_decide_unpack _); vm_compute; exact I.
  - apply (bool_decide_unpack _). vm_compute. exact I.
  - reflexivity.
Qed.

(** Twelve reconciles, of which six fail; the pod of the other set is still there. *)
Lemma server_rollout_converges_witness :
  rolledOut fx_new 3 0 (members fx_ordered (fx_at 12).1)
  /\ (fun pod => Name (pod_meta pod)) <$> (fx_at 12).1.1.2 = ["db-0"; "web-2"; "web-1"; "web-0"].
Proof.
  split; [|vm_compute; reflexivity].
  apply (server_rollout_converges (W := fx_cluster) fx_listed 1 fx_req fx_ordered fx_new 3 0 fx_at fx_well).
  - apply fx_start_ready.
  - apply fx_at_round.
  - vm_compute. repeat constructor.
Defined.
