(* ===== verification/ServerInPlace.v ===== *)
(** An update in place with the pod control the operator runs with, on a server that carries
    out the writes about the pods it has: what one pass of the loop leaves of a set's pods. *)

From S2P Require Import Prelude Objects GoString Libraries Coordinate Naming Fixtures.
From S2P Require Import PodIdentity SetStatus InPlace Cluster CallLog Interfaces Expectations.
From S2P Require Import Revisions PodControl Control ServerStore LoopInvariants LoopSimulation.
From S2P Require Import ControlCalls ControlSafety NoPanic Convergence Rollout InPlaceRollout.
From S2P Require Import ServerRollout.

(** ** Calls that are made to look successful *)

(** The calls of an implementation, with a failed call of an update in place reported as done. *)
Definition forcedInPlace {W} `{StatefulPodControl W} : StatefulPodControl W := {|
  CreateStatefulPod := CreateStatefulPod;
  UpdateStatefulPod := UpdateStatefulPod;
  InPlaceUpdateStatefulPod set pod spec := fun w =>
    (Ok None, (InPlaceUpdateStatefulPod set pod spec w).2);
  UpdateStatefulPodCondition set pod c := fun w =>
    let (o, w') := UpdateStatefulPodCondition set pod c w in
    (match o with
     | Ok (None, pod') =>
         if decide (kept pod' = kept pod /\ pod_Spec pod' = pod_Spec pod) then Ok (None, pod')
         else Ok (None, pod)
     | _ => Ok (None, pod)
     end, w');
  DeleteStatefulPod := DeleteStatefulPod;
|}.

Lemma forced_inPlace {W} `{StatefulPodControl W} : @ReliableInPlace W forcedInPlace.
Proof.
  split; cbn.
  - intros set pod c w. destruct (UpdateStatefulPodCondition set pod c w) as [[[[e|] pod']|r] w'];
      [by eexists _, _| |by eexists _, _].
    destruct (decide _) as [[]|]; by eexists _, _.
  - intros set pod spec w. by eexists.
Qed.

(** A server that carries out a write of a pod it has: an update of its status leaves the rest
    of it as it is. *)
Class Serves (W : Type) `{Store W Pod P pod_meta payload} := {
  update_served pod w :
    is_Some (objects w !! keyOf (pod_meta pod)) -> (Update pod w).1.1 = None;
  status_served pod w old : objects w !! keyOf (pod_meta pod) = Some old ->
    exists pod' w', StatusUpdate pod w = ((None, pod'), w')
      /\ objects w' = <[keyOf (pod_meta pod) := pod']> (objects w)
      /\ pod_meta pod' = pod_meta old /\ pod_Spec pod' = pod_Spec old
      /\ pod_Status pod' = pod_Status pod;
}.

Section Server.
Context {W : Type} `{KubeLib, MapRange, Json Coordinates, PatchLib, Json InPlaceUpdateState}.
Context `{Client W Pod, Client W PersistentVolumeClaimT, RetryLaws, Aggregate, ErrorText}.
Context `{Recorder W, Clock W}.
Context `{!Store pod_meta kept, !Serves W, !PodsApart}.
Implicit Types w : W.

Lemma condition_served set pod c w old :
  podsOf w !! keyOf (pod_meta pod) = Some old ->
  exists q w', realUpdateStatefulPodCondition set pod c w = (Ok (None, q), w')
    /\ podsOf w' = <[keyOf (pod_meta pod) := q]> (podsOf w)
    /\ pod_meta q = pod_meta old /\ pod_Spec q = pod_Spec old
    /\ pod_Status q = pod_Status (updatePodCondition pod c).
Proof.
  intros Hold.
  assert (Hw : holds (realUpdateStatefulPodCondition set pod c) w (fun o w' => exists q,
    o = Ok (None, q) /\ podsOf w' = <[keyOf (pod_meta pod) := q]> (podsOf w)
    /\ pod_meta q = pod_meta old /\ pod_Spec q = pod_Spec old
    /\ pod_Status q = pod_Status (updatePodCondition pod c))).
  { unfold realUpdateStatefulPodCondition. apply holds_bind.
    apply (holds_retry _ _ _ _ (fun v w' => v = mkPodVars pod None false /\ w' = w)); [done|].
    intros v w' [-> ->]. unfold conditionAttempt. apply holds_bind, holds_call.
    destruct (status_served (updatePodCondition pod c) w old Hold) as (q & w1 & E & Hobj & Hm & Hs & Hst).
    cbn [thePod storePod ownCopy callerPod attempted default]. rewrite E. cbn [fst snd].
    apply holds_ret. split; [|done].
    apply holds_bind, recordPodEvent_pods. intros w2 Hp2. apply holds_ret. exists q. split; [done|].
    split_and!; [|done..]. rewrite Hp2. exact Hobj. }
  unfold holds in Hw. destruct (realUpdateStatefulPodCondition set pod c w) as [o w'].
  cbn [fst snd] in Hw. destruct Hw as (q & -> & ? & ? & ? & ?). by eexists _, _.
Qed.

Lemma inPlace_served set pod spec w :
  is_Some (podsOf w !! keyOf (pod_meta pod)) ->
  (forall now, exists stored, podInPlaceUpdate now pod spec = Ok (inr stored)
     /\ keyOf (pod_meta stored) = keyOf (pod_meta pod)) ->
  exists w' now stored r, realInPlaceUpdateStatefulPod set pod spec w = (Ok None, w')
    /\ podInPlaceUpdate now pod spec = Ok (inr stored) /\ kept r = kept stored
    /\ podsOf w' = <[keyOf (pod_meta pod) := r]> (podsOf w).
Proof.
  intros Hold Hup.
  assert (Hw : holds (realInPlaceUpdateStatefulPod set pod spec) w (fun o w' => exists now stored r,
    o = Ok None /\ podInPlaceUpdate now pod spec = Ok (inr stored) /\ kept r = kept stored
    /\ podsOf w' = <[keyOf (pod_meta pod) := r]> (podsOf w))).
  { unfold realInPlaceUpdateStatefulPod. apply holds_bind.
    apply (holds_retry _ _ _ _ (fun v w' => v = pod /\ w' = w)); [done|].
    intros v w' [-> ->]. unfold inPlaceAttempt. apply holds_bind, holds_call.
    pose proof (now_pods w) as Hp1. destruct (Now w) as [now w1]. cbn [fst snd] in *.
    destruct (Hup now) as (stored & E & Hk). apply holds_bind, holds_lift. rewrite E.
    apply holds_bind, holds_call.
    pose proof (update_served stored w1) as Hserved. destruct (Update stored w1) as [[err r] w2] eqn:Eu.
    pose proof (store_update _ _ _ _ _ Eu) as (_ & Hkept & Hst). cbn [fst snd] in *.
    rewrite Hserved in Hst |- *
      by (unfold podsOf in *; by rewrite Hp1, Hk).
    apply holds_ret. split; [|done]. apply holds_bind, recordPodEvent_pods. intros w3 Hp3.
    apply holds_ret. exists now, stored, r. split_and!; [done..|]. rewrite Hp3.
    unfold podsOf in *. by rewrite Hst, Hk, Hp1. }
  unfold holds in Hw. destruct (realInPlaceUpdateStatefulPod set pod spec w) as [o w'].
  cbn [fst snd] in Hw. destruct Hw as (now & stored & r & -> & ? & ? & ?). by eexists _, _, _, _.
Qed.
(** *** What an update writes *)

Lemma matched_labels set pod : identityMatches set pod = true -> Labels (pod_meta pod) <> ∅.
Proof.
  intros (o & _ & _ & Hname & _ & Hl)%identityMatches_spec E. unfold label in Hl.
  rewrite E, lookup_empty in Hl. rewrite Hname in Hl. unfold getPodName in Hl.
  by destruct (Name (set_meta set)).
Qed.

Lemma podInPlaceUpdate_written set now pod q spec :
  identityMatches set pod = true -> kept q = kept pod ->
  (exists p, applyPatches (patches spec) q = inr p) ->
  (forall p, applyPatches (patches spec) q = inr p -> kept p = kept q) ->
  exists stored, podInPlaceUpdate now q spec = Ok (inr stored)
    /\ keyOf (pod_meta stored) = keyOf (pod_meta q).
Proof.
  intros Hid Hq [p Hp] Hkept. specialize (Hkept p Hp). apply matched_labels in Hid.
  unfold podInPlaceUpdate. rewrite Hp. injection Hkept as Hn Hns Hl _. injection Hq as _ _ Hl' _.
  rewrite decide_False by congruence. eexists. split; [done|]. unfold keyOf. cbn. by rewrite Hn, Hns.
Qed.

(** *** A pass of the loop *)

Section Pass.
Context `{!KubeLibLaws, HistoryLib, SetCodec, SelectorLib, IntStrLib, GoSort, !GoSortLaws}.
Context (set cur upd : StatefulSet) (curRev updRev : ControllerRevision) (n partition maxU : Z).
Context (revisions : list ControllerRevision) (pods : list Pod) (objects0 : gmap ObjectKey Pod).
Hypothesis Hip : inPlaceRollout set cur upd curRev updRev n partition maxU revisions pods.
Hypothesis Hstaged : Forall (staged set updRev) pods.
Hypothesis Hapart : apart pods.
Hypothesis Hstored : forall pod, pod ∈ pods -> objects0 !! keyOf (pod_meta pod) = Some pod.
(** The patches of an update apply to the pods they were made for. *)
Definition patchable : Prop := forall pod q spec,
  pod ∈ pods -> planned set updRev revisions pod spec -> kept q = kept pod ->
  pod_Spec q = pod_Spec pod -> exists p, applyPatches (patches spec) q = inr p.
Hypothesis Hpatch : patchable.

(** Some of the calls sets this condition of the pod. *)
Definition conditioned (cs : list PodCall) (pod : Pod) (c : PodCondition) : Prop :=
  exists q, ConditionCall q c ∈ cs /\ Name (pod_meta q) = Name (pod_meta pod).
(** What calls have made of a pod: it was rewritten, or only its condition was set, or it is
    as it was. *)
Inductive became (cs : list PodCall) (pod : Pod) (r : Pod) : Prop :=
  | Became_rewritten q spec now stored :
      InPlaceCall q spec ∈ cs -> Name (pod_meta q) = Name (pod_meta pod) ->
      podInPlaceUpdate now q spec = Ok (inr stored) -> kept r = kept stored -> became cs pod r
  | Became_conditioned c :
      ~ rewritten cs pod -> kept r = kept pod -> pod_Spec r = pod_Spec pod ->
      conditioned cs pod c -> getInPlaceUpdateReadyCondition r = Some c -> became cs pod r
  | Became_same : ~ rewritten cs pod -> (forall c, ~ conditioned cs pod c) -> r = pod -> became cs pod r.

(** The objects of the server after the calls. *)
Definition carriedOut (cs : list PodCall) (m : gmap ObjectKey Pod) : Prop :=
  (forall pod, pod ∈ pods -> exists r, m !! keyOf (pod_meta pod) = Some r /\ became cs pod r)
  /\ forall k, (forall pod, pod ∈ pods -> keyOf (pod_meta pod) <> k) -> m !! k = objects0 !! k.

Lemma carriedOut_start : carriedOut [] objects0.
Proof.
  split; [|done]. intros pod Hp. exists pod. split; [by apply Hstored|].
  apply Became_same; [|intros c|done].
  - by intros (q & spec & ?%not_elem_of_nil & _).
  - by intros (q & ?%not_elem_of_nil & _).
Qed.

Lemma pod_namespace pod :
  pod ∈ pods -> identityMatches set pod = true /\ Namespace (pod_meta pod) = Namespace (set_meta set).
Proof.
  rewrite list.Forall_forall in Hstaged. intros [Hst|[Hun _]]%Hstaged.
  - destruct Hst as (_ & _ & _ & _ & Hid & _). split; [done|]. by apply identity_member.
  - destruct Hun as (_ & _ & _ & _ & Hid & _). split; [done|]. by apply identity_member.
Qed.
Lemma pod_key pod pod' :
  pod ∈ pods -> pod' ∈ pods -> keyOf (pod_meta pod) = keyOf (pod_meta pod') -> pod = pod'.
Proof. intros Hp Hp' [=]. by apply (same_pod pods). Qed.
Lemma pod_names pod pod' :
  pod ∈ pods -> pod' ∈ pods -> pod <> pod' ->
  Name (pod_meta pod) <> Name (pod_meta pod') /\ keyOf (pod_meta pod) <> keyOf (pod_meta pod').
Proof. intros Hp Hp' Hne. split; [intros E; by apply Hne, (same_pod pods)|intros E; by apply Hne, pod_key]. Qed.

(** A call about another pod. *)
Lemma became_other cs c pod r :
  Name (pod_meta (callPod c)) <> Name (pod_meta pod) -> became cs pod r -> became (cs ++ [c]) pod r.
Proof.
  intros Hne Hb.
  assert (Hr : ~ rewritten cs pod -> ~ rewritten (cs ++ [c]) pod).
  { intros Hno [?|(q & spec & Hq%list_elem_of_singleton & ?)]%rewritten_app; [done|]. by subst c. }
  destruct Hb as [q spec now stored Hq|d ? ? ? (q & Hq & ?) ?|? Hno ->].
  - apply (Became_rewritten _ _ _ q spec now stored); [apply elem_of_app; by left|done..].
  - apply (Became_conditioned _ _ _ d); auto. exists q. split; [apply elem_of_app; by left|done].
  - apply Became_same; auto. intros d (q & [Hq|Hq]%elem_of_app & E); [by apply (Hno d); exists q|].
    apply list_elem_of_singleton in Hq. by subst c.
Qed.

Lemma carriedOut_one cs m c pod r :
  carriedOut cs m -> pod ∈ pods -> Name (pod_meta (callPod c)) = Name (pod_meta pod) ->
  became (cs ++ [c]) pod r -> carriedOut (cs ++ [c]) (<[keyOf (pod_meta pod) := r]> m).
Proof.
  intros [Hall Hrest] Hp Hname Hr. split.
  - intros pod' Hp'. destruct (decide (pod = pod')) as [<-|Hne].
    + exists r. by rewrite lookup_insert_eq.
    + destruct (pod_names pod pod' Hp Hp' Hne) as [Hn Hk]. destruct (Hall pod' Hp') as (r' & Hr' & Hb).
      exists r'. rewrite lookup_insert_ne by done. split; [done|]. apply became_other; [congruence|done].
  - intros k Hk. rewrite lookup_insert_ne by by apply Hk. by apply Hrest.
Qed.

Lemma became_kept cs pod r :
  ~ rewritten cs pod -> became cs pod r -> kept r = kept pod /\ pod_Spec r = pod_Spec pod.
Proof. intros Hno [q spec now stored Hq ? _ _|c _ ? ? _ _|_ _ ->]; [|done..]. destruct Hno. by exists q, spec. Qed.

(** *** The operator's run and the forced one *)

(** Calls the server carries out. *)
Definition served (c : PodCall) : Prop :=
  match c with
  | ConditionCall pod c => pod ∈ pods /\ pc_Type c = StatefulSetInPlaceUpdateReady
  | InPlaceCall q spec =>
      Exists (fun pod => kept q = kept pod) pods
      /\ match applyPatches (patches spec) q with inr p => kept p = kept q | inl _ => False end
  | _ => False
  end.
#[local] Instance served_dec c : Decision (served c).
Proof. destruct c; cbn; try apply _. destruct (applyPatches _ _); apply _. Defined.

Lemma inPlaceCall_served c : inPlaceCall set updRev partition revisions pods c -> served c.
Proof.
  intros [pod Hp _|pod Hp _ _|pod q spec Hp _ _ Hq Hs Hplan]; [by split..|]. split.
  - apply list.Exists_exists. by exists pod.
  - destruct (Hpatch pod q spec Hp Hplan Hq Hs) as [p E]. rewrite E.
    by apply (ip_patches _ _ _ _ _ _ _ _ _ _ Hip _ _ q p Hplan).
Qed.

Lemma carriedOut_condition log m pod c q old :
  carriedOut log m -> served (ConditionCall pod c) -> ~ rewritten log pod ->
  m !! keyOf (pod_meta pod) = Some old ->
  pod_meta q = pod_meta old -> pod_Spec q = pod_Spec old ->
  pod_Status q = pod_Status (updatePodCondition pod c) ->
  carriedOut (log ++ [ConditionCall pod c]) (<[keyOf (pod_meta pod) := q]> m)
  /\ kept q = kept pod /\ pod_Spec q = pod_Spec pod.
Proof.
  intros Hout [Hp Hty] Hno Hold Hm Hs Hst. pose proof Hout as [Hall _].
  destruct (Hall pod Hp) as (r & Hr & Hb). rewrite Hold in Hr. injection Hr as ->.
  destruct (became_kept _ _ _ Hno Hb) as [Hk Hspec].
  assert (Hq : kept q = kept pod) by (rewrite <-Hk; unfold kept; by rewrite Hm, Hs).
  split_and!; [|done|congruence].
  apply carriedOut_one; [done..|]. apply (Became_conditioned _ _ _ c); [|done|congruence| |].
  - by intros [?|(? & ? & ?%list_elem_of_singleton & _)]%rewritten_app.
  - exists pod. split; [|done]. apply elem_of_app. right. by left.
  - unfold getInPlaceUpdateReadyCondition. rewrite Hst. cbn. rewrite replaceCondition_find.
    by rewrite decide_True.
Qed.

Lemma carriedOut_inPlace log m q spec now stored r :
  carriedOut log m -> served (InPlaceCall q spec) ->
  podInPlaceUpdate now q spec = Ok (inr stored) -> kept r = kept stored ->
  carriedOut (log ++ [InPlaceCall q spec]) (<[keyOf (pod_meta q) := r]> m).
Proof.
  intros Hout [(pod & Hp & Hk)%list.Exists_exists _] Hup Hr. injection Hk as Hn Hns _.
  assert (keyOf (pod_meta q) = keyOf (pod_meta pod)) as -> by (unfold keyOf; by rewrite Hn, Hns).
  apply carriedOut_one; [done..|]. apply (Became_rewritten _ _ _ q spec now stored); [|done..].
  apply elem_of_app. right. by left.
Qed.

(** Calls that the server carries out, in an order in which it does. *)
Definition servedLog (cs : list PodCall) : Prop := Forall served cs /\ inOrder cs.
Definition served_after (cs : list PodCall) (w : W) : Prop := carriedOut cs (podsOf w).
(** No call fails. *)
Definition unbroken (cs : list PodCall) (w : W) : Prop := False.
#[local] Instance servedLog_dec cs : Decision (servedLog cs).
Proof. unfold servedLog. apply _. Defined.
#[local] Instance forced : StatefulPodControl (W * list PodCall) :=
  tracedPodControl (H := forcedInPlace).

Lemma servedLog_app log cs : servedLog (log ++ cs) -> servedLog log.
Proof. by intros [[? _]%Forall_app [? _]%inOrder_app]. Qed.
Lemma unbroken_app log cs w : unbroken log w -> unbroken (log ++ cs) w.
Proof. done. Qed.
Lemma served_after_pods cs w w' : podsOf w' = podsOf w -> served_after cs w -> served_after cs w'.
Proof. intros Hp. unfold served_after. by rewrite Hp. Qed.
Notation agrees := (agrees (inStep served_after) (offCourse servedLog) (stopped unbroken)).

(** A call with the same result in both. *)
Lemma served_agrees {A} c (m m' : M W A) :
  (forall w log, carriedOut log (podsOf w) -> served c -> inOrder (log ++ [c]) ->
     m' w = m w /\ carriedOut (log ++ [c]) (podsOf (m w).2)) ->
  forall fails, agrees fails (api m) (api (logged c m')).
Proof.
  intros Hm fails. apply (logged_agrees _ _ _ servedLog_app unbroken_app).
  intros w log Hout [[_ [Hs _]%list.Forall_cons]%Forall_app Ho]. left. by apply Hm.
Qed.
Lemma notServed_agrees {A} c (m m' : M W A) :
  ~ served c -> forall fails, agrees fails (api m) (api (logged c m')).
Proof. intros Hc. apply served_agrees. intros w log _ Hs. by apply Hc in Hs. Qed.

Lemma served_alike :
  alike (W' := W * list PodCall) (inStep served_after) (offCourse servedLog) (stopped unbroken) set.
Proof.
  split.
  - intros m t r msg. apply (quiet_agrees _ _ _ servedLog_app unbroken_app); [done|].
    intros log w. apply served_after_pods, event_pods.
  - apply (quiet_agrees _ _ _ servedLog_app unbroken_app); [|intros log w; apply served_after_pods, now_pods].
    intros w log. cbn. by destruct (Now w).
  - intros pod. apply notServed_agrees. by intros [].
  - intros s pod. apply notServed_agrees. by intros [].
  - intros pod c. apply served_agrees. intros w log Hout Hs Ho. pose proof Hs as [Hp _].
    apply inOrder_app in Ho as (_ & _ & Hno). specialize (Hno pod c ltac:(by left)).
    pose proof Hout as [Hall _]. destruct (Hall pod Hp) as (old & Hold & _).
    destruct (condition_served set pod c w old Hold) as (q & w' & E & Hw' & Hm & Hspec & Hst).
    destruct (carriedOut_condition log (podsOf w) pod c q old) as (Hout' & Hk & Hs'); [done..|].
    cbn. rewrite E. rewrite decide_True by done. split; [done|]. cbn [snd]. by rewrite Hw'.
  - intros pod spec. apply served_agrees. intros w log Hout Hs Ho.
    pose proof Hs as [(pod' & Hp & Hk)%list.Exists_exists Happ].
    destruct (pod_namespace pod' Hp) as [Hid _].
    destruct (inPlace_served set pod spec w) as (w' & now & stored & r & E & Hup & Hr & Hw').
    + destruct Hout as [Hall _]. destruct (Hall pod' Hp) as (old & Hold & _).
      injection Hk as Hn Hns _. unfold keyOf in *. rewrite Hn, Hns. by eexists.
    + intros now. apply (podInPlaceUpdate_written set now pod'); [done..| |].
      * destruct (applyPatches _ _); [done|by eexists].
      * intros p Ep. by rewrite Ep in Happ.
    + cbn. rewrite E. split; [done|]. cbn [snd]. rewrite Hw'. by eapply carriedOut_inPlace.
  - intros pod. apply notServed_agrees. by intros [].
  - apply (onCache_agrees _ _ _ servedLog_app unbroken_app).
  - intros A. apply (readCache_agrees _ _ _ servedLog_app unbroken_app).
  - by intros w w' [].
Qed.

(** What one pass of the loop leaves: the calls of an update in place, carried out. *)
Hypothesis Hfull : full n pods.
Notation awaits := (Expectations.pending (getStatefulSetKey (set_meta set)) (rev_Name updRev)).

Lemma server_pass collisionCount w cache :
  podsOf w = objects0 -> awaits cache = ∅ ->
  holds (updateStatefulSet set curRev updRev collisionCount pods revisions) (w, cache) (fun o s =>
    exists cs, inPlacePost set updRev partition revisions pods o cs /\ carriedOut cs (podsOf s.1)
    /\ forall key, key ∈ awaits s.2 -> exists q spec, InPlaceCall q spec ∈ cs /\ getKey (pod_meta q) = key).
Proof.
  intros Hw Hsat. unfold holds.
  pose proof (updateStatefulSet_agrees _ _ _ set served_alike curRev updRev
    collisionCount pods revisions) as [_ Hag].
  specialize (Hag (w, cache) ((w, []), cache)).
  destruct (inPlace_run (H15 := forced_inPlace) set cur upd curRev updRev n partition maxU revisions pods
    Hip Hstaged Hfull Hapart collisionCount ((w, []), cache)) as (cs & Elog & Hpost);
    [by apply Satisfied_pending|].
  pose proof (loop_accounted (W := W) (H12 := forcedInPlace) set updRev curRev collisionCount pods revisions
    ((w, []), cache)) as Hacc.
  revert Hag Elog Hpost Hacc. unfold offCourse, inStep, stopped, servedLog, served_after, unbroken, accounted. cbn [fst snd].
  destruct (updateStatefulSet set curRev updRev collisionCount pods revisions ((w, []), cache))
    as [o' [[w' log] cache']].
  cbn. intros Hag -> Hpost Hacc.
  destruct Hag as [Hoff|[(Eo & Ew & Ec & Hout)|(a & _ & _ & [])]].
  - split_and!; [done..|]. rewrite Hw. apply carriedOut_start.
  - destruct Hoff. destruct Hpost as (Hcs & _ & _ & Ho & _). split; [|done].
    eapply list.Forall_impl; [exact Hcs|exact inPlaceCall_served].
  - exists cs. rewrite Eo. split_and!; [done..|]. rewrite Ec. intros key. apply Hacc.
    intros k Hk. rewrite Hsat in Hk. by apply not_elem_of_empty in Hk.
Qed.
End Pass.
End Server.

(** ** The kubelet, on what the server holds *)

Section Upkeep.
Context `{KubeLib, MapRange, Json Coordinates, PatchLib, Json InPlaceUpdateState, !JsonLaws InPlaceUpdateState}.
Context `{HistoryLib, SetCodec, IntStrLib}.

(** No container runs the image it had before the last update. *)
Definition replaced (pod : Pod) : Prop := forall value st name old,
  Annotations (pod_meta pod) !! StatefulSetInPlaceUpdateStateAnnotation = Some value ->
  unmarshal value = Some st -> LastContainerStatuses st !! name = Some old ->
  exists c, statusOf name (ContainerStatuses (pod_Status pod)) = Some c /\ cs_ImageID c <> old.

(** What a stored pod has become by the next reconcile: its containers run, those it was to
    replace with other images, and it is ready unless its readiness gate is closed. *)
Record upkeep (r pod : Pod) : Prop := mkUpkeep {
  up_kept : kept pod = kept r;
  up_images : replaced pod;
  up_condition : getInPlaceUpdateReadyCondition pod = getInPlaceUpdateReadyCondition r;
  up_runs : isCreated pod = true /\ isFailed pod = false;
  up_ready :
    (StatefulSetInPlaceUpdateReady ∈ ReadinessGates (pod_Spec pod) ->
     exists c, getInPlaceUpdateReadyCondition pod = Some c /\ pc_Status c <> ConditionFalse) ->
    isRunningAndReady pod = true;
}.

(** An update that had completed stays so. *)
Lemma replaced_completed r pod :
  kept pod = kept r -> replaced pod -> checkInPlaceUpdateCompleted r = None ->
  checkInPlaceUpdateCompleted pod = None.
Proof.
  intros Hk Himages Hr. pose proof (kept_revision _ _ Hk) as Hrev. injection Hk as _ _ _ Ha _ _ _ _.
  destruct (Annotations (pod_meta r) !! StatefulSetInPlaceUpdateStateAnnotation) as [value|] eqn:E.
  - destruct (unmarshal value) as [st|] eqn:Eu.
    + apply (checkInPlaceUpdateCompleted_spec r value st E Eu) in Hr as [Hst _].
      apply (checkInPlaceUpdateCompleted_spec pod value st); [congruence|done|].
      split; [congruence|]. intros name old. apply (Himages value st); [congruence|done].
    + unfold checkInPlaceUpdateCompleted in Hr. by rewrite E, Eu in Hr.
  - unfold checkInPlaceUpdateCompleted. by rewrite Ha, E.
Qed.
Lemma upkeep_completed r pod :
  upkeep r pod -> checkInPlaceUpdateCompleted r = None -> checkInPlaceUpdateCompleted pod = None.
Proof. intros Hup. apply replaced_completed; apply Hup. Qed.

(** Once its update has completed, a pod is ready unless it is still to be marked. *)
Lemma upkeep_ready r pod :
  upkeep r pod -> checkInPlaceUpdateCompleted pod = None -> shouldUpdateInPlaceReady pod = false ->
  isRunningAndReady pod = true.
Proof.
  intros Hup Hc Hs. apply (up_ready _ _ Hup). intros Hgate. revert Hs. unfold shouldUpdateInPlaceReady.
  rewrite bool_decide_eq_true_2 by done. cbn [negb]. rewrite decide_False by (intros []; done).
  destruct (getInPlaceUpdateReadyCondition pod) as [c|]; [|done].
  intros Hf%bool_decide_eq_false. by exists c.
Qed.

Lemma upkeep_gate r pod :
  upkeep r pod -> checkInPlaceUpdateCompleted r = None ->
  shouldUpdateInPlaceReady pod = shouldUpdateInPlaceReady r.
Proof.
  intros Hup Hc. pose proof (upkeep_completed _ _ Hup Hc) as Hc'.
  unfold shouldUpdateInPlaceReady. rewrite (up_condition _ _ Hup).
  pose proof (up_kept _ _ Hup) as Hk. injection Hk as _ _ _ _ _ _ _ ->. by rewrite Hc, Hc'.
Qed.

Lemma shouldUpdate_completed pod : shouldUpdateInPlaceReady pod = true -> checkInPlaceUpdateCompleted pod = None.
Proof.
  unfold shouldUpdateInPlaceReady. destruct (negb _); [done|]. destruct (decide _) as [|Hn]; [done|].
  intros _. destruct (checkInPlaceUpdateCompleted pod); [|done]. by destruct Hn.
Qed.

(** A rewritten pod whose containers have been replaced. *)
Lemma upkeep_rewritten now q spec stored r pod :
  podInPlaceUpdate now q spec = Ok (inr stored) -> kept r = kept stored -> upkeep r pod ->
  restarted spec stored pod.
Proof.
  intros Hw Hk Hup. pose proof (eq_trans (up_kept _ _ Hup) Hk) as Hk'.
  unfold podInPlaceUpdate in Hw. destruct (applyPatches _ _) as [e|p]; [done|].
  destruct (decide _) in Hw; [done|]. set (st := mkInPlaceState _ _ _) in Hw. injection Hw as <-.
  assert (Ha : Annotations (pod_meta pod) !! StatefulSetInPlaceUpdateStateAnnotation = Some (marshal st)).
  { injection Hk' as _ _ _ -> _ _ _ _. cbn. apply lookup_insert_eq. }
  assert (Hst : unmarshal (marshal st) = Some st) by apply unmarshal_marshal.
  assert (Hc : checkInPlaceUpdateCompleted pod = None).
  { apply (checkInPlaceUpdateCompleted_spec pod (marshal st) st Ha Hst). split.
    - rewrite (kept_revision _ _ Hk'). symmetry. apply getPodRevision_set.
    - intros name old. by apply (up_images _ _ Hup (marshal st) st). }
  split; [done| |by apply Hup|by apply (upkeep_ready r)].
  intros name old. by apply (up_images _ _ Hup (marshal st) st).
Qed.

(** What the server and the kubelet do is what [carried] allows. *)
Lemma upkeep_carried set updRev partition pods cs pod r pod' :
  apart pods -> Forall (moveCall set updRev partition pods) cs -> followed cs ->
  pod ∈ pods -> staged set updRev pod -> became cs pod r -> upkeep r pod' -> carried set cs pod pod'.
Proof.
  intros Hapart Hcs Hfol Hpod Hstaged Hb Hup. rewrite list.Forall_forall in Hcs.
  destruct Hb as [q spec now stored Hq Hn Hw Hk|c Hno Hk _ (q & Hq & Hn) Hc|Hno Hnone ->].
  - eapply CarriedUpdate; [exact Hq|done..|]. by eapply upkeep_rewritten.
  - destruct (Hcs _ Hq) as [(-> & Hp & Hun)|(-> & Hp & _)].
    2: { destruct (Hfol _ Hq) as (q' & spec & Hq' & Hk'). destruct Hno. exists q', spec.
         split; [done|]. injection Hk' as Hn' _. congruence. }
    assert (q = pod) as -> by by apply (same_pod pods).
    pose proof (up_kept _ _ Hup) as Hk'. rewrite Hk in Hk'. destruct Hun as (_ & _ & _ & Hs & _).
    apply shouldUpdate_completed, (replaced_completed pod pod' Hk' (up_images _ _ Hup)) in Hs.
    assert (Hgate : shouldUpdateInPlaceReady pod' = false).
    { unfold shouldUpdateInPlaceReady. destruct (negb _); [done|]. rewrite decide_False by (intros []; done).
      by rewrite (up_condition _ _ Hup), Hc. }
    apply CarriedMark; [done|by exists pod|done| |done..]. by apply (upkeep_ready _ _ Hup).
  - pose proof (up_kept _ _ Hup) as Hk. destruct (kept_matches set _ _ Hk) as [Hi Hst].
    assert (Ht : isTerminating pod' = isTerminating pod).
    { injection Hk as _ _ _ _ Hd _ _ _. unfold isTerminating. by rewrite Hd. }
    apply CarriedRest; [done| |done|..].
    + intros (q & Hq & Hn). apply (Hnone updateEnds). by exists q.
    + intros (_ & Hterm & Hs & Hc & Hid & Hsm). pose proof (upkeep_gate _ _ Hup Hc) as Hg.
      pose proof (upkeep_completed _ _ Hup Hc) as Hc'. unfold steadyPod. rewrite Hi, Hst, Ht, Hg.
      split_and!; try done. apply (upkeep_ready _ _ Hup); congruence.
    + intros (_ & _ & Hterm & Hs & Hid & Hsm). pose proof (upkeep_gate _ _ Hup (shouldUpdate_completed _ Hs)) as Hg.
      unfold unmarkedPod. rewrite Hi, Hst, Ht, Hg. destruct (up_runs _ _ Hup). by split_and!.
Qed.
End Upkeep.

(** ** The members of a set after a pass *)

Section Members.
Context {W : Type} `{KubeLib, MapRange, Json Coordinates, PatchLib, Json InPlaceUpdateState}.
Context `{Client W Pod, !Store pod_meta kept}.
Implicit Types w : W.

Lemma carriedOut_members set pods cs w w' :
  members set w ≡ₚ pods -> carriedOut pods (podsOf w) cs (podsOf w') ->
  exists rs, members set w' ≡ₚ rs /\ Forall2 (became cs) pods rs.
Proof.
  intros Hpods [Hall Hrest].
  assert (Hmem : forall pod, pod ∈ pods <-> pod ∈ members set w) by (intros pod; by rewrite Hpods).
  assert (Hrs : exists rs, Forall2 (fun pod r => podsOf w' !! keyOf (pod_meta pod) = Some r /\ became cs pod r) pods rs).
  { apply list.Forall_exists_Forall2_l, list.Forall_forall, Hall. }
  destruct Hrs as [rs Hrs]. exists rs.
  assert (Hkeys : (keyOf ∘ pod_meta <$> rs) = (keyOf ∘ pod_meta <$> pods)).
  { clear -Hrs. induction Hrs as [|pod r pods rs [Hr _] _ IH]; [done|]. cbn.
    by rewrite IH, (store_key _ _ _ Hr). }
  assert (Hnd : NoDup (keyOf ∘ pod_meta <$> pods)).
  { rewrite <-Hpods. apply NoDup_fmap_2_strong; [|apply members_NoDup].
    intros p q (Hp & _)%elem_of_members (Hq & _)%elem_of_members E. cbn in E. rewrite E in Hp. congruence. }
  split.
  - apply NoDup_Permutation; [apply members_NoDup|apply (NoDup_fmap_1 (keyOf ∘ pod_meta)); by rewrite Hkeys|].
    intros r. rewrite elem_of_members. split.
    + intros (Hr & Hns & Hm). destruct (decide (keyOf (pod_meta r) ∈ keyOf ∘ pod_meta <$> pods)) as [Hin|Hout].
      * apply list_elem_of_fmap in Hin as (pod & E & [i Hi]%list_elem_of_lookup).
        destruct (list.Forall2_lookup_l _ _ _ _ _ Hrs Hi) as (r' & Hi' & Hr' & _). cbn in E. rewrite <-E, Hr in Hr'.
        injection Hr' as <-. by eapply list_elem_of_lookup_2.
      * rewrite Hrest in Hr; [|intros pod Hp E; apply Hout; rewrite <-E; by apply (list_elem_of_fmap_2 (keyOf ∘ pod_meta))].
        destruct Hout. apply (list_elem_of_fmap_2 (keyOf ∘ pod_meta)), Hmem, elem_of_members. done.
    + intros [i Hi]%list_elem_of_lookup. destruct (list.Forall2_lookup_r _ _ _ _ _ Hrs Hi) as (pod & Hi' & Hr & _).
      assert (Hp : pod ∈ members set w) by (apply Hmem; by eapply list_elem_of_lookup_2).
      apply elem_of_members in Hp as (_ & Hns & Hm). pose proof (store_key _ _ _ Hr) as Hk. rewrite Hk.
      injection Hk as Hkns Hkn. split_and!; [done|congruence|]. rewrite <-Hm. unfold isMemberOf, getParentName.
      by rewrite (parentAndOrdinal_Name r pod).
  - eapply list.Forall2_impl; [exact Hrs|]. by intros pod r [].
Qed.
End Members.
