(* ===== verification/ServerInPlaceReconcile.v ===== *)
(** Whole reconciles of a set that is updated in place, with the components the operator runs
    with, on a server that keeps what is written to it: one after the other they bring every
    pod of the set to the update revision, and delete none. *)

From S2P Require Import Prelude Objects GoString Libraries Coordinate Naming Fixtures.
From S2P Require Import PodIdentity SetStatus InPlace Cluster CallLog Interfaces Expectations.
From S2P Require Import Revisions PodControl RealPodControl Control StsController ServerStore.
From S2P Require Import LoopInvariants LoopSimulation ControlCalls ControlSafety NoPanic.
From S2P Require Import Convergence Rollout InPlaceRollout FullReconcile ServerRollout.
From S2P Require Import ServerControl ServerReconcile ServerInPlace ControlWitnesses.

Section Server.
Context {W : Type} `{KubeLib, !KubeLibLaws, MapRange, Json Coordinates, PatchLib}.
Context `{Json InPlaceUpdateState, !JsonLaws InPlaceUpdateState}.
Context `{Client W Pod, Client W PersistentVolumeClaimT, RetryLaws, Aggregate, ErrorText}.
Context `{Recorder W, Clock W, Lister W Pod}.
Context `{!Store pod_meta kept, !Serves W, !Patches W Pod pod_meta kept}.
Context `{!Lists W Pod pod_meta kept, !PodsApart, LabelMatch}.
Context `{HistoryLib, SetCodec, SelectorLib, IntStrLib, GoSort, !GoSortLaws}.
Context `{RefManager, !RefManagerLaws, !ClaimLaws}.
Context `{Client W ControllerRevision, !Apart ControllerRevision podsOf, Lister W ControllerRevision}.
Context `{Client W StatefulSet, !Apart StatefulSet podsOf}.
Context (list_pods : forall ns sel w,
  podsOf (List_ (A := ControllerRevision) ns sel w).2 = podsOf w).
Context (fuel : nat).
#[local] Instance inPlaceHistory : ControllerHistory W := realHistory fuel.

(** ** The control *)

(** The revisions the control works with, and all revisions of the set. *)
Definition findsAll (set : StatefulSet) (w : W) (rs : SetRevisions) (revisions : list ControllerRevision)
  : Prop :=
  exists listed w1 w2, ListRevisions set w = (Ok (inr listed), w1)
    /\ getStatefulSetRevisions set (SortControllerRevisions listed) w1 = (Ok (inr rs, revisions), w2).

(** The revisions found lead to an update in place of these pods to [updRev]. *)
Definition leadsTo (set : StatefulSet) (updRev : ControllerRevision) (n partition : Z) (pods : list Pod)
    (rs : SetRevisions) (revisions : list ControllerRevision) : Prop :=
  rev_Name (updateRevision rs) = rev_Name updRev
  /\ exists cur upd maxU,
       inPlaceRollout set cur upd (currentRevision rs) (updateRevision rs) n partition maxU revisions pods
       /\ patchable set (updateRevision rs) revisions pods.

Notation awaits set updRev :=
  (Expectations.pending (getStatefulSetKey (set_meta set)) (rev_Name updRev)).

(** What calls of an update in place, carried out, leave of the pods of a set; [well]: some of
    them move a pod if any is to be moved. *)
Definition passed (set : StatefulSet) (updRev : ControllerRevision) (partition : Z) (well : bool)
    (pods : list Pod) (cache : controllerCache) (s' : World W) : Prop :=
  exists cs rs, Forall (moveCall set updRev partition pods) cs /\ followed cs
    /\ (well = true -> ~ updated set updRev partition pods -> Exists moves cs)
    /\ members set s'.1 ≡ₚ rs /\ Forall2 (became cs) pods rs
    /\ forall key, key ∈ awaits set updRev s'.2 ->
         key ∈ awaits set updRev cache
         \/ exists q spec, InPlaceCall q spec ∈ cs /\ getKey (pod_meta q) = key.

Lemma passed_idle set updRev partition pods s' :
  members set s'.1 ≡ₚ pods -> passed set updRev partition false pods s'.2 s'.
Proof.
  intros Hmem. exists [], pods. split_and!; [constructor|by intros pod ?%not_elem_of_nil|done|done| |auto].
  apply Forall_Forall2_diag, list.Forall_forall. intros pod _. apply Became_same; [|intros c|done].
  - by intros (q & spec & ?%not_elem_of_nil & _).
  - by intros (q & ?%not_elem_of_nil & _).
Qed.

(** Only the name of the update revision matters for what is to be reached. *)
Lemma move_renamed set rev updRev partition pods :
  rev_Name rev = rev_Name updRev ->
  (Forall (staged set updRev) pods -> Forall (staged set rev) pods)
  /\ (forall c, moveCall set rev partition pods c -> moveCall set updRev partition pods c)
  /\ (updated set rev partition pods -> updated set updRev partition pods)
  /\ forall cache, observePods set rev pods cache = observePods set updRev pods cache.
Proof.
  intros Hrev. split_and!.
  - unfold staged. by rewrite Hrev.
  - intros c. unfold moveCall, behind. by rewrite Hrev.
  - unfold updated. by rewrite Hrev.
  - intros cache. unfold observePods. by rewrite Hrev.
Qed.

Lemma control_inPlace set updRev n partition pods s :
  inPlaceReady set updRev n (pods, s.2) -> members set s.1 ≡ₚ pods ->
  (forall rs revisions, findsAll set s.1 rs revisions -> leadsTo set updRev n partition pods rs revisions) ->
  holds (UpdateStatefulSet set pods) s (fun o s' =>
    passed set updRev partition (noError o) pods s.2 s').
Proof.
  intros Hready Hmem Hfinds. destruct s as [w cache]. cbn [fst snd] in *.
  assert (Hearly : forall o w1, podsOf w1 = podsOf w -> noError o = false ->
    passed set updRev partition (noError o) pods cache (w1, cache)).
  { intros o w1 Hp ->. apply (passed_idle _ _ _ _ (w1, cache)). cbn. by rewrite (members_pods set w w1). }
  assert (Hp1 : podsOf (ListRevisions set w).2 = podsOf w)
    by by apply (ListRevisions_part podsOf list_pods fuel (podsOf w)).
  unfold UpdateStatefulSet. apply holds_bind, holds_below. unfold holds at 1. cbn [fst snd].
  destruct (ListRevisions set w) as [[[e|listed]|r] w1] eqn:El; cbn [fst snd] in *;
    [by apply holds_ret, Hearly| |by apply Hearly].
  assert (Hp2 : podsOf (getStatefulSetRevisions set (SortControllerRevisions listed) w1).2 = podsOf w)
    by by apply (getStatefulSetRevisions_part podsOf fuel (podsOf w)).
  apply holds_bind, holds_below. unfold holds at 1. cbn [fst snd].
  destruct (getStatefulSetRevisions set (SortControllerRevisions listed) w1)
    as [[[[e|rs] revisions]|r] w2] eqn:Eg; cbn [fst snd] in *;
    [by apply holds_ret, Hearly| |by apply Hearly].
  destruct (Hfinds rs revisions) as (Hrev & cur & upd & maxU & Hip & Hpatch); [by eexists _, _, _|].
  eapply holds_step; [reflexivity|].
  pose proof Hready as [Hstaged Hapart Hfull _].
  pose proof (observed_none set updRev n set (pods, cache) pods ltac:(by repeat split) Hready (reflexivity _)) as Hnone.
  destruct (move_renamed set _ _ partition pods Hrev) as (Hst & Hcalls & Hupd & Hobs).
  apply holds_bind. eapply holds_mono.
  { apply (server_pass set cur upd (currentRevision rs) (updateRevision rs) n partition maxU revisions pods
      (podsOf w)); [done|by apply Hst|done| |done|done|congruence|by rewrite Hrev, Hobs].
    intros pod Hpod. rewrite <-Hmem in Hpod. by apply elem_of_members in Hpod as [? _]. }
  intros o s' (cs & (Hcs & Hmoves & Hfol & _ & st & reps & ->) & Hout & Hacc).
  assert (Hpassed : forall b s'', unmoved (podsOf s'.1) s'.2 s'' ->
    passed set updRev partition b pods cache s'').
  { intros b s'' [Hp Hc]. rewrite <-Hp in Hout.
    destruct (carriedOut_members set pods cs w s''.1 Hmem Hout) as (rs' & Hmem' & Hrs).
    exists cs, rs'. split_and!; [|done|by auto|done..|].
    - eapply list.Forall_impl; [exact Hcs|]. intros c Hc'. eapply Hcalls, call_moves; [|exact Hip|done].
      by repeat split.
    - rewrite Hc, <-Hrev. intros key Hk. right. by apply Hacc. }
  unfold holds. apply Hpassed.
  by apply (rest_unmoved fuel (podsOf s'.1) s'.2 set st (writeBack pods reps) revisions
    (currentRevision rs) (updateRevision rs) s').
Qed.

(** ** Whole reconciles *)

Section Rounds.
Context (req : ObjectKey) (set : StatefulSet) (updRev : ControllerRevision) (n partition : Z).

(** Neither the order of the pods nor the status of the set matters. *)
Lemma moveCall_same set' pods pods' c :
  sameSet set set' -> pods ≡ₚ pods' ->
  moveCall set' updRev partition pods c -> moveCall set updRev partition pods' c.
Proof.
  intros Hset Hp. unfold moveCall, unmarkedPod, steadyPod. destruct c as [| |q spec|pod c|]; try done.
  - setoid_rewrite Hp. intros (? & ? & pod & Hin & Hst & ?). split_and!; [done..|]. exists pod.
    by rewrite (identityMatches_same set set'), (storageMatches_same set set') in Hst.
  - by rewrite Hp, (identityMatches_same set set'), (storageMatches_same set set').
Qed.

Lemma inPlaceReady_same set' pods pods' cache :
  sameSet set set' -> pods ≡ₚ pods' ->
  inPlaceReady set updRev n (pods, cache) -> inPlaceReady set' updRev n (pods', cache).
Proof.
  intros Hset Hp [Hst Hap [Hfull Hlt] Haw]. cbn [fst snd] in *. split; cbn [fst snd].
  - rewrite <-Hp. eapply list.Forall_impl; [exact Hst|]. intros pod. by apply staged_same.
  - unfold apart. by rewrite <-Hp.
  - split; [intros i Hi|]; setoid_rewrite <-Hp; auto.
  - rewrite (stateKey_same set set') by done. setoid_rewrite <-Hp. exact Haw.
Qed.

Lemma passed_same set' well pods pods' cache s' :
  sameSet set set' -> pods ≡ₚ pods' ->
  passed set' updRev partition well pods cache s' -> passed set updRev partition well pods' cache s'.
Proof.
  intros Hset Hp (cs & rs & Hcs & Hfol & Hmoves & Hmem & Hrs & Hacc).
  destruct (Permutation_Forall2 Hp Hrs) as (rs' & Hrs' & Hall). exists cs, rs'. split_and!.
  - eapply list.Forall_impl; [exact Hcs|]. intros c. by apply moveCall_same.
  - done.
  - intros Hw Hnot. apply Hmoves; [done|]. rewrite updated_same by done. intros Hup. apply Hnot.
    intros pod. rewrite <-Hp. apply Hup.
  - by rewrite <-(members_same set set'), Hmem.
  - done.
  - by rewrite <-(stateKey_same set set').
Qed.

Lemma wholeReconcile_passed s :
  inPlaceReady set updRev n (members set s.1, s.2) -> Forall (claimable set) (members set s.1) ->
  holdsSet req set s ->
  (forall set' pods s1 rs revisions, prepared req s = (Ok (Some (set', pods)), s1) ->
     findsAll set' s1.1 rs revisions -> leadsTo set' updRev n partition pods rs revisions) ->
  passed set updRev partition (goesWell req s) (members set s.1) s.2 (Reconcile req s).2.
Proof.
  intros Hready Hclaim Hset Hfinds. rewrite Reconcile_prepared. unfold goesWell, synced.
  pose proof (prepared_members list_pods fuel req set s (members set s.1) s.2 Hset Hclaim
    (conj (reflexivity _) eq_refl)) as Hprep.
  unfold holds in Hprep.
  destruct (prepared req s) as [o s1] eqn:Ep. cbn [fst snd] in Hprep.
  destruct Hprep as [[Hm Hc] Ho].
  assert (Hidle : passed set updRev partition false (members set s.1) s.2 s1)
    by (rewrite <-Hc; by apply passed_idle).
  destruct o as [[[set' pods]|]|r]; [|done..].
  destruct (Ho set' pods eq_refl) as [Hsame Hpods].
  pose proof (control_inPlace set' updRev n partition pods s1) as Hctl. rewrite Hc in Hctl.
  apply (passed_same set' _ pods); [done..|]. apply Hctl.
  - by apply (inPlaceReady_same set' (members set s.1)).
  - by rewrite (members_same set set'), Hm.
  - intros rs revisions. by apply (Hfinds set' pods s1).
Qed.

(** *** One after the other *)

(** A reconcile of some version of the set; if it comes to the control, the revisions it finds
    lead to an update in place to [updRev]. Then the kubelet sees to the pods, and no
    expectation of the set is added. [well] says that it came to the control, which returned
    no error. *)
Inductive inPlaceServerRound (s : World W) (well : bool) (s' : World W) : Prop :=
  | InPlaceServerRound :
      holdsSet req set s ->
      (forall set' pods s1 rs revisions, prepared req s = (Ok (Some (set', pods)), s1) ->
         findsAll set' s1.1 rs revisions -> leadsTo set' updRev n partition pods rs revisions) ->
      well = goesWell req s ->
      (exists l, Forall2 upkeep (members set (Reconcile req s).2.1) l /\ members set s'.1 ≡ₚ l) ->
      (forall key, key ∈ awaits set updRev s'.2 -> key ∈ awaits set updRev (Reconcile req s).2.2) ->
      inPlaceServerRound s well s'.

(** The state between reconciles. *)
Record readyInPlace (s : World W) : Prop := mkReadyInPlace {
  rip_ready : inPlaceReady set updRev n (members set s.1, s.2);
  rip_claimable : Forall (claimable set) (members set s.1);
}.
Notation left s := (inPlaceDistance updRev partition (members set s.1)).

(** The selector of the set does not look at the revision of a pod. *)
Hypothesis Hselects : forall labels rev,
  Matches (Selector (set_Spec set)) (<[StatefulSetRevisionLabel := rev]> labels)
  = Matches (Selector (set_Spec set)) labels.

Lemma carried_claimable pods cs pod pod' :
  apart pods -> Forall (moveCall set updRev partition pods) cs -> pod ∈ pods ->
  carried set cs pod pod' -> claimable set pod -> claimable set pod'.
Proof.
  intros Hapart Hcs Hpod Hcar. rewrite list.Forall_forall in Hcs.
  destruct Hcar as [q spec now stored Hq Hn Hw [Hk _ _ _]|_ _ Hk _ _ _|_ _ Hk _ _]; [|by apply kept_claimable..].
  destruct (Hcs _ Hq) as (_ & Hpatch & pod0 & Hp0 & _ & _ & Hk0).
  assert (pod0 = pod) as -> by (apply (same_pod pods); [done..|]; injection Hk0; congruence).
  unfold podInPlaceUpdate in Hw. destruct (applyPatches _ _) as [e|p] eqn:Ea; [done|].
  apply Hpatch in Ea. destruct (decide _) in Hw; [done|]. injection Hw as <-.
  intros Hclaim. apply (kept_claimable set _ p (eq_trans Ea Hk0)) in Hclaim as [Hown Hmatch].
  injection Hk as _ _ Hl _ _ Hor _ _. split.
  - unfold controlledBy. by rewrite Hor.
  - rewrite Hl. cbn. by rewrite Hselects.
Qed.

Lemma serverRound_ready s well s' :
  readyInPlace s -> inPlaceServerRound s well s' ->
  readyInPlace s'
  /\ (Name ∘ pod_meta <$> members set s'.1) ≡ₚ (Name ∘ pod_meta <$> members set s.1)
  /\ (left s' <= left s)%nat
  /\ (well = true -> ~ updated set updRev partition (members set s.1) -> (left s' < left s)%nat).
Proof.
  intros [Hready Hclaim] [Hset Hfinds -> (l & Hup & Hl) Hkeep].
  destruct (wholeReconcile_passed s Hready Hclaim Hset Hfinds)
    as (cs & rs & Hcs & Hfol & Hmoves & Hmem & Hrs & Hacc).
  destruct (Permutation_Forall2 Hmem Hup) as (l' & Hl' & Hup'). rewrite Hl' in Hl.
  pose proof Hready as [Hstaged Hapart _ _]. cbn [fst snd] in *.
  assert (Hcar : Forall2 (carried set cs) (members set s.1) l').
  { apply list.Forall2_same_length_lookup_2.
    - by rewrite (list.Forall2_length _ _ _ Hrs), (list.Forall2_length _ _ _ Hup').
    - intros k pod pod' Hp Hp'. destruct (list.Forall2_lookup_l _ _ _ _ _ Hrs Hp) as (r & Hr & Hb).
      pose proof (list.Forall2_lookup_lr _ _ _ _ _ _ Hup' Hr Hp') as Hu.
      apply list_elem_of_lookup_2 in Hp. rewrite list.Forall_forall in Hstaged.
      apply (upkeep_carried set updRev partition (members set s.1) cs pod r); auto. }
  destruct (carried_ready set updRev n partition (members set s.1, s.2) (members set s'.1, s'.2) cs l')
    as (Hready' & Hnames & Hle & Hlt); [done..| |].
  { cbn. intros key Hk. by apply Hacc, Hkeep. }
  split_and!; [|done..|auto]. split; [done|]. rewrite Hl.
  apply list.Forall_forall. intros pod' [k Hk]%list_elem_of_lookup.
  destruct (list.Forall2_lookup_r _ _ _ _ _ Hcar Hk) as (pod & Hp & Hc).
  apply list_elem_of_lookup_2 in Hp. rewrite list.Forall_forall in Hclaim.
  eapply carried_claimable; eauto.
Qed.

(** C4: Convergence in place. On a server that keeps what is written and carries out the
    writes of the pods it has, reconciles of a set follow one another, with the pod control,
    revision history and status updater the operator runs with, where calls about other
    objects may fail. When the pods of the set are all there and those behind can be updated
    in place: no pod of the set is ever deleted or created, none gets further away from the
    update revision, and after as many reconciles as computed came to the control and had no
    error there, every pod from the partition up is at the update revision and steady, and
    stays so. *)
Theorem server_inPlace_converges (states : nat -> World W) (well : nat -> bool) :
  readyInPlace (states 0%nat) ->
  (forall k, inPlaceServerRound (states k) (well k) (states (S k))) ->
  forall k, (Name ∘ pod_meta <$> members set (states k).1)
              ≡ₚ (Name ∘ pod_meta <$> members set (states 0%nat).1)
    /\ ((left (states 0%nat) <= wellSteps well k)%nat ->
        updated set updRev partition (members set (states k).1)).
Proof.
  intros Hinit Hround k.
  enough (readyInPlace (states k)
    /\ (Name ∘ pod_meta <$> members set (states k).1)
         ≡ₚ (Name ∘ pod_meta <$> members set (states 0%nat).1)
    /\ (left (states k) <= left (states 0%nat) - wellSteps well k)%nat) as ([Hr _] & Hn & Hd).
  { split; [done|]. intros Hle. apply (inPlaceDistance_updated set); [apply Hr|lia]. }
  induction k as [|k ([Hr Hc] & Hn & Hd)].
  { split_and!; [done..|]. change (wellSteps well 0) with 0%nat. lia. }
  destruct (serverRound_ready _ _ _ (mkReadyInPlace _ Hr Hc) (Hround k)) as (Hr' & Hn' & Hle & Hlt).
  split_and!; [done|by rewrite Hn'|]. rewrite wellSteps_S.
  pose proof (inPlaceDistance_updated set updRev partition _ (ipr_staged _ _ _ _ Hr)) as Hupd. cbn [fst] in Hupd.
  rewrite Hupd in Hlt. destruct (well k); lia.
Qed.
End Rounds.
End Server.
