(* ===== verification/ServerInPlaceWitness.v ===== *)
(** A concrete update in place on a server, on which the theorem of [ServerInPlaceReconcile] is
    applied. *)

From S2P Require Import Prelude Objects GoString Libraries Coordinate Cluster Fixtures Naming.
From S2P Require Import Expectations PodIdentity SetStatus InPlace Interfaces Revisions.
From S2P Require Import CallLog.
From S2P Require Import PodControl RealPodControl Control StsController ServerStore.
From S2P Require Import Convergence.
From S2P Require Import Rollout InPlaceRollout FullReconcile ServerRollout ServerControl.
From S2P Require Import ServerReconcile ServerInPlace ServerInPlaceReconcile ControlWitnesses.
From S2P Require Import ServerFixtures ControlSafety.

(** ** A server that carries out every call *)

Notation fx_place := (fx_clusterOf (list Pod)).
#[local] Instance fx_placePods : Client (list Pod) Pod := fx_server pod_meta fx_keepPod.
#[local] Instance fx_placeStore : Store pod_meta kept (H := fx_placePods) := fx_podStore.
#[local] Instance fx_placePatches : Patches (list Pod) Pod pod_meta kept.
Proof. apply fx_server_patches. Defined.
#[local] Instance fx_placeHistory : ControllerHistory fx_place := realHistory 1.

#[local] Instance fx_placeServes : Serves fx_place.
Proof.
  split; [done|]. intros pod w old Hold. cbn in Hold. rewrite fx_map_find in Hold. cbn.
  rewrite Hold. eexists _, _. split; [reflexivity|]. split_and!; [|done..]. cbn.
  etransitivity; [apply (fx_map_store pod_meta)|]. f_equal. apply (fx_find_key pod_meta _ _ _ Hold).
Defined.

(** ** The kubelet *)

(** Containers run the image they are to run; a closed readiness gate keeps a pod from being
    ready. *)
Definition fx_gateOpen (pod : Pod) : bool :=
  if decide (StatefulSetInPlaceUpdateReady ∈ ReadinessGates (pod_Spec pod)) then
    match getInPlaceUpdateReadyCondition pod with
    | Some c => negb (bool_decide (pc_Status c = ConditionFalse))
    | None => false
    end
  else true.
Definition fx_run (pod : Pod) : Pod :=
  mkPod (pod_meta pod) (pod_Spec pod)
    (mkPodStatus "Running"
       ((if fx_gateOpen pod then [mkPodCondition "Ready" "True" "" ""] else [])
          ++ match getInPlaceUpdateReadyCondition pod with Some c => [c] | None => [] end)
       ((fun c => mkContainerStatus (ctr_Name c) ("sha of " +:+ ctr_Image c) "")
          <$> Containers (pod_Spec pod)) "").
Definition fx_operate (w : fx_place) : fx_place := (fx_run <$> w.1, w.2).

Lemma fx_run_condition r : getInPlaceUpdateReadyCondition (fx_run r) = getInPlaceUpdateReadyCondition r.
Proof.
  destruct (getInPlaceUpdateReadyCondition r) as [c|] eqn:E; unfold getInPlaceUpdateReadyCondition; cbn;
    rewrite E; [|by destruct (fx_gateOpen r)].
  unfold getInPlaceUpdateReadyCondition in E. apply fmap_Some in E as ([i c'] & Hf & ->).
  apply list_find_Some in Hf as (_ & Hty & _). cbn in Hty |- *.
  destruct (fx_gateOpen r); cbn; [rewrite decide_False by done|]; by rewrite decide_True.
Qed.

(** Checked on the value of the annotation. *)
Definition fx_replacedb (pod : Pod) : bool :=
  match Annotations (pod_meta pod) !! StatefulSetInPlaceUpdateStateAnnotation with
  | Some value =>
      match unmarshal value with
      | Some st =>
          forallb (fun '(name, old) =>
            match statusOf name (ContainerStatuses (pod_Status pod)) with
            | Some c => negb (bool_decide (cs_ImageID c = old))
            | None => false
            end) (map_to_list (LastContainerStatuses st))
      | None => true
      end
  | None => true
  end.
Lemma fx_replacedb_replaced pod : fx_replacedb pod = true -> replaced pod.
Proof.
  unfold fx_replacedb. intros Hb value st name old Ha Hu Hl. rewrite Ha, Hu, forallb_forall in Hb.
  specialize (Hb (name, old)). cbn in Hb. destruct (statusOf _ _) as [c|].
  - exists c. split; [done|]. intros E. rewrite bool_decide_eq_true_2 in Hb by done.
    discriminate Hb. by apply list_elem_of_In, elem_of_map_to_list.
  - discriminate Hb. by apply list_elem_of_In, elem_of_map_to_list.
Qed.

Lemma fx_run_upkeep r : fx_replacedb (fx_run r) = true -> upkeep r (fx_run r).
Proof.
  intros Hb. split; [reflexivity|by apply fx_replacedb_replaced|apply fx_run_condition|done|].
  intros Hready. enough (Ho : fx_gateOpen r = true) by (unfold isRunningAndReady, fx_run; by rewrite Ho).
  unfold fx_gateOpen. destruct (decide _) as [Hg|]; [|done]. destruct (Hready Hg) as (c & Hc & Hn).
  rewrite fx_run_condition in Hc. by rewrite Hc, bool_decide_eq_false_2.
Qed.

Lemma fx_operate_upkeep set w :
  forallb fx_replacedb (fx_run <$> members set w) = true ->
  exists l, Forall2 upkeep (members set w) l /\ members set (fx_operate w) ≡ₚ l.
Proof.
  intros Hall. exists (fx_run <$> members set w). split.
  - apply list.Forall2_fmap_r, Forall_Forall2_diag, list.Forall_forall. intros r Hr. apply fx_run_upkeep.
    rewrite forallb_forall in Hall. by apply Hall, list_elem_of_In, list_elem_of_fmap_2.
  - rewrite (members_mapped fx_run set w (fx_operate w)); [done..|]. by apply (fx_map_kept fx_run).
Qed.

(** ** The states *)

Definition fx_gatedPod (i : Z) (rev image : string) : Pod :=
  fx_run (mkPod (pod_meta (fx_controlled (fx_member i rev)))
    (mkPodSpec None [mkContainer "c" image ""] [StatefulSetInPlaceUpdateReady] None "" "" "" "")
    (mkPodStatus "Running" [updateEnds] [] "")).
Definition fx_placeVersion (st : StatefulSetStatus) : StatefulSet :=
  mkStatefulSet (set_meta fx_inPlaceSet) (set_Spec fx_inPlaceSet) st.
Definition fx_placeStart : World fx_place :=
  (([fx_strange; fx_gatedPod 0 "r1" "nginx:0"; fx_gatedPod 1 "r1" "nginx:0"; fx_gatedPod 2 "r2" "nginx:1"],
    ([], ([fx_old; fx_new],
      [fx_placeVersion (mkStatefulSetStatus 0 3 3 2 1 "r1" "r2" None [])]))), ∅).
Definition fx_placeStep (s : World fx_place) : World fx_place :=
  let s' := (Reconcile fx_req s).2 in (fx_operate s'.1, s'.2).
Definition fx_placeAt (k : nat) : World fx_place := Nat.iter k fx_placeStep fx_placeStart.
Definition fx_placeWell (k : nat) : bool := goesWell fx_req (fx_placeAt k).

(** One pod is rewritten, then marked as ready, then the next. *)
Example inPlace_server_rounds :
  (fun k => (fun pod => (Name (pod_meta pod), getPodRevision pod, isRunningAndReady pod))
            <$> (fx_placeAt k).1.1) <$> seq 0 6
  = [[("db-0", "x", true); ("web-0", "r1", true); ("web-1", "r1", true); ("web-2", "r2", true)];
     [("db-0", "x", true); ("web-0", "r1", true); ("web-2", "r2", true); ("web-1", "r2", false)];
     [("db-0", "x", true); ("web-0", "r1", true); ("web-2", "r2", true); ("web-1", "r2", true)];
     [("db-0", "x", true); ("web-2", "r2", true); ("web-1", "r2", true); ("web-0", "r2", false)];
     [("db-0", "x", true); ("web-2", "r2", true); ("web-1", "r2", true); ("web-0", "r2", true)];
     [("db-0", "x", true); ("web-2", "r2", true); ("web-1", "r2", true); ("web-0", "r2", true)]].
Proof. vm_compute. reflexivity. Qed.

(** What the control works with, if a reconcile gets that far. *)
Definition fx_placeFound (s : World fx_place)
    : option (StatefulSet * list Pod * SetRevisions * list ControllerRevision) :=
  match prepared fx_req s with
  | (Ok (Some (set, pods)), s1) =>
      match ListRevisions set s1.1 with
      | (Ok (inr listed), w1) =>
          match getStatefulSetRevisions set (SortControllerRevisions listed) w1 with
          | (Ok (inr rs, revisions), _) => Some (set, pods, rs, revisions)
          | _ => None
          end
      | _ => None
      end
  | _ => None
  end.
Lemma fx_placeFound_finds s set pods s1 rs revisions :
  prepared fx_req s = (Ok (Some (set, pods)), s1) ->
  findsAll (W := fx_place) 1 set s1.1 rs revisions ->
  fx_placeFound s = Some (set, pods, rs, revisions).
Proof.
  unfold fx_placeFound. intros -> (listed & w1 & w2 & El & Eg).
  change (ListRevisions set s1.1 = (Ok (inr listed), w1)) in El. rewrite El.
  change (getStatefulSetRevisions set (SortControllerRevisions listed) w1 = (Ok (inr rs, revisions), w2)) in Eg.
  by rewrite Eg.
Qed.

(** Pods at one of the two revisions. *)
Definition fx_atEither (pods : list Pod) : bool :=
  forallb (fun pod => bool_decide (getPodRevision pod ∈ ["r1"; "r2"])) pods.
(** The set on the server, up to its status. *)
Definition fx_isVersion (set : StatefulSet) : bool :=
  bool_decide (set_meta set = set_meta fx_inPlaceSet /\ set_Spec set = set_Spec fx_inPlaceSet).
Lemma fx_isVersion_eq set : fx_isVersion set = true -> set = fx_placeVersion (set_Status set).
Proof. destruct set as [m spec st]. intros [Hm Hs]%bool_decide_eq_true. cbn in Hm, Hs. by subst. Qed.

(** What is computed of a state: the set that is found, what the control works with, and the
    pods after the reconcile. *)
Definition fx_shape (s : World fx_place) : bool :=
  match (Get (A := StatefulSet) (realReconcileName fx_req) s).1 with
  | inr set => fx_isVersion set
  | inl _ => false
  end
  && match fx_placeFound s with
     | Some (set, pods, rs, revisions) =>
         fx_isVersion set && fx_atEither pods
         && bool_decide (updateRevision rs = fx_new /\ revisions = [fx_old; fx_new])
     | None => false
     end
  && forallb fx_replacedb (fx_run <$> members fx_inPlaceSet (Reconcile fx_req s).2.1).

Lemma fx_placeAt_shape k : fx_shape (fx_placeAt k) = true.
Proof.
  revert k. apply (iter_always (fun s => fx_shape s = true) fx_placeStep 5); [vm_compute; reflexivity|].
  intros k Hk. do 6 (destruct k as [|k]; [vm_compute; reflexivity|]). lia.
Qed.

(** ** The rounds *)

Lemma fx_inPlace_selects labels rev :
  Matches (Selector (set_Spec fx_inPlaceSet)) (<[StatefulSetRevisionLabel := rev]> labels)
  = Matches (Selector (set_Spec fx_inPlaceSet)) labels.
Proof.
  cbn. replace (map_to_list _) with [("app", "web")] by (vm_compute; reflexivity). cbn.
  by rewrite lookup_insert_ne by (vm_compute; discriminate).
Qed.

Lemma fx_version_leadsTo st pods rs :
  updateRevision rs = fx_new -> fx_atEither pods = true ->
  leadsTo (fx_placeVersion st) fx_new 3 0 pods rs [fx_old; fx_new].
Proof.
  intros Hupd Hpods. destruct rs as [cur upd count]. cbn in Hupd. subst upd. split; [done|].
  exists (fx_set 3 "" (fx_rolling 0 1)), (fx_set 3 "" (fx_rolling 0 1)), 1. split; [split; try done|].
  - eexists. by split_and!.
  - intros pod Hp [_ Hne]. unfold planned.
    assert (Hrev : getPodRevision pod ∈ ["r1"; "r2"]).
    { apply (bool_decide_unpack _), Is_true_true. unfold fx_atEither in Hpods.
      rewrite forallb_forall in Hpods. by apply Hpods, list_elem_of_In. }
    apply elem_of_cons in Hrev as [->|Hrev]; [by eexists|].
    apply list_elem_of_singleton in Hrev. by rewrite Hrev in Hne.
  - intros name spec pod pod' _ [= <-].
    enough (Hk : forall ops pod, kept (foldl _ pod ops) = kept pod) by apply Hk.
    induction ops as [|[op path [| |image| | |]] ops IH]; intros p; cbn; by rewrite ?IH.
  - intros pod q spec _ _ _ _. by eexists.
Qed.

Lemma fx_placeStep_round s :
  fx_shape s = true ->
  inPlaceServerRound (W := fx_place) 1 fx_req fx_inPlaceSet fx_new 3 0 s (goesWell fx_req s) (fx_placeStep s).
Proof.
  unfold fx_shape. intros [[Hget Hfound]%andb_true_iff Hpods]%andb_true_iff. split.
  - intros set0 Hset0. unfold holdsSet in *. rewrite Hset0 in Hget.
    rewrite (fx_isVersion_eq _ Hget). by split_and!.
  - intros set pods s1 rs revisions Hprep Hrs.
    rewrite (fx_placeFound_finds _ _ _ _ _ _ Hprep Hrs) in Hfound.
    apply andb_true_iff in Hfound as [[Hv Hp]%andb_true_iff [Hu ->]%bool_decide_eq_true].
    rewrite (fx_isVersion_eq _ Hv). by apply fx_version_leadsTo.
  - reflexivity.
  - by apply (fx_operate_upkeep fx_inPlaceSet).
  - auto.
Qed.

#[local] Instance fx_staged_dec pod : Decision (staged fx_inPlaceSet fx_new pod).
Proof. unfold staged, steadyPod, unmarkedPod. apply _. Defined.

Lemma fx_placeStart_full : full 3 (members fx_inPlaceSet fx_placeStart.1).
Proof.
  assert (Hall : Forall (fun i => Exists (fun pod => getOrdinal pod = i) (members fx_inPlaceSet fx_placeStart.1))
    [0; 1; 2] /\ Forall (fun pod => getOrdinal pod < 3) (members fx_inPlaceSet fx_placeStart.1))
    by (apply (bool_decide_unpack _); vm_compute; exact I).
  rewrite !list.Forall_forall in Hall. destruct Hall as [Hin Hlt]. split; [|done]. intros i Hi.
  apply list.Exists_exists, Hin. rewrite !elem_of_cons. lia.
Qed.

Lemma fx_placeStart_ready : readyInPlace (W := fx_place) fx_inPlaceSet fx_new 3 fx_placeStart.
Proof.
  split; [split|].
  - apply (bool_decide_unpack _). vm_compute. exact I.
  - apply (bool_decide_unpack _). vm_compute. exact I.
  - apply fx_placeStart_full.
  - intros key Hkey. by apply not_elem_of_empty in Hkey.
  - apply (bool_decide_unpack _). vm_compute. exact I.
Qed.

(** Five reconciles: the pods of the set have been updated in place, and the pod of another set
    is as it was. *)
Lemma server_inPlace_converges_witness :
  updated fx_inPlaceSet fx_new 0 (members fx_inPlaceSet (fx_placeAt 5).1)
  /\ (fun pod => Name (pod_meta pod)) <$> (fx_placeAt 5).1.1 = ["db-0"; "web-2"; "web-1"; "web-0"].
Proof.
  split; [|vm_compute; reflexivity].
  apply (server_inPlace_converges (W := fx_place) fx_listed 1 fx_req fx_inPlaceSet fx_new 3 0
    fx_inPlace_selects fx_placeAt fx_placeWell).
  - apply fx_placeStart_ready.
  - intros k. apply fx_placeStep_round, fx_placeAt_shape.
  - vm_compute. repeat constructor.
Defined.
